(* ===== verification/_CoqProject ===== *)
-Q . S2P
Prelude.v
LtHash.v
Types.v
Gate.v
Registry.v
Serve.v
ServeConditions.v
ServeProofs.v
ServeSafety.v
StateStore.v
StateStoreProofs.v
StateStoreLedger.v
ClickHouse.v
InstallJournal.v
ManifestStore.v
ManifestFeed.v
ManifestToy.v
Ddl.v
Copyset.v
CopysetProofs.v
CopysetPass.v
CopysetToy.v
Installer.v
InstallBracket.v
InstallBounds.v
InstallLaws.v
InstallReconcile.v
InstallPass.v
InstallInv.v
InstallOwner.v
InstallApply.v
InstallFrame.v
InstallHistory.v
InstallToy.v
OwnerAudit.v
Promote.v
ShadowMatch.v
PromoteProofs.v
PromoteSafety.v
Base64.v
Authority.v
