(* ===== verification/Prelude.v ===== *)
(** * A verification development of arbiter-core

    (Header completed below, see the end of this comment block.) *)
From Stdlib Require Export Ascii Lia.
From stdpp Require Export base tactics decidable option gmap gmultiset sorting strings pretty.
From stdpp Require Export fin_maps numbers list.


(** ** Fallible computations

    Go's [(T, error)] pair, with the invariant every function of the modelled
    code keeps: a non-nil error comes with a zero value. *)
Inductive result (E A : Type) : Type :=
| Ok (a : A)
| Err (e : E).
Arguments Ok {E A} _.
Arguments Err {E A} _.

Definition rbind {E A B} (m : result E A) (f : A → result E B) : result E B :=
  match m with Ok a => f a | Err e => Err e end.

(** [fmt.Errorf("...: %w", err)]: the error is wrapped, the value kept. *)
Definition rwrap {E F A} (w : E → F) (m : result E A) : result F A :=
  match m with Ok a => Ok a | Err e => Err (w e) end.

Definition of_option {E A} (e : E) (o : option A) : result E A :=
  match o with Some a => Ok a | None => Err e end.

Declare Scope go_scope.
Delimit Scope go_scope with go.
Notation "'let*' x := m 'in' k" := (rbind m (fun x => k))
  (at level 10, x binder, m at level 200, k at level 200, only parsing) : go_scope.
Notation "'guard*' b 'else' e 'in' k" := (if (b : bool) then k else Err e)
  (at level 10, b at level 200, e at level 200, k at level 200, only parsing) : go_scope.
#[global] Open Scope go_scope.

Lemma rbind_ok {E A B} (m : result E A) (f : A → result E B) b :
  rbind m f = Ok b ↔ ∃ a, m = Ok a ∧ f a = Ok b.
Proof.
  destruct m as [a|e]; simpl; split; [by eauto| |done|]; by intros (? & [= ->] & ?).
Qed.

Lemma of_option_ok {E A} (e : E) (o : option A) a : of_option e o = Ok a ↔ o = Some a.
Proof. destruct o; naive_solver. Qed.

Lemma rwrap_ok {E F A} (w : E → F) (m : result E A) a : rwrap w m = Ok a ↔ m = Ok a.
Proof. destruct m; naive_solver. Qed.

(** [result_map f l]: a loop that appends [f x] for each [x] and returns at
    the first error. *)
Fixpoint result_map {E A B} (f : A → result E B) (l : list A) : result E (list B) :=
  match l with
  | [] => Ok []
  | x :: l => let* y := f x in let* ys := result_map f l in Ok (y :: ys)
  end.

(** ** The development's tactics *)

(** Splits a successful monadic computation into its successful steps. *)
Ltac go_inv :=
  repeat match goal with
  | H : rbind _ _ = Ok _ |- _ => apply rbind_ok in H as (? & ? & H)
  | H : of_option _ _ = Ok _ |- _ => apply of_option_ok in H
  | H : rwrap _ _ = Ok _ |- _ => apply rwrap_ok in H
  | H : (if ?b then _ else _) = Ok _ |- _ => destruct b eqn:?; try discriminate H
  | H : (if ?b then _ else _) = Some _ |- _ => destruct b eqn:?; try discriminate H
  | H : Ok _ = Ok _ |- _ => injection H as H
  | H : Err _ = Ok _ |- _ => discriminate H
  | H : Ok _ = Err _ |- _ => discriminate H
  end.

(** Turns boolean tests of the code into the propositions they decide. *)
Ltac unbool :=
  repeat match goal with
  | H : bool_decide _ = true |- _ => apply bool_decide_eq_true_1 in H
  | H : bool_decide _ = false |- _ => apply bool_decide_eq_false_1 in H
  | H : negb _ = true |- _ => apply negb_true_iff in H
  | H : negb _ = false |- _ => apply negb_false_iff in H
  | H : _ && _ = true |- _ => apply andb_true_iff in H as [? H]
  | H : _ || _ = false |- _ => apply orb_false_iff in H as [? H]
  end.

(** ** Machine integers *)

(** [uint64] values are [N]; arithmetic that may leave the range wraps. *)
Definition u64_mod : N := (2 ^ 64)%N.
Definition max_u64 : N := (u64_mod - 1)%N.
Definition u64 (n : N) : N := (n mod u64_mod)%N.
Definition is_u64 (n : N) : Prop := (n < u64_mod)%N.

Lemma u64_small n : is_u64 n → u64 n = n.
Proof. apply N.mod_small. Qed.

Lemma is_u64_u64 n : is_u64 (u64 n).
Proof. apply N.mod_lt. by vm_compute. Qed.

(** ** Go maps

    A read of an absent key gives the zero value of the element type. *)
Definition get_or {K V} `{Countable K} (zero : V) (m : gmap K V) (k : K) : V :=
  default zero (m !! k).


(** ** Multisets as counting maps

    [left := counts(l)] and the loops that consume it. *)
Section counting.
Context {K : Type} `{Countable K}.
Implicit Types (m : gmap K nat) (X Y : gmultiset K) (l : list K).

Definition counts (l : list K) : gmap K nat :=
  foldl (fun m h => <[h := S (get_or 0 m h)]> m) ∅ l.

(** [left[h]--] *)
Definition dec (m : gmap K nat) (h : K) : gmap K nat := <[h := pred (get_or 0 m h)]> m.

(** [for _, h := range l { if left[h] == 0 { fail }; left[h]-- }] *)
Fixpoint consume (m : gmap K nat) (l : list K) : option (gmap K nat) :=
  match l with
  | [] => Some m
  | h :: l => if bool_decide (get_or 0 m h = 0) then None else consume (dec m h) l
  end.

(** [for _, x := range l { if left[f x] > 0 { left[f x]--; keep x } else { drop x } }],
    giving the kept items, the dropped items and the final [left]. *)
Fixpoint pick {A} (f : A → K) (m : gmap K nat) (l : list A) : list A * list A * gmap K nat :=
  match l with
  | [] => ([], [], m)
  | x :: l =>
      if bool_decide (0 < get_or 0 m (f x))
      then let '(k, d, m') := pick f (dec m (f x)) l in (x :: k, d, m')
      else let '(k, d, m') := pick f m l in (k, x :: d, m')
  end.

(** What a counting map counts. *)
Definition reps (m : gmap K nat) (X : gmultiset K) : Prop :=
  ∀ h, get_or 0 m h = multiplicity h X.

Lemma get_or_insert {V} (z : V) (m : gmap K V) k v j :
  get_or z (<[k := v]> m) j = if decide (k = j) then v else get_or z m j.
Proof. unfold get_or. rewrite lookup_insert. by case_decide. Qed.

Lemma gms_difference_empty X : X ∖ ∅ = X.
Proof. apply gmultiset_eq. intros h. rewrite multiplicity_difference, multiplicity_empty. lia. Qed.

Lemma gms_difference_add X Y Z : X ∖ (Y ⊎ Z) = X ∖ Y ∖ Z.
Proof.
  apply gmultiset_eq. intros h.
  rewrite !multiplicity_difference, multiplicity_disj_union. lia.
Qed.

Lemma ms_elements l : elements (list_to_set_disj l : gmultiset K) ≡ₚ l.
Proof.
  induction l as [|x l IH]; [by rewrite list_to_set_disj_nil, gmultiset_elements_empty|].
  rewrite list_to_set_disj_cons, gmultiset_elements_disj_union, gmultiset_elements_singleton.
  by rewrite IH.
Qed.

Lemma ms_perm l k : list_to_set_disj l =@{gmultiset K} list_to_set_disj k ↔ l ≡ₚ k.
Proof.
  split; [|intros Hp; by rewrite Hp]. intros Heq.
  by rewrite <- (ms_elements l), Heq, ms_elements.
Qed.

Lemma ms_sub_length l k :
  list_to_set_disj l ⊆@{gmultiset K} list_to_set_disj k → length l = length k → l ≡ₚ k.
Proof.
  intros Hsub Hlen. apply ms_perm.
  rewrite (gmultiset_disj_union_difference _ _ Hsub).
  assert (size (list_to_set_disj k ∖ list_to_set_disj l : gmultiset K) = 0) as Hz.
  { rewrite gmultiset_size_difference by done. unfold size, gmultiset_size. simpl.
    rewrite !ms_elements. lia. }
  apply gmultiset_size_empty_inv in Hz. by rewrite Hz, (right_id_L ∅ (⊎)).
Qed.

Lemma counts_reps_aux m X l :
  reps m X →
  reps (foldl (fun m h => <[h := S (get_or 0 m h)]> m) m l) (X ⊎ list_to_set_disj l).
Proof.
  revert m X. induction l as [|h l IH]; intros m X HX; simpl.
  - by rewrite (right_id_L ∅ (⊎)).
  - rewrite (assoc_L (⊎)). apply (IH _ (X ⊎ {[+ h +]})). intros j.
    rewrite get_or_insert, multiplicity_disj_union, !HX.
    rewrite multiplicity_singleton. repeat case_decide; subst; try done; lia.
Qed.

Lemma counts_reps l : reps (counts l) (list_to_set_disj l).
Proof.
  rewrite <- (left_id_L ∅ (⊎) (list_to_set_disj l)). apply counts_reps_aux.
  intros h. unfold get_or. by rewrite lookup_empty, multiplicity_empty.
Qed.

Lemma dec_reps m X h : reps m X → reps (dec m h) (X ∖ {[+ h +]}).
Proof.
  intros HX j. unfold dec. rewrite get_or_insert, multiplicity_difference, !HX.
  rewrite multiplicity_singleton. repeat case_decide; subst; try done; lia.
Qed.

Lemma reps_zero m X h : reps m X → get_or 0 m h = 0 ↔ h ∉ X.
Proof. intros ->. rewrite elem_of_multiplicity. lia. Qed.

Lemma reps_unique m X Y : reps m X → reps m Y → X = Y.
Proof. intros HX HY. apply gmultiset_eq. intros h. by rewrite <- HX, <- HY. Qed.

Lemma consume_some m X l m' :
  reps m X → consume m l = Some m' →
  list_to_set_disj l ⊆ X ∧ reps m' (X ∖ list_to_set_disj l).
Proof.
  revert m X. induction l as [|h l IH]; intros m X HX; simpl.
  - intros [= ->]. split; [multiset_solver|]. by rewrite gms_difference_empty.
  - intros Hc. go_inv. unbool. rewrite (reps_zero _ X) in Heqb by done.
    destruct (IH _ _ (dec_reps _ _ h HX) Hc) as [Hsub Hr]. split; [multiset_solver|].
    by rewrite gms_difference_add.
Qed.

Lemma consume_none m X l :
  reps m X → consume m l = None → ¬ list_to_set_disj l ⊆ X.
Proof.
  revert m X. induction l as [|h l IH]; intros m X HX; simpl; [done|].
  case_bool_decide as Hz.
  - intros _. rewrite (reps_zero _ X) in Hz by done. multiset_solver.
  - intros Hc. specialize (IH _ _ (dec_reps _ _ h HX) Hc).
    rewrite (reps_zero _ X) in Hz by done. multiset_solver.
Qed.

(** The keys [pick] keeps are exactly the intersection of what was left
    with what was offered; everything offered is kept or dropped, in order;
    and what remains is the difference. *)
Lemma pick_spec {A} (f : A → K) m X (l k d : list A) m' :
  reps m X → pick f m l = (k, d, m') →
  list_to_set_disj (f <$> k) = X ∩ list_to_set_disj (f <$> l) ∧
  k ++ d ≡ₚ l ∧ reps m' (X ∖ list_to_set_disj (f <$> l)).
Proof.
  revert m X k d m'. induction l as [|x l IH]; intros m X k d m' HX; cbn [pick].
  - intros [= <- <- <-]. rewrite fmap_nil, list_to_set_disj_nil.
    rewrite gms_difference_empty. split; [|done]. multiset_solver.
  - case_bool_decide as Hpos.
    + destruct (pick f (dec m (f x)) l) as [[k0 d0] m0] eqn:Hp. intros [= <- <- <-].
      destruct (IH _ _ _ _ _ (dec_reps _ _ (f x) HX) Hp) as (Hk & Hperm & Hr).
      rewrite HX in Hpos.
      split; [|split].
      * rewrite ?fmap_cons, ?list_to_set_disj_cons, Hk. apply gmultiset_eq. intros h.
        rewrite !multiplicity_disj_union, !multiplicity_intersection,
          multiplicity_difference, multiplicity_disj_union.
        rewrite multiplicity_singleton. case_decide; subst; lia.
      * by rewrite <- Hperm.
      * rewrite fmap_cons, list_to_set_disj_cons. by rewrite gms_difference_add.
    + destruct (pick f m l) as [[k0 d0] m0] eqn:Hp. intros [= <- <- <-].
      destruct (IH _ _ _ _ _ HX Hp) as (Hk & Hperm & Hr).
      rewrite HX in Hpos.
      assert (f x ∉ X) as Hnot by (rewrite elem_of_multiplicity; lia).
      split; [|split].
      * rewrite ?fmap_cons, ?list_to_set_disj_cons, Hk. apply gmultiset_eq. intros h.
        rewrite !multiplicity_intersection, multiplicity_disj_union.
        rewrite multiplicity_singleton. case_decide; subst; lia.
      * by rewrite <- Permutation_middle, Hperm.
      * rewrite fmap_cons, list_to_set_disj_cons. rewrite gms_difference_add.
        replace (X ∖ {[+ f x +]}) with X; [done|]. apply gmultiset_eq. intros h.
        rewrite multiplicity_difference, multiplicity_singleton. case_decide; subst; lia.
Qed.
End counting.

(** ** Sorted slices

    [slices.Sort], [sort.Strings] and [slices.SortFunc] as stdpp's
    [merge_sort], [slices.Compact] as [compact]. *)
Section compact.
Context {A : Type} `{EqDecision A}.

Fixpoint compact (l : list A) : list A :=
  match l with
  | [] => []
  | x :: l' =>
      match l' with
      | [] => [x]
      | y :: _ => if bool_decide (x = y) then compact l' else x :: compact l'
      end
  end.

Lemma elem_of_compact x l : x ∈ compact l ↔ x ∈ l.
Proof.
  induction l as [|y l IH]; [done|].
  destruct l as [|z l]; [done|].
  change (compact (y :: z :: l)) with
    (if bool_decide (y = z) then compact (z :: l) else y :: compact (z :: l)).
  rewrite elem_of_cons, <- IH. case_bool_decide as Heq; [|by rewrite elem_of_cons].
  subst. rewrite IH, elem_of_cons. tauto.
Qed.

Context (R : relation A) `{!Transitive R, !AntiSymm (=) R}.

Lemma compact_ssorted l : StronglySorted R l → StronglySorted R (compact l).
Proof.
  induction l as [|y l IH]; [done|]. destruct l as [|z l]; [done|].
  intros [Hs Hall]%StronglySorted_inv. specialize (IH Hs).
  change (compact (y :: z :: l)) with
    (if bool_decide (y = z) then compact (z :: l) else y :: compact (z :: l)).
  case_bool_decide; [done|]. constructor; [done|].
  rewrite Forall_forall in Hall |- *. intros x Hx. rewrite elem_of_compact in Hx. by apply Hall.
Qed.

Lemma compact_nodup l : StronglySorted R l → NoDup (compact l).
Proof.
  induction l as [|y l IH]; [constructor|]. destruct l as [|z l].
  { intros _. apply NoDup_singleton. }
  intros [Hs Hall]%StronglySorted_inv. specialize (IH Hs).
  change (compact (y :: z :: l)) with
    (if bool_decide (y = z) then compact (z :: l) else y :: compact (z :: l)).
  case_bool_decide as Hne; [done|]. constructor; [|done].
  intros Hin. rewrite elem_of_compact in Hin. apply StronglySorted_inv in Hs as [Hs Hz].
  apply elem_of_cons in Hin as [->|Hin]; [done|].
  apply Hne. apply (anti_symm R).
  - rewrite Forall_forall in Hall. apply Hall. set_solver.
  - rewrite Forall_forall in Hz. by apply Hz.
Qed.
End compact.

(** [out := slices.Clone(ids); slices.Sort(out); slices.Compact(out)] *)
Definition sort_strings : list string → list string := merge_sort String.le.
Definition sorted_set (l : list string) : list string := compact (sort_strings l).

Lemma sort_strings_perm l : sort_strings l ≡ₚ l.
Proof. apply merge_sort_Permutation. Qed.

Lemma sort_strings_sorted l : StronglySorted String.le (sort_strings l).
Proof. apply StronglySorted_merge_sort; apply _. Qed.

Lemma elem_of_sort_strings x l : x ∈ sort_strings l ↔ x ∈ l.
Proof. by rewrite sort_strings_perm. Qed.

Lemma sort_strings_eq l k : sort_strings l = sort_strings k ↔ l ≡ₚ k.
Proof.
  split.
  - intros H. by rewrite <- (sort_strings_perm l), H, sort_strings_perm.
  - intros H. apply (StronglySorted_unique String.le); auto using sort_strings_sorted.
    by rewrite !sort_strings_perm.
Qed.

Lemma elem_of_sorted_set x l : x ∈ sorted_set l ↔ x ∈ l.
Proof. unfold sorted_set. by rewrite elem_of_compact, elem_of_sort_strings. Qed.

Lemma sorted_set_nodup l : NoDup (sorted_set l).
Proof. apply (compact_nodup String.le), sort_strings_sorted. Qed.

Lemma sorted_set_sorted l : StronglySorted String.le (sorted_set l).
Proof. apply compact_ssorted, sort_strings_sorted. Qed.

Lemma sorted_set_eq l k : sorted_set l = sorted_set k ↔ (∀ x, x ∈ l ↔ x ∈ k).
Proof.
  split.
  - intros H x. by rewrite <- (elem_of_sorted_set x l), H, elem_of_sorted_set.
  - intros H. apply (StronglySorted_unique String.le); auto using sorted_set_sorted.
    apply NoDup_Permutation; auto using sorted_set_nodup.
    intros x. by rewrite !elem_of_sorted_set.
Qed.

(** ** Strings *)

Lemma str_app_assoc a b c : (a +:+ b) +:+ c = a +:+ (b +:+ c).
Proof.
  induction a as [|x a IH]; [done|].
  change (String x ((a +:+ b) +:+ c) = String x (a +:+ (b +:+ c))). by rewrite IH.
Qed.

(** [strings.HasPrefix] and [strings.TrimPrefix]. *)
Fixpoint has_prefix (p s : string) : bool :=
  match p, s with
  | EmptyString, _ => true
  | String a p, String b s => bool_decide (a = b) && has_prefix p s
  | _, EmptyString => false
  end.

Fixpoint trim_prefix_len (p s : string) : string :=
  match p, s with
  | String _ p, String _ s => trim_prefix_len p s
  | _, _ => s
  end.

Definition trim_prefix (p s : string) : string :=
  if has_prefix p s then trim_prefix_len p s else s.

Lemma has_prefix_app p s : has_prefix p (p +:+ s) = true.
Proof. induction p as [|a p IH]; [done|]. simpl. by rewrite bool_decide_eq_true_2. Qed.

Lemma trim_prefix_app p s : trim_prefix p (p +:+ s) = s.
Proof.
  unfold trim_prefix. rewrite has_prefix_app. induction p as [|a p IH]; [by destruct s|]. done.
Qed.

Lemma has_prefix_inv p s : has_prefix p s = true → ∃ r, s = p +:+ r.
Proof.
  revert s. induction p as [|a p IH]; intros s Hp; [by exists s|].
  destruct s as [|b s]; [done|]. simpl in Hp. unbool. subst.
  destruct (IH s) as [r ->]; [done|]. by exists r.
Qed.

(** Reading a permuted list gives a permutation of the readings. *)
Lemma mapM_perm {A B} (f : A → option B) l l' k :
  l ≡ₚ l' → mapM f l = Some k → ∃ k', mapM f l' = Some k' ∧ k ≡ₚ k'.
Proof.
  intros Hp. revert k. induction Hp as [|x l l' _ IH|x y l|l1 l2 l3 _ IH1 _ IH2]; intros k Hk.
  - eauto.
  - simpl in *. destruct (f x) as [b|]; [|done]. simpl in *. destruct (mapM f l) as [ks|]; [|done].
    destruct (IH _ eq_refl) as (k' & -> & Hk'). injection Hk as <-. eexists. split; [done|]. apply perm_skip. done.
  - simpl in *. destruct (f y) as [b|], (f x) as [a|]; simpl in *; try done.
    destruct (mapM f l) as [ks|]; [|done]. injection Hk as <-. exists (a :: b :: ks). split; [done|]. apply perm_swap.
  - destruct (IH1 _ Hk) as (k1 & Hk1 & P1), (IH2 k1 Hk1) as (k2 & Hk2 & P2). exists k2. split; [done|]. by transitivity k1.
Qed.

(** ** Filters *)
Section filters.
Context {A : Type} (P : A → Prop) `{∀ x, Decision (P x)}.

Lemma filter_all (l : list A) : (∀ x, x ∈ l → P x) → filter P l = l.
Proof.
  induction l as [|x l IH]; intros Hl; [done|]. rewrite filter_cons_True by (apply Hl; constructor).
  f_equal. apply IH. intros y Hy. apply Hl. by constructor.
Qed.

Lemma filter_none (l : list A) : (∀ x, x ∈ l → ¬ P x) → filter P l = [].
Proof.
  induction l as [|x l IH]; intros Hl; [done|]. rewrite filter_cons_False by (apply Hl; constructor).
  apply IH. intros y Hy. apply Hl. by constructor.
Qed.

Lemma NoDup_fmap_filter {B} (f : A → B) (l : list A) : NoDup (f <$> l) → NoDup (f <$> filter P l).
Proof.
  induction l as [|x l IH]; [done|]. rewrite fmap_cons, NoDup_cons. intros [Hx Hl]. rewrite filter_cons.
  case_decide; [|by apply IH]. rewrite fmap_cons, NoDup_cons. split; [|by apply IH].
  rewrite list_elem_of_fmap in Hx |- *. intros (y & Hy & Hin). destruct Hx. exists y.
  apply list_elem_of_filter in Hin. tauto.
Qed.
End filters.

(** ** Durable files

    Every journal of the system is replaced the same way: marshal, temp file
    in the same directory, write, fsync, close, rename over the file, open
    the directory, fsync the directory. [f_cur] is the content a reader (and
    a process restart) sees; [f_durable] is the content that survives a power
    loss, which the rename reaches only with the directory fsync. *)
Record file (S : Type) := File { f_cur : S; f_durable : S }.
Arguments File {S} _ _.
Arguments f_cur {S} _.
Arguments f_durable {S} _.

(** Whether each system call of one replacement succeeds. *)
Record write_env := WriteEnv {
  w_marshal : bool; w_create : bool; w_write : bool; w_sync : bool; w_close : bool;
  w_rename : bool; w_opendir : bool; w_dirsync : bool }.

Definition write_ok : write_env := WriteEnv true true true true true true true true.

(** The replacement's error result ([true]: nil error) and the file after it. *)
Definition atomic_replace {S} (w : write_env) (f : file S) (next : S) : bool * file S :=
  if negb (w_marshal w) then (false, f) else
  if negb (w_create w) then (false, f) else
  if negb (w_write w) then (false, f) else
  if negb (w_sync w) then (false, f) else
  if negb (w_close w) then (false, f) else
  if negb (w_rename w) then (false, f) else
  let renamed := File next (f_durable f) in
  if negb (w_opendir w) then (false, renamed) else
  if negb (w_dirsync w) then (false, renamed) else
  (true, File next next).

(** A process's in-memory state with the file that backs it. *)
Record cell (S : Type) := Cell { c_mem : S; c_file : file S }.
Arguments Cell {S} _ _.
Arguments c_mem {S} _.
Arguments c_file {S} _.

(** Memory moves to [next] only once the replacement succeeded. *)
Definition persist {S} (w : write_env) (c : cell S) (next : S) : bool * cell S :=
  let '(ok, f) := atomic_replace w (c_file c) next in
  (ok, Cell (if ok then next else c_mem c) f).

(** A restart reads the file back. A process crash finds what the last rename
    left, still only as durable as it was; a power loss finds what was durable. *)
Definition restart {S} (power_loss : bool) (c : cell S) : cell S :=
  let f := c_file c in
  if power_loss then Cell (f_durable f) (File (f_durable f) (f_durable f)) else Cell (f_cur f) f.

(** Memory and file agree and the file is durable. *)
Definition synced {S} (c : cell S) : Prop := c_file c = File (c_mem c) (c_mem c).

Lemma synced_restart {S} b (c : cell S) : synced c → restart b c = c.
Proof. destruct c as [m f]. unfold synced, restart. simpl. intros ->. by destruct b. Qed.

(** [P] of the memory and of every content a restart can read. *)
Definition cell_all {S} (P : S → Prop) (c : cell S) : Prop :=
  P (c_mem c) ∧ P (f_cur (c_file c)) ∧ P (f_durable (c_file c)).

Lemma persist_cases {S} w (c : cell S) next ok c' :
  persist w c next = (ok, c') →
  (ok = true ∧ c' = Cell next (File next next)) ∨
  (ok = false ∧ (c' = c ∨ c' = Cell (c_mem c) (File next (f_durable (c_file c))))).
Proof.
  destruct c as [m f]. unfold persist, atomic_replace. simpl. intros H.
  repeat case_match; simplify_eq/=; auto.
Qed.

Lemma persist_write_ok {S} (c : cell S) next :
  persist write_ok c next = (true, Cell next (File next next)).
Proof. by destruct c. Qed.

Lemma persist_all {S} (P : S → Prop) w (c : cell S) next :
  cell_all P c → P next → cell_all P (persist w c next).2.
Proof.
  intros (Hm & Hc & Hd) Hn. destruct (persist w c next) as [ok c'] eqn:Hp.
  destruct (persist_cases _ _ _ _ _ Hp) as [[-> ->]|[-> [->| ->]]]; done.
Qed.

Lemma restart_all {S} (P : S → Prop) b (c : cell S) :
  cell_all P c → cell_all P (restart b c).
Proof. intros (Hm & Hc & Hd). by destruct b. Qed.

Lemma synced_all {S} (P : S → Prop) (c : cell S) : synced c → P (c_mem c) → cell_all P c.
Proof. intros Hs HP. unfold cell_all. by rewrite Hs. Qed.

Create HintDb arbiter.
#[export] Hint Resolve persist_all restart_all sort_strings_sorted sorted_set_nodup
  is_u64_u64 : arbiter.
