(* ===== verification/LtHash.v ===== *)
(** * LtHash accumulators and their hex form

    The row hashes, part hashes and partition roots of the system are LtHash
    accumulators in hex. The accumulator itself is housegate's [pkg/lthash]
    (outside this repository): it is the interface [LtHash] with the laws
    [LtHashLaws] the code relies on (an abelian group whose byte form is
    exact). The hex layer on top is this repository's: [parseAccumulatorHex]
    and [accumulatorHex] of snode/state.go, [lthashCombineHex] and
    [lthashCombineHexAll] of snode/view.go. [Lane16] is a concrete one-lane
    instance, used to evaluate the models. *)
From S2P Require Import Prelude.

(** ** The accumulator interface (housegate pkg/lthash) *)
Class LtHash := {
  lthash : Type;
  #[global] lthash_eq_dec :: EqDecision lthash;
  lt_new : lthash;
  lt_add : lthash → lthash → lthash;
  lt_sub : lthash → lthash → lthash;
  lt_bytes : lthash → string;
  lt_from_bytes : string → option lthash;
}.

Class LtHashLaws `{LtHash} : Prop := {
  lt_add_assoc a b c : lt_add a (lt_add b c) = lt_add (lt_add a b) c;
  lt_add_comm a b : lt_add a b = lt_add b a;
  lt_add_new a : lt_add a lt_new = a;
  lt_sub_add a b : lt_sub (lt_add a b) b = a;
  lt_add_sub a b : lt_add (lt_sub a b) b = a;
  lt_from_bytes_bytes h : lt_from_bytes (lt_bytes h) = Some h;
  lt_bytes_from_bytes b h : lt_from_bytes b = Some h → lt_bytes h = b;
}.

(** ** encoding/hex *)
Module Hex.
Definition digit (n : N) : ascii :=
  ascii_of_N (if (n <? 10)%N then 48 + n else 87 + n)%N.

Definition from_char (c : ascii) : option N :=
  let n := N_of_ascii c in
  if ((48 <=? n) && (n <=? 57))%N then Some (n - 48)%N else
  if ((97 <=? n) && (n <=? 102))%N then Some (n - 87)%N else
  if ((65 <=? n) && (n <=? 70))%N then Some (n - 55)%N else None.

Fixpoint EncodeToString (b : string) : string :=
  match b with
  | EmptyString => EmptyString
  | String c b =>
      let n := N_of_ascii c in
      String (digit (n / 16)) (String (digit (n mod 16)) (EncodeToString b))
  end.

Fixpoint DecodeString (s : string) : option string :=
  match s with
  | EmptyString => Some EmptyString
  | String _ EmptyString => None
  | String hi (String lo s) =>
      match from_char hi, from_char lo, DecodeString s with
      | Some h, Some l, Some b => Some (String (ascii_of_N (16 * h + l)) b)
      | _, _, _ => None
      end
  end.

Lemma from_char_digits c :
  from_char (digit (N_of_ascii c / 16)) = Some (N_of_ascii c / 16)%N ∧
  from_char (digit (N_of_ascii c mod 16)) = Some (N_of_ascii c mod 16)%N.
Proof. destruct c as [[] [] [] [] [] [] [] []]; by vm_compute. Qed.

Lemma DecodeString_EncodeToString b : DecodeString (EncodeToString b) = Some b.
Proof.
  induction b as [|c b IH]; [done|]. cbn [EncodeToString DecodeString].
  destruct (from_char_digits c) as [-> ->]. rewrite IH. do 2 f_equal.
  rewrite <- (ascii_N_embedding c) at 3. f_equal.
  symmetry. apply N.div_mod. done.
Qed.
End Hex.

(** ** Accumulators in hex *)
Section accumulators.
Context `{LtHash}.

(** The empty string is the empty accumulator; [0x] is optional. *)
Definition parseAccumulatorHex (s : string) : option lthash :=
  if bool_decide (s = EmptyString) then Some lt_new
  else b ← Hex.DecodeString (trim_prefix "0x" s); lt_from_bytes b.

Definition accumulatorHex (h : lthash) : string := "0x" +:+ Hex.EncodeToString (lt_bytes h).

(** [for _, s := range hexes { h, err := parseAccumulatorHex(s); ...; acc.AddHash(h) }] *)
Fixpoint add_hexes (acc : lthash) (hexes : list string) : option lthash :=
  match hexes with
  | [] => Some acc
  | s :: hexes => h ← parseAccumulatorHex s; add_hexes (lt_add acc h) hexes
  end.

Fixpoint sub_hexes (acc : lthash) (hexes : list string) : option lthash :=
  match hexes with
  | [] => Some acc
  | s :: hexes => h ← parseAccumulatorHex s; sub_hexes (lt_sub acc h) hexes
  end.

Definition lthashCombineHexAll (baseHex : string) (partHexes : list string) : option string :=
  acc ← parseAccumulatorHex baseHex;
  accumulatorHex <$> add_hexes acc partHexes.

(** [lthashCombineHex a b] skips an empty operand, which parses to the
    neutral accumulator anyway. *)
Definition lthashCombineHex (a b : string) : option string :=
  let step acc s :=
    if bool_decide (s = EmptyString) then Some acc
    else h ← parseAccumulatorHex s; Some (lt_add acc h) in
  acc ← step lt_new a; acc ← step acc b; Some (accumulatorHex acc).

(** Specification-level sums. *)
Definition lt_sum (hs : list lthash) : lthash := foldr lt_add lt_new hs.

Context `{!LtHashLaws}.

Lemma lt_new_add a : lt_add lt_new a = a.
Proof. by rewrite lt_add_comm, lt_add_new. Qed.

Lemma lt_add_cancel_r a b c : lt_add a c = lt_add b c → a = b.
Proof. intros Heq. by rewrite <- (lt_sub_add a c), Heq, lt_sub_add. Qed.

Lemma lt_add_swap a b c : lt_add (lt_add a b) c = lt_add (lt_add a c) b.
Proof. by rewrite <- !lt_add_assoc, (lt_add_comm b c). Qed.

Lemma lt_sub_def a b c : lt_sub a b = c ↔ a = lt_add c b.
Proof. split; [intros <-; by rewrite lt_add_sub|intros ->; by rewrite lt_sub_add]. Qed.

Lemma lt_sum_app l k : lt_sum (l ++ k) = lt_add (lt_sum l) (lt_sum k).
Proof.
  induction l as [|a l IH]; simpl; [by rewrite lt_new_add|]. by rewrite IH, lt_add_assoc.
Qed.

#[global] Instance lt_sum_perm : Proper ((≡ₚ) ==> (=)) lt_sum.
Proof.
  induction 1; simpl; try congruence. by rewrite !lt_add_assoc, (lt_add_comm y x).
Qed.

(** Canonical hex: what the code renders it can parse back, exactly. *)
Lemma parse_accumulatorHex h : parseAccumulatorHex (accumulatorHex h) = Some h.
Proof.
  unfold parseAccumulatorHex, accumulatorHex. rewrite bool_decide_eq_false_2 by done.
  rewrite trim_prefix_app, Hex.DecodeString_EncodeToString. simpl.
  apply lt_from_bytes_bytes.
Qed.

Lemma accumulatorHex_inj h1 h2 : accumulatorHex h1 = accumulatorHex h2 → h1 = h2.
Proof.
  intros Heq. apply (inj Some). by rewrite <- !parse_accumulatorHex, Heq.
Qed.

Lemma accumulatorHex_nonempty h : accumulatorHex h ≠ EmptyString.
Proof. done. Qed.

Lemma parse_empty : parseAccumulatorHex EmptyString = Some lt_new.
Proof. done. Qed.

(** The loops compute group sums of the parsed operands, in any order. *)
Lemma add_hexes_sum acc hexes hs :
  mapM parseAccumulatorHex hexes = Some hs → add_hexes acc hexes = Some (lt_add acc (lt_sum hs)).
Proof.
  revert acc hs. induction hexes as [|s hexes IH]; intros acc hs Hm; simpl in *.
  - injection Hm as <-. simpl. by rewrite lt_add_new.
  - destruct (parseAccumulatorHex s) as [h|]; simpl in *; [|done].
    destruct (mapM parseAccumulatorHex hexes) as [hs'|] eqn:Hhs; simpl in *; [|done].
    injection Hm as <-. rewrite (IH _ _ eq_refl). simpl. by rewrite lt_add_assoc.
Qed.

Lemma add_hexes_none acc hexes :
  mapM parseAccumulatorHex hexes = None → add_hexes acc hexes = None.
Proof.
  revert acc. induction hexes as [|s hexes IH]; intros acc Hm; simpl in *; [done|].
  destruct (parseAccumulatorHex s) as [h|]; simpl in *; [|done].
  destruct (mapM parseAccumulatorHex hexes) as [hs'|] eqn:Hhs; simpl in *; [done|].
  by apply IH.
Qed.

Lemma sub_hexes_sum acc hexes r :
  sub_hexes acc hexes = Some r ↔
  ∃ hs, mapM parseAccumulatorHex hexes = Some hs ∧ acc = lt_add r (lt_sum hs).
Proof.
  revert acc. induction hexes as [|s hexes IH]; intros acc; simpl.
  - split; [intros [= ->]; exists []; simpl; by rewrite lt_add_new|].
    intros (hs & Hm & ->). injection Hm as <-. simpl. by rewrite lt_add_new.
  - destruct (parseAccumulatorHex s) as [h|]; simpl; [|split; [done|by intros (?&?&?)]].
    rewrite IH. split.
    + intros (hs & -> & Hs). exists (h :: hs). split; [done|].
      apply lt_sub_def in Hs as ->. simpl. rewrite (lt_add_comm h), lt_add_assoc. done.
    + intros (hs & Hm & ->). destruct (mapM parseAccumulatorHex hexes) as [hs'|]; simpl in *; [|done].
      injection Hm as <-. exists hs'. split; [done|]. apply lt_sub_def. simpl.
      by rewrite (lt_add_comm h), lt_add_assoc.
Qed.

Lemma lthashCombineHexAll_some base parts out :
  lthashCombineHexAll base parts = Some out ↔
  ∃ b hs, parseAccumulatorHex base = Some b ∧ mapM parseAccumulatorHex parts = Some hs ∧
          out = accumulatorHex (lt_add b (lt_sum hs)).
Proof.
  unfold lthashCombineHexAll.
  destruct (parseAccumulatorHex base) as [b|]; simpl; [|split; [done|by intros (?&?&?&?)]].
  destruct (mapM parseAccumulatorHex parts) as [hs|] eqn:Hhs.
  - rewrite (add_hexes_sum _ _ _ Hhs). simpl. split; [intros [= <-]; eauto|].
    by intros (? & ? & [= ->] & [= ->] & ->).
  - rewrite (add_hexes_none _ _ Hhs). simpl. split; [done|]. by intros (?&?&?&?&?).
Qed.

Lemma skip_empty_step acc s :
  (if bool_decide (s = EmptyString) then Some acc
   else h ← parseAccumulatorHex s; Some (lt_add acc h)) =
  (h ← parseAccumulatorHex s; Some (lt_add acc h)).
Proof. case_bool_decide; [|done]. subst. simpl. by rewrite lt_add_new. Qed.

Lemma lthashCombineHex_all a b : lthashCombineHex a b = lthashCombineHexAll a [b].
Proof.
  unfold lthashCombineHex, lthashCombineHexAll. cbv zeta. rewrite skip_empty_step.
  destruct (parseAccumulatorHex a) as [ha|]; cbn [mbind option_bind]; [|done].
  rewrite skip_empty_step, lt_new_add. cbn [add_hexes].
  by destruct (parseAccumulatorHex b).
Qed.
End accumulators.

#[export] Hint Resolve parse_accumulatorHex accumulatorHex_nonempty : arbiter.

(** ** A concrete instance: one 16-bit lane, two little-endian bytes *)
Module Lane16.
Definition lane : Type := { n : N | bool_decide (n < 65536)%N }.

Lemma lane_lt (n : N) : bool_decide (n mod 65536 < 65536)%N.
Proof. apply bool_decide_pack. by apply N.mod_lt. Qed.

Definition mk (n : N) : lane := exist _ (n mod 65536)%N (lane_lt n).
Definition val (a : lane) : N := proj1_sig a.

#[export] Instance lane_eq_dec : EqDecision lane.
Proof.
  intros a b. destruct (decide (val a = val b)) as [Heq|Hne].
  - left. by apply dsig_eq.
  - right. intros ->. by apply Hne.
Defined.

Definition to_bytes (a : lane) : string :=
  String (ascii_of_N (val a mod 256)) (String (ascii_of_N (val a / 256)) EmptyString).

Definition of_bytes (b : string) : option lane :=
  match b with
  | String lo (String hi EmptyString) => Some (mk (N_of_ascii lo + 256 * N_of_ascii hi))
  | _ => None
  end.

#[export] Instance lane16 : LtHash := {
  lthash := lane;
  lt_new := mk 0;
  lt_add a b := mk (val a + val b);
  lt_sub a b := mk (val a + (65536 - val b));
  lt_bytes := to_bytes;
  lt_from_bytes := of_bytes;
}.

Lemma val_lt a : (val a < 65536)%N.
Proof. destruct a as [n Hn]. exact (bool_decide_unpack _ Hn). Qed.

Lemma val_mk n : val (mk n) = (n mod 65536)%N.
Proof. done. Qed.

Lemma lane_ext a b : val a = val b → a = b.
Proof. apply dsig_eq. Qed.

Lemma N_ascii_lt c : (N_of_ascii c < 256)%N.
Proof. apply N_ascii_bounded. Qed.

#[export] Instance lane16_laws : LtHashLaws.
Proof.
  split; simpl.
  - intros a b c. apply lane_ext. rewrite !val_mk.
    rewrite N.Div0.add_mod_idemp_r, N.Div0.add_mod_idemp_l. f_equal. lia.
  - intros a b. apply lane_ext. rewrite !val_mk. f_equal. lia.
  - intros a. apply lane_ext. rewrite !val_mk, N.Div0.add_mod_idemp_r, N.add_0_r.
    apply N.mod_small, val_lt.
  - intros a b. apply lane_ext. rewrite !val_mk, N.Div0.add_mod_idemp_l.
    pose proof (val_lt a). pose proof (val_lt b).
    replace (val a + val b + (65536 - val b))%N with (val a + 1 * 65536)%N by lia.
    rewrite N.Div0.mod_add. by apply N.mod_small.
  - intros a b. apply lane_ext. rewrite !val_mk, N.Div0.add_mod_idemp_l.
    pose proof (val_lt a). pose proof (val_lt b).
    replace (val a + (65536 - val b) + val b)%N with (val a + 1 * 65536)%N by lia.
    rewrite N.Div0.mod_add. by apply N.mod_small.
  - intros a. unfold to_bytes, of_bytes. f_equal. apply lane_ext. rewrite val_mk.
    pose proof (val_lt a). rewrite !N_ascii_embedding.
    + rewrite N.add_comm, <- N.Div0.div_mod. by apply N.mod_small.
    + apply N.Div0.div_lt_upper_bound. lia.
    + by apply N.mod_lt.
  - intros b h. unfold of_bytes, to_bytes. repeat case_match; try done. intros [= <-].
    pose proof (N_ascii_lt a). pose proof (N_ascii_lt a0).
    assert (val (mk (N_of_ascii a + 256 * N_of_ascii a0)) = N_of_ascii a + 256 * N_of_ascii a0)%N
      as -> by (rewrite val_mk; apply N.mod_small; lia).
    rewrite (N.mul_comm 256), N.Div0.mod_add, N.div_add by done.
    rewrite N.mod_small, N.div_small by done. rewrite N.add_0_l.
    by rewrite !ascii_N_embedding.
Qed.

(** The hex form of a small lane value. *)
Definition hex (n : N) : string := accumulatorHex (mk n).

Example hex_3 : hex 3 = "0x0300".
Proof. reflexivity. Qed.
End Lane16.
