(* ===== verification/Types.v ===== *)
(** * The canonical types of the arbiter (types.go, table_registry.go)

    The command and coordinate records as Go declares them, the flat
    statement id with its client lanes, the accumulator subject, and the
    NUL-delimited text form of a (table, partition) pair that both
    [TablePartition.MarshalText] and the SNode's state keys use. [uint64]
    fields are [N]; their decimal rendering (strconv.FormatUint base 10 and
    fmt's %d) is stdpp's [pretty]. *)
From S2P Require Import Prelude.

(** ** Text with a delimiter *)
Section delim.
Context (d : ascii).

Fixpoint free (s : string) : Prop :=
  match s with EmptyString => True | String c s => c ≠ d ∧ free s end.

#[global] Instance free_dec s : Decision (free s).
Proof. induction s as [|c s IH]; simpl; apply _. Defined.

(** strings.Cut with a one-byte separator; bytes.IndexByte and the two
    slices around it. *)
Fixpoint cut (s : string) : option (string * string) :=
  match s with
  | EmptyString => None
  | String c s =>
      if bool_decide (c = d) then Some (EmptyString, s)
      else '(a, b) ← cut s; Some (String c a, b)
  end.

Definition join (a b : string) : string := a +:+ String d b.

Lemma cut_join a b : free a → cut (join a b) = Some (a, b).
Proof.
  unfold join. induction a as [|c a IH]; intros Hf.
  - simpl. by rewrite bool_decide_eq_true_2.
  - destruct Hf as [Hc Hf]. simpl. rewrite bool_decide_eq_false_2 by done.
    change (String.append a (String d b)) with (a +:+ String d b). by rewrite (IH Hf).
Qed.

Lemma cut_some s a b : cut s = Some (a, b) → s = join a b ∧ free a.
Proof.
  revert a. induction s as [|c s IH]; intros a Hc; [done|]. simpl in Hc.
  case_bool_decide.
  - simplify_eq. done.
  - destruct (cut s) as [[a' b']|]; simplify_eq/=. by destruct (IH a' eq_refl) as [-> ?].
Qed.

Lemma cut_none s : cut s = None ↔ free s.
Proof.
  induction s as [|c s IH]; simpl; [done|]. case_bool_decide as Hc.
  { split; [done|]. by intros [? _]. }
  rewrite <- IH. destruct (cut s) as [[??]|]; simpl; [|by split].
  split; [done|]. by intros [_ ?].
Qed.

Lemma join_inj a b a' b' : free a → free a' → join a b = join a' b' → a = a' ∧ b = b'.
Proof.
  intros Ha Ha' Heq. pose proof (cut_join a b Ha) as H1. rewrite Heq, cut_join in H1 by done.
  by simplify_eq.
Qed.

Lemma free_app a b : free (a +:+ b) ↔ free a ∧ free b.
Proof.
  induction a as [|c a IH]; [by split; [|intros [_ ?]]|]. simpl.
  change (String.append a b) with (a +:+ b). rewrite IH. tauto.
Qed.

Lemma not_free_join a b : ¬ free (join a b).
Proof. intros Hf. unfold join in Hf. apply free_app in Hf as [_ [Hf _]]. done. Qed.
End delim.

(** ** Decimal numbers *)
Definition is_digit (c : ascii) : bool :=
  ((48 <=? N_of_ascii c) && (N_of_ascii c <=? 57))%N.

Fixpoint str_all (p : ascii → bool) (s : string) : bool :=
  match s with EmptyString => true | String c s => p c && str_all p s end.

Lemma str_all_app p a b : str_all p (a +:+ b) = str_all p a && str_all p b.
Proof.
  induction a as [|c a IH]; [done|]. simpl. change (String.append a b) with (a +:+ b).
  rewrite IH. by destruct (p c).
Qed.

Lemma str_all_free p d s : p d = false → str_all p s = true → free d s.
Proof.
  intros Hd. induction s as [|c s IH]; [done|]. simpl. intros [Hc Hs]%andb_true_iff.
  split; [|by apply IH]. intros ->. congruence.
Qed.

Lemma pretty_N_go_digits x s : str_all is_digit s = true → str_all is_digit (pretty_N_go x s) = true.
Proof.
  revert s. induction (N.lt_wf_0 x) as [x _ IH]; intros s Hs.
  destruct (decide (0 < x)%N) as [Hx|].
  - rewrite pretty_N_go_step by done. apply IH.
    + apply N.div_lt; lia.
    + simpl. rewrite Hs. unfold pretty_N_char.
      assert (x `mod` 10 < 10)%N as Hlt by (apply N.mod_lt; done).
      destruct (x `mod` 10)%N as [|p]; [done|].
      repeat (destruct p as [p|p|]; try done; try lia).
  - assert (x = 0%N) as -> by lia. by rewrite pretty_N_go_0.
Qed.

Lemma pretty_digits (n : N) : str_all is_digit (pretty n) = true.
Proof.
  unfold pretty, pretty_N. case_decide; [done|]. by apply pretty_N_go_digits.
Qed.

Lemma pretty_free d (n : N) : is_digit d = false → free d (pretty n).
Proof. intros Hd. apply (str_all_free is_digit); [done|apply pretty_digits]. Qed.

(** ** strings.ToLower, on the ASCII identifiers the code lower-cases *)
Definition lower_char (c : ascii) : ascii :=
  let n := N_of_ascii c in
  if ((65 <=? n) && (n <=? 90))%N then ascii_of_N (n + 32) else c.

Fixpoint ToLower (s : string) : string :=
  match s with EmptyString => EmptyString | String c s => String (lower_char c) (ToLower s) end.

Lemma lower_char_colon c : lower_char c = ":"%char ↔ c = ":"%char.
Proof. destruct c as [[] [] [] [] [] [] [] []]; by vm_compute. Qed.

Lemma ToLower_free s : free ":" (ToLower s) ↔ free ":" s.
Proof. induction s as [|c s IH]; [done|]. simpl. by rewrite lower_char_colon, IH. Qed.

(** ** Records *)
Record StatementCoord := mkStatementCoord {
  sc_Account : string; sc_Lane : string; sc_ClientSeq : N }.
Record TablePartition := mkTablePartition { tp_TableID : string; tp_PartitionID : string }.
Record StatementID := mkStatementID {
  sid_ClientAccount : string; sid_ClientSeq : N; sid_ClientNonce : string; sid_ClientLane : string }.
Record PartRef := mkPartRef {
  pr_TableID : string; pr_PartitionID : string; pr_PartRowLtHash : string; pr_PartName : string }.
Record PromoteSafePartition := mkPromote {
  ps_TableID : string; ps_PartitionID : string; ps_PromotionSeq : N;
  ps_BaseSafeSnapshotID : string; ps_BasePartitionRoot : string; ps_CandidateParts : list PartRef }.
Record UnsafeCleanup := mkCleanup {
  uc_TableID : string; uc_PartitionID : string; uc_PromotionSeq : N; uc_Parts : list PartRef;
  uc_RejectedBlockSeq : N }.
Record SafePartMapping := mkMapping {
  sm_PartRowLtHash : string; sm_SafePartName : string; sm_PartPhysHash : string }.
Record PromotionAck := mkPromotionAck {
  pa_NodeID : string; pa_PromotionSeq : N; pa_TableID : string; pa_PartitionID : string;
  pa_PostPartitionCommitment : string; pa_Parts : list SafePartMapping;
  pa_SafePartitionParts : list SafePartMapping; pa_Applied : bool; pa_Detail : string }.
Record CleanupAck := mkCleanupAck {
  ca_NodeID : string; ca_PromotionSeq : N; ca_TableID : string; ca_PartitionID : string;
  ca_RejectedBlockSeq : N }.
Record CandidatePart := mkCandidatePart {
  cp_TableID : string; cp_PartitionID : string; cp_PartName : string; cp_PartRowLtHash : string;
  cp_PartPhysHash : string; cp_RowCount : N; cp_Bytes : N }.
Record PartitionLtHashSum := mkPartitionSum {
  pls_TableID : string; pls_PartitionID : string; pls_NewPartsLtHashSum : string }.
Record PartScan := mkPartScan {
  psc_TableID : string; psc_PartitionID : string; psc_Claimed : string; psc_Scanned : string;
  psc_LivePartName : string }.

#[export] Instance StatementCoord_eq_dec : EqDecision StatementCoord.
Proof. solve_decision. Defined.
#[export] Instance StatementID_eq_dec : EqDecision StatementID.
Proof. solve_decision. Defined.
#[export] Instance PartRef_eq_dec : EqDecision PartRef.
Proof. solve_decision. Defined.
#[export] Instance SafePartMapping_eq_dec : EqDecision SafePartMapping.
Proof. solve_decision. Defined.
#[export] Instance SafePartMapping_countable : Countable SafePartMapping.
Proof.
  refine (inj_countable' (λ m, (sm_PartRowLtHash m, sm_SafePartName m, sm_PartPhysHash m))
    (λ t, mkMapping t.1.1 t.1.2 t.2) _). by intros [].
Defined.
#[export] Instance PromotionAck_eq_dec : EqDecision PromotionAck.
Proof. solve_decision. Defined.
#[export] Instance CleanupAck_eq_dec : EqDecision CleanupAck.
Proof. solve_decision. Defined.

(** ** Statement identities *)
Definition ClientLaneHexLen : nat := 16.

Definition lane_char (c : ascii) : bool :=
  let n := N_of_ascii c in
  (((48 <=? n) && (n <=? 57)) || ((97 <=? n) && (n <=? 102)))%N.

Definition ValidClientLane (lane : string) : bool :=
  if bool_decide (String.length lane ≠ ClientLaneHexLen) then false else str_all lane_char lane.

Definition Subject (c : StatementCoord) : string :=
  if bool_decide (sc_Lane c = EmptyString) then sc_Account c
  else sc_Account c +:+ ":" +:+ sc_Lane c.

Definition StatementIDString (clientAccount : string) (clientSeq : N) (clientNonce : string) : string :=
  ToLower clientAccount +:+ ":" +:+ pretty clientSeq +:+ ":" +:+ clientNonce.

Definition StatementIDStringWithLane (clientAccount clientLane : string) (clientSeq : N)
    (clientNonce : string) : string :=
  if bool_decide (clientLane = EmptyString) then StatementIDString clientAccount clientSeq clientNonce
  else ToLower clientAccount +:+ ":" +:+ clientLane +:+ ":" +:+ pretty clientSeq +:+ ":" +:+ clientNonce.

Definition Flat (id : StatementID) : string :=
  StatementIDStringWithLane (sid_ClientAccount id) (sid_ClientLane id) (sid_ClientSeq id)
    (sid_ClientNonce id).

Definition Coord (id : StatementID) : StatementCoord :=
  mkStatementCoord (ToLower (sid_ClientAccount id)) (sid_ClientLane id) (sid_ClientSeq id).

(** What the arbiter admits: an account and a nonce without the separator,
    and the legacy lane or a valid one. *)
Definition sid_wf (id : StatementID) : Prop :=
  free ":" (sid_ClientAccount id) ∧ free ":" (sid_ClientNonce id) ∧
  (sid_ClientLane id = EmptyString ∨ ValidClientLane (sid_ClientLane id) = true).

Lemma ValidClientLane_free lane : ValidClientLane lane = true → lane ≠ EmptyString ∧ free ":" lane.
Proof.
  unfold ValidClientLane. case_bool_decide as Hl; [done|].
  intros Ha. split; [by intros ->|]. by apply (str_all_free lane_char).
Qed.

(** The flat form as nested delimited texts. *)
Lemma flat_joins a l n s :
  StatementIDStringWithLane a l n s =
  join ":" (ToLower a)
    (if bool_decide (l = EmptyString) then join ":" (pretty n) s
     else join ":" l (join ":" (pretty n) s)).
Proof. unfold StatementIDStringWithLane. by case_bool_decide. Qed.

(** Peels equal delimited texts whose heads are free of the delimiter. *)
Ltac join_inv :=
  repeat match goal with
  | H : join ?d ?a ?b = join ?d ?a' ?b' |- _ =>
      apply (join_inj d a b a' b') in H as [? H]; [|by auto using pretty_free..]
  end.

(** Two well-formed ids with the same flat form have the same coordinate and
    the same nonce. *)
Lemma Flat_Coord id1 id2 :
  sid_wf id1 → sid_wf id2 → Flat id1 = Flat id2 →
  Coord id1 = Coord id2 ∧ sid_ClientNonce id1 = sid_ClientNonce id2.
Proof.
  destruct id1 as [a1 n1 s1 l1], id2 as [a2 n2 s2 l2].
  intros (Ha1 & Hs1 & Hl1) (Ha2 & Hs2 & Hl2). unfold Flat, Coord. simpl in *.
  rewrite <- ToLower_free in Ha1, Ha2. rewrite !flat_joins. intros Heq. join_inv.
  assert (∀ l, l = EmptyString ∨ ValidClientLane l = true → free ":" l) as Hfree.
  { intros l [->|Hl]; [done|]. by apply ValidClientLane_free. }
  pose proof (Hfree _ Hl1). pose proof (Hfree _ Hl2).
  repeat case_bool_decide; subst; join_inv; simplify_eq;
    first [split; congruence | exfalso; eapply not_free_join; eassumption].
Qed.

(** ** NUL-delimited keys *)
Definition NUL : ascii := zero.

Definition MarshalText (p : TablePartition) : string := join NUL (tp_TableID p) (tp_PartitionID p).

Definition UnmarshalText (b : string) : option TablePartition :=
  '(t, p) ← cut NUL b; Some (mkTablePartition t p).

Definition TableKey (databaseID tableID : string) : string := databaseID +:+ "." +:+ tableID.

(** ** Scans: an empty part list is canonicalized to nil *)
Record ByteSideScanMsg := mkScanMsg {
  bm_ReplicaID : string; bm_BlockSeq : N; bm_Parts : option (list PartScan);
  bm_ScanHash : string; bm_Signature : string }.
Record ByteSideScanBody := mkScanBody {
  bb_ReplicaID : string; bb_BlockSeq : N; bb_Parts : option (list PartScan) }.

(** [None] is Go's nil slice, which encodes as [null]; [Some []] as [[]]. *)
Definition Body (m : ByteSideScanMsg) : ByteSideScanBody :=
  mkScanBody (bm_ReplicaID m) (bm_BlockSeq m)
    (if bool_decide (length (default [] (bm_Parts m)) = 0) then None else bm_Parts m).

(** ** Properties *)

(** C39: Statement ids are unambiguous. For ids whose account and nonce are free
    of ':' and whose lane is empty or valid, two equal flat statement ids have
    the same accumulator coordinate (normalized account, lane, sequence) and the
    same nonce, and equal accumulator subjects at equal sequence numbers have the
    same coordinate: neither a lane nor a legacy id can be mistaken for the
    other. *)
Theorem statement_id_unambiguous id1 id2 :
  sid_wf id1 → sid_wf id2 →
  (Flat id1 = Flat id2 →
     Coord id1 = Coord id2 ∧ sid_ClientNonce id1 = sid_ClientNonce id2) ∧
  (Subject (Coord id1) = Subject (Coord id2) → sid_ClientSeq id1 = sid_ClientSeq id2 →
     Coord id1 = Coord id2).
Proof.
  intros Hw1 Hw2. split; [by apply Flat_Coord|].
  destruct id1 as [a1 n1 s1 l1], id2 as [a2 n2 s2 l2].
  destruct Hw1 as (Ha1 & _ & Hl1), Hw2 as (Ha2 & _ & Hl2). unfold Subject, Coord. simpl in *.
  rewrite <- ToLower_free in Ha1, Ha2.
  change (?a +:+ ":" +:+ ?b) with (join ":" a b).
  repeat case_bool_decide; intros Heq ->; subst; join_inv; try congruence.
  - exfalso. rewrite Heq in Ha1. by apply not_free_join in Ha1.
  - exfalso. rewrite <- Heq in Ha2. by apply not_free_join in Ha2.
Qed.

Lemma statement_id_unambiguous_witness :
  Coord (mkStatementID "0xAb" 7 "n" "0123456789abcdef") =
  Coord (mkStatementID "0xaB" 7 "n" "0123456789abcdef").
Proof.
  refine (proj1 (proj1 (statement_id_unambiguous (mkStatementID "0xAb" 7 "n" "0123456789abcdef")
    (mkStatementID "0xaB" 7 "n" "0123456789abcdef") _ _) _)); [| |reflexivity];
  (split; [|split; [|right; reflexivity]]); simpl; repeat split; discriminate.
Defined.

(** C40: A (table, partition) key reads back as it was written exactly when the
    table id is free of NUL: UnmarshalText inverts MarshalText, and every text it
    accepts is the rendering of the pair it returns. *)
Theorem table_partition_text_roundtrip p b :
  (UnmarshalText (MarshalText p) = Some p ↔ free NUL (tp_TableID p)) ∧
  (UnmarshalText b = Some p → MarshalText p = b) ∧
  (UnmarshalText b = None ↔ free NUL b).
Proof.
  unfold UnmarshalText, MarshalText. destruct p as [t q]; simpl. split; [|split].
  - split; [|intros Hf; by rewrite cut_join].
    destruct (cut NUL (join NUL t q)) as [[a c]|] eqn:Hc; simpl; [|done].
    intros [= -> ->]. by apply cut_some in Hc as [_ ?].
  - destruct (cut NUL b) as [[a c]|] eqn:Hc; simpl; [|done].
    intros [= -> ->]. by apply cut_some in Hc as [-> _].
  - rewrite <- (cut_none NUL b). by destruct (cut NUL b) as [[??]|].
Qed.

#[export] Hint Resolve pretty_free cut_join ValidClientLane_free : arbiter.
