(* ===== verification/Gate.v ===== *)
(** * The install gate (member/gate)

    gate.go: the per-partition plan, the arithmetic closure and the
    partition-set check. classify.go: the scratch classifier. The package is
    pure, so its functions are Rocq functions; a refusal is a value of
    [gate_error]. The only foreign call is housegate's
    [payloadexec.SumPartRowLtHashes], the interface [RowSum]. *)
From S2P Require Import Prelude LtHash.

(** ** payloadexec.SumPartRowLtHashes

    [row_hash] reads one row hash in any accepted spelling; the sum is
    returned in the executor's canonical form (gate.go, package comment). *)
Class RowSum `{LtHash} := {
  SumPartRowLtHashes : list string → option string;
  row_hash : string → option lthash;
}.

Class RowSumLaws `{RowSum} : Prop := {
  row_sum hs : SumPartRowLtHashes hs = accumulatorHex ∘ lt_sum <$> mapM row_hash hs;
  row_hash_canonical h : row_hash (accumulatorHex h) = Some h;
}.

Module Gate.

(** The refusals of gate.go; [EHash what] is canonicalList's, naming the list. *)
Inductive gate_error :=
| EHash (what : string)
| EManifestSum
| EClosure
| EPartitionSet.

Record Plan := mkPlan { Diverged : bool; Need : list string; Root : string }.

(** classify.go: the classifier's verdicts. *)
Inductive Outcome := OutcomeKept | OutcomeRenameRace | OutcomeSplit | OutcomeDoubled | OutcomeForeign.

#[export] Instance Outcome_eq_dec : EqDecision Outcome.
Proof. solve_decision. Defined.

Record Expected := mkExpected { e_RowLtHash : string; e_Rows : N }.
Record Fetch := mkFetch { f_Need : list string; f_Single : option Expected }.
Record ScratchPart := mkScratchPart { sp_Name : string; sp_RowLtHash : string; sp_Rows : N }.
Record Classification := mkClassification {
  cl_Outcome : Outcome; cl_Keep : list string; cl_Drop : list string; cl_Kept : list string }.

Section gate.
Context `{RowSum}.

Definition sumOf (hashes : list string) : string :=
  match SumPartRowLtHashes hashes with Some s => s | None => EmptyString end.

Definition canonicalList (what : string) (hashes : list string) : result gate_error (list string) :=
  match SumPartRowLtHashes hashes with
  | None => Err (EHash what)
  | Some _ => Ok ((fun h => sumOf [h]) <$> hashes)
  end.

Definition canonicalOne (what hash : string) : result gate_error string :=
  let* out := canonicalList what [hash] in
  Ok (default EmptyString (out !! 0)).

Definition PlanPartition (manifest : list string) (root : string) (local : list string)
  : result gate_error Plan :=
  let* m := canonicalList "manifest" manifest in
  let* r := canonicalOne "partition root" root in
  if bool_decide (sumOf m ≠ r) then Err EManifestSum else
  let* l := canonicalList "local" local in
  match consume (counts m) l with
  | None => Ok (mkPlan true [] r)
  | Some rest =>
      let '(need, _, _) := pick id rest m in
      Ok (mkPlan false (sort_strings need) r)
  end.

Definition Closure (root : string) (local kept : list string) : result gate_error unit :=
  let* r := canonicalOne "partition root" root in
  let* l := canonicalList "local" local in
  let* k := canonicalList "kept" kept in
  if bool_decide (sumOf (l ++ k) ≠ r) then Err EClosure else Ok ().

Definition PartitionSet (manifest local : list string) : result gate_error unit :=
  if bool_decide (sorted_set manifest = sorted_set local) then Ok () else Err EPartitionSet.

Definition classifyRestore (need : list string) (parts : list ScratchPart) : Classification :=
  let '(keep, drop, _) := pick sp_RowLtHash (counts need) parts in
  mkClassification OutcomeKept (sp_Name <$> keep) (sp_Name <$> drop) (sp_RowLtHash <$> keep).

(** [rows += p.Rows] wraps at 64 bits, and so does [2*single.Rows]. *)
Definition sum_rows (parts : list ScratchPart) : N :=
  foldl (fun rows p => u64 (rows + sp_Rows p)) 0%N parts.

Definition classifyPull (need : list string) (single : Expected) (parts : list ScratchPart)
  : Classification :=
  let rows := sum_rows parts in
  let names := sp_Name <$> parts in
  let hashes := sp_RowLtHash <$> parts in
  if bool_decide (rows = 0%N) then mkClassification OutcomeRenameRace [] names [] else
  if match parts with
     | [p] => bool_decide (sp_RowLtHash p = e_RowLtHash single) &&
              bool_decide (sp_Rows p = e_Rows single) &&
              bool_decide (0 < get_or 0 (counts need) (e_RowLtHash single))
     | _ => false
     end
  then mkClassification OutcomeKept names [] [e_RowLtHash single] else
  let total := sumOf hashes in
  if bool_decide (2 ≤ length parts) && bool_decide (total = e_RowLtHash single) &&
     bool_decide (rows = e_Rows single)
  then mkClassification OutcomeSplit [] names [] else
  if bool_decide (total = sumOf [e_RowLtHash single; e_RowLtHash single]) &&
     bool_decide (rows = u64 (2 * e_Rows single))
  then mkClassification OutcomeDoubled [] names [] else
  mkClassification OutcomeForeign [] [] [].

Definition Classify (f : Fetch) (scratch : list ScratchPart) : result gate_error Classification :=
  let* need := canonicalList "need" (f_Need f) in
  let* hashes := canonicalList "scratch" (sp_RowLtHash <$> scratch) in
  let parts := zip_with (fun p h => mkScratchPart (sp_Name p) h (sp_Rows p)) scratch hashes in
  match f_Single f with
  | None => Ok (classifyRestore need parts)
  | Some s =>
      let* single := canonicalOne "single-part fetch" (e_RowLtHash s) in
      Ok (classifyPull need (mkExpected single (e_Rows s)) parts)
  end.

(** ** Canonical forms *)
Context `{!LtHashLaws, !RowSumLaws}.
Implicit Types xs M L K : list lthash.

Definition canon (xs : list lthash) : list string := accumulatorHex <$> xs.

Lemma mapM_canon xs : mapM row_hash (canon xs) = Some xs.
Proof.
  unfold canon. induction xs as [|x xs IH]; [done|]. rewrite fmap_cons. cbn [mapM].
  by rewrite row_hash_canonical, IH.
Qed.

Lemma sumOf_canon xs : sumOf (canon xs) = accumulatorHex (lt_sum xs).
Proof. unfold sumOf. by rewrite row_sum, mapM_canon. Qed.

Lemma sumOf_one s x : row_hash s = Some x → sumOf [s] = accumulatorHex x.
Proof.
  intros Hx. unfold sumOf. rewrite row_sum. simpl. rewrite Hx. simpl. by rewrite lt_add_new.
Qed.

Lemma canonicalList_ok what hs out :
  canonicalList what hs = Ok out ↔ ∃ xs, mapM row_hash hs = Some xs ∧ out = canon xs.
Proof.
  unfold canonicalList. rewrite row_sum.
  destruct (mapM row_hash hs) as [xs|] eqn:Hxs; simpl.
  - assert ((fun h => sumOf [h]) <$> hs = canon xs) as ->.
    { apply mapM_Some_1 in Hxs. unfold canon. induction Hxs as [|h x hs xs Hx _ IH]; [done|].
      rewrite !fmap_cons, IH, (sumOf_one _ _ Hx). done. }
    split; [intros [= <-]; eauto|by intros (? & [= ->] & ->)].
  - split; [done|by intros (? & ? & ?)].
Qed.

Lemma canonicalList_err what hs :
  mapM row_hash hs = None → canonicalList what hs = Err (EHash what).
Proof. intros Hn. unfold canonicalList. by rewrite row_sum, Hn. Qed.

Lemma canonicalOne_ok what s out :
  canonicalOne what s = Ok out ↔ ∃ x, row_hash s = Some x ∧ out = accumulatorHex x.
Proof.
  unfold canonicalOne. rewrite rbind_ok. setoid_rewrite canonicalList_ok. simpl.
  destruct (row_hash s) as [x|]; simpl.
  - split.
    + intros (? & (xs & Hxs & ->) & [= <-]). injection Hxs as <-. eauto.
    + intros (? & [= <-] & ->). exists (canon [x]). split; [by exists [x]|done].
  - split; [by intros (? & (? & ? & ?) & ?)|by intros (? & ? & ?)].
Qed.

Lemma pick_id_difference (m l : list string) left need drop left' :
  consume (counts m) l = Some left → pick id left m = (need, drop, left') →
  list_to_set_disj l ⊆@{gmultiset string} list_to_set_disj m ∧
  list_to_set_disj need =@{gmultiset string} list_to_set_disj m ∖ list_to_set_disj l.
Proof.
  intros Hc Hp. destruct (consume_some _ _ _ _ (counts_reps m) Hc) as [Hsub Hr].
  destruct (pick_spec id _ _ _ _ _ _ Hr Hp) as (Hk & _ & _). rewrite !list_fmap_id in Hk.
  split; [done|]. rewrite Hk. multiset_solver.
Qed.

(** Replaces the canonicalized lists of a successful run by what they read. *)
Ltac canon_inv :=
  repeat match goal with
  | H : canonicalList _ _ = Ok ?o |- _ =>
      apply canonicalList_ok in H; destruct H as (? & ? & ->)
  | H : canonicalOne _ _ = Ok ?o |- _ =>
      apply canonicalOne_ok in H; destruct H as (? & ? & ->)
  end.

(** The plan, as relations between the parsed multisets. *)
Lemma PlanPartition_inv manifest root local p :
  PlanPartition manifest root local = Ok p →
  ∃ (M L : list lthash) (r : lthash), mapM row_hash manifest = Some M ∧
    row_hash root = Some r ∧ mapM row_hash local = Some L ∧ lt_sum M = r ∧
    Root p = accumulatorHex r ∧
    if Diverged p
    then Need p = [] ∧ ¬ list_to_set_disj (canon L) ⊆@{gmultiset string} list_to_set_disj (canon M)
    else canon M ≡ₚ canon L ++ Need p ∧ StronglySorted String.le (Need p).
Proof.
  unfold PlanPartition. intros Hp. go_inv. canon_inv. unbool.
  match goal with H : ¬ (sumOf (canon ?xs) ≠ accumulatorHex ?y) |- _ =>
    rename xs into M, y into r; rewrite sumOf_canon in H; apply dec_stable, accumulatorHex_inj in H
  end.
  match goal with H : mapM row_hash local = Some ?xs |- _ => rename xs into L end.
  exists M, L, r. do 4 (split; [done|]).
  destruct (consume (counts (canon M)) (canon L)) as [rest|] eqn:Hc.
  - destruct (pick id rest (canon M)) as [[need drop] rest'] eqn:Hpick. go_inv. subst p. simpl.
    split; [done|]. destruct (pick_id_difference _ _ _ _ _ _ Hc Hpick) as [Hsub Hneed].
    split; [|apply sort_strings_sorted].
    apply ms_perm. rewrite list_to_set_disj_app, sort_strings_perm, Hneed. multiset_solver.
  - go_inv. subst p. simpl. do 2 (split; [done|]). by apply (consume_none _ _ _ (counts_reps _)).
Qed.

(** The plan is defined exactly on the inputs whose hashes read and whose
    manifest sums to its root. *)
Lemma PlanPartition_defined manifest root local M L :
  mapM row_hash manifest = Some M → row_hash root = Some (lt_sum M) →
  mapM row_hash local = Some L → ∃ p, PlanPartition manifest root local = Ok p.
Proof.
  intros HM Hr HL. unfold PlanPartition.
  rewrite (proj2 (canonicalList_ok _ _ (canon M))) by eauto. simpl.
  rewrite (proj2 (canonicalOne_ok _ _ (accumulatorHex (lt_sum M)))) by eauto. simpl.
  rewrite bool_decide_eq_false_2 by (rewrite sumOf_canon; tauto).
  rewrite (proj2 (canonicalList_ok _ _ (canon L))) by eauto. simpl.
  destruct (consume _ _); [destruct (pick _ _ _) as [[??]?]|]; eauto.
Qed.

Lemma Closure_ok root local kept :
  Closure root local kept = Ok () ↔
  ∃ L K r, mapM row_hash local = Some L ∧ mapM row_hash kept = Some K ∧
    row_hash root = Some r ∧ lt_add (lt_sum L) (lt_sum K) = r.
Proof.
  unfold Closure. split.
  - intros Hc. go_inv. canon_inv. unbool.
    match goal with H : ¬ (sumOf (canon ?l ++ canon ?k) ≠ accumulatorHex ?r) |- _ =>
      exists l, k, r; unfold canon in H; rewrite <- fmap_app in H; fold (canon (l ++ k)) in H;
      rewrite sumOf_canon in H; apply dec_stable, accumulatorHex_inj in H
    end.
    by rewrite <- lt_sum_app.
  - intros (L & K & r & HL & HK & Hr & Hsum).
    rewrite (proj2 (canonicalOne_ok _ _ (accumulatorHex r))) by eauto. simpl.
    rewrite (proj2 (canonicalList_ok _ _ (canon L))) by eauto. simpl.
    rewrite (proj2 (canonicalList_ok _ _ (canon K))) by eauto. simpl.
    rewrite bool_decide_eq_false_2; [done|]. intros Hne. apply Hne.
    unfold canon. rewrite <- fmap_app. fold (canon (L ++ K)).
    by rewrite sumOf_canon, lt_sum_app, Hsum.
Qed.

(** Reading is invariant under permutations of the canonical strings. *)
Lemma canon_perm_read xs (hs : list string) :
  canon xs ≡ₚ hs → ∃ ys, mapM row_hash hs = Some ys ∧ hs = canon ys ∧ xs ≡ₚ ys.
Proof.
  intros Hp. unfold canon in Hp. symmetry in Hp.
  apply Permutation_map_inv in Hp as (ys & -> & Hp).
  exists ys. split; [apply mapM_canon|]. split; [done|]. by symmetry.
Qed.

Lemma canonical_read (hs : list string) xs :
  mapM row_hash hs = Some xs → (λ h, sumOf [h]) <$> hs = canon xs.
Proof.
  intros Hxs%mapM_Some_1. unfold canon. induction Hxs as [|h x hs xs Hx _ IH]; [done|].
  by rewrite !fmap_cons, IH, (sumOf_one _ _ Hx).
Qed.

Lemma canonical_read_fmap {A} (f : A → string) (l : list A) xs :
  mapM row_hash (f <$> l) = Some xs → (λ a, sumOf [f a]) <$> l = canon xs.
Proof. intros Hxs%canonical_read. by rewrite <- list_fmap_compose in Hxs. Qed.

Lemma sumOf_read (hs : list string) xs :
  mapM row_hash hs = Some xs → sumOf hs = accumulatorHex (lt_sum xs).
Proof. intros Hxs. unfold sumOf. by rewrite row_sum, Hxs. Qed.

Lemma perm_app_read M L (hs : list string) :
  canon M ≡ₚ canon L ++ hs →
  ∃ ys, mapM row_hash hs = Some ys ∧ hs = canon ys ∧ M ≡ₚ L ++ ys.
Proof.
  intros Hp. destruct (canon_perm_read _ _ Hp) as (zs & _ & Hz & HMz).
  unfold canon in Hz. symmetry in Hz. apply fmap_app_inv in Hz as (ys1 & ys2 & H1' & H2' & ->).
  assert (Inj (=) (=) accumulatorHex) as Hinj by (intros ??; apply accumulatorHex_inj).
  unfold canon in H1'. apply (inj (fmap accumulatorHex)) in H1'. subst ys1.
  exists ys2. split; [|done]. rewrite H2'. apply mapM_canon.
Qed.

(** ** The classifier *)
Lemma zip_with_names (scratch : list ScratchPart) (hs : list string) :
  length hs = length scratch →
  sp_Name <$> zip_with (fun p h => mkScratchPart (sp_Name p) h (sp_Rows p)) scratch hs
  = sp_Name <$> scratch.
Proof.
  revert hs. induction scratch as [|p scratch IH]; intros [|h hs] Hl; try done.
  simpl in *. f_equal. apply IH. lia.
Qed.

Lemma zip_with_hashes (scratch : list ScratchPart) (hs : list string) :
  length hs = length scratch →
  sp_RowLtHash <$> zip_with (fun p h => mkScratchPart (sp_Name p) h (sp_Rows p)) scratch hs = hs.
Proof.
  revert hs. induction scratch as [|p scratch IH]; intros [|h hs] Hl; try done.
  simpl in *. f_equal. apply IH. lia.
Qed.

Lemma length_canon_read (hs : list string) xs :
  mapM row_hash hs = Some xs → length (canon xs) = length hs.
Proof. intros Hx%length_mapM. unfold canon. by rewrite length_fmap. Qed.

(** A restore keeps exactly the needed parts it brought: the kept hashes are
    the multiset intersection of the need with the scratch, each part is
    kept or dropped, and nothing is ever foreign. *)
Lemma Classify_restore_inv need scratch c :
  Classify (mkFetch need None) scratch = Ok c →
  ∃ (N S : list lthash), mapM row_hash need = Some N ∧
    mapM row_hash (sp_RowLtHash <$> scratch) = Some S ∧
    cl_Outcome c = OutcomeKept ∧
    cl_Keep c ++ cl_Drop c ≡ₚ sp_Name <$> scratch ∧
    length (cl_Keep c) = length (cl_Kept c) ∧
    list_to_set_disj (cl_Kept c) =@{gmultiset string}
      list_to_set_disj (canon N) ∩ list_to_set_disj (canon S).
Proof.
  unfold Classify. simpl. intros Hc. go_inv. canon_inv.
  match goal with H : mapM row_hash need = Some ?xs |- _ => rename xs into N end.
  match goal with H : mapM row_hash (_ <$> scratch) = Some ?xs |- _ =>
    rename xs into S; pose proof (length_canon_read _ _ H) as Hlen end.
  rewrite length_fmap in Hlen. exists N, S. do 2 (split; [done|]).
  unfold classifyRestore in Hc.
  destruct (pick _ _ _) as [[keep drop] rest] eqn:Hp. subst c. simpl.
  destruct (pick_spec _ _ _ _ _ _ _ (counts_reps _) Hp) as (Hk & Hperm & _).
  split; [done|]. split; [|split].
  - by rewrite <- fmap_app, Hperm, zip_with_names.
  - by rewrite !length_fmap.
  - by rewrite Hk, zip_with_hashes.
Qed.

Lemma Classify_pull_inv need x want scratch c :
  Classify (mkFetch need (Some (mkExpected x want))) scratch = Ok c →
  ∃ (Nd S : list lthash) h, mapM row_hash need = Some Nd ∧
    mapM row_hash (sp_RowLtHash <$> scratch) = Some S ∧ row_hash x = Some h ∧
    c = classifyPull (canon Nd) (mkExpected (accumulatorHex h) want)
          (zip_with (fun p h => mkScratchPart (sp_Name p) h (sp_Rows p)) scratch (canon S)).
Proof. unfold Classify. simpl. intros Hc. go_inv. canon_inv. subst c. eauto 10. Qed.

Lemma sum_rows_zip (scratch : list ScratchPart) (hs : list string) :
  length hs = length scratch →
  sum_rows (zip_with (fun p h => mkScratchPart (sp_Name p) h (sp_Rows p)) scratch hs)
  = sum_rows scratch.
Proof.
  unfold sum_rows. generalize 0%N as acc. revert hs.
  induction scratch as [|p scratch IH]; intros [|h hs] acc Hl; try done.
  simpl in *. apply IH. lia.
Qed.

Lemma length_zip (scratch : list ScratchPart) (hs : list string) :
  length hs = length scratch →
  length (zip_with (fun p h => mkScratchPart (sp_Name p) h (sp_Rows p)) scratch hs)
  = length scratch.
Proof. intros Hl. rewrite length_zip_with. lia. Qed.

Lemma rows_zip (scratch : list ScratchPart) (hs : list string) :
  Forall (fun p => is_u64 (sp_Rows p)) scratch →
  Forall (fun p => is_u64 (sp_Rows p))
    (zip_with (fun p h => mkScratchPart (sp_Name p) h (sp_Rows p)) scratch hs).
Proof.
  intros Hu. revert hs. induction Hu as [|p scratch Hp _ IH]; intros [|h hs]; simpl; auto.
Qed.

(** The verdict on a pull of one expected part, by what the scratch holds. *)
Definition pull_holds (o : Outcome) (Nd S : list lthash) (x : lthash) (rows want : N) (n : nat) : Prop :=
  match o with
  | OutcomeRenameRace => rows = 0%N
  | OutcomeKept => rows ≠ 0%N ∧ S = [x] ∧ rows = want ∧ accumulatorHex x ∈ canon Nd
  | OutcomeSplit => rows ≠ 0%N ∧ 2 ≤ n ∧ lt_sum S = x ∧ rows = want
  | OutcomeDoubled => rows ≠ 0%N ∧ lt_sum S = lt_add x x ∧ rows = u64 (2 * want)
  | OutcomeForeign => rows ≠ 0%N ∧ ¬ (2 ≤ n ∧ lt_sum S = x ∧ rows = want) ∧
      ¬ (lt_sum S = lt_add x x ∧ rows = u64 (2 * want)) ∧
      ¬ (S = [x] ∧ rows = want ∧ accumulatorHex x ∈ canon Nd)
  end.

Lemma counts_pos (need : list string) h : 0 < get_or 0 (counts need) h ↔ h ∈ need.
Proof.
  rewrite (counts_reps need h), <- elem_of_list_to_set_disj, elem_of_multiplicity. lia.
Qed.

Lemma sumOf_pair x : sumOf [accumulatorHex x; accumulatorHex x] = accumulatorHex (lt_add x x).
Proof. change [_; _] with (canon [x; x]). rewrite sumOf_canon. simpl. by rewrite lt_add_new. Qed.

Lemma classifyPull_spec Nd S x want parts :
  sp_RowLtHash <$> parts = canon S → Forall (fun p => is_u64 (sp_Rows p)) parts →
  let c := classifyPull (canon Nd) (mkExpected (accumulatorHex x) want) parts in
  pull_holds (cl_Outcome c) Nd S x (sum_rows parts) want (length parts) ∧
  (cl_Outcome c = OutcomeKept → cl_Keep c = sp_Name <$> parts ∧ cl_Kept c = [accumulatorHex x]) ∧
  (cl_Outcome c = OutcomeForeign → cl_Keep c = [] ∧ cl_Drop c = []).
Proof.
  intros Hh Hu. cbv zeta. unfold classifyPull. cbn [e_RowLtHash e_Rows].
  assert (∀ p, parts = [p] → sum_rows parts = sp_Rows p) as Hone.
  { intros p ->. unfold sum_rows. simpl. apply u64_small. by inversion Hu. }
  assert (∀ p, parts = [p] → sp_RowLtHash p = accumulatorHex x ↔ S = [x]) as Hsx.
  { intros p ->. rewrite fmap_cons, fmap_nil in Hh. destruct S as [|y [|z S]]; try done.
    unfold canon in Hh. rewrite fmap_cons, fmap_nil in Hh. injection Hh as ->. split.
    - by intros ->%accumulatorHex_inj.
    - by intros [= ->]. }
  assert (length S = length parts) as HlS.
  { apply (f_equal length) in Hh. unfold canon in Hh. by rewrite !length_fmap in Hh. }
  rewrite Hh, sumOf_canon, sumOf_pair.
  case_bool_decide as Hz; [done|].
  destruct (match parts with [p] => _ | _ => false end) eqn:Hk.
  { destruct parts as [|p [|]]; try done. unbool. rewrite counts_pos in Hk.
    split; [|done]. simpl. split; [done|]. split; [by apply (Hsx p eq_refl)|].
    split; [|done]. rewrite (Hone p eq_refl). done. }
  destruct (bool_decide (2 ≤ length parts) && _ && _) eqn:Hsp.
  { unbool. split; [|done]. simpl. do 2 (split; [done|]). split; [|done].
    by apply accumulatorHex_inj. }
  destruct (bool_decide (accumulatorHex _ = _) && bool_decide (sum_rows parts = u64 _)) eqn:Hd.
  { unbool. split; [|done]. simpl. split; [done|]. split; [|done]. by apply accumulatorHex_inj. }
  split; [|done]. simpl. split; [done|]. split; [|split].
  - intros (Hn & Hs & Hw). rewrite !bool_decide_eq_true_2 in Hsp by congruence. done.
  - intros (Hs & Hw). rewrite !bool_decide_eq_true_2 in Hd by congruence. done.
  - intros (Hs & Hw & Hin). subst S. destruct parts as [|p [|]]; try done.
    rewrite bool_decide_eq_true_2 in Hk by (by apply (Hsx p eq_refl)).
    rewrite bool_decide_eq_true_2 in Hk by (by rewrite <- (Hone p eq_refl)).
    rewrite bool_decide_eq_true_2 in Hk by (by apply counts_pos). done.
Qed.
End gate.

(** ** Properties *)

(** C11: The install plan is exact. When PlanPartition succeeds, the manifest's
    parts sum to the partition root; the partition is Diverged exactly when the
    local copy is not a sub-multiset of the manifest (in canonical spelling);
    and otherwise the need is sorted, the manifest is the local copy plus the
    need as multisets (nothing missing, nothing fetched twice), and the
    arithmetic closure check accepts the local copy together with the need. *)
Theorem plan_partition_exact `{RowSumLaws, !LtHashLaws} manifest root local p :
  PlanPartition manifest root local = Ok p →
  sumOf manifest = Root p ∧
  (Diverged p = true ↔
     ¬ list_to_set_disj ((λ h, sumOf [h]) <$> local) ⊆@{gmultiset string}
       list_to_set_disj ((λ h, sumOf [h]) <$> manifest)) ∧
  (Diverged p = false →
     (λ h, sumOf [h]) <$> manifest ≡ₚ ((λ h, sumOf [h]) <$> local) ++ Need p ∧
     StronglySorted String.le (Need p) ∧
     Closure root local (Need p) = Ok ()).
Proof.
  intros Hp. destruct (PlanPartition_inv _ _ _ _ Hp) as (M & L & r & HM & Hr & HL & Hsum & HR & Hd).
  rewrite !(canonical_read _ _ HM), !(canonical_read _ _ HL), (sumOf_read _ _ HM), Hsum, HR.
  split; [done|]. destruct (Diverged p).
  - split; [|done]. destruct Hd as [_ Hd]. done.
  - destruct Hd as [Hperm Hsorted]. split.
    + split; [done|]. intros Hn. destruct Hn. apply ms_perm in Hperm.
      rewrite Hperm, list_to_set_disj_app. multiset_solver.
    + intros _. do 2 (split; [done|]). apply Closure_ok.
      destruct (perm_app_read _ _ _ Hperm) as (Ks & HK & _ & HMK).
      exists L, Ks, r. do 3 (split; [done|]). by rewrite <- lt_sum_app, <- HMK.
Qed.


(** C16: A pull is judged by what the scratch holds. For a pull of one expected
    part, Classify answers a rename race exactly for a scratch without rows,
    Kept only for the single expected part with its row count that the need
    lists, Split only for two or more parts that sum to it with its rows,
    Doubled only for parts that sum to it twice with twice its rows, and Foreign
    (dropping nothing) for everything else. *)
Theorem pull_verdict `{RowSumLaws, !LtHashLaws} need x want scratch c :
  Forall (λ q, is_u64 (sp_Rows q)) scratch →
  Classify (mkFetch need (Some (mkExpected x want))) scratch = Ok c →
  ∃ Nd S h, mapM row_hash need = Some Nd ∧ mapM row_hash (sp_RowLtHash <$> scratch) = Some S ∧
    row_hash x = Some h ∧
    pull_holds (cl_Outcome c) Nd S h (sum_rows scratch) want (length scratch) ∧
    (cl_Outcome c = OutcomeKept → cl_Keep c = sp_Name <$> scratch ∧ cl_Kept c = [accumulatorHex h]) ∧
    (cl_Outcome c = OutcomeForeign → cl_Keep c = [] ∧ cl_Drop c = []).
Proof.
  intros Hu Hc. destruct (Classify_pull_inv _ _ _ _ _ Hc) as (Nd & S & h & HN & HS & Hx & ->).
  exists Nd, S, h. do 3 (split; [done|]).
  pose proof (length_canon_read _ _ HS) as Hlen. rewrite length_fmap in Hlen.
  rewrite <- (zip_with_names scratch (canon S)) by done.
  rewrite <- (sum_rows_zip scratch (canon S)), <- (length_zip scratch (canon S)) by done.
  apply classifyPull_spec; [by apply zip_with_hashes|by apply rows_zip].
Qed.

(** ** Witnesses *)
Import Lane16.

#[export] Instance row_sum16 : RowSum := {
  SumPartRowLtHashes hs := accumulatorHex ∘ lt_sum <$> mapM parseAccumulatorHex hs;
  row_hash := parseAccumulatorHex;
}.

#[export] Instance row_sum16_laws : RowSumLaws.
Proof. split; [done|]. apply parse_accumulatorHex. Qed.

Lemma plan_partition_exact_witness :
  PlanPartition [hex 5; hex 7; hex 7] (hex 19) ["0700"%string] = Ok (mkPlan false [hex 5; hex 7] (hex 19)) ∧
  Closure (hex 19) ["0700"%string] [hex 5; hex 7] = Ok ().
Proof.
  assert (PlanPartition [hex 5; hex 7; hex 7] (hex 19) ["0700"%string] =
          Ok (mkPlan false [hex 5; hex 7] (hex 19))) as Hp by (vm_compute; reflexivity).
  split; [exact Hp|].
  exact (proj2 (proj2 (proj2 (proj2 (plan_partition_exact _ _ _ _ Hp)) eq_refl))).
Defined.


Lemma pull_verdict_witness :
  ∃ Nd S h, pull_holds OutcomeSplit Nd S h 3 3 2.
Proof.
  assert (Classify (mkFetch [hex 12] (Some (mkExpected (hex 12) 3)))
            [mkScratchPart "a" (hex 5) 1; mkScratchPart "b" (hex 7) 2]
          = Ok (mkClassification OutcomeSplit [] ["a"; "b"]%string [])) as Hc
    by (vm_compute; reflexivity).
  assert (Forall (λ q, is_u64 (sp_Rows q))
            [mkScratchPart "a" (hex 5) 1; mkScratchPart "b" (hex 7) 2]) as Hu
    by (repeat constructor).
  destruct (pull_verdict _ _ _ _ _ Hu Hc) as (Nd & S & h & _ & _ & _ & Hh & _).
  exists Nd, S, h. exact Hh.
Defined.
End Gate.
