(* ===== verification/Registry.v ===== *)
(** * The table registry view (wire/table_registry_snapshot.go, wire/stage3_registry.go)

    The committed registry as the data-plane nodes read it: the incarnations of
    each table, the database groups, and who owns, keeps and may replicate what.
    Only the fields the view's own methods and the modelled readers use are kept
    (event references and refusal texts are not). *)
From S2P Require Import Prelude Types.

Module Registry.

Inductive TableIncarnationStatus := Legacy | Pending | Refused | Active | Retiring | Purging | Purged.
Inductive TableOrigin := OriginGenesis | OriginLegacy | OriginChain.

#[export] Instance TableIncarnationStatus_eq_dec : EqDecision TableIncarnationStatus.
Proof. solve_decision. Defined.
#[export] Instance TableOrigin_eq_dec : EqDecision TableOrigin.
Proof. solve_decision. Defined.

Record TableIncarnation := mkIncarnation {
  ti_Seq : N; ti_DatabaseID : string; ti_TableID : string; ti_Origin : TableOrigin;
  ti_Status : TableIncarnationStatus; ti_SchemaHash : string; ti_AddBlockSeq : N; ti_RetireBlockSeq : N;
  ti_PurgedBy : list string; ti_OwnerIndexerID : option N; ti_ScopedKeeperPath : bool;
  ti_PurgeMembers : list string; ti_SchemaJSON : string }.

Record SIIndexerEntry := mkIndexer { si_IndexerID : N; si_SNodeNodeID : string }.

Record GroupMember := mkMember { gm_NodeID : string; gm_JoinedGeneration : N; gm_ReadyGeneration : N }.
Record LeavingMember := mkLeaving { lm_NodeID : string; lm_RemovedGeneration : N; lm_Released : bool }.
Record DatabaseGroup := mkGroup {
  dg_OwnerIndexerID : N; dg_DatabaseID : string; dg_Members : list GroupMember; dg_Generation : N;
  dg_PastMembers : list string; dg_Leaving : list LeavingMember }.
Record MemberCheckpointSeq := mkCheckpointSeq {
  mc_NodeID : string; mc_OwnerIndexerID : N; mc_CheckpointSeq : N; mc_ReplicaSigner : string }.

Record TableRegistrySnapshot := mkSnapshot {
  rs_FoundingIndexer : N; rs_Version : N; rs_Incarnations : list TableIncarnation;
  rs_SIIndexers : list SIIndexerEntry; rs_QuarantinedIndexers : list N;
  rs_Groups : list DatabaseGroup; rs_MemberCheckpointSeqs : list MemberCheckpointSeq }.

Definition Key (t : TableIncarnation) : string := TableKey (ti_DatabaseID t) (ti_TableID t).

Definition HasPhysicalTables (t : TableIncarnation) : bool :=
  match ti_Status t with Pending | Active | Retiring | Purging => true | _ => false end.

Definition Ready (m : GroupMember) : bool :=
  bool_decide (gm_ReadyGeneration m ≠ 0%N) && bool_decide (gm_JoinedGeneration m ≤ gm_ReadyGeneration m)%N.

(** [for i := len - 1; i >= 0; i--], with the newest of the key as fallback. *)
Fixpoint live_loop (key : string) (newest : option TableIncarnation) (rev : list TableIncarnation)
    : option TableIncarnation :=
  match rev with
  | [] => newest
  | inc :: rev =>
      if bool_decide (Key inc ≠ key) then live_loop key newest rev else
      let newest := match newest with None => Some inc | Some _ => newest end in
      if bool_decide (ti_Status inc ≠ Purged) && bool_decide (ti_Status inc ≠ Refused)
      then Some inc else live_loop key newest rev
  end.

Definition Live (s : TableRegistrySnapshot) (key : string) : option TableIncarnation :=
  live_loop key None (reverse (rs_Incarnations s)).

Definition ActiveTables (s : TableRegistrySnapshot) : list TableIncarnation :=
  filter (fun inc => ti_Status inc = Active) (rs_Incarnations s).

Definition SIIndexer (s : TableRegistrySnapshot) (indexerID : N) : option SIIndexerEntry :=
  head (filter (fun e => si_IndexerID e = indexerID) (rs_SIIndexers s)).

Definition Owner (s : TableRegistrySnapshot) (inc : TableIncarnation) : N :=
  match ti_OwnerIndexerID inc with Some o => o | None => rs_FoundingIndexer s end.

(** The nodes the view names. *)
Definition named (s : TableRegistrySnapshot) : list string :=
  (si_SNodeNodeID <$> rs_SIIndexers s) ++
  mjoin ((fun g => (gm_NodeID <$> dg_Members g) ++ dg_PastMembers g ++ (lm_NodeID <$> dg_Leaving g)) <$> rs_Groups s) ++
  mjoin (ti_PurgeMembers <$> rs_Incarnations s) ++ (mc_NodeID <$> rs_MemberCheckpointSeqs s).

Definition NetworkPool (s : TableRegistrySnapshot) (purgeNodeSet : list string) : list string :=
  sorted_set (filter (fun id => id ≠ EmptyString ∧ (id ∉ named s)) purgeNodeSet).

Definition Group (s : TableRegistrySnapshot) (owner : N) (databaseID : string) : option DatabaseGroup :=
  head (filter (fun g => dg_OwnerIndexerID g = owner ∧ dg_DatabaseID g = databaseID) (rs_Groups s)).

Definition is_member (nodeID : string) (g : DatabaseGroup) : Prop :=
  Exists (fun m => gm_NodeID m = nodeID) (dg_Members g).
Definition is_leaving (nodeID : string) (g : DatabaseGroup) : Prop :=
  Exists (fun l => lm_NodeID l = nodeID ∧ lm_Released l = false) (dg_Leaving g).

#[export] Instance is_member_dec nodeID g : Decision (is_member nodeID g).
Proof. unfold is_member. apply _. Defined.
#[export] Instance is_leaving_dec nodeID g : Decision (is_leaving nodeID g).
Proof. unfold is_leaving. apply _. Defined.

Definition GroupsWithMember (s : TableRegistrySnapshot) (nodeID : string) : list DatabaseGroup :=
  filter (fun g => is_member nodeID g ∨ is_leaving nodeID g) (rs_Groups s).

Definition PublishedCheckpointSeq (s : TableRegistrySnapshot) (nodeID : string) (owner : N)
    : option MemberCheckpointSeq :=
  head (filter (fun q => mc_NodeID q = nodeID ∧ mc_OwnerIndexerID q = owner) (rs_MemberCheckpointSeqs s)).

Definition KnownKeeperReplica (s : TableRegistrySnapshot) (inc : TableIncarnation) (pool : list string)
    (replica : string) : bool :=
  if bool_decide (replica = EmptyString) then false else
  let owner := Owner s inc in
  if match SIIndexer s owner with Some e => bool_decide (si_SNodeNodeID e = replica) | None => false end
  then true else
  if bool_decide (replica ∈ pool) || bool_decide (replica ∈ ti_PurgeMembers inc) then true else
  match Group s owner (ti_DatabaseID inc) with
  | None => false
  | Some g =>
      bool_decide (is_member replica g) || bool_decide (replica ∈ dg_PastMembers g) ||
      bool_decide (Exists (fun l => lm_NodeID l = replica) (dg_Leaving g))
  end.

(** An incarnation a published manifest can hold. *)
Definition holdable (key : string) (inc : TableIncarnation) : Prop :=
  Key inc = key ∧ ti_Status inc ≠ Refused ∧ (ti_Origin inc = OriginGenesis ∨ ti_AddBlockSeq inc ≠ 0%N).

#[export] Instance holdable_dec key inc : Decision (holdable key inc).
Proof. unfold holdable. apply _. Defined.

Fixpoint owner_loop (s : TableRegistrySnapshot) (key : string) (rev : list TableIncarnation) : option N :=
  match rev with
  | [] => None
  | inc :: rev =>
      if bool_decide (Key inc ≠ key) || bool_decide (ti_Status inc = Refused) then owner_loop s key rev else
      if bool_decide (ti_Origin inc = OriginGenesis) || bool_decide (ti_AddBlockSeq inc ≠ 0%N)
      then Some (Owner s inc) else owner_loop s key rev
  end.

Definition ManifestOwner (s : TableRegistrySnapshot) (tableKey : string) : option N :=
  owner_loop s tableKey (reverse (rs_Incarnations s)).

(** ** Lemmas *)
Lemma head_filter {A} (P : A → Prop) `{∀ x, Decision (P x)} (l : list A) x :
  head (filter P l) = Some x → x ∈ l ∧ P x.
Proof.
  intros Hh. assert (x ∈ filter P l) as Hx%list_elem_of_filter by (destruct (filter P l); simplify_eq/=; by left).
  tauto.
Qed.

Lemma head_filter_none {A} (P : A → Prop) `{∀ x, Decision (P x)} (l : list A) :
  head (filter P l) = None → ∀ x, x ∈ l → ¬ P x.
Proof.
  intros Hh x Hx HP. assert (x ∈ filter P l) as Hin by (by apply list_elem_of_filter).
  destruct (filter P l); [by apply elem_of_nil in Hin|done].
Qed.

Lemma filter_reverse {A} (P : A → Prop) `{∀ x, Decision (P x)} (l : list A) :
  filter P (reverse l) = reverse (filter P l).
Proof.
  induction l as [|x l IH]; [done|]. rewrite reverse_cons, filter_app, IH, filter_cons, filter_cons.
  case_decide; [by rewrite reverse_cons|]. by rewrite filter_nil, app_nil_r.
Qed.

Lemma head_rev {A} (l : list A) : head (reverse l) = last l.
Proof.
  destruct l as [|x l _] using rev_ind; [done|]. by rewrite reverse_app, last_snoc.
Qed.

(** A scan from the end finds the last element with the property. *)
Lemma head_filter_reverse {A} (P : A → Prop) `{∀ x, Decision (P x)} (l : list A) :
  head (filter P (reverse l)) = last (filter P l).
Proof. by rewrite filter_reverse, head_rev. Qed.

Lemma owner_loop_head s key rev : owner_loop s key rev = Owner s <$> head (filter (holdable key) rev).
Proof.
  induction rev as [|inc rev IH]; [done|]. cbn [owner_loop]. rewrite filter_cons, IH.
  repeat case_bool_decide; simpl; case_decide; try done; exfalso; unfold holdable in *; tauto.
Qed.

Definition of_key (key : string) (inc : TableIncarnation) : Prop := Key inc = key.
Definition alive (key : string) (inc : TableIncarnation) : Prop :=
  Key inc = key ∧ ti_Status inc ≠ Purged ∧ ti_Status inc ≠ Refused.
#[export] Instance of_key_dec key inc : Decision (of_key key inc).
Proof. unfold of_key. apply _. Defined.
#[export] Instance alive_dec key inc : Decision (alive key inc).
Proof. unfold alive. apply _. Defined.

Lemma live_loop_head key newest rev :
  live_loop key newest rev =
  match head (filter (alive key) rev) with
  | Some inc => Some inc
  | None => match newest with Some n => Some n | None => head (filter (of_key key) rev) end
  end.
Proof.
  revert newest. induction rev as [|inc rev IH]; intros newest; [by destruct newest|].
  cbn [live_loop]. rewrite !filter_cons. case_bool_decide as Hk.
  - rewrite IH, decide_False by (unfold alive; tauto). by rewrite decide_False.
  - rewrite (decide_True (P := of_key key inc)) by done. cbv zeta. rewrite IH.
    repeat case_bool_decide; simpl; case_decide; try (exfalso; unfold alive in *; tauto); by destruct newest.
Qed.

Lemma group_found s g : NoDup ((λ g, (dg_OwnerIndexerID g, dg_DatabaseID g)) <$> rs_Groups s) → g ∈ rs_Groups s →
  Group s (dg_OwnerIndexerID g) (dg_DatabaseID g) = Some g.
Proof.
  intros Hnd Hg. unfold Group. destruct (head _) as [g'|] eqn:Hh.
  - apply head_filter in Hh as [Hg' [Ho Hd]]. f_equal.
    apply list_elem_of_lookup in Hg as [i Hi], Hg' as [j Hj].
    assert (i = j) as ->; [|congruence].
    eapply NoDup_lookup; [done| |]; rewrite list_lookup_fmap; [rewrite Hi|rewrite Hj]; simpl; [done|].
    by rewrite Ho, Hd.
  - exfalso. by apply (head_filter_none _ _ Hh g Hg).
Qed.

(** ** Properties *)

(** A published manifest attributes a table to the newest incarnation it can
    hold. [ManifestOwner] is the owner of the last incarnation of the key that is
    not Refused and ever entered a table set, whatever Pending or Refused ones
    follow it; [Live] is the last one neither Purged nor Refused and, when every
    one is, the last of the key. *)
Theorem registry_newest s key :
  ManifestOwner s key = Owner s <$> last (filter (holdable key) (rs_Incarnations s)) ∧
  Live s key = match last (filter (alive key) (rs_Incarnations s)) with
               | Some inc => Some inc
               | None => last (filter (of_key key) (rs_Incarnations s))
               end.
Proof.
  unfold ManifestOwner, Live. rewrite owner_loop_head, live_loop_head, !head_filter_reverse. split; [done|].
  by destruct (last _).
Qed.


(** ** Witnesses *)
#[local] Open Scope string_scope.

Definition ex_inc : TableIncarnation := mkIncarnation 1 "db" "t" OriginChain Active "h" 3 0 [] (Some 1%N) false [] "{}".
Definition ex_group : DatabaseGroup := mkGroup 1 "db" [mkMember "m" 1 1] 1 [] [mkLeaving "old" 1 false].
Definition ex_registry : TableRegistrySnapshot :=
  mkSnapshot 1 5 [ex_inc] [mkIndexer 1 "owner"] [] [ex_group] [].

End Registry.
