(* ===== verification/Serve.v ===== *)
(** * The member's serving side (member/serve)

    [evaluateLocked] decides whether a copy may be served, [poll] applies it to
    every database, and the lease operations grant, renew, release and revoke the
    one lease per database a host may hold, each recorded in LeaseFile before it
    is applied. [BeforeInstall] and [AfterInstall] bracket every install.

    A lease is named by its id: the maps hold pointers to leases whose ids are
    never reused. Times are nanoseconds on the member's clock. Metrics and logs
    are left out; the published manifest and the copy naming are housegate's and
    are an interface. *)
From S2P Require Import Prelude Types Registry.
Import Registry.

(** pkg/replay and pkg/sitable of housegate. *)
Class Housegate := {
  TrackFrontier : Type;
  #[global] TrackFrontier_eq_dec :: EqDecision TrackFrontier;
  zero_frontier : TrackFrontier;
  Manifest : Type;
  OwnerEntry : Manifest → N → option TrackFrontier;
  CopyTable : string → N → string;
}.

Module Serve.

Inductive Reason :=
| OwnerAvailable | EntryUnconfirmed | CopyBehind | AuditUnclean | TableForeign | TableDiverged
| TableExcluded | TableMissing | ServingDisabled | FeedUnavailable | Installing.

#[export] Instance Reason_eq_dec : EqDecision Reason.
Proof. solve_decision. Defined.

Inductive TableCondition := Installed | Foreign | Diverged | Excluded | UnknownCondition.

Record OwnerDatabase := mkOD { od_Owner : N; od_Database : string }.
#[export] Instance OwnerDatabase_eq_dec : EqDecision OwnerDatabase.
Proof. solve_decision. Defined.
#[export] Instance OwnerDatabase_countable : Countable OwnerDatabase.
Proof. refine (inj_countable' (λ k, (od_Owner k, od_Database k)) (λ t, mkOD t.1 t.2) _). by intros []. Defined.

Record TableCopy := mkTableCopy {
  tc_TableID : string; tc_IncarnationSeq : N; tc_CopyTable : string; tc_SchemaHash : string;
  tc_Condition : TableCondition }.

(** A lease; [done] is closed exactly when the lease left [byID]. *)
Record lease := mkLease {
  le_id : string; le_database : string; le_owner : N; le_renewed : Z; le_ttl : Z;
  le_revoked : bool; le_revokedAt : Z }.

Record leaseRecord := mkLeaseRecord {
  lr_LeaseID : string; lr_Database : string; lr_Owner : N; lr_RenewedUnixNano : Z; lr_TTLMs : Z }.

Record Config := mkConfig { c_Enabled : bool; c_LeaseTTL : Z; c_OwnerUnreachableAfter : Z }.

Inductive serve_error := ENotServed (reason : Reason) | EMoved | ELeaseID | ELeaseFile
| EUnknownLease | ERevokedLease | ELeaseRecord | ELeaseOverflow | ELeaseTwice.

Definition Millisecond : Z := 1000000.
Definition maxLeaseTTLMs : Z := (2 ^ 63 - 1) / Millisecond.

Section serve.
Context `{Housegate}.

Record DatabaseCopy := mkCopy {
  dc_SnapshotID : string; dc_Entry : TrackFrontier; dc_Tables : list TableCopy; dc_AuditClean : bool }.

Record dbState := mkDB {
  ds_key : OwnerDatabase; ds_serving : bool; ds_reason : option Reason; ds_copy : DatabaseCopy;
  ds_haveCopy : bool; ds_served : list TableCopy; ds_lastEntry : TrackFrontier; ds_polls : nat;
  ds_installing : nat; ds_installed : N; ds_quarantine : bool; ds_unreach : bool }.

Record ownerState := mkOwner {
  os_addr : string; os_firstFailure : option Z; os_entry : TrackFrontier; os_entrySeen : bool;
  os_entrySince : Z }.

Record Server := mkServer {
  sv_cfg : Config; sv_epoch : N; sv_dbs : gmap OwnerDatabase dbState; sv_owners : gmap N ownerState;
  sv_leases : gmap string string; sv_byID : gmap string lease; sv_file : file (list leaseRecord) }.

Definition set_dbs (d : gmap OwnerDatabase dbState) (s : Server) : Server :=
  mkServer (sv_cfg s) (sv_epoch s) d (sv_owners s) (sv_leases s) (sv_byID s) (sv_file s).
Definition set_owners (o : gmap N ownerState) (s : Server) : Server :=
  mkServer (sv_cfg s) (sv_epoch s) (sv_dbs s) o (sv_leases s) (sv_byID s) (sv_file s).
Definition set_leases (l : gmap string string) (b : gmap string lease) (s : Server) : Server :=
  mkServer (sv_cfg s) (sv_epoch s) (sv_dbs s) (sv_owners s) l b (sv_file s).
Definition set_epoch (e : N) (s : Server) : Server :=
  mkServer (sv_cfg s) e (sv_dbs s) (sv_owners s) (sv_leases s) (sv_byID s) (sv_file s).
Definition set_file (f : file (list leaseRecord)) (s : Server) : Server :=
  mkServer (sv_cfg s) (sv_epoch s) (sv_dbs s) (sv_owners s) (sv_leases s) (sv_byID s) f.

(** ** Leases *)
Definition expiresAt (l : lease) : Z := (le_renewed l + le_ttl l)%Z.

Definition record (l : lease) (renewed : Z) : leaseRecord :=
  mkLeaseRecord (le_id l) (le_database l) (le_owner l) renewed (le_ttl l / Millisecond)%Z.

Definition endLocked (id : string) (s : Server) : Server :=
  match sv_byID s !! id with
  | None => s
  | Some l =>
      set_leases (if bool_decide (sv_leases s !! le_database l = Some id)
                  then delete (le_database l) (sv_leases s) else sv_leases s)
        (delete id (sv_byID s)) s
  end.

Definition sweepLocked (now : Z) (s : Server) : Server :=
  foldl (fun s id => endLocked id s) s
    (fst <$> filter (fun kv => ¬ (now < expiresAt kv.2)%Z) (map_to_list (sv_byID s))).

Definition revoke (now : Z) (l : lease) : lease :=
  if le_revoked l then l
  else mkLease (le_id l) (le_database l) (le_owner l) (le_renewed l) (le_ttl l) true now.

Definition revokeLocked (id : string) (now : Z) (s : Server) : Server :=
  set_leases (sv_leases s) (alter (revoke now) id (sv_byID s)) s.

(** LeaseFile's content: the leases of [byID] without [drop], with [add] and
    with [renewed] as the last renew of [renewing]. *)
Definition record_le (a b : leaseRecord) : Prop := String.le (lr_LeaseID a) (lr_LeaseID b).
#[export] Instance record_le_dec : RelDecision record_le.
Proof. intros a b. unfold record_le. apply _. Defined.

Definition leaseFileContent (drop : option string) (add : option lease) (renewing : option string) (renewed : Z)
    (s : Server) : list leaseRecord :=
  merge_sort record_le
    (omap (fun kv => if bool_decide (drop = Some kv.1) then None
                     else if bool_decide (renewing = Some kv.1) then Some (record kv.2 renewed)
                     else Some (record kv.2 (le_renewed kv.2))) (map_to_list (sv_byID s)) ++
     match add with Some l => [record l (le_renewed l)] | None => [] end).

(** Replaces LeaseFile; [false]: an error was returned. *)
Definition recordLeasesLocked (drop : option string) (add : option lease) (renewing : option string)
    (renewed : Z) (w : write_env) (s : Server) : bool * Server :=
  let '(ok, f) := atomic_replace w (sv_file s) (leaseFileContent drop add renewing renewed s) in
  (ok, set_file f s).

(** [for _, r := range f.Leases] of restoreLeases. *)
Fixpoint restore_loop (now : Z) (recs : list leaseRecord) (s : Server) : result serve_error Server :=
  match recs with
  | [] => Ok s
  | r :: recs =>
      if bool_decide (lr_LeaseID r = EmptyString) || bool_decide (lr_Database r = EmptyString) ||
         bool_decide (lr_TTLMs r ≤ 0)%Z then Err ELeaseRecord else
      if bool_decide (maxLeaseTTLMs < lr_TTLMs r)%Z then Err ELeaseOverflow else
      if bool_decide (is_Some (sv_leases s !! lr_Database r)) || bool_decide (is_Some (sv_byID s !! lr_LeaseID r))
      then Err ELeaseTwice else
      let l := mkLease (lr_LeaseID r) (lr_Database r) (lr_Owner r) (lr_RenewedUnixNano r)
                 (lr_TTLMs r * Millisecond)%Z true now in
      restore_loop now recs
        (if bool_decide (now < expiresAt l)%Z
         then set_leases (<[le_database l := le_id l]> (sv_leases s)) (<[le_id l := l]> (sv_byID s)) s else s)
  end.

(** New on a state directory with [f]: the ports and the defaults are given. *)
Definition New (cfg : Config) (addrs : gmap N string) (f : file (list leaseRecord)) (now : Z)
    : result serve_error Server :=
  restore_loop now (f_cur f)
    (mkServer cfg 0 ∅ ((fun a => mkOwner a None zero_frontier false 0) <$> addrs) ∅ ∅ f).

Definition acquire (database snapshotID : string) (newID : option string) (now : Z) (w : write_env) (s : Server)
    : result serve_error string * Server :=
  let s := sweepLocked now s in
  match filter (fun kv => od_Database kv.1 = database) (map_to_list (sv_dbs s)) with
  | [(key, found)] =>
      if negb (ds_serving found) then (Err (ENotServed (default EntryUnconfirmed (ds_reason found))), s) else
      if bool_decide (snapshotID ≠ dc_SnapshotID (ds_copy found)) then (Err EMoved, s) else
      match newID with
      | None => (Err ELeaseID, s)
      | Some id =>
          let l := mkLease id database (od_Owner (ds_key found)) now (c_LeaseTTL (sv_cfg s)) false 0 in
          let old := sv_leases s !! database in
          let '(ok, s) := recordLeasesLocked old (Some l) None 0 w s in
          if negb ok then (Err ELeaseFile, s) else
          let s := match old with Some o => endLocked o s | None => s end in
          (Ok id, set_leases (<[database := id]> (sv_leases s)) (<[id := l]> (sv_byID s)) s)
      end
  | _ => (Err (ENotServed TableMissing), s)
  end.

Definition with_renewed (now : Z) (l : lease) : lease :=
  mkLease (le_id l) (le_database l) (le_owner l) now (le_ttl l) (le_revoked l) (le_revokedAt l).

Definition renew (id : string) (now : Z) (w : write_env) (s : Server) : result serve_error unit * Server :=
  let s := sweepLocked now s in
  match sv_byID s !! id with
  | None => (Err EUnknownLease, s)
  | Some l =>
      if le_revoked l then (Err ERevokedLease, s) else
      let '(ok, s) := recordLeasesLocked None None (Some id) now w s in
      if negb ok then (Err ELeaseFile, s)
      else (Ok (), set_leases (sv_leases s) (<[id := with_renewed now l]> (sv_byID s)) s)
  end.

Definition release (id : string) (now : Z) (w : write_env) (s : Server) : Server :=
  match sv_byID s !! id with
  | None => sweepLocked now s
  | Some _ => (recordLeasesLocked None None None 0 w (sweepLocked now (endLocked id s))).2
  end.

(** ** Installs *)
Definition newDBState (key : OwnerDatabase) : dbState :=
  mkDB key false (Some EntryUnconfirmed) (mkCopy "" zero_frontier [] false) false [] zero_frontier 0 0 0 false false.

Definition stateLocked (key : OwnerDatabase) (s : Server) : dbState := default (newDBState key) (sv_dbs s !! key).

(** BeforeInstall up to its wait: [Some id] is the lease it waits for. *)
Definition BeforeInstall (key : OwnerDatabase) (now : Z) (s : Server) : option string * Server :=
  let st := stateLocked key s in
  let epoch := u64 (sv_epoch s + 1) in
  let st := mkDB (ds_key st) false (Some Installing) (ds_copy st) (ds_haveCopy st) [] (ds_lastEntry st) 0
              (S (ds_installing st)) epoch (ds_quarantine st) (ds_unreach st) in
  let s := sweepLocked now (set_epoch epoch (set_dbs (<[key := st]> (sv_dbs s)) s)) in
  match sv_leases s !! od_Database key with
  | None => (None, s)
  | Some id => (Some id, revokeLocked id now s)
  end.

(** One more or one fewer install ended or given up. *)
Definition end_install (polls : nat → nat) (key : OwnerDatabase) (s : Server) : Server :=
  match sv_dbs s !! key with
  | None => s
  | Some st =>
      let epoch := u64 (sv_epoch s + 1) in
      set_epoch epoch (set_dbs (<[key :=
        mkDB (ds_key st) (ds_serving st) (ds_reason st) (ds_copy st) (ds_haveCopy st) (ds_served st)
          (ds_lastEntry st) (polls (ds_polls st)) (pred (ds_installing st)) epoch
          (ds_quarantine st) (ds_unreach st)]> (sv_dbs s)) s)
  end.

(** The wait of BeforeInstall ends with the context's error. *)
Definition BeforeInstall_cancel : OwnerDatabase → Server → Server := end_install id.
(** Its timer fires. *)
Definition BeforeInstall_timer (now : Z) (s : Server) : Server := sweepLocked now s.
(** The lease it waits for is done. *)
Definition BeforeInstall_done (id : string) (s : Server) : bool := bool_decide (sv_byID s !! id = None).

Definition AfterInstall : OwnerDatabase → Server → Server := end_install (fun _ => 0).

(** ** Probes *)
Definition ownerLocked (owner : N) (s : Server) : ownerState :=
  default (mkOwner "" None zero_frontier false 0) (sv_owners s !! owner).

Definition unreachableLocked (owner : N) (now : Z) (s : Server) : bool :=
  match sv_owners s !! owner with
  | None => false
  | Some o =>
      bool_decide (os_addr o ≠ EmptyString) &&
      match os_firstFailure o with
      | None => false
      | Some first => bool_decide (c_OwnerUnreachableAfter (sv_cfg s) ≤ now - first)%Z
      end
  end.

(** [ok]: the dial succeeded. *)
Definition recordProbe (owner : N) (ok : bool) (now : Z) (s : Server) : Server :=
  let o := ownerLocked owner s in
  let first :=
    match ok, os_firstFailure o with
    | true, _ => None
    | false, None => Some now
    | false, Some f => Some f
    end in
  set_owners (<[owner := mkOwner (os_addr o) first (os_entry o) (os_entrySeen o) (os_entrySince o)]> (sv_owners s)) s.

(** ** The serving conditions *)
Definition inc_le (a b : TableIncarnation) : Prop := String.le (Key a) (Key b).
#[export] Instance inc_le_dec : RelDecision inc_le.
Proof. intros a b. unfold inc_le. apply _. Defined.

Fixpoint active_loop (snap : TableRegistrySnapshot) (key : OwnerDatabase) (incs : list TableIncarnation)
    : option (list TableIncarnation) :=
  match incs with
  | [] => Some []
  | inc :: incs =>
      if bool_decide (ti_DatabaseID inc ≠ od_Database key) then active_loop snap key incs else
      if bool_decide (ManifestOwner snap (Key inc) ≠ Some (od_Owner key)) then None else
      cons inc <$> active_loop snap key incs
  end.

Definition activeTables (snap : TableRegistrySnapshot) (registryOn : bool) (key : OwnerDatabase)
    : list TableIncarnation :=
  if negb registryOn then [] else
  match active_loop snap key (ActiveTables snap) with
  | None => []
  | Some out => merge_sort inc_le out
  end.

(** What [matchActive] finds about one incarnation. *)
Inductive match_ := MForeign | MDiverged | MExcluded | MMissing | MServed (t : TableCopy).
#[export] Instance TableCondition_eq_dec : EqDecision TableCondition.
Proof. solve_decision. Defined.
#[export] Instance TableCopy_eq_dec : EqDecision TableCopy.
Proof. solve_decision. Defined.
#[export] Instance match_eq_dec : EqDecision match_.
Proof. solve_decision. Defined.

Definition match_one (tables : list TableCopy) (inc : TableIncarnation) : match_ :=
  match head (filter (fun t => tc_TableID t = Key inc ∧ tc_IncarnationSeq t = ti_Seq inc) tables) with
  | None => MMissing
  | Some t =>
      match tc_Condition t with
      | Foreign => MForeign
      | Diverged => MDiverged
      | Excluded => MExcluded
      | Installed =>
          if bool_decide (tc_SchemaHash t ≠ ti_SchemaHash inc) ||
             bool_decide (tc_CopyTable t ≠ CopyTable (Key inc) (ti_Seq inc))
          then MMissing else MServed t
      | UnknownCondition => MMissing
      end
  end.

Definition served_of (m : match_) : option TableCopy := match m with MServed t => Some t | _ => None end.

(** [inl]: the first failing reason; [inr]: the tables to serve. *)
Definition matchActive (tables : list TableCopy) (active : list TableIncarnation) : Reason + list TableCopy :=
  if bool_decide (length active = 0) then inl TableMissing else
  let ms := match_one tables <$> active in
  if bool_decide (MForeign ∈ ms) then inl TableForeign else
  if bool_decide (MDiverged ∈ ms) then inl TableDiverged else
  if bool_decide (MExcluded ∈ ms) then inl TableExcluded else
  if bool_decide (MMissing ∈ ms) then inl TableMissing else
  inr (omap served_of ms).

Definition evaluateLocked (cfg : Config) (st : dbState) (installing : bool) (entry : option TrackFrontier)
    (duplicate : bool) (snap : TableRegistrySnapshot) (registryOn : bool) : Reason + list TableCopy :=
  if negb (c_Enabled cfg) then inl ServingDisabled else
  if installing then inl Installing else
  match entry with
  | None => inl FeedUnavailable
  | Some e =>
      if negb (ds_quarantine st) && negb (ds_unreach st) then inl OwnerAvailable else
      if bool_decide (ds_polls st < 2) then inl EntryUnconfirmed else
      if duplicate || negb (ds_haveCopy st) then inl TableMissing else
      if negb (dc_AuditClean (ds_copy st)) then inl AuditUnclean else
      match matchActive (dc_Tables (ds_copy st)) (activeTables snap registryOn (ds_key st)) with
      | inl TableMissing =>
          if bool_decide (dc_Entry (ds_copy st) ≠ e) then inl CopyBehind else inl TableMissing
      | inl reason => inl reason
      | inr served => if bool_decide (dc_Entry (ds_copy st) ≠ e) then inl CopyBehind else inr served
      end
  end.

(** ** One poll *)

(** What a poll read without the lock. [pr_Manifest = None]: the latest published
    manifest was not read. *)
Record poll_reads := mkPoll {
  pr_Epoch : N; pr_Snap : TableRegistrySnapshot; pr_RegistryOn : bool; pr_Manifest : option Manifest;
  pr_Pairs : list OwnerDatabase; pr_Copies : gmap OwnerDatabase DatabaseCopy }.

Definition entry_of (r : poll_reads) (owner : N) : option TrackFrontier :=
  m ← pr_Manifest r; OwnerEntry m owner.

Definition note_entry (now : Z) (r : poll_reads) (owner : N) (s : Server) : Server :=
  match entry_of r owner with
  | None => s
  | Some e =>
      let o := ownerLocked owner s in
      set_owners (<[owner :=
        if negb (os_entrySeen o) || bool_decide (os_entry o ≠ e)
        then mkOwner (os_addr o) (os_firstFailure o) e true now else o]> (sv_owners s)) s
  end.

(** The lease of [key]'s database, when it is [key]'s owner's, is revoked. *)
Definition revoke_of (key : OwnerDatabase) (now : Z) (s : Server) : Server :=
  match sv_leases s !! od_Database key with
  | None => s
  | Some id =>
      match sv_byID s !! id with
      | Some l => if bool_decide (le_owner l = od_Owner key) then revokeLocked id now s else s
      | None => s
      end
  end.

(** The state of one database after the poll's reads, before the verdict. *)
Definition poll_state (now : Z) (r : poll_reads) (p : OwnerDatabase) (s : Server) : dbState * bool :=
  let st := stateLocked p s in
  let installing := bool_decide (0 < ds_installing st) || bool_decide (pr_Epoch r < ds_installed st)%N in
  let '(lastEntry, polls) :=
    match entry_of r (od_Owner p) with
    | None => (ds_lastEntry st, 0)
    | Some e =>
        if installing then (ds_lastEntry st, 0) else
        if bool_decide (0 < ds_polls st) && bool_decide (ds_lastEntry st = e) then (ds_lastEntry st, S (ds_polls st))
        else (e, 1)
    end in
  (mkDB (ds_key st) (ds_serving st) (ds_reason st)
     (default (mkCopy "" zero_frontier [] false) (pr_Copies r !! p))
     (bool_decide (is_Some (pr_Copies r !! p))) (ds_served st) lastEntry polls (ds_installing st) (ds_installed st)
     (pr_RegistryOn r && bool_decide (od_Owner p ∈ rs_QuarantinedIndexers (pr_Snap r)))
     (unreachableLocked (od_Owner p) now s), installing).

Definition setServingLocked (p : OwnerDatabase) (st : dbState) (verdict : Reason + list TableCopy) (now : Z)
    (s : Server) : Server :=
  let '(serving, reason, served) :=
    match verdict with inl r => (false, Some r, []) | inr t => (true, None, t) end in
  let s := set_dbs (<[p := mkDB (ds_key st) serving reason (ds_copy st) (ds_haveCopy st) served (ds_lastEntry st)
                          (ds_polls st) (ds_installing st) (ds_installed st) (ds_quarantine st) (ds_unreach st)]>
                      (sv_dbs s)) s in
  if serving then s else revoke_of p now s.

Definition poll_one (now : Z) (r : poll_reads) (s : Server) (p : OwnerDatabase) : Server :=
  let '(st, installing) := poll_state now r p s in
  setServingLocked p st
    (evaluateLocked (sv_cfg s) st installing (entry_of r (od_Owner p))
       (bool_decide (1 < length (filter (fun q => od_Database q = od_Database p) (pr_Pairs r))))
       (pr_Snap r) (pr_RegistryOn r)) now s.

(** Databases no longer listed are forgotten, unless one is being installed. *)
Definition forget_db (now : Z) (r : poll_reads) (s : Server) (kv : OwnerDatabase * dbState) : Server :=
  if bool_decide (kv.1 ∈ pr_Pairs r) || bool_decide (0 < ds_installing kv.2) then s
  else let s := revoke_of kv.1 now s in set_dbs (delete kv.1 (sv_dbs s)) s.

Definition poll (now : Z) (r : poll_reads) (s : Server) : Server :=
  let s := sweepLocked now s in
  let s := foldl (fun s owner => note_entry now r owner s) s (remove_dups (od_Owner <$> pr_Pairs r)) in
  let s := foldl (poll_one now r) s (pr_Pairs r) in
  foldl (forget_db now r) s (map_to_list (sv_dbs s)).

End serve.
End Serve.
