(* ===== verification/ServeConditions.v ===== *)
(** * When a database is served (member/serve/conditions.go) *)
From S2P Require Import Prelude Types Registry Serve.
Import Registry Serve.

Section conditions.
Context `{Housegate}.

(** The copy of an incarnation that a host may read. *)
Definition serves (tables : list TableCopy) (inc : TableIncarnation) (t : TableCopy) : Prop :=
  head (filter (λ t, tc_TableID t = Key inc ∧ tc_IncarnationSeq t = ti_Seq inc) tables) = Some t ∧
  tc_Condition t = Installed ∧ tc_SchemaHash t = ti_SchemaHash inc ∧ tc_CopyTable t = CopyTable (Key inc) (ti_Seq inc).

Lemma match_one_served tables inc t : match_one tables inc = MServed t ↔ serves tables inc t.
Proof.
  unfold match_one, serves. destruct (head _) as [t'|]; [|split; [done|by intros [? _]]].
  destruct (tc_Condition t') eqn:Hc; try (split; [done|intros ([= ->] & ? & _); congruence]).
  destruct (_ || _) eqn:Hg.
  - split; [done|]. intros ([= ->] & _ & Hs & Ht). rewrite Hs, Ht in Hg. rewrite !bool_decide_eq_false_2 in Hg by (by intros ?). done.
  - apply orb_false_iff in Hg as [G1 G2]. apply bool_decide_eq_false in G1, G2. apply dec_stable in G1, G2.
    split; [by intros [= ->]|]. by intros ([= ->] & _).
Qed.

Lemma all_served tables active served :
  match_one tables <$> active = MServed <$> served ↔ Forall2 (serves tables) active served.
Proof.
  revert served. induction active as [|inc active IH]; intros [|t served]; split; intros Hs; simplify_eq/=;
    try (by inversion Hs); try constructor.
  - by apply match_one_served.
  - by apply IH.
  - inversion Hs as [|? ? ? ? Hi Hf]; subst. apply match_one_served in Hi. apply IH in Hf. by rewrite Hi, Hf.
Qed.

Lemma omap_served (ms : list match_) : Forall (λ m, ∃ t, m = MServed t) ms → ms = MServed <$> omap served_of ms.
Proof. induction 1 as [|m ms [t ->] _ IH]; [done|]. cbn [omap list_omap served_of]. by rewrite fmap_cons, <- IH. Qed.

Lemma omap_served_inv (served : list TableCopy) : omap served_of (MServed <$> served) = served.
Proof. induction served as [|t served IH]; [done|]. rewrite fmap_cons. cbn [omap list_omap served_of]. by rewrite IH. Qed.

Lemma matchActive_ok tables active served :
  matchActive tables active = inr served ↔ active ≠ [] ∧ Forall2 (serves tables) active served.
Proof.
  unfold matchActive. case_bool_decide as Hn.
  { split; [done|]. intros [Hne _]. by apply nil_length_inv in Hn. }
  assert (active ≠ []) as Hne by (intros ->; done). rewrite <- all_served.
  set (ms := match_one tables <$> active). split.
  - intros Hm. split; [done|]. do 4 (case_bool_decide; [done|]). injection Hm as <-. apply omap_served.
    apply Forall_forall. intros [] Hin; try done. eauto.
  - intros [_ ->]. assert (∀ m, (∀ t, m ≠ MServed t) → m ∉ (MServed <$> served)) as Hno.
    { intros m Hm Hin. apply list_elem_of_fmap in Hin as (t & -> & _). by apply (Hm t). }
    rewrite !bool_decide_eq_false_2 by (by apply Hno). by rewrite omap_served_inv.
Qed.

Lemma active_loop_ok snap key incs out :
  active_loop snap key incs = Some out →
  out = filter (λ inc, ti_DatabaseID inc = od_Database key) incs ∧
  Forall (λ inc, ManifestOwner snap (Key inc) = Some (od_Owner key)) out.
Proof.
  revert out. induction incs as [|inc incs IH]; intros out Ho; cbn [active_loop] in Ho; [by simplify_eq|].
  rewrite filter_cons. case_bool_decide as Hd; [rewrite decide_False by done; by apply IH|].
  rewrite decide_True by done. case_bool_decide as Hm; [done|].
  destruct (active_loop snap key incs) as [rest|]; [|done]. injection Ho as <-.
  destruct (IH _ eq_refl) as [-> Hall]. split; [done|]. by constructor.
Qed.

(** The Active incarnations of the database, when the owner has them all. *)
Definition active_of (snap : TableRegistrySnapshot) (key : OwnerDatabase) : list TableIncarnation :=
  merge_sort inc_le (filter (λ inc, ti_DatabaseID inc = od_Database key) (ActiveTables snap)).

Lemma active_loop_none snap key incs :
  active_loop snap key incs = None →
  ¬ Forall (λ inc, ManifestOwner snap (Key inc) = Some (od_Owner key))
      (filter (λ inc, ti_DatabaseID inc = od_Database key) incs).
Proof.
  induction incs as [|inc incs IH]; [done|]. cbn [active_loop]. rewrite filter_cons.
  case_bool_decide; [by rewrite decide_False|]. rewrite decide_True by done.
  intros Ho [Hm Hall]%Forall_cons. rewrite bool_decide_eq_false_2 in Ho by tauto.
  destruct (active_loop _ _ incs); [done|]. by apply IH.
Qed.

Lemma activeTables_ok snap on key active :
  active ≠ [] →
  activeTables snap on key = active ↔
  on = true ∧ active = active_of snap key ∧
  Forall (λ inc, ManifestOwner snap (Key inc) = Some (od_Owner key)) active.
Proof.
  intros Hne. unfold activeTables, active_of. destruct on; simpl; [|split; [by intros <-|by intros [? _]]].
  destruct (active_loop _ _ _) as [out|] eqn:Ho.
  - apply active_loop_ok in Ho as [-> Hall]. split; [|by intros (_ & -> & _)].
    intros <-. split_and!; try done. by rewrite merge_sort_Permutation.
  - split; [by intros <-|]. intros (_ & -> & Hall). exfalso. rewrite merge_sort_Permutation in Hall.
    by apply active_loop_none in Ho.
Qed.

Lemma evaluate_inr cfg st installing entry duplicate snap on served :
  evaluateLocked cfg st installing entry duplicate snap on = inr served ↔
  c_Enabled cfg = true ∧ installing = false ∧ entry = Some (dc_Entry (ds_copy st)) ∧
  (ds_quarantine st = true ∨ ds_unreach st = true) ∧ 2 ≤ ds_polls st ∧ duplicate = false ∧
  ds_haveCopy st = true ∧ dc_AuditClean (ds_copy st) = true ∧
  matchActive (dc_Tables (ds_copy st)) (activeTables snap on (ds_key st)) = inr served.
Proof.
  unfold evaluateLocked. split.
  - intros He. destruct (c_Enabled cfg); [|done]. destruct installing; [done|]. destruct entry as [e|]; [|done].
    simpl in He. destruct (negb (ds_quarantine st) && negb (ds_unreach st)) eqn:Hq; [done|].
    case_bool_decide; [done|]. destruct duplicate, (ds_haveCopy st); try done. simpl in He.
    destruct (dc_AuditClean (ds_copy st)); [|done]. simpl in He.
    destruct (matchActive _ _) as [reason|t]; [by destruct reason; repeat case_bool_decide|].
    case_bool_decide as Hent; [done|]. injection He as <-. split_and!; try done; [congruence| |lia].
    destruct (ds_quarantine st), (ds_unreach st); auto.
  - intros (-> & -> & -> & Hq & Hp & -> & -> & -> & ->). simpl.
    rewrite (bool_decide_eq_false_2 (ds_polls st < 2)) by lia.
    rewrite bool_decide_eq_false_2 by (by intros ?). by destruct Hq as [-> | ->]; rewrite ?andb_false_r.
Qed.

(** C23: A database is served exactly under all of its conditions, over all of its
    Active tables. [evaluateLocked] serves if and only if serving is on, no install
    is pending or raced the poll, the owner's published entry was read and is
    quarantined or unreachable, that entry stood over two polls, one owner lists
    the database, the copy is there, audited clean and exactly at the published
    entry, and every Active incarnation of the database has an installed copy of
    that seq, schema and name; and then the registry is on, attributes every one
    of those incarnations to this owner, and the served tables are their copies. *)
Theorem serving_exact cfg st installing entry duplicate snap on served :
  evaluateLocked cfg st installing entry duplicate snap on = inr served ↔
  c_Enabled cfg = true ∧ installing = false ∧ entry = Some (dc_Entry (ds_copy st)) ∧
  (ds_quarantine st = true ∨ ds_unreach st = true) ∧ 2 ≤ ds_polls st ∧ duplicate = false ∧
  ds_haveCopy st = true ∧ dc_AuditClean (ds_copy st) = true ∧ on = true ∧
  ∃ active, active ≠ [] ∧ active = active_of snap (ds_key st) ∧
    Forall (λ inc, ManifestOwner snap (Key inc) = Some (od_Owner (ds_key st))) active ∧
    Forall2 (serves (dc_Tables (ds_copy st))) active served.
Proof.
  rewrite evaluate_inr, matchActive_ok. split.
  - intros (? & ? & ? & ? & ? & ? & ? & ? & Hne & Hf).
    destruct (proj1 (activeTables_ok snap on _ _ Hne) eq_refl) as (? & Ha & Hall). split_and!; try done.
    eexists. split_and!; [exact Hne|exact Ha|exact Hall|exact Hf].
  - intros (? & ? & ? & ? & ? & ? & ? & ? & Hon & active & Hne & Ha & Hall & Hf).
    rewrite (proj2 (activeTables_ok snap on _ _ Hne) (conj Hon (conj Ha Hall))). by split_and!.
Qed.
End conditions.
