(* ===== verification/ServeProofs.v ===== *)
(** * No copy is installed under a host's lease

    The serving side against its host, over histories with any interleaving of
    polls, probes, grants, renewals, releases and installs, failed LeaseFile
    writes, crashes, power losses and restarts. *)
From S2P Require Import Prelude Types Registry Serve.
Import Registry Serve.

Section proofs.
Context `{Housegate}.

(** ** The maps of leases *)

(** [leases] names, for each database, the one lease of [byID] on it. *)
Definition maps_wf (s : Server) : Prop :=
  (∀ id l, sv_byID s !! id = Some l → le_id l = id ∧ sv_leases s !! le_database l = Some id) ∧
  (∀ db id, sv_leases s !! db = Some id → ∃ l, sv_byID s !! id = Some l ∧ le_database l = db).

(** The lease of a database. *)
Definition lease_on (s : Server) (db : string) : option lease :=
  id ← sv_leases s !! db; sv_byID s !! id.

Lemma lease_on_byID s db l : maps_wf s → lease_on s db = Some l ↔ sv_byID s !! le_id l = Some l ∧ le_database l = db.
Proof.
  intros [Hb Hl]. unfold lease_on. split.
  - destruct (sv_leases s !! db) as [id|] eqn:Hdb; [|done]. simpl. intros Hid.
    destruct (Hb _ _ Hid) as [<- Hdb']. destruct (Hl _ _ Hdb) as (l' & Hl' & <-). by simplify_eq.
  - intros [Hid <-]. destruct (Hb _ _ Hid) as [_ ->]. done.
Qed.

Lemma lease_on_none s db : maps_wf s → lease_on s db = None ↔ sv_leases s !! db = None.
Proof.
  intros [_ Hl]. unfold lease_on. destruct (sv_leases s !! db) as [id|] eqn:Hdb; [|done]. simpl.
  destruct (Hl _ _ Hdb) as (l & -> & _). done.
Qed.

(** ** Ending leases *)
Lemma end_byID id s i : sv_byID (endLocked id s) !! i = if decide (i = id) then None else sv_byID s !! i.
Proof.
  unfold endLocked. destruct (sv_byID s !! id) as [l|] eqn:Hid; simpl.
  - case_decide; subst; [by rewrite lookup_delete_eq|by rewrite lookup_delete_ne].
  - case_decide; [by subst|done].
Qed.

Lemma end_wf id s : maps_wf s → maps_wf (endLocked id s).
Proof.
  intros Hwf. pose proof Hwf as [Hb Hl]. unfold endLocked. destruct (sv_byID s !! id) as [l|] eqn:Hid; [|done].
  destruct (Hb _ _ Hid) as [<- Hdb]. rewrite bool_decide_eq_true_2 by done. split; simpl.
  - intros i l' Hi. apply lookup_delete_Some in Hi as [Hne Hi]. destruct (Hb _ _ Hi) as [? Hdb'].
    split; [done|]. rewrite lookup_delete_ne; [done|]. intros Heq. congruence.
  - intros db i Hi. apply lookup_delete_Some in Hi as [Hne Hi]. destruct (Hl _ _ Hi) as (l' & Hl' & <-).
    exists l'. split; [|done]. rewrite lookup_delete_ne; [done|]. intros Heq. subst. congruence.
Qed.

(** What no lease operation touches. *)
Definition same_rest (s s' : Server) : Prop :=
  sv_cfg s' = sv_cfg s ∧ sv_epoch s' = sv_epoch s ∧ sv_dbs s' = sv_dbs s ∧ sv_owners s' = sv_owners s.

#[global] Instance same_rest_preorder : PreOrder same_rest.
Proof. split; [done|]. intros a b c (?&?&?&?) (?&?&?&?). unfold same_rest. split_and!; congruence. Qed.

Lemma end_rest id s : same_rest s (endLocked id s) ∧ sv_file (endLocked id s) = sv_file s.
Proof. unfold endLocked. by destruct (sv_byID s !! id). Qed.

Lemma ends_spec ids s :
  let s' := foldl (λ s id, endLocked id s) s ids in
  (maps_wf s → maps_wf s') ∧ same_rest s s' ∧ sv_file s' = sv_file s ∧
  ∀ i, sv_byID s' !! i = if decide (i ∈ ids) then None else sv_byID s !! i.
Proof.
  revert s. induction ids as [|id ids IH]; intros s; simpl.
  { split_and!; try done. }
  destruct (IH (endLocked id s)) as (Hw & Hr & Hf & Hb), (end_rest id s) as [Hr' Hf']. split_and!.
  - intros Hwf. by apply Hw, end_wf.
  - by etrans.
  - congruence.
  - intros i. rewrite Hb, end_byID. destruct (decide (i = id)), (decide (i ∈ ids)), (decide (i ∈ id :: ids)) as [Hin|Hin];
      try done; rewrite elem_of_cons in Hin; tauto.
Qed.

Lemma sweep_spec now s :
  let s' := sweepLocked now s in
  (maps_wf s → maps_wf s') ∧ same_rest s s' ∧ sv_file s' = sv_file s ∧
  ∀ i l, sv_byID s' !! i = Some l ↔ sv_byID s !! i = Some l ∧ (now < expiresAt l)%Z.
Proof.
  unfold sweepLocked. set (ids := fst <$> _). destruct (ends_spec ids s) as (Hw & Hr & Hf & Hb).
  split_and!; try done. intros i l. rewrite Hb.
  assert (i ∈ ids ↔ ∃ l, sv_byID s !! i = Some l ∧ ¬ (now < expiresAt l)%Z) as Hids.
  { unfold ids. rewrite list_elem_of_fmap. split.
    - intros ([i' l'] & -> & Hin). rewrite list_elem_of_filter, elem_of_map_to_list in Hin.
      exists l'. by destruct Hin.
    - intros (l' & Hi & Hx). exists (i, l'). split; [done|]. by rewrite list_elem_of_filter, elem_of_map_to_list. }
  case_decide as Hin; rewrite Hids in Hin; split.
  - done.
  - intros [Hi Hx]. exfalso. destruct Hin as (l' & Hi' & Hx'). simplify_eq. done.
  - intros Hi. split; [done|]. destruct (decide (now < expiresAt l)%Z); [done|]. exfalso. eauto.
  - by intros [? _].
Qed.

Lemma sweep_lease_on now s db l :
  maps_wf s → lease_on (sweepLocked now s) db = Some l ↔ lease_on s db = Some l ∧ (now < expiresAt l)%Z.
Proof.
  intros Hwf. destruct (sweep_spec now s) as (Hw & _ & _ & Hb).
  rewrite !lease_on_byID, Hb by auto. tauto.
Qed.

(** ** LeaseFile *)
Lemma elem_of_content drop add renewing renewed s r :
  r ∈ leaseFileContent drop add renewing renewed s ↔
  (∃ id l, sv_byID s !! id = Some l ∧ drop ≠ Some id ∧
     r = record l (if decide (renewing = Some id) then renewed else le_renewed l)) ∨
  (∃ l, add = Some l ∧ r = record l (le_renewed l)).
Proof.
  unfold leaseFileContent. rewrite merge_sort_Permutation, elem_of_app, list_elem_of_omap. split.
  - intros [([id l] & Hin & Hr)|Hr].
    + left. exists id, l. rewrite elem_of_map_to_list in Hin. simpl in Hr.
      repeat case_bool_decide; simplify_eq; (split; [done|]; split; [done|]).
      * by rewrite decide_True.
      * by rewrite decide_False.
    + right. destruct add as [l|]; [|by apply elem_of_nil in Hr]. apply list_elem_of_singleton in Hr. eauto.
  - intros [(id & l & Hid & Hd & ->)|(l & -> & ->)]; [left|right; by left].
    exists (id, l). rewrite elem_of_map_to_list. split; [done|]. simpl. rewrite bool_decide_eq_false_2 by done.
    case_decide; [by rewrite bool_decide_eq_true_2|by rewrite bool_decide_eq_false_2].
Qed.

(** Both what a reader sees and what a power loss leaves. *)
Definition files {S} (P : S → Prop) (f : file S) : Prop := P (f_cur f) ∧ P (f_durable f).

Lemma replace_cases {S} w (f : file S) next ok f' :
  atomic_replace w f next = (ok, f') →
  (ok = true ∧ f' = File next next) ∨ (ok = false ∧ (f' = f ∨ f' = File next (f_durable f))).
Proof. unfold atomic_replace. intros Hr. repeat case_match; simplify_eq/=; auto. Qed.

Lemma files_replace {S} (P : S → Prop) w (f : file S) next ok f' :
  atomic_replace w f next = (ok, f') → files P f → P next → files P f'.
Proof. intros Hr [? ?] ?. destruct (replace_cases _ _ _ _ _ Hr) as [[_ ->]|[_ [->| ->]]]; by split. Qed.

(** ** What a host was told *)

(** The lease lives at least this long by what its host was told, and no longer
    by the server's clock. *)
Definition promise (l : lease) : Z := (le_renewed l + le_ttl l / Millisecond * Millisecond)%Z.
Definition rec_promise (r : leaseRecord) : Z := (lr_RenewedUnixNano r + lr_TTLMs r * Millisecond)%Z.

Definition covered_mem (told : gset string) (db id : string) (dl : Z) (s : Server) : Prop :=
  ∃ l, lease_on s db = Some l ∧ (dl ≤ promise l)%Z ∧ (le_id l = id ∨ (le_id l ∉ told)).
Definition covered_file (told : gset string) (db id : string) (dl : Z) (X : list leaseRecord) : Prop :=
  ∃ r, r ∈ X ∧ lr_Database r = db ∧ (dl ≤ rec_promise r)%Z ∧ (lr_LeaseID r = id ∨ (lr_LeaseID r ∉ told)).

Definition lease_ok (ms now : Z) (l : lease) : Prop :=
  le_id l ≠ EmptyString ∧ le_database l ≠ EmptyString ∧ (le_ttl l / Millisecond = ms)%Z ∧ (le_renewed l ≤ now)%Z.
Definition rec_ok (ms now : Z) (r : leaseRecord) : Prop :=
  lr_LeaseID r ≠ EmptyString ∧ lr_Database r ≠ EmptyString ∧ lr_TTLMs r = ms ∧ (lr_RenewedUnixNano r ≤ now)%Z.
Definition content_wf (ms now : Z) (X : list leaseRecord) : Prop :=
  Forall (rec_ok ms now) X ∧ NoDup (lr_LeaseID <$> X) ∧ NoDup (lr_Database <$> X).

Lemma promise_expires l : (promise l ≤ expiresAt l)%Z.
Proof. unfold promise, expiresAt, Millisecond. pose proof (Z.mul_div_le (le_ttl l) 1000000). lia. Qed.

Lemma record_promise l now : (le_renewed l ≤ now)%Z → (promise l ≤ rec_promise (record l now))%Z.
Proof. unfold promise, rec_promise. simpl. lia. Qed.

Lemma lease_ok_mono ms now now' l : (now ≤ now')%Z → lease_ok ms now l → lease_ok ms now' l.
Proof. intros Hn (?&?&?&?). split_and!; try done. lia. Qed.
Lemma content_wf_mono ms now now' X : (now ≤ now')%Z → content_wf ms now X → content_wf ms now' X.
Proof.
  intros Hn (Hf & ? & ?). split; [|done]. eapply Forall_impl; [done|]. intros r (?&?&?&?). split_and!; try done. lia.
Qed.

(** ** The content written *)
Lemma content_ids drop add renewing renewed s :
  (∀ id l, sv_byID s !! id = Some l → le_id l = id) →
  lr_LeaseID <$> leaseFileContent drop add renewing renewed s ≡ₚ
  filter (λ i, drop ≠ Some i) (map_to_list (sv_byID s)).*1 ++ match add with Some l => [le_id l] | None => [] end.
Proof.
  intros Hid. unfold leaseFileContent. rewrite merge_sort_Permutation, fmap_app.
  apply Permutation_app; [|by destruct add]. apply reflexive_eq.
  assert (Forall (λ kv, le_id kv.2 = kv.1) (map_to_list (sv_byID s))) as Hall.
  { apply Forall_forall. intros [i l]. rewrite elem_of_map_to_list. apply Hid. }
  induction Hall as [|[i l] kvs Hil _ IH]; [done|]. rewrite fmap_cons, filter_cons.
  cbn [omap list_omap fst snd] in *. case_bool_decide as Hd; [by rewrite decide_False by tauto|].
  rewrite decide_True by done. case_bool_decide; rewrite fmap_cons, IH; by rewrite <- Hil.
Qed.

Lemma content_written ms now drop add renewing s :
  maps_wf s → (∀ id l, sv_byID s !! id = Some l → lease_ok ms now l) →
  (∀ l, add = Some l → lease_ok ms now l ∧ sv_byID s !! le_id l = None ∧
     ∀ id, sv_leases s !! le_database l = Some id → drop = Some id) →
  content_wf ms now (leaseFileContent drop add renewing now s).
Proof.
  intros Hwf Hok Hadd. pose proof Hwf as [Hb _].
  assert (NoDup (lr_LeaseID <$> leaseFileContent drop add renewing now s)) as Hids.
  { rewrite content_ids by (intros id l Hi; by apply Hb in Hi as [? _]).
    apply NoDup_app. split_and!.
    - apply NoDup_filter, NoDup_fst_map_to_list.
    - intros i Hi. apply list_elem_of_filter in Hi as [_ Hi]. destruct add as [l|]; [|by intros ?%elem_of_nil].
      rewrite list_elem_of_singleton. intros ->. apply list_elem_of_fmap in Hi as ([i l'] & Heq & Hi).
      rewrite elem_of_map_to_list in Hi. destruct (Hadd l eq_refl) as (_ & Hnone & _). simpl in *. congruence.
    - destruct add; [apply NoDup_singleton|constructor]. }
  split; [|split; [done|]].
  - apply Forall_forall. intros r Hr. apply elem_of_content in Hr as [(id & l & Hi & _ & ->)|(l & Hl & ->)].
    + destruct (Hok _ _ Hi) as (?&?&?&?). unfold rec_ok, record. simpl. split_and!; try done. case_decide; lia.
    + destruct (Hadd l Hl) as ((?&?&?&?) & _). by unfold rec_ok, record.
  - apply (NoDup_fmap_2_strong lr_Database); [|by eapply NoDup_fmap_1].
    assert (∀ r1 r2, r1 ∈ leaseFileContent drop add renewing now s → r2 ∈ leaseFileContent drop add renewing now s →
      lr_LeaseID r1 = lr_LeaseID r2 → r1 = r2) as Hinj.
    { intros r1 r2 H1 H2 Heq. apply list_elem_of_lookup in H1 as [i Hi], H2 as [j Hj].
      assert (i = j) as ->; [|congruence]. eapply NoDup_lookup; [exact Hids| |]; rewrite list_lookup_fmap.
      - by rewrite Hi.
      - rewrite Hj. simpl. by rewrite Heq. }
    intros r1 r2 H1 H2 Hdb. apply Hinj; [done..|].
    apply elem_of_content in H1 as [(i1 & l1 & Hi1 & Hd1 & ->)|(l1 & Hl1 & ->)],
      H2 as [(i2 & l2 & Hi2 & Hd2 & ->)|(l2 & Hl2 & ->)]; simpl in *.
    + destruct (Hb _ _ Hi1) as [-> E1], (Hb _ _ Hi2) as [-> E2]. congruence.
    + destruct (Hb _ _ Hi1) as [_ E1]. destruct (Hadd l2 Hl2) as (_ & _ & Hx). rewrite <- Hdb in Hx. by apply Hx in E1.
    + destruct (Hb _ _ Hi2) as [_ E2]. destruct (Hadd l1 Hl1) as (_ & _ & Hx). rewrite Hdb in Hx. by apply Hx in E2.
    + congruence.
Qed.

(** Whatever memory covers and is not dropped, the content covers. *)
Lemma content_covers told db id dl drop add renewing now s :
  maps_wf s → (∀ i l, sv_byID s !! i = Some l → (le_renewed l ≤ now)%Z) →
  covered_mem told db id dl s → (∀ l, lease_on s db = Some l → drop ≠ Some (le_id l)) →
  covered_file told db id dl (leaseFileContent drop add renewing now s).
Proof.
  intros Hwf Hren (l & Hl & Hdl & Hid) Hd. pose proof Hl as Hl'. apply lease_on_byID in Hl' as [Hb <-]; [|done].
  exists (record l (if decide (renewing = Some (le_id l)) then now else le_renewed l)).
  split; [apply elem_of_content; left; by eauto 10|]. split; [done|]. split; [|done].
  pose proof (Hren _ _ Hb). etrans; [exact Hdl|]. apply record_promise. case_decide; lia.
Qed.

(** ** Restart *)
Definition restored (now : Z) (r : leaseRecord) : lease :=
  mkLease (lr_LeaseID r) (lr_Database r) (lr_Owner r) (lr_RenewedUnixNano r) (lr_TTLMs r * Millisecond) true now.

Lemma add_wf s l :
  maps_wf s → sv_leases s !! le_database l = None → sv_byID s !! le_id l = None →
  maps_wf (set_leases (<[le_database l := le_id l]> (sv_leases s)) (<[le_id l := l]> (sv_byID s)) s).
Proof.
  intros [Hb Hl] Hdb Hid. split; simpl.
  - intros i l' Hi. apply lookup_insert_Some in Hi as [[<- <-]|[Hne Hi]]; [by rewrite lookup_insert_eq|].
    destruct (Hb _ _ Hi) as [? Hdb']. split; [done|]. rewrite lookup_insert_ne; [done|]. intros Heq. congruence.
  - intros db i Hi. apply lookup_insert_Some in Hi as [[<- <-]|[Hne Hi]].
    + exists l. by rewrite lookup_insert_eq.
    + destruct (Hl _ _ Hi) as (l' & Hl' & <-). exists l'. split; [|done]. rewrite lookup_insert_ne; [done|]. congruence.
Qed.

Lemma restore_ok ms now recs s :
  (0 < ms ≤ maxLeaseTTLMs)%Z → maps_wf s → content_wf ms now recs →
  Forall (λ r, sv_leases s !! lr_Database r = None ∧ sv_byID s !! lr_LeaseID r = None) recs →
  ∃ s', restore_loop now recs s = Ok s' ∧ maps_wf s' ∧ same_rest s s' ∧ sv_file s' = sv_file s ∧
    ∀ l, sv_byID s' !! le_id l = Some l ↔ sv_byID s !! le_id l = Some l ∨
      ∃ r, r ∈ recs ∧ l = restored now r ∧ (now < rec_promise r)%Z.
Proof.
  intros Hms. revert s. induction recs as [|r recs IH]; intros s Hwf (Hall & Hids & Hdbs) Hnew; cbn [restore_loop].
  { exists s. split_and!; try done. intros l. split; [auto|]. intros [?|(r & Hr & _)]; [done|by apply elem_of_nil in Hr]. }
  inversion Hall as [|? ? (Hri & Hrd & Hrt & _) Hall']; subst.
  inversion Hnew as [|? ? [Hn1 Hn2] Hnew']; subst.
  rewrite fmap_cons in Hids, Hdbs. apply NoDup_cons in Hids as [Hi1 Hids], Hdbs as [Hd1 Hdbs].
  rewrite Hn1, Hn2, !bool_decide_eq_false_2 by (done || lia || by intros [? ?]). simpl.
  fold (restored now r). change (expiresAt (restored now r)) with (rec_promise r).
  set (s1 := if bool_decide (now < rec_promise r)%Z then _ else s).
  assert (maps_wf s1 ∧ same_rest s s1 ∧ sv_file s1 = sv_file s) as (Hw1 & Hr1 & Hf1).
  { unfold s1. case_bool_decide; [|done]. split; [|done]. by apply (add_wf s (restored now r)). }
  assert (∀ l, sv_byID s1 !! le_id l = Some l ↔
    sv_byID s !! le_id l = Some l ∨ l = restored now r ∧ (now < rec_promise r)%Z) as Hb1.
  { intros l. unfold s1. case_bool_decide as Hx; simpl; [|split; [auto|intros [?|[? ?]]; done]]. rewrite lookup_insert_Some. split.
    - intros [[_ <-]|[_ ?]]; auto.
    - intros [Hi|[-> _]]; [|by left]. right. split; [|done]. intros Heq. congruence. }
  destruct (IH s1) as (s' & -> & Hw & Hr & Hf & Hb).
  - done.
  - done.
  - apply Forall_forall. intros r' Hr'. rewrite Forall_forall in Hnew'. destruct (Hnew' r' Hr') as [E1 E2].
    unfold s1. case_bool_decide; [|done]. simpl. rewrite !lookup_insert_ne; [done| |]; intros Heq;
      [apply Hi1|apply Hd1]; rewrite Heq; by apply list_elem_of_fmap_2.
  - exists s'. split; [done|]. split; [done|]. split; [by etrans|]. split; [congruence|].
    intros l. rewrite Hb, Hb1. split.
    + intros [[?|[-> ?]]|(r' & Hr' & ? & ?)]; [auto|right; exists r; split; [by left|done]|].
      right. exists r'. split; [by right|done].
    + intros [?|(r' & [->|Hr']%elem_of_cons & -> & ?)]; [auto|auto|]. right. eauto.
Qed.

(** A restart reads back every unexpired lease of its file. *)
Lemma New_ok ms cfg addrs f now :
  (0 < ms ≤ maxLeaseTTLMs)%Z → content_wf ms now (f_cur f) →
  ∃ s, New cfg addrs f now = Ok s ∧ maps_wf s ∧ sv_file s = f ∧ sv_cfg s = cfg ∧ sv_dbs s = ∅ ∧
    (∀ id l, sv_byID s !! id = Some l → lease_ok ms now l) ∧
    (∀ told db id dl, covered_file told db id dl (f_cur f) → (now < dl)%Z → covered_mem told db id dl s).
Proof.
  intros Hms Hwf. unfold New. set (s0 := mkServer cfg _ _ _ _ _ f).
  destruct (restore_ok ms now (f_cur f) s0) as (s & -> & Hw & (Hc & _ & Hd & _) & Hf & Hb); [done|done|done| |].
  { by apply Forall_forall. }
  exists s. split_and!; try done.
  - intros id l Hi. destruct Hw as [Hw _]. destruct (Hw _ _ Hi) as [<- _].
    apply Hb in Hi as [Hi|(r & Hr & -> & _)]; [done|]. destruct Hwf as (Hall & _).
    rewrite Forall_forall in Hall. destruct (Hall r Hr) as (?&?&?&?). unfold lease_ok. simpl. split_and!; try done.
    unfold Millisecond. rewrite Z.div_mul; lia.
  - intros told db id dl (r & Hr & <- & Hdl & Hid) Hnow. exists (restored now r). split_and!; [|simpl|done].
    + apply lease_on_byID; [done|]. split; [|done]. apply Hb. right. exists r. split; [done|]. split; [done|]. lia.
    + unfold promise. simpl. unfold rec_promise in Hdl. unfold Millisecond in *. rewrite Z.div_mul; lia.
Qed.
(** ** Steps that at most revoke *)
Definition core (l : lease) : string * string * N * Z * Z :=
  (le_id l, le_database l, le_owner l, le_renewed l, le_ttl l).

Definition sim (s s' : Server) : Prop :=
  sv_cfg s' = sv_cfg s ∧ sv_leases s' = sv_leases s ∧ sv_file s' = sv_file s ∧
  ∀ id, core <$> sv_byID s' !! id = core <$> sv_byID s !! id.

#[global] Instance sim_preorder : PreOrder sim.
Proof.
  split; [done|]. intros a b c (?&?&?&Hab) (?&?&?&Hbc). unfold sim.
  split_and!; [congruence..|]. intros id. by rewrite Hbc, Hab.
Qed.

Lemma sim_byID s s' id l :
  sim s s' → sv_byID s' !! id = Some l → ∃ l', sv_byID s !! id = Some l' ∧ core l' = core l.
Proof.
  intros (_ & _ & _ & Hb) Hl. specialize (Hb id). rewrite Hl in Hb. simpl in Hb.
  destruct (sv_byID s !! id) as [l'|]; [|done]. simpl in Hb. exists l'. split; [done|]. congruence.
Qed.

Lemma sim_sym s s' : sim s s' → sim s' s.
Proof. intros (?&?&?&Hb). by split_and!. Qed.

Lemma sim_wf s s' : sim s s' → maps_wf s → maps_wf s'.
Proof.
  intros Hs [Hb Hl]. pose proof Hs as (_ & Hle & _). split; rewrite Hle.
  - intros id l Hi. destruct (sim_byID _ _ _ _ Hs Hi) as (l' & Hi' & Hc). injection Hc as <- <- _ _ _. auto.
  - intros db id Hdb. destruct (Hl _ _ Hdb) as (l & Hi & <-). apply sim_sym in Hs.
    destruct (sim_byID _ _ _ _ Hs Hi) as (l' & Hi' & Hc). exists l'. split; [done|]. by injection Hc.
Qed.

Lemma sim_ok s s' (P : lease → Prop) : sim s s' → (∀ l l', core l' = core l → P l → P l') →
  (∀ id l, sv_byID s !! id = Some l → P l) → ∀ id l, sv_byID s' !! id = Some l → P l.
Proof. intros Hs HP Hall id l Hi. destruct (sim_byID _ _ _ _ Hs Hi) as (l' & Hi' & Hc). eapply HP; [by symmetry|eauto]. Qed.

Lemma lease_ok_core ms now l l' : core l' = core l → lease_ok ms now l → lease_ok ms now l'.
Proof. unfold lease_ok. intros Hc. by injection Hc as -> -> _ -> ->. Qed.

Lemma sim_covered told db id dl s s' : sim s s' → covered_mem told db id dl s → covered_mem told db id dl s'.
Proof.
  intros Hs (l & Hl & Hdl & Hid). pose proof Hs as (_ & Hle & _ & Hb). unfold lease_on in Hl.
  destruct (sv_leases s !! db) as [i|] eqn:Hdb; [|done]. simpl in Hl. specialize (Hb i). rewrite Hl in Hb. simpl in Hb.
  destruct (sv_byID s' !! i) as [l'|] eqn:Hl'; [|done]. simpl in Hb.
  exists l'. unfold lease_on. rewrite Hle, Hdb. simpl. split; [done|]. injection Hb as E1 E2 E3 E4 E5.
  unfold promise. rewrite E1, E4, E5. done.
Qed.

Lemma sim_revoke id now s : sim s (revokeLocked id now s).
Proof.
  split_and!; try done. intros i. simpl. destruct (decide (i = id)) as [->|Hne].
  - rewrite lookup_alter_eq. destruct (sv_byID s !! id) as [l|]; [|done]. simpl. unfold revoke. by destruct (le_revoked l).
  - by rewrite lookup_alter_ne.
Qed.

Lemma revoke_of_spec key now s : sim s (revoke_of key now s) ∧ sv_dbs (revoke_of key now s) = sv_dbs s.
Proof.
  unfold revoke_of. destruct (sv_leases s !! _) as [id|]; [|done]. destruct (sv_byID s !! id) as [l|]; [|done].
  case_bool_decide; [|done]. split; [apply sim_revoke|done].
Qed.

(** ** What the states of the databases say *)
Definition installs (s : Server) (key : OwnerDatabase) : nat := ds_installing (stateLocked key s).

Definition dbs_ok (s : Server) : Prop :=
  ∀ key st, sv_dbs s !! key = Some st → ds_key st = key ∧ (ds_serving st = true → ds_installing st = 0).

Lemma stateLocked_key s key : dbs_ok s → ds_key (stateLocked key s) = key.
Proof. intros Hd. unfold stateLocked. destruct (sv_dbs s !! key) as [st|] eqn:Hk; [|done]. by apply Hd. Qed.

Lemma installs_insert s key st k :
  installs (set_dbs (<[key := st]> (sv_dbs s)) s) k = if decide (k = key) then ds_installing st else installs s k.
Proof.
  unfold installs, stateLocked. simpl. case_decide; subst; [by rewrite lookup_insert_eq|by rewrite lookup_insert_ne].
Qed.

Lemma dbs_ok_insert s key st :
  dbs_ok s → ds_key st = key → (ds_serving st = true → ds_installing st = 0) →
  dbs_ok (set_dbs (<[key := st]> (sv_dbs s)) s).
Proof. intros Hd Hk Hs k st' Hst. simpl in Hst. apply lookup_insert_Some in Hst as [[<- <-]|[_ Hst]]; auto. Qed.

(** What a poll's parts keep. *)
Definition polled (s s' : Server) : Prop :=
  sim s s' ∧ (∀ k, installs s' k = installs s k) ∧ (dbs_ok s → dbs_ok s').

#[global] Instance polled_preorder : PreOrder polled.
Proof.
  split; [done|]. intros a b c (?&Hab&?) (?&Hbc&?). split; [by etrans|]. split; [|auto]. intros k. by rewrite Hbc.
Qed.

Lemma polled_dbs s s' : sim s s' → sv_dbs s' = sv_dbs s → polled s s'.
Proof. intros Hs Hd. split; [done|]. unfold installs, stateLocked, dbs_ok. by rewrite Hd. Qed.

Lemma foldl_polled {A} (f : Server → A → Server) (l : list A) s :
  (∀ s x, x ∈ l → dbs_ok s → polled s (f s x)) → dbs_ok s → polled s (foldl f s l).
Proof.
  revert s. induction l as [|x l IH]; intros s Hf Hd; [done|]. cbn [foldl].
  assert (polled s (f s x)) as Hp by (apply Hf; [by left|done]).
  etrans; [exact Hp|]. apply IH; [|by apply Hp]. intros s1 y Hy. apply Hf. by right.
Qed.

Lemma evaluate_installing cfg st entry dup snap on t : evaluateLocked cfg st true entry dup snap on ≠ inr t.
Proof. unfold evaluateLocked. by destruct (c_Enabled cfg). Qed.

Lemma poll_state_spec now r p s st installing :
  dbs_ok s → poll_state now r p s = (st, installing) →
  ds_key st = p ∧ ds_installing st = installs s p ∧ (installing = false → ds_installing st = 0).
Proof.
  intros Hd Hps. unfold poll_state in Hps. cbv zeta in Hps.
  destruct (match entry_of r _ with None => _ | Some _ => _ end) as [le po].
  injection Hps as <- <-. simpl. split; [by apply stateLocked_key|]. split; [done|]. intros [Ho _]%orb_false_iff.
  apply bool_decide_eq_false in Ho. lia.
Qed.

Lemma poll_one_polled now r s p : dbs_ok s → polled s (poll_one now r s p).
Proof.
  intros Hd. unfold poll_one. destruct (poll_state now r p s) as [st installing] eqn:Hps.
  destruct (poll_state_spec _ _ _ _ _ _ Hd Hps) as (Hk & Hi & Hn). unfold setServingLocked.
  assert (∀ sv rs t, (sv = true → ds_installing st = 0) → polled s (set_dbs (<[p := mkDB (ds_key st) sv rs (ds_copy st)
    (ds_haveCopy st) t (ds_lastEntry st) (ds_polls st) (ds_installing st) (ds_installed st) (ds_quarantine st)
    (ds_unreach st)]> (sv_dbs s)) s)) as Hset.
  { intros sv rs t Hsv. split; [done|]. split; [|intros _; by apply dbs_ok_insert].
    intros k. rewrite installs_insert. case_decide; [|done]. simpl. congruence. }
  destruct (evaluateLocked _ _ _ _ _ _ _) as [reason|served] eqn:Hv.
  - etrans; [by apply (Hset false (Some reason) [])|]. apply polled_dbs; apply revoke_of_spec.
  - apply Hset. intros _. apply Hn. destruct installing; [by apply evaluate_installing in Hv|done].
Qed.

Lemma forget_db_polled now r s kv :
  installs s kv.1 = ds_installing kv.2 → dbs_ok s → polled s (forget_db now r s kv).
Proof.
  intros Hi Hd. unfold forget_db. destruct (_ || _) eqn:Hg; [done|]. apply orb_false_iff in Hg as [_ Hg].
  apply bool_decide_eq_false in Hg. destruct (revoke_of_spec kv.1 now s) as [Hs Hdb].
  etrans; [by apply polled_dbs; [exact Hs|exact Hdb]|]. set (s1 := revoke_of _ _ _) in *. rewrite <- Hi in Hg.
  split; [done|]. split.
  - intros k. unfold installs, stateLocked in *. simpl. rewrite Hdb in *. destruct (decide (k = kv.1)) as [->|].
    + rewrite lookup_delete_eq. simpl. lia.
    + by rewrite lookup_delete_ne.
  - intros Hd1 k st Hst. simpl in Hst. apply lookup_delete_Some in Hst as [_ Hst]. by apply Hd1.
Qed.

Lemma poll_spec now r s : dbs_ok s → polled (sweepLocked now s) (poll now r s).
Proof.
  intros Hd. unfold poll. destruct (sweep_spec now s) as (_ & (_ & _ & Hdb & _) & _).
  set (s1 := sweepLocked now s) in *. assert (dbs_ok s1) as Hd1 by (unfold dbs_ok; by rewrite Hdb).
  set (s2 := foldl (λ s owner, note_entry now r owner s) s1 _).
  assert (polled s1 s2) as H12.
  { apply foldl_polled; [|done]. intros s' o _ _. unfold note_entry. destruct (entry_of r o); [|done].
    by apply polled_dbs. }
  set (s3 := foldl (poll_one now r) s2 _). assert (polled s2 s3) as H23.
  { apply foldl_polled; [|by apply H12]. intros s' p _. apply poll_one_polled. }
  etrans; [exact H12|]. etrans; [exact H23|]. assert (dbs_ok s3) as Hd3 by (by apply H23, H12).
  clearbody s3. clear -Hd3.
  assert (∀ l s', Forall (λ kv, installs s' kv.1 = ds_installing kv.2) l → dbs_ok s' →
    polled s' (foldl (forget_db now r) s' l)) as Hgen.
  { induction l as [|kv l IH]; intros s' Hl Hd; [done|]. inversion Hl as [|? ? Hkv Hl']; subst. cbn [foldl].
    pose proof (forget_db_polled now r s' kv Hkv Hd) as Hp. etrans; [exact Hp|]. apply IH; [|by apply Hp].
    eapply Forall_impl; [exact Hl'|]. intros x Hx. destruct Hp as (_ & -> & _). done. }
  apply Hgen; [|done]. apply Forall_forall. intros [k st]. rewrite elem_of_map_to_list. intros Hst.
  unfold installs, stateLocked. simpl. by rewrite Hst.
Qed.

End proofs.
