(* ===== verification/ServeSafety.v ===== *)
(** * The lease protocol over histories (member/serve)

    The serving side together with its host: what the host holds is what the
    server told it. Every LeaseFile write may fail at any system call, the process
    may crash or lose power and restart at any point, and polls, probes, requests
    and installs interleave freely. The configured ttl is the same across restarts
    and the clock does not go back. *)
From S2P Require Import Prelude Types Registry Serve ServeProofs.
Import Registry Serve.

Section safety.
Context `{Housegate}.
Context (cfg : Config).

(** The lifetime the host is told with a grant or a renewal. *)
Definition ttl_ms : Z := (c_LeaseTTL cfg / Millisecond)%Z.

(** The server, the clock, what the host holds (per database: the lease id and
    the instant it may use it until), every id it was told, and the installs that
    wait in BeforeInstall or run between it and AfterInstall. *)
Record world := mkWorld {
  w_srv : Server; w_now : Z; w_held : gmap string (string * Z); w_told : gset string;
  w_waiting : list (OwnerDatabase * string); w_running : list OwnerDatabase }.

Definition at_time (now : Z) (s : Server) (w : world) : world :=
  mkWorld s now (w_held w) (w_told w) (w_waiting w) (w_running w).

(** A new id is not among those in use or ever told (128 random bits). *)
Definition fresh_id (id : string) (w : world) : Prop :=
  id ≠ EmptyString ∧ (id ∉ w_told w) ∧ sv_byID (w_srv w) !! id = None ∧
  (id ∉ (lr_LeaseID <$> f_cur (sv_file (w_srv w)))) ∧ (id ∉ (lr_LeaseID <$> f_durable (sv_file (w_srv w)))).

(** The host's view after the answer to a grant or renewal of a lease on [db]. *)
Definition hold (db id : string) (now : Z) (w : world) : world :=
  mkWorld (w_srv w) (w_now w) (<[db := (id, now + ttl_ms * Millisecond)%Z]> (w_held w)) ({[id]} ∪ w_told w)
    (w_waiting w) (w_running w).

Inductive wstep : relation world :=
| ws_acquire w now db snap id env r s' :
    (w_now w ≤ now)%Z → fresh_id id w → db ≠ EmptyString →
    acquire db snap (Some id) now env (w_srv w) = (r, s') →
    wstep w (match r with Ok _ => hold db id now (at_time now s' w) | Err _ => at_time now s' w end)
| ws_renew w now id l env r s' :
    (w_now w ≤ now)%Z → sv_byID (w_srv w) !! id = Some l → id ∈ w_told w →
    renew id now env (w_srv w) = (r, s') →
    wstep w (match r with Ok _ => hold (le_database l) id now (at_time now s' w) | Err _ => at_time now s' w end)
| ws_release w now id env :
    (w_now w ≤ now)%Z → id ∈ w_told w →
    wstep w (mkWorld (release id now env (w_srv w)) now (filter (λ kv, kv.2.1 ≠ id) (w_held w)) (w_told w)
               (w_waiting w) (w_running w))
| ws_poll w now r : (w_now w ≤ now)%Z → wstep w (at_time now (poll now r (w_srv w)) w)
| ws_probe w now owner ok : (w_now w ≤ now)%Z → wstep w (at_time now (recordProbe owner ok now (w_srv w)) w)
| ws_sweep w now : (w_now w ≤ now)%Z → wstep w (at_time now (sweepLocked now (w_srv w)) w)
| ws_before w now key o s' :
    (w_now w ≤ now)%Z → BeforeInstall key now (w_srv w) = (o, s') →
    wstep w (mkWorld s' now (w_held w) (w_told w)
               (match o with Some id => (key, id) :: w_waiting w | None => w_waiting w end)
               (match o with Some _ => w_running w | None => key :: w_running w end))
| ws_done w key id ws1 ws2 :
    w_waiting w = ws1 ++ (key, id) :: ws2 → BeforeInstall_done id (w_srv w) = true →
    wstep w (mkWorld (w_srv w) (w_now w) (w_held w) (w_told w) (ws1 ++ ws2) (key :: w_running w))
| ws_cancel w key id ws1 ws2 :
    w_waiting w = ws1 ++ (key, id) :: ws2 →
    wstep w (mkWorld (BeforeInstall_cancel key (w_srv w)) (w_now w) (w_held w) (w_told w) (ws1 ++ ws2) (w_running w))
| ws_after w key rs1 rs2 :
    w_running w = rs1 ++ key :: rs2 →
    wstep w (mkWorld (AfterInstall key (w_srv w)) (w_now w) (w_held w) (w_told w) (w_waiting w) (rs1 ++ rs2))
| ws_restart w now b addrs s' :
    (w_now w ≤ now)%Z →
    New cfg addrs (c_file (restart b (Cell [] (sv_file (w_srv w))))) now = Ok s' →
    wstep w (mkWorld s' now (w_held w) (w_told w) [] []).

(** ** The invariant *)
Definition outstanding (w : world) (key : OwnerDatabase) : nat :=
  length (filter (λ k, k = key) ((w_waiting w).*1 ++ w_running w)).

Record winv (w : world) : Prop := {
  wi_cfg : sv_cfg (w_srv w) = cfg;
  wi_maps : maps_wf (w_srv w);
  wi_mem : ∀ id l, sv_byID (w_srv w) !! id = Some l → lease_ok ttl_ms (w_now w) l;
  wi_files : files (content_wf ttl_ms (w_now w)) (sv_file (w_srv w));
  wi_covered : ∀ db id dl, w_held w !! db = Some (id, dl) → (w_now w < dl)%Z →
    covered_mem (w_told w) db id dl (w_srv w) ∧ files (covered_file (w_told w) db id dl) (sv_file (w_srv w));
  wi_dbs : dbs_ok (w_srv w);
  wi_installs : ∀ key, installs (w_srv w) key = outstanding w key;
  wi_waiting : ∀ key id, (key, id) ∈ w_waiting w →
    sv_leases (w_srv w) !! od_Database key = None ∨ sv_leases (w_srv w) !! od_Database key = Some id;
  wi_running : ∀ key, key ∈ w_running w → sv_leases (w_srv w) !! od_Database key = None }.

Context (Hcfg : (0 < ttl_ms ≤ maxLeaseTTLMs)%Z).

(** The part of the invariant about leases, at a later time and for what is still
    held. *)
Definition lease_inv (now : Z) (held : gmap string (string * Z)) (told : gset string) (s : Server) : Prop :=
  sv_cfg s = cfg ∧ maps_wf s ∧ (∀ id l, sv_byID s !! id = Some l → lease_ok ttl_ms now l) ∧
  files (content_wf ttl_ms now) (sv_file s) ∧
  ∀ db id dl, held !! db = Some (id, dl) → (now < dl)%Z →
    covered_mem told db id dl s ∧ files (covered_file told db id dl) (sv_file s).

Lemma winv_lease w now : winv w → (w_now w ≤ now)%Z → lease_inv now (w_held w) (w_told w) (w_srv w).
Proof.
  intros Hi Hn. split_and!; [apply Hi..| | |].
  - intros id l Hl. eapply lease_ok_mono; [done|]. by eapply Hi.
  - destruct (wi_files w Hi). split; by eapply content_wf_mono.
  - intros db id dl Hd Hl. apply Hi; [done|lia].
Qed.

Lemma sweep_lease_inv now held told s :
  lease_inv now held told s → lease_inv now held told (sweepLocked now s).
Proof.
  intros (Hc & Hw & Hm & Hf & Hcov). destruct (sweep_spec now s) as (Hw' & (Hc' & _) & Hf' & Hb).
  split_and!; [congruence|auto| |by rewrite Hf'|].
  - intros id l Hl. apply Hb in Hl as [? _]. eauto.
  - intros db id dl Hd Hl. destruct (Hcov db id dl Hd Hl) as [(l & Hon & Hp & Hid) Hfc]. rewrite Hf'.
    split; [|done]. exists l. split; [|done]. apply sweep_lease_on; [done|]. split; [done|].
    pose proof (promise_expires l). lia.
Qed.

Lemma sim_lease_inv now held told s s' :
  sim s s' → lease_inv now held told s → lease_inv now held told s'.
Proof.
  intros Hs (Hc & Hw & Hm & Hf & Hcov). pose proof Hs as (Hc' & _ & Hf' & _). split_and!.
  - congruence.
  - by eapply sim_wf.
  - eapply sim_ok; [done| |done]. intros l l'. apply lease_ok_core.
  - by rewrite Hf'.
  - intros db id dl Hd Hl. destruct (Hcov db id dl Hd Hl). rewrite Hf'. split; [by eapply sim_covered|done].
Qed.

(** Leases never appear on a database while one is being installed. *)
Definition leases_sub (s s' : Server) : Prop :=
  ∀ db id, sv_leases s' !! db = Some id → sv_leases s !! db = Some id.

Lemma sweep_sub now s : maps_wf s → leases_sub s (sweepLocked now s).
Proof.
  intros Hw db id Hdb. destruct (sweep_spec now s) as (Hw' & _ & _ & Hb).
  destruct (proj2 (Hw' Hw) _ _ Hdb) as (l & Hl & <-). apply Hb in Hl as [Hl _].
  by destruct (proj1 Hw _ _ Hl) as [_ ?].
Qed.

Lemma sim_sub s s' : sim s s' → leases_sub s s'.
Proof. intros (_ & Hl & _). unfold leases_sub. by rewrite Hl. Qed.

(** The part about installs. *)
Definition install_inv (waiting : list (OwnerDatabase * string)) (running : list OwnerDatabase) (s : Server) : Prop :=
  (∀ key id, (key, id) ∈ waiting → sv_leases s !! od_Database key = None ∨ sv_leases s !! od_Database key = Some id) ∧
  (∀ key, key ∈ running → sv_leases s !! od_Database key = None).

Lemma install_inv_sub waiting running s s' :
  leases_sub s s' → install_inv waiting running s → install_inv waiting running s'.
Proof.
  intros Hs [Hw Hr]. split.
  - intros key id Hin. destruct (sv_leases s' !! od_Database key) as [i|] eqn:Hi; [right|by left].
    apply Hs in Hi. destruct (Hw _ _ Hin); congruence.
  - intros key Hin. destruct (sv_leases s' !! od_Database key) as [i|] eqn:Hi; [|done].
    apply Hs in Hi. specialize (Hr _ Hin). congruence.
Qed.

Lemma winv_build w :
  lease_inv (w_now w) (w_held w) (w_told w) (w_srv w) → dbs_ok (w_srv w) →
  (∀ key, installs (w_srv w) key = outstanding w key) →
  install_inv (w_waiting w) (w_running w) (w_srv w) → winv w.
Proof. intros (?&?&?&?&?) ? ? [? ?]. by constructor. Qed.

Lemma winv_install w : winv w → install_inv (w_waiting w) (w_running w) (w_srv w).
Proof. intros Hi. split; apply Hi. Qed.

(** A step that keeps the databases, what is held and the installs. *)
Lemma winv_quiet w now s' :
  winv w → (w_now w ≤ now)%Z →
  (lease_inv now (w_held w) (w_told w) (w_srv w) → lease_inv now (w_held w) (w_told w) s') →
  leases_sub (w_srv w) s' → (∀ k, installs s' k = installs (w_srv w) k) → (dbs_ok (w_srv w) → dbs_ok s') →
  winv (at_time now s' w).
Proof.
  intros Hi Hn Hl Hs Hk Hd. apply winv_build; simpl.
  - by apply Hl, winv_lease.
  - by apply Hd, Hi.
  - intros key. rewrite Hk. by apply Hi.
  - eapply install_inv_sub; [done|]. by apply winv_install.
Qed.
(** ** Writes *)

(** A write of a content that is well formed and covers what is held. *)
Lemma write_lease_inv now held told drop add renewing env s ok s' :
  lease_inv now held told s → recordLeasesLocked drop add renewing now env s = (ok, s') →
  content_wf ttl_ms now (leaseFileContent drop add renewing now s) →
  (∀ db id dl, held !! db = Some (id, dl) → (now < dl)%Z →
     covered_file told db id dl (leaseFileContent drop add renewing now s)) →
  lease_inv now held told s' ∧
  s' = set_file (sv_file s') s ∧
  (ok = true → sv_file s' = File (leaseFileContent drop add renewing now s) (leaseFileContent drop add renewing now s)).
Proof.
  intros (Hc & Hw & Hm & Hf & Hcov) Hr Hwf Hcf. unfold recordLeasesLocked in Hr.
  destruct (atomic_replace _ _ _) as [ok' f'] eqn:Ha. injection Hr as <- <-.
  unfold lease_inv. split_and!; try done; simpl.
  - eapply files_replace; [exact Ha|done|done].
  - intros db id dl Hd Hl. destruct (Hcov db id dl Hd Hl). split; [done|].
    eapply files_replace; [exact Ha|done|]. by apply Hcf.
  - intros ->. destruct (replace_cases _ _ _ _ _ Ha) as [[_ ->]|[? _]]; done.
Qed.

(** Without changes to the leases, the content covers everything held. *)
Lemma plain_content now held told renewing s :
  lease_inv now held told s →
  content_wf ttl_ms now (leaseFileContent None None renewing now s) ∧
  ∀ db id dl, held !! db = Some (id, dl) → (now < dl)%Z →
    covered_file told db id dl (leaseFileContent None None renewing now s).
Proof.
  intros (Hc & Hw & Hm & Hf & Hcov). split; [by apply content_written|].
  intros db id dl Hd Hl. apply content_covers; [done| |by apply Hcov|done].
  intros i l Hi. by destruct (Hm _ _ Hi) as (_&_&_&?).
Qed.

Lemma content_renewed_irrelevant drop add z s :
  leaseFileContent drop add None z s = leaseFileContent drop add None 0 s.
Proof. done. Qed.

(** ** Renewals and releases *)
Lemma renewed_wf s id l now :
  maps_wf s → sv_byID s !! id = Some l →
  maps_wf (set_leases (sv_leases s) (<[id := with_renewed now l]> (sv_byID s)) s).
Proof.
  intros [Hb Hl] Hid. destruct (Hb _ _ Hid) as [Hid' Hdb]. split; simpl.
  - intros i l' Hi. apply lookup_insert_Some in Hi as [[<- <-]|[Hne Hi]]; [done|]. by apply Hb.
  - intros db i Hi. destruct (Hl _ _ Hi) as (l' & Hl' & <-). destruct (decide (i = id)) as [->|Hne].
    + simplify_eq. eexists. by rewrite lookup_insert_eq.
    + exists l'. by rewrite lookup_insert_ne.
Qed.

Lemma renew_inv w now id l env r s' :
  winv w → (w_now w ≤ now)%Z → sv_byID (w_srv w) !! id = Some l → id ∈ w_told w →
  renew id now env (w_srv w) = (r, s') →
  winv (match r with Ok _ => hold (le_database l) id now (at_time now s' w) | Err _ => at_time now s' w end).
Proof.
  intros Hi Hn Hid Htold Hr. unfold renew in Hr. cbv zeta in Hr.
  pose proof (winv_lease _ _ Hi Hn) as Hli. pose proof (sweep_lease_inv _ _ _ _ Hli) as Hsw.
  destruct (sweep_spec now (w_srv w)) as (_ & (_ & _ & Hdb & _) & _ & Hb).
  pose proof (sweep_sub now (w_srv w) (wi_maps w Hi)) as Hsub. set (s1 := sweepLocked now (w_srv w)) in *.
  assert (∀ s2, lease_inv now (w_held w) (w_told w) s2 → sv_leases s2 = sv_leases s1 → sv_dbs s2 = sv_dbs s1 →
    winv (at_time now s2 w)) as Hsame.
  { intros s2 H2 Hl2 Hd2. apply winv_quiet; [done|done|done| |unfold installs, stateLocked|unfold dbs_ok].
    - intros db i. rewrite Hl2. apply Hsub.
    - intros k. by rewrite Hd2, Hdb.
    - by rewrite Hd2, Hdb. }
  destruct (sv_byID s1 !! id) as [l1|] eqn:Hid1; [|simplify_eq; by apply Hsame].
  assert (l1 = l) as -> by (apply Hb in Hid1 as [? _]; congruence).
  destruct (le_revoked l); [simplify_eq; by apply Hsame|].
  destruct (recordLeasesLocked None None (Some id) now env s1) as [ok s2] eqn:Hrec.
  destruct (plain_content _ _ _ (Some id) _ Hsw) as [Hcw Hcc].
  destruct (write_lease_inv _ _ _ _ _ _ _ _ _ _ Hsw Hrec Hcw Hcc) as (H2 & Hs2 & Hok).
  destruct ok; simplify_eq/=; [|apply Hsame; [done|by rewrite Hs2..]].
  specialize (Hok eq_refl). set (nl := with_renewed now l).
  assert (Hmaps1 : maps_wf s1) by apply Hsw. pose proof (proj1 Hmaps1 _ _ Hid1) as [Hlid Hldb].
  assert (lease_ok ttl_ms now l) as Hlok by (by apply Hsw in Hid1).
  rewrite Hs2. set (s3 := set_leases _ _ _).
  assert (lease_inv now (<[le_database l := (id, now + ttl_ms * Millisecond)%Z]> (w_held w)) ({[id]} ∪ w_told w) s3) as H3.
  { assert ({[id]} ∪ w_told w = w_told w) as -> by set_solver.
    assert (maps_wf s3) as Hm3 by (apply (renewed_wf s1 id l now); done).
    destruct H2 as (Hc & _ & Hm & Hf & Hcov). split; [by rewrite Hs2 in Hc|]. split; [done|]. split; [|split; [exact Hf|]].
    - intros i l' Hl'. simpl in Hl'. apply lookup_insert_Some in Hl' as [[<- <-]|[_ Hl']].
      + destruct Hlok as (?&?&?&?). unfold nl, lease_ok. simpl. split_and!; try done; lia.
      + rewrite Hs2 in Hm. by eapply Hm.
    - intros db i dl Hd Hl. apply lookup_insert_Some in Hd as [[<- Hd]|[Hne Hd]].
      + injection Hd as <- <-. split.
        * exists nl. split; [|split; [|by left]]; [apply lease_on_byID; [done|]; simpl; rewrite Hlid; by rewrite lookup_insert_eq|].
          unfold promise. simpl. destruct Hlok as (_&_&->&_). lia.
        * simpl. rewrite Hok. assert (covered_file (w_told w) (le_database l) id (now + ttl_ms * Millisecond)
            (leaseFileContent None None (Some id) now s1)) as Hcf; [|by split].
          exists (record l now). split; [|split; [done|split; [|by left]]].
          -- apply elem_of_content. left. exists id, l. by rewrite decide_True.
          -- unfold rec_promise. simpl. destruct Hlok as (_&_&->&_). lia.
      + destruct (Hcov db i dl Hd Hl) as [(l' & Hon & Hp & Hid') Hfc]. split; [|done].
        exists l'. split; [|done]. apply lease_on_byID; [done|].
        apply lease_on_byID in Hon as [Hon <-]; [|by rewrite Hs2]. rewrite Hs2 in Hon. split; [|done]. simpl in *.
        rewrite lookup_insert_ne; [done|]. intros Heq. rewrite <- Heq in Hon. congruence. }
  apply winv_build; [exact H3|..]; simpl.
  - intros k st. simpl. rewrite Hdb. apply Hi.
  - intros k. etrans; [|by apply Hi]. unfold installs, stateLocked. simpl. by rewrite Hdb.
  - eapply install_inv_sub; [|by apply winv_install]. intros db i. simpl. apply Hsub.
Qed.

Lemma end_sub id s : maps_wf s → leases_sub s (endLocked id s).
Proof.
  intros Hw db i. unfold endLocked. destruct (sv_byID s !! id) as [l|]; [|done]. simpl. case_bool_decide; [|done].
  intros Hi. by apply lookup_delete_Some in Hi as [_ ?].
Qed.

Lemma end_lease_inv now held held' told id s :
  lease_inv now held told s →
  (∀ db i dl, held' !! db = Some (i, dl) → held !! db = Some (i, dl) ∧ i ≠ id) → id ∈ told →
  lease_inv now held' told (endLocked id s).
Proof.
  intros (Hc & Hw & Hm & Hf & Hcov) Hh Ht. destruct (end_rest id s) as [(Hc' & _) Hf']. split_and!.
  - congruence.
  - by apply end_wf.
  - intros i l. rewrite end_byID. case_decide; [done|]. apply Hm.
  - by rewrite Hf'.
  - intros db i dl Hd Hl. destruct (Hh _ _ _ Hd) as [Hd' Hne]. destruct (Hcov db i dl Hd' Hl) as [(l & Hon & Hp & Hid) Hfc].
    rewrite Hf'. split; [|done]. exists l. split; [|done]. apply lease_on_byID in Hon as [Hon <-]; [|done].
    apply lease_on_byID; [by apply end_wf|]. split; [|done]. rewrite end_byID, decide_False; [done|].
    intros Heq. rewrite Heq in Hid. by destruct Hid.
Qed.

Lemma lease_inv_held now held held' told s :
  (∀ db i dl, held' !! db = Some (i, dl) → held !! db = Some (i, dl)) →
  lease_inv now held told s → lease_inv now held' told s.
Proof. intros Hh (?&?&?&?&Hcov). split_and!; try done. intros db i dl Hd%Hh. by apply Hcov. Qed.

Lemma release_inv w now id env :
  winv w → (w_now w ≤ now)%Z → id ∈ w_told w →
  winv (mkWorld (release id now env (w_srv w)) now (filter (λ kv, kv.2.1 ≠ id) (w_held w)) (w_told w)
          (w_waiting w) (w_running w)).
Proof.
  intros Hi Hn Ht. pose proof (winv_lease _ _ Hi Hn) as Hli. set (held' := filter _ (w_held w)).
  assert (∀ db i dl, held' !! db = Some (i, dl) → w_held w !! db = Some (i, dl) ∧ i ≠ id) as Hh.
  { intros db i dl Hd. unfold held' in Hd. by apply map_lookup_filter_Some in Hd. }
  set (s2 := release id now env (w_srv w)).
  assert (lease_inv now held' (w_told w) s2 ∧ leases_sub (w_srv w) s2 ∧ sv_dbs s2 = sv_dbs (w_srv w)) as (Hl2 & Hsub & Hdb).
  { unfold s2, release. destruct (sv_byID (w_srv w) !! id) as [l|] eqn:Hid.
    - pose proof (end_lease_inv _ _ held' _ _ _ Hli Hh Ht) as He. apply sweep_lease_inv in He.
      set (s1 := sweepLocked now (endLocked id (w_srv w))) in *.
      destruct (recordLeasesLocked None None None 0 env s1) as [ok s3] eqn:Hrec.
      change (recordLeasesLocked None None None now env s1 = (ok, s3)) in Hrec.
      destruct (plain_content _ _ _ None _ He) as [Hcw Hcc].
      destruct (write_lease_inv _ _ _ _ _ _ _ _ _ _ He Hrec Hcw Hcc) as (H3 & Hs3 & _). simpl.
      split; [done|]. rewrite Hs3. simpl.
      destruct (end_rest id (w_srv w)) as [(_ & _ & Hd1 & _) _].
      destruct (sweep_spec now (endLocked id (w_srv w))) as (_ & (_ & _ & Hd2 & _) & _).
      split; [|unfold s1; congruence]. intros db i Hdb. simpl in Hdb.
      apply (end_sub id); [apply Hi|]. eapply sweep_sub; [apply end_wf, Hi|exact Hdb].
    - destruct (sweep_spec now (w_srv w)) as (_ & (_ & _ & Hd2 & _) & _). split; [|split; [by apply sweep_sub, Hi|done]].
      apply sweep_lease_inv. eapply lease_inv_held; [|exact Hli]. intros db i dl Hd. by apply Hh. }
  apply winv_build; simpl; [done|..].
  - intros k st. rewrite Hdb. apply Hi.
  - intros k. etrans; [|by apply Hi]. unfold installs, stateLocked. by rewrite Hdb.
  - eapply install_inv_sub; [done|]. by apply winv_install.
Qed.

(** ** Grants *)

(** A step that leaves the databases alone and at most removes leases. *)
Lemma winv_at w now s2 :
  winv w → (w_now w ≤ now)%Z → lease_inv now (w_held w) (w_told w) s2 → leases_sub (w_srv w) s2 →
  sv_dbs s2 = sv_dbs (w_srv w) → winv (at_time now s2 w).
Proof.
  intros Hi Hn H2 Hsub Hd. apply winv_quiet; [done..| |]; unfold installs, stateLocked, dbs_ok; by rewrite Hd.
Qed.

(** A serving database has no install outstanding, under any owner. *)
Lemma serving_alone w db key found k :
  winv w → filter (λ kv, od_Database kv.1 = db) (map_to_list (sv_dbs (w_srv w))) = [(key, found)] →
  ds_serving found = true → od_Database k = db → outstanding w k = 0.
Proof.
  intros Hi Hf Hs Hk. rewrite <- (wi_installs w Hi). unfold installs, stateLocked.
  destruct (sv_dbs (w_srv w) !! k) as [st|] eqn:Hst; [|done]. simpl.
  assert ((k, st) ∈ [(key, found)]) as Hin.
  { rewrite <- Hf. apply list_elem_of_filter. split; [done|]. by apply elem_of_map_to_list. }
  apply list_elem_of_singleton in Hin as [= -> ->]. by apply (wi_dbs w Hi) in Hst as [_ ->].
Qed.

Lemma outstanding_zero w k :
  outstanding w k = 0 → (∀ id, (k, id) ∉ w_waiting w) ∧ (k ∉ w_running w).
Proof.
  intros Hz%nil_length_inv. assert (k ∉ ((w_waiting w).*1 ++ w_running w)) as Hn.
  { intros Hin. assert (k ∈ filter (λ x, x = k) ((w_waiting w).*1 ++ w_running w)) as Hx by (by apply list_elem_of_filter).
    rewrite Hz in Hx. by apply elem_of_nil in Hx. }
  rewrite elem_of_app in Hn. split; [|tauto]. intros id Hin. apply Hn. left. by apply (list_elem_of_fmap_2 fst) in Hin.
Qed.

(** The lease about to be granted on [db] covers what was held on it. *)
Lemma grant_content now held told db id l s :
  lease_inv now held told s → lease_ok ttl_ms now l → le_renewed l = now → le_id l = id → le_database l = db →
  sv_byID s !! id = None →
  let content := leaseFileContent (sv_leases s !! db) (Some l) None now s in
  content_wf ttl_ms now content ∧
  (∀ told' db' i dl, db' ≠ db → covered_mem told' db' i dl s → covered_file told' db' i dl content) ∧
  record l now ∈ content ∧ rec_promise (record l now) = (now + ttl_ms * Millisecond)%Z.
Proof.
  intros (Hc & Hw & Hm & Hf & Hcov) Hl Hren <- <- Hnone. cbv zeta. split_and!.
  - apply content_written; [done|done|]. intros l' [= <-]. split; [done|]. split; [done|]. by intros i ->.
  - intros told' db' i dl Hne Hcm. apply content_covers; [done| |done|].
    + intros j l' Hj. by destruct (Hm _ _ Hj) as (_&_&_&?).
    + intros l' Hon Heq. apply lease_on_byID in Hon as [Hon <-]; [|done]. apply Hne.
      destruct (proj2 Hw _ _ Heq) as (l2 & Hl2 & <-). congruence.
  - apply elem_of_content. right. exists l. by rewrite Hren.
  - unfold rec_promise. simpl. by destruct Hl as (_&_&->&_).
Qed.

Lemma drop_old_maps s db :
  maps_wf s → let s' := match sv_leases s !! db with Some o => endLocked o s | None => s end in
  maps_wf s' ∧ same_rest s s' ∧ sv_file s' = sv_file s ∧ sv_leases s' !! db = None ∧
  (∀ i, sv_byID s !! i = None → sv_byID s' !! i = None) ∧
  (∀ i l, sv_byID s' !! i = Some l → sv_byID s !! i = Some l) ∧
  (∀ i l, sv_byID s !! i = Some l → le_database l ≠ db → sv_byID s' !! i = Some l) ∧ leases_sub s s'.
Proof.
  intros Hw. cbv zeta. destruct (sv_leases s !! db) as [o|] eqn:Ho; [|split_and!; try done; by intros db' id].
  destruct (end_rest o s) as [Hr Hf]. pose proof Hw as [Hb Hl]. destruct (Hl _ _ Ho) as (lo & Hlo & Hdo).
  split_and!; try done.
  - by apply end_wf.
  - unfold endLocked. rewrite Hlo. rewrite Hdo, bool_decide_eq_true_2 by done. simpl. by rewrite lookup_delete_eq.
  - intros i Hi. rewrite end_byID. by case_decide.
  - intros i l. rewrite end_byID. by case_decide.
  - intros i l Hi Hne. rewrite end_byID, decide_False; [done|]. intros ->. congruence.
  - by apply end_sub.
Qed.

Lemma grant_lease_inv now held told db id l s f :
  lease_inv now held told s → lease_ok ttl_ms now l → le_renewed l = now → le_id l = id → le_database l = db →
  sv_byID s !! id = None → (id ∉ told) →
  f = leaseFileContent (sv_leases s !! db) (Some l) None now s →
  let s2 := set_file (File f f) s in
  let s3 := match sv_leases s !! db with Some o => endLocked o s2 | None => s2 end in
  lease_inv now (<[db := (id, now + ttl_ms * Millisecond)%Z]> held) ({[id]} ∪ told)
    (set_leases (<[db := id]> (sv_leases s3)) (<[id := l]> (sv_byID s3)) s3).
Proof.
  intros Hli Hl Hren Hid Hdb Hnone Htold ->. cbv zeta. set (f := leaseFileContent _ _ _ _ _).
  destruct (grant_content _ _ _ _ _ _ _ Hli Hl Hren Hid Hdb Hnone) as (Hwf & Hcv & Hin & Hpr). fold f in Hwf, Hcv, Hin.
  destruct Hli as (Hc & Hw & Hm & Hf & Hcov).
  destruct (drop_old_maps (set_file (File f f) s) db) as (Hw3 & (Hc3 & _) & Hf3 & Hn3 & Hb3 & Hs3 & Hk3 & _); [exact Hw|].
  simpl in Hw3, Hc3, Hf3, Hn3, Hb3, Hs3, Hk3. set (s3 := match sv_leases s !! db with Some _ => _ | None => _ end) in *.
  assert (maps_wf (set_leases (<[db := id]> (sv_leases s3)) (<[id := l]> (sv_byID s3)) s3)) as Hw4.
  { subst id db. apply add_wf; [done|done|]. by apply Hb3. }
  split; [simpl; congruence|]. split; [done|]. split; [|split].
  - intros i l' Hi. simpl in Hi. apply lookup_insert_Some in Hi as [[<- <-]|[_ Hi]]; [done|]. apply Hs3 in Hi. eauto.
  - simpl. rewrite Hf3. by split.
  - simpl. rewrite Hf3. intros db' i dl Hd Hlt. apply lookup_insert_Some in Hd as [[<- Hd]|[Hne Hd]].
    + injection Hd as <- <-. split.
      * exists l. split; [apply lease_on_byID; [done|]; simpl; rewrite Hid, lookup_insert_eq; done|].
        split; [|by left]. unfold promise. rewrite Hren. destruct Hl as (_&_&->&_). lia.
      * assert (covered_file ({[id]} ∪ told) db id (now + ttl_ms * Millisecond) f) as Hx; [|by split].
        exists (record l now). split; [done|]. split; [done|]. split; [lia|]. by left.
    + destruct (Hcov _ _ _ Hd Hlt) as [(l' & Hon & Hp & Hi) _].
      apply lease_on_byID in Hon as Hon'; [|done]. destruct Hon' as [Hb' Hdb'].
      assert (covered_mem ({[id]} ∪ told) db' i dl s) as Hcm.
      { exists l'. split; [done|]. split; [done|]. destruct Hi as [?|Hi]; [by left|right].
        rewrite elem_of_union, elem_of_singleton. intros [Heq|?]; [|done]. congruence. }
      split; [|split; by apply Hcv].
      destruct Hcm as (l2 & Hon2 & Hp2 & Hi2). assert (l2 = l') as -> by congruence. exists l'. split; [|done].
      apply lease_on_byID; [done|]. split; [|done]. simpl. rewrite lookup_insert_ne.
      * apply Hk3; [done|]. congruence.
      * intros Heq. congruence.
Qed.

Lemma acquire_inv w now db snap id env r s' :
  winv w → (w_now w ≤ now)%Z → fresh_id id w → db ≠ EmptyString →
  acquire db snap (Some id) now env (w_srv w) = (r, s') →
  winv (match r with Ok _ => hold db id now (at_time now s' w) | Err _ => at_time now s' w end).
Proof.
  intros Hi Hn (Hid & Htold & Hnone & _ & _) Hdb Hr. unfold acquire in Hr. cbv zeta in Hr.
  pose proof (sweep_lease_inv _ _ _ _ (winv_lease _ _ Hi Hn)) as Hsw.
  destruct (sweep_spec now (w_srv w)) as (_ & (Hc1 & _ & Hd1 & _) & _ & Hb).
  pose proof (sweep_sub now (w_srv w) (wi_maps w Hi)) as Hsub. set (s1 := sweepLocked now (w_srv w)) in *.
  assert (winv (at_time now s1 w)) as Hs1 by (by apply winv_at).
  rewrite Hd1 in Hr. destruct (filter _ _) as [|[key found] [|? ?]] eqn:Hflt; [by simplify_eq..| |by simplify_eq].
  destruct (ds_serving found) eqn:Hserv; simpl in Hr; [|by simplify_eq].
  case_bool_decide; [by simplify_eq|].
  set (l := mkLease id db _ now _ false 0) in Hr.
  assert (sv_byID s1 !! id = None) as Hnone1.
  { destruct (sv_byID s1 !! id) eqn:He; [|done]. apply Hb in He as [? _]. congruence. }
  assert (lease_ok ttl_ms now l) as Hl.
  { unfold lease_ok, l. simpl. split_and!; try done. unfold ttl_ms. by rewrite Hc1, (wi_cfg w Hi). }
  destruct (recordLeasesLocked (sv_leases s1 !! db) (Some l) None 0 env s1) as [ok s2] eqn:Hrec.
  change (recordLeasesLocked (sv_leases s1 !! db) (Some l) None now env s1 = (ok, s2)) in Hrec.
  destruct (grant_content _ _ _ _ _ _ _ Hsw Hl eq_refl eq_refl eq_refl Hnone1) as (Hwf & Hcv & Hin & Hpr).
  destruct (write_lease_inv _ _ _ _ _ _ _ _ _ _ Hsw Hrec Hwf) as (H2 & Hs2 & Hok).
  { intros db' i dl Hd Hlt. destruct Hsw as (_ & Hw & Hm & _ & Hcov). destruct (Hcov _ _ _ Hd Hlt) as [Hcm _].
    destruct (decide (db' = db)) as [->|Hne]; [|by apply Hcv]. exists (record l now). split; [done|]. split; [done|].
    split; [|by right]. rewrite Hpr. destruct Hcm as (l' & Hon & Hp & _).
    apply lease_on_byID in Hon as [Hon _]; [|done]. destruct (Hm _ _ Hon) as (_&_&Ht&Hrn).
    unfold promise in Hp. rewrite Ht in Hp. lia. }
  destruct ok; simpl in Hr.
  - injection Hr as <- <-. specialize (Hok eq_refl). rewrite Hok in Hs2. subst s2.
    pose proof (grant_lease_inv _ _ _ db id l s1 _ Hsw Hl eq_refl eq_refl eq_refl Hnone1 Htold eq_refl) as H4.
    cbv zeta in H4.
    destruct (drop_old_maps (set_file (File (leaseFileContent (sv_leases s1 !! db) (Some l) None now s1)
      (leaseFileContent (sv_leases s1 !! db) (Some l) None now s1)) s1) db) as (_ & (_ & _ & Hd3 & _) & _ & _ & _ & _ & _ & Hsub3);
      [by apply Hsw|]. simpl in Hd3, Hsub3.
    set (s3 := match sv_leases s1 !! db with Some _ => _ | None => _ end) in *.
    apply winv_build; simpl; [exact H4|..].
    + intros k st. simpl. rewrite Hd3. apply Hs1.
    + intros k. etrans; [|by apply Hi]. unfold installs, stateLocked. simpl. by rewrite Hd3, Hd1.
    + assert (∀ k, od_Database k = db → outstanding w k = 0) as Hz by (intros k; by eapply serving_alone).
      destruct (winv_install _ Hs1) as [Hwt Hrn]. simpl in Hwt, Hrn. split; simpl.
      * intros k i Hki. destruct (decide (od_Database k = db)) as [Hk|Hk].
        { by destruct (outstanding_zero w k (Hz k Hk)) as [Hx _]; apply Hx in Hki. }
        rewrite lookup_insert_ne by done. destruct (sv_leases s3 !! od_Database k) as [j|] eqn:Hj; [right|by left].
        apply Hsub3 in Hj. simpl in Hj. destruct (Hwt _ _ Hki); congruence.
      * intros k Hki. destruct (decide (od_Database k = db)) as [Hk|Hk].
        { by destruct (outstanding_zero w k (Hz k Hk)) as [_ Hx]; apply Hx in Hki. }
        rewrite lookup_insert_ne by done. destruct (sv_leases s3 !! od_Database k) as [j|] eqn:Hj; [|done].
        apply Hsub3 in Hj. simpl in Hj. specialize (Hrn _ Hki). congruence.
  - injection Hr as <- <-. apply winv_at; [done|done|done| |by rewrite Hs2]. rewrite Hs2. exact Hsub.
Qed.

(** ** Installs *)
Lemma outstanding_perm ks ks' k : ks ≡ₚ ks' → length (filter (λ x : OwnerDatabase, x = k) ks) = length (filter (λ x, x = k) ks').
Proof. intros Hp. by rewrite Hp. Qed.

Lemma length_filter_cons (key k : OwnerDatabase) ks :
  length (filter (λ x, x = k) (key :: ks)) =
  (if decide (k = key) then 1 else 0) + length (filter (λ x, x = k) ks).
Proof. rewrite filter_cons. repeat case_decide; subst; try done. Qed.

Lemma before_inv w now key o s' :
  winv w → (w_now w ≤ now)%Z → BeforeInstall key now (w_srv w) = (o, s') →
  winv (mkWorld s' now (w_held w) (w_told w)
          (match o with Some id => (key, id) :: w_waiting w | None => w_waiting w end)
          (match o with Some _ => w_running w | None => key :: w_running w end)).
Proof.
  intros Hi Hn Hb. unfold BeforeInstall in Hb. cbv zeta in Hb. set (st := mkDB _ _ _ _ _ _ _ _ _ _ _ _) in Hb.
  set (s0 := set_epoch _ (set_dbs _ (w_srv w))) in Hb.
  assert (sim (w_srv w) s0) as Hsim by done.
  pose proof (sweep_lease_inv _ _ _ _ (sim_lease_inv _ _ _ _ _ Hsim (winv_lease _ _ Hi Hn))) as Hsw.
  destruct (sweep_spec now s0) as (_ & (_ & _ & Hd1 & _) & _).
  pose proof (sweep_sub now s0 (sim_wf _ _ Hsim (wi_maps w Hi))) as Hsub. set (s1 := sweepLocked now s0) in *.
  assert (dbs_ok s1) as Hok1.
  { unfold dbs_ok. rewrite Hd1. apply dbs_ok_insert; [apply Hi|by apply stateLocked_key, Hi|done]. }
  assert (∀ k, installs s1 k = (if decide (k = key) then 1 else 0) + outstanding w k) as Hin1.
  { intros k. rewrite <- (wi_installs w Hi). transitivity (installs (set_dbs (<[key := st]> (sv_dbs (w_srv w))) (w_srv w)) k).
    - unfold installs, stateLocked. by rewrite Hd1.
    - rewrite installs_insert. destruct (decide (k = key)) as [->|]; reflexivity. }
  assert (install_inv (w_waiting w) (w_running w) s1) as [Hw1 Hr1].
  { eapply install_inv_sub; [|by apply winv_install]. exact Hsub. }
  destruct (sv_leases s1 !! od_Database key) as [id|] eqn:Hlease; injection Hb as <- <-.
  - pose proof (sim_revoke id now s1) as Hrv. apply winv_build; simpl.
    + by eapply sim_lease_inv.
    + exact Hok1.
    + intros k. etrans; [exact (Hin1 k)|]. unfold outstanding. simpl. by rewrite length_filter_cons.
    + split; [|exact Hr1]. intros k i [Heq|Hin]%elem_of_cons; [|by apply Hw1]. simplify_eq. by right.
  - apply winv_build; simpl; [done|done|..].
    + intros k. rewrite Hin1. unfold outstanding. simpl.
      rewrite (outstanding_perm _ _ k (Permutation_sym (Permutation_middle _ _ key))). by rewrite length_filter_cons.
    + split; [exact Hw1|]. intros k [->|Hin]%elem_of_cons; [done|by apply Hr1].
Qed.

Lemma end_install_spec pl key s :
  dbs_ok s → sim s (end_install pl key s) ∧ dbs_ok (end_install pl key s) ∧
  ∀ k, installs (end_install pl key s) k = installs s k - (if decide (k = key) then 1 else 0).
Proof.
  intros Hd. unfold end_install. destruct (sv_dbs s !! key) as [st|] eqn:Hst.
  - split; [done|]. split.
    + destruct (Hd _ _ Hst) as [Hk Hz].
      apply dbs_ok_insert; [done|exact Hk|]. simpl. intros Hs. by rewrite (Hz Hs).
    + intros k. set (st' := mkDB _ _ _ _ _ _ _ _ _ _ _ _).
      transitivity (installs (set_dbs (<[key := st']> (sv_dbs s)) s) k); [done|]. rewrite installs_insert.
      case_decide; subst; [|lia]. unfold installs, stateLocked. rewrite Hst. simpl. lia.
  - split; [done|]. split; [done|]. intros k. case_decide; subst; [|lia]. unfold installs, stateLocked. by rewrite Hst.
Qed.

(** An install that ends or is given up. *)
Lemma end_install_inv w key pl waiting running :
  winv w → (w_waiting w).*1 ++ w_running w ≡ₚ key :: waiting.*1 ++ running →
  (∀ x, x ∈ waiting → x ∈ w_waiting w) → (∀ x, x ∈ running → x ∈ w_running w) →
  winv (mkWorld (end_install pl key (w_srv w)) (w_now w) (w_held w) (w_told w) waiting running).
Proof.
  intros Hi Hp Hws Hrs. destruct (end_install_spec pl key (w_srv w) (wi_dbs w Hi)) as (Hs & Hd & Hk).
  apply winv_build; simpl.
  - eapply sim_lease_inv; [done|]. by apply winv_lease.
  - done.
  - intros k. rewrite Hk, (wi_installs w Hi). unfold outstanding. rewrite (outstanding_perm _ _ k Hp), length_filter_cons.
    simpl. lia.
  - destruct (install_inv_sub _ _ _ _ (sim_sub _ _ Hs) (winv_install _ Hi)) as [Hw Hr].
    split; [intros k i Hin; by apply Hw, Hws|intros k Hin; by apply Hr, Hrs].
Qed.

Lemma split_keys (ws1 ws2 : list (OwnerDatabase * string)) key id rs :
  (ws1 ++ (key, id) :: ws2).*1 ++ rs ≡ₚ key :: (ws1 ++ ws2).*1 ++ rs.
Proof. rewrite !fmap_app, fmap_cons. simpl. by rewrite <- Permutation_middle. Qed.

Lemma done_inv w key id ws1 ws2 :
  winv w → w_waiting w = ws1 ++ (key, id) :: ws2 → BeforeInstall_done id (w_srv w) = true →
  winv (mkWorld (w_srv w) (w_now w) (w_held w) (w_told w) (ws1 ++ ws2) (key :: w_running w)).
Proof.
  intros Hi Hws Hdone. apply bool_decide_eq_true in Hdone. apply winv_build; simpl.
  - by apply winv_lease.
  - apply Hi.
  - intros k. rewrite (wi_installs w Hi). unfold outstanding. simpl. rewrite Hws. apply outstanding_perm.
    rewrite split_keys. by rewrite Permutation_middle.
  - destruct (winv_install _ Hi) as [Hw Hr]. rewrite Hws in Hw. split.
    + intros k i Hin. apply Hw. apply elem_of_app. apply elem_of_app in Hin as [?|?]; [by left|right; by right].
    + intros k [->|Hin]%elem_of_cons; [|by apply Hr].
      destruct (Hw key id) as [?|Hl]; [apply elem_of_app; right; by left|done|].
      destruct (proj2 (wi_maps w Hi) _ _ Hl) as (l & Hl' & _). congruence.
Qed.

Lemma restart_inv w now b addrs s' :
  winv w → (w_now w ≤ now)%Z →
  New cfg addrs (c_file (restart b (Cell [] (sv_file (w_srv w))))) now = Ok s' →
  winv (mkWorld s' now (w_held w) (w_told w) [] []).
Proof.
  intros Hi Hn Hnew. destruct (winv_lease _ _ Hi Hn) as (_ & _ & _ & [Hfc Hfd] & Hcov).
  set (f := c_file _) in Hnew.
  assert (files (content_wf ttl_ms now) f ∧ ∀ db id dl, w_held w !! db = Some (id, dl) → (now < dl)%Z →
    files (covered_file (w_told w) db id dl) f) as [Hf Hc].
  { unfold f. split.
    - by destruct b; split.
    - intros db id dl Hd Hl. destruct (Hcov _ _ _ Hd Hl) as [_ [? ?]]. by destruct b; split. }
  destruct (New_ok ttl_ms cfg addrs f now Hcfg (proj1 Hf)) as (s & Hs & Hw & Hfile & Hcf & Hdb & Hm & Hcm).
  assert (s' = s) as -> by congruence. apply winv_build; simpl.
  - split_and!; [done|done|done|by rewrite Hfile|]. intros db id dl Hd Hl. rewrite Hfile.
    pose proof (Hc _ _ _ Hd Hl) as Hfl. split; [|done]. by apply Hcm; [apply Hfl|].
  - intros k st. by rewrite Hdb.
  - intros k. unfold installs, stateLocked. by rewrite Hdb.
  - split; [by intros k id ?%elem_of_nil|by intros k ?%elem_of_nil].
Qed.

Lemma wstep_inv w w' : wstep w w' → winv w → winv w'.
Proof.
  intros [w0 now db snap id env r s' Hn Hf Hdb Ha|w0 now id l env r s' Hn Hl Ht Hr|w0 now id env Hn Ht|w0 now r Hn
    |w0 now owner ok Hn|w0 now Hn|w0 now key o s' Hn Hb|w0 key id ws1 ws2 Hws Hd|w0 key id ws1 ws2 Hws
    |w0 key rs1 rs2 Hrs|w0 now b addrs s' Hn Hnew] Hi.
  - by eapply acquire_inv.
  - by eapply renew_inv.
  - by apply release_inv.
  - destruct (poll_spec now r (w_srv w0) (wi_dbs w0 Hi)) as (Hs & Hk & Hd).
    destruct (sweep_spec now (w_srv w0)) as (_ & (_ & _ & Hd1 & _) & _). apply winv_quiet; [done|done| | | |].
    + intros Hl. eapply sim_lease_inv; [exact Hs|]. by apply sweep_lease_inv.
    + intros db id Hdb. eapply sweep_sub; [apply Hi|]. eapply sim_sub; [exact Hs|done].
    + intros k. rewrite Hk. unfold installs, stateLocked. by rewrite Hd1.
    + intros Hok. apply Hd. unfold dbs_ok. by rewrite Hd1.
  - apply winv_at; [done|done| |by intros db id|done]. by apply winv_lease.
  - apply winv_at; [done|done| |by apply sweep_sub, Hi|by apply sweep_spec]. by apply sweep_lease_inv, winv_lease.
  - by eapply before_inv.
  - by eapply done_inv.
  - apply (end_install_inv w0 key Datatypes.id); [done|rewrite Hws; apply split_keys| |done].
    intros x. rewrite Hws, !elem_of_app, elem_of_cons. tauto.
  - apply (end_install_inv w0 key (λ _, 0)); [done| |done|].
    + rewrite Hrs, <- !Permutation_middle. done.
    + intros x. rewrite Hrs, !elem_of_app, elem_of_cons. tauto.
  - by eapply restart_inv.
Qed.

(** The first start, on a state directory without a lease file. *)
Definition start (now : Z) (s : Server) : world := mkWorld s now ∅ ∅ [] [].

Lemma start_inv addrs now s : New cfg addrs (File [] []) now = Ok s → winv (start now s).
Proof.
  intros Hs. injection Hs as <-. apply winv_build; simpl.
  - split_and!; try done. by split; (split; [constructor|split; constructor]).
  - done.
  - done.
  - split; [by intros k id ?%elem_of_nil|by intros k ?%elem_of_nil].
Qed.

Lemma history_winv addrs now s w :
  New cfg addrs (File [] []) now = Ok s → rtc wstep (start now s) w → winv w.
Proof.
  intros Hs%start_inv Hst. induction Hst as [|w0 w1 w2 H1 _ IH]; [done|]. apply IH. by eapply wstep_inv.
Qed.

(** ** Properties *)

(** C5: No copy is installed while a host may read it. Over every history, while
    an install of a database runs, under whatever owner, no lease the host was
    granted on that database and has not released is still within the lifetime it
    was told: the host's deadline has passed. *)
Theorem no_install_under_lease addrs now s w key id dl :
  New cfg addrs (File [] []) now = Ok s → rtc wstep (start now s) w →
  key ∈ w_running w → w_held w !! od_Database key = Some (id, dl) → (dl ≤ w_now w)%Z.
Proof.
  intros Hs Hst Hrun Hheld. pose proof (history_winv _ _ _ _ Hs Hst) as Hi.
  destruct (Z.le_gt_cases dl (w_now w)) as [?|Hlt]; [done|]. exfalso.
  destruct (wi_covered w Hi _ _ _ Hheld Hlt) as [(l & Hon & _) _].
  pose proof (wi_running w Hi _ Hrun) as Hnone. unfold lease_on in Hon. by rewrite Hnone in Hon.
Qed.

(** C24: A member always restarts on its own lease file. Over every history, in
    whatever state a crash or a power loss leaves LeaseFile, New accepts it, and
    every lease the host still holds is held again, revoked, for at least as long
    as the host was told. *)
Theorem restart_restores_leases addrs now s w now' b addrs' :
  New cfg addrs (File [] []) now = Ok s → rtc wstep (start now s) w → (w_now w ≤ now')%Z →
  ∃ s', New cfg addrs' (c_file (restart b (Cell [] (sv_file (w_srv w))))) now' = Ok s' ∧
    ∀ db id dl, w_held w !! db = Some (id, dl) → (now' < dl)%Z →
      ∃ l, lease_on s' db = Some l ∧ le_revoked l = true ∧ (dl ≤ expiresAt l)%Z.
Proof.
  intros Hs Hst Hn. pose proof (history_winv _ _ _ _ Hs Hst) as Hi. pose proof (winv_lease _ _ Hi Hn) as Hli.
  set (f := c_file _). assert (content_wf ttl_ms now' (f_cur f) ∧ ∀ db id dl, w_held w !! db = Some (id, dl) →
    (now' < dl)%Z → covered_file (w_told w) db id dl (f_cur f)) as [Hf Hc].
  { destruct Hli as (_ & _ & _ & [? ?] & Hcov). unfold f. split.
    - by destruct b.
    - intros db id dl Hd Hl. destruct (Hcov _ _ _ Hd Hl) as [_ [? ?]]. by destruct b. }
  destruct (New_ok ttl_ms cfg addrs' f now' Hcfg Hf) as (s' & Hs' & Hw & _ & _ & _ & _ & Hcm).
  exists s'. split; [done|]. intros db id dl Hd Hl. destruct (Hcm _ _ _ _ (Hc _ _ _ Hd Hl) Hl) as (l & Hon & Hp & _).
  exists l. split; [done|]. split; [|pose proof (promise_expires l); lia].
  destruct (restore_ok ttl_ms now' (f_cur f)
    (mkServer cfg 0 ∅ ((λ a, mkOwner a None zero_frontier false 0) <$> addrs') ∅ ∅ f)) as (s2 & Hs2 & _ & _ & _ & Hb);
    [done|done|done|by apply Forall_forall|].
  assert (s2 = s') as -> by (unfold New in Hs'; congruence).
  apply lease_on_byID in Hon as [Hon _]; [|done]. by apply Hb in Hon as [?|(r & _ & -> & _)].
Qed.

End safety.

(** ** A run

    Owner 1 is quarantined and its database db is served; the host takes lease L1,
    an install of db begins and waits until the lease has expired. *)
Module Run.
#[local] Open Scope string_scope.

#[export] Instance toy_housegate : Housegate := {|
  TrackFrontier := N; zero_frontier := 0%N; Manifest := gmap N N; OwnerEntry m o := m !! o;
  CopyTable key seq := key +:+ "_copy" |}.

Definition cfg : Config := mkConfig true 10000000000 15000000000.
Definition key : OwnerDatabase := mkOD 1 "db".
Definition inc : TableIncarnation := mkIncarnation 1 "db" "t" OriginChain Active "h" 3 0 [] (Some 1%N) false [] "{}".
Definition reads : poll_reads :=
  mkPoll 0 (mkSnapshot 1 1 [inc] [mkIndexer 1 "owner"] [1%N] [] []) true (Some {[1%N := 7%N]}) [key]
    {[key := mkCopy "snap" (7%N : TrackFrontier) [mkTableCopy "db.t" 1 "db.t_copy" "h" Installed] true]}.

Definition s0 : Server := mkServer cfg 0 ∅ ∅ ∅ ∅ (File [] []).
Definition w0 : world := start 0 s0.
Definition w1 : world := at_time 1 (poll 1 reads (w_srv w0)) w0.
Definition w2 : world := at_time 2 (poll 2 reads (w_srv w1)) w1.
Definition granted : result serve_error string * Server := acquire "db" "snap" (Some "L1") 3 write_ok (w_srv w2).
Definition w3 : world :=
  match granted.1 with
  | Ok _ => hold cfg "db" "L1" 3 (at_time 3 granted.2 w2)
  | Err _ => at_time 3 granted.2 w2
  end.
Definition before : option string * Server := BeforeInstall key 4 (w_srv w3).
Definition w4 : world :=
  mkWorld before.2 4 (w_held w3) (w_told w3)
    (match before.1 with Some id => (key, id) :: w_waiting w3 | None => w_waiting w3 end)
    (match before.1 with Some _ => w_running w3 | None => key :: w_running w3 end).
Definition w5 : world := at_time 10000000003 (sweepLocked 10000000003 (w_srv w4)) w4.
Definition w6 : world := mkWorld (w_srv w5) (w_now w5) (w_held w5) (w_told w5) [] [key].

Lemma granted_reached : rtc (wstep cfg) w0 w3.
Proof.
  eapply rtc_l; [exact (ws_poll cfg w0 1 reads ltac:(vm_compute; discriminate))|].
  eapply rtc_l; [exact (ws_poll cfg w1 2 reads ltac:(vm_compute; discriminate))|].
  apply rtc_once. refine (ws_acquire cfg w2 3 "db" "snap" "L1" write_ok granted.1 granted.2 _ _ _ _).
  - vm_compute. discriminate.
  - split; [discriminate|]. split; [apply (bool_decide_unpack _); vm_compute; exact I|].
    split; [vm_compute; reflexivity|]. split; apply (bool_decide_unpack _); vm_compute; exact I.
  - discriminate.
  - apply surjective_pairing.
Qed.

Lemma running_reached : rtc (wstep cfg) w0 w6.
Proof.
  etrans; [exact granted_reached|].
  eapply rtc_l; [refine (ws_before cfg w3 4 key before.1 before.2 _ _)|].
  { vm_compute. discriminate. }
  { apply surjective_pairing. }
  eapply rtc_l; [exact (ws_sweep cfg w4 10000000003 ltac:(vm_compute; discriminate))|].
  apply rtc_once. refine (ws_done cfg w5 key "L1" [] [] _ _); vm_compute; reflexivity.
Qed.

Lemma no_install_under_lease_witness :
  w_held w6 !! "db" = Some ("L1", 10000000003%Z) ∧ (10000000003 ≤ w_now w6)%Z.
Proof.
  split; [vm_compute; reflexivity|].
  refine (no_install_under_lease cfg _ ∅ 0 s0 w6 key "L1" 10000000003 _ running_reached _ _).
  - vm_compute. split; [reflexivity|discriminate].
  - reflexivity.
  - left.
  - vm_compute. reflexivity.
Defined.

Lemma restart_restores_leases_witness :
  ∃ s', New cfg ∅ (c_file (restart true (Cell [] (sv_file (w_srv w3))))) 5 = Ok s' ∧
    ∀ db id dl, w_held w3 !! db = Some (id, dl) → (5 < dl)%Z →
      ∃ l, lease_on s' db = Some l ∧ le_revoked l = true ∧ (dl ≤ expiresAt l)%Z.
Proof.
  refine (restart_restores_leases cfg _ ∅ 0 s0 w3 5 true ∅ _ granted_reached _).
  - vm_compute. split; [reflexivity|discriminate].
  - reflexivity.
  - vm_compute. discriminate.
Defined.
End Run.
