(* ===== verification/StateStore.v ===== *)
(** * The SNode's durable promotion ledger (snode/state.go)

    [localState] is the struct state.json holds and [stateStore] its process:
    an in-memory copy with the file behind it, the [cell] of the prelude.
    Every method that writes is a [txn]: from the state under the lock it
    returns an error, a value without a write, or a value with the next state,
    which [run] hands to persistStateLocked. The methods that build a clone
    move memory only once the write succeeded ([run]); AddUnpromoted,
    AddUnpromotedPart, RemoveUnpromotedPart and DrainUnpromoted assign to the
    live state before they write ([run_inplace]). The ledger half of
    snode/registry.go (quiescent, ForgetTable), snode/rebuilt_inventory.go and
    the reads of snode/view.go are here too. The JSON encoding of the file is
    the identity: a state is marshalled whole and read back whole. *)
From S2P Require Import Prelude LtHash Types.

Module StateStore.

(** ** Data *)
Record partitionKey := mkPartitionKey { pk_Table : string; pk_Partition : string }.

Record promotionSafePart := mkSafePart {
  psp_Name : string; psp_PartitionID : string; psp_PartitionValue : string; psp_PhysHash : string }.

Record promotionIntent := mkIntent {
  pi_PromotionSeq : N; pi_BasePartitionRoot : string; pi_PostPartitionRoot : string;
  pi_BaseSafeSnapshotID : string; pi_CandidatePartHashes : list string;
  pi_UnsafePartNames : list string; pi_SafePartsBefore : list promotionSafePart }.

Record ackedSafeInventory := mkInventory {
  ai_PromotionSeq : N; ai_Parts : list SafePartMapping; ai_Rebuilt : bool }.

#[export] Instance partitionKey_eq_dec : EqDecision partitionKey.
Proof. solve_decision. Defined.
#[export] Instance promotionSafePart_eq_dec : EqDecision promotionSafePart.
Proof. solve_decision. Defined.
#[export] Instance promotionIntent_eq_dec : EqDecision promotionIntent.
Proof. solve_decision. Defined.

Record localState := mkLocalState {
  Watermarks : gmap string N;
  LastAcks : gmap string PromotionAck;
  BaseRoots : gmap string string;
  BaseSnapshotIDs : gmap string string;
  UnpromotedSums : gmap string string;
  IntakeParts : gmap string string;
  PromotedUnsafeParts : gmap string (list string);
  PromotionIntents : gmap string promotionIntent;
  RegistrationSeq : N;
  OwedCleanupAcks : gmap string CleanupAck;
  AckedSafeInventories : gmap string ackedSafeInventory }.

(** One setter per field; an assignment [s.F[k] = v] is [set_F (<[k:=v]> (F s)) s]. *)
Definition set_Watermarks (x : gmap string N) (s : localState) : localState :=
  mkLocalState x (LastAcks s) (BaseRoots s) (BaseSnapshotIDs s) (UnpromotedSums s) (IntakeParts s) (PromotedUnsafeParts s) (PromotionIntents s) (RegistrationSeq s) (OwedCleanupAcks s) (AckedSafeInventories s).
Definition set_LastAcks (x : gmap string PromotionAck) (s : localState) : localState :=
  mkLocalState (Watermarks s) x (BaseRoots s) (BaseSnapshotIDs s) (UnpromotedSums s) (IntakeParts s) (PromotedUnsafeParts s) (PromotionIntents s) (RegistrationSeq s) (OwedCleanupAcks s) (AckedSafeInventories s).
Definition set_BaseRoots (x : gmap string string) (s : localState) : localState :=
  mkLocalState (Watermarks s) (LastAcks s) x (BaseSnapshotIDs s) (UnpromotedSums s) (IntakeParts s) (PromotedUnsafeParts s) (PromotionIntents s) (RegistrationSeq s) (OwedCleanupAcks s) (AckedSafeInventories s).
Definition set_BaseSnapshotIDs (x : gmap string string) (s : localState) : localState :=
  mkLocalState (Watermarks s) (LastAcks s) (BaseRoots s) x (UnpromotedSums s) (IntakeParts s) (PromotedUnsafeParts s) (PromotionIntents s) (RegistrationSeq s) (OwedCleanupAcks s) (AckedSafeInventories s).
Definition set_UnpromotedSums (x : gmap string string) (s : localState) : localState :=
  mkLocalState (Watermarks s) (LastAcks s) (BaseRoots s) (BaseSnapshotIDs s) x (IntakeParts s) (PromotedUnsafeParts s) (PromotionIntents s) (RegistrationSeq s) (OwedCleanupAcks s) (AckedSafeInventories s).
Definition set_IntakeParts (x : gmap string string) (s : localState) : localState :=
  mkLocalState (Watermarks s) (LastAcks s) (BaseRoots s) (BaseSnapshotIDs s) (UnpromotedSums s) x (PromotedUnsafeParts s) (PromotionIntents s) (RegistrationSeq s) (OwedCleanupAcks s) (AckedSafeInventories s).
Definition set_PromotedUnsafeParts (x : gmap string (list string)) (s : localState) : localState :=
  mkLocalState (Watermarks s) (LastAcks s) (BaseRoots s) (BaseSnapshotIDs s) (UnpromotedSums s) (IntakeParts s) x (PromotionIntents s) (RegistrationSeq s) (OwedCleanupAcks s) (AckedSafeInventories s).
Definition set_PromotionIntents (x : gmap string promotionIntent) (s : localState) : localState :=
  mkLocalState (Watermarks s) (LastAcks s) (BaseRoots s) (BaseSnapshotIDs s) (UnpromotedSums s) (IntakeParts s) (PromotedUnsafeParts s) x (RegistrationSeq s) (OwedCleanupAcks s) (AckedSafeInventories s).
Definition set_RegistrationSeq (x : N) (s : localState) : localState :=
  mkLocalState (Watermarks s) (LastAcks s) (BaseRoots s) (BaseSnapshotIDs s) (UnpromotedSums s) (IntakeParts s) (PromotedUnsafeParts s) (PromotionIntents s) x (OwedCleanupAcks s) (AckedSafeInventories s).
Definition set_OwedCleanupAcks (x : gmap string CleanupAck) (s : localState) : localState :=
  mkLocalState (Watermarks s) (LastAcks s) (BaseRoots s) (BaseSnapshotIDs s) (UnpromotedSums s) (IntakeParts s) (PromotedUnsafeParts s) (PromotionIntents s) (RegistrationSeq s) x (AckedSafeInventories s).
Definition set_AckedSafeInventories (x : gmap string ackedSafeInventory) (s : localState) : localState :=
  mkLocalState (Watermarks s) (LastAcks s) (BaseRoots s) (BaseSnapshotIDs s) (UnpromotedSums s) (IntakeParts s) (PromotedUnsafeParts s) (PromotionIntents s) (RegistrationSeq s) (OwedCleanupAcks s) x.

(** newLocalState and ensureMaps: every map present and empty. *)
Definition newLocalState : localState :=
  mkLocalState ∅ ∅ ∅ ∅ ∅ ∅ ∅ ∅ 0 ∅ ∅.

Inductive serr :=
| EHex | EIntentExists | ERefreshDifferent | EIntakePartDiffers | EIntakeMismatch
| ECleanupSeq | ECleanupPartKey | ECleanupPartName | ECleanupPartHash | EAckMismatch
| EUnresolved (partitions : list string) | EIntentUnresolved | EPromotedAwait
| EUnpromotedRows | EOwedAck | ERebuildIntentPending | ERebuildJournalBehind | EWrite.

(** ** Keys *)
Definition key (table partition : string) : string := join NUL table partition.
Definition pkey (k : partitionKey) : string := key (pk_Table k) (pk_Partition k).
Definition intakePartKey (k : partitionKey) (partName : string) : string :=
  join NUL (pkey k) partName.
Definition splitKey (s : string) : option partitionKey :=
  '(t, p) ← cut NUL s; Some (mkPartitionKey t p).

(** [prefix := table + "\x00"]; [strings.HasPrefix(ks, prefix)]. *)
Definition table_prefix (table : string) : string := table +:+ String NUL EmptyString.
Definition of_table (table ks : string) : bool := has_prefix (table_prefix table) ks.

(** fmt.Sprintf("%s\x00%d\x00%d", key(TableID, PartitionID), PromotionSeq, RejectedBlockSeq) *)
Definition cleanupAckKey (ack : CleanupAck) : string :=
  join NUL (key (ca_TableID ack) (ca_PartitionID ack))
    (join NUL (pretty (ca_PromotionSeq ack)) (pretty (ca_RejectedBlockSeq ack))).

(** ** Transactions *)
Definition txn (A : Type) : Type := localState → result serr (A * option localState).

(** persistStateLocked(next) when the method wrote, its result otherwise. *)
Definition run {A} (t : txn A) (w : write_env) (c : cell localState)
  : result serr A * cell localState :=
  match t (c_mem c) with
  | Err e => (Err e, c)
  | Ok (a, None) => (Ok a, c)
  | Ok (a, Some next) =>
      let '(ok, c') := persist w c next in
      (if ok then Ok a else Err EWrite, c')
  end.

(** persistLocked after the live state was assigned to. *)
Definition run_inplace {A} (t : txn A) (w : write_env) (c : cell localState)
  : result serr A * cell localState :=
  match t (c_mem c) with
  | Err e => (Err e, c)
  | Ok (a, None) => (Ok a, c)
  | Ok (a, Some next) =>
      let '(ok, c') := persist w (Cell next (c_file c)) next in
      (if ok then Ok a else Err EWrite, c')
  end.

(** ** Reads *)
Definition Watermark (s : localState) (k : partitionKey) : N := get_or 0%N (Watermarks s) (pkey k).
Definition LastAck (s : localState) (k : partitionKey) : option PromotionAck := LastAcks s !! pkey k.
Definition BaseRoot (s : localState) (k : partitionKey) : string * string :=
  (get_or "" (BaseRoots s) (pkey k), get_or "" (BaseSnapshotIDs s) (pkey k)).
Definition UnpromotedSum (s : localState) (k : partitionKey) : string :=
  get_or "" (UnpromotedSums s) (pkey k).
Definition PendingPromotion (s : localState) (k : partitionKey) : option promotionIntent :=
  PromotionIntents s !! pkey k.

Definition ackedSafeInventory_of (s : localState) (ks : string) : option ackedSafeInventory :=
  match AckedSafeInventories s !! ks with
  | Some inv => Some inv
  | None =>
      match LastAcks s !! ks with
      | Some ack =>
          if pa_Applied ack && bool_decide (0 < length (pa_SafePartitionParts ack))
          then Some (mkInventory (pa_PromotionSeq ack) (pa_SafePartitionParts ack) false)
          else None
      | None => None
      end
  end.

Definition AckedSafeInventory (s : localState) (k : partitionKey) : option ackedSafeInventory :=
  ackedSafeInventory_of s (pkey k).

(** The partitions of [table] among [keys]. *)
Definition partitions_in (table : string) (keys : list string) : list string :=
  omap (fun ks => pk ← splitKey ks;
                  if bool_decide (pk_Table pk = table) then Some (pk_Partition pk) else None) keys.

Definition ackedInventoryPartitions (s : localState) (table : string) : list string :=
  let keys := elements (dom (AckedSafeInventories s)) ++ elements (dom (LastAcks s)) in
  sorted_set (partitions_in table
    (filter (fun ks => is_Some (ackedSafeInventory_of s ks)) keys)).

Definition partitionsOf (s : localState) (table : string) : list partitionKey :=
  mkPartitionKey table <$>
    sorted_set (partitions_in table
      (elements (dom (BaseRoots s)) ++ elements (dom (UnpromotedSums s)))).

Definition baseRootOr (s : localState) (k : partitionKey) (fallback : string) : string :=
  let v := get_or "" (BaseRoots s) (pkey k) in
  if bool_decide (v ≠ EmptyString) then v else fallback.

Definition unpromotedSumOr (s : localState) (k : partitionKey) (fallback : string) : string :=
  let v := get_or "" (UnpromotedSums s) (pkey k) in
  if bool_decide (v ≠ EmptyString) then v else fallback.

(** The unsafe_latest exclusion; an unresolved intent of the table fails closed. *)
Definition PromotedUnsafeParts_of (s : localState) (table : string) : result serr (list string) :=
  let pending := filter (fun ks => of_table table ks) (elements (dom (PromotionIntents s))) in
  match pending with
  | _ :: _ => Err (EUnresolved (sort_strings (trim_prefix (table_prefix table) <$> pending)))
  | [] =>
      Ok (sort_strings (mjoin
        (snd <$> filter (fun kv => of_table table kv.1) (map_to_list (PromotedUnsafeParts s)))))
  end.

Definition OwedCleanupAcks_of (s : localState) : list CleanupAck :=
  omap (fun ak => OwedCleanupAcks s !! ak) (sort_strings (elements (dom (OwedCleanupAcks s)))).

Definition owedCleanupAckOf (s : localState) (table : string) : option CleanupAck :=
  head (filter (fun ack => ca_TableID ack = table) (OwedCleanupAcks_of s)).

(** ** Promotion intents *)
Definition promotionIntentCommandEqual (a b : promotionIntent) : bool :=
  bool_decide (pi_PromotionSeq a = pi_PromotionSeq b) &&
  bool_decide (pi_BasePartitionRoot a = pi_BasePartitionRoot b) &&
  bool_decide (pi_PostPartitionRoot a = pi_PostPartitionRoot b) &&
  bool_decide (pi_BaseSafeSnapshotID a = pi_BaseSafeSnapshotID b) &&
  bool_decide (pi_CandidatePartHashes a = pi_CandidatePartHashes b) &&
  bool_decide (pi_UnsafePartNames a = pi_UnsafePartNames b).

Definition promotionIntentsEqual (a b : promotionIntent) : bool :=
  promotionIntentCommandEqual a b && bool_decide (pi_SafePartsBefore a = pi_SafePartsBefore b).

Definition BeginPromotion (k : partitionKey) (intent : promotionIntent) : txn unit := fun s =>
  let next := set_PromotionIntents (<[pkey k := intent]> (PromotionIntents s)) s in
  match PromotionIntents s !! pkey k with
  | Some existing =>
      if promotionIntentsEqual existing intent then Ok ((), None) else
      if promotionIntentCommandEqual existing intent then Ok ((), Some next) else
      Err EIntentExists
  | None => Ok ((), Some next)
  end.

(** ** Acknowledgements *)
Definition recordAckedSafeInventory (ks : string) (ack : PromotionAck) (s : localState) : localState :=
  if negb (pa_Applied ack) then s else
  if bool_decide (length (pa_SafePartitionParts ack) = 0)
  then set_AckedSafeInventories (delete ks (AckedSafeInventories s)) s
  else set_AckedSafeInventories
         (<[ks := mkInventory (pa_PromotionSeq ack) (pa_SafePartitionParts ack) false]>
            (AckedSafeInventories s)) s.

(** [if inv, ok := st.s.ackedSafeInventory(ks); ok { next.AckedSafeInventories[ks] = inv }] *)
Definition keep_inventory (ks : string) (s next : localState) : localState :=
  match ackedSafeInventory_of s ks with
  | Some inv => set_AckedSafeInventories (<[ks := inv]> (AckedSafeInventories next)) next
  | None => next
  end.

(** The four assignments every recorded acknowledgement makes. *)
Definition set_ack (ks : string) (seq : N) (ack : PromotionAck) (root snapshot : string)
    (s : localState) : localState :=
  set_BaseSnapshotIDs (<[ks := snapshot]> (BaseSnapshotIDs s))
  (set_BaseRoots (<[ks := root]> (BaseRoots s))
  (set_LastAcks (<[ks := ack]> (LastAcks s))
  (set_Watermarks (<[ks := seq]> (Watermarks s)) s))).

Definition RecordAck (k : partitionKey) (seq : N) (ack : PromotionAck)
    (newBaseRoot newBaseSnapshotID : string) : txn unit := fun s =>
  let ks := pkey k in
  Ok ((), Some (set_ack ks seq ack newBaseRoot newBaseSnapshotID (keep_inventory ks s s))).

Definition RecordSettledNotApplied (k : partitionKey) (seq : N) (ack : PromotionAck)
    (newBaseRoot newBaseSnapshotID : string) : txn unit := fun s =>
  let ks := pkey k in
  let next := set_ack ks seq ack newBaseRoot newBaseSnapshotID (keep_inventory ks s s) in
  Ok ((), Some
    match PromotionIntents next !! ks with
    | Some intent =>
        if bool_decide (pi_PromotionSeq intent = seq)
        then set_PromotionIntents (delete ks (PromotionIntents next)) next else next
    | None => next
    end).

Definition RecordRefreshedAck (k : partitionKey) (ack : PromotionAck) : txn unit := fun s =>
  let ks := pkey k in
  match LastAcks s !! ks with
  | None => Err ERefreshDifferent
  | Some previous =>
      if bool_decide (pa_PromotionSeq previous ≠ pa_PromotionSeq ack) ||
         bool_decide (get_or 0%N (Watermarks s) ks ≠ pa_PromotionSeq ack) ||
         bool_decide (pa_NodeID previous ≠ pa_NodeID ack) ||
         bool_decide (pa_TableID previous ≠ pa_TableID ack) ||
         bool_decide (pa_PartitionID previous ≠ pa_PartitionID ack) ||
         bool_decide (pa_PostPartitionCommitment previous ≠ pa_PostPartitionCommitment ack) ||
         negb (Bool.eqb (pa_Applied previous) (pa_Applied ack))
      then Err ERefreshDifferent
      else
        let next := set_LastAcks (<[ks := ack]> (LastAcks s)) s in
        Ok ((), Some
          match ackedSafeInventory_of s ks with
          | Some inv =>
              if bool_decide (ai_PromotionSeq inv < pa_PromotionSeq ack)%N
              then recordAckedSafeInventory ks ack next else next
          | None => recordAckedSafeInventory ks ack next
          end)
  end.

(** Appends the names that are non-empty and not there yet, in order. *)
Fixpoint append_names (existing names : list string) : list string :=
  match names with
  | [] => existing
  | p :: names =>
      if bool_decide (p = EmptyString) || bool_decide (p ∈ existing)
      then append_names existing names
      else append_names (existing ++ [p]) names
  end.

Section store.
Context `{LtHash}.

(** A partition's accumulator, parsed. *)
Definition sum_at (s : localState) (ks : string) : result serr lthash :=
  of_option EHex (parseAccumulatorHex (get_or "" (UnpromotedSums s) ks)).

Definition set_sum (ks : string) (acc : lthash) (s : localState) : localState :=
  set_UnpromotedSums (<[ks := accumulatorHex acc]> (UnpromotedSums s)) s.

Definition RecordAppliedPromotion (k : partitionKey) (seq : N) (ack : PromotionAck)
    (newBaseRoot newBaseSnapshotID : string) (partLtHashHexes unsafePartNames : list string)
    : txn unit := fun s =>
  let ks := pkey k in
  let* acc := sum_at s ks in
  let* acc := of_option EHex (sub_hexes acc partLtHashHexes) in
  let next := set_ack ks seq ack newBaseRoot newBaseSnapshotID
                (recordAckedSafeInventory ks ack (set_sum ks acc s)) in
  let next :=
    if bool_decide (0 < length unsafePartNames)
    then set_PromotedUnsafeParts
           (<[ks := append_names (get_or [] (PromotedUnsafeParts next) ks) unsafePartNames]>
              (PromotedUnsafeParts next)) next
    else next in
  Ok ((), Some (set_PromotionIntents (delete ks (PromotionIntents next)) next)).

(** ** Unpromoted rows *)
Definition AddUnpromoted (k : partitionKey) (partLtHashHex : string) : txn unit := fun s =>
  let* acc := sum_at s (pkey k) in
  let* part := of_option EHex (parseAccumulatorHex partLtHashHex) in
  Ok ((), Some (set_sum (pkey k) (lt_add acc part) s)).

Definition set_intake (pk hash : string) (s : localState) : localState :=
  set_IntakeParts (<[pk := hash]> (IntakeParts s)) s.

Definition AddUnpromotedPart (k : partitionKey) (partName partLtHashHex : string) : txn unit := fun s =>
  match IntakeParts s !! intakePartKey k partName with
  | Some previous =>
      if bool_decide (previous = partLtHashHex) then Ok ((), None) else Err EIntakePartDiffers
  | None =>
      let* acc := sum_at s (pkey k) in
      let* part := of_option EHex (parseAccumulatorHex partLtHashHex) in
      Ok ((), Some (set_intake (intakePartKey k partName) partLtHashHex
                      (set_sum (pkey k) (lt_add acc part) s)))
  end.

Definition RemoveUnpromotedPart (k : partitionKey) (partName partLtHashHex : string) : txn unit := fun s =>
  let previous := IntakeParts s !! intakePartKey k partName in
  if bool_decide (previous = Some EmptyString) then Ok ((), None) else
  if match previous with Some p => bool_decide (p ≠ partLtHashHex) | None => false end
  then Err EIntakeMismatch else
  let* acc := sum_at s (pkey k) in
  let* part := of_option EHex (parseAccumulatorHex partLtHashHex) in
  Ok ((), Some (set_intake (intakePartKey k partName) EmptyString
                  (set_sum (pkey k) (lt_sub acc part) s))).

Definition DrainUnpromoted (k : partitionKey) (partLtHashHexes : list string) : txn unit := fun s =>
  let* acc := sum_at s (pkey k) in
  let* acc := of_option EHex (sub_hexes acc partLtHashHexes) in
  Ok ((), Some (set_sum (pkey k) acc s)).

(** ** Cleanup *)
Fixpoint check_parts (s : localState) (k : partitionKey) (parts : list PartRef) : result serr unit :=
  match parts with
  | [] => Ok ()
  | p :: parts =>
      if bool_decide (pr_TableID p ≠ pk_Table k) || bool_decide (pr_PartitionID p ≠ pk_Partition k)
      then Err ECleanupPartKey else
      if bool_decide (pr_PartName p = EmptyString) then Err ECleanupPartName else
      if match IntakeParts s !! intakePartKey k (pr_PartName p) with
         | Some recorded => bool_decide (recorded ≠ EmptyString) &&
                            bool_decide (recorded ≠ pr_PartRowLtHash p)
         | None => false
         end
      then Err ECleanupPartHash else check_parts s k parts
  end.

Definition checkRejectedParts (s : localState) (k : partitionKey) (promotionSeq : N)
    (parts : list PartRef) : result serr unit :=
  if bool_decide (promotionSeq ≠ 0%N) then Err ECleanupSeq else check_parts s k parts.

Fixpoint removeRejectedParts (k : partitionKey) (parts : list PartRef) (changed : bool)
    (s : localState) : result serr (bool * localState) :=
  match parts with
  | [] => Ok (changed, s)
  | p :: parts =>
      match IntakeParts s !! intakePartKey k (pr_PartName p) with
      | None | Some EmptyString => removeRejectedParts k parts changed s
      | Some _ =>
          let* acc := sum_at s (pkey k) in
          let* part := of_option EHex (parseAccumulatorHex (pr_PartRowLtHash p)) in
          removeRejectedParts k parts true
            (set_intake (intakePartKey k (pr_PartName p)) EmptyString
               (set_sum (pkey k) (lt_sub acc part) s))
      end
  end.

Definition forgetPromotedParts (k : partitionKey) (partNames : list string) (s : localState)
    : bool * localState :=
  let existing := get_or [] (PromotedUnsafeParts s) (pkey k) in
  let kept := filter (fun p => p ∉ partNames) existing in
  if bool_decide (length kept = length existing) then (false, s) else
  if bool_decide (length kept = 0)
  then (true, set_PromotedUnsafeParts (delete (pkey k) (PromotedUnsafeParts s)) s)
  else (true, set_PromotedUnsafeParts (<[pkey k := kept]> (PromotedUnsafeParts s)) s).

Definition RecordExecutedCleanup (cmd : UnsafeCleanup) (ack : CleanupAck) : txn unit := fun s =>
  if bool_decide (ca_TableID ack ≠ uc_TableID cmd) ||
     bool_decide (ca_PartitionID ack ≠ uc_PartitionID cmd) ||
     bool_decide (ca_PromotionSeq ack ≠ uc_PromotionSeq cmd) ||
     bool_decide (ca_RejectedBlockSeq ack ≠ uc_RejectedBlockSeq cmd)
  then Err EAckMismatch else
  let k := mkPartitionKey (uc_TableID cmd) (uc_PartitionID cmd) in
  let* r :=
    if bool_decide (uc_RejectedBlockSeq cmd ≠ 0%N)
    then let* _ := checkRejectedParts s k (uc_PromotionSeq cmd) (uc_Parts cmd) in
         removeRejectedParts k (uc_Parts cmd) false s
    else Ok (false, s) in
  let '(removed, next) := r in
  let '(forgot, next) := forgetPromotedParts k (pr_PartName <$> uc_Parts cmd) next in
  let ak := cleanupAckKey ack in
  let owed := bool_decide (OwedCleanupAcks next !! ak = Some ack) in
  let next := if owed then next
              else set_OwedCleanupAcks (<[ak := ack]> (OwedCleanupAcks next)) next in
  Ok ((), if removed || forgot || negb owed then Some next else None).

Definition ClearOwedCleanupAck (ack : CleanupAck) : txn unit := fun s =>
  let ak := cleanupAckKey ack in
  if bool_decide (OwedCleanupAcks s !! ak = Some ack)
  then Ok ((), Some (set_OwedCleanupAcks (delete ak (OwedCleanupAcks s)) s))
  else Ok ((), None).

(** ** Registration *)
Definition NextRegistrationSeq (nowMillis : N) : txn N := fun s =>
  let next := N.max (u64 (RegistrationSeq s + 1)) nowMillis in
  Ok (next, Some (set_RegistrationSeq next s)).

(** ** The purge gate (snode/registry.go)

    Go ranges over a map in an unspecified order, and the sums loop returns at
    the first entry that decides: [sums] is the order it took. *)
Fixpoint sums_zero (table : string) (sums : list (string * string)) : result serr bool :=
  match sums with
  | [] => Ok true
  | (ks, sum) :: sums =>
      if negb (of_table table ks) then sums_zero table sums else
      let* acc := of_option EHex (parseAccumulatorHex sum) in
      if bool_decide (lt_bytes acc ≠ lt_bytes lt_new) then Ok false else sums_zero table sums
  end.

Definition has_intent (s : localState) (table : string) : bool :=
  bool_decide (Exists (fun ks => of_table table ks) (elements (dom (PromotionIntents s)))).

Definition has_promoted (s : localState) (table : string) : bool :=
  bool_decide (Exists (fun kv : string * list string => of_table table kv.1 ∧ 0 < length kv.2)
                 (map_to_list (PromotedUnsafeParts s))).

Definition quiescent (sums : list (string * string)) (table : string) (s : localState)
    : result serr bool :=
  if has_intent s table then Ok false else
  if has_promoted s table then Ok false else
  let* z := sums_zero table sums in
  if negb z then Ok false else
  Ok (bool_decide (owedCleanupAckOf s table = None)).

(** Deletes the table's entries of one map. *)
Definition forget {V} (table : string) (m : gmap string V) : gmap string V :=
  filter (fun kv => of_table table kv.1 = false) m.

Definition forgets {V} (table : string) (m : gmap string V) : bool :=
  bool_decide (Exists (fun ks => of_table table ks) (elements (dom m))).

Definition forget_all (table : string) (s : localState) : localState :=
  mkLocalState (Watermarks s) (forget table (LastAcks s)) (forget table (BaseRoots s))
    (forget table (BaseSnapshotIDs s)) (forget table (UnpromotedSums s))
    (forget table (IntakeParts s)) (forget table (PromotedUnsafeParts s)) (PromotionIntents s)
    (RegistrationSeq s) (OwedCleanupAcks s) (forget table (AckedSafeInventories s)).

Definition ForgetTable (sums : list (string * string)) (table : string) : txn unit := fun s =>
  if has_intent s table then Err EIntentUnresolved else
  if has_promoted s table then Err EPromotedAwait else
  let* z := sums_zero table sums in
  if negb z then Err EUnpromotedRows else
  if bool_decide (owedCleanupAckOf s table ≠ None) then Err EOwedAck else
  let changed := forgets table (BaseRoots s) || forgets table (BaseSnapshotIDs s) ||
                 forgets table (UnpromotedSums s) || forgets table (LastAcks s) ||
                 forgets table (IntakeParts s) || forgets table (PromotedUnsafeParts s) ||
                 forgets table (AckedSafeInventories s) in
  Ok ((), if changed then Some (forget_all table s) else None).

(** ** Owner rebuild (snode/rebuilt_inventory.go) *)
Record RebuiltSafeInventory := mkRebuilt {
  ri_TableID : string; ri_PartitionID : string; ri_PublishSeq : N;
  ri_Parts : option (list SafePartMapping) (* [None]: nil *) }.

Definition sameMappings (a b : list SafePartMapping) : bool :=
  if bool_decide (length a ≠ length b) then false
  else bool_decide (is_Some (consume (counts a) b)).

Fixpoint check_watermarks (s : localState) (invs : list RebuiltSafeInventory) : result serr unit :=
  match invs with
  | [] => Ok ()
  | inv :: invs =>
      if bool_decide (get_or 0%N (Watermarks s) (key (ri_TableID inv) (ri_PartitionID inv))
                      < ri_PublishSeq inv)%N
      then Err ERebuildJournalBehind else check_watermarks s invs
  end.

Definition checkRebuild (s : localState) (invs : list RebuiltSafeInventory) : result serr unit :=
  if bool_decide (0 < size (PromotionIntents s)) then Err ERebuildIntentPending
  else check_watermarks s invs.

Definition journal_holds (s : localState) (inv : RebuiltSafeInventory) : bool :=
  match AckedSafeInventories s !! key (ri_TableID inv) (ri_PartitionID inv) with
  | Some got =>
      ai_Rebuilt got && bool_decide (ai_PromotionSeq got = ri_PublishSeq inv) &&
      match ri_Parts inv with
      | None => true
      | Some parts => sameMappings (ai_Parts got) parts
      end
  | None => false
  end.

Definition CheckRebuildJournal (s : localState) (invs : list RebuiltSafeInventory)
    : result serr (list bool) :=
  let* _ := checkRebuild s invs in Ok (journal_holds s <$> invs).

Definition record_rebuilt (s : localState) (inv : RebuiltSafeInventory) : localState :=
  set_AckedSafeInventories
    (<[key (ri_TableID inv) (ri_PartitionID inv) :=
         mkInventory (ri_PublishSeq inv) (default [] (ri_Parts inv)) true]> (AckedSafeInventories s)) s.

Definition RecordRebuiltSafeInventories (invs : list RebuiltSafeInventory) : txn unit := fun s =>
  let* _ := CheckRebuildJournal s invs in
  let* _ := checkRebuild s invs in
  Ok ((), Some (foldl record_rebuilt s invs)).

(** ** Histories

    Every call the process can make on the store, each with the outcome of its
    write, and process restarts after a crash or a power loss. *)
Inductive call :=
| CBegin (k : partitionKey) (intent : promotionIntent)
| CAck (k : partitionKey) (seq : N) (ack : PromotionAck) (root snapshot : string)
| CSettled (k : partitionKey) (seq : N) (ack : PromotionAck) (root snapshot : string)
| CRefresh (k : partitionKey) (ack : PromotionAck)
| CApplied (k : partitionKey) (seq : N) (ack : PromotionAck) (root snapshot : string)
    (hashes names : list string)
| CAdd (k : partitionKey) (hash : string)
| CAddPart (k : partitionKey) (name hash : string)
| CRemovePart (k : partitionKey) (name hash : string)
| CDrain (k : partitionKey) (hashes : list string)
| CCleanup (cmd : UnsafeCleanup) (ack : CleanupAck)
| CClear (ack : CleanupAck)
| CRegister (nowMillis : N)
| CForget (sums : list (string * string)) (table : string)
| CRebuilt (invs : list RebuiltSafeInventory).

Definition erase {A} (t : txn A) : txn unit := fun s =>
  let* r := t s in Ok ((), r.2).

Definition txn_of (cl : call) : txn unit :=
  match cl with
  | CBegin k intent => BeginPromotion k intent
  | CAck k seq ack root snapshot => RecordAck k seq ack root snapshot
  | CSettled k seq ack root snapshot => RecordSettledNotApplied k seq ack root snapshot
  | CRefresh k ack => RecordRefreshedAck k ack
  | CApplied k seq ack root snapshot hashes names =>
      RecordAppliedPromotion k seq ack root snapshot hashes names
  | CAdd k hash => AddUnpromoted k hash
  | CAddPart k name hash => AddUnpromotedPart k name hash
  | CRemovePart k name hash => RemoveUnpromotedPart k name hash
  | CDrain k hashes => DrainUnpromoted k hashes
  | CCleanup cmd ack => RecordExecutedCleanup cmd ack
  | CClear ack => ClearOwedCleanupAck ack
  | CRegister now => erase (NextRegistrationSeq now)
  | CForget sums table => ForgetTable sums table
  | CRebuilt invs => RecordRebuiltSafeInventories invs
  end.

(** The methods that assign to the live state before persistLocked. *)
Definition assigns_live (cl : call) : bool :=
  match cl with CAdd _ _ | CAddPart _ _ _ | CRemovePart _ _ _ | CDrain _ _ => true | _ => false end.

Definition exec (cl : call) : write_env → cell localState → result serr unit * cell localState :=
  if assigns_live cl then run_inplace (txn_of cl) else run (txn_of cl).

(** One event of a history whose calls all satisfy [A]. *)
Inductive step (A : call → Prop) : relation (cell localState) :=
| step_call cl w c : A cl → step A c (exec cl w c).2
| step_restart b c : step A c (restart b c).

(** The store of a fresh directory (openStateStore without a file). *)
Definition fresh : cell localState := Cell newLocalState (File newLocalState newLocalState).

End store.
End StateStore.
