(* ===== verification/StateStoreProofs.v ===== *)
(** * Properties of the SNode's promotion ledger

    Invariants of [StateStore] over arbitrary histories: sequences of calls
    with arbitrary write failures, interleaved with restarts. [step_inv] turns
    a fact preserved by every transaction into a fact about the memory and
    about every file content a restart can read; the [next_*] lemmas say which
    calls change which field. *)
From S2P Require Import Prelude LtHash Types StateStore.
Import StateStore.

(** What a call makes of a state, when it writes. *)
Definition next_of `{LtHash} (cl : call) (s : localState) : option localState :=
  match txn_of cl s with Ok (_, n) => n | Err _ => None end.

(** Opens a written transaction down to the states it can write. *)
Ltac open_txn Hn :=
  unfold next_of in Hn; cbn [txn_of] in Hn;
  unfold BeginPromotion, RecordAck, RecordSettledNotApplied, RecordRefreshedAck,
    RecordAppliedPromotion, AddUnpromoted, AddUnpromotedPart, RemoveUnpromotedPart,
    DrainUnpromoted, ClearOwedCleanupAck, erase, NextRegistrationSeq,
    ForgetTable, RecordRebuiltSafeInventories, keep_inventory, recordAckedSafeInventory in Hn;
  cbv zeta in Hn; simpl in Hn; simplify_eq/=;
  repeat (case_match; simplify_eq/=; go_inv; simplify_eq/=); try discriminate.

Section histories.
Context `{LtHash}.
Implicit Types (s : localState) (c : cell localState) (cl : call) (k : partitionKey).

Lemma exec_cases cl w c r c' :
  exec cl w c = (r, c') →
  (next_of cl (c_mem c) = None ∧ c' = c) ∨
  ∃ next, next_of cl (c_mem c) = Some next ∧
    ((r = Ok () ∧ c' = Cell next (File next next)) ∨
     (r = Err EWrite ∧ (c_mem c' = if assigns_live cl then next else c_mem c) ∧
      (c_file c' = c_file c ∨ c_file c' = File next (f_durable (c_file c))))).
Proof.
  unfold exec, next_of, run, run_inplace. intros He.
  destruct (assigns_live cl) eqn:Ha; destruct (txn_of cl (c_mem c)) as [[[] [next|]]|e];
    simplify_eq; auto; right; exists next; (split; [done|]).
  all: destruct (persist _ _ _) as [ok c''] eqn:Hp; destruct (persist_cases _ _ _ _ _ Hp)
    as [[-> ->]|[-> [->| ->]]]; simplify_eq/=; auto 10.
Qed.

Lemma exec_inv (P : localState → Prop) cl w c :
  (∀ s s', P s → next_of cl s = Some s' → P s') →
  cell_all P c → cell_all P (exec cl w c).2.
Proof.
  intros Hcl Hall. destruct (exec cl w c) as [r c'] eqn:He. simpl.
  destruct (exec_cases _ _ _ _ _ He) as [[_ ->]|(next & Hn & Hcase)]; [done|].
  destruct Hall as (Hm & Hc & Hd). pose proof (Hcl _ _ Hm Hn) as HP.
  destruct Hcase as [[-> ->]|(-> & Hm' & Hf)]; [done|].
  unfold cell_all. rewrite Hm'. destruct Hf as [-> | ->]; destruct (assigns_live cl); done.
Qed.

Lemma step_inv (A : call → Prop) (P : localState → Prop) c c' :
  (∀ cl s s', A cl → P s → next_of cl s = Some s' → P s') →
  cell_all P c → step A c c' → cell_all P c'.
Proof.
  intros Hcl Hall Hs. revert Hall. destruct Hs as [cl w c1 HA|b c1]; intros Hall.
  - apply exec_inv; [|done]. intros s s'. by apply Hcl.
  - by apply restart_all.
Qed.

Lemma steps_inv (A : call → Prop) (P : localState → Prop) c c' :
  (∀ cl s s', A cl → P s → next_of cl s = Some s' → P s') →
  cell_all P c → rtc (step A) c c' → cell_all P c'.
Proof.
  intros Hcl Hall Hs. induction Hs as [|c1 c2 c3 H12 _ IH]; [done|].
  apply IH. by apply (step_inv A P c1).
Qed.

(** ** Footprints *)

Lemma removeRejectedParts_frame k parts b s b' s' :
  removeRejectedParts k parts b s = Ok (b', s') →
  s' = set_IntakeParts (IntakeParts s') (set_UnpromotedSums (UnpromotedSums s') s).
Proof.
  revert b s. induction parts as [|p parts IH]; intros b s Hr; simpl in Hr.
  - simplify_eq. by destruct s'.
  - repeat case_match; simplify_eq/=; eauto;
      go_inv; apply IH in Hr; rewrite Hr; by destruct s, s'.
Qed.

Lemma record_rebuilt_frame invs s :
  foldl record_rebuilt s invs =
  set_AckedSafeInventories (AckedSafeInventories (foldl record_rebuilt s invs)) s.
Proof.
  revert s. induction invs as [|inv invs IH]; intros s; simpl; [by destruct s|].
  rewrite IH at 1. by destruct s.
Qed.

(** A cleanup that did not fail: the accounting of the rejected parts, the
    exclusion without the dropped names, the owed acknowledgement, and nothing
    else; when it wrote nothing, the acknowledgement was owed already. *)
Lemma cleanup_txn cmd ack s o :
  RecordExecutedCleanup cmd ack s = Ok ((), o) →
  let k := mkPartitionKey (uc_TableID cmd) (uc_PartitionID cmd) in
  ca_TableID ack = uc_TableID cmd ∧
  match o with
  | None => OwedCleanupAcks s !! cleanupAckKey ack = Some ack
  | Some s' =>
      s' = set_OwedCleanupAcks (<[cleanupAckKey ack := ack]> (OwedCleanupAcks s))
            (set_PromotedUnsafeParts
               (PromotedUnsafeParts (forgetPromotedParts k (pr_PartName <$> uc_Parts cmd) s).2)
            (set_IntakeParts (IntakeParts s') (set_UnpromotedSums (UnpromotedSums s') s)))
  end.
Proof.
  unfold RecordExecutedCleanup. cbv zeta.
  destruct (_ || _ || _ || _) eqn:Hack; [done|]. unbool.
  intros Hn. split; [by apply dec_stable|].
  destruct (if bool_decide (uc_RejectedBlockSeq cmd ≠ 0%N) then _ else _)
    as [[removed s1]|] eqn:Hr; [|done]. simpl in Hn.
  assert (s1 = set_IntakeParts (IntakeParts s1) (set_UnpromotedSums (UnpromotedSums s1) s)) as Hs1.
  { case_bool_decide; simplify_eq/=; [|by destruct s1].
    destruct (checkRejectedParts _ _ _ _) as [[]|]; simplify_eq/=. by eapply removeRejectedParts_frame. }
  clear Hr.
  assert (PromotedUnsafeParts s1 = PromotedUnsafeParts s) as Hp by (by rewrite Hs1).
  assert (OwedCleanupAcks s1 = OwedCleanupAcks s) as Ho by (by rewrite Hs1).
  unfold forgetPromotedParts in Hn |- *. rewrite Hp in Hn.
  assert (∀ m : gmap string CleanupAck, m !! cleanupAckKey ack = Some ack →
     m = <[cleanupAckKey ack := ack]> m) as Hid by (intros; by rewrite insert_id).
  repeat (case_bool_decide; simplify_eq/=);
    destruct removed; simplify_eq/=; rewrite ?Ho in *; try done;
    try rewrite <- Hid by done; rewrite Hs1; destruct s; simpl in *; by rewrite ?Ho.
Qed.

Lemma cleanup_next cmd ack s s' :
  next_of (CCleanup cmd ack) s = Some s' →
  let k := mkPartitionKey (uc_TableID cmd) (uc_PartitionID cmd) in
  s' = set_OwedCleanupAcks (<[cleanupAckKey ack := ack]> (OwedCleanupAcks s))
        (set_PromotedUnsafeParts
           (PromotedUnsafeParts (forgetPromotedParts k (pr_PartName <$> uc_Parts cmd) s).2)
        (set_IntakeParts (IntakeParts s') (set_UnpromotedSums (UnpromotedSums s') s))).
Proof.
  unfold next_of. cbn [txn_of]. destruct (RecordExecutedCleanup cmd ack s) as [[[] o]|] eqn:Hr; [|done].
  intros ->. by apply cleanup_txn in Hr as [_ Hr].
Qed.

Lemma next_intents cl s s' :
  next_of cl s = Some s' →
  PromotionIntents s' =
  match cl with
  | CBegin k intent => <[pkey k := intent]> (PromotionIntents s)
  | CSettled k seq _ _ _ =>
      if bool_decide (pi_PromotionSeq <$> PromotionIntents s !! pkey k = Some seq)
      then delete (pkey k) (PromotionIntents s) else PromotionIntents s
  | CApplied k _ _ _ _ _ _ => delete (pkey k) (PromotionIntents s)
  | _ => PromotionIntents s
  end.
Proof.
  intros Hn. destruct cl; try (open_txn Hn; done).
  - open_txn Hn; unbool; destruct (PromotionIntents s !! pkey k); simplify_eq/=; congruence.
  - by rewrite (cleanup_next _ _ _ _ Hn).
  - open_txn Hn. by rewrite record_rebuilt_frame.
Qed.

Lemma next_owed cl s s' :
  next_of cl s = Some s' →
  OwedCleanupAcks s' =
  match cl with
  | CCleanup _ ack => <[cleanupAckKey ack := ack]> (OwedCleanupAcks s)
  | CClear ack => delete (cleanupAckKey ack) (OwedCleanupAcks s)
  | _ => OwedCleanupAcks s
  end.
Proof.
  intros Hn. destruct cl; try (open_txn Hn; done).
  - by rewrite (cleanup_next _ _ _ _ Hn).
  - open_txn Hn. by rewrite record_rebuilt_frame.
Qed.

Lemma next_registration cl s s' :
  next_of cl s = Some s' →
  RegistrationSeq s' =
  match cl with
  | CRegister now => N.max (u64 (RegistrationSeq s + 1)) now
  | _ => RegistrationSeq s
  end.
Proof.
  intros Hn. destruct cl; try (open_txn Hn; done).
  - by rewrite (cleanup_next _ _ _ _ Hn).
  - open_txn Hn. by rewrite record_rebuilt_frame.
Qed.

Lemma next_promoted cl s s' :
  next_of cl s = Some s' →
  PromotedUnsafeParts s' =
  match cl with
  | CApplied k _ _ _ _ _ names =>
      if bool_decide (0 < length names)
      then <[pkey k := append_names (get_or [] (PromotedUnsafeParts s) (pkey k)) names]>
             (PromotedUnsafeParts s)
      else PromotedUnsafeParts s
  | CCleanup cmd _ =>
      PromotedUnsafeParts (forgetPromotedParts (mkPartitionKey (uc_TableID cmd) (uc_PartitionID cmd))
        (pr_PartName <$> uc_Parts cmd) s).2
  | CForget _ table => forget table (PromotedUnsafeParts s)
  | _ => PromotedUnsafeParts s
  end.
Proof.
  intros Hn. destruct cl; try (open_txn Hn; done).
  - by rewrite (cleanup_next _ _ _ _ Hn).
  - open_txn Hn. by rewrite record_rebuilt_frame.
Qed.

(** ** Keys *)
Lemma of_table_key table t p :
  free NUL table → free NUL t → of_table table (key t p) = true ↔ t = table.
Proof.
  intros Hf Ht. unfold of_table, table_prefix. split.
  - intros (r & Hr)%has_prefix_inv.
    assert (join NUL t p = join NUL table r) as Hj.
    { unfold key in Hr. rewrite Hr. unfold join. by rewrite str_app_assoc. }
    by apply join_inj in Hj as [? _].
  - intros ->. unfold key, join.
    change (String NUL p) with (String NUL EmptyString +:+ p).
    rewrite <- str_app_assoc. apply has_prefix_app.
Qed.

Lemma of_table_own k : of_table (pk_Table k) (pkey k) = true.
Proof.
  unfold of_table, table_prefix, pkey, key, join.
  change (String NUL (pk_Partition k)) with (String NUL EmptyString +:+ pk_Partition k).
  rewrite <- str_app_assoc. apply has_prefix_app.
Qed.

(** ** Unresolved intents *)
Lemma begin_next k intent s s' :
  next_of (CBegin k intent) s = Some s' →
  ∀ e, PromotionIntents s !! pkey k = Some e → promotionIntentCommandEqual e intent = true.
Proof. intros Hn e He. open_txn Hn; congruence. Qed.

Lemma CommandEqual_refl i : promotionIntentCommandEqual i i = true.
Proof. unfold promotionIntentCommandEqual. by rewrite !bool_decide_eq_true_2. Qed.

Lemma CommandEqual_spec a b :
  promotionIntentCommandEqual a b = true ↔
  pi_PromotionSeq a = pi_PromotionSeq b ∧ pi_BasePartitionRoot a = pi_BasePartitionRoot b ∧
  pi_PostPartitionRoot a = pi_PostPartitionRoot b ∧
  pi_BaseSafeSnapshotID a = pi_BaseSafeSnapshotID b ∧
  pi_CandidatePartHashes a = pi_CandidatePartHashes b ∧
  pi_UnsafePartNames a = pi_UnsafePartNames b.
Proof.
  unfold promotionIntentCommandEqual. rewrite !andb_true_iff, !bool_decide_eq_true. tauto.
Qed.

(** The command of an intent that is still unresolved. *)
Definition unresolved (k : partitionKey) (intent : promotionIntent) (s : localState) : Prop :=
  ∃ i, PendingPromotion s k = Some i ∧ promotionIntentCommandEqual i intent = true.

(** The calls that may resolve it: an applied promotion of the partition, or
    the settlement of this very promotion. *)
Definition resolves (k : partitionKey) (intent : promotionIntent) (cl : call) : Prop :=
  match cl with
  | CApplied k' _ _ _ _ _ _ => pkey k' = pkey k
  | CSettled k' seq _ _ _ => pkey k' = pkey k ∧ seq = pi_PromotionSeq intent
  | _ => False
  end.

Lemma unresolved_next k intent cl s s' :
  ¬ resolves k intent cl → unresolved k intent s → next_of cl s = Some s' → unresolved k intent s'.
Proof.
  intros Hr (i & Hi & Hc) Hn. unfold unresolved, PendingPromotion in *.
  rewrite (next_intents _ _ _ Hn). destruct cl as [k' i'|k' seq|k' seq|k'|k'| | | | | | | | |];
    simpl in Hr; try by eauto.
  - destruct (decide (pkey k' = pkey k)) as [Hk|Hk].
    + rewrite Hk, lookup_insert_eq. exists i'. split; [done|].
      pose proof (begin_next _ _ _ _ Hn i) as Hcmd. rewrite Hk in Hcmd. specialize (Hcmd Hi).
      apply CommandEqual_spec in Hc, Hcmd. apply CommandEqual_spec. naive_solver congruence.
    + rewrite lookup_insert_ne by done. eauto.
  - case_bool_decide as Hs; [|by eauto]. destruct (decide (pkey k' = pkey k)) as [Hk|Hk].
    + exfalso. rewrite Hk, Hi in Hs. simplify_eq/=. apply Hr. split; [done|].
      apply CommandEqual_spec in Hc. naive_solver.
    + rewrite lookup_delete_ne by done. eauto.
  - rewrite lookup_delete_ne by done. eauto.
Qed.

Lemma begin_ok k intent w c c1 :
  run (BeginPromotion k intent) w c = (Ok (), c1) →
  synced c ∨ PendingPromotion (c_mem c) k = None → cell_all (unresolved k intent) c1.
Proof.
  intros Hb Hc. unfold run, BeginPromotion, unresolved, PendingPromotion in *.
  assert (∀ s, ∃ i, PromotionIntents (set_PromotionIntents
    (<[pkey k := intent]> (PromotionIntents s)) s) !! pkey k = Some i ∧
    promotionIntentCommandEqual i intent = true) as Hnew.
  { intros s. exists intent. simpl. rewrite lookup_insert_eq. auto using CommandEqual_refl. }
  destruct (PromotionIntents (c_mem c) !! pkey k) as [e|] eqn:He.
  1: destruct (promotionIntentsEqual e intent) eqn:Heq.
  { simplify_eq/=. destruct Hc as [Hc|?]; [|done]. apply synced_all; [done|].
    exists e. split; [done|]. unfold promotionIntentsEqual in Heq. by apply andb_true_iff in Heq as [? _]. }
  1: destruct (promotionIntentCommandEqual e intent); [|done].
  all: destruct (persist _ _ _) as [ok c'] eqn:Hp;
    destruct (persist_cases _ _ _ _ _ Hp) as [[-> ->]|[-> _]]; [|done];
    injection Hb as <-; split_and!; apply Hnew.
Qed.

Lemma unresolved_closed k intent s :
  unresolved k intent s →
  ∃ ps, PromotedUnsafeParts_of s (pk_Table k) = Err (EUnresolved ps).
Proof.
  intros (i & Hi & _). unfold PromotedUnsafeParts_of.
  destruct (filter _ _) as [|p l] eqn:Hf; [|by eauto]. exfalso.
  assert (pkey k ∈ filter (λ ks, of_table (pk_Table k) ks) (elements (dom (PromotionIntents s)))) as Hin.
  { apply list_elem_of_filter. split; [by rewrite of_table_own|].
    apply elem_of_elements, elem_of_dom. by exists i. }
  rewrite Hf in Hin. by apply elem_of_nil in Hin.
Qed.

(** ** Promoted names *)
Lemma elem_of_append_names x existing names :
  x ∈ append_names existing names ↔ x ∈ existing ∨ (x ∈ names ∧ x ≠ EmptyString).
Proof.
  revert existing. induction names as [|p names IH]; intros existing; simpl; [set_solver|].
  destruct (_ || _) eqn:Hb; rewrite IH.
  - apply orb_true_iff in Hb as [Hb|Hb]; apply bool_decide_eq_true in Hb; set_solver.
  - apply orb_false_iff in Hb as [Hp Hn]. apply bool_decide_eq_false in Hp, Hn. set_solver.
Qed.

Definition excluded (k : partitionKey) (n : string) (s : localState) : Prop :=
  n ∈ get_or [] (PromotedUnsafeParts s) (pkey k).

(** The cleanup of the partition that names the part. *)
Definition cleans (k : partitionKey) (n : string) (cl : call) : Prop :=
  match cl with
  | CCleanup cmd _ => key (uc_TableID cmd) (uc_PartitionID cmd) = pkey k ∧ n ∈ pr_PartName <$> uc_Parts cmd
  | _ => False
  end.

Lemma has_promoted_in k n table s :
  excluded k n s → of_table table (pkey k) = true → has_promoted s table = true.
Proof.
  intros Hn Ht. apply bool_decide_eq_true, Exists_exists. unfold excluded, get_or in Hn.
  destruct (PromotedUnsafeParts s !! pkey k) as [parts|] eqn:Hp; [|by apply elem_of_nil in Hn].
  exists (pkey k, parts). split; [by apply elem_of_map_to_list|]. simpl. split; [by rewrite Ht|].
  destruct parts; [by apply elem_of_nil in Hn|simpl; lia].
Qed.

Lemma forgetPromotedParts_get k names s j :
  get_or [] (PromotedUnsafeParts (forgetPromotedParts k names s).2) j =
  if decide (pkey k = j) then filter (λ p, p ∉ names) (get_or [] (PromotedUnsafeParts s) j)
  else get_or [] (PromotedUnsafeParts s) j.
Proof.
  unfold forgetPromotedParts. set (old := get_or [] (PromotedUnsafeParts s) (pkey k)).
  case_bool_decide as Hlen; simpl.
  - case_decide as Hj; [|done]. subst j. fold old. symmetry. clear -Hlen.
    induction old as [|p l IH]; [done|]. rewrite filter_cons in *. case_decide.
    + f_equal. apply IH. simpl in Hlen. lia.
    + pose proof (length_filter (λ p, p ∉ names) l). simpl in Hlen. lia.
  - case_bool_decide as Hz; simpl.
    + unfold get_or at 1. case_decide as Hj.
      * subst j. rewrite lookup_delete_eq. simpl. fold old. by destruct (filter _ old).
      * by rewrite lookup_delete_ne.
    + rewrite get_or_insert. case_decide; [|done]. by subst j.
Qed.

Lemma excluded_next k n cl s s' :
  ¬ cleans k n cl → excluded k n s → next_of cl s = Some s' → excluded k n s'.
Proof.
  intros Hc Hx Hn. unfold excluded in *. pose proof (next_promoted _ _ _ Hn) as Hp.
  destruct cl; rewrite Hp; try done.
  - case_bool_decide; [|done]. rewrite get_or_insert. case_decide as Hk; [|done].
    rewrite Hk. apply elem_of_append_names. by left.
  - rewrite forgetPromotedParts_get. case_decide as Hk; [|done].
    apply list_elem_of_filter. split; [|done]. intros Hin. by apply Hc.
  - destruct (of_table table (pkey k)) eqn:Ht.
    + exfalso. pose proof (has_promoted_in _ _ _ _ Hx Ht) as Hpr.
      unfold next_of in Hn. cbn [txn_of] in Hn. unfold ForgetTable in Hn. rewrite Hpr in Hn.
      by destruct (has_intent s table).
    + unfold get_or, forget in *. destruct (PromotedUnsafeParts s !! pkey k) as [parts|] eqn:Hl;
        [|by apply elem_of_nil in Hx].
      rewrite map_lookup_filter, Hl. simpl. by rewrite option_guard_True.
Qed.

Lemma excluded_read k n s out :
  excluded k n s → PromotedUnsafeParts_of s (pk_Table k) = Ok out → n ∈ out.
Proof.
  intros Hx. unfold PromotedUnsafeParts_of. destruct (filter _ _); [|done]. intros [= <-].
  apply elem_of_sort_strings. unfold excluded, get_or in Hx.
  destruct (PromotedUnsafeParts s !! pkey k) as [parts|] eqn:Hp; [|by apply elem_of_nil in Hx].
  apply list_elem_of_join. exists parts. split; [done|]. apply list_elem_of_fmap.
  exists (pkey k, parts). split; [done|]. apply list_elem_of_filter. split.
  - simpl. by rewrite of_table_own.
  - by apply elem_of_map_to_list.
Qed.

(** ** Owed acknowledgements *)
Lemma elem_of_OwedCleanupAcks a s :
  a ∈ OwedCleanupAcks_of s ↔ ∃ ak, OwedCleanupAcks s !! ak = Some a.
Proof.
  unfold OwedCleanupAcks_of. rewrite list_elem_of_omap. split.
  - intros (ak & _ & Ha). eauto.
  - intros (ak & Ha). exists ak. split; [|done].
    apply elem_of_sort_strings, elem_of_elements, elem_of_dom. eauto.
Qed.

Lemma owedCleanupAckOf_none s table :
  owedCleanupAckOf s table = None ↔
  ∀ ak a, OwedCleanupAcks s !! ak = Some a → ca_TableID a ≠ table.
Proof.
  unfold owedCleanupAckOf. destruct (filter _ _) as [|a l] eqn:Hf; simpl.
  - split; [|done]. intros _ ak a Ha Ht. assert (a ∈ @nil CleanupAck) as Hin; [|by apply elem_of_nil in Hin].
    rewrite <- Hf. apply list_elem_of_filter. split; [done|]. apply elem_of_OwedCleanupAcks. eauto.
  - split; [done|]. intros Hall. exfalso.
    assert (a ∈ filter (λ a, ca_TableID a = table) (OwedCleanupAcks_of s)) as Hin by (rewrite Hf; set_solver).
    apply list_elem_of_filter in Hin as [Ht Hin]. apply elem_of_OwedCleanupAcks in Hin as [ak Ha].
    by eapply Hall.
Qed.

Definition owes (ack : CleanupAck) (s : localState) : Prop :=
  ∃ a, OwedCleanupAcks s !! cleanupAckKey ack = Some a ∧ ca_TableID a = ca_TableID ack.

(** Calls on NUL-free table ids that do not clear the acknowledgement. *)
Definition keeps_owed (ack : CleanupAck) (cl : call) : Prop :=
  match cl with
  | CClear a => cleanupAckKey a ≠ cleanupAckKey ack
  | CCleanup _ a => free NUL (ca_TableID a)
  | _ => True
  end.

Lemma cleanupAckKey_table a b :
  free NUL (ca_TableID a) → free NUL (ca_TableID b) →
  cleanupAckKey a = cleanupAckKey b → ca_TableID a = ca_TableID b.
Proof.
  intros Ha Hb. unfold cleanupAckKey, key, join. rewrite !str_app_assoc.
  intros Heq. change (?t +:+ String NUL ?p +:+ ?r) with (join NUL t (p +:+ r)) in Heq.
  by apply join_inj in Heq as [? _].
Qed.

Lemma owes_next ack cl s s' :
  free NUL (ca_TableID ack) → keeps_owed ack cl → owes ack s → next_of cl s = Some s' → owes ack s'.
Proof.
  intros Hf Hk (a & Ha & Ht) Hn. unfold owes. rewrite (next_owed _ _ _ Hn).
  destruct cl; try by eauto.
  - simpl in Hk. destruct (decide (cleanupAckKey ack0 = cleanupAckKey ack)) as [He|He].
    + rewrite He, lookup_insert_eq. exists ack0. split; [done|]. by apply cleanupAckKey_table.
    + rewrite lookup_insert_ne by done. eauto.
  - rewrite lookup_delete_ne by done. eauto.
Qed.

Lemma cleanup_ok cmd ack w c c1 :
  run (RecordExecutedCleanup cmd ack) w c = (Ok (), c1) →
  synced c ∨ OwedCleanupAcks (c_mem c) !! cleanupAckKey ack = None → cell_all (owes ack) c1.
Proof.
  intros Hr Hc. change (run (RecordExecutedCleanup cmd ack)) with (exec (CCleanup cmd ack)) in Hr.
  pose proof Hr as Hr'. unfold exec, run in Hr'. cbn [assigns_live txn_of] in Hr'.
  destruct (exec_cases _ _ _ _ _ Hr) as [[Hn ->]|(next & Hn & [[_ ->]|[? _]])]; [| |done].
  - assert (OwedCleanupAcks (c_mem c) !! cleanupAckKey ack = Some ack) as Ho.
    { unfold next_of in Hn. simpl in Hn.
      destruct (RecordExecutedCleanup cmd ack (c_mem c)) as [[[] o]|] eqn:Ht; [|done].
      subst o. by apply cleanup_txn in Ht as [_ ?]. }
    destruct Hc as [Hc|Hc]; [|congruence]. apply synced_all; [done|]. by exists ack.
  - assert (owes ack next) as Ho; [|by split_and!].
    unfold owes. rewrite (next_owed _ _ _ Hn), lookup_insert_eq. eauto.
Qed.

Lemma owes_closed ack sums s :
  owes ack s → quiescent sums (ca_TableID ack) s ≠ Ok true ∧
  ∃ e, ForgetTable sums (ca_TableID ack) s = Err e.
Proof.
  intros (a & Ha & Ht). assert (owedCleanupAckOf s (ca_TableID ack) ≠ None) as Ho.
  { rewrite owedCleanupAckOf_none. intros Hall. by eapply Hall. }
  unfold quiescent, ForgetTable.
  set (t := ca_TableID ack) in *.
  destruct (has_intent s t), (has_promoted s t), (sums_zero t sums) as [[]|]; simpl; try by eauto.
  rewrite bool_decide_eq_false_2, bool_decide_eq_true_2 by done. eauto.
Qed.

End histories.

(** ** Properties *)


(** C14: A promoted part stays excluded until its cleanup ran. After
    RecordAppliedPromotion succeeded, every unsafe part name it was given stays in
    the exclusion list that unsafe_latest reads return for the table, in memory
    and in every state a restart can read, through every history that contains no
    executed cleanup of the partition naming that part; a table with such a part
    cannot be forgotten. *)
Theorem promoted_part_stays_excluded `{LtHash} k seq ack root snapshot hashes names n w c c1 c2 :
  run (RecordAppliedPromotion k seq ack root snapshot hashes names) w c = (Ok (), c1) →
  n ∈ names → n ≠ EmptyString →
  rtc (step (λ cl, ¬ cleans k n cl)) c1 c2 →
  cell_all (λ s, ∀ out, PromotedUnsafeParts_of s (pk_Table k) = Ok out → n ∈ out) c2.
Proof.
  intros Hr Hin Hne Hs.
  assert (cell_all (excluded k n) c1) as Hall.
  { change (run _) with (exec (CApplied k seq ack root snapshot hashes names)) in Hr.
    destruct (exec_cases _ _ _ _ _ Hr) as [[Hn _]|(next & Hn & [[_ ->]|[? _]])]; [exfalso| |done].
    - unfold exec, run in Hr. unfold next_of in Hn. simpl in *.
      unfold RecordAppliedPromotion in *. cbv zeta in *.
      by destruct (rbind _ _) as [[[] [?|]]|] eqn:Hb; go_inv.
    - assert (excluded k n next) as Hx; [|by split_and!].
      unfold excluded. rewrite (next_promoted _ _ _ Hn). rewrite bool_decide_eq_true_2.
      + rewrite get_or_insert, decide_True by done. apply elem_of_append_names. by right.
      + destruct names; [by apply elem_of_nil in Hin|simpl; lia]. }
  pose proof (steps_inv _ (excluded k n) _ _ (λ cl s s' HA HP Hn,
    excluded_next _ _ _ _ _ HA HP Hn) Hall Hs) as (H1 & H2 & H3).
  split_and!; eauto using excluded_read.
Qed.


(** ** Witnesses *)
Import Lane16.

Definition ex_key : partitionKey := mkPartitionKey "db.t" "p0".
Definition ex_intent : promotionIntent := mkIntent 4 "" (hex 5) "s0" [hex 5] ["all_1_1_0"%string] [].
Definition ex_ack : PromotionAck :=
  mkPromotionAck "n" 4 "db.t" "p0" (hex 5) [] [mkMapping (hex 5) "all_9" "ph"] true "".
Definition ex_cleanup : UnsafeCleanup :=
  mkCleanup "db.t" "p0" 4 [mkPartRef "db.t" "p0" (hex 5) "all_1_1_0"] 0.
Definition ex_cleanup_ack : CleanupAck := mkCleanupAck "n" 4 "db.t" "p0" 0.


Definition ex_promoted : cell localState :=
  (run (RecordAppliedPromotion ex_key 4 ex_ack (hex 5) "s1" [hex 5] ["all_1_1_0"%string]) write_ok
     (run (AddUnpromotedPart ex_key "all_1_1_0" (hex 5)) write_ok fresh).2).2.

Lemma promoted_part_stays_excluded_witness :
  PromotedUnsafeParts_of (c_mem (restart true ex_promoted)) "db.t" = Ok ["all_1_1_0"%string] ∧
  "all_1_1_0"%string ∈ ["all_1_1_0"%string].
Proof.
  assert (PromotedUnsafeParts_of (c_mem (restart true ex_promoted)) "db.t" = Ok ["all_1_1_0"%string])
    as Hread by (vm_compute; reflexivity).
  split; [exact Hread|].
  refine (proj1 (promoted_part_stays_excluded ex_key 4 ex_ack (hex 5) "s1" [hex 5] ["all_1_1_0"%string]
    "all_1_1_0" write_ok (run (AddUnpromotedPart ex_key "all_1_1_0" (hex 5)) write_ok fresh).2
    ex_promoted (restart true ex_promoted) _ _ _ _) _ Hread).
  - vm_compute. reflexivity.
  - constructor.
  - discriminate.
  - apply rtc_once, step_restart.
Defined.

