(* ===== verification/StateStoreLedger.v ===== *)
(** * The SNode ledger: accounting, the purge gate, forgetting and rebuilding

    More properties of [StateStore], with the histories of [StateStoreProofs]:
    the unpromoted sums are always readable, the gate and ForgetTable decide
    exactly what they say, registration numbers never repeat, the unpromoted
    sums balance the intake records against what was promoted, and the writes
    of the clone-building methods are atomic. *)
From S2P Require Import Prelude LtHash Types StateStore StateStoreProofs.
Import StateStore.

Section ledger.
Context `{LtHash, !LtHashLaws}.
Implicit Types (s : localState) (c : cell localState) (cl : call) (k : partitionKey).

(** ** Readable sums *)
Definition sums_read (s : localState) : Prop :=
  ∀ ks v, UnpromotedSums s !! ks = Some v → ∃ a, parseAccumulatorHex v = Some a.

Lemma set_sum_read ks a s : sums_read s → sums_read (set_sum ks a s).
Proof.
  intros Hs ks' v. simpl. rewrite lookup_insert. case_decide; [|apply Hs].
  intros [= <-]. eauto using parse_accumulatorHex.
Qed.

Lemma removeRejectedParts_read k parts b s b' s' :
  sums_read s → removeRejectedParts k parts b s = Ok (b', s') → sums_read s'.
Proof.
  revert b s. induction parts as [|p parts IH]; intros b s Hs Hr; simpl in Hr; [by simplify_eq|].
  repeat case_match; simplify_eq/=; eauto; go_inv; (eapply IH; [|exact Hr]);
    by apply (set_sum_read (pkey k) _ s).
Qed.

Lemma forget_read table s : sums_read s → sums_read (forget_all table s).
Proof.
  intros Hs ks v. simpl. unfold forget. rewrite map_lookup_filter_Some. intros [Hv _]. by eapply Hs.
Qed.

Lemma sums_read_next cl s s' : sums_read s → next_of cl s = Some s' → sums_read s'.
Proof.
  intros Hs Hn. destruct cl; try (open_txn Hn; first [done | by apply (set_sum_read _ _ s)]).
  - unfold next_of in Hn. cbn [txn_of] in Hn. unfold RecordExecutedCleanup in Hn. cbv zeta in Hn.
    destruct (_ || _ || _ || _); [done|].
    destruct (if bool_decide (uc_RejectedBlockSeq cmd ≠ 0%N) then _ else _)
      as [[removed s1]|] eqn:Hr; [|done]. simpl in Hn.
    assert (sums_read s1) as H1.
    { case_bool_decide; simplify_eq/=; [|done].
      destruct (checkRejectedParts _ _ _ _) as [[]|]; simplify_eq/=.
      by eapply removeRejectedParts_read. }
    clear Hr. unfold forgetPromotedParts in Hn.
    repeat (case_bool_decide; simplify_eq/=); destruct removed; simplify_eq/=; done.
  - open_txn Hn. by apply forget_read.
  - open_txn Hn. by rewrite record_rebuilt_frame.
Qed.

(** ** The gate *)
Lemma sums_zero_list table (sums : list (string * string)) :
  Forall (λ kv, ∃ a, parseAccumulatorHex kv.2 = Some a) sums →
  ∃ b, sums_zero table sums = Ok b ∧
    (b = true ↔ ∀ kv, kv ∈ sums → of_table table kv.1 = true → parseAccumulatorHex kv.2 = Some lt_new).
Proof.
  induction 1 as [|[ks v] sums [a Ha] _ (b & Hb & IH)]; simpl in *.
  { exists true. split; [done|]. split; [|done]. intros _ kv Hin. by apply elem_of_nil in Hin. }
  setoid_rewrite elem_of_cons. destruct (of_table table ks) eqn:Ht; simpl.
  - rewrite Ha. simpl. case_bool_decide as Hz.
    + exists false. split; [done|]. split; [done|]. intros Hall. exfalso. apply Hz.
      specialize (Hall (ks, v) (or_introl eq_refl) Ht). simpl in Hall. congruence.
    + exists b. split; [done|]. rewrite IH. split.
      * intros Hall kv [->|Hin]; [|by apply Hall]. simpl. intros _. rewrite Ha. f_equal.
        apply (inj Some). by rewrite <- !lt_from_bytes_bytes, Hz.
      * intros Hall kv Hin. apply Hall. by right.
  - exists b. split; [done|]. rewrite IH. split.
    + intros Hall kv [->|Hin]; [simpl; congruence|by apply Hall].
    + intros Hall kv Hin. apply Hall. by right.
Qed.

Lemma sums_zero_exact table sums s :
  sums_read s → sums ≡ₚ map_to_list (UnpromotedSums s) →
  ∃ b, sums_zero table sums = Ok b ∧
    (b = true ↔ ∀ ks, of_table table ks = true →
       parseAccumulatorHex (get_or "" (UnpromotedSums s) ks) = Some lt_new).
Proof.
  intros Hr Hp. destruct (sums_zero_list table sums) as (b & Hb & Hiff).
  { rewrite Hp. apply Forall_forall. intros [ks v] Hin. rewrite elem_of_map_to_list in Hin.
    by eapply Hr. }
  exists b. split; [done|]. rewrite Hiff. setoid_rewrite Hp. split.
  - intros Hall ks Ht. unfold get_or. destruct (UnpromotedSums s !! ks) as [v|] eqn:Hv; [|done].
    apply (Hall (ks, v)); [by apply elem_of_map_to_list|done].
  - intros Hall [ks v] Hin Ht. rewrite elem_of_map_to_list in Hin. specialize (Hall ks Ht).
    unfold get_or in Hall. by rewrite Hin in Hall.
Qed.

Lemma has_intent_false s table :
  has_intent s table = false ↔ ∀ ks, of_table table ks = true → PromotionIntents s !! ks = None.
Proof.
  unfold has_intent. rewrite bool_decide_eq_false, Exists_exists. split.
  - intros Hn ks Ht. apply eq_None_not_Some. intros Hs. apply Hn. exists ks.
    rewrite elem_of_elements, elem_of_dom. by rewrite Ht.
  - intros Hall (ks & Hin & Ht). rewrite elem_of_elements, elem_of_dom in Hin.
    apply Is_true_true in Ht. rewrite (Hall _ Ht) in Hin. by destruct Hin.
Qed.

Lemma has_promoted_false s table :
  has_promoted s table = false ↔
  ∀ ks, of_table table ks = true → get_or [] (PromotedUnsafeParts s) ks = [].
Proof.
  unfold has_promoted. rewrite bool_decide_eq_false, Exists_exists. split.
  - intros Hn ks Ht. unfold get_or. destruct (PromotedUnsafeParts s !! ks) as [[|p ps]|] eqn:Hp; try done.
    destruct Hn. exists (ks, p :: ps). rewrite elem_of_map_to_list. simpl. rewrite Ht.
    split; [done|]. split; [done|lia].
  - intros Hall ([ks ps] & Hin & Ht & Hl). rewrite elem_of_map_to_list in Hin. simpl in *.
    apply Is_true_true in Ht. specialize (Hall _ Ht). unfold get_or in Hall. rewrite Hin in Hall.
    simpl in Hall. subst. simpl in Hl. lia.
Qed.

(** What the gate promises: no unresolved intent, no promoted part awaiting
    cleanup, no unpromoted rows, no cleanup acknowledgement owed. *)
Definition table_idle (table : string) (s : localState) : Prop :=
  (∀ ks, of_table table ks = true →
     PromotionIntents s !! ks = None ∧ get_or [] (PromotedUnsafeParts s) ks = [] ∧
     parseAccumulatorHex (get_or "" (UnpromotedSums s) ks) = Some lt_new) ∧
  (∀ ak a, OwedCleanupAcks s !! ak = Some a → ca_TableID a ≠ table).

Lemma quiescent_spec sums table s :
  sums_read s → sums ≡ₚ map_to_list (UnpromotedSums s) →
  ∃ b, quiescent sums table s = Ok b ∧ (b = true ↔ table_idle table s).
Proof.
  intros Hr Hp. destruct (sums_zero_exact table _ _ Hr Hp) as (z & Hz & Hzi).
  unfold quiescent, table_idle. rewrite Hz. setoid_rewrite <- owedCleanupAckOf_none. simpl.
  destruct (has_intent s table) eqn:Hi.
  { exists false. split; [done|]. split; [done|]. intros [Hall _].
    rewrite (proj2 (has_intent_false s table)) in Hi; [done|]. intros ks Ht. by apply Hall. }
  destruct (has_promoted s table) eqn:Hpr.
  { exists false. split; [done|]. split; [done|]. intros [Hall _].
    rewrite (proj2 (has_promoted_false s table)) in Hpr; [done|]. intros ks Ht. by apply Hall. }
  destruct z; simpl.
  - rewrite has_intent_false in Hi. rewrite has_promoted_false in Hpr.
    eexists. split; [done|]. rewrite bool_decide_eq_true. split; [|by intros [_ ?]].
    intros Ho. split; [|done]. intros ks Ht. rewrite Hi, Hpr by done. by rewrite (proj1 Hzi).
  - exists false. split; [done|]. split; [done|]. intros [Hall _]. apply Hzi. intros ks Ht. by apply Hall.
Qed.

Lemma ForgetTable_quiescent sums table s :
  quiescent sums table s = Ok true ↔ ∃ o, ForgetTable sums table s = Ok ((), o).
Proof.
  unfold quiescent, ForgetTable.
  destruct (has_intent s table), (has_promoted s table), (sums_zero table sums) as [[]|]; simpl;
    repeat case_bool_decide; split; try done; try (by intros [? ?]); intros; eauto; by congruence.
Qed.

(** ** Forgetting *)
Lemma forget_lookup {V} table (m : gmap string V) ks :
  forget table m !! ks = if of_table table ks then None else m !! ks.
Proof.
  unfold forget. rewrite map_lookup_filter. destruct (m !! ks); simpl; [|by case_match].
  by destruct (of_table table ks).
Qed.

Lemma forgets_false {V} table (m : gmap string V) : forgets table m = false → forget table m = m.
Proof.
  unfold forgets. rewrite bool_decide_eq_false, Exists_exists. intros Hn.
  apply map_eq. intros ks. rewrite forget_lookup. destruct (of_table table ks) eqn:Ht; [|done].
  symmetry. apply eq_None_not_Some. intros Hs. apply Hn. exists ks.
  rewrite elem_of_elements, elem_of_dom. by rewrite Ht.
Qed.

Lemma forget_txn sums table s o :
  ForgetTable sums table s = Ok ((), o) → default s o = forget_all table s.
Proof.
  unfold ForgetTable. intros Hf. go_inv. simplify_eq/=.
  match goal with |- context [if ?b then _ else _] => destruct b eqn:Hch end; [done|].
  simpl. unbool. unfold forget_all.
  repeat match goal with H : forgets _ _ = false |- _ => apply forgets_false in H; rewrite H end.
  by destruct s.
Qed.

(** ** Accounting *)

(** The accumulator a journaled hash stands for. *)
Definition hash_val (v : string) : lthash := default lt_new (parseAccumulatorHex v).

(** The sum of the records whose key satisfies [P]. *)
Definition msum (P : string → bool) (m : gmap string string) : lthash :=
  lt_sum ((λ kv, hash_val kv.2) <$> map_to_list (filter (λ kv, P kv.1 = true) m)).

Lemma msum_insert_new P m i x :
  m !! i = None → msum P (<[i := x]> m) = if P i then lt_add (hash_val x) (msum P m) else msum P m.
Proof.
  intros Hi. unfold msum. destruct (P i) eqn:HP.
  - rewrite map_filter_insert_True by done. rewrite map_to_list_insert; [done|].
    apply map_lookup_filter_None. by left.
  - rewrite map_filter_insert_not'; [done| |]; simpl; intros; congruence.
Qed.

Lemma msum_update P m i x :
  P i = true →
  lt_add (msum P (<[i := x]> m)) (hash_val (get_or "" m i)) = lt_add (msum P m) (hash_val x).
Proof.
  intros HP. unfold get_or. rewrite <- insert_delete_eq.
  rewrite msum_insert_new by apply lookup_delete_eq. rewrite HP.
  destruct (m !! i) as [y|] eqn:Hy; simpl.
  - rewrite <- (insert_delete_id m i y) at 2 by done.
    rewrite msum_insert_new by apply lookup_delete_eq. rewrite HP.
    rewrite !(lt_add_comm _ (msum P (delete i m))), <- !lt_add_assoc. f_equal. apply lt_add_comm.
  - rewrite delete_id by done. change (hash_val "") with lt_new. rewrite lt_add_new. apply lt_add_comm.
Qed.

Lemma msum_other P m i x : P i = false → msum P (<[i := x]> m) = msum P m.
Proof.
  intros HP. unfold msum. do 3 f_equal. apply map_eq. intros j.
  rewrite !map_lookup_filter, lookup_insert. case_decide as Hj; [|done]. subst j.
  destruct (m !! i); simpl; by rewrite HP.
Qed.

Definition part_of (k : partitionKey) (ks : string) : bool :=
  has_prefix (pkey k +:+ String NUL EmptyString) ks.

Definition intake_total (k : partitionKey) (s : localState) : lthash :=
  msum (part_of k) (IntakeParts s).

Definition key_wf (k : partitionKey) : Prop := free NUL (pk_Table k) ∧ free NUL (pk_Partition k).

Lemma part_of_intake k k' n :
  key_wf k → key_wf k' → part_of k (intakePartKey k' n) = true ↔ k = k'.
Proof.
  intros [Ht Hp] [Ht' Hp']. unfold part_of, intakePartKey. split.
  - intros (r & Hr)%has_prefix_inv. unfold pkey, key, join in Hr. rewrite !str_app_assoc in Hr.
    change (?t +:+ String NUL ?x +:+ ?y) with (join NUL t (x +:+ y)) in Hr.
    apply join_inj in Hr as [H1 Hr]; [|done..].
    change (?t +:+ String NUL ?x) with (join NUL t x) in Hr.
    change (?t +:+ String NUL "" +:+ ?x) with (join NUL t x) in Hr.
    apply join_inj in Hr as [H2 _]; [|done..]. destruct k, k'; simpl in *; congruence.
  - intros <-. unfold join. change (String NUL n) with (String NUL "" +:+ n).
    rewrite <- str_app_assoc. apply has_prefix_app.
Qed.

Lemma part_of_table k table ks :
  key_wf k → free NUL table → part_of k ks = true → of_table table ks = true → pk_Table k = table.
Proof.
  intros [Ht Hp] Hf (r & ->)%has_prefix_inv. unfold pkey, key, join. rewrite !str_app_assoc.
  change (?t +:+ String NUL ?x +:+ ?y) with (key t (x +:+ y)). by rewrite of_table_key.
Qed.

Lemma part_of_own_table k ks : part_of k ks = true → of_table (pk_Table k) ks = true.
Proof.
  intros (r & ->)%has_prefix_inv. unfold pkey, key, join, of_table, table_prefix. rewrite !str_app_assoc.
  change (String NUL ?x +:+ ?y) with (String NUL "" +:+ (x +:+ y)). rewrite <- str_app_assoc.
  apply has_prefix_app.
Qed.

Lemma pkey_inj k k' : key_wf k → key_wf k' → pkey k = pkey k' → k = k'.
Proof.
  intros [Ht _] [Ht' _] Heq. apply join_inj in Heq as [??]; [|done..]. destruct k, k'; simpl in *; congruence.
Qed.

Definition sum_val (k : partitionKey) (s : localState) : lthash :=
  hash_val (get_or "" (UnpromotedSums s) (pkey k)).

(** The unpromoted sum of every partition is what its intake records hold,
    less what [g] says was taken out. *)
Definition booked (s : localState) (g : partitionKey → lthash) : Prop :=
  ∀ k, key_wf k → lt_add (sum_val k s) (g k) = intake_total k s.

(** The calls of intake, promotion, cleanup and forgetting, on NUL-free ids
    (AddUnpromoted and DrainUnpromoted, which no caller uses, keep no records). *)
Definition call_wf (cl : call) : Prop :=
  match cl with
  | CApplied k _ _ _ _ _ _ | CAddPart k _ _ | CRemovePart k _ _ => key_wf k
  | CCleanup cmd _ => key_wf (mkPartitionKey (uc_TableID cmd) (uc_PartitionID cmd))
  | CForget _ table => free NUL table
  | CAdd _ _ | CDrain _ _ => False
  | _ => True
  end.

(** What a call takes out of the sums without touching a record: the rows an
    applied promotion moved to hg_safe, and an abort of a part intake never
    recorded. Forgetting a table closes its account. *)
Definition take_out (cl : call) (s : localState) (g : partitionKey → lthash)
    : partitionKey → lthash := fun k =>
  match cl with
  | CApplied k' _ _ _ _ hashes _ =>
      if bool_decide (k' = k) then lt_add (g k) (lt_sum (hash_val <$> hashes)) else g k
  | CRemovePart k' name hash =>
      if bool_decide (k' = k) && bool_decide (IntakeParts s !! intakePartKey k' name = None)
      then lt_add (g k) (hash_val hash) else g k
  | CForget _ table => if bool_decide (pk_Table k = table) then lt_new else g k
  | _ => g k
  end.

Lemma sum_val_set k k' a s :
  key_wf k → key_wf k' → sum_val k (set_sum (pkey k') a s) = if decide (k' = k) then a else sum_val k s.
Proof.
  intros Hk Hk'. unfold sum_val, set_sum. simpl. rewrite get_or_insert. repeat case_decide; subst; try done.
  - unfold hash_val. by rewrite parse_accumulatorHex.
  - exfalso. auto using pkey_inj.
Qed.

Lemma sum_at_val s k a : sum_at s (pkey k) = Ok a → sum_val k s = a.
Proof. unfold sum_at, sum_val, hash_val. intros Ha%of_option_ok. by rewrite Ha. Qed.

Lemma mapM_hash_val hexes hs : mapM parseAccumulatorHex hexes = Some hs → hs = hash_val <$> hexes.
Proof.
  intros Hm%mapM_Some_1. induction Hm as [|x h hexes hs Hx _ IH]; [done|].
  rewrite fmap_cons, <- IH. unfold hash_val. by rewrite Hx.
Qed.

(** Moving one record of [k] from its old hash to [x], and the sum with it. *)
Lemma intake_total_set k k' name x s :
  key_wf k → key_wf k' →
  lt_add (intake_total k (set_intake (intakePartKey k' name) x s))
    (if decide (k' = k) then hash_val (get_or "" (IntakeParts s) (intakePartKey k' name)) else lt_new) =
  lt_add (intake_total k s) (if decide (k' = k) then hash_val x else lt_new).
Proof.
  intros Hk Hk'. unfold intake_total. simpl. case_decide as He.
  - subst. apply msum_update. by apply part_of_intake.
  - rewrite msum_other; [done|]. apply not_true_iff_false. rewrite part_of_intake by done. congruence.
Qed.

Lemma booked_frame s s' g :
  UnpromotedSums s' = UnpromotedSums s → IntakeParts s' = IntakeParts s → booked s g → booked s' g.
Proof. intros Hu Hi Hb k Hk. unfold sum_val, intake_total. rewrite Hu, Hi. by apply Hb. Qed.

(** Booking a record in (from [old] to [x]) with the matching change [a] of the sum. *)
Lemma booked_move s g k name x a :
  key_wf k → booked s g →
  lt_add a (hash_val (get_or "" (IntakeParts s) (intakePartKey k name))) = lt_add (sum_val k s) (hash_val x) →
  booked (set_intake (intakePartKey k name) x (set_sum (pkey k) a s)) g.
Proof.
  intros Hk Hb Ha j Hj. pose proof (intake_total_set j k name x (set_sum (pkey k) a s) Hj Hk) as Ht.
  specialize (Hb j Hj). change (sum_val j (set_intake ?i ?x ?s)) with (sum_val j s).
  rewrite sum_val_set by done.
  change (intake_total j (set_sum (pkey k) a s)) with (intake_total j s) in Ht.
  change (IntakeParts (set_sum (pkey k) a s)) with (IntakeParts s) in Ht.
  case_decide as He; [subst|].
  - apply (lt_add_cancel_r _ _ (hash_val (get_or "" (IntakeParts s) (intakePartKey j name)))).
    rewrite Ht, <- Hb, lt_add_swap, Ha, lt_add_swap. done.
  - rewrite !lt_add_new in Ht. by rewrite Ht.
Qed.

Lemma booked_add k name hash s s' g :
  key_wf k → booked s g → next_of (CAddPart k name hash) s = Some s' → booked s' g.
Proof.
  intros Hk Hb Hn. open_txn Hn.
  match goal with H : sum_at _ _ = Ok ?a, H' : parseAccumulatorHex _ = Some ?p,
    Hl : IntakeParts s !! _ = None |- _ =>
    apply sum_at_val in H; apply booked_move; [done|done|]; unfold get_or; rewrite Hl, H;
    unfold hash_val; rewrite H' end.
  simpl. by rewrite lt_add_new.
Qed.

Lemma booked_ext s g g' : (∀ k, g k = g' k) → booked s g → booked s g'.
Proof. intros Hg Hb k Hk. rewrite <- Hg. by apply Hb. Qed.

(** Taking [out] from the sum and charging it to [g]. *)
Lemma booked_charge s g k a out :
  key_wf k → booked s g → lt_add a out = sum_val k s →
  booked (set_sum (pkey k) a s) (λ j, if bool_decide (k = j) then lt_add (g j) out else g j).
Proof.
  intros Hk Hb Ha j Hj. specialize (Hb j Hj). rewrite sum_val_set by done.
  change (intake_total j (set_sum (pkey k) a s)) with (intake_total j s). rewrite <- Hb.
  case_bool_decide; case_decide; try done. subst.
  by rewrite (lt_add_comm (g j)), lt_add_assoc, Ha.
Qed.

Lemma booked_remove k name hash s s' g :
  key_wf k → booked s g → next_of (CRemovePart k name hash) s = Some s' →
  booked s' (take_out (CRemovePart k name hash) s g).
Proof.
  intros Hk Hb Hn. unfold next_of in Hn. cbn [txn_of] in Hn. unfold RemoveUnpromotedPart in Hn.
  cbv zeta in Hn. case_bool_decide as Hempty; [done|].
  destruct (IntakeParts s !! intakePartKey k name) as [p|] eqn:Hl.
  - case_bool_decide as Hp; simpl in Hn; [done|]. subst p.
    destruct (sum_at s (pkey k)) as [acc|] eqn:Hacc; [|done].
    destruct (parseAccumulatorHex hash) as [part|] eqn:Hpart; [|done]. simplify_eq/=.
    apply (booked_ext _ g). { intros j. simpl. rewrite Hl. by rewrite andb_false_r. }
    apply booked_move; [done|done|]. apply sum_at_val in Hacc. unfold get_or. rewrite Hl, Hacc. simpl.
    unfold hash_val. rewrite Hpart. simpl. by rewrite lt_add_sub, lt_add_new.
  - destruct (sum_at s (pkey k)) as [acc|] eqn:Hacc; [|done].
    destruct (parseAccumulatorHex hash) as [part|] eqn:Hpart; [|done]. simplify_eq/=.
    apply sum_at_val in Hacc.
    assert (∀ h, booked h (take_out (CRemovePart k name hash) s g) ↔ booked h (λ j,
      if bool_decide (k = j) then lt_add (g j) part else g j)) as ->.
    { intros h. split; apply booked_ext; intros j; simpl; rewrite Hl, andb_true_r;
        unfold hash_val; by rewrite Hpart. }
    pose proof (booked_charge s g k (lt_sub acc part) part Hk Hb) as Hc. rewrite Hacc, lt_add_sub in Hc.
    specialize (Hc eq_refl). set (s1 := set_sum (pkey k) (lt_sub acc part) s) in *.
    intros j Hj. specialize (Hc j Hj). cbv beta in Hc |- *.
    change (sum_val j (set_intake _ _ s1)) with (sum_val j s1). rewrite Hc.
    pose proof (intake_total_set j k name "" s1 Hj Hk) as Ht.
    change (IntakeParts s1) with (IntakeParts s) in Ht. unfold get_or in Ht. rewrite Hl in Ht.
    change (hash_val (default "" None)) with lt_new in Ht. change (hash_val "") with lt_new in Ht.
    destruct (decide (k = j)); rewrite !lt_add_new in Ht; done.
Qed.

Lemma booked_applied k seq ack root snapshot hashes names s s' g :
  key_wf k → booked s g → next_of (CApplied k seq ack root snapshot hashes names) s = Some s' →
  booked s' (take_out (CApplied k seq ack root snapshot hashes names) s g).
Proof.
  intros Hk Hb Hn. unfold next_of in Hn. cbn [txn_of] in Hn. unfold RecordAppliedPromotion in Hn.
  cbv zeta in Hn. destruct (sum_at s (pkey k)) as [acc|] eqn:Hacc; [|done]. simpl in Hn.
  destruct (sub_hexes acc hashes) as [r|] eqn:Hr; [|done]. simpl in Hn. injection Hn as <-.
  apply sub_hexes_sum in Hr as (hs & Hm & ->). apply mapM_hash_val in Hm as ->.
  apply sum_at_val in Hacc. symmetry in Hacc. pose proof (booked_charge _ _ _ _ _ Hk Hb Hacc) as Hc.
  revert Hc. apply booked_frame; unfold recordAckedSafeInventory; repeat case_match; done.
Qed.

(** A command whose check passed names each recorded part with its hash. *)
Definition described (k : partitionKey) (parts : list PartRef) (s : localState) : Prop :=
  ∀ p, p ∈ parts → ∀ v, IntakeParts s !! intakePartKey k (pr_PartName p) = Some v →
    v = EmptyString ∨ v = pr_PartRowLtHash p.

Lemma check_parts_described s k parts : check_parts s k parts = Ok () → described k parts s.
Proof.
  induction parts as [|p parts IH]; intros Hc q Hin; [by apply elem_of_nil in Hin|].
  simpl in Hc. go_inv. rewrite elem_of_cons in Hin. destruct Hin as [->|Hin]; [|by apply IH].
  intros v Hv. rewrite Hv in *. destruct (decide (v = EmptyString)); [by left|].
  destruct (decide (v = pr_PartRowLtHash p)); [by right|].
  rewrite !bool_decide_eq_true_2 in * by done. done.
Qed.

Lemma booked_reject k parts b s b' s' g :
  key_wf k → described k parts s → booked s g →
  removeRejectedParts k parts b s = Ok (b', s') → booked s' g.
Proof.
  intros Hk. revert b s. induction parts as [|p parts IH]; intros b s Hd Hb Hr; simpl in Hr.
  { by simplify_eq. }
  assert (∀ s1, described k (p :: parts) s1 → described k parts s1) as Htl.
  { intros s1 Hs1 q Hq. apply Hs1. set_solver. }
  destruct (IntakeParts s !! intakePartKey k (pr_PartName p)) as [v|] eqn:Hv; [|by eapply IH; eauto].
  destruct (decide (v = EmptyString)) as [->|Hne]; [by eapply IH; eauto|].
  destruct (Hd p (list_elem_of_here _ _) v Hv) as [?|Hp]; [done|].
  destruct v as [|x v]; [done|]. go_inv.
  match goal with H : sum_at _ _ = Ok _ |- _ => apply sum_at_val in H; rename H into Hacc end.
  match goal with H : parseAccumulatorHex _ = Some _ |- _ => rename H into Hpart end.
  eapply IH; [| |exact Hr].
  - apply Htl. intros q Hq u. simpl. rewrite lookup_insert. case_decide; [intros [= <-]; by left|].
    by apply Hd.
  - apply booked_move; [done|done|]. unfold get_or. rewrite Hv, Hacc. simpl. rewrite Hp.
    unfold hash_val. rewrite Hpart. simpl. by rewrite lt_add_sub, lt_add_new.
Qed.

Lemma booked_cleanup cmd ack s s' g :
  key_wf (mkPartitionKey (uc_TableID cmd) (uc_PartitionID cmd)) → booked s g →
  next_of (CCleanup cmd ack) s = Some s' → booked s' g.
Proof.
  intros Hk Hb Hn. unfold next_of in Hn. cbn [txn_of] in Hn. unfold RecordExecutedCleanup in Hn.
  cbv zeta in Hn. destruct (_ || _ || _ || _); [done|].
  destruct (if bool_decide (uc_RejectedBlockSeq cmd ≠ 0%N) then _ else _)
    as [[removed s1]|] eqn:Hr; [|done]. simpl in Hn.
  assert (booked s1 g) as H1.
  { case_bool_decide; simplify_eq/=; [|done].
    destruct (checkRejectedParts _ _ _ _) as [[]|] eqn:Hchk; simplify_eq/=.
    eapply booked_reject; [done| |done|exact Hr]. apply check_parts_described.
    unfold checkRejectedParts in Hchk. by case_bool_decide. }
  clear Hr. revert H1. unfold forgetPromotedParts in Hn.
  repeat (case_bool_decide; simplify_eq/=); destruct removed; simplify_eq/=; by apply booked_frame.
Qed.

Lemma booked_forget sums table s s' g :
  free NUL table → booked s g → next_of (CForget sums table) s = Some s' →
  booked s' (take_out (CForget sums table) s g).
Proof.
  intros Hf Hb Hn. unfold next_of in Hn. cbn [txn_of] in Hn.
  destruct (ForgetTable sums table s) as [[[] o]|] eqn:Hft; [|done]. subst o.
  apply forget_txn in Hft. simpl in Hft. subst s'. intros k Hk. simpl.
  unfold sum_val, intake_total, msum. simpl. unfold get_or. rewrite forget_lookup.
  case_bool_decide as Ht.
  - rewrite <- Ht, of_table_own. simpl. change (hash_val "") with lt_new. rewrite lt_add_new.
    replace (filter _ _) with (∅ : gmap string string); [by rewrite map_to_list_empty|].
    symmetry. apply map_empty. intros ks. apply map_lookup_filter_None. right.
    intros v Hv Hp. simpl in Hp. rewrite forget_lookup, (part_of_own_table _ _ Hp) in Hv. done.
  - replace (of_table table (pkey k)) with false.
    + rewrite (Hb k Hk : lt_add (hash_val (default "" (UnpromotedSums s !! pkey k))) (g k) = _).
      unfold intake_total, msum. do 3 f_equal. apply map_eq. intros ks.
      rewrite !map_lookup_filter, forget_lookup. destruct (of_table table ks) eqn:Ho; [|done].
      destruct (IntakeParts s !! ks); simpl; [|done]. rewrite option_guard_False; [done|].
      intros Hp. by apply Ht, (part_of_table k table ks).
    + symmetry. apply not_true_iff_false. unfold pkey. destruct Hk. by rewrite of_table_key.
Qed.

Lemma booked_next cl s s' g :
  call_wf cl → booked s g → next_of cl s = Some s' → booked s' (take_out cl s g).
Proof.
  intros Hw Hb Hn. destruct cl; simpl in Hw; try done.
  all: try (open_txn Hn; revert Hb; by apply booked_frame).
  - by eapply booked_applied.
  - by eapply booked_add.
  - by eapply booked_remove.
  - by eapply booked_cleanup.
  - by eapply booked_forget.
  - open_txn Hn. revert Hb. rewrite record_rebuilt_frame. by apply booked_frame.
Qed.

(** The states a history can write, with what it took out so far. *)
Inductive written : localState → (partitionKey → lthash) → Prop :=
| written_new : written newLocalState (λ _, lt_new)
| written_call cl s g s' :
    call_wf cl → written s g → next_of cl s = Some s' → written s' (take_out cl s g).

Lemma written_booked s g : written s g → booked s g.
Proof.
  induction 1 as [|cl s g s' Hw _ IH Hn]; [|by eapply booked_next].
  intros k Hk. unfold sum_val, intake_total, msum, get_or. simpl.
  rewrite lookup_empty, map_filter_empty, map_to_list_empty. apply lt_add_new.
Qed.

(** ** Rebuilds *)
Lemma sameMappings_refl a : sameMappings a a = true.
Proof.
  unfold sameMappings. rewrite bool_decide_eq_false_2 by (intros Hne; by apply Hne).
  apply bool_decide_eq_true. destruct (consume (counts a) a) eqn:Hc; [by eexists|].
  by apply (consume_none _ _ _ (counts_reps a)) in Hc.
Qed.

Lemma record_rebuilt_other invs s j :
  j ∉ (λ i, key (ri_TableID i) (ri_PartitionID i)) <$> invs →
  AckedSafeInventories (foldl record_rebuilt s invs) !! j = AckedSafeInventories s !! j.
Proof.
  revert s. induction invs as [|i invs IH]; intros s Hj; [done|].
  rewrite fmap_cons, not_elem_of_cons in Hj. destruct Hj as [Hi Hj].
  cbn [foldl]. rewrite IH by done. unfold record_rebuilt. simpl. by rewrite lookup_insert_ne.
Qed.

Lemma record_rebuilt_lookup invs s i :
  NoDup ((λ i, key (ri_TableID i) (ri_PartitionID i)) <$> invs) → i ∈ invs →
  AckedSafeInventories (foldl record_rebuilt s invs) !! key (ri_TableID i) (ri_PartitionID i) =
  Some (mkInventory (ri_PublishSeq i) (default [] (ri_Parts i)) true).
Proof.
  revert s. induction invs as [|i' invs IH]; intros s Hnd Hin; [by apply elem_of_nil in Hin|].
  rewrite fmap_cons in Hnd. apply NoDup_cons in Hnd as [Hni Hnd]. cbn [foldl].
  rewrite elem_of_cons in Hin. destruct Hin as [->|Hin]; [|by apply IH].
  rewrite record_rebuilt_other by done. unfold record_rebuilt. simpl. by rewrite lookup_insert_eq.
Qed.

Lemma check_watermarks_cases s invs :
  let behind i := (get_or 0 (Watermarks s) (key (ri_TableID i) (ri_PartitionID i)) < ri_PublishSeq i)%N in
  (check_watermarks s invs = Err ERebuildJournalBehind ∧ Exists behind invs) ∨
  (check_watermarks s invs = Ok () ∧ ¬ Exists behind invs).
Proof.
  induction invs as [|i invs IH]; simpl; [right; split; [done|intros Hx; by inversion Hx]|].
  case_bool_decide as Hb; [left; split; [done|by left]|].
  destruct IH as [[-> He]|[-> He]]; [left; split; [done|by right]|right; split; [done|]].
  rewrite Exists_cons. tauto.
Qed.

Lemma checkRebuild_acked s x invs : checkRebuild (set_AckedSafeInventories x s) invs = checkRebuild s invs.
Proof.
  unfold checkRebuild. simpl. case_bool_decide; [done|].
  induction invs as [|i invs IH]; [done|]. simpl. by rewrite IH.
Qed.

Lemma check_rebuild_cases s invs :
  let behind i := (get_or 0 (Watermarks s) (key (ri_TableID i) (ri_PartitionID i)) < ri_PublishSeq i)%N in
  (checkRebuild s invs = Err ERebuildIntentPending ∧ PromotionIntents s ≠ ∅) ∨
  (checkRebuild s invs = Err ERebuildJournalBehind ∧ PromotionIntents s = ∅ ∧ Exists behind invs) ∨
  (checkRebuild s invs = Ok () ∧ PromotionIntents s = ∅ ∧ ¬ Exists behind invs).
Proof.
  unfold checkRebuild. case_bool_decide as Hs.
  - left. split; [done|]. intros Hz. rewrite Hz, map_size_empty in Hs. lia.
  - right. assert (PromotionIntents s = ∅) as Hi by (apply map_size_empty_iff; lia).
    destruct (check_watermarks_cases s invs) as [[??]|[??]]; auto.
Qed.

End ledger.

(** ** Properties *)

(** C17: The purge gate decides exactly. In memory and in every state a restart
    can read, after any history from an empty directory, the gate answers without
    an error, answers the same whatever order Go ranges over the sums in, and
    answers true exactly when the table has no unresolved intent, no promoted part
    awaiting cleanup, no unpromoted rows and no owed cleanup acknowledgement. *)
Theorem gate_exact `{LtHashLaws} c :
  rtc (step (λ _, True)) fresh c →
  cell_all (λ s, ∀ table sums, sums ≡ₚ map_to_list (UnpromotedSums s) →
    ∃ b, quiescent sums table s = Ok b ∧ (b = true ↔ table_idle table s)) c.
Proof.
  intros Hs. assert (cell_all sums_read c) as (H1 & H2 & H3).
  { refine (steps_inv _ sums_read _ _ (λ cl s s' _ HP Hn, sums_read_next cl s s' HP Hn) _ Hs).
    by split_and!. }
  split_and!; intros table sums Hp; by apply quiescent_spec.
Qed.


(** C12: The unpromoted sums balance. Through every history of calls on NUL-free
    ids, failed writes and restarts from an empty directory, the memory and every
    state a restart can read is one the calls wrote, and in it each partition's
    unpromoted sum plus what was taken out of it (the hashes of applied
    promotions, and aborts of parts intake never recorded) is the sum of its
    intake records: a part is counted once however often it is redelivered, and a
    rejected-part cleanup takes out exactly what intake put in. *)
Theorem unpromoted_sums_balance `{LtHashLaws} c :
  rtc (step call_wf) fresh c →
  cell_all (λ s, ∃ g, written s g ∧
    ∀ k, key_wf k → lt_add (sum_val k s) (g k) = intake_total k s) c.
Proof.
  intros Hs.
  assert (cell_all (λ s, ∃ g, written s g) c) as (H1 & H2 & H3).
  { refine (steps_inv _ (λ s, ∃ g, written s g) _ _ _ _ Hs).
    - intros cl s s' Hw [g Hg] Hn. eexists. by eapply written_call.
    - split_and!; eexists; apply written_new. }
  split_and!; [destruct H1 as [g Hg]|destruct H2 as [g Hg]|destruct H3 as [g Hg]];
    exists g; (split; [done|]); by apply written_booked.
Qed.

(** C19: Registration numbers never repeat. If NextRegistrationSeq returned v1,
    then after any history of calls, failed writes, crashes and power losses in
    which the counter stays below the top of uint64, the next number it returns is
    above v1, whatever the clock says. *)
Theorem registration_seq_increases `{LtHash} now1 now2 w1 w2 c0 c1 c2 c3 v1 v2 :
  run (NextRegistrationSeq now1) w1 c0 = (Ok v1, c1) →
  rtc (λ c c', step (λ _, True) c c' ∧ cell_all (λ s, (RegistrationSeq s < max_u64)%N) c) c1 c2 →
  (RegistrationSeq (c_mem c2) < max_u64)%N →
  run (NextRegistrationSeq now2) w2 c2 = (Ok v2, c3) →
  (v1 < v2)%N.
Proof.
  assert (∀ r, (r < max_u64)%N → u64 (r + 1) = (r + 1)%N) as Hu.
  { intros r Hr. apply u64_small. unfold is_u64, max_u64 in *. lia. }
  intros Hr1 Hs Hmax Hr2.
  assert (cell_all (λ s, (v1 ≤ RegistrationSeq s)%N) c1) as Hall.
  { unfold run, NextRegistrationSeq in Hr1. destruct (persist _ _ _) as [[] c'] eqn:Hp; simplify_eq.
    destruct (persist_cases _ _ _ _ _ Hp) as [[_ ->]|[? _]]; [|done]. split_and!; simpl; lia. }
  assert (cell_all (λ s, (v1 ≤ RegistrationSeq s)%N) c2) as (Hm & _ & _).
  { clear -Hall Hs Hu. induction Hs as [|c c' c'' [Hst Hb] _ IH]; [done|]. apply IH. clear IH.
    destruct Hst as [cl w c _|b c]; [|by apply restart_all].
    assert (cell_all (λ s, (v1 ≤ RegistrationSeq s)%N ∧ (RegistrationSeq s < max_u64)%N) c) as Hboth.
    { destruct Hall as (?&?&?), Hb as (?&?&?). by split_and!. }
    destruct (exec cl w c) as [r c'] eqn:He. simpl.
    destruct (exec_cases _ _ _ _ _ He) as [[_ ->]|(next & Hn & Hcase)]; [done|].
    assert (v1 ≤ RegistrationSeq next)%N as Hnext.
    { rewrite (next_registration _ _ _ Hn). destruct Hboth as ((?&?)&_&_).
      destruct cl; try done. rewrite Hu by done. lia. }
    destruct Hall as (Hm & Hc & Hd). destruct Hcase as [[_ ->]|(_ & Hm' & Hf)]; [by split_and!|].
    unfold cell_all. rewrite Hm'. destruct Hf as [-> | ->]; destruct (assigns_live cl); by split_and!. }
  unfold run, NextRegistrationSeq in Hr2. destruct (persist _ _ _) as [[] c'] eqn:Hp; simplify_eq.
  rewrite Hu by done. lia.
Qed.

(** C20: The clone-building methods are atomic. For every call except the four
    that assign to the live state, a success leaves memory, file and durable
    content at the same next state (or everything untouched when there was nothing
    to write), and a failure leaves memory exactly as it was, with the file either
    as it was or already renamed to the next state but not yet durable. *)
Theorem ledger_writes_atomic `{LtHash} cl w c r c' :
  assigns_live cl = false → exec cl w c = (r, c') →
  match r with
  | Ok _ => c' = c ∨ ∃ next, next_of cl (c_mem c) = Some next ∧ c' = Cell next (File next next)
  | Err _ => c_mem c' = c_mem c ∧ f_durable (c_file c') = f_durable (c_file c) ∧
      (f_cur (c_file c') = f_cur (c_file c) ∨
       ∃ next, next_of cl (c_mem c) = Some next ∧ f_cur (c_file c') = next)
  end.
Proof.
  intros Hl He. destruct (exec_cases _ _ _ _ _ He) as [[_ ->]|(next & Hn & [[-> ->]|(-> & Hm & Hf)])].
  - destruct r; auto.
  - eauto.
  - rewrite Hl in Hm. split; [done|]. destruct Hf as [-> | ->]; simpl; eauto.
Qed.

(** C22: A retried intake record can be lost. AddUnpromotedPart assigns to the
    live state before it writes: when that write fails, the retry finds the record
    in memory and returns success without writing, so nothing a restart can read
    has the part. *)
Theorem intake_retry_not_durable `{LtHash} k name hash a part w c :
  IntakeParts (c_mem c) !! intakePartKey k name = None → synced c →
  sum_at (c_mem c) (pkey k) = Ok a → parseAccumulatorHex hash = Some part → w_create w = false →
  let '(r1, c1) := exec (CAddPart k name hash) w c in
  let '(r2, c2) := exec (CAddPart k name hash) write_ok c1 in
  r1 = Err EWrite ∧ r2 = Ok () ∧
  ∀ b, IntakeParts (c_mem (restart b c2)) !! intakePartKey k name = None.
Proof.
  intros Hno Hsync Ha Hp Hw. unfold exec, run_inplace. simpl. unfold AddUnpromotedPart at 1.
  rewrite Hno, Ha. simpl. rewrite Hp. simpl.
  unfold persist, atomic_replace. simpl. rewrite Hw.
  assert (∀ s : localState, AddUnpromotedPart k name hash
    (set_intake (intakePartKey k name) hash s) = Ok ((), None)) as Hagain.
  { intros s. unfold AddUnpromotedPart. simpl. rewrite lookup_insert_eq.
    by rewrite bool_decide_eq_true_2. }
  destruct (negb (w_marshal w)); simpl; rewrite Hagain; simpl; (do 2 (split; [done|]));
    rewrite Hsync; by intros [].
Qed.

(** C33: A repeated intent is not made durable. When the first BeginPromotion
    renames its file but the directory fsync fails, and the process restarts
    without a power loss, the intent is read back; repeating it then returns
    success without writing anything, although a power loss still loses it. *)
Theorem begin_repeat_not_durable k intent w c :
  PromotionIntents (c_mem c) !! pkey k = None → synced c →
  w = WriteEnv true true true true true true true false →
  let '(r1, c1) := run (BeginPromotion k intent) w c in
  let '(r2, c2) := run (BeginPromotion k intent) write_ok (restart false c1) in
  r1 = Err EWrite ∧ r2 = Ok () ∧ PendingPromotion (c_mem c2) k = Some intent ∧
  PendingPromotion (c_mem (restart true c2)) k = None.
Proof.
  destruct c as [s f]. unfold synced. simpl. intros Hno -> ->. unfold run. simpl.
  unfold BeginPromotion at 1. rewrite Hno. simpl. unfold BeginPromotion. simpl. rewrite lookup_insert_eq.
  assert (promotionIntentsEqual intent intent = true) as ->.
  { unfold promotionIntentsEqual, promotionIntentCommandEqual. by rewrite !bool_decide_eq_true_2. }
  simpl. unfold PendingPromotion. simpl. by rewrite lookup_insert_eq.
Qed.


(** ** Witnesses *)
Import Lane16.

Definition ex_added : cell localState := (exec (CAddPart ex_key "all_1_1_0" (hex 5)) write_ok fresh).2.

Lemma gate_exact_witness :
  ∃ b, quiescent [("db.t" +:+ String NUL "p0", hex 5)] "db.t" (c_mem ex_added) = Ok b ∧
       (b = true ↔ table_idle "db.t" (c_mem ex_added)).
Proof.
  refine (proj1 (gate_exact ex_added _) "db.t"%string _ _).
  - apply rtc_once, step_call. exact I.
  - vm_compute. reflexivity.
Defined.


Lemma unpromoted_sums_balance_witness :
  ∃ g, written (c_mem ex_added) g ∧
    ∀ k, key_wf k → lt_add (sum_val k (c_mem ex_added)) (g k) = intake_total k (c_mem ex_added).
Proof.
  refine (proj1 (unpromoted_sums_balance ex_added _)).
  apply rtc_once, step_call. simpl. repeat split; discriminate.
Defined.

Lemma registration_seq_increases_witness : (100 < 101)%N.
Proof.
  refine (registration_seq_increases 100 7 write_ok write_ok fresh
    (run (NextRegistrationSeq 100) write_ok fresh).2
    (restart true (run (NextRegistrationSeq 100) write_ok fresh).2)
    (run (NextRegistrationSeq 7) write_ok (restart true (run (NextRegistrationSeq 100) write_ok fresh).2)).2
    100 101 _ _ _ _).
  - vm_compute. reflexivity.
  - apply rtc_once. split; [apply step_restart|]. repeat split; vm_compute; reflexivity.
  - vm_compute. reflexivity.
  - vm_compute. reflexivity.
Defined.

Lemma ledger_writes_atomic_witness :
  c_mem (exec (CBegin ex_key ex_intent) (WriteEnv true true true true true true true false) fresh).2
  = newLocalState.
Proof.
  refine (proj1 (ledger_writes_atomic (CBegin ex_key ex_intent)
    (WriteEnv true true true true true true true false) fresh (Err EWrite) _ _ _)).
  - reflexivity.
  - vm_compute. reflexivity.
Defined.

Lemma intake_retry_not_durable_witness :
  let w := WriteEnv true false true true true true true true in
  let '(r1, c1) := exec (CAddPart ex_key "all_1_1_0" (hex 5)) w fresh in
  let '(r2, c2) := exec (CAddPart ex_key "all_1_1_0" (hex 5)) write_ok c1 in
  r1 = Err EWrite ∧ r2 = Ok () ∧
  ∀ b, IntakeParts (c_mem (restart b c2)) !! intakePartKey ex_key "all_1_1_0" = None.
Proof.
  refine (intake_retry_not_durable ex_key "all_1_1_0" (hex 5) (mk 0) (mk 5)
    (WriteEnv true false true true true true true true) fresh _ _ _ _ _).
  - reflexivity.
  - reflexivity.
  - reflexivity.
  - apply parse_accumulatorHex.
  - reflexivity.
Defined.

Lemma begin_repeat_not_durable_witness :
  let w := WriteEnv true true true true true true true false in
  let '(r1, c1) := run (BeginPromotion ex_key ex_intent) w fresh in
  let '(r2, c2) := run (BeginPromotion ex_key ex_intent) write_ok (restart false c1) in
  r1 = Err EWrite ∧ r2 = Ok () ∧ PendingPromotion (c_mem c2) ex_key = Some ex_intent ∧
  PendingPromotion (c_mem (restart true c2)) ex_key = None.
Proof. exact (begin_repeat_not_durable ex_key ex_intent _ fresh eq_refl eq_refl eq_refl). Defined.

