(* ===== verification/ClickHouse.v ===== *)
(** * ClickHouse and the partition helpers (dataplane/chparts)

    The ClickHouse server is outside this repository: [ClickHouse] is the
    interface the code uses (the system.parts query, the executor's part scan
    chexec.ScanParts, and ALTER TABLE statements), each of which may fail, and
    [ClickHouseLaws] is the documented behaviour the safety argument relies on.
    The schema type is housegate's; only its partition expression is used. The
    functions of chparts.go are modelled here on top of the interface. *)
From S2P Require Import Prelude LtHash Types Gate.

(** The SNode's protocol databases and the member's copies and scratch tables. *)
Inductive database := SafeDB | PromoteDB | UnsafeDB | ReplicaDB | StageDB.

#[export] Instance database_eq_dec : EqDecision database.
Proof. solve_decision. Defined.

(** chparts.Part *)
Record Part := mkPart {
  p_Name : string; p_PartitionID : string; p_PartitionValue : string; p_PhysHash : string;
  p_Path : string; p_Rows : N; p_Bytes : N }.

#[export] Instance Part_eq_dec : EqDecision Part.
Proof. solve_decision. Defined.

(** chexec's scan of one part. *)
Record Scan := mkScan { sc_PartName : string; sc_RowLtHash : string; sc_RowCount : N }.

(** The statements the SNode and the member issue. *)
Inductive stmt :=
| AttachPartition (dst : database) (table partition : string) (src : database)
| ReplacePartition (table partition : string)
| DropPart (d : database) (table name : string)
| DropPartition (d : database) (table partition : string)
| LoadTable (d : database) (table : string)
| AttachFrom (table partition scratch : string)
| CreateScratch (name : string)
| DropTable (d : database) (table : string).

Inductive ch_error := NoSuchDataPart | UnknownTable | UnknownDatabase | OtherError.

#[export] Instance ch_error_eq_dec : EqDecision ch_error.
Proof. solve_decision. Defined.

Class ClickHouse := {
  chs : Type;
  TableSchema : Type;
  PartitionBy : TableSchema → string;
  ch_active : database → string → chs → option (list Part) * chs;
  ch_exists : database → string → chs → option bool * chs;
  ch_scan : database → string → TableSchema → list string → chs → option (list Scan) * chs;
  ch_exec : stmt → chs → option ch_error * chs;
}.

Section chparts.
Context `{ClickHouse}.

Definition LogicalPartitionID (sch : TableSchema) (p : Part) : string :=
  if bool_decide (PartitionBy sch = EmptyString) then "all" else "p_" +:+ p_PartitionValue p.

Definition PartsInLogicalPartition (parts : list Part) (sch : TableSchema) (partitionID : string)
    : list Part :=
  filter (fun p => LogicalPartitionID sch p = partitionID) parts.

(** strings.ReplaceAll with a one-byte old string. *)
Fixpoint replace_all (c : ascii) (by_ s : string) : string :=
  match s with
  | EmptyString => EmptyString
  | String x s => if bool_decide (x = c) then by_ +:+ replace_all c by_ s else String x (replace_all c by_ s)
  end.

Definition backslash : ascii := ascii_of_N 92.
Definition quote : ascii := ascii_of_N 39.

Definition EscapeSQLString (s : string) : string :=
  replace_all quote (String backslash (String quote EmptyString))
    (replace_all backslash (String backslash (String backslash EmptyString)) s).

Definition QuotePartition (sch : TableSchema) (partitionID : string) : option string :=
  if bool_decide (PartitionBy sch = EmptyString)
  then if bool_decide (partitionID ≠ "all") then None else Some "tuple()"
  else if has_prefix "p_" partitionID && bool_decide (trim_prefix "p_" partitionID ≠ EmptyString)
  then Some (String quote EmptyString +:+ EscapeSQLString (trim_prefix "p_" partitionID) +:+ String quote EmptyString)
  else None.

(** [Ok true]: the partition was dropped; [Ok false]: it had no active part. *)
Definition DropPartitionIfPresent (d : database) (table : string) (sch : TableSchema)
    (partitionID : string) (w : chs) : option bool * chs :=
  let '(parts, w) := ch_active d table w in
  match parts with
  | None => (None, w)
  | Some parts =>
      if bool_decide (length (PartsInLogicalPartition parts sch partitionID) = 0) then (Some false, w) else
      match QuotePartition sch partitionID with
      | None => (None, w)
      | Some partition =>
          let '(err, w) := ch_exec (DropPartition d table partition) w in
          (match err with Some _ => None | None => Some true end, w)
      end
  end.

Record ScannedPart := mkScanned { sn_Name : string; sn_RowLtHash : string; sn_Rows : N }.

Context `{RowSum}.

Definition PartitionContentScan (d : database) (table : string) (sch : TableSchema)
    (partitionID : string) (w : chs) : option (string * list ScannedPart) * chs :=
  let '(parts, w) := ch_active d table w in
  match parts with
  | None => (None, w)
  | Some parts =>
      let names := p_Name <$> PartsInLogicalPartition parts sch partitionID in
      if bool_decide (length names = 0)
      then ((fun root => (root, [])) <$> SumPartRowLtHashes [], w) else
      let '(scans, w) := ch_scan d table sch names w in
      match scans with
      | None => (None, w)
      | Some scans =>
          let out := (fun s => mkScanned (sc_PartName s) (sc_RowLtHash s) (sc_RowCount s)) <$> scans in
          ((fun root => (root, out)) <$> SumPartRowLtHashes (sc_RowLtHash <$> scans), w)
      end
  end.
End chparts.

(** ** What the code relies on

    [inventory] and [part_hash] are the true active parts and row hashes. Reads
    report them and, like every statement, leave hg_safe and hg_promote alone
    unless the statement is about them; hg_unsafe may change at any time under
    concurrent intake. REPLACE PARTITION is atomic: after it, the partition of
    hg_safe holds the rows it held before or the rows of the promote partition,
    and the latter when it succeeded. *)
Class ClickHouseLaws `{ClickHouse, RowSum} := {
  inventory : chs → database → string → list Part;
  part_hash : chs → database → string → string → lthash;
  content (w : chs) (d : database) (table : string) (sch : TableSchema) (pid : string) : list lthash :=
    (fun p => part_hash w d table (p_Name p)) <$> PartsInLogicalPartition (inventory w d table) sch pid;
  still (w w' : chs) : Prop :=
    ∀ d t, d ≠ UnsafeDB → inventory w' d t = inventory w d t ∧
      ∀ n, part_hash w' d t n = part_hash w d t n;
  active_reads d t w r w' :
    ch_active d t w = (r, w') → still w w' ∧ ∀ ps, r = Some ps → d ≠ UnsafeDB → ps = inventory w d t;
  exists_reads d t w r w' : ch_exists d t w = (r, w') → still w w';
  scan_reads d t sch names w r w' :
    ch_scan d t sch names w = (r, w') → still w w' ∧
    ∀ scans, r = Some scans → d ≠ UnsafeDB →
      sc_PartName <$> scans = names ∧
      mapM row_hash (sc_RowLtHash <$> scans) = Some (part_hash w d t <$> names);
  exec_safe_frame q w r w' t sch pid :
    ch_exec q w = (r, w') →
    match q with ReplacePartition _ _ | AttachPartition SafeDB _ _ _ | DropPart SafeDB _ _ | DropPartition SafeDB _ _ | DropTable SafeDB _ => False | _ => True end →
    content w' SafeDB t sch pid = content w SafeDB t sch pid;
  replace_atomic table partition w r w' sch pid :
    ch_exec (ReplacePartition table partition) w = (r, w') →
    QuotePartition sch pid = Some partition →
    (content w' SafeDB table sch pid = content w SafeDB table sch pid ∨
     content w' SafeDB table sch pid = content w PromoteDB table sch pid) ∧
    (r = None → content w' SafeDB table sch pid = content w PromoteDB table sch pid);
}.
