(* ===== verification/InstallJournal.v ===== *)
(** * The member's install journal (member/install/journal.go)

    What every copy of the member holds: per owner the manifest and the track
    frontier its copies were last brought to together, per table the parts
    installed into its copy, the partitions awaiting a rebuild and the
    quarantine mark. Maps keyed by the decimal owner id are keyed by the id; the
    JSON encoding is the identity on the journal's value. The manifest types are
    housegate's, with the fields the member reads. *)
From S2P Require Import Prelude LtHash Types Gate ClickHouse.

(** ** The published manifest (housegate pkg/replay) *)
Record TrackFrontier := mkFrontier {
  tf_IndexerID : N; tf_SafeBlockSeq : N; tf_AppliedPromotionSeq : N }.

#[export] Instance TrackFrontier_eq_dec : EqDecision TrackFrontier.
Proof. solve_decision. Defined.

Definition zero_frontier : TrackFrontier := mkFrontier 0 0 0.

Record PartManifestEntry := mkEntry {
  e_PartitionID : string; e_PartName : string; e_PartPhysHash : string;
  e_PartRowLtHash : string; e_RowCount : N }.
Record PartitionRoot := mkRoot { r_PartitionID : string; r_Root : string }.
Record TableManifest := mkTableManifest {
  tm_TableID : string; tm_SchemaHash : string;
  tm_ActiveParts : list PartManifestEntry; tm_PartitionRoots : list PartitionRoot }.
Record SafeSnapshotManifest := mkManifest {
  m_SnapshotID : string; m_ParentSnapshotID : string; m_SafeBlockSeq : N; m_ManifestRoot : string;
  m_TrackFrontiers : list TrackFrontier; m_Tables : list TableManifest }.

(** manifestfeed.Update *)
Record Update := mkUpdate {
  u_SnapshotID : string; u_ParentSnapshotID : string; u_SafeBlockSeq : N;
  u_Manifest : SafeSnapshotManifest; u_Entries : gmap N TrackFrontier;
  u_Changed : list N; u_FullFetch : bool; u_Walked : nat }.

Module InstallJournal.

(** ** The journal *)
Record JournalPart := mkJP {
  jp_Name : string; jp_PartitionID : string; jp_PartRowLtHash : string;
  jp_HashOfAllFiles : string; jp_Rows : N }.

#[export] Instance JournalPart_eq_dec : EqDecision JournalPart.
Proof. solve_decision. Defined.

Record TableJournal := mkTJ {
  tj_IncarnationSeq : N; tj_Copy : string; tj_Parts : list JournalPart;
  tj_Diverged : list string; tj_Foreign : bool; tj_ForeignScratch : string }.

Record OwnerJournal := mkOJ {
  oj_SnapshotID : string; oj_Entry : TrackFrontier; oj_Tables : gmap string TableJournal }.

Record Journal := mkJournal { j_Version : N; j_NodeID : string; j_Owners : gmap N OwnerJournal }.

Definition journalVersion : N := 1.

Definition newJournal (nodeID : string) : Journal := mkJournal journalVersion nodeID ∅.

(** [&TableJournal{IncarnationSeq: ..., Copy: ...}] *)
Definition newTableJournal (seq : N) (copy : string) : TableJournal := mkTJ seq copy [] [] false "".

(** The content of the journal file: absent, or a journal. A version this
    package does not know is refused. *)
Definition readJournal (content : option Journal) : option (option Journal) :=
  match content with
  | None => Some None
  | Some j => if bool_decide (j_Version j = journalVersion) then Some (Some j) else None
  end.

Definition writeJournal (w : write_env) (f : file (option Journal)) (j : Journal)
    : bool * file (option Journal) := atomic_replace w f (Some j).

(** [f] on the owner's journal, created when it is missing (Journal.owner). *)
Definition with_owner (owner : N) (f : OwnerJournal → OwnerJournal) (j : Journal) : Journal :=
  mkJournal (j_Version j) (j_NodeID j)
    (<[owner := f (default (mkOJ "" zero_frontier ∅) (j_Owners j !! owner))]> (j_Owners j)).

Definition with_tables (f : gmap string TableJournal → gmap string TableJournal) (oj : OwnerJournal)
    : OwnerJournal := mkOJ (oj_SnapshotID oj) (oj_Entry oj) (f (oj_Tables oj)).

(** ** Operations on one table's journal *)
Definition partitionHashes (tj : TableJournal) (partitionID : string) : list string :=
  jp_PartRowLtHash <$> filter (λ p, jp_PartitionID p = partitionID) (tj_Parts tj).

Definition partitions (tj : TableJournal) : list string := sorted_set (jp_PartitionID <$> tj_Parts tj).

Definition isDiverged (tj : TableJournal) (partitionID : string) : bool :=
  bool_decide (partitionID ∈ tj_Diverged tj).

Definition with_diverged (l : list string) (tj : TableJournal) : TableJournal :=
  mkTJ (tj_IncarnationSeq tj) (tj_Copy tj) (tj_Parts tj) l (tj_Foreign tj) (tj_ForeignScratch tj).

Definition with_parts (l : list JournalPart) (tj : TableJournal) : TableJournal :=
  mkTJ (tj_IncarnationSeq tj) (tj_Copy tj) l (tj_Diverged tj) (tj_Foreign tj) (tj_ForeignScratch tj).

Definition with_foreign (b : bool) (scratch : string) (tj : TableJournal) : TableJournal :=
  mkTJ (tj_IncarnationSeq tj) (tj_Copy tj) (tj_Parts tj) (tj_Diverged tj) b scratch.

(** The report ("was not marked yet") and the journal after it. *)
Definition markDiverged (partitionID : string) (tj : TableJournal) : bool * TableJournal :=
  if isDiverged tj partitionID then (false, tj)
  else (true, with_diverged (sort_strings (tj_Diverged tj ++ [partitionID])) tj).

(** strings.Compare of the partition ids, then of the names. *)
Definition jp_le (a b : JournalPart) : Prop :=
  if bool_decide (jp_PartitionID a = jp_PartitionID b) then String.le (jp_Name a) (jp_Name b)
  else String.le (jp_PartitionID a) (jp_PartitionID b).

#[export] Instance jp_le_dec : RelDecision jp_le.
Proof. intros a b. unfold jp_le. destruct (bool_decide _); apply _. Defined.

Definition sortJournalParts (parts : list JournalPart) : list JournalPart := merge_sort jp_le parts.

Definition setPartition (partitionID : string) (parts : list JournalPart) (tj : TableJournal) : TableJournal :=
  with_diverged (filter (λ p, p ≠ partitionID) (tj_Diverged tj))
    (with_parts (sortJournalParts
       (filter (λ p, jp_PartitionID p ≠ partitionID) (tj_Parts tj) ++ parts)) tj).

Definition addParts (parts : list JournalPart) (tj : TableJournal) : TableJournal :=
  with_parts (sortJournalParts (tj_Parts tj ++ parts)) tj.

(** ** Multisets of row hashes (installer.go) *)
Definition entryHashes (entries : list PartManifestEntry) : list string := e_PartRowLtHash <$> entries.

(** [slices.Delete] of the first occurrence, the slice itself when absent. *)
Fixpoint removeOne (s : list string) (h : string) : list string :=
  match s with
  | [] => []
  | x :: s => if bool_decide (x = h) then s else x :: removeOne s h
  end.

Definition multisetMinus (a b : list string) : list string := foldl removeOne a b.

Fixpoint pickEntries (entries : list PartManifestEntry) (need : list string) : list PartManifestEntry :=
  match entries with
  | [] => []
  | e :: entries =>
      if bool_decide (e_PartRowLtHash e ∈ need)
      then e :: pickEntries entries (removeOne need (e_PartRowLtHash e))
      else pickEntries entries need
  end.

(** manifestPartitions: a manifest table's parts and roots by partition id. *)
Definition manifest_parts (tm : option TableManifest) : gmap string (list PartManifestEntry) :=
  match tm with
  | None => ∅
  | Some tm => foldl (λ m p, <[e_PartitionID p := default [] (m !! e_PartitionID p) ++ [p]]> m) ∅ (tm_ActiveParts tm)
  end.

Definition manifest_roots (tm : option TableManifest) : gmap string string :=
  match tm with
  | None => ∅
  | Some tm => foldl (λ m r, <[r_PartitionID r := r_Root r]> m) ∅ (tm_PartitionRoots tm)
  end.

(** ** Lemmas *)
Lemma sortJournalParts_perm l : sortJournalParts l ≡ₚ l.
Proof. apply merge_sort_Permutation. Qed.

Lemma markDiverged_spec pid tj b tj' :
  markDiverged pid tj = (b, tj') →
  tj_Parts tj' = tj_Parts tj ∧ tj_IncarnationSeq tj' = tj_IncarnationSeq tj ∧ tj_Copy tj' = tj_Copy tj ∧
  tj_Foreign tj' = tj_Foreign tj ∧
  (∀ p, p ∈ tj_Diverged tj' ↔ p = pid ∨ p ∈ tj_Diverged tj) ∧ (b = true ↔ pid ∉ tj_Diverged tj).
Proof.
  unfold markDiverged, isDiverged. case_bool_decide as Hin; intros [= <- <-]; simpl; split_and!; try done.
  - intros p. naive_solver.
  - intros p. rewrite elem_of_sort_strings, elem_of_app, list_elem_of_singleton. tauto.
Qed.

Lemma elem_of_partitions pid tj : pid ∈ partitions tj ↔ ∃ p, p ∈ tj_Parts tj ∧ jp_PartitionID p = pid.
Proof.
  unfold partitions. rewrite elem_of_sorted_set, list_elem_of_fmap. naive_solver.
Qed.

Lemma removeOne_ms s h :
  list_to_set_disj (removeOne s h) =@{gmultiset string} list_to_set_disj s ∖ {[+ h +]}.
Proof.
  induction s as [|x s IH]; simpl; [multiset_solver|]. case_bool_decide as Hx; [subst; multiset_solver|].
  rewrite list_to_set_disj_cons, IH. apply gmultiset_eq. intros y.
  rewrite multiplicity_disj_union, !multiplicity_difference, multiplicity_disj_union, !multiplicity_singleton.
  repeat case_decide; subst; try done; lia.
Qed.

(** multisetMinus is the multiset difference. *)
Lemma multisetMinus_ms a b :
  list_to_set_disj (multisetMinus a b) =@{gmultiset string} list_to_set_disj a ∖ list_to_set_disj b.
Proof.
  unfold multisetMinus. revert a. induction b as [|h b IH]; intros a; simpl.
  - by rewrite gms_difference_empty.
  - by rewrite IH, removeOne_ms, gms_difference_add.
Qed.

(** pickEntries takes, in manifest order, exactly as many entries of each hash
    as the need lists and the manifest offers. *)
Lemma pickEntries_ms entries need :
  list_to_set_disj (entryHashes (pickEntries entries need)) =@{gmultiset string}
  list_to_set_disj (entryHashes entries) ∩ list_to_set_disj need.
Proof.
  revert need. induction entries as [|e entries IH]; intros need; simpl; [multiset_solver|].
  case_bool_decide as Hin; simpl; rewrite ?list_to_set_disj_cons.
  - rewrite IH, removeOne_ms.
    rewrite <- elem_of_list_to_set_disj, elem_of_multiplicity in Hin. apply gmultiset_eq. intros y.
    rewrite multiplicity_disj_union, !multiplicity_intersection, multiplicity_difference,
      multiplicity_disj_union, !multiplicity_singleton. case_decide; subst; lia.
  - rewrite IH. apply gmultiset_eq. intros y. rewrite !multiplicity_intersection, multiplicity_disj_union.
    rewrite <- elem_of_list_to_set_disj, elem_of_multiplicity in Hin.
    rewrite multiplicity_singleton. case_decide; subst; lia.
Qed.

Lemma pickEntries_sub entries need : pickEntries entries need ⊆+ entries.
Proof.
  revert need. induction entries as [|e entries IH]; intros need; simpl; [done|].
  case_bool_decide; [by apply submseteq_skip|by apply submseteq_cons].
Qed.

Lemma manifest_parts_lookup tm pid :
  default [] (manifest_parts tm !! pid) =
    filter (λ e, e_PartitionID e = pid) (from_option tm_ActiveParts [] tm) ∧
  (pid ∈ dom (manifest_parts tm) ↔ ∃ e, e ∈ from_option tm_ActiveParts [] tm ∧ e_PartitionID e = pid).
Proof.
  destruct tm as [tm|]; simpl.
  2: { split; [by rewrite lookup_empty|]. rewrite dom_empty. setoid_rewrite elem_of_nil. set_solver. }
  set (f := λ (m : gmap string (list PartManifestEntry)) p, _).
  assert (∀ l m, default [] (foldl f m l !! pid) = default [] (m !! pid) ++ filter (λ e, e_PartitionID e = pid) l ∧
    (pid ∈ dom (foldl f m l) ↔ pid ∈ dom m ∨ ∃ e, e ∈ l ∧ e_PartitionID e = pid)) as Hgen.
  { induction l as [|e l IH]; intros m; simpl.
    - rewrite app_nil_r. setoid_rewrite elem_of_nil. split; [done|]. naive_solver.
    - destruct (IH (f m e)) as [-> ->]. unfold f. rewrite lookup_insert, dom_insert, filter_cons.
      setoid_rewrite elem_of_cons. split.
      + repeat case_decide; try done; subst; simpl; by rewrite <- app_assoc.
      + rewrite elem_of_union, elem_of_singleton. naive_solver. }
  destruct (Hgen (tm_ActiveParts tm) ∅) as [-> ->]. rewrite lookup_empty, dom_empty. simpl. split; [done|]. set_solver.
Qed.

(** ** Lists of parts, partition by partition *)

(** Two lists are permutations of each other when they are in every class. *)
Lemma perm_by_class {A} `{EqDecision A} {K} `{EqDecision K} (f : A → K) (l k : list A) :
  (∀ c, filter (λ x, f x = c) l ≡ₚ filter (λ x, f x = c) k) → l ≡ₚ k.
Proof.
  intros Hc. apply (Permutation_count_occ (decide_rel (=@{A}))). intros x.
  assert (∀ l, count_occ (decide_rel (=@{A})) (filter (λ y, f y = f x) l) x = count_occ (decide_rel (=@{A})) l x) as Hf.
  { clear. induction l as [|y l IH]; [done|]. rewrite filter_cons. case_decide as Hy; simpl.
    - by rewrite IH.
    - destruct (decide_rel (=@{A}) y x) as [->|]; done. }
  rewrite <- (Hf l), <- (Hf k). by apply Permutation_count_occ.
Qed.

End InstallJournal.
