(* ===== verification/ManifestStore.v ===== *)
(** * The member's manifest store (member/manifestfeed: store.go, verify.go)

    A bounded LRU of verified manifests in front of the arbiter. [lookup] and
    [insert] are the two sections the store's lock protects; [GetSafeSnapshot]
    runs the first, and on a miss a fetch and the second. Other readers (the
    shadow verifier's replays, the startup check) share the store, so its
    histories are sequences of the locked sections ([store_step]).

    [lru_exact] gives the store's order as a reference definition computes it
    from the ids used so far, and [store_refines_source] relates a read of the
    store to the uncached read. *)
From S2P Require Import Prelude Types InstallJournal.

(** pkg/replay of housegate: [Validate] recomputes a manifest's roots,
    [VerifyLedger] compares every partition root with the sum of its parts. *)
Class Replay := {
  Validate : SafeSnapshotManifest → bool;
  VerifyLedger : SafeSnapshotManifest → bool;
  OwnerEntry : SafeSnapshotManifest → N → option TrackFrontier;
}.

(** arbiter.SafeWatermark *)
Record SafeWatermark := mkWatermark { wm_SnapshotID : string; wm_SafeBlockSeq : N; wm_ManifestRoot : string }.

(** The arbiter's read surface: every call may fail and may see a later state. *)
Class Source := {
  remote : Type;
  GetSafeWatermark : remote → option SafeWatermark * remote;
  GetManifest : string → remote → option SafeSnapshotManifest * remote;
}.

Module ManifestStore.

(** ** Verification of one manifest *)
Inductive refusal := RWrongID | RInvalid | RNotOwnRoot | RLedger | RWatermarkRoot | RNoFrontiers
| RNotDescended | REntryBack (owner : N).
Inductive ferr := EWatermark | EEmptyID | EFetch (id : string) | ERefused (r : refusal).

Section verify.
Context `{Replay}.

Definition Verify (requested : string) (m : SafeSnapshotManifest) : result ferr unit :=
  guard* bool_decide (m_SnapshotID m = requested) else ERefused RWrongID in
  guard* Validate m else ERefused RInvalid in
  guard* bool_decide (m_SnapshotID m = m_ManifestRoot m) else ERefused RNotOwnRoot in
  guard* VerifyLedger m else ERefused RLedger in
  Ok ().

Definition verified (id : string) (m : SafeSnapshotManifest) : Prop := Verify id m = Ok ().

Lemma verified_inv id m :
  verified id m ↔ m_SnapshotID m = id ∧ m_ManifestRoot m = id ∧ Validate m = true ∧ VerifyLedger m = true.
Proof.
  unfold verified, Verify.
  repeat case_bool_decide; destruct (Validate m), (VerifyLedger m); simplify_eq; naive_solver.
Qed.
End verify.

(** ** The store *)

(** [st_order] lists the ids of [order], most recently used first; [st_byID] is
    the domain of byID, whose elements point into the list. *)
Record Store := mkStore {
  st_entries : nat; st_order : list string; st_byID : gset string;
  st_cache : gmap string SafeSnapshotManifest }.

Definition DefaultCacheEntries : nat := 16.

Definition NewStore (entries : Z) : Store :=
  mkStore (if (entries <=? 0)%Z then DefaultCacheEntries else Z.to_nat entries) [] ∅ ∅.

(** list.MoveToFront of the element that holds [id]. *)
Fixpoint unlink (id : string) (l : list string) : list string :=
  match l with
  | [] => []
  | x :: l => if bool_decide (x = id) then l else x :: unlink id l
  end.

Definition MoveToFront (id : string) (l : list string) : list string := id :: unlink id l.

Definition with_order (l : list string) (s : Store) : Store :=
  mkStore (st_entries s) l (st_byID s) (st_cache s).

Definition Len (s : Store) : nat := length (st_order s).

Definition lookup (id : string) (s : Store) : option SafeSnapshotManifest * Store :=
  if bool_decide (id ∈ st_byID s)
  then (st_cache s !! id, with_order (MoveToFront id (st_order s)) s)
  else (None, s).

(** [for s.order.Len() > s.entries]: each round removes the list's last id. *)
Fixpoint evict_loop (fuel : nat) (s : Store) : Store :=
  match fuel with
  | 0 => s
  | S fuel =>
      if bool_decide (st_entries s < Len s) then
        match last (st_order s) with
        | None => s
        | Some evicted =>
            evict_loop fuel
              (mkStore (st_entries s) (take (pred (Len s)) (st_order s))
                 (st_byID s ∖ {[evicted]}) (delete evicted (st_cache s)))
        end
      else s
  end.

Definition insert (id : string) (m : SafeSnapshotManifest) (s : Store) : Store :=
  if bool_decide (id ∈ st_byID s) then with_order (MoveToFront id (st_order s)) s else
  let s := mkStore (st_entries s) (id :: st_order s) ({[id]} ∪ st_byID s) (<[id := m]> (st_cache s)) in
  evict_loop (Len s) s.

(** One read: the store and the arbiter it reads from. *)
Section read.
Context `{Replay, Source}.

(** The uncached read: fetch by id, then [Verify]. *)
Definition fetch (id : string) (w : remote) : result ferr SafeSnapshotManifest * remote :=
  let '(r, w) := GetManifest id w in
  (match r with
   | None => Err (EFetch id)
   | Some m => let* _ := Verify id m in Ok m
   end, w).

Definition GetSafeSnapshot (id : string) (sw : Store * remote)
    : result ferr SafeSnapshotManifest * (Store * remote) :=
  let '(s, w) := sw in
  if bool_decide (id = EmptyString) then (Err EEmptyID, sw) else
  match lookup id s with
  | (Some m, s) => (Ok m, (s, w))
  | (None, s) =>
      match fetch id w with
      | (Err e, w) => (Err e, (s, w))
      | (Ok m, w) => (Ok m, (insert id m s, w))
      end
  end.

(** ** Histories of the locked sections, with the ids they used *)
Inductive store_step : Store → option string → Store → Prop :=
| st_hit s id m s' : lookup id s = (Some m, s') → store_step s (Some id) s'
| st_miss s id s' : lookup id s = (None, s') → store_step s None s'
| st_insert s id m : id ≠ EmptyString → verified id m → store_step s (Some id) (insert id m s).

Inductive store_steps : Store → list string → Store → Prop :=
| steps_nil s : store_steps s [] s
| steps_snoc s uses s' use s'' :
    store_steps s uses s' → store_step s' use s'' →
    store_steps s (match use with Some id => id :: uses | None => uses end) s''.

(** The reference: the distinct ids used, latest first, the first [entries] of
    them kept. *)
Fixpoint distinct (l : list string) : list string :=
  match l with
  | [] => []
  | x :: l => x :: filter (fun y => y ≠ x) (distinct l)
  end.

Definition lru (entries : nat) (uses : list string) : list string := take entries (distinct uses).

(** The store's well-formedness: the list, the index and the cache name the
    same ids, each once, and every cached manifest was verified. *)
Record store_ok (s : Store) : Prop := {
  ok_nodup : NoDup (st_order s);
  ok_byID : ∀ id, id ∈ st_byID s ↔ id ∈ st_order s;
  ok_cache : ∀ id, is_Some (st_cache s !! id) ↔ id ∈ st_order s;
  ok_verified : ∀ id m, st_cache s !! id = Some m → verified id m ∧ id ≠ EmptyString }.

Definition store_wf (s : Store) : Prop := store_ok s ∧ 0 < st_entries s ∧ Len s ≤ st_entries s.
End read.

(** ** Lemmas *)
Abbreviation without id := (filter (fun y => y ≠ id)).

Lemma unlink_filter id l : NoDup l → unlink id l = without id l.
Proof.
  induction 1 as [|x l Hx Hl IH]; [done|]. simpl. rewrite filter_cons.
  case_bool_decide as Heq; case_decide as Hne; try done; [|by rewrite IH].
  subst. symmetry. apply filter_all. by intros y Hy ->.
Qed.

Lemma distinct_nodup l : NoDup (distinct l).
Proof.
  induction l as [|x l IH]; constructor; [|by apply NoDup_filter].
  rewrite list_elem_of_filter. naive_solver.
Qed.

Lemma take_without_absent id k (l : list string) : id ∉ take k l → take k (without id l) = take k l.
Proof.
  revert k. induction l as [|x l IH]; intros [|k] Hid; try done. simpl in Hid.
  rewrite not_elem_of_cons in Hid. destruct Hid as [Hx Hid].
  rewrite filter_cons_True by (by apply not_eq_sym). simpl. by rewrite IH.
Qed.

Lemma take_without_present id k (l : list string) :
  NoDup l → id ∈ take (S k) l → without id (take (S k) l) = take k (without id l).
Proof.
  intros Hl. revert k. induction Hl as [|x l Hx Hl IH]; intros k; [by intros ?%elem_of_nil|].
  simpl. rewrite elem_of_cons, !filter_cons. destruct (decide (x ≠ id)) as [Hne|Heq%dec_stable].
  - intros [->|Hid]; [done|]. destruct k as [|k]; [by apply elem_of_nil in Hid|].
    simpl. f_equal. by apply (IH k).
  - intros _. subst x. assert (∀ y, y ∈ l → y ≠ id) as Hall by (intros y Hy ->; by apply Hx).
    rewrite (filter_all (fun y => y ≠ id) l Hall). apply filter_all.
    intros y (i & Hi & _)%elem_of_take. by eapply Hall, list_elem_of_lookup_2.
Qed.

Lemma perm_without id (l : list string) : NoDup l → id ∈ l → l ≡ₚ id :: without id l.
Proof.
  induction 1 as [|x l Hx Hl IH]; [by intros ?%elem_of_nil|]. rewrite elem_of_cons, filter_cons.
  destruct (decide (x ≠ id)) as [Hne|Heq%dec_stable].
  - intros [->|Hid]; [done|]. rewrite (IH Hid) at 1. by rewrite Permutation_swap.
  - intros _. subst x. rewrite (filter_all (fun y => y ≠ id)); [done|]. intros y Hy ->. by apply Hx.
Qed.

Lemma lru_use entries uses id :
  lru (S entries) (id :: uses) =
  if bool_decide (id ∈ lru (S entries) uses) then MoveToFront id (lru (S entries) uses)
  else take (S entries) (id :: lru (S entries) uses).
Proof.
  unfold lru, MoveToFront. pose proof (distinct_nodup uses) as Hd.
  rewrite firstn_cons. simpl distinct. rewrite firstn_cons. case_bool_decide as Hid; f_equal.
  - rewrite unlink_filter by (by eapply sublist_NoDup, sublist_take).
    by rewrite take_without_present.
  - rewrite take_without_absent, take_take by (intros Hin; apply Hid; revert Hin; rewrite !elem_of_take; naive_solver lia).
    f_equal. lia.
Qed.

Section store.
Context `{RP : Replay}.

Lemma new_store_wf entries : store_wf (NewStore entries).
Proof.
  split; [split; simpl|split].
  - constructor.
  - intros id. by rewrite elem_of_empty, elem_of_nil.
  - intros id. rewrite lookup_empty, elem_of_nil. by split; [intros []|].
  - by intros id m ?%lookup_empty_Some.
  - simpl. destruct (Z.leb_spec entries 0); [unfold DefaultCacheEntries|]; lia.
  - unfold Len. simpl. lia.
Qed.

Lemma with_order_ok l s : store_ok s → l ≡ₚ st_order s → store_ok (with_order l s).
Proof. intros [Hnd Hby Hc Hv] Hl. split; simpl; [by rewrite Hl| | |done]; intros id; by rewrite Hl. Qed.

Lemma move_wf id s :
  store_wf s → id ∈ st_order s → store_wf (with_order (MoveToFront id (st_order s)) s).
Proof.
  intros (Hok & He & Hb) Hid.
  assert (MoveToFront id (st_order s) ≡ₚ st_order s) as Hperm.
  { unfold MoveToFront. rewrite unlink_filter by apply Hok. symmetry. apply perm_without; [apply Hok|done]. }
  split_and!; [by apply with_order_ok|done|]. unfold Len in *. apply Permutation_length in Hperm. simpl st_order. simpl st_entries. lia.
Qed.

Lemma lookup_step id s r s' :
  store_wf s → lookup id s = (r, s') →
  match r with
  | Some m => st_cache s !! id = Some m ∧ id ∈ st_order s ∧ s' = with_order (MoveToFront id (st_order s)) s
  | None => (id ∉ st_order s) ∧ s' = s
  end.
Proof.
  intros [Hok _]. unfold lookup. case_bool_decide as Hid; rewrite (ok_byID _ Hok) in Hid; intros [= <- <-]; [|done].
  destruct (proj2 (ok_cache _ Hok id) Hid) as [m Hm]. by rewrite Hm.
Qed.

Lemma push_ok id m s :
  store_ok s → id ∉ st_order s → verified id m → id ≠ EmptyString →
  store_ok (mkStore (st_entries s) (id :: st_order s) ({[id]} ∪ st_byID s) (<[id := m]> (st_cache s))).
Proof.
  intros [Hnd Hby Hc Hv] Hid Hm Hne. split; simpl; [by constructor| | |].
  - intros y. by rewrite elem_of_union, elem_of_singleton, elem_of_cons, Hby.
  - intros y. rewrite elem_of_cons, lookup_insert_is_Some, Hc. destruct (decide (y = id)); naive_solver.
  - intros y m' [[<- <-]|[Hy Hl]]%lookup_insert_Some; [done|by apply Hv].
Qed.

Lemma pop_ok l x s :
  store_ok s → st_order s = l ++ [x] →
  store_ok (mkStore (st_entries s) l (st_byID s ∖ {[x]}) (delete x (st_cache s))).
Proof.
  intros [Hnd Hby Hc Hv] Hl. rewrite Hl in Hnd. apply NoDup_app in Hnd as (Hndl & Hxl & _).
  assert (∀ y, y ∈ l ↔ y ∈ st_order s ∧ y ≠ x) as Hin.
  { intros y. rewrite Hl, elem_of_app, list_elem_of_singleton.
    specialize (Hxl y). rewrite list_elem_of_singleton in Hxl. naive_solver. }
  split; simpl; [done| | |].
  - intros y. by rewrite Hin, elem_of_difference, elem_of_singleton, Hby.
  - intros y. rewrite Hin, lookup_delete_is_Some, Hc. naive_solver.
  - intros y m' [_ Hy]%lookup_delete_Some. by apply Hv.
Qed.

Lemma evict_ok fuel s :
  store_ok s → Len s ≤ st_entries s + fuel →
  let s' := evict_loop fuel s in
  store_ok s' ∧ st_order s' = take (st_entries s) (st_order s) ∧ st_entries s' = st_entries s.
Proof.
  unfold Len. revert s. induction fuel as [|fuel IH]; intros s Hok Hlen; simpl.
  { rewrite take_ge by lia. done. }
  unfold Len. case_bool_decide as Hlt; [|rewrite take_ge by lia; done].
  destruct (last (st_order s)) as [x|] eqn:Hlast; [|by apply last_None in Hlast; rewrite Hlast in Hlt; simpl in Hlt; lia].
  apply last_Some in Hlast as [l Hl]. rewrite Hl, length_app in *. simpl in *.
  replace (pred (length l + 1)) with (length l) by lia. rewrite take_app_length.
  destruct (IH _ (pop_ok l x s Hok Hl)) as (Hok' & Ho & He); simpl in *; [lia|].
  rewrite Ho, He. rewrite take_app_le by lia. done.
Qed.

Lemma insert_step id m s :
  store_wf s → verified id m → id ≠ EmptyString →
  store_wf (insert id m s) ∧ st_entries (insert id m s) = st_entries s ∧
  st_order (insert id m s) =
    if bool_decide (id ∈ st_order s) then MoveToFront id (st_order s) else take (st_entries s) (id :: st_order s).
Proof.
  intros Hwf Hm Hne. destruct (Hwf) as (Hok & He & Hb). unfold insert.
  rewrite (bool_decide_ext _ _ (ok_byID _ Hok id)). case_bool_decide as Hid.
  { split_and!; [by apply move_wf|done|done]. }
  destruct (evict_ok _ _ (push_ok id m s Hok Hid Hm Hne) (Nat.le_add_l _ _)) as (Hok' & Ho & Hent).
  split_and!; [|done|done]. split_and!; [done|by rewrite Hent|].
  rewrite Hent. apply (f_equal length) in Ho. rewrite length_take in Ho. unfold Len at 1. lia.
Qed.

Lemma step_wf s use s' :
  store_wf s → store_step s use s' →
  store_wf s' ∧ st_entries s' = st_entries s ∧
  ∀ uses, st_order s = lru (st_entries s) uses →
    st_order s' = lru (st_entries s) (match use with Some id => id :: uses | None => uses end).
Proof.
  intros Hwf Hstep. destruct (st_entries s) as [|n] eqn:Hn; [destruct Hwf as (_ & ? & _); lia|].
  destruct Hstep as [s id m s' Hl|s id s' Hl|s id m Hne Hm].
  - apply lookup_step in Hl as (_ & Hid & ->); [|done]. split_and!; [by apply move_wf|done|].
    intros uses Ho. simpl st_order. by rewrite lru_use, <- Ho, bool_decide_true.
  - by apply lookup_step in Hl as [Hid ->].
  - destruct (insert_step id m s Hwf Hm Hne) as (Hwf' & Hent & Ho'). split_and!; [done|congruence|].
    intros uses Ho. by rewrite lru_use, <- Ho, Ho', Hn.
Qed.

Lemma steps_wf s uses s' :
  store_wf s → st_order s = [] → store_steps s uses s' →
  store_wf s' ∧ st_entries s' = st_entries s ∧ st_order s' = lru (st_entries s) uses.
Proof.
  intros Hwf Hempty. induction 1 as [s|s uses s' use s'' Hsteps IH Hstep].
  { split_and!; [done|done|]. by rewrite Hempty; destruct (st_entries s). }
  destruct (IH Hwf Hempty) as (Hwf' & He & Ho). destruct (step_wf _ _ _ Hwf' Hstep) as (Hwf'' & He' & Ho').
  split_and!; [done|congruence|]. rewrite <- He in Ho. rewrite (Ho' _ Ho). by rewrite He.
Qed.

(** ** A read *)
Context `{SR : Source}.

(** A read of the store runs locked sections only, and its answer is verified. *)
Lemma read_steps id s w r s' w' :
  store_wf s → GetSafeSnapshot id (s, w) = (r, (s', w')) →
  store_wf s' ∧ st_entries s' = st_entries s ∧ (∀ m, r = Ok m → verified id m ∧ id ≠ EmptyString) ∧
  ∃ use, store_step s use s'.
Proof.
  intros Hwf. unfold GetSafeSnapshot. case_bool_decide as Hne.
  { intros [= <- <- <-]. split_and!; [done|done|done|]. exists None. eapply (st_miss _ id). subst id.
    destruct (lookup EmptyString s) as [[m|] s'] eqn:Hl.
    - apply lookup_step in Hl as (Hc & _); [|done]. by apply (ok_verified _ (proj1 Hwf)) in Hc as [_ []].
    - by apply lookup_step in Hl as [_ ->]. }
  destruct (lookup id s) as [[m|] s1] eqn:Hl.
  { intros [= <- <- <-]. destruct (step_wf _ _ _ Hwf (st_hit _ _ _ _ Hl)) as (Hwf' & He & _).
    split_and!; [done|done| |by eexists; eapply st_hit]. intros m' [= <-].
    apply lookup_step in Hl as (Hc & _); [|done]. by apply (ok_verified _ (proj1 Hwf)). }
  pose proof (st_miss _ _ _ Hl) as Hmiss. apply lookup_step in Hl as [_ ->]; [|done]. unfold fetch.
  destruct (GetManifest id w) as [[m|] w1]; simpl.
  2:{ intros [= <- <- <-]. split_and!; [done|done|done|by eexists]. }
  destruct (Verify id m) as [[]|e] eqn:Hm; simpl; intros [= <- <- <-].
  2:{ split_and!; [done|done|done|by eexists]. }
  destruct (insert_step id m s Hwf Hm Hne) as (Hwf' & He & _).
  split_and!; [done|done|by intros m' [= <-]|]. eexists. by apply (st_insert _ id m).
Qed.

(** C27: The member's manifest store refines the plain verified read. In every
    history of its locked sections (those of all its readers, in any order),
    from a new store: the ids it keeps are exactly those the reference LRU
    keeps, at most [entries] of them; and a read answers what fetching and
    verifying the manifest would answer whenever that succeeds, given that a
    manifest root commits to the manifest. A failed fetch or a refused manifest
    leaves the kept ids alone and is answered as it is, unless the manifest is
    already kept, in which case the verified manifest is answered. *)
Theorem store_refines_source entries uses s id w r s' w' :
  (∀ i m m', verified i m → verified i m' → m = m') →
  store_steps (NewStore entries) uses s → id ≠ EmptyString →
  GetSafeSnapshot id (s, w) = (r, (s', w')) →
  let n := st_entries (NewStore entries) in
  st_order s = lru n uses ∧ Len s ≤ n ∧ store_wf s' ∧
  match (fetch id w).1 with
  | Ok m => r = Ok m ∧ st_order s' = lru n (id :: uses)
  | Err e =>
      if bool_decide (id ∈ lru n uses)
      then ∃ m, r = Ok m ∧ verified id m ∧ st_order s' = lru n (id :: uses)
      else r = Err e ∧ s' = s
  end.
Proof.
  intros Hcommit Hsteps Hne Hread n.
  destruct (steps_wf _ _ _ (new_store_wf entries) eq_refl Hsteps) as (Hwf & He & Ho). fold n in He, Ho.
  destruct (read_steps _ _ _ _ _ _ Hwf Hread) as (Hwf' & _ & Hv & _).
  split_and!; [done|rewrite <- He; apply Hwf|done|]. rewrite <- Ho. revert Hread.
  unfold GetSafeSnapshot. rewrite bool_decide_false by done.
  destruct (lookup id s) as [[m|] s1] eqn:Hl.
  - intros [= <- <- <-]. pose proof Hl as Hl'. apply lookup_step in Hl as (_ & Hin & _); [|done].
    destruct (step_wf _ _ _ Hwf (st_hit _ _ _ _ Hl')) as (_ & _ & Hord).
    rewrite He in Hord. specialize (Hord _ Ho). simpl in Hord.
    destruct (Hv m eq_refl) as [Hm _]. rewrite bool_decide_true by done.
    unfold fetch. destruct (GetManifest id w) as [[m'|] w1]; simpl; [|by eauto].
    destruct (Verify id m') as [[]|e] eqn:Hm'; simpl; [|by eauto].
    by rewrite (Hcommit _ _ _ Hm Hm').
  - apply lookup_step in Hl as [Hin ->]; [|done]. rewrite bool_decide_false by done.
    destruct (fetch id w) as [[m|e] w1] eqn:Hf; simpl; intros [= <- <- <-]; [|done]. split; [done|].
    destruct (Hv m eq_refl) as [Hm _].
    destruct (step_wf _ _ _ Hwf (st_insert _ id m Hne Hm)) as (_ & _ & Hord).
    rewrite He in Hord. exact (Hord _ Ho).
Qed.
End store.
End ManifestStore.
