(* ===== verification/ManifestFeed.v ===== *)
(** * The member's manifest follower (member/manifestfeed/feed.go)

    One follower per member reads the safe watermark, takes the manifest it
    names from the store, walks its parents back to the last accepted manifest,
    and hands the result to the installer as an [Update]. An update is accepted
    only once the installer applied it. The counters are kept; the timer of Run
    and the logs are not: a run is a sequence of [step]s at any times.

    [others] is what the store's other readers do between two of the follower's
    own reads. *)
From S2P Require Import Prelude Types InstallJournal ManifestStore.
Import ManifestStore.

Module ManifestFeed.

Definition Second : Z := 10 ^ 9.
Definition DefaultMaxWalk : Z := 64.
Definition DefaultPollInterval : Z := 5 * Second.
Definition MinPollInterval : Z := Second.

(** Durations are nanoseconds. *)
Record Config := mkConfig { cf_MaxWalk : Z; cf_CacheEntries : Z; cf_PollInterval : Z }.

Record FollowerStats := mkStats {
  fs_Accepted : N; fs_Refused : N; fs_FullFetches : N; fs_UpdateFailures : N; fs_Last : string }.

Record Follower := mkFollower {
  fo_cfg : Config; fo_last : string; fo_lastEntries : gmap N TrackFrontier; fo_stats : FollowerStats }.

Definition NewFollower (cfg : Config) (last : string) (lastEntries : gmap N TrackFrontier) : option Follower :=
  let walk := if (cf_MaxWalk cfg <=? 0)%Z then DefaultMaxWalk else cf_MaxWalk cfg in
  let cache := if (cf_CacheEntries cfg <=? 0)%Z then Z.of_nat DefaultCacheEntries else cf_CacheEntries cfg in
  let made poll := mkFollower (mkConfig walk cache poll) last lastEntries (mkStats 0 0 0 0 last) in
  if (cf_PollInterval cfg =? 0)%Z then Some (made DefaultPollInterval) else
  if (cf_PollInterval cfg <? MinPollInterval)%Z then None else Some (made (cf_PollInterval cfg)).

Definition sorted_owners {A} (m : gmap N A) : list N := merge_sort N.le (map_to_list m).*1.

(** An entry goes back when either component does. *)
Definition went_back (was now : TrackFrontier) : bool :=
  bool_decide (tf_SafeBlockSeq now < tf_SafeBlockSeq was)%N ||
  bool_decide (tf_AppliedPromotionSeq now < tf_AppliedPromotionSeq was)%N.

(** The loop over the last accepted entries: the first owner whose entry went
    back. *)
Fixpoint first_back (lastEntries entries : gmap N TrackFrontier) (owners : list N) : option N :=
  match owners with
  | [] => None
  | o :: owners =>
      if went_back (get_or zero_frontier lastEntries o) (get_or zero_frontier entries o) then Some o
      else first_back lastEntries entries owners
  end.

Definition changed_owners (lastEntries entries : gmap N TrackFrontier) : list N :=
  filter (fun o => lastEntries !! o ≠ entries !! o) (sorted_owners entries).

Section follower.
Context `{Replay, Source} (others : Store * remote → Store * remote).

Definition read (id : string) (sw : Store * remote) : result ferr SafeSnapshotManifest * (Store * remote) :=
  GetSafeSnapshot id (others sw).

(** OwnerEntry's value is the zero entry when it reports none. *)
Definition entries_of (m : SafeSnapshotManifest) : gmap N TrackFrontier :=
  foldl (fun es tf => <[tf_IndexerID tf := default zero_frontier (OwnerEntry m (tf_IndexerID tf))]> es)
    ∅ (m_TrackFrontiers m).

(** The walk after [hops - 1] hops, with [togo] of MaxWalk left: [togo = 0] is
    [hops >= MaxWalk]. The answer is the hops followed and whether it gave up. *)
Fixpoint walk_loop (togo hops : nat) (cur : SafeSnapshotManifest) (last : string) (sw : Store * remote)
    : result ferr (nat * bool) * (Store * remote) :=
  let parent := m_ParentSnapshotID cur in
  if bool_decide (parent = last) then (Ok (hops, false), sw) else
  if bool_decide (parent = EmptyString) then (Err (ERefused RNotDescended), sw) else
  match togo with
  | 0 => (Ok (hops, true), sw)
  | S togo =>
      match read parent sw with
      | (Err e, sw) => (Err e, sw)
      | (Ok next, sw) => walk_loop togo (S hops) next last sw
      end
  end.

Definition walk (cfg : Config) (w : SafeSnapshotManifest) (last : string) (sw : Store * remote)
    : result ferr (nat * bool) * (Store * remote) :=
  walk_loop (pred (Z.to_nat (cf_MaxWalk cfg))) 1 w last sw.

(** The part of compute that follows the walk. *)
Definition demultiplex (m : SafeSnapshotManifest) (lastEntries : gmap N TrackFrontier) (walked : nat)
    (fullFetch : bool) : result ferr Update :=
  let entries := entries_of m in
  match first_back lastEntries entries (sorted_owners lastEntries) with
  | Some owner => Err (ERefused (REntryBack owner))
  | None =>
      Ok (mkUpdate (m_SnapshotID m) (m_ParentSnapshotID m) (m_SafeBlockSeq m) m entries
            (changed_owners lastEntries entries) fullFetch walked)
  end.

Definition compute (cfg : Config) (last : string) (lastEntries : gmap N TrackFrontier) (sw : Store * remote)
    : result ferr (option Update) * (Store * remote) :=
  let '(s, w) := sw in
  match GetSafeWatermark w with
  | (None, w) => (Err EWatermark, (s, w))
  | (Some wm, w) =>
      if bool_decide (wm_SnapshotID wm = EmptyString) || bool_decide (wm_SnapshotID wm = last)
      then (Ok None, (s, w)) else
      match read (wm_SnapshotID wm) (s, w) with
      | (Err e, sw) => (Err e, sw)
      | (Ok m, sw) =>
          if bool_decide (wm_ManifestRoot wm ≠ m_ManifestRoot m) then (Err (ERefused RWatermarkRoot), sw) else
          if bool_decide (length (m_TrackFrontiers m) = 0) then (Err (ERefused RNoFrontiers), sw) else
          match (if bool_decide (last ≠ EmptyString) then walk cfg m last sw else (Ok (0, true), sw)) with
          | (Err e, sw) => (Err e, sw)
          | (Ok (walked, fullFetch), sw) =>
              (let* u := demultiplex m lastEntries walked fullFetch in Ok (Some u), sw)
          end
      end
  end.

Definition bump (n : N) : N := u64 (n + 1).

Definition with_stats (g : FollowerStats → FollowerStats) (f : Follower) : Follower :=
  mkFollower (fo_cfg f) (fo_last f) (fo_lastEntries f) (g (fo_stats f)).

Definition next (f : Follower) (sw : Store * remote) : result ferr (option Update) * Follower * (Store * remote) :=
  let '(r, sw) := compute (fo_cfg f) (fo_last f) (fo_lastEntries f) sw in
  let f := match r with
           | Err (ERefused _) =>
               with_stats (fun t => mkStats (fs_Accepted t) (bump (fs_Refused t)) (fs_FullFetches t)
                                      (fs_UpdateFailures t) (fs_Last t)) f
           | _ => f
           end in
  (r, f, sw).

Definition accept (u : Update) (f : Follower) : Follower :=
  let t := fo_stats f in
  mkFollower (fo_cfg f) (u_SnapshotID u) (u_Entries u)
    (mkStats (bump (fs_Accepted t)) (fs_Refused t)
       (if u_FullFetch u then bump (fs_FullFetches t) else fs_FullFetches t) (fs_UpdateFailures t) (u_SnapshotID u)).

Definition Poll (f : Follower) (sw : Store * remote) : result ferr (option Update) * Follower * (Store * remote) :=
  match next f sw with
  | (Ok (Some u), f, sw) => (Ok (Some u), accept u f, sw)
  | r => r
  end.

(** One round of Run: the callback's own state is [A]; [false] is its error. *)
Definition step {A} (onUpdate : Update → A → bool * A) (f : Follower) (sw : Store * remote) (a : A)
    : Follower * (Store * remote) * A :=
  match next f sw with
  | (Ok (Some u), f, sw) =>
      let '(ok, a) := onUpdate u a in
      if ok then (accept u f, sw, a) else
      (with_stats (fun t => mkStats (fs_Accepted t) (fs_Refused t) (fs_FullFetches t)
                              (bump (fs_UpdateFailures t)) (fs_Last t)) f, sw, a)
  | (_, f, sw) => (f, sw, a)
  end.
End follower.

(** ** What an offered update is *)

(** [descends k m last]: the parents of [m], each verified, reach [last] after
    [k] hops and not before. *)
Inductive descends `{Replay} : nat → SafeSnapshotManifest → string → Prop :=
| desc_parent m : descends 1 m (m_ParentSnapshotID m)
| desc_hop k m p last :
    m_ParentSnapshotID m ≠ last → m_ParentSnapshotID m ≠ EmptyString →
    verified (m_ParentSnapshotID m) p → descends k p last → descends (S k) m last.

Definition frontier_le (a b : TrackFrontier) : Prop :=
  (tf_SafeBlockSeq a ≤ tf_SafeBlockSeq b)%N ∧ (tf_AppliedPromotionSeq a ≤ tf_AppliedPromotionSeq b)%N.

(** No owner's entry is below: an owner without an entry counts as zero. *)
Definition entries_le (a b : gmap N TrackFrontier) : Prop :=
  ∀ o, frontier_le (get_or zero_frontier a o) (get_or zero_frontier b o).

(** What [compute] promises of the update it offers over the last accepted
    manifest [last] and its entries. *)
Record offered `{Replay} (cfg : Config) (last : string) (lastEntries : gmap N TrackFrontier) (u : Update) : Prop := {
  of_id : u_SnapshotID u ≠ last ∧ u_SnapshotID u ≠ EmptyString;
  of_verified : verified (u_SnapshotID u) (u_Manifest u);
  of_copied : u_ParentSnapshotID u = m_ParentSnapshotID (u_Manifest u) ∧
              u_SafeBlockSeq u = m_SafeBlockSeq (u_Manifest u);
  of_frontiers : m_TrackFrontiers (u_Manifest u) ≠ [];
  of_entries : ∀ o, u_Entries u !! o =
    if bool_decide (o ∈ tf_IndexerID <$> m_TrackFrontiers (u_Manifest u))
    then Some (default zero_frontier (OwnerEntry (u_Manifest u) o)) else None;
  of_forward : entries_le lastEntries (u_Entries u);
  of_changed_sorted : StronglySorted N.lt (u_Changed u);
  of_changed : ∀ o, o ∈ u_Changed u ↔ is_Some (u_Entries u !! o) ∧ lastEntries !! o ≠ u_Entries u !! o;
  of_walk : u_FullFetch u = false →
    last ≠ EmptyString ∧ descends (u_Walked u) (u_Manifest u) last ∧ (Z.of_nat (u_Walked u) ≤ cf_MaxWalk cfg)%Z;
  of_full : u_FullFetch u = true → last ≠ EmptyString →
    Z.of_nat (u_Walked u) = cf_MaxWalk cfg ∧
    ((∀ i m m', verified i m → verified i m' → m = m') →
     ∀ k, (Z.of_nat k ≤ cf_MaxWalk cfg)%Z → ¬ descends k (u_Manifest u) last) }.

(** ** Lemmas *)
Lemma elem_of_sorted_owners {A} (m : gmap N A) o : o ∈ sorted_owners m ↔ is_Some (m !! o).
Proof.
  unfold sorted_owners. rewrite (merge_sort_Permutation N.le). rewrite list_elem_of_fmap. split.
  - intros ([o' a] & -> & Ha%elem_of_map_to_list). by exists a.
  - intros [a Ha]. exists (o, a). by rewrite elem_of_map_to_list.
Qed.

Lemma sorted_nodup_lt (l : list N) : StronglySorted N.le l → NoDup l → StronglySorted N.lt l.
Proof.
  induction 1 as [|x l Hl IH Hx]; [constructor|]. rewrite NoDup_cons. intros [Hnx Hnd].
  constructor; [by apply IH|]. rewrite Forall_forall in Hx |- *. intros y Hy.
  apply N.le_neq. split; [by apply Hx|]. by intros ->.
Qed.

Lemma sorted_owners_sorted {A} (m : gmap N A) : StronglySorted N.lt (sorted_owners m).
Proof.
  apply (sorted_nodup_lt (sorted_owners m)).
  - apply (StronglySorted_merge_sort N.le).
  - unfold sorted_owners. rewrite (merge_sort_Permutation N.le). apply NoDup_fst_map_to_list.
Qed.

Lemma first_back_none lastEntries entries :
  first_back lastEntries entries (sorted_owners lastEntries) = None → entries_le lastEntries entries.
Proof.
  intros Hnone o. destruct (lastEntries !! o) as [e|] eqn:He.
  2:{ unfold get_or at 1. rewrite He. split; apply N.le_0_l. }
  assert (o ∈ sorted_owners lastEntries) as Ho by (apply elem_of_sorted_owners; by eexists). clear e He.
  revert Ho. induction (sorted_owners lastEntries) as [|x l IH]; [by intros ?%elem_of_nil|].
  simpl in Hnone. destruct (went_back _ _) eqn:Hback; [done|]. intros [->|Ho]%elem_of_cons; [|by apply IH].
  unfold went_back in Hback. unbool. split; lia.
Qed.

Lemma strongly_sorted_filter (P : N → Prop) `{∀ x, Decision (P x)} (l : list N) :
  StronglySorted N.lt l → StronglySorted N.lt (filter P l).
Proof.
  induction 1 as [|x l Hl IH Hx]; [constructor|]. rewrite filter_cons. case_decide; [|done].
  constructor; [done|]. rewrite Forall_forall in Hx |- *. intros y [_ Hy]%list_elem_of_filter. by apply Hx.
Qed.

Section proofs.
Context `{RP : Replay, SR : Source} (others : Store * remote → Store * remote).
Hypothesis others_steps : ∀ s w s' w', others (s, w) = (s', w') → ∃ uses, store_steps s uses s'.

Lemma entries_of_lookup m o :
  entries_of m !! o =
  if bool_decide (o ∈ tf_IndexerID <$> m_TrackFrontiers m)
  then Some (default zero_frontier (OwnerEntry m o)) else None.
Proof.
  unfold entries_of. induction (m_TrackFrontiers m) as [|tf l IH] using rev_ind.
  { simpl; by rewrite lookup_empty. }
  rewrite foldl_app, fmap_app. simpl. destruct (decide (tf_IndexerID tf = o)) as [<-|Hne].
  - rewrite lookup_insert_eq, bool_decide_true; [done|]. rewrite elem_of_app, list_elem_of_singleton. by right.
  - rewrite lookup_insert_ne by done. rewrite IH. apply (f_equal (fun b : bool => if b then _ else _)).
    apply bool_decide_ext. rewrite elem_of_app, list_elem_of_singleton. naive_solver.
Qed.

Lemma other_steps_wf s uses s' : store_wf s → store_steps s uses s' → store_wf s'.
Proof.
  intros Hwf. induction 1 as [|s uses s' use s'' _ IH Hstep]; [done|].
  by destruct (step_wf _ _ _ (IH Hwf) Hstep) as (? & _).
Qed.

Lemma read_ok id sw r sw' :
  store_wf sw.1 → read others id sw = (r, sw') →
  store_wf sw'.1 ∧ ∀ m, r = Ok m → verified id m ∧ id ≠ EmptyString.
Proof.
  destruct sw as [s w], sw' as [s' w']. unfold read. destruct (others (s, w)) as [s1 w1] eqn:Ho. intros Hwf Hr.
  destruct (others_steps _ _ _ _ Ho) as [uses Hs]. apply (other_steps_wf _ _ _ Hwf) in Hs.
  by destruct (read_steps _ _ _ _ _ _ Hs Hr) as (? & _ & ? & _).
Qed.

Lemma walk_ok togo hops m last sw r sw' :
  store_wf sw.1 → walk_loop others togo hops m last sw = (r, sw') →
  store_wf sw'.1 ∧
  match r with
  | Ok (n, false) => ∃ k, n + 1 = hops + k ∧ k ≤ S togo ∧ descends k m last
  | Ok (n, true) => n = hops + togo ∧
      ((∀ i m m', verified i m → verified i m' → m = m') → ∀ k, k ≤ S togo → ¬ descends k m last)
  | Err _ => True
  end.
Proof.
  revert hops m sw. induction togo as [|togo IH]; intros hops m sw Hwf; simpl;
    (case_bool_decide as Hlast; [intros [= <- <-]; split; [done|]; exists 1; subst; split_and!; [lia|lia|constructor]|]);
    (case_bool_decide as Hroot; [by intros [= <- <-]|]).
  - intros [= <- <-]. split_and!; [done|lia|]. intros Hc k Hk Hd. destruct Hd as [|k m p last ?? Hp Hd]; [done|].
    destruct Hd; lia.
  - destruct (read others _ sw) as [[p|e] sw1] eqn:Hr; destruct (read_ok _ _ _ _ Hwf Hr) as [Hwf1 Hv].
    2:{ by intros [= <- <-]. }
    intros Hw. destruct (Hv p eq_refl) as [Hp _]. destruct (IH _ _ _ Hwf1 Hw) as [Hwf' Hres]. split; [done|].
    destruct r as [[n []]|e]; [| |done].
    + destruct Hres as [-> Hno]. split; [lia|]. intros Hc k Hk Hd.
      destruct Hd as [|k m p' last ?? Hp' Hd]; [done|]. rewrite (Hc _ _ _ Hp' Hp) in Hd.
      by apply (Hno Hc k ltac:(lia)).
    + destruct Hres as (k & Hn & Hk & Hd). exists (S k). split_and!; [lia|lia|by eapply desc_hop].
Qed.

Lemma demultiplex_ok m last lastEntries walked full u cfg :
  verified (m_SnapshotID m) m → m_SnapshotID m ≠ last → m_SnapshotID m ≠ EmptyString → m_TrackFrontiers m ≠ [] →
  (full = false →
    last ≠ EmptyString ∧ descends walked m last ∧ (Z.of_nat walked ≤ cf_MaxWalk cfg)%Z) →
  (full = true → last ≠ EmptyString →
    Z.of_nat walked = cf_MaxWalk cfg ∧
    ((∀ i m m', verified i m → verified i m' → m = m') →
     ∀ k, (Z.of_nat k ≤ cf_MaxWalk cfg)%Z → ¬ descends k m last)) →
  demultiplex m lastEntries walked full = Ok u → offered cfg last lastEntries u.
Proof.
  intros Hv Hne He Hf Hwalk Hfull. unfold demultiplex.
  destruct (first_back _ _ _) eqn:Hback; [done|]. intros [= <-]. apply first_back_none in Hback.
  split; simpl; try done.
  - apply entries_of_lookup.
  - apply strongly_sorted_filter, sorted_owners_sorted.
  - intros o. unfold changed_owners. rewrite list_elem_of_filter, elem_of_sorted_owners. tauto.
Qed.

Lemma compute_ok cfg last lastEntries sw r sw' :
  (0 < cf_MaxWalk cfg)%Z → store_wf sw.1 → compute others cfg last lastEntries sw = (r, sw') →
  store_wf sw'.1 ∧ ∀ u, r = Ok (Some u) → offered cfg last lastEntries u.
Proof.
  intros Hmax. destruct sw as [s w]. intros Hwf. unfold compute.
  destruct (GetSafeWatermark w) as [[wm|] w1]; [|by intros [= <- <-]].
  destruct (_ || _) eqn:Hsame; [by intros [= <- <-]|]. unbool.
  destruct (read others _ _) as [[m|e] sw1] eqn:Hr; destruct (read_ok _ (s, w1) _ _ Hwf Hr) as [Hwf1 Hv];
    [|by intros [= <- <-]].
  destruct (Hv m eq_refl) as [Hm Hid]. pose proof (proj1 (verified_inv _ _) Hm) as [Hmid _].
  case_bool_decide; [by intros [= <- <-]|]. case_bool_decide as Hlen; [by intros [= <- <-]|].
  case_bool_decide as Hlast.
  - destruct (walk others cfg m last sw1) as [[[n full]|e] sw2] eqn:Hw;
      (apply walk_ok in Hw as [Hwf2 Hres]; [|done]); intros [= <- <-]; [|done]. split; [done|].
    intros u Hu. go_inv. simplify_eq. eapply demultiplex_ok; try done; try congruence.
    + by intros Hnil; rewrite Hnil in Hlen.
    + intros ->. destruct Hres as (k & Hn & Hk & Hd). split_and!; [done| |lia]. by replace n with k by lia.
    + intros -> _. destruct Hres as [-> Hno]. split; [lia|]. intros Hc k Hk. apply Hno; [done|lia].
  - subst last. intros [= <- <-]. split; [done|].
    intros u Hu. go_inv. simplify_eq. eapply demultiplex_ok; try done; try congruence.
    by intros Hnil; rewrite Hnil in Hlen.
Qed.

Lemma next_ok f sw r f' sw' :
  (0 < cf_MaxWalk (fo_cfg f))%Z → store_wf sw.1 → next others f sw = (r, f', sw') →
  store_wf sw'.1 ∧ fo_cfg f' = fo_cfg f ∧ fo_last f' = fo_last f ∧ fo_lastEntries f' = fo_lastEntries f ∧
  ∀ u, r = Ok (Some u) → f' = f ∧ offered (fo_cfg f) (fo_last f) (fo_lastEntries f) u.
Proof.
  intros Hmax Hwf. unfold next. destruct (compute _ _ _ _ sw) as [r1 sw1] eqn:Hc. intros [= <- <- <-].
  destruct (compute_ok _ _ _ _ _ _ Hmax Hwf Hc) as [Hwf' Hu].
  split_and!; [done| | | |]; [by destruct r1 as [?|[]]..|]. intros u ->. split; [done|by apply Hu].
Qed.
End proofs.

(** ** Histories *)

(** One step of the member: a poll, a round of Run, a locked section of another
    reader of the store, or a change of the arbiter's state. *)
Inductive feed_step `{Replay, Source} {A} (others : Store * remote → Store * remote)
    (onUpdate : Update → A → bool * A)
    : Follower * (Store * remote) * A → Follower * (Store * remote) * A → Prop :=
| feed_poll f sw a r f' sw' : Poll others f sw = (r, f', sw') → feed_step others onUpdate (f, sw, a) (f', sw', a)
| feed_round f sw a : feed_step others onUpdate (f, sw, a) (step others onUpdate f sw a)
| feed_reader f s w a use s' : store_step s use s' → feed_step others onUpdate (f, (s, w), a) (f, (s', w), a)
| feed_arbiter f s w w' a : feed_step others onUpdate (f, (s, w), a) (f, (s, w'), a).

Section histories.
Context `{RP : Replay, SR : Source} {A : Type}.
Context (others : Store * remote → Store * remote) (onUpdate : Update → A → bool * A).
Hypothesis others_steps : ∀ s w s' w', others (s, w) = (s', w') → ∃ uses, store_steps s uses s'.

(** [moved f f']: [f'] is [f], or it accepted an update over some earlier state
    whose entries are not below [f]'s. *)
Definition moved (f f' : Follower) : Prop :=
  fo_cfg f' = fo_cfg f ∧ entries_le (fo_lastEntries f) (fo_lastEntries f') ∧
  ((fo_last f' = fo_last f ∧ fo_lastEntries f' = fo_lastEntries f) ∨
   ∃ m, verified (fo_last f') m ∧ m_TrackFrontiers m ≠ [] ∧ fo_lastEntries f' = entries_of m).

Lemma entries_le_refl a : entries_le a a.
Proof. by intros o; split. Qed.
Lemma entries_le_trans a b c : entries_le a b → entries_le b c → entries_le a c.
Proof. intros H1 H2 o. destruct (H1 o), (H2 o). split; by etransitivity. Qed.

Lemma moved_same f f' :
  fo_cfg f' = fo_cfg f → fo_last f' = fo_last f → fo_lastEntries f' = fo_lastEntries f → moved f f'.
Proof. intros Hc Hl He. split_and!; [done|rewrite He; apply entries_le_refl|by left]. Qed.

Lemma moved_trans f1 f2 f3 : moved f1 f2 → moved f2 f3 → moved f1 f3.
Proof.
  intros (Hc & He & Hm) (Hc' & He' & Hm'). split_and!; [congruence|by eapply entries_le_trans|].
  destruct Hm' as [[Hl Hes]|Hm']; [|by right]. rewrite Hl, Hes. done.
Qed.

Lemma moved_accept u f : offered (fo_cfg f) (fo_last f) (fo_lastEntries f) u → moved f (accept u f).
Proof.
  intros [? Hv ? Hf He Hfwd ????]. split_and!; [done|done|]. right. exists (u_Manifest u).
  split_and!; [done|done|]. simpl. apply map_eq. intros o. by rewrite He, entries_of_lookup.
Qed.

Lemma feed_step_moved st st' :
  (0 < cf_MaxWalk (fo_cfg st.1.1))%Z → store_wf st.1.2.1 → feed_step others onUpdate st st' →
  store_wf st'.1.2.1 ∧ moved st.1.1 st'.1.1.
Proof using others_steps.
  intros Hmax Hwf Hstep. destruct Hstep as [f sw a r f' sw' Hp|f sw a|f s w a use s' Hs|f s w w' a]; simpl in *.
  - unfold Poll in Hp. destruct (next others f sw) as [[r1 f1] sw1] eqn:Hn.
    destruct (next_ok _ others_steps _ _ _ _ _ Hmax Hwf Hn) as (Hwf' & Hc & Hl & He & Hu).
    destruct r1 as [[u|]|e]; simplify_eq; [|by split; [|apply moved_same]..].
    destruct (Hu u eq_refl) as [-> Hof]. split; [done|by apply moved_accept].
  - unfold step. destruct (next others f sw) as [[r1 f1] sw1] eqn:Hn.
    destruct (next_ok _ others_steps _ _ _ _ _ Hmax Hwf Hn) as (Hwf' & Hc & Hl & He & Hu).
    destruct r1 as [[u|]|e]; simpl; [|by split; [|apply moved_same]..].
    destruct (Hu u eq_refl) as [-> Hof]. destruct (onUpdate u a) as [[] a']; (split; [done|]); [by apply moved_accept|by apply moved_same].
  - split; [|by apply moved_same]. by destruct (step_wf _ _ _ Hwf Hs).
  - split; [done|by apply moved_same].
Qed.

Lemma history_moved st st' :
  (0 < cf_MaxWalk (fo_cfg st.1.1))%Z → store_wf st.1.2.1 → rtc (feed_step others onUpdate) st st' →
  store_wf st'.1.2.1 ∧ moved st.1.1 st'.1.1.
Proof using others_steps.
  intros Hmax Hwf. induction 1 as [st|st st1 st' Hstep Hrest IH]; [split; [done|by apply moved_same]|].
  destruct (feed_step_moved _ _ Hmax Hwf Hstep) as [Hwf1 Hm1]. pose proof Hm1 as (Hc & _).
  destruct IH as [Hwf' Hm']; [by rewrite Hc|done|]. split; [done|by eapply moved_trans].
Qed.

Lemma new_follower_maxwalk cfg last lastEntries f :
  NewFollower cfg last lastEntries = Some f →
  (0 < cf_MaxWalk (fo_cfg f))%Z ∧ fo_last f = last ∧ fo_lastEntries f = lastEntries.
Proof.
  unfold NewFollower, DefaultMaxWalk. intros Hf.
  destruct (Z.leb_spec (cf_MaxWalk cfg) 0); destruct (_ =? 0)%Z; try destruct (_ <? _)%Z;
    simplify_eq/=; split_and!; lia || done.
Qed.

(** C25: The follower never takes an owner's track back and never leaves the
    verified manifests. After any history of polls, rounds of Run with any
    callback, reads of the shared store and changes of the arbiter, from a
    follower made over the journaled entries: every owner's entry is at least
    the journaled one in both components; and the follower is either still at
    the journaled manifest or at a verified manifest, with exactly the entries
    it publishes. Whatever update the next computation then offers has all the
    properties the installer relies on ([offered]): it is a verified manifest
    that carries tracks, no entry of it is below the last accepted one, the
    changed owners are exactly those whose entry differs, and unless it reports
    a full fetch its parents lead to the last accepted manifest within MaxWalk
    hops. *)
Theorem follower_never_goes_back cfg last lastEntries entries f w a st :
  NewFollower cfg last lastEntries = Some f →
  rtc (feed_step others onUpdate) (f, (NewStore entries, w), a) st →
  let f' := st.1.1 in
  entries_le lastEntries (fo_lastEntries f') ∧
  ((fo_last f' = last ∧ fo_lastEntries f' = lastEntries) ∨
   ∃ m, verified (fo_last f') m ∧ m_TrackFrontiers m ≠ [] ∧ fo_lastEntries f' = entries_of m) ∧
  ∀ u sw' f'', next others f' st.1.2 = (Ok (Some u), f'', sw') →
    f'' = f' ∧ offered (fo_cfg f') (fo_last f') (fo_lastEntries f') u.
Proof using others_steps.
  intros Hf Hsteps f'. destruct (new_follower_maxwalk _ _ _ _ Hf) as (Hmax & Hl & He).
  destruct (history_moved (f, (NewStore entries, w), a) _ Hmax (new_store_wf entries) Hsteps) as [Hwf (Hc & Hle & Hm)].
  simpl in *. rewrite Hl, He in Hm. rewrite He in Hle. split_and!; [done|done|].
  intros u sw' f'' Hn. assert (0 < cf_MaxWalk (fo_cfg f'))%Z as Hmax' by (unfold f'; by rewrite Hc).
  destruct (next_ok _ others_steps _ _ _ _ _ Hmax' Hwf Hn) as (_ & _ & _ & _ & Hu). by apply Hu.
Qed.
End histories.

(** ** Catching up *)
Section catch_up.
Context `{RP : Replay, SR : Source} {A : Type}.
Context (others : Store * remote → Store * remote) (onUpdate : Update → A → bool * A).

(** The arbiter rests at [w]: it answers every read, the watermark [wm] and the
    manifests [pub], and the other readers of the store leave it there. *)
Context (w : remote) (wm : SafeWatermark) (pub : string → option SafeSnapshotManifest).
Hypothesis watermark_rests : GetSafeWatermark w = (Some wm, w).
Hypothesis manifests_rest : ∀ id, GetManifest id w = (pub id, w).
Hypothesis others_rest : ∀ s, ∃ s' uses, others (s, w) = (s', w) ∧ store_steps s uses s'.
Hypothesis root_commits : ∀ i m m', verified i m → verified i m' → m = m'.

(** From [m] the walk meets published, valid manifests only, up to [last] or for
    [togo] hops. *)
Fixpoint walkable (togo : nat) (m : SafeSnapshotManifest) (last : string) : Prop :=
  m_ParentSnapshotID m = last ∨
  m_ParentSnapshotID m ≠ EmptyString ∧
  match togo with
  | 0 => True
  | S togo => ∃ p, pub (m_ParentSnapshotID m) = Some p ∧ verified (m_ParentSnapshotID m) p ∧ walkable togo p last
  end.

Lemma read_published id m s :
  store_wf s → id ≠ EmptyString → pub id = Some m → verified id m →
  ∃ s', read others id (s, w) = (Ok m, (s', w)) ∧ store_wf s'.
Proof.
  intros Hwf Hne Hpub Hm. destruct (others_rest s) as (s1 & uses & Ho & Hs).
  apply (other_steps_wf _ _ _ Hwf) in Hs. unfold read. rewrite Ho.
  destruct (GetSafeSnapshot id (s1, w)) as [r [s' w']] eqn:Hr. pose proof Hr as Hr'.
  destruct (read_steps _ _ _ _ _ _ Hs Hr) as (Hwf' & _ & Hv & _). exists s'. split; [|done].
  revert Hr'. unfold GetSafeSnapshot, fetch. rewrite bool_decide_false by done.
  destruct (lookup id s1) as [[m'|] s2]; [|rewrite manifests_rest, Hpub; rewrite Hm]; intros [= <- <- <-]; [|done].
  destruct (Hv m' eq_refl) as [Hm' _]. by rewrite (root_commits _ _ _ Hm Hm').
Qed.

Lemma walk_published togo hops m last s :
  store_wf s → walkable togo m last →
  ∃ r s', walk_loop others togo hops m last (s, w) = (Ok r, (s', w)) ∧ store_wf s'.
Proof.
  revert hops m s. induction togo as [|togo IH]; intros hops m s Hwf [Hlast|[Hne Hp]]; simpl;
    (case_bool_decide; [by eauto|]; try done); rewrite (bool_decide_false (_ = EmptyString)) by done; [by eauto|].
  destruct Hp as (p & Hpub & Hp & Hwalk). destruct (read_published _ _ _ Hwf Hne Hpub Hp) as (s' & -> & Hwf').
  by apply IH.
Qed.

Lemma first_back_forward lastEntries entries owners :
  entries_le lastEntries entries → first_back lastEntries entries owners = None.
Proof.
  intros Hle. induction owners as [|o owners IH]; [done|]. simpl. destruct (Hle o) as [H1 H2].
  unfold went_back. rewrite !bool_decide_false by lia. done.
Qed.

(** C26: The follower catches up in one round. While the arbiter rests at a
    valid watermark manifest that carries tracks, takes no owner's entry back
    and is connected through valid published manifests to the last accepted one
    (or to the walk's bound), one round of Run offers exactly that manifest to
    the installer; when the installer applies it the follower is at the
    watermark, and the rounds after it offer nothing until the watermark moves. *)
Theorem follower_catches_up f s a m :
  store_wf s → wm_SnapshotID wm ≠ EmptyString → wm_SnapshotID wm ≠ fo_last f →
  pub (wm_SnapshotID wm) = Some m → verified (wm_SnapshotID wm) m → wm_ManifestRoot wm = m_ManifestRoot m →
  m_TrackFrontiers m ≠ [] → entries_le (fo_lastEntries f) (entries_of m) →
  (fo_last f = EmptyString ∨ walkable (pred (Z.to_nat (cf_MaxWalk (fo_cfg f)))) m (fo_last f)) →
  ∃ u s', next others f (s, w) = (Ok (Some u), f, (s', w)) ∧ store_wf s' ∧ u_Manifest u = m ∧
    ∀ a', onUpdate u a = (true, a') →
      step others onUpdate f (s, w) a = (accept u f, (s', w), a') ∧
      fo_last (accept u f) = wm_SnapshotID wm ∧
      ∀ a'', step others onUpdate (accept u f) (s', w) a'' = (accept u f, (s', w), a'').
Proof using watermark_rests manifests_rest others_rest root_commits.
  intros Hwf Hne Hmoved Hpub Hm Hroot Htf Hle Hwalk.
  destruct (read_published _ _ _ Hwf Hne Hpub Hm) as (s1 & Hread & Hwf1).
  assert (∃ n full s', (if bool_decide (fo_last f ≠ EmptyString) then walk others (fo_cfg f) m (fo_last f) (s1, w)
    else (Ok (0, true), (s1, w))) = (Ok (n, full), (s', w)) ∧ store_wf s') as (n & full & s' & Hw & Hwf').
  { case_bool_decide as Hl; [|by eauto]. destruct Hwalk as [?|Hwalk]; [done|].
    destruct (walk_published _ 1 _ _ _ Hwf1 Hwalk) as ([n full] & s' & Hw & Hwf'). by exists n, full, s'. }
  assert (next others f (s, w) = (Ok (Some (mkUpdate (m_SnapshotID m) (m_ParentSnapshotID m) (m_SafeBlockSeq m) m
            (entries_of m) (changed_owners (fo_lastEntries f) (entries_of m)) full n)), f, (s', w))) as Hnext.
  { unfold next, compute. rewrite watermark_rests, !bool_decide_false by done. simpl. rewrite Hread.
    rewrite (bool_decide_false (wm_ManifestRoot wm ≠ _)) by (by intros Hr; apply Hr).
    rewrite (bool_decide_false (length _ = 0)) by (by destruct (m_TrackFrontiers m)). rewrite Hw.
    unfold demultiplex. by rewrite first_back_forward. }
  eexists _, s'. split_and!; [exact Hnext|done|done|]. intros a' Ha.
  pose proof (proj1 (verified_inv _ _) Hm) as [Hid _]. split_and!.
  - unfold step. by rewrite Hnext, Ha.
  - done.
  - intros a''. unfold step, next, compute. rewrite watermark_rests. simpl fo_last. rewrite Hid.
    rewrite (bool_decide_true (wm_SnapshotID wm = wm_SnapshotID wm)) by done. by rewrite orb_true_r.
Qed.
End catch_up.
End ManifestFeed.
