(* ===== verification/ManifestToy.v ===== *)
(** * A concrete arbiter for the manifest feed

    A toy arbiter whose snapshot ids are strings of letters, the parent of each
    its tail; the hypotheses of the feed's theorems hold of it. *)
From S2P Require Import Prelude Types InstallJournal ManifestStore ManifestFeed.
Import ManifestStore ManifestFeed.

Module ManifestToy.

#[export] Instance PartManifestEntry_eq_dec : EqDecision PartManifestEntry.
Proof. solve_decision. Defined.
#[export] Instance PartitionRoot_eq_dec : EqDecision PartitionRoot.
Proof. solve_decision. Defined.
#[export] Instance TableManifest_eq_dec : EqDecision TableManifest.
Proof. solve_decision. Defined.
#[export] Instance SafeSnapshotManifest_eq_dec : EqDecision SafeSnapshotManifest.
Proof. solve_decision. Defined.

Definition tail_of (id : string) : string := match id with EmptyString => EmptyString | String _ r => r end.

Definition toy_manifest (id : string) : SafeSnapshotManifest :=
  let n := N.of_nat (String.length id) in mkManifest id (tail_of id) n id [mkFrontier 1 n n] [].

#[export] Instance toy_replay : Replay := {|
  Validate m := bool_decide (m = toy_manifest (m_SnapshotID m));
  VerifyLedger _ := true;
  OwnerEntry m o := head (filter (fun tf => tf_IndexerID tf = o) (m_TrackFrontiers m)) |}.

(** The arbiter's state is its watermark. *)
#[export] Instance toy_source : Source := {|
  remote := string;
  GetSafeWatermark w := (Some (mkWatermark w 0 w), w);
  GetManifest id w := (Some (toy_manifest id), w) |}.

Definition resting (watermark : string) : remote := watermark.

Lemma toy_verified id : verified id (toy_manifest id).
Proof. apply verified_inv. split_and!; [done|done| |done]. simpl. by apply bool_decide_eq_true_2. Qed.

Lemma toy_commits i m m' : verified i m → verified i m' → m = m'.
Proof.
  intros (Hi & _ & Hm & _)%verified_inv (Hi' & _ & Hm' & _)%verified_inv. simpl in *. unbool. congruence.
Qed.

Definition uses4 : list string := ["a"; "cba"; "ba"; "a"]%string.
Definition inserted (id : string) : Store → Store := insert id (toy_manifest id).
Definition store4 : Store :=
  (lookup "a" (inserted "cba" (inserted "ba" (inserted "a" (NewStore 3)))))%string.2.

Lemma toy_insert s uses id : id ≠ EmptyString →
  store_steps (NewStore 3) uses s → store_steps (NewStore 3) (id :: uses) (inserted id s).
Proof. intros Hne Hs. eapply (steps_snoc _ _ _ (Some id)); [done|]. apply st_insert, toy_verified. done. Qed.

Lemma toy_steps : store_steps (NewStore 3) uses4 store4.
Proof.
  eapply (steps_snoc _ _ (inserted "cba" (inserted "ba" (inserted "a" (NewStore 3))))%string (Some "a"%string)).
  - apply toy_insert, toy_insert, toy_insert; [done..|constructor].
  - eapply (st_hit _ "a"%string (toy_manifest "a")). vm_compute. reflexivity.
Qed.

(** The fourth id pushes out the least recently used one, "ba". *)
Lemma store_refines_source_witness :
  st_order store4 = ["a"; "cba"; "ba"]%string ∧
  (GetSafeSnapshot "dcba" (store4, resting "dcba"))%string.1 = Ok (toy_manifest "dcba") ∧
  st_order (GetSafeSnapshot "dcba" (store4, resting "dcba"))%string.2.1 = ["dcba"; "a"; "cba"]%string.
Proof.
  destruct (GetSafeSnapshot "dcba"%string (store4, resting "dcba")) as [r [s' w']] eqn:Hr.
  destruct (store_refines_source 3 uses4 store4 "dcba" (resting "dcba") r s' w' toy_commits toy_steps
              ltac:(discriminate) Hr) as (Ho & _ & _ & Hres).
  assert ((fetch "dcba" (resting "dcba"))%string.1 = Ok (toy_manifest "dcba")) as Hf by reflexivity.
  rewrite Hf in Hres. destruct Hres as [-> Ho'].
  split_and!; [rewrite Ho; vm_compute; reflexivity|reflexivity|cbn [fst snd]; rewrite Ho'; vm_compute; reflexivity].
Defined.

Definition toy_follower : Follower :=
  mkFollower (mkConfig 64 16 DefaultPollInterval) "a" {[1%N := mkFrontier 1 1 1]} (mkStats 0 0 0 0 "a").
Definition no_others (sw : Store * remote) : Store * remote := sw.
Definition accept_all (u : Update) (a : unit) : bool * unit := (true, a).

Definition caught_up : Follower * (Store * remote) * unit :=
  step no_others accept_all toy_follower (NewStore 0, resting "cba") ().

Lemma follower_never_goes_back_witness :
  entries_le {[1%N := mkFrontier 1 1 1]} (fo_lastEntries caught_up.1.1) ∧ fo_last caught_up.1.1 = "cba"%string.
Proof.
  split; [|vm_compute; reflexivity].
  apply (follower_never_goes_back no_others accept_all
    (fun s w s' w' (H : no_others (s, w) = (s', w')) =>
       ex_intro _ [] (match H in _ = p return store_steps s [] p.1 with eq_refl => steps_nil s end))
    (mkConfig 0 0 0) "a" {[1%N := mkFrontier 1 1 1]} 0 toy_follower (resting "cba") () caught_up);
    [vm_compute; reflexivity|]. apply rtc_once, feed_round.
Defined.

Lemma follower_catches_up_witness :
  ∃ u s', next no_others toy_follower (NewStore 0, resting "cba") = (Ok (Some u), toy_follower, (s', resting "cba")) ∧
    u_Manifest u = toy_manifest "cba".
Proof.
  destruct (follower_catches_up no_others accept_all (resting "cba") (mkWatermark "cba" 0 "cba")
    (fun id => Some (toy_manifest id)) eq_refl (fun id => eq_refl)
    (fun s => ex_intro _ s (ex_intro _ [] (conj eq_refl (steps_nil s)))) toy_commits
    toy_follower (NewStore 0) () (toy_manifest "cba")) as (u & s' & Hn & _ & Hm & _);
    [apply new_store_wf|done|done|done|apply toy_verified|done|done| | |by exists u, s'].
  - intros o. unfold get_or, toy_follower. simpl fo_lastEntries. destruct (decide (o = 1%N)) as [->|Hne].
    + split; vm_compute; discriminate.
    + rewrite lookup_singleton_ne by done. split; apply N.le_0_l.
  - right. simpl. right. split; [done|]. eexists. split_and!; [done|apply toy_verified|by left].
Defined.
End ManifestToy.
