(* ===== verification/Ddl.v ===== *)
(** * Table names, comments and cadence of the DDL layer (dataplane/ddl)

    The COMMENT that ties a table to its registry incarnation and its parser,
    and the retry delay the role's reconcilers share. *)
From S2P Require Import Prelude Types.

(** ddl.LocalTable *)
Record LocalTable := mkLocal { lt_Database : string; lt_Table : string; lt_Comment : string }.

(** ** Incarnation comments (dataplane/ddl/table.go) *)
Definition incarnationCommentPrefix : string := "hg_incarnation=".

Definition IncarnationComment (seq : N) : string := incarnationCommentPrefix +:+ pretty seq.

Definition digit_value (c : ascii) : N := (N_of_ascii c - 48)%N.

Fixpoint decimal (acc : N) (s : string) : option N :=
  match s with
  | EmptyString => Some acc
  | String c s => if is_digit c then decimal (10 * acc + digit_value c) s else None
  end.

(** strconv.ParseUint(s, 10, 64) *)
Definition ParseUint (s : string) : option N :=
  if bool_decide (s = EmptyString) then None else
  n ← decimal 0 s; if bool_decide (n < u64_mod)%N then Some n else None.

Definition ParseIncarnationComment (comment : string) : option N :=
  if has_prefix incarnationCommentPrefix comment then
    let rest := trim_prefix incarnationCommentPrefix comment in
    seq ← ParseUint rest;
    if bool_decide (seq = 0%N) || bool_decide (pretty seq ≠ rest) then None else Some seq
  else None.

Lemma decimal_go x s : decimal 0 (pretty_N_go x s) = decimal x s.
Proof.
  revert s. induction (N.lt_wf_0 x) as [x _ IH]; intros s. destruct (decide (0 < x)%N).
  - rewrite pretty_N_go_step by done. rewrite IH by (by apply N.div_lt). simpl.
    assert (is_digit (pretty_N_char (x `mod` 10)) = true ∧ digit_value (pretty_N_char (x `mod` 10)) = (x `mod` 10)%N)
      as [-> ->]; [|f_equal; symmetry; by apply N.div_mod].
    assert (x `mod` 10 < 10)%N as Hlt by (by apply N.mod_lt). generalize dependent (x `mod` 10)%N. clear.
    intros [|p] Hp; [done|]. do 9 (destruct p as [p|p|]; try done; try lia).
  - assert (x = 0%N) as -> by lia. by rewrite pretty_N_go_0.
Qed.

Lemma pretty_nonempty (n : N) : pretty n ≠ EmptyString.
Proof.
  unfold pretty, pretty_N. case_decide; [done|]. intros H0.
  pose proof (decimal_go n EmptyString) as Hd. rewrite H0 in Hd. simpl in Hd. congruence.
Qed.

Lemma decimal_pretty (n : N) : decimal 0 (pretty n) = Some n.
Proof. unfold pretty, pretty_N. case_decide; [by subst|]. by rewrite decimal_go. Qed.

Lemma parse_comment c n :
  ParseIncarnationComment c = Some n ↔ c = IncarnationComment n ∧ (0 < n < u64_mod)%N.
Proof.
  unfold ParseIncarnationComment, IncarnationComment, ParseUint. split.
  - destruct (has_prefix _ c) eqn:Hp; [|done]. apply has_prefix_inv in Hp as [rest ->]. rewrite trim_prefix_app.
    case_bool_decide; [done|]. destruct (decimal 0 rest) as [m|]; [|done]. simpl. case_bool_decide; [|done]. simpl.
    destruct (_ || _) eqn:Hor; [done|]. intros [= ->]. unbool. apply dec_stable in Hor. subst rest.
    split; [done|lia].
  - intros [-> Hn]. rewrite has_prefix_app, trim_prefix_app, bool_decide_false by apply pretty_nonempty.
    rewrite decimal_pretty. simpl. rewrite bool_decide_true by lia. simpl.
    rewrite (bool_decide_false (n = 0%N)) by lia. by rewrite bool_decide_false by (by intros []).
Qed.

(** ** Retry delay (dataplane/ddl/reconcile.go), in nanoseconds *)
Definition reconcileBackoffMin : Z := 10 ^ 9.

Fixpoint backoff_loop (n : nat) (backoff interval : Z) : Z :=
  match n with
  | 0 => if (interval <? backoff)%Z then interval else backoff
  | S n => if (interval ÷ 2 <=? backoff)%Z then interval else backoff_loop n (backoff * 2) interval
  end.

Definition ReconcileBackoff (consecutiveFailures interval : Z) : Z :=
  if (interval <=? reconcileBackoffMin)%Z then interval else
  let n := if (consecutiveFailures <? 1)%Z then 1%Z else consecutiveFailures in
  backoff_loop (pred (Z.to_nat n)) reconcileBackoffMin interval.

(** The doubling, capped: the delay is the doubled one or the interval, which it
    reaches a nanosecond early when the interval is odd. *)
Lemma backoff_loop_spec n b i :
  (0 < b ≤ i →
   let d := backoff_loop n b i in
   0 < d ≤ i ∧ Z.min i (b * 2 ^ Z.of_nat n) ≤ d ∧ (d = b * 2 ^ Z.of_nat n ∨ d = i ∧ i ≤ b * 2 ^ Z.of_nat n + 1))%Z.
Proof.
  revert b. induction n as [|n IH]; intros b Hb; cbn [backoff_loop].
  { destruct (Z.ltb_spec i b); lia. }
  rewrite Z.quot_div_nonneg by lia. pose proof (Z.div_mod i 2 ltac:(lia)) as Hdm.
  pose proof (Z.mod_pos_bound i 2 ltac:(lia)) as Hmod. rewrite Nat2Z.inj_succ, Z.pow_succ_r by lia.
  destruct (Z.leb_spec (i `div` 2) b) as [Hle|Hgt].
  - assert (1 ≤ 2 ^ Z.of_nat n)%Z by (apply (Z.pow_le_mono_r 2 0); lia). split_and!; [lia|lia|lia|].
    right. split; [done|]. nia.
  - rewrite Z.mul_assoc. apply IH. lia.
Qed.
