(* ===== verification/Copyset.v ===== *)
(** * The member's copy reconciler (member/copyset, dataplane/registry_schema.go)

    One pass brings the member's hg_replica database to the registry: it drops
    every table that is no copy of a Pending or Active incarnation in scope,
    telling the installer of each, then creates and verifies one copy per such
    incarnation and publishes the copies that are ready. A copy's Generation
    changes whenever its table was created again. The store interface of the
    source is [CopyStore]; what a pass relies on of it is [CopyStoreLaws]. The
    closing of the Changed channel is counted in [rc_signals]; logging is left
    out. The trace records the drops and the calls of the Dropped hook. *)
From S2P Require Import Prelude Types Registry Ddl.
Import Registry.

(** payloadexec and sitable of housegate: the schema type, its hash and its JSON
    decoding, and the copy's name. *)
Class Schemas := {
  Schema_t : Type;
  TableID : Schema_t → string;
  SchemaHash : string → Schema_t → string;
  DecodeTableSchemaJSON : string → string → option Schema_t;
  CopyTableName : string → N → string;
}.

Module Copyset.

Section data.
Context `{Schemas}.

Record Copy := mkCopy {
  cp_Owner : N; cp_TableKey : string; cp_IncarnationSeq : N; cp_Table : string;
  cp_Status : option TableIncarnationStatus; cp_Schema : option Schema_t; cp_Generation : N; cp_Ready : bool }.

(** The member databases, of which the reconciler names ReplicaDB only. *)
Record Config := mkConfig {
  cc_ReplicaDB : string; cc_NetworkID : string; cc_Genesis : list Schema_t; cc_Owners : list N;
  cc_HostIndexerID : N }.

Inductive cerr :=
| ENotAnswered | EList | EDrop (table : string) | EForget (table : string) | EResolve (key : string)
| ETwoLive (key : string) | EOwed (table : string) | EEnsure (table : string).

Inductive cevent := EvDrop (table : string) (ok : bool) | EvHook (table : string) (ok : bool).

Record Reconciler := mkReconciler {
  rc_copies : gmap string Copy; rc_gens : N; rc_ready : list string; rc_signals : nat;
  rc_owed : gmap string Copy; rc_dropped : N; rc_unknown : N; rc_failures : gmap string N;
  rc_trace : list cevent }.

Definition set_owed (o : gmap string Copy) (r : Reconciler) : Reconciler :=
  mkReconciler (rc_copies r) (rc_gens r) (rc_ready r) (rc_signals r) o (rc_dropped r) (rc_unknown r)
    (rc_failures r) (rc_trace r).
Definition set_counts (d u : N) (r : Reconciler) : Reconciler :=
  mkReconciler (rc_copies r) (rc_gens r) (rc_ready r) (rc_signals r) (rc_owed r) d u (rc_failures r) (rc_trace r).
Definition set_gens (g : N) (r : Reconciler) : Reconciler :=
  mkReconciler (rc_copies r) g (rc_ready r) (rc_signals r) (rc_owed r) (rc_dropped r) (rc_unknown r)
    (rc_failures r) (rc_trace r).
Definition log (e : cevent) (r : Reconciler) : Reconciler :=
  mkReconciler (rc_copies r) (rc_gens r) (rc_ready r) (rc_signals r) (rc_owed r) (rc_dropped r) (rc_unknown r)
    (rc_failures r) (e :: rc_trace r).

(** ** Construction *)
Fixpoint owners_ok (host : N) (prev : option N) (owners : list N) : bool :=
  match owners with
  | [] => true
  | o :: owners =>
      negb (match prev with Some p => bool_decide (o ≤ p)%N | None => false end) &&
      negb (bool_decide (o = host)) && owners_ok host (Some o) owners
  end.

(** newReconciler's checks of its own; the databases' are ddl's. *)
Definition newReconciler (cfg : Config) : option Reconciler :=
  if bool_decide (cc_NetworkID cfg = EmptyString) || bool_decide (length (cc_Owners cfg) = 0) ||
     negb (owners_ok (cc_HostIndexerID cfg) None (cc_Owners cfg))
  then None else Some (mkReconciler ∅ 0 [] 0 ∅ 0 0 ∅ []).

(** ** What the registry asks for *)

(** TableIncarnation.Schema *)
Definition Schema (inc : TableIncarnation) : option Schema_t :=
  if bool_decide (ti_SchemaJSON inc = EmptyString) then None
  else DecodeTableSchemaJSON (Key inc) (ti_SchemaJSON inc).

Definition IncarnationSchema (networkID : string) (genesis : list Schema_t) (inc : TableIncarnation)
    : option Schema_t :=
  if bool_decide (ti_Origin inc = OriginGenesis) then head (filter (fun t => TableID t = Key inc) genesis) else
  schema ← Schema inc;
  if bool_decide (SchemaHash networkID schema ≠ ti_SchemaHash inc) then None else Some schema.

Definition RegistrySchema (networkID : string) (genesis : list Schema_t) (snap : TableRegistrySnapshot)
    (tableID : string) : option Schema_t :=
  live ← Live snap tableID;
  match ti_Status live with
  | Active | Retiring | Purging => IncarnationSchema networkID genesis live
  | _ => None
  end.

Definition wanted (cfg : Config) (snap : TableRegistrySnapshot) (inc : TableIncarnation) : bool :=
  bool_decide (Owner snap inc ∈ cc_Owners cfg) &&
  (bool_decide (ti_Status inc = Pending) || bool_decide (ti_Status inc = Active)).

Definition copy_of (snap : TableRegistrySnapshot) (inc : TableIncarnation) (schema : option Schema_t) : Copy :=
  mkCopy (Owner snap inc) (Key inc) (ti_Seq inc) (CopyTableName (Key inc) (ti_Seq inc)) (Some (ti_Status inc))
    schema 0 false.

Definition desire_one (cfg : Config) (snap : TableRegistrySnapshot)
    (acc : gmap string Copy * gmap string cerr) (inc : TableIncarnation) : gmap string Copy * gmap string cerr :=
  let '(out, errs) := acc in
  if negb (wanted cfg snap inc) then (out, errs) else
  let key := Key inc in
  match out !! key with
  | Some _ => (out, <[key := ETwoLive key]> errs)
  | None =>
      let schema := IncarnationSchema (cc_NetworkID cfg) (cc_Genesis cfg) inc in
      (<[key := copy_of snap inc schema]> out,
       match schema with Some _ => errs | None => <[key := EResolve key]> errs end)
  end.

Definition desired (cfg : Config) (snap : TableRegistrySnapshot) : gmap string Copy * gmap string cerr :=
  foldl (desire_one cfg snap) (∅, ∅) (rs_Incarnations snap).

Inductive verdict := keep | retired | unknown.
#[export] Instance verdict_eq_dec : EqDecision verdict.
Proof. solve_decision. Defined.

Definition incarnation (snap : TableRegistrySnapshot) (seq : N) : option TableIncarnation :=
  head (filter (fun inc => ti_Seq inc = seq) (rs_Incarnations snap)).

Definition bare (table : string) (seq : N) : Copy := mkCopy 0 EmptyString seq table None None 0 false.

Definition classify (cfg : Config) (snap : TableRegistrySnapshot) (lt : LocalTable) : Copy * verdict :=
  match ParseIncarnationComment (lt_Comment lt) with
  | None => (bare (lt_Table lt) 0, unknown)
  | Some seq =>
      match incarnation snap seq with
      | None => (bare (lt_Table lt) seq, unknown)
      | Some inc =>
          if bool_decide (CopyTableName (Key inc) seq ≠ lt_Table lt) then (bare (lt_Table lt) 0, unknown) else
          let c := mkCopy (Owner snap inc) (Key inc) seq (lt_Table lt) (Some (ti_Status inc)) None 0 false in
          if bool_decide (cp_Owner c ∉ cc_Owners cfg) then (c, unknown) else
          match ti_Status inc with
          | Pending | Active => (c, keep)
          | Retiring | Purging => (c, retired)
          | _ => (c, unknown)
          end
      end
  end.
End data.

(** ** The store interface and the Dropped hook *)
Class CopyStore `{Schemas} := {
  cw : Type;
  cs_list : cw → option (list LocalTable) * cw;
  cs_ensure : Schema_t → N → cw → bool * cw;
  cs_drop : string → cw → bool * cw;
  cs_Dropped : option (Copy → cw → bool * cw);
}.

Section pass.
Context `{CopyStore}.

Definition fail (key : string) (r : Reconciler) : Reconciler :=
  mkReconciler (rc_copies r) (rc_gens r) (rc_ready r) (rc_signals r) (rc_owed r) (rc_dropped r) (rc_unknown r)
    (<[key := u64 (get_or 0%N (rc_failures r) key + 1)]> (rc_failures r)) (rc_trace r).

(** The reconciler, the world and the errors so far. *)
Record PS := mkPS { ps_r : Reconciler; ps_w : cw; ps_errs : list cerr }.

Definition add_err (e : cerr) (s : PS) : PS := mkPS (ps_r s) (ps_w s) (ps_errs s ++ [e]).
Definition fail_with (key : string) (e : cerr) (s : PS) : PS :=
  mkPS (fail key (ps_r s)) (ps_w s) (ps_errs s ++ [e]).

Definition notifyDropped (c : Copy) (s : PS) : PS :=
  match cs_Dropped with
  | None => s
  | Some hook =>
      let '(ok, w) := hook c (ps_w s) in
      let r := log (EvHook (cp_Table c) ok) (ps_r s) in
      if ok then mkPS (set_owed (delete (cp_Table c) (rc_owed r)) r) w (ps_errs s)
      else mkPS (set_owed (<[cp_Table c := c]> (rc_owed r)) r) w (ps_errs s ++ [EForget (cp_Table c)])
  end.

Definition dropTable (cfg : Config) (c : Copy) (v : verdict) (s : PS) : PS :=
  let failureKey :=
    if bool_decide (cp_TableKey c = EmptyString) || bool_decide (v = unknown)
    then cc_ReplicaDB cfg +:+ "." +:+ cp_Table c else cp_TableKey c in
  let '(ok, w) := cs_drop (cp_Table c) (ps_w s) in
  let r := log (EvDrop (cp_Table c) ok) (ps_r s) in
  if negb ok then fail_with failureKey (EDrop (cp_Table c)) (mkPS r w (ps_errs s)) else
  let r := if bool_decide (v = retired) then set_counts (u64 (rc_dropped r + 1)) (rc_unknown r) r
           else set_counts (rc_dropped r) (u64 (rc_unknown r + 1)) r in
  notifyDropped c (mkPS r w (ps_errs s)).

Definition sorted_keys {A} (m : gmap string A) : list string := sort_strings (map_to_list m).*1.

Definition owedDrops (r : Reconciler) : list Copy := omap (fun k => rc_owed r !! k) (sorted_keys (rc_owed r)).

Definition local_le (a b : LocalTable) : Prop :=
  (lt_Table a ≠ lt_Table b ∧ String.le (lt_Table a) (lt_Table b)) ∨
  (lt_Table a = lt_Table b ∧ String.le (lt_Database a) (lt_Database b)).
#[export] Instance local_le_dec a b : Decision (local_le a b).
Proof. unfold local_le. apply _. Defined.

Definition sort_local (l : list LocalTable) : list LocalTable := merge_sort local_le l.

(** The loop over the listed tables: the ReplicaDB tables kept, and the state. *)
Fixpoint drop_loop (cfg : Config) (snap : TableRegistrySnapshot) (l : list LocalTable) (present : gset string)
    (s : PS) : gset string * PS :=
  match l with
  | [] => (present, s)
  | lt :: l =>
      if bool_decide (lt_Database lt ≠ cc_ReplicaDB cfg) then drop_loop cfg snap l present s else
      let '(c, v) := classify cfg snap lt in
      if bool_decide (v = keep) then drop_loop cfg snap l ({[lt_Table lt]} ∪ present) s
      else drop_loop cfg snap l present (dropTable cfg c v s)
  end.

Definition generation (c : Copy) (present : bool) (r : Reconciler) : N * Reconciler :=
  let fresh := let g := u64 (rc_gens r + 1) in (g, set_gens g r) in
  match rc_copies r !! cp_TableKey c with
  | Some prev =>
      if present && bool_decide (cp_Table prev = cp_Table c) && bool_decide (cp_Generation prev ≠ 0%N)
      then (cp_Generation prev, r) else fresh
  | None => fresh
  end.

Definition readied (g : N) (c : Copy) : Copy :=
  mkCopy (cp_Owner c) (cp_TableKey c) (cp_IncarnationSeq c) (cp_Table c) (cp_Status c) (cp_Schema c) g true.

(** The loop over the desired copies. *)
Fixpoint ensure_loop (errs : gmap string cerr) (present : gset string) (keys : list string)
    (copies : gmap string Copy) (s : PS) : gmap string Copy * PS :=
  match keys with
  | [] => (copies, s)
  | key :: keys =>
      match copies !! key with
      | None => ensure_loop errs present keys copies s
      | Some c =>
          match errs !! key, cp_Schema c with
          | Some e, _ => ensure_loop errs present keys copies (fail_with key e s)
          | None, None => ensure_loop errs present keys copies s
          | None, Some schema =>
              if bool_decide (is_Some (rc_owed (ps_r s) !! cp_Table c))
              then ensure_loop errs present keys copies (fail_with key (EOwed (cp_Table c)) s) else
              let '(ok, w) := cs_ensure schema (cp_IncarnationSeq c) (ps_w s) in
              if negb ok
              then ensure_loop errs present keys copies
                     (fail_with key (EEnsure (cp_Table c)) (mkPS (ps_r s) w (ps_errs s)))
              else
                let '(g, r) := generation c (bool_decide (cp_Table c ∈ present)) (ps_r s) in
                ensure_loop errs present keys (<[key := readied g c]> copies) (mkPS r w (ps_errs s))
          end
      end
  end.

Definition ready_names (copies : gmap string Copy) : list string :=
  sort_strings (omap (fun kc => if cp_Ready kc.2 then Some (cp_Table kc.2 +:+ "@" +:+ pretty (cp_Generation kc.2)) else None)
    (map_to_list copies)).

Definition publish (copies : gmap string Copy) (r : Reconciler) : Reconciler :=
  let ready := ready_names copies in
  let same := bool_decide (ready = rc_ready r) in
  mkReconciler copies (rc_gens r) ready (if same then rc_signals r else S (rc_signals r)) (rc_owed r)
    (rc_dropped r) (rc_unknown r) (rc_failures r) (rc_trace r).

(** One pass over what View answered: [None] while the registry has not
    answered, [Some None] with the registry disabled. *)
Definition Reconcile (cfg : Config) (view : option (option TableRegistrySnapshot)) (r : Reconciler) (w : cw) : PS :=
  match view with
  | None => mkPS r w [ENotAnswered]
  | Some None => mkPS (publish ∅ r) w []
  | Some (Some snap) =>
      let s := foldl (fun s c => notifyDropped c s) (mkPS r w []) (owedDrops r) in
      match cs_list (ps_w s) with
      | (None, w) => mkPS (ps_r s) w (ps_errs s ++ [EList])
      | (Some local, w) =>
          let '(want, errs) := desired cfg snap in
          let '(present, s) := drop_loop cfg snap (sort_local local) ∅ (mkPS (ps_r s) w (ps_errs s)) in
          let '(copies, s) := ensure_loop errs present (sorted_keys want) want s in
          mkPS (publish copies (ps_r s)) (ps_w s) (ps_errs s)
      end
  end.

Definition Copies (r : Reconciler) : list Copy :=
  filter (fun c => cp_Ready c = true) (omap (fun k => rc_copies r !! k) (sorted_keys (rc_copies r))).
End pass.

(** ** Startup (startup.go) *)
Inductive id_error := EIDRequired | EIDInUse.

Definition CheckNodeIDUnused (snap : TableRegistrySnapshot) (purgeNodeSet : list string) (nodeID : string)
    : result id_error unit :=
  guard* bool_decide (nodeID ≠ EmptyString) else EIDRequired in
  guard* bool_decide (nodeID ∉ si_SNodeNodeID <$> rs_SIIndexers snap) else EIDInUse in
  guard* bool_decide (nodeID ∉ purgeNodeSet) else EIDInUse in
  Ok ().
End Copyset.
