(* ===== verification/CopysetProofs.v ===== *)
(** * The copy reconciler's passes

    [CopyStoreLaws] states what a pass relies on of hg_replica: the listing is
    its tables, CREATE IF NOT EXISTS and DROP touch the table they name, and the
    verification compares the incarnation comment. During a pass only the
    reconciler creates and drops tables of hg_replica. *)
From S2P Require Import Prelude Types Registry Ddl Copyset.
Import Registry Copyset.

Class SchemaLaws `{Schemas} := {
  decode_id k json sch : DecodeTableSchemaJSON k json = Some sch → TableID sch = k;
  copy_name_seq k k' n n' : CopyTableName k n = CopyTableName k' n' → n = n';
}.

Class CopyStoreLaws `{CopyStore} (replicaDB : string) := {
  tables : cw → gmap string string;
  list_reads w r w' :
    cs_list w = (r, w') → tables w' = tables w ∧
    ∀ l, r = Some l → ∀ n c, mkLocal replicaDB n c ∈ l ↔ tables w !! n = Some c;
  ensure_creates sch seq w ok w' :
    cs_ensure sch seq w = (ok, w') → let n := CopyTableName (TableID sch) seq in
    (∀ m, m ≠ n → tables w' !! m = tables w !! m) ∧
    (tables w' !! n = tables w !! n ∨ tables w !! n = None ∧ tables w' !! n = Some (IncarnationComment seq)) ∧
    (ok = true → tables w' !! n = Some (IncarnationComment seq));
  drop_drops n w ok w' :
    cs_drop n w = (ok, w') →
    (∀ m, m ≠ n → tables w' !! m = tables w !! m) ∧
    (tables w' !! n = tables w !! n ∨ tables w' !! n = None) ∧
    (ok = true → tables w' !! n = None);
  hook_frame hook c w ok w' : cs_Dropped = Some hook → hook c w = (ok, w') → tables w' = tables w;
}.

(** ** What the registry asks for *)
Section desired.
Context `{SC : Schemas, SL : !SchemaLaws} (cfg : Config) (snap : TableRegistrySnapshot).

(** The Pending and Active incarnations of a key in scope, in registry order. *)
Definition live_of (key : string) (incs : list TableIncarnation) : list TableIncarnation :=
  filter (fun inc => wanted cfg snap inc = true ∧ Key inc = key) incs.

Abbreviation schema_of inc := (IncarnationSchema (cc_NetworkID cfg) (cc_Genesis cfg) inc).

Lemma desired_spec incs key :
  let '(want, errs) := foldl (desire_one cfg snap) (∅, ∅) incs in
  want !! key = (fun inc => copy_of snap inc (schema_of inc)) <$> head (live_of key incs) ∧
  (errs !! key = None ↔
   match live_of key incs with [] => True | [inc] => is_Some (schema_of inc) | _ => False end).
Proof.
  induction incs as [|inc incs IH] using rev_ind; [simpl; by rewrite !lookup_empty|].
  rewrite foldl_app. simpl. destruct (foldl _ _ _) as [want errs] eqn:Hf.
  unfold live_of in *. rewrite filter_app, filter_cons, filter_nil. destruct IH as [IHw IHe].
  unfold desire_one. destruct (wanted cfg snap inc) eqn:Hw; cbn [negb].
  2:{ rewrite decide_False by (by intros [? _]). by rewrite app_nil_r. }
  destruct (decide (Key inc = key)) as [<-|Hne].
  - rewrite decide_True by done. destruct (want !! Key inc) as [c|] eqn:Hc; rewrite ?Hc in IHw.
    + destruct (filter _ incs) as [|i l]; [done|]. simpl in *. rewrite Hc. split; [done|].
      rewrite lookup_insert_eq. destruct l; simpl; split; done.
    + destruct (filter _ incs) as [|i l]; [|done]. simpl in *. rewrite lookup_insert_eq. split; [done|].
      destruct (schema_of inc) eqn:Hs; [|rewrite lookup_insert_eq; by split; [|intros []]].
      rewrite IHe. by split.
  - rewrite decide_False by naive_solver. rewrite app_nil_r.
    destruct (want !! Key inc); simpl; [by rewrite (lookup_insert_ne errs)|].
    rewrite (lookup_insert_ne want) by done. destruct (schema_of inc); [done|]. by rewrite (lookup_insert_ne errs).
Qed.

Lemma schema_of_id inc sch : schema_of inc = Some sch → TableID sch = Key inc.
Proof using SL.
  unfold IncarnationSchema. case_bool_decide.
  - by intros [_ ?]%head_filter.
  - unfold Schema. case_bool_decide; [done|]. simpl. destruct (DecodeTableSchemaJSON _ _) as [s|] eqn:Hd; [|done].
    simpl. case_bool_decide; [done|]. intros [= <-]. by eapply decode_id.
Qed.

(** A kept table is the copy, by name and comment, of a wanted incarnation. *)
Lemma classify_keep lt c :
  classify cfg snap lt = (c, keep) →
  ∃ inc, inc ∈ rs_Incarnations snap ∧ wanted cfg snap inc = true ∧
    lt_Table lt = CopyTableName (Key inc) (ti_Seq inc) ∧ lt_Comment lt = IncarnationComment (ti_Seq inc).
Proof.
  unfold classify. destruct (ParseIncarnationComment _) as [seq|] eqn:Hp; [|done].
  apply parse_comment in Hp as [Hc _]. destruct (incarnation snap seq) as [inc|] eqn:Hi; [|done].
  apply head_filter in Hi as [Hin Hseq]. case_bool_decide as Hn; [done|]. case_bool_decide as Ho; [done|].
  simpl in Ho. intros Hst. exists inc. split_and!; [done| | |by rewrite Hseq].
  - unfold wanted. rewrite bool_decide_true by done. destruct (ti_Status inc); simplify_eq/=; done.
  - by rewrite Hseq.
Qed.
End desired.

(** ** The steps of a pass *)
Section steps.
Context `{CS : CopyStore} (cfg : Config) (snap : TableRegistrySnapshot).
Context {CL : CopyStoreLaws (cc_ReplicaDB cfg)}.

(** An owed drop is kept under its table's name, and only a hook can owe one. *)
Definition owed_ok (r : Reconciler) : Prop :=
  (∀ t c, rc_owed r !! t = Some c → cp_Table c = t) ∧ (cs_Dropped = None → rc_owed r = ∅).

(** What every step of a pass leaves alone: the published copies; errors are
    only added. *)
Record grows (s s' : PS) : Prop := {
  gr_copies : rc_copies (ps_r s') = rc_copies (ps_r s);
  gr_gens : rc_gens (ps_r s') = rc_gens (ps_r s);
  gr_errs : ps_errs s `prefix_of` ps_errs s';
  gr_owed : owed_ok (ps_r s) → owed_ok (ps_r s') }.

Lemma grows_refl s : grows s s.
Proof. by split. Qed.
Lemma grows_trans s1 s2 s3 : grows s1 s2 → grows s2 s3 → grows s1 s3.
Proof. intros [Hc Hg He Ho] [Hc' Hg' He' Ho']. split; [congruence|congruence|by etransitivity|by auto]. Qed.

Lemma grows_no_err s s' : grows s s' → ps_errs s' = [] → ps_errs s = [].
Proof. intros [_ _ [k Hk] _] Hnil. rewrite Hk in Hnil. by apply app_eq_nil in Hnil as [? _]. Qed.

Lemma notify_step c s :
  let s' := notifyDropped c s in
  grows s s' ∧ tables (ps_w s') = tables (ps_w s) ∧
  (∀ t, t ≠ cp_Table c → rc_owed (ps_r s') !! t = rc_owed (ps_r s) !! t) ∧
  (ps_errs s' = [] → cs_Dropped ≠ None → rc_owed (ps_r s') !! cp_Table c = None) ∧
  (ps_errs s' = [] → rc_owed (ps_r s) = ∅ → rc_owed (ps_r s') = ∅).
Proof using CL.
  unfold notifyDropped. destruct cs_Dropped as [hook|] eqn:Hh; simpl.
  2:{ split_and!; [apply grows_refl|done|done|by intros _ []|done]. }
  destruct (hook c (ps_w s)) as [[] w] eqn:Hw; simpl.
  - split_and!; [|by eapply hook_frame| |intros _ _; by rewrite lookup_delete_eq|].
    + split; [done|done|done|]. intros [Hk _]. split; simpl; [|by rewrite Hh].
      intros t c' [_ Hl]%lookup_delete_Some. by apply Hk.
    + intros t Ht. by rewrite lookup_delete_ne.
    + intros _ ->. apply delete_empty.
  - split_and!; [|by eapply hook_frame| |by intros []%app_nil..].
    + split; [done|done|by apply prefix_app_r|]. intros [Hk _]. split; simpl; [|by rewrite Hh].
      intros t c' [[<- <-]|[_ Hl]]%lookup_insert_Some; [done|by apply Hk].
    + intros t Ht. by rewrite lookup_insert_ne.
Qed.

Lemma drop_step c v s :
  let s' := dropTable cfg c v s in
  grows s s' ∧
  (∀ m, m ≠ cp_Table c → tables (ps_w s') !! m = tables (ps_w s) !! m) ∧
  (tables (ps_w s') !! cp_Table c = tables (ps_w s) !! cp_Table c ∨ tables (ps_w s') !! cp_Table c = None) ∧
  (ps_errs s' = [] → tables (ps_w s') !! cp_Table c = None) ∧
  (ps_errs s' = [] → rc_owed (ps_r s) = ∅ → rc_owed (ps_r s') = ∅).
Proof using CL.
  unfold dropTable. destruct (cs_drop (cp_Table c) (ps_w s)) as [[] w] eqn:Hd; simpl negb; cbv iota;
    apply drop_drops in Hd as (Hne & Heq & Hok).
  - set (s1 := mkPS _ w (ps_errs s)). destruct (notify_step c s1) as (Hg & Ht & _ & _ & Ho).
    assert (grows s s1) by (unfold s1; split; simpl; by try case_bool_decide).
    rewrite Ht. split_and!; [by eapply grows_trans|done|done|by auto|].
    intros He Hnone. apply Ho; [done|]. unfold s1. simpl. by try case_bool_decide.
  - split_and!; [split; simpl; [done|done|by apply prefix_app_r|done]|done|done|by intros []%app_nil..].
Qed.

Definition kept (lt : LocalTable) : Prop := (classify cfg snap lt).2 = keep.
Definition mine (lt : LocalTable) : Prop := lt_Database lt = cc_ReplicaDB cfg.

Lemma classify_table lt : cp_Table (classify cfg snap lt).1 = lt_Table lt.
Proof.
  unfold classify. destruct (ParseIncarnationComment _); [|done]. destruct (incarnation _ _) as [inc|]; [|done].
  case_bool_decide; [done|]. case_bool_decide; [done|]. by destruct (ti_Status inc).
Qed.

Lemma drop_loop_spec l P s :
  let '(P', s') := drop_loop cfg snap l P s in
  grows s s' ∧
  (∀ n, n ∈ P' ↔ n ∈ P ∨ ∃ lt, lt ∈ l ∧ mine lt ∧ kept lt ∧ lt_Table lt = n) ∧
  (∀ n, tables (ps_w s') !! n = tables (ps_w s) !! n ∨ tables (ps_w s') !! n = None) ∧
  (∀ n, (∀ lt, lt ∈ l → mine lt → lt_Table lt = n → kept lt) → tables (ps_w s') !! n = tables (ps_w s) !! n) ∧
  (ps_errs s' = [] → ∀ lt, lt ∈ l → mine lt → ¬ kept lt → tables (ps_w s') !! lt_Table lt = None) ∧
  (ps_errs s' = [] → rc_owed (ps_r s) = ∅ → rc_owed (ps_r s') = ∅).
Proof using CL.
  revert P s. induction l as [|lt l IH]; intros P s; simpl.
  { split_and!; [apply grows_refl| |by left|done|by intros _ lt ?%elem_of_nil|done].
    intros n. split; [by left|]. intros [?|(lt & ?%elem_of_nil & _)]; done. }
  unfold mine, kept in *. case_bool_decide as Hdb.
  { specialize (IH P s). destruct (drop_loop _ _ _ _ _) as [P' s']. destruct IH as (Hg & HP & Hn & Hk & Hd & Hw).
    split_and!; [done| |done| | |done].
    - intros n. rewrite HP. setoid_rewrite elem_of_cons. naive_solver.
    - intros n Hall. apply Hk. intros lt' Hin. apply Hall. by right.
    - intros He lt' [->|Hin]%elem_of_cons Hm; [done|]. by apply Hd. }
  destruct (classify cfg snap lt) as [c v] eqn:Hcl.
  pose proof (classify_table lt) as Hct. rewrite Hcl in Hct. simpl in Hct.
  case_bool_decide as Hv.
  { specialize (IH ({[lt_Table lt]} ∪ P) s). destruct (drop_loop _ _ _ _ _) as [P' s'].
    destruct IH as (Hg & HP & Hn & Hk & Hd & Hw). split_and!; [done| |done| | |done].
    - intros n. rewrite HP, elem_of_union, elem_of_singleton. setoid_rewrite elem_of_cons. split.
      + intros [[->|?]|(lt' & ? & ?)]; [right; exists lt; by rewrite Hcl; naive_solver|by left|].
        right. exists lt'. naive_solver.
      + intros [?|(lt' & [->|?] & ?)]; [by left; right|by left; left; naive_solver|right; naive_solver].
    - intros n Hall. apply Hk. intros lt' Hin. apply Hall. by right.
    - intros He lt' [->|Hin]%elem_of_cons Hm Hnk; [by rewrite Hcl in Hnk|by apply Hd]. }
  destruct (drop_step c v s) as (Hg1 & Hne & Heq & Hok & How). set (s1 := dropTable cfg c v s) in *. rewrite Hct in *.
  specialize (IH P s1). destruct (drop_loop _ _ _ _ _) as [P' s'].
  destruct IH as (Hg & HP & Hn & Hk & Hd & Hw). split_and!; [by eapply grows_trans| | | | |].
  - intros n. rewrite HP. setoid_rewrite elem_of_cons. split; [naive_solver|].
    intros [?|(lt' & [->|?] & Hm & Hkp & ?)]; [by left|by rewrite Hcl in Hkp|right; naive_solver].
  - intros n. destruct (Hn n) as [->|?]; [|by right]. destruct (decide (n = lt_Table lt)) as [->|?]; [done|].
    left. by apply Hne.
  - intros n Hall. rewrite Hk by (intros lt' Hin; apply Hall; by right). apply Hne. intros ->.
    specialize (Hall lt (list_elem_of_here _ _) Hdb eq_refl). by rewrite Hcl in Hall.
  - intros He lt' [->|Hin]%elem_of_cons Hm Hnk; [|by apply Hd].
    destruct (Hn (lt_Table lt)) as [->|?]; [|done]. apply Hok. by eapply grows_no_err.
  - intros He Hnone. apply Hw; [done|]. apply How; [by eapply grows_no_err|done].
Qed.

(** ** The loop over the desired copies *)

(** [c] is the copy of [key] the registry asks for, under its own name. *)
Definition named_copy (key : string) (c : Copy) : Prop :=
  cp_TableKey c = key ∧ cp_Ready c = false ∧
  ∀ sch, cp_Schema c = Some sch → CopyTableName (TableID sch) (cp_IncarnationSeq c) = cp_Table c.

Abbreviation marked w c := (tables w !! cp_Table c = Some (IncarnationComment (cp_IncarnationSeq c))).

(** The generation a readied copy got: the one its table had, or a new one. *)
Definition numbered (present : gset string) (old : gmap string Copy) (lo hi : N) (key : string) (c : Copy) (g : N)
    : Prop :=
  (cp_Table c ∈ present ∧ g ≠ 0%N ∧ ∃ prev, old !! key = Some prev ∧ cp_Table prev = cp_Table c ∧ cp_Generation prev = g)
  ∨ (lo < g ≤ hi)%N.

Lemma generation_step c (b : bool) r g r' :
  generation c b r = (g, r') → (rc_gens r + 1 < u64_mod)%N →
  rc_copies r' = rc_copies r ∧ rc_owed r' = rc_owed r ∧
  ((b = true ∧ g ≠ 0%N ∧ r' = r ∧ ∃ prev, rc_copies r !! cp_TableKey c = Some prev ∧ cp_Table prev = cp_Table c ∧ cp_Generation prev = g) ∨
   (g = rc_gens r + 1 ∧ rc_gens r' = rc_gens r + 1)%N).
Proof.
  unfold generation. intros Hg Hlt. rewrite u64_small in Hg by done.
  destruct (rc_copies r !! cp_TableKey c) as [prev|]; [|by simplify_eq/=; naive_solver].
  destruct b; simpl in Hg; [|by simplify_eq/=; naive_solver].
  destruct (_ && _) eqn:Hb; simplify_eq/=; [|naive_solver]. unbool. naive_solver.
Qed.

(** One run of the loop from [copies] and [s]. *)
Record ensured (errs : gmap string cerr) (present : gset string) (keys : list string)
    (copies : gmap string Copy) (s : PS) (copies' : gmap string Copy) (s' : PS) : Prop := {
  en_frame : rc_copies (ps_r s') = rc_copies (ps_r s) ∧ rc_owed (ps_r s') = rc_owed (ps_r s);
  en_errs : ps_errs s `prefix_of` ps_errs s';
  en_gens : (rc_gens (ps_r s) ≤ rc_gens (ps_r s') ≤ rc_gens (ps_r s) + N.of_nat (length keys))%N;
  en_keeps : ∀ n cm, tables (ps_w s) !! n = Some cm → tables (ps_w s') !! n = Some cm;
  en_makes : ∀ n cm, tables (ps_w s') !! n = Some cm → tables (ps_w s) !! n = Some cm ∨
    ∃ key c, key ∈ keys ∧ copies !! key = Some c ∧ errs !! key = None ∧ cp_Table c = n ∧
      cm = IncarnationComment (cp_IncarnationSeq c);
  en_other : ∀ key, key ∉ keys → copies' !! key = copies !! key;
  en_each : ∀ key c, key ∈ keys → copies !! key = Some c →
    (copies' !! key = Some c ∧ (errs !! key = None → cp_Schema c ≠ None → ps_errs s' ≠ []) ∧ (errs !! key ≠ None → ps_errs s' ≠ [])) ∨
    ∃ g, copies' !! key = Some (readied g c) ∧ errs !! key = None ∧ cp_Schema c ≠ None ∧ marked (ps_w s') c ∧
      rc_owed (ps_r s') !! cp_Table c = None ∧
      numbered present (rc_copies (ps_r s)) (rc_gens (ps_r s)) (rc_gens (ps_r s')) key c g }.

(** One round of the loop: [key]'s copy stays as it is, or is readied. *)
Definition round (errs : gmap string cerr) (present : gset string) (key : string) (copies : gmap string Copy) (s : PS)
    : gmap string Copy * PS := ensure_loop errs present [key] copies s.

Lemma ensure_loop_cons errs present key keys copies s :
  ensure_loop errs present (key :: keys) copies s =
  let '(copies, s) := round errs present key copies s in ensure_loop errs present keys copies s.
Proof.
  unfold round. cbn [ensure_loop]. destruct (copies !! key) as [c|]; [|done].
  destruct (errs !! key); [done|]. destruct (cp_Schema c); [|done]. case_bool_decide; [done|].
  destruct (cs_ensure _ _ _) as [[] w]; [|done]. simpl. by destruct (generation _ _ _).
Qed.

(** Why a copy was not readied. *)
Definition blocked (errs : gmap string cerr) (key : string) (c : Copy) (es : list cerr) : Prop :=
  (errs !! key = None → cp_Schema c ≠ None → es ≠ []) ∧ (errs !! key ≠ None → es ≠ []).

Lemma blocked_err errs key c es e : blocked errs key c (es ++ [e]).
Proof. split; intros; by destruct es. Qed.

Lemma round_stays errs present key copies s s' :
  rc_copies (ps_r s') = rc_copies (ps_r s) → rc_owed (ps_r s') = rc_owed (ps_r s) →
  rc_gens (ps_r s') = rc_gens (ps_r s) → ps_errs s `prefix_of` ps_errs s' →
  (∀ n cm, tables (ps_w s) !! n = Some cm → tables (ps_w s') !! n = Some cm) →
  (∀ n cm, tables (ps_w s') !! n = Some cm → tables (ps_w s) !! n = Some cm ∨
    ∃ c, copies !! key = Some c ∧ errs !! key = None ∧ cp_Table c = n ∧ cm = IncarnationComment (cp_IncarnationSeq c)) →
  (∀ c, copies !! key = Some c → blocked errs key c (ps_errs s')) →
  ensured errs present [key] copies s copies s'.
Proof.
  intros Hc Ho Hg He Hk Hm Hb. split; [done|done|rewrite Hg; lia|done| |done|].
  - intros n cm [?|(c & ?)]%Hm; [by left|]. right. exists key, c. rewrite list_elem_of_singleton. naive_solver.
  - intros k c ->%list_elem_of_singleton Hc'. left. split; [done|by apply Hb].
Qed.

Lemma ensure_tables sch c w ok w' :
  cs_ensure sch (cp_IncarnationSeq c) w = (ok, w') →
  CopyTableName (TableID sch) (cp_IncarnationSeq c) = cp_Table c →
  (∀ n cm, tables w !! n = Some cm → tables w' !! n = Some cm) ∧
  (∀ n cm, tables w' !! n = Some cm → tables w !! n = Some cm ∨
     cp_Table c = n ∧ cm = IncarnationComment (cp_IncarnationSeq c)) ∧
  (ok = true → marked w' c).
Proof using CL.
  intros (Hne & Heq & Hok)%ensure_creates Hname. rewrite Hname in *. split_and!; [| |done].
  - intros n cm Hn. destruct (decide (n = cp_Table c)) as [->|]; [|by rewrite Hne].
    destruct Heq as [->|[? _]]; [done|congruence].
  - intros n cm. destruct (decide (n = cp_Table c)) as [->|]; [|rewrite Hne by done; by left].
    destruct Heq as [->|[? ->]]; [by left|]. intros [= <-]. by right.
Qed.

Lemma round_spec errs present key copies s copies' s' :
  (∀ c, copies !! key = Some c → named_copy key c) → (rc_gens (ps_r s) + 1 < u64_mod)%N →
  round errs present key copies s = (copies', s') → ensured errs present [key] copies s copies' s'.
Proof using CL.
  intros Hnamed Hlt. unfold round. cbn [ensure_loop].
  destruct (copies !! key) as [c|] eqn:Hkey.
  2:{ intros [= <- <-]. apply round_stays; try done; [by left|]. intros c. by rewrite Hkey. }
  destruct (errs !! key) as [e|] eqn:He.
  { intros [= <- <-]. apply round_stays; try done; [by apply prefix_app_r|by left|]. intros. apply blocked_err. }
  destruct (cp_Schema c) as [sch|] eqn:Hsch.
  2:{ intros [= <- <-]. apply round_stays; try done; [by left|]. intros c'. rewrite Hkey. intros [= <-].
      split; by rewrite ?Hsch, ?He. }
  case_bool_decide as Howed.
  { intros [= <- <-]. apply round_stays; try done; [by apply prefix_app_r|by left|]. intros. apply blocked_err. }
  destruct (Hnamed c eq_refl) as (Hk & Hnr & Hname). specialize (Hname sch Hsch).
  destruct (cs_ensure _ _ _) as [ok w] eqn:Hen.
  destruct (ensure_tables _ _ _ _ _ Hen Hname) as (Hkeeps & Hmakes & Hok).
  destruct ok; simpl negb; cbv iota.
  2:{ intros [= <- <-]. apply round_stays; try done; [by apply prefix_app_r| |intros; apply blocked_err].
      intros n cm [?|[? ?]]%Hmakes; [by left|]. right. by exists c. }
  destruct (generation _ _ _) as [g r] eqn:Hgen. intros [= <- <-].
  destruct (generation_step _ _ _ _ _ Hgen Hlt) as (Hrc & Hro & Hnum). rewrite Hk in Hnum.
  split; simpl; [done|done|naive_solver lia|done| | |].
  - intros n cm [?|[? ?]]%Hmakes; [by left|]. right. exists key, c. rewrite list_elem_of_singleton. naive_solver.
  - intros k Hnk. rewrite lookup_insert_ne; [done|]. intros ->. apply Hnk. by apply list_elem_of_singleton.
  - intros k c' ->%list_elem_of_singleton. rewrite Hkey. intros [= <-]. right. exists g.
    rewrite lookup_insert_eq, Hsch, Hro. split_and!; [done|done|done|by apply Hok|by apply eq_None_not_Some|].
    destruct Hnum as [(Hp & Hg0 & -> & Hprev)|[-> ->]]; [|right; lia]. left. unbool. done.
Qed.

Lemma prefix_nonempty {A} (l k : list A) : l `prefix_of` k → l ≠ [] → k ≠ [].
Proof. intros [x ->] Hl. by destruct l. Qed.

Lemma numbered_weaken present old lo lo' hi hi' key c g :
  (lo' ≤ lo)%N → (hi ≤ hi')%N → numbered present old lo hi key c g → numbered present old lo' hi' key c g.
Proof. intros Hlo Hhi [?|?]; [by left|right; lia]. Qed.

Lemma ensured_cons errs present key keys copies s copies1 s1 copies' s' :
  key ∉ keys → ensured errs present [key] copies s copies1 s1 → ensured errs present keys copies1 s1 copies' s' →
  ensured errs present (key :: keys) copies s copies' s'.
Proof.
  intros Hkey [[Hc1 Ho1] He1 Hg1 Hk1 Hm1 Hot1 Hea1] [[Hc2 Ho2] He2 Hg2 Hk2 Hm2 Hot2 Hea2].
  assert (∀ k, k ∈ keys → copies1 !! k = copies !! k) as Hsame.
  { intros k Hk. apply Hot1. rewrite list_elem_of_singleton. by intros ->. }
  split; [split; congruence|by etransitivity|simpl in *; lia|by auto| | |].
  - intros n cm [Hn|(k & c & Hk & Hc & ?)]%Hm2.
    + apply Hm1 in Hn as [?|(k & c & ->%list_elem_of_singleton & ?)]; [by left|]. right. exists key, c.
      split; [apply list_elem_of_here|done].
    + right. exists k, c. rewrite Hsame in Hc by done. by split; [apply list_elem_of_further|].
  - intros k [Hne Hk]%not_elem_of_cons. rewrite Hot2 by done. apply Hot1. by rewrite list_elem_of_singleton.
  - intros k c [->|Hk]%elem_of_cons Hc.
    + rewrite Hot2 by done.
      destruct (Hea1 key c (list_elem_of_here _ _) Hc) as [(Hs & Hb1 & Hb2)|(g & Hs & Her & Hsc & Hmk & Ho & Hn)].
      * left. split_and!; [done|intros; eapply prefix_nonempty; [exact He2|by apply Hb1]|].
        intros; eapply prefix_nonempty; [exact He2|by apply Hb2].
      * right. exists g. split_and!; [done|done|done|by apply Hk2|by rewrite Ho2|].
        eapply numbered_weaken; [| |exact Hn]; lia.
    + rewrite <- Hsame in Hc by done. destruct (Hea2 k c Hk Hc) as [?|(g & Hs & Her & Hsc & Hmk & Ho & Hn)]; [by left|].
      right. exists g. split_and!; [done..|]. rewrite Hc1 in Hn. eapply numbered_weaken; [| |exact Hn]; lia.
Qed.

Lemma ensure_loop_spec errs present keys copies s copies' s' :
  NoDup keys → (∀ key c, key ∈ keys → copies !! key = Some c → named_copy key c) →
  (rc_gens (ps_r s) + N.of_nat (length keys) < u64_mod)%N →
  ensure_loop errs present keys copies s = (copies', s') → ensured errs present keys copies s copies' s'.
Proof using CL.
  intros Hnd. revert copies s. induction Hnd as [|key keys Hkey Hnd IH]; intros copies s Hnamed Hlt.
  { intros [= <- <-]. split; [done|done|simpl; lia|done|by left|done|by intros key c ?%elem_of_nil]. }
  rewrite ensure_loop_cons. destruct (round _ _ _ _ _) as [copies1 s1] eqn:Hr. intros Hrest.
  apply round_spec in Hr; [|intros c; apply Hnamed, list_elem_of_here|simpl in Hlt; lia].
  eapply ensured_cons; [done|exact Hr|]. apply IH; [| |done].
  - intros k c Hk Hc. apply Hnamed; [by apply list_elem_of_further|].
    rewrite <- Hc. symmetry. apply (en_other _ _ _ _ _ _ _ Hr). rewrite list_elem_of_singleton. by intros ->.
  - pose proof (en_gens _ _ _ _ _ _ _ Hr). simpl in *. lia.
Qed.

(** ** Generations *)

(** Every generation handed out is at most [gens], and no two copies share one. *)
Definition gens_ok (copies : gmap string Copy) (gens : N) : Prop :=
  (∀ k c, copies !! k = Some c → (cp_Generation c ≤ gens)%N) ∧
  ∀ k k' c c', copies !! k = Some c → copies !! k' = Some c' →
    cp_Generation c = cp_Generation c' → cp_Generation c ≠ 0%N → k = k'.

(** The same of the copies being readied, over the last pass's: each generation
    is newer than [lo] or its key's own. *)
Definition numbering (old : gmap string Copy) (lo : N) (copies : gmap string Copy) (gens : N) : Prop :=
  gens_ok copies gens ∧
  ∀ k c, copies !! k = Some c → cp_Generation c ≠ 0%N →
    (lo < cp_Generation c)%N ∨ ∃ prev, old !! k = Some prev ∧ cp_Generation prev = cp_Generation c.

Lemma numbering_insert old lo copies gens gens' key c g present :
  gens_ok old lo → (lo ≤ gens ≤ gens')%N → numbering old lo copies gens →
  numbered present old gens gens' key c g → numbering old lo (<[key := readied g c]> copies) gens'.
Proof.
  intros [Hold Hinj] Hle [[Hb Hd] Hsrc] Hnum.
  assert (g ≤ gens')%N as Hg.
  { destruct Hnum as [(_ & _ & prev & Hp & _ & <-)|?]; [|lia]. specialize (Hold _ _ Hp). lia. }
  assert (∀ k c', copies !! k = Some c' → cp_Generation c' = g → g ≠ 0%N → k = key) as Hnew.
  { intros k c' Hk Heq Hg0. destruct Hnum as [(_ & _ & prev & Hp & _ & Hpg)|Hfresh].
    - destruct (Hsrc _ _ Hk) as [Hlo|(prev' & Hp' & Hpg')]; [by rewrite Heq| |].
      + specialize (Hold _ _ Hp). lia.
      + eapply Hinj; [exact Hp'|exact Hp|congruence|congruence].
    - specialize (Hb _ _ Hk). lia. }
  split; [split|].
  - intros k c' [[<- <-]|[_ Hk]]%lookup_insert_Some; [done|]. specialize (Hb _ _ Hk). lia.
  - intros k k' c1 c2 [[<- <-]|[Hk1 H1]]%lookup_insert_Some [[<- <-]|[Hk2 H2]]%lookup_insert_Some; simpl; intros Heq H0.
    + done.
    + symmetry. by eapply Hnew.
    + eapply Hnew; [done|done|congruence].
    + by eapply Hd.
  - intros k c' [[<- <-]|[_ Hk]]%lookup_insert_Some; simpl; [|by apply Hsrc].
    intros _. destruct Hnum as [(_ & _ & prev & Hp & _ & <-)|?]; [right; by eexists|left; lia].
Qed.

Lemma round_numbering errs present key copies s copies' s' lo :
  (∀ c, copies !! key = Some c → named_copy key c) → (rc_gens (ps_r s) + 1 < u64_mod)%N →
  gens_ok (rc_copies (ps_r s)) lo → (lo ≤ rc_gens (ps_r s))%N →
  numbering (rc_copies (ps_r s)) lo copies (rc_gens (ps_r s)) →
  round errs present key copies s = (copies', s') →
  numbering (rc_copies (ps_r s)) lo copies' (rc_gens (ps_r s')).
Proof using CL.
  intros Hnamed Hlt Hold Hlo Hn Hr. destruct (copies !! key) as [c|] eqn:Hkey.
  2:{ unfold round in Hr. cbn [ensure_loop] in Hr. rewrite Hkey in Hr. by simplify_eq. }
  rewrite <- Hkey in Hnamed. apply round_spec in Hr; [|done..]. destruct Hr as [_ _ Hg _ _ Hot Hea].
  assert (∀ k, k ≠ key → copies' !! k = copies !! k) as Hsame by (intros; apply Hot; by rewrite list_elem_of_singleton).
  assert (copies' = copies ∨ ∃ g, copies' = <[key := readied g c]> copies ∧
    numbered present (rc_copies (ps_r s)) (rc_gens (ps_r s)) (rc_gens (ps_r s')) key c g) as [->|(g & -> & Hnum)].
  { destruct (Hea key c (list_elem_of_here _ _) Hkey) as [[Hc _]|(g & Hc & _ & _ & _ & _ & Hnum)].
    - left. apply map_eq. intros k. destruct (decide (k = key)) as [->|]; [congruence|by apply Hsame].
    - right. exists g. split; [|done]. apply map_eq. intros k.
        destruct (decide (k = key)) as [->|]; [by rewrite lookup_insert_eq|rewrite lookup_insert_ne by done; by apply Hsame]. }
  - destruct Hn as [[Hb Hd] Hs]. split; [split; [|done]|done]. intros k c' Hk. specialize (Hb _ _ Hk). lia.
  - eapply numbering_insert; [done| |done|done]. lia.
Qed.

Lemma loop_numbering errs present keys copies s copies' s' lo :
  NoDup keys → (∀ key c, key ∈ keys → copies !! key = Some c → named_copy key c) →
  (rc_gens (ps_r s) + N.of_nat (length keys) < u64_mod)%N →
  gens_ok (rc_copies (ps_r s)) lo → (lo ≤ rc_gens (ps_r s))%N →
  numbering (rc_copies (ps_r s)) lo copies (rc_gens (ps_r s)) →
  ensure_loop errs present keys copies s = (copies', s') → gens_ok copies' (rc_gens (ps_r s')).
Proof using CL.
  intros Hnd. revert copies s. induction Hnd as [|key keys Hkey Hnd IH]; intros copies s Hnamed Hlt Hold Hlo Hn.
  { intros [= <- <-]. apply Hn. }
  rewrite ensure_loop_cons. destruct (round _ _ _ _ _) as [copies1 s1] eqn:Hr. intros Hrest.
  assert (∀ c, copies !! key = Some c → named_copy key c) as Hk by (intros c; apply Hnamed, list_elem_of_here).
  assert (rc_gens (ps_r s) + 1 < u64_mod)%N as Hlt1 by (simpl in Hlt; lia).
  pose proof (round_numbering _ _ _ _ _ _ _ _ Hk Hlt1 Hold Hlo Hn Hr) as Hn1.
  pose proof (round_spec _ _ _ _ _ _ _ Hk Hlt1 Hr) as [[Hc1 _] _ Hg1 _ _ Hot _]. simpl in Hg1, Hlt.
  eapply IH; [| | | | |exact Hrest]; [|lia|by rewrite Hc1|lia|by rewrite Hc1].
  intros k c Hin Hc. apply Hnamed; [by apply list_elem_of_further|].
  rewrite <- Hc. symmetry. apply Hot. rewrite list_elem_of_singleton. by intros ->.
Qed.
End steps.
