(* ===== verification/CopysetPass.v ===== *)
(** * What one pass of the copy reconciler guarantees

    [copyset_pass_safe] holds whatever fails; [copyset_pass_converges] when the
    store and the hook answer. *)
From S2P Require Import Prelude Types Registry Ddl Copyset CopysetProofs.
Import Registry Copyset.

Section pass.
Context `{CS : CopyStore, SL : !SchemaLaws} (cfg : Config) (snap : TableRegistrySnapshot).
Context {CL : CopyStoreLaws (cc_ReplicaDB cfg)}.

Abbreviation local n cm := (mkLocal (cc_ReplicaDB cfg) n cm).

(** [r]: the reconciler before a pass; a pass numbers at most one generation per
    key. *)
Definition before_pass (r : Reconciler) : Prop :=
  gens_ok (rc_copies r) (rc_gens r) ∧
  (rc_gens r + N.of_nat (length (sorted_keys (desired cfg snap).1)) < u64_mod)%N ∧
  owed_ok r.

Lemma elem_of_sorted_keys {A} (m : gmap string A) k : k ∈ sorted_keys m ↔ is_Some (m !! k).
Proof.
  unfold sorted_keys. rewrite elem_of_sort_strings, list_elem_of_fmap. split.
  - intros ([k' a] & -> & Ha%elem_of_map_to_list). by exists a.
  - intros [a Ha]. exists (k, a). by rewrite elem_of_map_to_list.
Qed.

Lemma sorted_keys_nodup {A} (m : gmap string A) : NoDup (sorted_keys m).
Proof. unfold sorted_keys. rewrite sort_strings_perm. apply NoDup_fst_map_to_list. Qed.

(** ** The drops owed by earlier passes *)
Lemma owed_phase l s :
  let s' := foldl (fun s c => notifyDropped c s) s l in
  grows s s' ∧ tables (ps_w s') = tables (ps_w s) ∧
  (∀ t, (∀ c, c ∈ l → cp_Table c ≠ t) → rc_owed (ps_r s') !! t = rc_owed (ps_r s) !! t) ∧
  (ps_errs s' = [] → cs_Dropped ≠ None → ∀ c, c ∈ l → rc_owed (ps_r s') !! cp_Table c = None).
Proof using CL.
  induction l as [|c l IH] using rev_ind; simpl.
  { split_and!; [apply grows_refl|done|done|by intros _ _ c ?%elem_of_nil]. }
  rewrite foldl_app. simpl. destruct IH as (Hg & Ht & Ho & Hn). set (s1 := foldl _ s l) in *.
  destruct (notify_step cfg c s1) as (Hg1 & Ht1 & Ho1 & Hn1 & _).
  split_and!; [by eapply grows_trans|congruence| |].
  - intros t Hall. rewrite Ho1; [apply Ho|]; [intros c' Hc'|apply not_eq_sym]; apply Hall; apply elem_of_app;
      [by left|right; by apply list_elem_of_singleton].
  - intros He Hh c' [Hc'| ->%list_elem_of_singleton]%elem_of_app; [|by apply Hn1].
    destruct (decide (cp_Table c' = cp_Table c)) as [Heq|Hne]; [rewrite Heq; by apply Hn1|].
    rewrite Ho1 by done. apply Hn; [by eapply grows_no_err|done|done].
Qed.

(** ** The shape of a pass *)

(** The state between the drops and the creations: [s1], with [present] kept. *)
Record dropped_to (w : cw) (present : gset string) (s1 : PS) : Prop := {
  dr_present n : n ∈ present ↔ ∃ cm, tables w !! n = Some cm ∧ kept cfg snap (local n cm);
  dr_only n cm : tables (ps_w s1) !! n = Some cm → tables w !! n = Some cm;
  dr_kept n cm : tables w !! n = Some cm → kept cfg snap (local n cm) → tables (ps_w s1) !! n = Some cm;
  dr_clean n cm : ps_errs s1 = [] → tables (ps_w s1) !! n = Some cm → kept cfg snap (local n cm) }.

Lemma drops_to l w s P s1 :
  (∀ n cm, local n cm ∈ l ↔ tables w !! n = Some cm) → tables (ps_w s) = tables w →
  drop_loop cfg snap (sort_local l) ∅ s = (P, s1) →
  dropped_to w P s1 ∧ grows s s1 ∧ (ps_errs s1 = [] → rc_owed (ps_r s) = ∅ → rc_owed (ps_r s1) = ∅).
Proof using CL.
  intros Hl Hw Hd. pose proof (drop_loop_spec cfg snap (sort_local l) ∅ s) as H1. rewrite Hd in H1.
  destruct H1 as (Hg & HP & Hn & Hk & Hdr & Ho). rewrite Hw in *.
  assert (∀ lt, lt ∈ sort_local l → mine cfg lt → lt = local (lt_Table lt) (lt_Comment lt) ∧
            tables w !! lt_Table lt = Some (lt_Comment lt)) as Hin.
  { intros [db n cm] Hlt Hm. unfold sort_local in Hlt. rewrite merge_sort_Permutation in Hlt.
    unfold mine in Hm. simpl in *. subst db. by rewrite <- Hl. }
  assert (∀ n cm, tables w !! n = Some cm → local n cm ∈ sort_local l) as Hin'.
  { intros n cm Ht%Hl. unfold sort_local. by rewrite merge_sort_Permutation. }
  split; [split|by split].
  - intros n. rewrite HP. split.
    + intros [?%elem_of_empty|(lt & Hlt & Hm & Hkp & <-)]; [done|]. destruct (Hin lt Hlt Hm) as [Heq Ht].
      exists (lt_Comment lt). split; [done|]. by rewrite <- Heq.
    + intros (cm & Ht & Hkp). right. exists (local n cm). by split_and!; [apply Hin'|..].
  - intros n cm Ht. destruct (Hn n) as [<-|Hnone]; [done|congruence].
  - intros n cm Ht Hkp. rewrite Hk; [done|]. intros lt Hlt Hm <-. destruct (Hin lt Hlt Hm) as [Heq Ht'].
    rewrite Heq. by replace (lt_Comment lt) with cm by congruence.
  - intros n cm He Ht. destruct (decide ((classify cfg snap (local n cm)).2 = keep)) as [|Hnk]; [done|].
    destruct (Hn n) as [Heq|Hnone]; [|congruence]. rewrite Heq in Ht.
    specialize (Hdr He (local n cm) (Hin' _ _ Ht) eq_refl Hnk). simpl in Hdr. congruence.
Qed.

Abbreviation schema_of inc := (IncarnationSchema (cc_NetworkID cfg) (cc_Genesis cfg) inc).
Abbreviation live key := (live_of cfg snap key (rs_Incarnations snap)).

Lemma want_copy key c : (desired cfg snap).1 !! key = Some c →
  ∃ inc, head (live key) = Some inc ∧ c = copy_of snap inc (schema_of inc) ∧ Key inc = key ∧
    inc ∈ rs_Incarnations snap ∧ wanted cfg snap inc = true ∧ named_copy key c.
Proof using SL.
  pose proof (desired_spec cfg snap (rs_Incarnations snap) key) as Hd. unfold desired.
  destruct (foldl _ _ _) as [want errs]. destruct Hd as [Hw _]. simpl. rewrite Hw.
  destruct (head (live key)) as [inc|] eqn:Hh; [|done]. intros [= <-]. exists inc.
  pose proof Hh as [Hin [Hwant Hkey]]%head_filter. split_and!; try done.
  split_and!; [done|done|]. simpl. intros sch Hs. by rewrite (schema_of_id _ _ _ Hs).
Qed.

Lemma want_err key c : (desired cfg snap).1 !! key = Some c → (desired cfg snap).2 !! key = None →
  ∃ inc sch, live key = [inc] ∧ schema_of inc = Some sch ∧ c = copy_of snap inc (Some sch).
Proof using.
  pose proof (desired_spec cfg snap (rs_Incarnations snap) key) as Hd. unfold desired.
  destruct (foldl _ _ _) as [want errs]. destruct Hd as [Hw He]. simpl. rewrite Hw. intros Hc Hn%He.
  destruct (live key) as [|inc [|??]]; [done| |done]. destruct Hn as [sch Hs]. simpl in Hc. exists inc, sch.
  split_and!; [done|done|]. rewrite Hs in Hc. congruence.
Qed.

Lemma want_numbering old lo gens : numbering old lo (desired cfg snap).1 gens.
Proof using SL.
  assert (∀ k c, (desired cfg snap).1 !! k = Some c → cp_Generation c = 0%N) as H0.
  { intros k c Hk. by apply want_copy in Hk as (inc & _ & -> & _). }
  split; [split|].
  - intros k c Hk. rewrite (H0 _ _ Hk). lia.
  - intros k k' c c' Hk _ _ Hne. by apply H0 in Hk.
  - intros k c Hk Hne. by apply H0 in Hk.
Qed.

(** A pass that ran its two loops: [mid] is the state between them. *)
Inductive ran (r : Reconciler) (w : cw) (s : PS) : Prop :=
| Ran present mid copies fin :
    dropped_to w present mid → grows (mkPS r w []) mid →
    ensured cfg (desired cfg snap).2 present (sorted_keys (desired cfg snap).1) (desired cfg snap).1 mid copies fin →
    gens_ok copies (rc_gens (ps_r fin)) →
    (ps_errs mid = [] → rc_owed (ps_r mid) = ∅) →
    s = mkPS (publish copies (ps_r fin)) (ps_w fin) (ps_errs fin) → ran r w s.

Lemma owed_cleared r w :
  owed_ok r →
  let s' := foldl (fun s c => notifyDropped c s) (mkPS r w []) (owedDrops r) in
  ps_errs s' = [] → rc_owed (ps_r s') = ∅.
Proof using CL.
  intros [Hkey Hnone] s' He. destruct (owed_phase (owedDrops r) (mkPS r w [])) as (_ & _ & Ho & Hc).
  fold s' in Ho, Hc. simpl in Ho. apply map_empty. intros t.
  destruct (decide (Exists (fun c => cp_Table c = t) (owedDrops r))) as [Hex|Hno].
  - apply Exists_exists in Hex as (c & Hin & <-). apply Hc; [done| |done]. intros Hn.
    unfold owedDrops in Hin. rewrite (Hnone Hn) in Hin. apply list_elem_of_omap in Hin as (k & _ & Hk). by rewrite lookup_empty in Hk.
  - rewrite Ho by (intros c Hin Heq; apply Hno, Exists_exists; eauto).
    destruct (rc_owed r !! t) as [c|] eqn:Ht; [|done]. exfalso. apply Hno, Exists_exists. exists c. split; [|by apply Hkey].
    apply list_elem_of_omap. exists t. split; [|done]. apply elem_of_sorted_keys. by eexists.
Qed.

Lemma pass_ran r w :
  before_pass r → let s := Reconcile cfg (Some (Some snap)) r w in
  ran r w s ∨
  ∃ r' w', s = mkPS r' w' (ps_errs s) ∧ EList ∈ ps_errs s ∧ rc_copies r' = rc_copies r ∧ rc_gens r' = rc_gens r ∧
    owed_ok r' ∧ tables w' = tables w.
Proof using CL SL.
  intros (Hgens & Hlt & Howed). unfold Reconcile.
  destruct (owed_phase (owedDrops r) (mkPS r w [])) as (Hg0 & Ht0 & _). pose proof (owed_cleared r w Howed) as Hclear.
  cbv zeta in Hclear. set (s0 := foldl _ _ _) in *. simpl in Ht0.
  destruct (cs_list (ps_w s0)) as [[l|] w1] eqn:Hl; apply list_reads in Hl as [Htl Hl].
  2:{ right. exists (ps_r s0), w1. split_and!; [done|apply elem_of_app; right; by apply list_elem_of_singleton|apply Hg0|
        apply Hg0|by apply Hg0|congruence]. }
  left. specialize (Hl l eq_refl). rewrite Ht0 in Hl.
  destruct (desired cfg snap) as [want errs] eqn:Hdes.
  destruct (drop_loop _ _ _ _ _) as [present mid] eqn:Hd.
  apply (drops_to l w) in Hd as (Hdr & Hg1 & Ho1); [|done|simpl; congruence].
  assert (grows (mkPS r w []) mid) as Hg.
  { eapply grows_trans; [exact Hg0|]. eapply grows_trans; [|exact Hg1]. by split. }
  destruct (ensure_loop _ _ _ _ _) as [copies fin] eqn:He.
  assert (NoDup (sorted_keys want)) as Hnd by apply sorted_keys_nodup.
  assert (∀ key c, key ∈ sorted_keys want → want !! key = Some c → named_copy key c) as Hnamed.
  { intros key c _ Hc. replace want with (desired cfg snap).1 in Hc by (by rewrite Hdes).
    by apply want_copy in Hc as (_ & _ & _ & _ & _ & _ & ?). }
  pose proof (gr_gens _ _ Hg) as Hgg. simpl in Hgg, Hlt. rewrite <- Hgg in Hlt.
  apply (Ran r w _ present mid copies fin); rewrite ?Hdes; [done|done| | | |done].
  - by apply (ensure_loop_spec cfg).
  - eapply (loop_numbering cfg _ _ _ _ _ _ _ (rc_gens r) Hnd Hnamed Hlt); [| | |exact He].
    + by rewrite (gr_copies _ _ Hg).
    + by rewrite Hgg.
    + replace want with (desired cfg snap).1 by (by rewrite Hdes). apply want_numbering.
  - intros Hmid. apply Ho1; [done|]. simpl. apply Hclear.
    apply (grows_no_err (mkPS (ps_r s0) w1 (ps_errs s0)) mid Hg1 Hmid).
Qed.

(** The table a Pending or Active incarnation in scope is copied to. *)
Definition is_copy (n cm : string) : Prop :=
  ∃ inc, inc ∈ rs_Incarnations snap ∧ wanted cfg snap inc = true ∧
    n = CopyTableName (Key inc) (ti_Seq inc) ∧ cm = IncarnationComment (ti_Seq inc).

Lemma kept_is_copy n cm : kept cfg snap (local n cm) → is_copy n cm.
Proof.
  unfold kept. destruct (classify cfg snap (local n cm)) as [c v] eqn:Hc. simpl. intros ->.
  apply classify_keep in Hc as (inc & ? & ? & ? & ?). by exists inc.
Qed.

Lemma want_is_copy key c : (desired cfg snap).1 !! key = Some c →
  is_copy (cp_Table c) (IncarnationComment (cp_IncarnationSeq c)).
Proof using SL. intros (inc & _ & -> & _ & ? & ? & _)%want_copy. by exists inc. Qed.

(** What a ready copy is, after a pass from [r] and [w] that ended in [s]. *)
Definition ready_copy (r : Reconciler) (w : cw) (s : PS) (key : string) (c : Copy) : Prop :=
  ∃ inc sch, live key = [inc] ∧ schema_of inc = Some sch ∧
    c = readied (cp_Generation c) (copy_of snap inc (Some sch)) ∧ cp_Generation c ≠ 0%N ∧
    tables (ps_w s) !! cp_Table c = Some (IncarnationComment (ti_Seq inc)) ∧
    rc_owed (ps_r s) !! cp_Table c = None ∧
    ((tables w !! cp_Table c = Some (IncarnationComment (ti_Seq inc)) ∧
      ∃ prev, rc_copies r !! key = Some prev ∧ cp_Table prev = cp_Table c ∧ cp_Generation prev = cp_Generation c) ∨
     (rc_gens r < cp_Generation c)%N).

Lemma ran_ready r w s key c :
  ran r w s → rc_copies (ps_r s) !! key = Some c → cp_Ready c = true → ready_copy r w s key c.
Proof using SL.
  intros [present mid copies fin Hdr Hg Hen Hgens _ ->] Hc Hr. simpl in Hc.
  destruct Hen as [[Hfc Hfo] _ Heg Hkeeps _ Hother Heach]. destruct ((desired cfg snap).1 !! key) as [c0|] eqn:Hw.
  2:{ rewrite Hother in Hc by (by rewrite elem_of_sorted_keys, Hw; intros []). congruence. }
  assert (key ∈ sorted_keys (desired cfg snap).1) as Hk by (by apply elem_of_sorted_keys; eexists).
  pose proof Hw as (_ & _ & _ & _ & _ & _ & _ & Hnr & _)%want_copy.
  destruct (Heach key c0 Hk Hw) as [[Hs _]|(g & Hs & He & _ & Hmk & Ho & Hnum)]; [congruence|].
  rewrite Hs in Hc. injection Hc as <-.
  destruct (want_err _ _ Hw He) as (inc & sch & Hlive & Hsch & ->). exists inc, sch. simpl.
  split_and!; [done|done|done| |done|done|].
  - destruct Hnum as [(_ & ? & _)|?]; [done|lia].
  - rewrite (gr_copies _ _ Hg) in Hnum. pose proof (gr_gens _ _ Hg) as Hgg. simpl in Hgg.
    destruct Hnum as [(Hp & _ & Hprev)|?]; [left|right; lia]. split; [|done].
    apply (dr_present _ _ _ Hdr) in Hp as (cm & Hcm & Hkp). pose proof (dr_kept _ _ _ Hdr _ _ Hcm Hkp) as Hmid.
    apply Hkeeps in Hmid. simpl in *. congruence.
Qed.


(** ** A pass whose store answers *)

(** The store and the hook answer; a creation fails only over a table of the
    name with another comment. *)
Record answers : Prop := {
  an_list w : ∃ l w', cs_list w = (Some l, w');
  an_drop n w : ∃ w', cs_drop n w = (true, w');
  an_hook hook c w : cs_Dropped = Some hook → ∃ w', hook c w = (true, w');
  an_ensure sch seq w :
    (∀ cm, tables w !! CopyTableName (TableID sch) seq = Some cm → cm = IncarnationComment seq) →
    ∃ w', cs_ensure sch seq w = (true, w') }.

(** The registry names at most one live incarnation per key, with a schema. *)
Definition consistent : Prop :=
  ∀ key, match live key with [] => True | [inc] => is_Some (schema_of inc) | _ => False end.

Lemma notify_answers c s : answers → ps_errs (notifyDropped c s) = ps_errs s.
Proof.
  intros Ha. unfold notifyDropped. destruct cs_Dropped as [hook|] eqn:Hh; [|done].
  destruct (an_hook Ha hook c (ps_w s) Hh) as [w' ->]. done.
Qed.

Lemma owed_answers l s : answers → ps_errs (foldl (fun s c => notifyDropped c s) s l) = ps_errs s.
Proof. intros Ha. revert s. induction l as [|c l IH]; intros s; [done|]. simpl. by rewrite IH, notify_answers. Qed.

Lemma drops_answer l P s : answers → ps_errs (drop_loop cfg snap l P s).2 = ps_errs s.
Proof.
  intros Ha. revert P s. induction l as [|lt l IH]; intros P s; [done|]. simpl. case_bool_decide; [done|].
  destruct (classify cfg snap lt) as [c v]. case_bool_decide; [done|]. rewrite IH. unfold dropTable.
  destruct (an_drop Ha (cp_Table c) (ps_w s)) as [w' ->]. simpl. by rewrite notify_answers.
Qed.

(** Every table of the name of a copy carries that copy's comment. *)
Definition all_copies (w : cw) : Prop :=
  ∀ n cm, tables w !! n = Some cm → ∃ k seq, n = CopyTableName k seq ∧ cm = IncarnationComment seq.

Lemma is_copy_all n cm : is_copy n cm → ∃ k seq, n = CopyTableName k seq ∧ cm = IncarnationComment seq.
Proof. intros (inc & _ & _ & -> & ->). by eexists _, _. Qed.

Lemma round_answers errs present key copies s :
  answers → all_copies (ps_w s) → rc_owed (ps_r s) = ∅ → errs !! key = None →
  (∀ c, copies !! key = Some c → named_copy key c) → ps_errs (round errs present key copies s).2 = ps_errs s.
Proof using SL.
  intros Ha Hall Ho He Hn. unfold round. cbn [ensure_loop]. destruct (copies !! key) as [c|] eqn:Hc; [|done].
  rewrite He. destruct (cp_Schema c) as [sch|] eqn:Hs; [|done].
  rewrite bool_decide_false by (rewrite Ho, lookup_empty; by intros []).
  destruct (an_ensure Ha sch (cp_IncarnationSeq c) (ps_w s)) as [w' ->].
  - intros cm Hcm. apply Hall in Hcm as (k & seq & Hname & ->). f_equal. symmetry. by eapply copy_name_seq.
  - simpl. by destruct (generation _ _ _).
Qed.

Lemma ensured_all errs present keys copies s copies' s' :
  (∀ key c, key ∈ keys → copies !! key = Some c → cp_Table c = CopyTableName key (cp_IncarnationSeq c)) →
  ensured cfg errs present keys copies s copies' s' → all_copies (ps_w s) → all_copies (ps_w s').
Proof.
  intros Hn Hen Hall n cm [?|(key & c & Hk & Hc & _ & <- & ->)]%(en_makes _ _ _ _ _ _ _ _ Hen); [by apply Hall|].
  eexists _, _. split; [by apply (Hn key)|done].
Qed.

Lemma loop_answers errs present keys copies s :
  answers → NoDup keys → all_copies (ps_w s) → rc_owed (ps_r s) = ∅ → (∀ key, errs !! key = None) →
  (∀ key c, key ∈ keys → copies !! key = Some c →
     named_copy key c ∧ cp_Table c = CopyTableName key (cp_IncarnationSeq c)) →
  (rc_gens (ps_r s) + N.of_nat (length keys) < u64_mod)%N →
  ps_errs (ensure_loop errs present keys copies s).2 = ps_errs s.
Proof using CL SL.
  intros Ha Hnd. revert copies s. induction Hnd as [|key keys Hkey Hnd IH]; intros copies s Hall Ho He Hn Hlt; [done|].
  rewrite ensure_loop_cons. simpl in Hlt.
  assert (∀ c, copies !! key = Some c → named_copy key c) as Hk by (intros c Hc; by apply Hn; [apply list_elem_of_here|]).
  pose proof (round_answers errs present key copies s Ha Hall Ho (He key) Hk) as Hre.
  destruct (round _ _ _ _ _) as [copies1 s1] eqn:Hr. simpl in Hre. apply (round_spec cfg) in Hr; [|done|lia].
  pose proof (en_gens _ _ _ _ _ _ _ _ Hr) as Hg. simpl in Hg. rewrite IH; [done| | |done| |lia].
  - eapply ensured_all; [|exact Hr|done]. intros k c ->%list_elem_of_singleton Hc. by apply Hn; [apply list_elem_of_here|].
  - destruct (en_frame _ _ _ _ _ _ _ _ Hr) as [_ ->]. done.
  - intros k c Hin Hc. apply Hn; [by apply list_elem_of_further|]. rewrite <- Hc. symmetry.
    apply (en_other _ _ _ _ _ _ _ _ Hr). rewrite list_elem_of_singleton. by intros ->.
Qed.

Lemma pass_answers r w :
  answers → consistent → before_pass r → ps_errs (Reconcile cfg (Some (Some snap)) r w) = [].
Proof using CL SL.
  intros Ha Hcons (Hgens & Hlt & Howed). unfold Reconcile.
  destruct (owed_phase (owedDrops r) (mkPS r w [])) as (Hg0 & Ht0 & _).
  pose proof (owed_answers (owedDrops r) (mkPS r w []) Ha) as He0.
  pose proof (owed_cleared r w Howed) as Hclear. cbv zeta in Hclear. set (s0 := foldl _ _ _) in *. simpl in He0, Ht0.
  destruct (an_list Ha (ps_w s0)) as (l & w1 & Hl). rewrite Hl. apply list_reads in Hl as [Htl Hl].
  specialize (Hl l eq_refl). rewrite Ht0 in Hl.
  pose proof (drops_answer (sort_local l) ∅ (mkPS (ps_r s0) w1 (ps_errs s0)) Ha) as Hed.
  destruct (desired cfg snap) as [want errs] eqn:Hdes. destruct (drop_loop _ _ _ _ _) as [present mid] eqn:Hd.
  simpl in Hed. rewrite He0 in Hed. apply (drops_to l w) in Hd as (Hdr & Hg1 & Ho1); [|done|simpl; congruence].
  pose proof (loop_answers errs present (sorted_keys want) want mid Ha (sorted_keys_nodup _)) as Hloop.
  destruct (ensure_loop _ _ _ _ _) as [copies fin]. simpl in *. rewrite Hloop; [done|..].
  - intros n cm Hn. apply is_copy_all, kept_is_copy. by apply (dr_clean _ _ _ Hdr).
  - apply Ho1; [done|]. by apply Hclear.
  - intros key. pose proof (desired_spec cfg snap (rs_Incarnations snap) key) as Hds.
    unfold desired in Hdes. rewrite Hdes in Hds. apply Hds, Hcons.
  - intros key c _ Hc. replace want with (desired cfg snap).1 in Hc by (by rewrite Hdes).
    apply want_copy in Hc as (inc & _ & -> & <- & _ & _ & ?). done.
  - pose proof (gr_gens _ _ Hg0) as E0. pose proof (gr_gens _ _ Hg1) as E1. simpl in E0, E1. rewrite E1, E0. done.
Qed.

Lemma consistent_desired key : consistent →
  (desired cfg snap).1 !! key = (fun inc => copy_of snap inc (schema_of inc)) <$> head (live key) ∧
  (desired cfg snap).2 !! key = None.
Proof.
  intros Hcons. pose proof (desired_spec cfg snap (rs_Incarnations snap) key) as Hds. unfold desired.
  destruct (foldl _ _ _). destruct Hds as [? Hn]. split; [done|]. apply Hn, Hcons.
Qed.

(** A pass without errors readied every copy, and left what it asked for. *)
Lemma ran_clean r w s :
  consistent → ran r w s → ps_errs s = [] →
  (∀ key inc, live key = [inc] → ∃ c, rc_copies (ps_r s) !! key = Some c ∧ cp_Ready c = true) ∧
  (∀ key, live key = [] → rc_copies (ps_r s) !! key = None) ∧
  (∀ n cm, tables (ps_w s) !! n = Some cm → is_copy n cm) ∧ rc_owed (ps_r s) = ∅.
Proof using SL.
  intros Hcons [present mid copies fin Hdr Hg Hen _ Ho ->] He. simpl in *.
  assert (ps_errs mid = []) as Hmid.
  { destruct (en_errs _ _ _ _ _ _ _ _ Hen) as [k Hk]. rewrite Hk in He. by apply app_nil in He as [? _]. }
  split_and!.
  - intros key inc Hl. destruct (consistent_desired key Hcons) as [Hw Hne]. rewrite Hl in Hw. simpl in Hw.
    pose proof (Hcons key) as Hck. rewrite Hl in Hck. destruct Hck as [sch Hsch].
    destruct (en_each _ _ _ _ _ _ _ _ Hen key _ ltac:(apply elem_of_sorted_keys; by rewrite Hw) Hw)
      as [(_ & Hb & _)|(g & Hc & _)]; [|by eexists]. simpl in Hb. exfalso. rewrite Hsch in Hb. by apply Hb.
  - intros key Hl. destruct (consistent_desired key Hcons) as [Hw _]. rewrite Hl in Hw. simpl in Hw.
    rewrite (en_other _ _ _ _ _ _ _ _ Hen key), Hw; [done|]. rewrite elem_of_sorted_keys, Hw. by intros [].
  - intros n cm [Hm|(key & c & _ & Hc & _ & <- & ->)]%(en_makes _ _ _ _ _ _ _ _ Hen); [|by eapply want_is_copy].
    apply kept_is_copy. by apply (dr_clean _ _ _ Hdr).
  - destruct (en_frame _ _ _ _ _ _ _ _ Hen) as [_ ->]. by apply Ho.
Qed.

End pass.
