(* ===== verification/CopysetToy.v ===== *)
(** * A concrete hg_replica for the copy reconciler *)
From S2P Require Import Prelude Types Registry Ddl Copyset CopysetProofs CopysetPass.
Import Registry Copyset.

Module CopysetToy.

#[export] Instance toy_schemas : Schemas := {|
  Schema_t := string; TableID := id; SchemaHash _ _ := "h"%string;
  DecodeTableSchemaJSON k _ := Some k;
  CopyTableName k n := join "_" (pretty n) k |}.

#[export] Instance toy_schema_laws : SchemaLaws.
Proof.
  split; [by intros k json sch [= <-]|]. intros k k' n n' Hj.
  apply join_inj in Hj as [Hn _]; [|by apply pretty_free..]. by apply (inj pretty) in Hn.
Qed.

(** The database: its tables and their comments. *)
#[export] Instance toy_store : CopyStore := {|
  cw := gmap string string;
  cs_list w := (Some ((fun nc => mkLocal "hg_replica" nc.1 nc.2) <$> map_to_list w), w);
  cs_ensure sch seq w :=
    let n := CopyTableName sch seq in
    match w !! n with
    | Some cm => (bool_decide (cm = IncarnationComment seq), w)
    | None => (true, <[n := IncarnationComment seq]> w)
    end;
  cs_drop n w := (true, delete n w);
  cs_Dropped := Some (fun _ w => (true, w)) |}.

Definition toy_config : Config := mkConfig "hg_replica" "net" [] [1%N] 7.

#[export] Program Instance toy_store_laws : CopyStoreLaws (cc_ReplicaDB toy_config) := {| tables w := w |}.
Next Obligation.
  intros w r w' [= <- <-]. split; [done|]. intros l [= <-] n c. rewrite list_elem_of_fmap. split.
  - intros ([n' c'] & [= -> ->] & Hin). by apply elem_of_map_to_list.
  - intros Hn. exists (n, c). by rewrite elem_of_map_to_list.
Qed.
Next Obligation.
  intros sch seq w ok w' He. simpl in *. destruct (w !! _) as [cm|] eqn:Hw; simplify_eq.
  - split_and!; [done|by left|]. intros ->%bool_decide_eq_true_1. done.
  - rewrite lookup_insert_eq. split_and!; [|by right|done]. intros m Hm. by rewrite lookup_insert_ne.
Qed.
Next Obligation.
  intros n w ok w' [= <- <-]. rewrite lookup_delete_eq. split_and!; [|by right|done].
  intros m Hm. by rewrite lookup_delete_ne.
Qed.
Next Obligation. intros hook c w ok w' [= <-] [= _ <-]. done. Qed.

Definition start : Reconciler := mkReconciler ∅ 0 [] 0 ∅ 0 0 ∅ [].
Definition junk : cw := {["junk"%string := EmptyString]}.

Lemma toy_answers : answers toy_config.
Proof.
  split; simpl.
  - intros w. by eexists _, _.
  - intros n w. by eexists.
  - intros hook c w [= <-]. by eexists.
  - intros sch seq w Hcm. destruct (w !! _) as [cm|] eqn:Hw; [|by eexists].
    rewrite (Hcm cm) by done. rewrite bool_decide_true by done. by eexists.
Qed.

Lemma toy_before : before_pass toy_config ex_registry start.
Proof. split_and!; [by split|vm_compute; reflexivity|by split]. Qed.

Lemma toy_consistent : consistent toy_config ex_registry.
Proof.
  intros key. unfold live_of. simpl rs_Incarnations. rewrite filter_cons, filter_nil.
  case_decide as Hd; [|done]. by eexists.
Qed.

Definition after : PS := Reconcile toy_config (Some (Some ex_registry)) start junk.


End CopysetToy.
