(* ===== verification/Installer.v ===== *)
(** * The member's installer (member/install: installer.go, audit.go, scratch.go, foreign.go)

    The installer brings the member's copies to a published manifest: it
    reconciles each copy with the journal, plans every partition through the
    gate, fetches the needed parts into scratch tables, verifies all copies of
    an owner, and only then changes them and writes the journal once.

    An operation is a computation over [St]: the ClickHouse server, the journal
    file, the installer's fields, the ready copies and a trace of the calls that
    matter to the serving side. What the outside decides (the clock, when a
    context ends, how a file write goes, what the hooks answer) is an [Oracle],
    asked by the number of earlier questions. A computation keeps its effects
    when it fails. The copyset's passes run between the installer's operations.
    Composite map keys ("<owner>/<table key>" and the like) are tuples. Logging
    is left out. *)
From Stdlib Require Import Floats.SpecFloat.
From S2P Require Import Prelude LtHash Types Gate Registry ClickHouse InstallJournal.
Import InstallJournal.

(** ** What the installer is given *)

(** copyset.Copy *)
Record Copy `{ClickHouse} := mkCopy {
  c_Owner : N; c_TableKey : string; c_IncarnationSeq : N; c_Table : string;
  c_Schema : TableSchema; c_Generation : N; c_Ready : bool }.

(** member/sources *)
Inductive FetchOutcome := SrcFetched | SrcMissed | SrcRefused | SrcUnreachable.

#[export] Instance FetchOutcome_eq_dec : EqDecision FetchOutcome.
Proof. solve_decision. Defined.

Record SourceNeed := mkNeed {
  nd_TableKey : string; nd_Table : string; nd_PartitionID : string; nd_PartName : string;
  nd_PartPhysHash : string; nd_PartRowLtHash : string; nd_RowCount : N }.
Record Result := mkResult { res_Outcome : FetchOutcome; res_Err : bool }.
Record Source `{ClickHouse} := mkSource {
  src_Name : string; src_Fetch : SourceNeed → TableSchema → string → chs → Result * chs }.

Definition SourceOwnerPull : string := "owner_pull".
Definition SourceRestore : string := "restore".

(** What the installer uses of the server beyond [ClickHouse] (the executor's
    scan of a whole table, the disk use, the list of scratch tables), of
    housegate (the schema hash) and of its sources. *)
Class MemberServer `{ClickHouse} := {
  ch_scan_all : database → string → TableSchema → chs → option (list Scan) * chs;
  ch_disk : chs → option N * chs;
  ch_stage_tables : string → chs → option (list string) * chs;
  TableSchemaHash : string → TableSchema → string;
  CHTableName : string → string;
  SourcesOf : N → list Source;
}.

Record Config := mkConfig {
  cfg_NodeID : string; cfg_NetworkID : string; cfg_BootNonce : string;
  cfg_DiskBudgetBytes : N; cfg_StopInstallsRatio : spec_float;
  cfg_SelfAuditInterval : Z; cfg_hooks : bool }.

Record Oracle := mkOracle {
  o_now : nat → Z; o_ctx : nat → bool; o_deadline : nat → bool;
  o_write : nat → write_env; o_before : nat → bool; o_attach : nat → bool }.

Module Installer.
Import Gate.
#[local] Open Scope string_scope.

Inductive ierr :=
| EUpdate | ETrigger | EAudit (e : ierr) | ENoFrontier | EQuarantined | EHook | ESchemaHash | EList | EScan
| EGate (e : gate_error) | EScratch | ECtx | ENoSource | EScratchParts | ESet | EClose | EQuote | EStmt
| EAttach | EMismatch | EWrite | EDisk | EPaused | EForeignPart | EJoin (es : list ierr).

(** The serving side's view of a pass: the hooks and the changes of copies. *)
Inductive event :=
| EvBefore (owner : N) (db : string) (ok : bool)
| EvAfter (owner : N) (db : string)
| EvChange (owner : N) (db : string) (q : stmt).

Definition minute : Z := 60 * 10 ^ 9.
Definition DefaultDeferBackoffMin : Z := minute.
Definition DefaultDeferBackoffMax : Z := 30 * minute.

Definition TriggerStartup : string := "startup".
Definition TriggerClickHouseRestart : string := "clickhouse_restart".
Definition TriggerSelfAudit : string := "self_audit".
Definition triggers : list string := [TriggerStartup; TriggerClickHouseRestart; TriggerSelfAudit].

Record deferral := mkDeferral { df_until : Z; df_backoff : Z; df_results : list (string * string) }.

(** The installer's counters, deferrals, probes and scratch numbers. *)
Record Book := mkBook {
  b_deferred : gmap (N * string * string * string) deferral; b_counts : gmap string N;
  b_installs : gmap string N; b_diverged : gmap N N; b_auditRuns : gmap string N;
  b_droppedTwins : N; b_lastSelfAudit : option Z; b_paused : bool; b_diskUsed : N;
  b_probed : gset (N * string * N * string * N); b_scratchN : N }.

(** Installer: the fields of the struct that decide what it reports and does. *)
Record Installer := mkInstaller {
  i_journal : Journal; i_pending : gmap (N * string) nat; i_committing : gset (N * string);
  i_audited : gset (N * string * N * string * N); i_auditDone : bool; i_auditTrigger : string;
  i_book : Book }.

Section installer.
Context `{ClickHouse, RowSum, !MemberServer}.

Record St := mkSt {
  st_ch : chs; st_file : file (option Journal); st_i : Installer; st_copies : list Copy;
  st_held : list string; st_tick : nat; st_trace : list event }.

Definition set_ch (w : chs) (s : St) : St :=
  mkSt w (st_file s) (st_i s) (st_copies s) (st_held s) (st_tick s) (st_trace s).
Definition set_inst (i : Installer) (s : St) : St :=
  mkSt (st_ch s) (st_file s) i (st_copies s) (st_held s) (st_tick s) (st_trace s).
Definition set_held (h : list string) (s : St) : St :=
  mkSt (st_ch s) (st_file s) (st_i s) (st_copies s) h (st_tick s) (st_trace s).
Definition log (e : event) (s : St) : St :=
  mkSt (st_ch s) (st_file s) (st_i s) (st_copies s) (st_held s) (st_tick s) (st_trace s ++ [e])%list.

Definition set_journal (j : Journal) (i : Installer) : Installer :=
  mkInstaller j (i_pending i) (i_committing i) (i_audited i) (i_auditDone i) (i_auditTrigger i) (i_book i).
Definition set_pending (p : gmap (N * string) nat) (i : Installer) : Installer :=
  mkInstaller (i_journal i) p (i_committing i) (i_audited i) (i_auditDone i) (i_auditTrigger i) (i_book i).
Definition set_committing (p : gset (N * string)) (i : Installer) : Installer :=
  mkInstaller (i_journal i) (i_pending i) p (i_audited i) (i_auditDone i) (i_auditTrigger i) (i_book i).
Definition set_audit (a : gset (N * string * N * string * N)) (done : bool) (t : string) (i : Installer) : Installer :=
  mkInstaller (i_journal i) (i_pending i) (i_committing i) a done t (i_book i).
Definition set_book (b : Book) (i : Installer) : Installer :=
  mkInstaller (i_journal i) (i_pending i) (i_committing i) (i_audited i) (i_auditDone i) (i_auditTrigger i) b.

(** ** Computations *)
Definition M (A : Type) : Type := St → result ierr A * St.

#[export] Instance M_ret : MRet M := fun A a s => (Ok a, s).
#[export] Instance M_bind : MBind M := fun A B f m s =>
  match m s with (Ok a, s') => f a s' | (Err e, s') => (Err e, s') end.

Definition fail {A} (e : ierr) : M A := fun s => (Err e, s).
Definition lift {A} (r : result ierr A) : M A := fun s => (r, s).
Definition opt {A} (e : ierr) (o : option A) : M A := lift (of_option e o).
Definition gets {A} (f : St → A) : M A := fun s => (Ok (f s), s).
Definition step (f : St → St) : M unit := fun s => (Ok (), f s).
Definition modify (f : Installer → Installer) : M unit := step (λ s, set_inst (f (st_i s)) s).
Definition book (f : Book → Book) : M unit := modify (fun i => set_book (f (i_book i)) i).

(** The error as a value. *)
Definition attempt {A} (m : M A) : M (result ierr A) := fun s => let '(r, s') := m s in (Ok r, s').
(** Go's defer: [h] runs however [m] ended. *)
Definition finally {A} (m : M A) (h : M unit) : M A := fun s =>
  let '(r, s') := m s in (r, (h s').2).

Context (cfg : Config) (orc : Oracle).

Definition ask {A} (f : nat → A) : M A := fun s =>
  (Ok (f (st_tick s)),
   mkSt (st_ch s) (st_file s) (st_i s) (st_copies s) (st_held s) (S (st_tick s)) (st_trace s)).

(** [if err := ctx.Err(); err != nil { return err }] *)
Definition ctxErr : M unit := ended ← ask (o_ctx orc); if (ended : bool) then fail ECtx else mret ().

Definition query {A} (e : ierr) (f : chs → option A * chs) : M A := fun s =>
  let '(r, w) := f (st_ch s) in (of_option e r, set_ch w s).
Definition exec (q : stmt) : M unit := fun s =>
  let '(r, w) := ch_exec q (st_ch s) in
  (match r with None => Ok () | Some _ => Err EStmt end, set_ch w s).

(** [for _, x := range l] with the errors joined and a context check first. *)
Fixpoint each {A} (f : A → M unit) (l : list A) : M (list ierr) :=
  match l with
  | [] => mret []
  | x :: l =>
      ctxErr;;
      r ← attempt (f x);
      es ← each f l;
      mret (match r with Ok _ => es | Err e => e :: es end)
  end.

Definition joined (es : list ierr) : M unit := match es with [] => mret () | _ => fail (EJoin es) end.

(** update: [fn] gives the changed journal, if it changed. *)
Definition update (fn : Journal → option Journal) : M unit := fun s =>
  match fn (i_journal (st_i s)) with
  | None => (Ok (), s)
  | Some next =>
      let '(ok, f) := writeJournal (o_write orc (st_tick s)) (st_file s) next in
      (if ok then Ok () else Err EWrite,
       mkSt (st_ch s) f (if ok then set_journal next (st_i s) else st_i s) (st_copies s) (st_held s)
         (S (st_tick s)) (st_trace s))
  end.

(** ** Reads of the installer's state *)
Definition readyCopies (s : St) : list Copy :=
  merge_sort (λ a b, (c_Owner a < c_Owner b)%N ∨ c_Owner a = c_Owner b ∧ String.le (c_TableKey a) (c_TableKey b))
    (filter (λ c, c_Ready c = true) (st_copies s)).

Definition pendingKey (owner : N) (key : string) : N * string := (owner, key).
Definition auditKey (c : Copy) : N * string * N * string * N :=
  (c_Owner c, c_TableKey c, c_IncarnationSeq c, c_Table c, c_Generation c).
Definition deferKey (owner : N) (key : string) (need : PartManifestEntry) : N * string * string * string :=
  (owner, key, e_PartitionID need, e_PartRowLtHash need).

(** The journal holds [c]'s incarnation under [c]'s name. *)
Definition same_copy (c : Copy) (tj : TableJournal) : bool :=
  bool_decide (tj_IncarnationSeq tj = c_IncarnationSeq c) && bool_decide (tj_Copy tj = c_Table c).

Definition stored (i : Installer) (owner : N) (key : string) : option TableJournal :=
  oj ← j_Owners (i_journal i) !! owner; oj_Tables oj !! key.

Definition tableJournal (i : Installer) (owner : N) (c : Copy) : TableJournal :=
  match stored i owner (c_TableKey c) with
  | Some tj => if same_copy c tj then tj else newTableJournal (c_IncarnationSeq c) (c_Table c)
  | None => newTableJournal (c_IncarnationSeq c) (c_Table c)
  end.

Definition pending_of (i : Installer) (owner : N) (key : string) : nat :=
  get_or 0 (i_pending i) (pendingKey owner key).

Definition foreignTables (i : Installer) (owner : N) : list string :=
  match j_Owners (i_journal i) !! owner with
  | None => []
  | Some oj => sort_strings (filter (λ x, tj_Foreign x.2 = true) (map_to_list (oj_Tables oj))).*1
  end.

Definition foreignScratches (i : Installer) : list string :=
  '(_, oj) ← map_to_list (j_Owners (i_journal i));
  '(_, tj) ← map_to_list (oj_Tables oj);
  if tj_Foreign tj && bool_decide (tj_ForeignScratch tj ≠ "") then [tj_ForeignScratch tj] else [].

Definition ownerAhead (i : Installer) (owner : N) (snapshotID : string) (entry : TrackFrontier) : bool :=
  match j_Owners (i_journal i) !! owner with
  | None => false
  | Some oj =>
      negb (bool_decide (oj_SnapshotID oj = "") || bool_decide (oj_SnapshotID oj = snapshotID) ||
            bool_decide (tf_SafeBlockSeq (oj_Entry oj) ≤ tf_SafeBlockSeq entry)%N &&
            bool_decide (tf_AppliedPromotionSeq (oj_Entry oj) ≤ tf_AppliedPromotionSeq entry)%N)
  end.

Definition ownerCurrent (i : Installer) (owner : N) (snapshotID : string) (copies : list Copy) : bool :=
  match j_Owners (i_journal i) !! owner with
  | None => false
  | Some oj =>
      bool_decide (oj_SnapshotID oj = snapshotID) &&
      forallb (λ c, match oj_Tables oj !! c_TableKey c with
                    | None => false
                    | Some tj => same_copy c tj && negb (tj_Foreign tj) &&
                        bool_decide (length (tj_Diverged tj) = 0) &&
                        bool_decide (pending_of i owner (c_TableKey c) = 0)
                    end) copies
  end.

(** owners: of the copies and of the journal, ascending. *)
Definition owners (i : Installer) (copies : list Copy) : list N :=
  merge_sort N.le (elements (list_to_set (c_Owner <$> copies) ∪ dom (j_Owners (i_journal i)) : gset N)).

(** ** Counters and deferrals *)
Definition bump {K} `{Countable K} (k : K) (m : gmap K N) : gmap K N := <[k := u64 (get_or 0%N m k + 1)]> m.

Definition count (o : string) : M unit := book (fun b =>
  mkBook (b_deferred b) (bump o (b_counts b)) (b_installs b) (b_diverged b) (b_auditRuns b) (b_droppedTwins b)
    (b_lastSelfAudit b) (b_paused b) (b_diskUsed b) (b_probed b) (b_scratchN b)).
Definition countDiverged (owner : N) : M unit := book (fun b =>
  mkBook (b_deferred b) (b_counts b) (b_installs b) (bump owner (b_diverged b)) (b_auditRuns b) (b_droppedTwins b)
    (b_lastSelfAudit b) (b_paused b) (b_diskUsed b) (b_probed b) (b_scratchN b)).
Definition countInstalls (l : list string) : M unit := book (fun b =>
  mkBook (b_deferred b) (b_counts b) (foldl (λ m k, bump k m) (b_installs b) l) (b_diverged b) (b_auditRuns b)
    (b_droppedTwins b) (b_lastSelfAudit b) (b_paused b) (b_diskUsed b) (b_probed b) (b_scratchN b)).
Definition countTwin : M unit := book (fun b =>
  mkBook (b_deferred b) (b_counts b) (b_installs b) (b_diverged b) (b_auditRuns b) (u64 (b_droppedTwins b + 1))
    (b_lastSelfAudit b) (b_paused b) (b_diskUsed b) (b_probed b) (b_scratchN b)).
Definition countAudit (t : string) : M unit := book (fun b =>
  mkBook (b_deferred b) (b_counts b) (b_installs b) (b_diverged b) (bump t (b_auditRuns b)) (b_droppedTwins b)
    (b_lastSelfAudit b) (b_paused b) (b_diskUsed b) (b_probed b) (b_scratchN b)).
Definition set_deferred (d : gmap (N * string * string * string) deferral) : M unit := book (fun b =>
  mkBook d (b_counts b) (b_installs b) (b_diverged b) (b_auditRuns b) (b_droppedTwins b)
    (b_lastSelfAudit b) (b_paused b) (b_diskUsed b) (b_probed b) (b_scratchN b)).
Definition set_selfAudit (t : Z) : M unit := book (fun b =>
  mkBook (b_deferred b) (b_counts b) (b_installs b) (b_diverged b) (b_auditRuns b) (b_droppedTwins b)
    (Some t) (b_paused b) (b_diskUsed b) (b_probed b) (b_scratchN b)).
Definition set_disk (used : N) (paused : bool) : M unit := book (fun b =>
  mkBook (b_deferred b) (b_counts b) (b_installs b) (b_diverged b) (b_auditRuns b) (b_droppedTwins b)
    (b_lastSelfAudit b) paused used (b_probed b) (b_scratchN b)).
Definition set_probed (p : gset (N * string * N * string * N)) : M unit := book (fun b =>
  mkBook (b_deferred b) (b_counts b) (b_installs b) (b_diverged b) (b_auditRuns b) (b_droppedTwins b)
    (b_lastSelfAudit b) (b_paused b) (b_diskUsed b) p (b_scratchN b)).
Definition set_scratchN (n : N) : M unit := book (fun b =>
  mkBook (b_deferred b) (b_counts b) (b_installs b) (b_diverged b) (b_auditRuns b) (b_droppedTwins b)
    (b_lastSelfAudit b) (b_paused b) (b_diskUsed b) (b_probed b) n).

Definition the_book : M Book := gets (λ s, i_book (st_i s)).

(** The deferral recorded under [key] once more: a minute, then doubling, at
    most half an hour. *)
Definition next_deferral (d : option deferral) (now : Z) (results : list (string * string)) : deferral :=
  let backoff := match d with
                 | None => DefaultDeferBackoffMin
                 | Some d => Z.min (2 * df_backoff d) DefaultDeferBackoffMax
                 end in
  mkDeferral (now + backoff) backoff results.

Definition deferAgain (key : N * string * string * string) (results : list (string * string)) : M deferral :=
  b ← the_book; now ← ask (o_now orc);
  let d := next_deferral (b_deferred b !! key) now results in
  set_deferred (<[key := d]> (b_deferred b));; mret d.

Definition clearDeferral (key : N * string * string * string) : M unit :=
  b ← the_book; set_deferred (delete key (b_deferred b)).

(** ** The serving hooks (installGates) *)
Definition openGates : M unit := step (set_held []).

Definition databaseOf (tableKey : string) : string :=
  let fix go s := match s with
                  | EmptyString => EmptyString
                  | String c s => if bool_decide (c = "."%char) then EmptyString else String c (go s)
                  end in go tableKey.

(** BeforeInstall; nil accepts. *)
Definition before (owner : N) (db : string) : M bool :=
  if cfg_hooks cfg
  then ok ← ask (o_before orc); step (log (EvBefore owner db ok));; mret ok
  else mret true.

Definition check (owner : N) (db : string) : M unit :=
  held ← gets st_held;
  if bool_decide (db ∈ held) then mret () else
  ok ← before owner db;
  if (ok : bool) then step (λ s, set_held (st_held s ++ [db])%list s) else fail EHook.

(** done: AfterInstall for every database held. *)
Definition gates_done (owner : N) : M unit := step (λ s,
  let s' := set_held [] s in
  if cfg_hooks cfg then foldl (λ s db, log (EvAfter owner db) s) s' (st_held s) else s').

(** A statement that changes copy [c]. *)
Definition alterCopy (c : Copy) (q : stmt) : M unit :=
  step (log (EvChange (c_Owner c) (databaseOf (c_TableKey c)) q));; exec q.

(** ** Scratch tables *)
Definition NodePrefix (nodeID : string) : string := nodeID +:+ "_".
Definition ScratchPrefix (nodeID bootNonce : string) : string := nodeID +:+ "_" +:+ bootNonce +:+ "_".
Definition ScratchName (nodeID bootNonce : string) (n : N) : string := ScratchPrefix nodeID bootNonce +:+ pretty n.

Definition newScratch : M string :=
  b ← the_book;
  let n := u64 (b_scratchN b + 1) in
  set_scratchN n;;
  let name := ScratchName (cfg_NodeID cfg) (cfg_BootNonce cfg) n in
  exec (CreateScratch name);; mret name.

Definition dropScratch (scratch : string) : M unit :=
  _ ← attempt (exec (DropTable StageDB scratch)); mret ().

Fixpoint drop_stale (kept names : list string) : M unit :=
  match names with
  | [] => mret ()
  | name :: names =>
      (if has_prefix (NodePrefix (cfg_NodeID cfg)) name && negb (bool_decide (name ∈ kept))
       then exec (DropTable StageDB name) else mret ());;
      drop_stale kept names
  end.

Definition DropStaleScratch : M unit :=
  names ← query EList (ch_stage_tables (NodePrefix (cfg_NodeID cfg)));
  kept ← gets (λ s, foreignScratches (st_i s));
  drop_stale kept names.

(** ** Listings *)
Definition nonEmptyParts (d : database) (table : string) : M (list Part) :=
  parts ← query EList (ch_active d table);
  mret (filter (λ p, p_Rows p ≠ 0%N) parts).

Definition listCopy (c : Copy) : M (list Part) := nonEmptyParts ReplicaDB (c_Table c).

Definition partNames (parts : list Part) : list string := sort_strings (p_Name <$> parts).

(** ** The data of a pass *)
Record keptPart := mkKept {
  k_scratch : string; k_name : string; k_partition : string; k_rowHash : string;
  k_physHash : string; k_rows : N; k_source : string }.

Record partitionJob := mkJob {
  job_id : string; job_root : string; job_local : list string; job_repair : bool;
  job_needs : list PartManifestEntry; job_kept : list keptPart; job_scratches : list string }.

Record tablePass := mkPass {
  tp_copy : Copy; tp_journal : TableJournal; tp_local : list Part; tp_jobs : list partitionJob;
  tp_manifestPartitions : list string }.

Definition scratches (p : tablePass) : list string := concat (job_scratches <$> tp_jobs p).

(** ** Journal writes *)

(** The stored journal of [c], a fresh one in place of another incarnation's. *)
Definition with_table (owner : N) (c : Copy) (f : TableJournal → TableJournal) (j : Journal) : Journal :=
  with_owner owner (with_tables (λ ts,
    <[c_TableKey c := f (match ts !! c_TableKey c with
                         | Some tj => if same_copy c tj then tj else newTableJournal (c_IncarnationSeq c) (c_Table c)
                         | None => newTableJournal (c_IncarnationSeq c) (c_Table c)
                         end)]> ts)) j.

(** Marks every partition of [l]; the number of new marks. *)
Fixpoint mark_all (l : list string) (tj : TableJournal) : nat * TableJournal :=
  match l with
  | [] => (0, tj)
  | p :: l => let '(b, tj) := markDiverged p tj in
              let '(n, tj) := mark_all l tj in (if (b : bool) then S n else n, tj)
  end.

Fixpoint repeat_M (n : nat) (m : M unit) : M unit :=
  match n with 0 => mret () | S n => m;; repeat_M n m end.

Definition persistDiverged (owner : N) (c : Copy) (l : list string) : M unit :=
  if bool_decide (length l = 0) then mret () else
  i ← gets st_i;
  let added := (mark_all l (tableJournal i owner c)).1 in
  r ← attempt (update (λ j, if bool_decide (added = 0) then None
                            else Some (with_table owner c (λ tj, (mark_all l tj).2) j)));
  repeat_M added (countDiverged owner);;
  lift r.

Definition quarantine (owner : N) (c : Copy) (scratch : string) : M ierr :=
  r ← attempt (update (λ j, Some (with_table owner c (with_foreign true scratch) j)));
  mret (match r with Ok _ => EForeignPart | Err e => EJoin [EForeignPart; e] end).

(** ** Reconciling a copy with its journal (audit.go) *)
Record reconciliation := mkRec {
  rec_local : list Part; rec_candidates : list JournalPart; rec_diverged : list string }.

(** The journaled parts against the listing: the pairs of row hash and
    hash_of_all_files that are present, the partitions newly marked, and the
    working journal. *)
Fixpoint check_journaled (local : list Part) (parts : list JournalPart) (tj : TableJournal)
    : gset (string * string) * list string * TableJournal :=
  match parts with
  | [] => (∅, [], tj)
  | jp :: parts =>
      match list_find (λ p, p_Name p = jp_Name jp) local with
      | Some (_, lp) =>
          if bool_decide (p_PhysHash lp = jp_HashOfAllFiles jp) && bool_decide (p_Rows lp = jp_Rows jp)
          then let '(present, ds, tj) := check_journaled local parts tj in
               ({[(jp_PartRowLtHash jp, jp_HashOfAllFiles jp)]} ∪ present, ds, tj)
          else let '(b, tj) := markDiverged (jp_PartitionID jp) tj in
               let '(present, ds, tj) := check_journaled local parts tj in
               (present, if (b : bool) then jp_PartitionID jp :: ds else ds, tj)
      | None =>
          let '(b, tj) := markDiverged (jp_PartitionID jp) tj in
          let '(present, ds, tj) := check_journaled local parts tj in
          (present, if (b : bool) then jp_PartitionID jp :: ds else ds, tj)
      end
  end.

(** rowHash[name] of the scans: the last one wins, "" when there is none. *)
Definition scan_hash (scans : list Scan) (name : string) : string :=
  default "" (foldl (λ m s, <[sc_PartName s := sc_RowLtHash s]> m) (∅ : gmap string string) scans !! name).

(** The unjournaled parts, by name: twins to drop, and candidates. *)
Fixpoint split_twins (sch : TableSchema) (scans : list Scan) (present : gset (string * string)) (l : list Part)
    : list Part * list JournalPart :=
  match l with
  | [] => ([], [])
  | p :: l =>
      let h := scan_hash scans (p_Name p) in
      if bool_decide ((h, p_PhysHash p) ∈ present)
      then let '(drop, cands) := split_twins sch scans present l in (p :: drop, cands)
      else let '(drop, cands) := split_twins sch scans ({[(h, p_PhysHash p)]} ∪ present) l in
           (drop, mkJP (p_Name p) (LogicalPartitionID sch p) h (p_PhysHash p) (p_Rows p) :: cands)
  end.

Fixpoint drop_twins (owner : N) (c : Copy) (l : list Part) : M unit :=
  match l with
  | [] => mret ()
  | p :: l =>
      check owner (databaseOf (c_TableKey c));;
      alterCopy c (DropPart ReplicaDB (c_Table c) (p_Name p));;
      countTwin;; drop_twins owner c l
  end.

(** The reconciliation and the working journal with its new marks. *)
Definition reconcileCopy (owner : N) (c : Copy) (tj : TableJournal) (local : list Part)
    : M (reconciliation * TableJournal) :=
  let '(present, ds, tj) := check_journaled local (tj_Parts tj) tj in
  let unjournaled := filter (λ p, p_Name p ∉ jp_Name <$> tj_Parts tj) local in
  if bool_decide (length unjournaled = 0) then mret (mkRec local [] ds, tj) else
  scans ← query EScan (ch_scan ReplicaDB (c_Table c) (c_Schema c) (partNames unjournaled));
  let sorted := merge_sort (λ a b, String.le (p_Name a) (p_Name b)) unjournaled in
  let '(drop, cands) := split_twins (c_Schema c) scans present sorted in
  drop_twins owner c drop;;
  mret (mkRec (filter (λ p, p_Name p ∉ p_Name <$> drop) local) cands ds, tj).

(** ** Planning *)
Definition zeroRoot : string := sumOf [].

(** One partition's plan: its job, whether it was marked now, and the journal. *)
Definition plan_one (mparts : gmap string (list PartManifestEntry)) (roots : gmap string string)
    (id : string) (tj : TableJournal) : result ierr (list partitionJob * list string * TableJournal) :=
  let entries := default [] (mparts !! id) in
  let root := default zeroRoot (roots !! id) in
  let local := partitionHashes tj id in
  let* plan := rwrap EGate (PlanPartition (entryHashes entries) root local) in
  if isDiverged tj id
  then Ok ([mkJob id root [] true entries [] []], [], tj)
  else if Diverged plan
  then Ok ([mkJob id root [] true entries [] []], [id], (markDiverged id tj).2)
  else if bool_decide (length (Need plan) = 0) then Ok ([], [], tj)
  else Ok ([mkJob id root local false (pickEntries entries (Need plan)) [] []], [], tj).

(** The loop keeps what it marked when a later partition is refused. *)
Fixpoint plan_loop (mparts : gmap string (list PartManifestEntry)) (roots : gmap string string)
    (ids : list string) (tj : TableJournal)
    : list partitionJob * list string * TableJournal * option ierr :=
  match ids with
  | [] => ([], [], tj, None)
  | id :: ids =>
      match plan_one mparts roots id tj with
      | Err e => ([], [], tj, Some e)
      | Ok (jobs, marks, tj) =>
          let '(jobs', marks', tj, err) := plan_loop mparts roots ids tj in
          (jobs ++ jobs', marks ++ marks', tj, err)%list
      end
  end.

Definition plan_ids (c : Copy) (mparts : gmap string (list PartManifestEntry)) (tj : TableJournal)
    (local : list Part) : list string :=
  sorted_set (elements (dom mparts) ++ partitions tj ++ tj_Diverged tj ++
              (LogicalPartitionID (c_Schema c) <$> local))%list.

Definition plan (c : Copy) (local : list Part) (mparts : gmap string (list PartManifestEntry))
    (roots : gmap string string) (tj : TableJournal) : tablePass * list string * option ierr :=
  let '(jobs, marks, tj', err) := plan_loop mparts roots (plan_ids c mparts tj local) tj in
  (mkPass c tj' local jobs (sort_strings (elements (dom mparts))), marks, err).

(** Adoption: a candidate the manifest still needs joins the working journal,
    any other marks its partition. *)
Fixpoint adopt (mparts : gmap string (list PartManifestEntry)) (cands : list JournalPart) (tj : TableJournal)
    : list string * TableJournal :=
  match cands with
  | [] => ([], tj)
  | cand :: cands =>
      if isDiverged tj (jp_PartitionID cand) then adopt mparts cands tj else
      let need := multisetMinus (entryHashes (default [] (mparts !! jp_PartitionID cand)))
                    (partitionHashes tj (jp_PartitionID cand)) in
      if bool_decide (jp_PartRowLtHash cand ∈ need) then adopt mparts cands (addParts [cand] tj) else
      let '(b, tj) := markDiverged (jp_PartitionID cand) tj in
      let '(marks, tj) := adopt mparts cands tj in
      (if (b : bool) then jp_PartitionID cand :: marks else marks, tj)
  end.

(** ** Fetching *)
Definition restoreBeforeOwnerPull (l : list Source) : list Source :=
  match list_find (λ s, src_Name s = SourceOwnerPull) l, list_find (λ s, src_Name s = SourceRestore) l with
  | Some (at_, _), Some (from, r) =>
      if bool_decide (from < at_) then l else
      (take at_ l ++ r :: take (from - at_) (drop at_ l) ++ drop (S from) l)%list
  | _, _ => l
  end.

Definition sourcesFor (owner : N) (c : Copy) : M (list Source) :=
  i ← gets st_i;
  let l := SourcesOf owner in
  let bootstraps := match j_Owners (i_journal i) !! owner with
                    | None => true
                    | Some oj => bool_decide (oj_SnapshotID oj = "")
                    end in
  if bootstraps && negb (bool_decide (auditKey c ∈ b_probed (i_book i)))
  then set_probed ({[auditKey c]} ∪ b_probed (i_book i));; mret (restoreBeforeOwnerPull l)
  else mret l.

Definition fetchWithDeadline (src : Source) (need : SourceNeed) (sch : TableSchema) (scratch : string) : M Result :=
  res ← (fun s => let '(res, w) := src_Fetch src need sch scratch (st_ch s) in (Ok res, set_ch w s));
  late ← ask (o_deadline orc);
  mret (if (late : bool) then mkResult SrcRefused true else res).

Definition outcome_label (o : Outcome) : string :=
  match o with
  | OutcomeKept => "kept" | OutcomeRenameRace => "rename_race" | OutcomeSplit => "split"
  | OutcomeDoubled => "doubled" | OutcomeForeign => "foreign"
  end.

Definition sourceOutcome (res : Result) : string :=
  match res_Outcome res with SrcMissed => "missed" | SrcUnreachable => "unreachable" | _ => "refused" end.

Fixpoint drop_parts (scratch : string) (names : list string) : M unit :=
  match names with
  | [] => mret ()
  | name :: names => exec (DropPart StageDB scratch name);; drop_parts scratch names
  end.

Definition kept_of (scratch source : string) (sch : TableSchema) (scans : list Scan) (p : Part) : keptPart :=
  let s := default (mkScan "" "" 0)
             (foldl (λ m s, <[sc_PartName s := s]> m) (∅ : gmap string Scan) scans !! p_Name p) in
  mkKept scratch (p_Name p) (LogicalPartitionID sch p) (sc_RowLtHash s) (p_PhysHash p) (sc_RowCount s) source.

Definition classify (source : string) (c : Copy) (scratch : string) (need : SourceNeed) (remaining : list string)
    : M (Outcome * list keptPart) :=
  scans ← query EScan (ch_scan_all StageDB scratch (c_Schema c));
  let parts := (λ s, mkScratchPart (sc_PartName s) (sc_RowLtHash s) (sc_RowCount s)) <$> scans in
  let single := if bool_decide (source = SourceRestore) then None
                else Some (mkExpected (nd_PartRowLtHash need) (nd_RowCount need)) in
  cls ← lift (rwrap EGate (Classify (mkFetch remaining single) parts));
  if bool_decide (cl_Outcome cls ≠ OutcomeKept) then mret (cl_Outcome cls, []) else
  drop_parts scratch (cl_Drop cls);;
  listed ← nonEmptyParts StageDB scratch;
  if bool_decide (partNames listed ≠ sort_strings (cl_Keep cls)) then fail EScratchParts else
  mret (OutcomeKept, kept_of scratch source (c_Schema c) scans <$> listed).

(** How one attempt at one source ended. *)
Inductive tried :=
| TKept (scratch : string) (kept : list keptPart)
| TForeign (scratch : string)
| TNext (result : string * string)
| TRetry (result : string * string).

Definition try_source (owner : N) (c : Copy) (dkey : N * string * string * string) (sn : SourceNeed)
    (remaining : list string) (src : Source) (attempt_ : nat) : M tried :=
  scratch ← newScratch;
  res ← fetchWithDeadline src sn (c_Schema c) scratch;
  ended ← ask (o_ctx orc);
  if (ended : bool) then dropScratch scratch;; fail ECtx else
  if bool_decide (res_Outcome res ≠ SrcFetched) || res_Err res
  then count (sourceOutcome res);; dropScratch scratch;; mret (TNext (src_Name src, sourceOutcome res)) else
  r ← attempt (classify (src_Name src) c scratch sn remaining);
  match r with
  | Err e => dropScratch scratch;; fail e
  | Ok (OutcomeForeign, _) => count "foreign";; mret (TForeign scratch)
  | Ok (OutcomeKept, k :: kept) => count "kept";; clearDeferral dkey;; mret (TKept scratch (k :: kept))
  | Ok (OutcomeKept, []) => dropScratch scratch;; count "missed";; mret (TNext (src_Name src, "missed"))
  | Ok (o, _) =>
      dropScratch scratch;; count (outcome_label o);;
      let d := (src_Name src, outcome_label o) in
      mret (if (bool_decide (o = OutcomeRenameRace) || bool_decide (o = OutcomeDoubled)) &&
               bool_decide (attempt_ = 0)
            then TRetry d else TNext d)
  end.

Fixpoint try_sources (owner : N) (c : Copy) (dkey : N * string * string * string) (sn : SourceNeed)
    (remaining : list string) (srcs : list Source) (results : list (string * string))
    : M (list (string * string) + tried) :=
  match srcs with
  | [] => mret (inl results)
  | src :: srcs =>
      t ← try_source owner c dkey sn remaining src 0;
      match t with
      | TNext d => try_sources owner c dkey sn remaining srcs (results ++ [d])%list
      | TRetry d =>
          t' ← try_source owner c dkey sn remaining src 1;
          match t' with
          | TNext d' | TRetry d' => try_sources owner c dkey sn remaining srcs (results ++ [d; d'])%list
          | _ => mret (inr t')
          end
      | _ => mret (inr t)
      end
  end.

(** The kept parts and their scratch, or the scratch that held a foreign part. *)
Definition fetchPart (owner : N) (c : Copy) (need : PartManifestEntry) (remaining : list string)
    : M (string * list keptPart + string) :=
  let dkey := deferKey owner (c_TableKey c) need in
  b ← the_book; now ← ask (o_now orc);
  if match b_deferred b !! dkey with Some d => bool_decide (now < df_until d)%Z | None => false end
  then fail ENoSource else
  let sn := mkNeed (c_TableKey c) (CHTableName (c_TableKey c)) (e_PartitionID need) (e_PartName need)
              (e_PartPhysHash need) (e_PartRowLtHash need) (e_RowCount need) in
  srcs ← sourcesFor owner c;
  r ← try_sources owner c dkey sn remaining srcs [];
  match r with
  | inr (TKept scratch kept) => mret (inl (scratch, kept))
  | inr (TForeign scratch) => mret (inr scratch)
  | inr _ => fail ENoSource
  | inl results => _ ← deferAgain dkey results; fail ENoSource
  end.

Definition job_with (job : partitionJob) (scratch : string) (kept : list keptPart) : partitionJob :=
  mkJob (job_id job) (job_root job) (job_local job) (job_repair job) (job_needs job)
    (job_kept job ++ kept)%list (job_scratches job ++ [scratch])%list.

(** One job's fetches: the job with its scratches, the foreign scratch, the error. *)
Fixpoint fetchNeeds (owner : N) (c : Copy) (needs : list PartManifestEntry) (remaining : list string)
    (job : partitionJob) : M (partitionJob * option string * option ierr) :=
  match needs with
  | [] => mret (job, None, None)
  | need :: needs =>
      if bool_decide (e_PartRowLtHash need ∉ remaining) then fetchNeeds owner c needs remaining job else
      r ← attempt (fetchPart owner c need remaining);
      match r with
      | Err e => mret (job, None, Some e)
      | Ok (inr scratch) =>
          e ← quarantine owner c scratch; mret (job_with job scratch [], Some scratch, Some e)
      | Ok (inl (scratch, kept)) =>
          fetchNeeds owner c needs (foldl removeOne remaining (k_rowHash <$> kept)) (job_with job scratch kept)
      end
  end.

Fixpoint fetchJobs (owner : N) (c : Copy) (jobs : list partitionJob)
    : M (list partitionJob * option string * option ierr) :=
  match jobs with
  | [] => mret ([], None, None)
  | job :: jobs =>
      '(job, foreign, err) ← fetchNeeds owner c (job_needs job) (entryHashes (job_needs job)) job;
      match err with
      | Some e => mret (job :: jobs, foreign, Some e)
      | None => '(jobs, foreign, err) ← fetchJobs owner c jobs; mret (job :: jobs, foreign, err)
      end
  end.

(** The plan of one copy, before its fetches. *)
Definition prepare_plan (owner : N) (c : Copy) (tm : option TableManifest) : M tablePass :=
  if match tm with
     | Some tm => bool_decide (tm_SchemaHash tm ≠ TableSchemaHash (cfg_NetworkID cfg) (c_Schema c))
     | None => false
     end then fail ESchemaHash else
  i ← gets st_i;
  let tj := tableJournal i owner c in
  local ← listCopy c;
  '(rec, tj) ← reconcileCopy owner c tj local;
  let mparts := manifest_parts tm in
  let '(marks, tj) := adopt mparts (rec_candidates rec) tj in
  let '(pass, planMarks, err) := plan c (rec_local rec) mparts (manifest_roots tm) tj in
  r ← attempt (persistDiverged owner c (rec_diverged rec ++ marks ++ planMarks)%list);
  match r, err with
  | Err e, Some e' => fail (EJoin [e'; e])
  | Err e, None => fail (EJoin [e])
  | Ok _, Some e => fail e
  | Ok _, None => mret pass
  end.

Definition prepareTable (owner : N) (c : Copy) (tm : option TableManifest)
    : M (option tablePass * option string * option ierr) :=
  r ← attempt (prepare_plan owner c tm);
  match r with
  | Err e => mret (None, None, Some e)
  | Ok pass =>
      '(jobs, foreign, err) ← fetchJobs owner c (tp_jobs pass);
      mret (Some (mkPass (tp_copy pass) (tp_journal pass) (tp_local pass) jobs (tp_manifestPartitions pass)),
            foreign, err)
  end.

(** ** Verifying a pass *)
Definition sameParts (listed : list Part) (kept : list keptPart) : bool :=
  bool_decide (length listed = length kept) &&
  forallb (λ p, existsb (λ k, bool_decide (k_name k = p_Name p) && bool_decide (k_physHash k = p_PhysHash p) &&
                              bool_decide (k_rows k = p_Rows p)) kept) listed.

(** The row hashes and the partitions of what scratch [s] holds now. *)
Definition scratchContent (c : Copy) (s : string) (kept : list keptPart) : M (list string * list string) :=
  listed ← nonEmptyParts StageDB s;
  let mine := filter (λ k, k_scratch k = s) kept in
  let placed := LogicalPartitionID (c_Schema c) <$> listed in
  if sameParts listed mine then mret (k_rowHash <$> mine, placed) else
  scans ← query EScan (ch_scan_all StageDB s (c_Schema c));
  mret (sc_RowLtHash <$> scans, placed).

Fixpoint verify_scratches (c : Copy) (job : partitionJob) (l : list string) : M (list string * list string) :=
  match l with
  | [] => mret ([], [])
  | s :: l =>
      '(hashes, placed) ← scratchContent c s (job_kept job);
      if bool_decide (Exists (λ id, id ≠ job_id job) placed) then fail ESet else
      '(hashes', placed') ← verify_scratches c job l;
      mret (hashes ++ hashes', placed ++ placed')%list
  end.

(** The partitions the jobs place parts into. *)
Fixpoint verify_jobs (c : Copy) (jobs : list partitionJob) : M (list string) :=
  match jobs with
  | [] => mret []
  | job :: jobs =>
      '(held, placed) ← verify_scratches c job (job_scratches job);
      match Closure (job_root job) (job_local job) held with
      | Err _ => fail EClose
      | Ok _ => placed' ← verify_jobs c jobs; mret (placed ++ placed')%list
      end
  end.

Definition repaired (p : tablePass) : list string := job_id <$> filter (λ j, job_repair j = true) (tp_jobs p).

Definition verify (p : tablePass) : M unit :=
  let c := tp_copy p in
  placed ← verify_jobs c (tp_jobs p);
  let kept := filter (λ id, id ∉ repaired p) (LogicalPartitionID (c_Schema c) <$> tp_local p) in
  match PartitionSet (tp_manifestPartitions p) (sorted_set (kept ++ placed)%list) with
  | Ok _ => mret ()
  | Err _ => fail ESet
  end.

(** ** Changing the copies *)
Fixpoint attach_all (c : Copy) (quoted : string) (l : list string) : M unit :=
  match l with
  | [] => mret ()
  | s :: l =>
      alterCopy c (AttachFrom (c_Table c) quoted s);;
      ok ← ask (o_attach orc);
      if (ok : bool) then attach_all c quoted l else fail EAttach
  end.

Definition commit_job (p : tablePass) (job : partitionJob) : M unit :=
  let c := tp_copy p in
  quoted ← opt EQuote (QuotePartition (c_Schema c) (job_id job));
  (if job_repair job && negb (bool_decide (length (PartsInLogicalPartition (tp_local p) (c_Schema c) (job_id job)) = 0))
   then alterCopy c (DropPartition ReplicaDB (c_Table c) quoted) else mret ());;
  attach_all c quoted (job_scratches job).

Fixpoint commit_jobs (p : tablePass) (jobs : list partitionJob) : M unit :=
  match jobs with
  | [] => mret ()
  | job :: jobs => commit_job p job;; commit_jobs p jobs
  end.

Definition commit (owner : N) (p : tablePass) : M unit :=
  if bool_decide (length (tp_jobs p) = 0) then mret () else
  check owner (databaseOf (c_TableKey (tp_copy p)));;
  commit_jobs p (tp_jobs p).

Definition unjournaled_parts (p : tablePass) : nat :=
  if bool_decide (length (tp_jobs p) = 0) then 0
  else Nat.max (sum_list (length ∘ job_kept <$> tp_jobs p)) 1.

Definition markUnjournaled (owner : N) (passes : list tablePass) : M unit := modify (λ i,
  set_pending (foldl (λ m p, let k := pendingKey owner (c_TableKey (tp_copy p)) in
                 if bool_decide (unjournaled_parts p = 0) then m
                 else <[k := get_or 0 m k + unjournaled_parts p]> m) (i_pending i) passes) i).

Definition setCommitting (owner : N) (passes : list tablePass) (on : bool) : M unit :=
  let keys := (λ p, pendingKey owner (c_TableKey (tp_copy p))) <$>
                filter (λ p, length (tp_jobs p) ≠ 0) passes in
  modify (λ i, set_committing (if on then i_committing i ∪ list_to_set keys
                               else i_committing i ∖ list_to_set keys) i).

(** Commits in order; a failure records every copy committed so far. *)
Fixpoint commit_all (owner : N) (done passes : list tablePass) : M unit :=
  match passes with
  | [] => mret ()
  | p :: passes =>
      r ← attempt (commit owner p);
      match r with
      | Err e => markUnjournaled owner (done ++ [p])%list;; fail e
      | Ok _ => commit_all owner (done ++ [p])%list passes
      end
  end.

(** ** Journaling a pass *)
Fixpoint match_parts (id : string) (unmatched : list keptPart) (fresh : list Part) : option (list JournalPart) :=
  match fresh with
  | [] => Some []
  | p :: fresh =>
      match list_find (λ k, k_physHash k = p_PhysHash p ∧ k_rows k = p_Rows p) unmatched with
      | None => None
      | Some (n, k) =>
          (λ l, mkJP (p_Name p) id (k_rowHash k) (p_PhysHash p) (p_Rows p) :: l) <$>
            match_parts id (delete n unmatched) fresh
      end
  end.

Definition matchAttached (job : partitionJob) (fresh : list Part) : option (list JournalPart) :=
  if bool_decide (length fresh ≠ length (job_kept job)) then None
  else match_parts (job_id job) (job_kept job) fresh.

(** One copy's jobs against its listing after the commit: the journal with
    what was attached, the partitions that do not match. *)
Fixpoint journal_jobs (c : Copy) (before : list string) (after : list Part) (jobs : list partitionJob)
    (tj : TableJournal) : TableJournal * list string :=
  match jobs with
  | [] => (tj, [])
  | job :: jobs =>
      let fresh := filter (λ lp, job_repair job = true ∨ p_Name lp ∉ before)
                     (PartsInLogicalPartition after (c_Schema c) (job_id job)) in
      match matchAttached job fresh with
      | None => let '(tj, bad) := journal_jobs c before after jobs tj in (tj, job_id job :: bad)
      | Some parts =>
          journal_jobs c before after jobs
            (if job_repair job then setPartition (job_id job) parts tj else addParts parts tj)
      end
  end.

(** The copies' new journals, the errors, and the partitions to mark. *)
Fixpoint journal_passes (owner : N) (passes : list tablePass)
    : M (list tablePass * list ierr * list (Copy * string)) :=
  match passes with
  | [] => mret ([], [], [])
  | p :: passes =>
      if bool_decide (length (tp_jobs p) = 0)
      then '(ps, es, ms) ← journal_passes owner passes; mret (p :: ps, es, ms) else
      r ← attempt (listCopy (tp_copy p));
      match r with
      | Err e => '(ps, es, ms) ← journal_passes owner passes; mret (p :: ps, e :: es, ms)
      | Ok after =>
          let '(tj, bad) := journal_jobs (tp_copy p) (p_Name <$> tp_local p) after (tp_jobs p) (tp_journal p) in
          repeat_M (length bad) (countDiverged owner);;
          '(ps, es, ms) ← journal_passes owner passes;
          mret (mkPass (tp_copy p) tj (tp_local p) (tp_jobs p) (tp_manifestPartitions p) :: ps,
                ((λ _, EMismatch) <$> bad) ++ es, (pair (tp_copy p) <$> bad) ++ ms)%list
      end
  end.

(** markDiverged for every partition of [ms] whose table the journal holds. *)
Definition mark_mismatches (owner : N) (ms : list (Copy * string)) (j : Journal) : Journal :=
  foldl (λ j m, with_owner owner (with_tables (λ ts,
    match ts !! c_TableKey m.1 with
    | Some tj => if bool_decide (tj_IncarnationSeq tj = c_IncarnationSeq m.1)
                 then <[c_TableKey m.1 := (markDiverged m.2 tj).2]> ts else ts
    | None => ts
    end)) j) j ms.

Definition journalOwner (u : Update) (owner : N) (entry : TrackFrontier) (passes : list tablePass) : M unit :=
  '(passes, errs, ms) ← journal_passes owner passes;
  if negb (bool_decide (length errs = 0)) then
    markUnjournaled owner passes;;
    r ← attempt (update (λ j, if bool_decide (length ms = 0) then None else Some (mark_mismatches owner ms j)));
    fail (EJoin (match r with Ok _ => errs | Err e => (errs ++ [e])%list end))
  else
    r ← attempt (update (λ j, Some (with_owner owner (λ oj,
           mkOJ (u_SnapshotID u) entry
             (foldl (λ ts p, <[c_TableKey (tp_copy p) := tp_journal p]> ts) (oj_Tables oj) passes)) j)));
    match r with
    | Err e => markUnjournaled owner passes;; fail e
    | Ok _ =>
        modify (λ i, set_pending (foldl (λ m p, delete (pendingKey owner (c_TableKey (tp_copy p))) m)
                                    (i_pending i) passes) i);;
        countInstalls (k_source <$> concat ((λ p, concat (job_kept <$> tp_jobs p)) <$> passes))
    end.

(** ** A pass over one owner *)
Fixpoint prepareAll (owner : N) (tables : gmap string TableManifest) (copies : list Copy)
    : M (list tablePass * option string * option ierr) :=
  match copies with
  | [] => mret ([], None, None)
  | c :: copies =>
      ended ← ask (o_ctx orc);
      if (ended : bool) then mret ([], None, Some ECtx) else
      '(pass, foreign, err) ← prepareTable owner c (tables !! c_TableKey c);
      match err with
      | Some e => mret (option_list pass, foreign, Some e)
      | None =>
          '(passes, foreign', err) ← prepareAll owner tables copies;
          mret (option_list pass ++ passes, foreign', err)%list
      end
  end.

Fixpoint verifyAll (passes : list tablePass) : M unit :=
  match passes with [] => mret () | p :: passes => verify p;; verifyAll passes end.

Fixpoint dropScratches (keep : option string) (l : list string) : M unit :=
  match l with
  | [] => mret ()
  | s :: l => (if bool_decide (Some s = keep) then mret () else dropScratch s);; dropScratches keep l
  end.

Definition applyOwner (u : Update) (owner : N) (copies : list Copy) (tables : gmap string TableManifest) : M unit :=
  match u_Entries u !! owner with
  | None => fail ENoFrontier
  | Some entry =>
      i ← gets st_i;
      if ownerAhead i owner (u_SnapshotID u) entry then mret () else
      if ownerCurrent i owner (u_SnapshotID u) copies then mret () else
      if bool_decide (Exists (λ key, key ∈ c_TableKey <$> copies) (foreignTables i owner)) then fail EQuarantined else
      openGates;;
      finally (
        '(passes, keep, err) ← prepareAll owner tables copies;
        finally (
          match err with
          | Some e => fail e
          | None =>
              verifyAll passes;;
              setCommitting owner passes true;;
              finally (commit_all owner [] passes;; journalOwner u owner entry passes)
                (setCommitting owner passes false)
          end) (dropScratches keep (concat (scratches <$> passes))))
        (gates_done owner)
  end.

(** ** Audits *)

(** scanCopy: journaled parts whose content changed, over every partition that
    holds journaled parts and is not Diverged. *)
Fixpoint scan_partitions (c : Copy) (want : gmap string string) (ids : list string) (tj : TableJournal)
    : M (list string) :=
  match ids with
  | [] => mret []
  | id :: ids =>
      if isDiverged tj id then scan_partitions c want ids tj else
      '(_, scanned) ← query EScan (PartitionContentScan ReplicaDB (c_Table c) (c_Schema c) id);
      let changed := existsb (λ s, match want !! sn_Name s with
                                   | Some h => negb (bool_decide (h = sn_RowLtHash s))
                                   | None => false end) scanned in
      if changed then ms ← scan_partitions c want ids (markDiverged id tj).2; mret (id :: ms)
      else scan_partitions c want ids tj
  end.

Definition scanCopy (c : Copy) (tj : TableJournal) : M (list string) :=
  scan_partitions c (foldl (λ m jp, <[jp_Name jp := jp_PartRowLtHash jp]> m) ∅ (tj_Parts tj)) (partitions tj) tj.

Definition auditCopy (trigger : string) (c : Copy) : M unit :=
  i ← gets st_i;
  if bool_decide (c_TableKey c ∈ foreignTables i (c_Owner c)) then mret () else
  let tj := tableJournal i (c_Owner c) c in
  local ← listCopy c;
  openGates;;
  finally (
    '(rec, tj) ← reconcileCopy (c_Owner c) c tj local;
    full ← (if bool_decide (trigger = TriggerSelfAudit) then scanCopy c tj else mret []);
    persistDiverged (c_Owner c) c (rec_diverged rec ++ full)%list;;
    modify (λ i, set_pending (if bool_decide (length (rec_candidates rec) = 0)
                              then delete (pendingKey (c_Owner c) (c_TableKey c)) (i_pending i)
                              else <[pendingKey (c_Owner c) (c_TableKey c) := length (rec_candidates rec)]> (i_pending i)) i))
    (gates_done (c_Owner c)).

Definition markAudited (c : Copy) : M unit :=
  modify (λ i, set_audit ({[auditKey c]} ∪ i_audited i) (i_auditDone i) (i_auditTrigger i) i).

Definition audit_one (trigger : string) (c : Copy) : M unit := auditCopy trigger c;; markAudited c.

Definition audit (trigger : string) : M unit :=
  now ← ask (o_now orc);
  b ← the_book;
  if bool_decide (trigger = TriggerSelfAudit) &&
     match b_lastSelfAudit b with Some t => bool_decide (now - t < cfg_SelfAuditInterval cfg `quot` 2)%Z | None => false end
  then mret () else
  (if bool_decide (trigger ≠ TriggerSelfAudit) then modify (set_audit ∅ false trigger) else mret ());;
  countAudit trigger;;
  ready ← gets readyCopies;
  errs ← each (audit_one trigger) ready;
  joined errs;;
  modify (λ i, set_audit (i_audited i) true (i_auditTrigger i) i);;
  (if bool_decide (trigger = TriggerSelfAudit) then set_selfAudit now else mret ()).

Definition Audit (trigger : string) : M unit :=
  if bool_decide (trigger ∉ triggers) then fail ETrigger else audit trigger.

Definition auditUncovered (ready : list Copy) : M unit :=
  i ← gets st_i;
  errs ← each (audit_one (i_auditTrigger i)) (filter (λ c, auditKey c ∉ i_audited i) ready);
  joined errs.

(** ** Apply *)

(** [float64(n)] of a uint64, and the comparison with ratio * budget. *)
Definition f64 (n : N) : spec_float := binary_normalize 53 1024 (Z.of_N n) 0 false.

Definition checkDiskBudget : M unit :=
  used ← query EDisk ch_disk;
  let paused := SFleb (SFmul 53 1024 (cfg_StopInstallsRatio cfg) (f64 (cfg_DiskBudgetBytes cfg))) (f64 used) in
  set_disk used paused;;
  if paused then fail EPaused else mret ().

Definition manifest_tables (m : SafeSnapshotManifest) : gmap string TableManifest :=
  foldl (λ ts t, <[tm_TableID t := t]> ts) ∅ (m_Tables m).

Definition Apply (u : Update) : M unit :=
  if bool_decide (u_SnapshotID u = "") then fail EUpdate else
  i ← gets st_i;
  (if i_auditDone i then mret () else
     r ← attempt (audit (i_auditTrigger i));
     match r with Ok _ => mret () | Err e => fail (EAudit e) end);;
  ready ← gets readyCopies;
  r ← attempt (auditUncovered ready);
  match r with
  | Err e => fail (EAudit e)
  | Ok _ =>
      checkDiskBudget;;
      i ← gets st_i;
      errs ← each (λ owner, applyOwner u owner (filter (λ c, c_Owner c = owner) ready) (manifest_tables (u_Manifest u)))
               (owners i ready);
      joined errs
  end.

(** ** What the installer reports *)
Record TableState := mkTableState {
  ts_Owner : N; ts_TableKey : string; ts_IncarnationSeq : N; ts_Copy : string; ts_SchemaHash : string;
  ts_Entry : TrackFrontier; ts_SnapshotID : string; ts_Diverged : bool; ts_Foreign : bool; ts_Installing : bool }.

Definition table_state (i : Installer) (owner : N) (c : Copy) : TableState :=
  let oj := j_Owners (i_journal i) !! owner in
  let tj := stored i owner (c_TableKey c) in
  let matches := match tj with Some tj => same_copy c tj | None => false end in
  mkTableState owner (c_TableKey c) (c_IncarnationSeq c) (c_Table c)
    (TableSchemaHash (cfg_NetworkID cfg) (c_Schema c))
    (if matches then from_option oj_Entry zero_frontier oj else zero_frontier)
    (if matches then from_option oj_SnapshotID "" oj else "")
    ((matches && match tj with Some tj => negb (bool_decide (length (tj_Diverged tj) = 0)) | None => false end) ||
     negb (bool_decide (pending_of i owner (c_TableKey c) = 0)) || negb (bool_decide (auditKey c ∈ i_audited i)))
    (from_option tj_Foreign false tj)
    (bool_decide (pendingKey owner (c_TableKey c) ∈ i_committing i)).

Definition Tables (s : St) (owner : N) : list TableState :=
  table_state (st_i s) owner <$> filter (λ c, c_Owner c = owner) (readyCopies s).

Definition Entry (s : St) (owner : N) : option OwnerJournal := j_Owners (i_journal (st_i s)) !! owner.

(** The copy has a partition awaiting a rebuild, a part awaiting adoption or
    an audit to wait for. *)
Definition needs_work (i : Installer) (c : Copy) : bool :=
  negb (bool_decide (auditKey c ∈ i_audited i)) ||
  negb (bool_decide (pending_of i (c_Owner c) (c_TableKey c) = 0)) ||
  match stored i (c_Owner c) (c_TableKey c) with
  | Some tj => same_copy c tj && negb (bool_decide (length (tj_Diverged tj) = 0))
  | None => false
  end.

Definition NeedsPass (s : St) : bool :=
  let i := st_i s in
  negb (i_auditDone i) ||
  existsb (λ c, negb (existsb (λ c', bool_decide (c_Owner c' = c_Owner c) &&
                   match stored i (c_Owner c') (c_TableKey c') with Some tj => tj_Foreign tj | None => false end)
                   (readyCopies s)) && needs_work i c) (readyCopies s).

(** Stats.AuditClean *)
Definition AuditClean (s : St) : bool :=
  let i := st_i s in
  i_auditDone i &&
  forallb (λ c, bool_decide (pending_of i (c_Owner c) (c_TableKey c) = 0) && bool_decide (auditKey c ∈ i_audited i) &&
    match stored i (c_Owner c) (c_TableKey c) with
    | Some tj => negb (same_copy c tj && negb (tj_Foreign tj) && negb (bool_decide (length (tj_Diverged tj) = 0)))
    | None => true
    end) (readyCopies s).

(** ** Start *)
Definition newBook : Book := mkBook ∅ ∅ ∅ ∅ ∅ 0 None false 0 ∅ 0.

(** New over the journal file; its configuration checks are not modelled. *)
Definition New (w : chs) (f : file (option Journal)) (copies : list Copy) (tick : nat) (trace : list event)
    : option St :=
  _ ← SumPartRowLtHashes [];
  j ← readJournal (f_cur f);
  let j := default (newJournal (cfg_NodeID cfg)) j in
  if bool_decide (j_NodeID j ≠ cfg_NodeID cfg) then None else
  Some (mkSt w f (mkInstaller j ∅ ∅ ∅ false TriggerStartup newBook) copies [] tick trace).

End installer.

(** ClearForeign: offline, on the journal file. *)
Definition clear_table (tj : TableJournal) : TableJournal :=
  if tj_Foreign tj then with_foreign false "" (mark_all (partitions tj) tj).2 else tj.

Definition clear_journal (tableKey : string) (j : Journal) : Journal :=
  mkJournal (j_Version j) (j_NodeID j) (with_tables (alter clear_table tableKey) <$> j_Owners j).

Definition cleared (tableKey : string) (j : Journal) : bool :=
  existsb (λ x, match oj_Tables x.2 !! tableKey with Some tj => tj_Foreign tj | None => false end)
    (map_to_list (j_Owners j)).

Definition ClearForeign (locked : bool) (w : write_env) (tableKey : string) (f : file (option Journal))
    : bool * file (option Journal) :=
  if locked then (false, f) else
  match readJournal (f_cur f) with
  | Some (Some j) => if cleared tableKey j then writeJournal w f (clear_journal tableKey j) else (false, f)
  | _ => (false, f)
  end.

(** ** Runs of computations *)
Section runs.
Context `{ClickHouse}.

Lemma run_inv {A B} (m : M A) (f : A → M B) s r s' :
  (m ≫= f) s = (r, s') →
  (∃ a s1, m s = (Ok a, s1) ∧ f a s1 = (r, s')) ∨ (∃ e, m s = (Err e, s') ∧ r = Err e).
Proof. unfold mbind, M_bind. destruct (m s) as [[a|e] s1]; intros Hb; [left|right]; simplify_eq; eauto. Qed.

Lemma run_ok {A B} (m : M A) (f : A → M B) s b s' :
  (m ≫= f) s = (Ok b, s') → ∃ a s1, m s = (Ok a, s1) ∧ f a s1 = (Ok b, s').
Proof. intros [?|(e & _ & [=])]%run_inv; done. Qed.

Lemma try_inv {A} (m : M A) s r s' : attempt m s = (r, s') → ∃ x, m s = (x, s') ∧ r = Ok x.
Proof. unfold attempt. destruct (m s) as [x s1]. intros [= <- <-]. eauto. Qed.

Lemma defer_inv {A} (m : M A) h s r s' : finally m h s = (r, s') → ∃ s1 x, m s = (r, s1) ∧ h s1 = (x, s').
Proof. unfold finally. destruct (m s) as [y s1], (h s1) as [x s2] eqn:Hh. intros [= <- <-]. eauto. Qed.
End runs.

End Installer.
