(* ===== verification/InstallBracket.v ===== *)
(** * Copies change only between BeforeInstall and AfterInstall

    The serving side learns of a change of a database's copies from the hooks:
    BeforeInstall must have accepted before the first change, and AfterInstall
    follows however the pass ends. [opened] replays a trace; [Silent]
    computations neither call a hook nor change a copy. *)
From S2P Require Import Prelude LtHash Types Gate Registry ClickHouse InstallJournal Installer.
Import InstallJournal Installer Gate.Gate.

(** ** Traces *)
Definition opens (l : list (N * string)) (e : event) : list (N * string) :=
  match e with
  | EvBefore o db true => l ++ [(o, db)]
  | EvAfter o db => filter (λ x, x ≠ (o, db)) l
  | _ => l
  end.

(** The databases between an accepted BeforeInstall and its AfterInstall. *)
Definition opened (tr : list event) : list (N * string) := foldl opens [] tr.

(** Every change of a copy is of an open database. *)
Definition bracketed (tr : list event) : Prop :=
  ∀ n o db q, tr !! n = Some (EvChange o db q) → (o, db) ∈ opened (take n tr).

Lemma opened_snoc tr e : opened (tr ++ [e]) = opens (opened tr) e.
Proof. unfold opened. by rewrite foldl_app. Qed.

Lemma bracketed_snoc tr e :
  bracketed tr → match e with EvChange o db _ => (o, db) ∈ opened tr | _ => True end → bracketed (tr ++ [e]).
Proof.
  intros Hb He n o db q Hn. destruct (decide (n < length tr)) as [Hlt|Hge].
  - rewrite lookup_app_l in Hn by done. rewrite take_app_le by lia. by eapply Hb.
  - rewrite lookup_app_r in Hn by lia. apply list_lookup_singleton_Some in Hn as [Hz ->].
    rewrite take_app_ge by lia. replace (n - length tr) with 0 by lia. by rewrite take_0, app_nil_r.
Qed.

Section bracket.
Context `{CH : ClickHouse, RS : RowSum, MS : !MemberServer}.
Context (cfg : Config) (orc : Oracle) (Hhooks : cfg_hooks cfg = true).

(** ** Computations that stay silent *)
Definition Silent {A} (m : Installer.M A) : Prop :=
  ∀ s r s', m s = (r, s') → st_trace s' = st_trace s ∧ st_held s' = st_held s.

Lemma Silent_ret {A} (a : A) : Silent (mret a).
Proof. by intros s r s' [= _ <-]. Qed.
Lemma Silent_fail {A} e : Silent (fail (A:=A) e).
Proof. by intros s r s' [= _ <-]. Qed.
Lemma Silent_lift {A} (x : result ierr A) : Silent (lift x).
Proof. by intros s r s' [= _ <-]. Qed.
Lemma Silent_gets {A} (f : St → A) : Silent (gets f).
Proof. by intros s r s' [= _ <-]. Qed.
Lemma Silent_ask {A} (f : nat → A) : Silent (ask f).
Proof. by intros s r s' [= _ <-]. Qed.
Lemma Silent_modify f : Silent (modify f).
Proof. by intros s r s' [= _ <-]. Qed.
Lemma Silent_book f : Silent (book f).
Proof. apply Silent_modify. Qed.
Lemma Silent_query {A} e (f : chs → option A * chs) : Silent (query e f).
Proof. intros s r s'. unfold query. destruct (f (st_ch s)) as [x w]. by intros [= _ <-]. Qed.
Lemma Silent_exec q : Silent (exec q).
Proof. intros s r s'. unfold exec. destruct (ch_exec q (st_ch s)) as [x w]. by intros [= _ <-]. Qed.
Lemma Silent_update fn : Silent (update orc fn).
Proof. intros s r s'. unfold update. destruct (fn _); [|by intros [= _ <-]]. destruct (writeJournal _ _ _). by intros [= _ <-]. Qed.
Lemma Silent_bind {A B} (m : Installer.M A) (f : A → Installer.M B) : Silent m → (∀ a, Silent (f a)) → Silent (m ≫= f).
Proof.
  intros Hm Hf s r s' Hb. unfold mbind, M_bind in Hb. destruct (m s) as [[a|e] s1] eqn:Hm1.
  - destruct (Hm _ _ _ Hm1) as [<- <-]. by eapply Hf.
  - simplify_eq. by eapply Hm.
Qed.
Lemma Silent_attempt {A} (m : Installer.M A) : Silent m → Silent (attempt m).
Proof. intros Hm s r s' Hb. unfold attempt in Hb. destruct (m s) as [x s1] eqn:Hm1. simplify_eq. by eapply Hm. Qed.
Lemma Silent_repeat n m : Silent m → Silent (repeat_M n m).
Proof. intros Hm. induction n; [apply Silent_ret|]. by apply Silent_bind. Qed.
End bracket.

Ltac silent_with leaf :=
  repeat first
    [ leaf | apply Silent_ret | apply Silent_fail | apply Silent_lift | apply Silent_gets | apply Silent_ask
    | apply Silent_modify | apply Silent_book | apply Silent_query | apply Silent_exec | apply Silent_update
    | apply Silent_attempt | apply Silent_repeat | apply Silent_bind; [|intros ?]
    | match goal with
      | |- Silent (if ?b then _ else _) => destruct b
      | |- Silent (match ?x with _ => _ end) => destruct x
      | |- Silent (let '(_, _) := ?x in _) => destruct x
      | |- Silent (opt _ _) => apply Silent_lift
      end ].
Ltac silent := silent_with fail.

Section calls.
Context `{CH : ClickHouse, RS : RowSum, MS : !MemberServer}.
Context (cfg : Config) (orc : Oracle).

Lemma Silent_nonEmpty d t : Silent (nonEmptyParts d t).
Proof. unfold nonEmptyParts. silent. Qed.
Lemma Silent_dropScratch s : Silent (dropScratch s).
Proof. unfold dropScratch. silent. Qed.
Lemma Silent_dropScratches keep l : Silent (dropScratches keep l).
Proof. induction l as [|s l IH]; [apply Silent_ret|]. cbn [dropScratches]. silent_with ltac:(apply Silent_dropScratch || exact IH). Qed.
Lemma Silent_newScratch : Silent (newScratch cfg).
Proof. unfold newScratch, the_book, set_scratchN. silent. Qed.
Lemma Silent_drop_parts s l : Silent (drop_parts s l).
Proof. induction l as [|n l IH]; [apply Silent_ret|]. cbn [drop_parts]. silent_with ltac:(exact IH). Qed.
Lemma Silent_classify src c s sn rem : Silent (classify src c s sn rem).
Proof. unfold classify. silent_with ltac:(apply Silent_drop_parts || apply Silent_nonEmpty). Qed.
Lemma Silent_fetch src sn sch s : Silent (fetchWithDeadline orc src sn sch s).
Proof.
  unfold fetchWithDeadline. apply Silent_bind; [|intros; silent]. intros st r st'.
  destruct (src_Fetch src sn sch s (st_ch st)) as [res w]. by intros [= _ <-].
Qed.
Lemma Silent_try owner c dkey sn rem src n : Silent (try_source cfg orc owner c dkey sn rem src n).
Proof.
  unfold try_source, clearDeferral, the_book, set_deferred, count.
  silent_with ltac:(apply Silent_newScratch || apply Silent_fetch || apply Silent_dropScratch || apply Silent_classify).
Qed.
Lemma Silent_tries owner c dkey sn rem srcs res : Silent (try_sources cfg orc owner c dkey sn rem srcs res).
Proof. revert res. induction srcs as [|src srcs IH]; intros res; [apply Silent_ret|]. cbn [try_sources]. silent_with ltac:(apply Silent_try || apply IH). Qed.
Lemma Silent_fetchPart owner c need rem : Silent (fetchPart cfg orc owner c need rem).
Proof.
  unfold fetchPart, sourcesFor, deferAgain, the_book, set_deferred, set_probed. silent_with ltac:(apply Silent_tries).
Qed.
Lemma Silent_persist owner c l : Silent (persistDiverged orc owner c l).
Proof. unfold persistDiverged, countDiverged. silent. Qed.
Lemma Silent_fetchNeeds owner c needs rem job : Silent (fetchNeeds cfg orc owner c needs rem job).
Proof.
  revert rem job. induction needs as [|need needs IH]; intros rem job; [apply Silent_ret|]. cbn [fetchNeeds]. unfold quarantine.
  silent_with ltac:(apply Silent_fetchPart || apply IH).
Qed.
Lemma Silent_fetchJobs owner c jobs : Silent (fetchJobs cfg orc owner c jobs).
Proof. induction jobs as [|j l IH]; [apply Silent_ret|]. cbn [fetchJobs]. silent_with ltac:(apply Silent_fetchNeeds || exact IH). Qed.
Lemma Silent_scratchContent c s kept : Silent (scratchContent c s kept).
Proof. unfold scratchContent. silent_with ltac:(apply Silent_nonEmpty). Qed.
Lemma Silent_verify_scratches c job l : Silent (verify_scratches c job l).
Proof. induction l as [|s l IH]; [apply Silent_ret|]. cbn [verify_scratches]. silent_with ltac:(apply Silent_scratchContent || exact IH). Qed.
Lemma Silent_verify_jobs c jobs : Silent (verify_jobs c jobs).
Proof. induction jobs as [|j l IH]; [apply Silent_ret|]. cbn [verify_jobs]. silent_with ltac:(apply Silent_verify_scratches || exact IH). Qed.
Lemma Silent_verifyAll passes : Silent (verifyAll passes).
Proof. induction passes as [|p l IH]; [apply Silent_ret|]. cbn [verifyAll]. unfold verify. silent_with ltac:(apply Silent_verify_jobs || exact IH). Qed.
Lemma Silent_journal_passes owner l : Silent (journal_passes owner l).
Proof.
  induction l as [|p l IH]; [apply Silent_ret|]. cbn [journal_passes]. unfold countDiverged, listCopy.
  silent_with ltac:(apply Silent_nonEmpty || exact IH).
Qed.
Lemma Silent_journalOwner u owner entry l : Silent (journalOwner orc u owner entry l).
Proof. unfold journalOwner, markUnjournaled, countInstalls. silent_with ltac:(apply Silent_journal_passes). Qed.
Lemma Silent_scanCopy c tj : Silent (scanCopy c tj).
Proof.
  unfold scanCopy. generalize (foldl (λ m jp, <[jp_Name jp := jp_PartRowLtHash jp]> m) (∅ : gmap string string) (tj_Parts tj)).
  intros want. generalize (partitions tj). intros ids. revert tj. induction ids as [|id ids IH]; intros tj; [apply Silent_ret|].
  cbn [scan_partitions]. silent_with ltac:(apply IH).
Qed.
End calls.

Section brackets.
Context `{CH : ClickHouse, RS : RowSum, MS : !MemberServer}.
Context (cfg : Config) (orc : Oracle) (Hhooks : cfg_hooks cfg = true).

(** Outside a pass nothing is open; inside owner [o]'s pass the open databases
    are the held ones. *)
Definition closed (s : St) : Prop := bracketed (st_trace s) ∧ opened (st_trace s) = [].
Definition inside (o : N) (s : St) : Prop := bracketed (st_trace s) ∧ opened (st_trace s) = pair o <$> st_held s.

Definition Closed {A} (m : Installer.M A) : Prop := ∀ s r s', closed s → m s = (r, s') → closed s'.
(** [D]: databases already held. *)
Definition Inside {A} (o : N) (D : list string) (m : Installer.M A) : Prop :=
  ∀ s r s', inside o s → D ⊆ st_held s → m s = (r, s') → inside o s' ∧ D ⊆ st_held s'.

Lemma Closed_silent {A} (m : Installer.M A) : Silent m → Closed m.
Proof. intros Hm s r s' Hc [Ht _]%Hm. unfold closed. by rewrite Ht. Qed.
Lemma Inside_silent {A} o D (m : Installer.M A) : Silent m → Inside o D m.
Proof. intros Hm s r s' Hi HD [Ht Hh]%Hm. unfold inside. by rewrite Ht, Hh. Qed.


Lemma Closed_bind {A B} (m : Installer.M A) (f : A → Installer.M B) : Closed m → (∀ a, Closed (f a)) → Closed (m ≫= f).
Proof. intros Hm Hf s r s' Hc [(a & s1 & H1 & H2)|(e & H1 & _)]%run_inv; [eapply Hf; [|exact H2]|]; by eapply Hm. Qed.
Lemma Closed_attempt {A} (m : Installer.M A) : Closed m → Closed (attempt m).
Proof. intros Hm s r s' Hc (x & Hx & _)%try_inv. by eapply Hm. Qed.
Lemma Closed_each {A} (f : A → Installer.M unit) l : (∀ x, x ∈ l → Closed (f x)) → Closed (each orc f l).
Proof.
  induction l as [|x l IH]; intros Hf; [apply Closed_silent, Silent_ret|]. cbn [each].
  apply Closed_bind; [apply Closed_silent; unfold ctxErr; silent|intros _].
  apply Closed_bind; [apply Closed_attempt, Hf; constructor|intros ?].
  apply Closed_bind; [apply IH; intros y Hy; apply Hf; by constructor|intros ?]. apply Closed_silent, Silent_ret.
Qed.

Lemma Inside_bind {A B} o D (m : Installer.M A) (f : A → Installer.M B) :
  Inside o D m → (∀ a, Inside o D (f a)) → Inside o D (m ≫= f).
Proof.
  intros Hm Hf s r s' Hi HD [(a & s1 & H1 & H2)|(e & H1 & _)]%run_inv; [|by eapply Hm].
  destruct (Hm _ _ _ Hi HD H1). by eapply Hf.
Qed.
Lemma Inside_attempt {A} o D (m : Installer.M A) : Inside o D m → Inside o D (attempt m).
Proof. intros Hm s r s' Hi HD (x & Hx & _)%try_inv. by eapply Hm. Qed.
Lemma Inside_finally {A} o D (m : Installer.M A) h : Inside o D m → Inside o D h → Inside o D (finally m h).
Proof. intros Hm Hh s r s' Hi HD (s1 & x & H1 & H2)%defer_inv. destruct (Hm _ _ _ Hi HD H1). by eapply Hh. Qed.

(** BeforeInstall, once per database. *)
Lemma Inside_check {A} o D db (f : Installer.M A) : Inside o (db :: D) f → Inside o D (check cfg orc o db;; f).
Proof.
  intros Hf s r s' Hi HD [([] & s1 & H1 & H2)|(e & H1 & _)]%run_inv.
  - assert (inside o s1 ∧ db :: D ⊆ st_held s1) as [Hi1 HD1].
    { unfold check, before, mbind, M_bind, gets, ask, step, mret, M_ret, fail in H1. rewrite Hhooks in H1.
      case_bool_decide as Hin; [injection H1 as <-; split; [done|]; intros x [->|Hx]%elem_of_cons; auto|].
      destruct (o_before orc (st_tick s)); simplify_eq/=. destruct Hi as [Hb Ho]. split; [split|].
      - simpl. by apply bracketed_snoc.
      - simpl. by rewrite opened_snoc, Ho, fmap_app.
      - simpl. intros x [->|Hx]%elem_of_cons; apply elem_of_app; [right; by apply list_elem_of_singleton|left; auto]. }
    destruct (Hf _ _ _ Hi1 HD1 H2) as [Hi2 HD2]. split; [done|]. intros x Hx. apply HD2. by constructor.
  - unfold check, before, mbind, M_bind, gets, ask, step, mret, M_ret, fail in H1. rewrite Hhooks in H1.
    case_bool_decide; [done|]. destruct (o_before orc (st_tick s)); simplify_eq/=. destruct Hi as [Hb Ho].
    split; [split|done]; simpl; [by apply bracketed_snoc|by rewrite opened_snoc].
Qed.

Lemma Inside_alter c D q : databaseOf (c_TableKey c) ∈ D → Inside (c_Owner c) D (alterCopy c q).
Proof.
  intros Hdb s r s' [Hb Ho] HD [([] & s1 & [= <-] & H2)|(e & [=] & _)]%run_inv.
  apply Silent_exec in H2 as [Ht Hh]. unfold inside. rewrite Ht, Hh. simpl. split; [split|done].
  - apply bracketed_snoc; [done|]. rewrite Ho. apply list_elem_of_fmap_2. by apply HD.
  - by rewrite opened_snoc.
Qed.

Lemma Inside_twins c D l : Inside (c_Owner c) D (drop_twins cfg orc (c_Owner c) c l).
Proof.
  revert D. induction l as [|p l IH]; intros D; [apply Inside_silent, Silent_ret|]. cbn [drop_twins].
  apply Inside_check. apply Inside_bind; [apply Inside_alter; constructor|intros _].
  apply Inside_bind; [apply Inside_silent, Silent_book|intros _; apply IH].
Qed.

Lemma Inside_reconcile c D tj local : Inside (c_Owner c) D (reconcileCopy cfg orc (c_Owner c) c tj local).
Proof.
  unfold reconcileCopy. destruct (check_journaled _ _ _) as [[present ds] tj']. case_bool_decide; [apply Inside_silent, Silent_ret|].
  apply Inside_bind; [apply Inside_silent, Silent_query|intros scans]. destruct (split_twins _ _ _ _) as [drop cands].
  apply Inside_bind; [apply Inside_twins|intros _; apply Inside_silent, Silent_ret].
Qed.

Lemma Inside_prepareTable c D tm : Inside (c_Owner c) D (prepareTable cfg orc (c_Owner c) c tm).
Proof.
  unfold prepareTable. apply Inside_bind; [apply Inside_attempt|intros [p|e]].
  - unfold prepare_plan. match goal with |- Inside _ _ (if ?b then _ else _) => destruct b end; [apply Inside_silent, Silent_fail|].
    apply Inside_bind; [apply Inside_silent, Silent_gets|intros i]. apply Inside_bind; [apply Inside_silent, Silent_nonEmpty|intros local].
    apply Inside_bind; [apply Inside_reconcile|intros [rec tj]]. apply Inside_silent.
    destruct (adopt _ _ _), (plan _ _ _ _ _) as [[pass pm] err]. silent_with ltac:(apply Silent_persist).
  - apply Inside_silent. silent_with ltac:(apply Silent_fetchJobs).
  - apply Inside_silent, Silent_ret.
Qed.

Lemma Inside_prepareAll o D tables l : (∀ c, c ∈ l → c_Owner c = o) → Inside o D (prepareAll cfg orc o tables l).
Proof.
  induction l as [|c l IH]; intros Hl; [apply Inside_silent, Silent_ret|]. cbn [prepareAll].
  apply Inside_bind; [apply Inside_silent, Silent_ask|intros []]; [apply Inside_silent, Silent_ret|].
  apply Inside_bind; [rewrite <- (Hl c) by constructor; apply Inside_prepareTable|intros [[pass f] [e|]]];
    [apply Inside_silent, Silent_ret|].
  apply Inside_bind; [apply IH; intros c' Hc'; apply Hl; by constructor|intros [[? ?] ?]; apply Inside_silent, Silent_ret].
Qed.

(** The passes prepared are over the copies given. *)
Lemma prepareAll_copies o tables l s ps f e s' :
  prepareAll cfg orc o tables l s = (Ok (ps, f, e), s') → ∀ p, p ∈ ps → tp_copy p ∈ l.
Proof.
  revert s ps f e s'. induction l as [|c l IH]; intros s ps f e s' Hs; cbn [prepareAll] in Hs.
  { injection Hs as <- _ _ _. by intros p ?%elem_of_nil. }
  apply run_inv in Hs as [(ended & s1 & _ & Hs)|(? & _ & [=])].
  destruct ended; [injection Hs as <- _ _ _; by intros p ?%elem_of_nil|].
  apply run_inv in Hs as [([[pass f1] e1] & s2 & Hp & Hs)|(? & _ & [=])].
  assert (∀ p, pass = Some p → tp_copy p = c) as Hc.
  { intros p ->. unfold prepareTable in Hp. apply run_inv in Hp as [(x & s3 & (y & Hy & [= ->])%try_inv & Hp)|(? & _ & [=])].
    destruct y as [p0|]; [|by injection Hp]. apply run_inv in Hp as [([[jobs f2] e2] & s4 & _ & [= <- _ _ _])|(? & _ & [=])]. simpl.
    unfold prepare_plan in Hy. match type of Hy with (if ?b then _ else _) _ = _ => destruct b; [done|] end.
    apply run_inv in Hy as [(i & t1 & _ & Hy)|(? & _ & [=])]. apply run_inv in Hy as [(local & t2 & _ & Hy)|(? & _ & [=])].
    apply run_inv in Hy as [([rec tj] & t3 & _ & Hy)|(? & _ & [=])]. destruct (adopt _ _ _) as [marks tj2].
    unfold plan in Hy. destruct (plan_loop _ _ _ _) as [[[jobs' marks'] tj'] err].
    apply run_inv in Hy as [(x & t4 & _ & Hy)|(? & _ & [=])]. destruct x, err; try discriminate Hy. by injection Hy as <- _. }
  assert (∀ p, p ∈ option_list pass → tp_copy p ∈ c :: l) as Hhd.
  { intros p Hp0. destruct pass as [p0|]; simpl in Hp0; [|by apply elem_of_nil in Hp0].
    apply list_elem_of_singleton in Hp0 as ->. rewrite (Hc p0 eq_refl). constructor. }
  destruct e1 as [e1|]; [injection Hs as <- _ _ _; exact Hhd|].
  apply run_inv in Hs as [([[ps2 f2] e2] & s3 & Hrec & [= <- _ _ _])|(? & _ & [=])].
  intros p [Hp0|Hp0]%elem_of_app; [by apply Hhd|]. apply elem_of_cons. right. exact (IH _ _ _ _ _ Hrec p Hp0).
Qed.

Lemma Inside_commit o D p : c_Owner (tp_copy p) = o → Inside o D (commit cfg orc o p).
Proof.
  intros <-. unfold commit. case_bool_decide; [apply Inside_silent, Silent_ret|]. apply Inside_check.
  generalize (tp_jobs p). intros jobs. induction jobs as [|job jobs IH]; [apply Inside_silent, Silent_ret|]. cbn [commit_jobs].
  apply Inside_bind; [|intros _; exact IH]. unfold commit_job.
  apply Inside_bind; [apply Inside_silent, Silent_lift|intros quoted].
  apply Inside_bind; [destruct (_ && _); [apply Inside_alter; constructor|apply Inside_silent, Silent_ret]|intros _].
  generalize (job_scratches job). intros l. induction l as [|sc l IHl]; [apply Inside_silent, Silent_ret|]. cbn [attach_all].
  apply Inside_bind; [apply Inside_alter; constructor|intros _]. apply Inside_bind; [apply Inside_silent, Silent_ask|intros []];
    [exact IHl|apply Inside_silent, Silent_fail].
Qed.

Lemma Inside_commit_all o D dn ps : (∀ p, p ∈ ps → c_Owner (tp_copy p) = o) → Inside o D (commit_all cfg orc o dn ps).
Proof.
  revert dn. induction ps as [|p ps IH]; intros dn Hps; [apply Inside_silent, Silent_ret|]. cbn [commit_all].
  apply Inside_bind; [apply Inside_attempt, Inside_commit, Hps; constructor|intros [|e]].
  - apply IH. intros q Hq. apply Hps. by constructor.
  - apply Inside_silent. unfold markUnjournaled. silent.
Qed.

Lemma after_all o l s :
  bracketed (st_trace s) → (∀ x, x ∈ opened (st_trace s) → x ∈ pair o <$> l) →
  closed (foldl (λ s db, log (EvAfter o db) s) s l).
Proof.
  revert s. induction l as [|db l IH]; intros s Hb Ho.
  { split; [done|]. simpl. destruct (opened (st_trace s)) as [|x k]; [done|]. destruct (not_elem_of_nil x). apply (Ho x). constructor. }
  simpl. apply IH; simpl; [by apply bracketed_snoc|]. rewrite opened_snoc. simpl.
  intros x [Hne Hx]%list_elem_of_filter. apply Ho in Hx. rewrite fmap_cons in Hx. by apply elem_of_cons in Hx as [?|?].
Qed.

(** A pass opens nothing that it does not close. *)
Lemma Closed_pass {A} o (m : Installer.M A) : Inside o [] m → Closed (openGates;; finally m (gates_done cfg o)).
Proof.
  intros Hm s r s' [Hb Ho] [([] & s1 & [= <-] & H2)|(e & [=] & _)]%run_inv.
  apply defer_inv in H2 as (s2 & x & H2 & [= _ <-]).
  destruct (Hm (set_held [] s) r s2) as [[Hb2 Ho2] _]; [by split|by intros y ?%elem_of_nil|done|].
  rewrite Hhooks. apply after_all; simpl; [done|]. by rewrite Ho2.
Qed.

Lemma Closed_if {A} (b : bool) (m1 m2 : Installer.M A) : Closed m1 → Closed m2 → Closed (if b then m1 else m2).
Proof. by destruct b. Qed.

Lemma Closed_applyOwner u o l tables : (∀ c, c ∈ l → c_Owner c = o) → Closed (applyOwner cfg orc u o l tables).
Proof.
  intros Hl. unfold applyOwner. destruct (u_Entries u !! o) as [entry|]; [|apply Closed_silent, Silent_fail].
  apply Closed_bind; [apply Closed_silent, Silent_gets|intros i].
  do 3 (apply Closed_if; [apply Closed_silent; first [apply Silent_ret|apply Silent_fail]|]).
  apply Closed_pass. intros s r s' Hi HD [([[ps keep] err] & s1 & Hp & Hs)|(e & Hp & _)]%run_inv;
    destruct (Inside_prepareAll o [] tables l Hl _ _ _ Hi HD Hp) as [Hi1 HD1]; [|done].
  pose proof (prepareAll_copies _ _ _ _ _ _ _ _ Hp) as Hcs.
  revert Hs. match goal with |- ?m s1 = _ → _ => assert (Inside o [] m) as Hm end; [|by apply Hm].
  apply Inside_finally; [|apply Inside_silent, Silent_dropScratches]. destruct err; [apply Inside_silent, Silent_fail|].
  apply Inside_bind; [apply Inside_silent, Silent_verifyAll|intros _].
  apply Inside_bind; [apply Inside_silent, Silent_modify|intros _].
  apply Inside_finally; [|apply Inside_silent, Silent_modify].
  apply Inside_bind; [apply Inside_commit_all; intros p Hp'; by apply Hl, Hcs|intros _].
  apply Inside_silent, Silent_journalOwner.
Qed.

Lemma Closed_auditCopy trigger c : Closed (auditCopy cfg orc trigger c).
Proof.
  unfold auditCopy. apply Closed_bind; [apply Closed_silent, Silent_gets|intros i].
  apply Closed_if; [apply Closed_silent, Silent_ret|].
  apply Closed_bind; [apply Closed_silent, Silent_nonEmpty|intros local]. apply Closed_pass.
  apply Inside_bind; [apply Inside_reconcile|intros [rec tj]]. apply Inside_silent.
  apply Silent_bind; [case_bool_decide; [apply Silent_scanCopy|apply Silent_ret]|intros full].
  apply Silent_bind; [apply Silent_persist|intros _; apply Silent_modify].
Qed.

Lemma Closed_audit trigger : Closed (audit cfg orc trigger).
Proof.
  unfold audit. apply Closed_bind; [apply Closed_silent, Silent_ask|intros now].
  apply Closed_bind; [apply Closed_silent, Silent_gets|intros b]. apply Closed_if; [apply Closed_silent, Silent_ret|].
  apply Closed_bind; [apply Closed_silent; case_bool_decide; [apply Silent_modify|apply Silent_ret]|intros _].
  apply Closed_bind; [apply Closed_silent, Silent_book|intros _]. apply Closed_bind; [apply Closed_silent, Silent_gets|intros l].
  apply Closed_bind; [apply Closed_each; intros c _; apply Closed_bind; [apply Closed_auditCopy|intros _; apply Closed_silent, Silent_modify]|intros es].
  apply Closed_silent. unfold joined, set_selfAudit. silent.
Qed.

Lemma Closed_Audit trigger : Closed (Audit cfg orc trigger).
Proof. unfold Audit. apply Closed_if; [apply Closed_silent, Silent_fail|apply Closed_audit]. Qed.

Lemma Closed_Apply u : Closed (Apply cfg orc u).
Proof.
  unfold Apply. apply Closed_if; [apply Closed_silent, Silent_fail|].
  apply Closed_bind; [apply Closed_silent, Silent_gets|intros i]. apply Closed_bind.
  { apply Closed_if; [apply Closed_silent, Silent_ret|].
    apply Closed_bind; [apply Closed_attempt, Closed_audit|intros [|e]; apply Closed_silent; silent]. }
  intros _. apply Closed_bind; [apply Closed_silent, Silent_gets|intros ready].
  apply Closed_bind; [apply Closed_attempt|intros [|e]; [|apply Closed_silent, Silent_fail]].
  - unfold auditUncovered. apply Closed_bind; [apply Closed_silent, Silent_gets|intros i'].
    apply Closed_bind; [|intros es; apply Closed_silent; unfold joined; silent].
    apply Closed_each. intros c _. apply Closed_bind; [apply Closed_auditCopy|intros _; apply Closed_silent, Silent_modify].
  - apply Closed_bind; [apply Closed_silent; unfold checkDiskBudget, set_disk; silent|intros _].
    apply Closed_bind; [apply Closed_silent, Silent_gets|intros i'].
    apply Closed_bind; [|intros es; apply Closed_silent; unfold joined; silent].
    apply Closed_each. intros o _. apply Closed_applyOwner. by intros c [? _]%list_elem_of_filter.
Qed.

(** An installer's operation. *)
Inductive op := OpApply (u : Update) | OpAudit (trigger : string).
Definition run_op (x : op) : Installer.M unit := match x with OpApply u => Apply cfg orc u | OpAudit t => Audit cfg orc t end.
Definition run_ops (l : list op) (s : St) : St := foldl (λ s x, (run_op x s).2) s l.

(** C8: Copies change only between the serving hooks. With the hooks set, over
    any sequence of updates and audits, whatever fails and wherever a context
    ends, every statement that changes a copy of a database is issued after a
    BeforeInstall for its owner and database that returned no error and before
    the matching AfterInstall, and when an operation returns no database is left
    without its AfterInstall. *)
Theorem changes_are_bracketed l s :
  st_trace s = [] →
  let s' := run_ops l s in
  (∀ n o db q, st_trace s' !! n = Some (EvChange o db q) → (o, db) ∈ opened (take n (st_trace s'))) ∧
  opened (st_trace s') = [].
Proof.
  intros Ht. assert (closed s) as Hc by (unfold closed; by rewrite Ht). clear Ht. simpl.
  change (closed (run_ops l s)). revert s Hc. induction l as [|x l IH]; intros s Hc; [done|]. simpl. apply IH.
  destruct (run_op x s) as [r s1] eqn:Hr. destruct x; [by eapply Closed_Apply|by eapply Closed_Audit].
Qed.
End brackets.
