(* ===== verification/InstallBounds.v ===== *)
(** * Retries and multisets of the installer

    The backoff of a fetch that found no source, the bound on attempts per
    source, and the list routines of the planner against multiset operations. *)
From S2P Require Import Prelude LtHash Types Gate Registry ClickHouse InstallJournal Installer InstallBracket.
Import InstallJournal Installer.

(** The deferral after the fetch was refused at each of [ts]. *)
Definition deferred_at (ts : list Z) : option deferral := foldl (λ d now, Some (next_deferral d now [])) None ts.

(** C38: A refused fetch backs off exponentially within bounds. After the n-th
    refusal in a row a part is deferred until exactly min(2^(n-1), 30) minutes
    after that refusal, so a part is never deferred by less than a minute nor by
    more than half an hour. *)
Theorem deferral_backoff_bounds ts now :
  ∃ d, deferred_at (ts ++ [now]) = Some d ∧
    df_until d = (now + df_backoff d)%Z ∧
    df_backoff d = Z.min (DefaultDeferBackoffMin * 2 ^ Z.of_nat (length ts)) DefaultDeferBackoffMax ∧
    (DefaultDeferBackoffMin ≤ df_backoff d ≤ DefaultDeferBackoffMax)%Z.
Proof.
  assert (∀ l t, ∃ d, deferred_at (l ++ [t]) = Some d ∧ df_until d = (t + df_backoff d)%Z ∧
    df_backoff d = Z.min (DefaultDeferBackoffMin * 2 ^ Z.of_nat (length l)) DefaultDeferBackoffMax) as Hall.
  { intros l. induction l as [|u l IH] using rev_ind; intros t.
    - eexists. split_and!; [reflexivity..|]. vm_compute. reflexivity.
    - destruct (IH u) as (d & Hd & _ & Hb). unfold deferred_at in *. rewrite foldl_app, Hd. eexists. split_and!; [reflexivity..|].
      simpl. rewrite Hb, length_app. simpl. rewrite Nat2Z.inj_add, Z.pow_add_r by lia.
      pose proof (Z.pow_pos_nonneg 2 (Z.of_nat (length l))). unfold DefaultDeferBackoffMin, DefaultDeferBackoffMax, minute. lia. }
  destruct (Hall ts now) as (d & Hd & Hu & Hb). exists d. split_and!; try done; rewrite Hb;
    pose proof (Z.pow_pos_nonneg 2 (Z.of_nat (length ts))); unfold DefaultDeferBackoffMin, DefaultDeferBackoffMax, minute; lia.
Qed.

(** C36: The planner's list routines are multiset operations. multisetMinus is
    the multiset difference; pickEntries keeps manifest order and picks, of each
    row hash, exactly as many entries as both the manifest offers and the need
    lists, so every needed part that the manifest lists is fetched once. *)
Theorem planner_multisets a b entries need :
  list_to_set_disj (multisetMinus a b) =@{gmultiset string} list_to_set_disj a ∖ list_to_set_disj b ∧
  list_to_set_disj (entryHashes (pickEntries entries need)) =@{gmultiset string}
    list_to_set_disj (entryHashes entries) ∩ list_to_set_disj need ∧
  sublist (pickEntries entries need) entries.
Proof.
  split_and!; [apply multisetMinus_ms|apply pickEntries_ms|].
  revert need. induction entries as [|e entries IH]; intros need; simpl; [constructor|].
  case_bool_decide; by constructor.
Qed.

(** ** Attempts per source *)
Section attempts.
Context `{CH : ClickHouse, RS : RowSum, MS : !MemberServer}.
Context (cfg : Config) (orc : Oracle).

Definition scratch_number (s : St) : N := b_scratchN (i_book (st_i s)).
Definition next_scratch (n : N) : N := u64 (n + 1).

(** [m] takes at most [k] scratch numbers. *)
Definition Takes {A} (k : nat) (m : Installer.M A) : Prop :=
  ∀ s r s', m s = (r, s') → ∃ j, j ≤ k ∧ scratch_number s' = Nat.iter j next_scratch (scratch_number s).

Lemma Takes_mono {A} k k' (m : Installer.M A) : k ≤ k' → Takes k m → Takes k' m.
Proof. intros Hk Hm s r s' (j & ? & ?)%Hm. exists j. split; [lia|done]. Qed.
Lemma Takes_bind {A B} k k' (m : Installer.M A) (f : A → Installer.M B) : Takes k m → (∀ a, Takes k' (f a)) → Takes (k + k') (m ≫= f).
Proof.
  intros Hm Hf s r s' [(a & s1 & (j & Hj & Hs1)%Hm & (j' & Hj' & Hs2)%Hf)|(e & (j & ? & ?)%Hm & _)]%run_inv.
  - exists (j' + j). split; [lia|]. by rewrite Hs2, Hs1, Nat.iter_add.
  - exists j. split; [lia|done].
Qed.
Lemma Takes_bind0 {A B} k (m : Installer.M A) (f : A → Installer.M B) : Takes 0 m → (∀ a, Takes k (f a)) → Takes k (m ≫= f).
Proof. apply (Takes_bind 0 k). Qed.
Lemma Takes_attempt {A} k (m : Installer.M A) : Takes k m → Takes k (attempt m).
Proof. intros Hm s r s' (x & Hx & _)%try_inv. by eapply Hm. Qed.
Lemma Takes_same {A} (m : Installer.M A) : (∀ s r s', m s = (r, s') → scratch_number s' = scratch_number s) → ∀ k, Takes k m.
Proof. intros Hm k s r s' Hs%Hm. exists 0. split; [lia|done]. Qed.
Lemma Takes_ret {A} (a : A) k : Takes k (mret a).
Proof. apply Takes_same. by intros s r s' [= _ <-]. Qed.
Lemma Takes_fail {A} e k : Takes k (fail (A:=A) e).
Proof. apply Takes_same. by intros s r s' [= _ <-]. Qed.
Lemma Takes_lift {A} (x : result ierr A) k : Takes k (lift x).
Proof. apply Takes_same. by intros s r s' [= _ <-]. Qed.
Lemma Takes_gets {A} (f : St → A) k : Takes k (gets f).
Proof. apply Takes_same. by intros s r s' [= _ <-]. Qed.
Lemma Takes_ask {A} (f : nat → A) k : Takes k (ask f).
Proof. apply Takes_same. by intros s r s' [= _ <-]. Qed.
Lemma Takes_book f k : (∀ b, b_scratchN (f b) = b_scratchN b) → Takes k (book f).
Proof. intros Hf. apply Takes_same. intros s r s' [= _ <-]. unfold scratch_number. simpl. apply Hf. Qed.
Lemma Takes_query {A} e (f : chs → option A * chs) k : Takes k (query e f).
Proof. apply Takes_same. intros s r s'. unfold query. destruct (f _). by intros [= _ <-]. Qed.
Lemma Takes_exec q k : Takes k (exec q).
Proof. apply Takes_same. intros s r s'. unfold exec. destruct (ch_exec _ _). by intros [= _ <-]. Qed.

Lemma Takes_newScratch : Takes 1 (newScratch cfg).
Proof.
  intros s r s' Hs. unfold newScratch in Hs. apply run_inv in Hs as [(b & s1 & [= <- <-] & Hs)|(e & [=] & _)].
  apply run_inv in Hs as [([] & s2 & [= <-] & Hs)|(e & [=] & _)].
  exists 1. split; [done|]. apply run_inv in Hs as [([] & s3 & Hx & [= _ <-])|(e & Hx & _)];
    destruct (Takes_exec _ 0 _ _ _ Hx) as (j & Hj & ->); assert (j = 0) as -> by lia; done.
Qed.
End attempts.

Ltac takes :=
  repeat first
    [ apply Takes_ret | apply Takes_fail | apply Takes_lift | apply Takes_gets | apply Takes_ask
    | apply Takes_query | apply Takes_exec | (apply Takes_book; done) | apply Takes_attempt | apply Takes_bind0; [|intros ?]
    | match goal with
      | |- Takes _ (if ?b then _ else _) => destruct b
      | |- Takes _ (match ?x with _ => _ end) => destruct x
      end ].

Section fetch.
Context `{CH : ClickHouse, RS : RowSum, MS : !MemberServer}.
Context (cfg : Config) (orc : Oracle).

Lemma Takes_classify src c s sn rem : Takes 0 (classify src c s sn rem).
Proof.
  unfold classify, nonEmptyParts. apply Takes_bind0; [takes|intros scans]. apply Takes_bind0; [takes|intros cls].
  case_bool_decide; [takes|]. apply Takes_bind0; [|intros; takes].
  generalize (Gate.cl_Drop cls). intros l. induction l as [|n l IH]; [apply Takes_ret|]. cbn [drop_parts].
  apply Takes_bind0; [takes|done].
Qed.

Lemma Takes_try owner c dkey sn rem src n : Takes 1 (try_source cfg orc owner c dkey sn rem src n).
Proof.
  unfold try_source. apply (Takes_bind 1 0); [apply Takes_newScratch|intros scratch].
  unfold dropScratch, clearDeferral, the_book, set_deferred, count.
  apply Takes_bind0; [|intros res].
  { unfold fetchWithDeadline. apply Takes_bind0; [|intros; takes]. apply Takes_same. intros s r s'.
    destruct (src_Fetch _ _ _ _ _). by intros [= _ <-]. }
  apply Takes_bind0; [takes|intros ended]. destruct ended; [takes|].
  match goal with |- Takes _ (if ?b then _ else _) => destruct b end; [takes|].
  apply Takes_bind0; [apply Takes_attempt, Takes_classify|intros r]. takes.
Qed.

Lemma Takes_tries owner c dkey sn rem srcs res : Takes (2 * length srcs) (try_sources cfg orc owner c dkey sn rem srcs res).
Proof.
  revert res. induction srcs as [|src srcs IH]; intros res; [apply Takes_ret|]. cbn [try_sources length].
  apply (Takes_mono (1 + (1 + 2 * length srcs))); [lia|].
  apply Takes_bind; [apply Takes_try|intros [|?|?|?]]; try apply Takes_ret.
  - eapply Takes_mono; [|apply IH]. lia.
  - apply Takes_bind; [apply Takes_try|intros [|?|?|?]]; try apply Takes_ret; apply IH.
Qed.

End fetch.
