(* ===== verification/InstallLaws.v ===== *)
(** * What the installer relies on, and its frames

    [MemberLaws] is the documented behaviour of the member's ClickHouse, of the
    executor's scans and of the byte sources that the installer relies on.
    [Leaves X m] says which copies a computation can change and that it touches
    neither the journal nor what the installer reports; every step of a pass
    that fetches, verifies, audits or commits is of this form. *)
From S2P Require Import Prelude LtHash Types Gate Registry ClickHouse InstallJournal Installer.
Import InstallJournal Installer.

(** ** The laws

    [parts_of] are the true active parts of a table of hg_replica or hg_rstage.
    Their row content is determined by hash_of_all_files and the row count
    ([rows_of]), their partition by their name ([value_of]: a part's name starts
    with its partition id). Only statements change them: nothing merges parts of
    these tables, and only the installer writes to hg_replica. A failed statement
    may have changed the table it names. *)
Class MemberLaws `{ClickHouse, RowSum, !MemberServer} := {
  parts_of : chs → database → string → list Part;
  rows_of : string → N → lthash;
  value_of : string → string;
  live (w : chs) (d : database) (t : string) : list Part := filter (λ p, p_Rows p ≠ 0%N) (parts_of w d t);
  member_db (d : database) : Prop := d = ReplicaDB ∨ d = StageDB;
  calm (w w' : chs) : Prop := ∀ d t, member_db d → parts_of w' d t = parts_of w d t;
  parts_names w d t : member_db d → NoDup (p_Name <$> parts_of w d t);
  parts_value w d t p : member_db d → p ∈ parts_of w d t → p_PartitionValue p = value_of (p_Name p);
  m_active d t w r w' : ch_active d t w = (r, w') → member_db d →
    calm w w' ∧ ∀ ps, r = Some ps → ps = parts_of w d t;
  m_scan t sch names w r w' : ch_scan ReplicaDB t sch names w = (r, w') →
    calm w w' ∧ ∀ scans, r = Some scans → sc_PartName <$> scans = names ∧
      ∀ s p, s ∈ scans → p ∈ parts_of w ReplicaDB t → p_Name p = sc_PartName s →
        row_hash (sc_RowLtHash s) = Some (rows_of (p_PhysHash p) (p_Rows p));
  m_scan_all t sch w r w' : ch_scan_all StageDB t sch w = (r, w') →
    calm w w' ∧ ∀ scans, r = Some scans → sc_PartName <$> scans ≡ₚ p_Name <$> live w StageDB t ∧
      ∀ s p, s ∈ scans → p ∈ parts_of w StageDB t → p_Name p = sc_PartName s →
        row_hash (sc_RowLtHash s) = Some (rows_of (p_PhysHash p) (p_Rows p)) ∧ sc_RowCount s = p_Rows p;
  m_disk w r w' : ch_disk w = (r, w') → calm w w';
  m_stage_tables prefix w r w' : ch_stage_tables prefix w = (r, w') → calm w w';
  m_fetch owner src need sch scratch w r w' :
    src ∈ SourcesOf owner → src_Fetch src need sch scratch w = (r, w') →
    ∀ t, parts_of w' ReplicaDB t = parts_of w ReplicaDB t;
  m_stage q w r w' : ch_exec q w = (r, w') →
    match q with CreateScratch _ | DropTable StageDB _ | DropPart StageDB _ _ => True | _ => False end →
    ∀ t, parts_of w' ReplicaDB t = parts_of w ReplicaDB t;
  m_stage_drop scratch n w r w' p : ch_exec (DropPart StageDB scratch n) w = (r, w') →
    p ∈ live w' StageDB scratch → p ∈ live w StageDB scratch;
  m_copy q t w r w' : ch_exec q w = (r, w') →
    match q with AttachFrom t' _ _ | DropPart ReplicaDB t' _ | DropPartition ReplicaDB t' _ => t' = t | _ => False end →
    ∀ d t', member_db d → (d, t') ≠ (ReplicaDB, t) → parts_of w' d t' = parts_of w d t';
  m_drop_part t n w w' : ch_exec (DropPart ReplicaDB t n) w = (None, w') →
    live w' ReplicaDB t = filter (λ p, p_Name p ≠ n) (live w ReplicaDB t);
  m_drop_partition t sch id quoted w w' :
    ch_exec (DropPartition ReplicaDB t quoted) w = (None, w') → QuotePartition sch id = Some quoted →
    live w' ReplicaDB t = filter (λ p, LogicalPartitionID sch p ≠ id) (live w ReplicaDB t);
  m_attach t scratch sch id quoted w w' :
    ch_exec (AttachFrom t quoted scratch) w = (None, w') → QuotePartition sch id = Some quoted →
    ∃ fresh, live w' ReplicaDB t ≡ₚ live w ReplicaDB t ++ fresh ∧
      Forall (λ p, LogicalPartitionID sch p = id) fresh ∧
      (λ p, (p_PhysHash p, p_Rows p)) <$> fresh ≡ₚ
        (λ p, (p_PhysHash p, p_Rows p)) <$> PartsInLogicalPartition (live w StageDB scratch) sch id;
}.

Section frames.
Context `{CH : ClickHouse, RS : RowSum, MS : !MemberServer, ML : !MemberLaws}.
Context (cfg : Config) (orc : Oracle).
#[local] Abbreviation M := (Installer.M).

(** ** Keys of parts: name, hash_of_all_files and rows *)
Definition pkey (p : Part) : string * string * N := (p_Name p, p_PhysHash p, p_Rows p).
Definition jkey (jp : JournalPart) : string * string * N := (jp_Name jp, jp_HashOfAllFiles jp, jp_Rows jp).
Definition khash (k : string * string * N) : lthash := rows_of k.1.2 k.2.
Definition kpart (sch : TableSchema) (k : string * string * N) : string :=
  if bool_decide (PartitionBy sch = EmptyString) then "all" else "p_" +:+ value_of k.1.1.

(** What the copy holds in one partition, as keys. *)
Definition copy_keys (w : chs) (c : Copy) : list (string * string * N) := pkey <$> live w ReplicaDB (c_Table c).
Definition in_part (sch : TableSchema) (pid : string) (l : list (string * string * N)) : list (string * string * N) :=
  filter (λ k, kpart sch k = pid) l.

Lemma live_names w d t : member_db d → NoDup (p_Name <$> live w d t).
Proof.
  intros Hd. by apply NoDup_fmap_filter, parts_names.
Qed.

Lemma live_elem w d t p : p ∈ live w d t ↔ p_Rows p ≠ 0%N ∧ p ∈ parts_of w d t.
Proof. unfold live. by rewrite list_elem_of_filter. Qed.

Lemma kpart_live w d t sch p : member_db d → p ∈ live w d t → kpart sch (pkey p) = LogicalPartitionID sch p.
Proof.
  intros Hd [_ Hp]%live_elem. unfold kpart, LogicalPartitionID. by rewrite (parts_value w d t p Hd Hp).
Qed.

Lemma in_part_live w d t sch pid l : member_db d → (∀ p, p ∈ l → p ∈ live w d t) →
  in_part sch pid (pkey <$> l) = pkey <$> PartsInLogicalPartition l sch pid.
Proof.
  intros Hd. induction l as [|p l IH]; intros Hl; [done|].
  unfold in_part, PartsInLogicalPartition in *. rewrite fmap_cons, !filter_cons.
  rewrite (kpart_live w d t sch p) by (done || set_solver).
  rewrite IH by set_solver. by case_decide.
Qed.

(** ** Computations that keep the journal and what is reported *)
Definition reports (i i' : Installer) : Prop :=
  i_journal i' = i_journal i ∧ i_pending i' = i_pending i ∧ i_audited i' = i_audited i ∧
  i_auditDone i' = i_auditDone i ∧ i_auditTrigger i' = i_auditTrigger i.

(** From [s] to [s'], at most the copies named in [X] changed. *)
Definition leaves (X : list string) (s s' : St) : Prop :=
  reports (st_i s) (st_i s') ∧ st_file s' = st_file s ∧ st_copies s' = st_copies s ∧
  ∀ t, t ∉ X → parts_of (st_ch s') ReplicaDB t = parts_of (st_ch s) ReplicaDB t.

Definition Leaves {A} (X : list string) (m : M A) : Prop := ∀ s r s', m s = (r, s') → leaves X s s'.

#[global] Instance leaves_preorder X : PreOrder (leaves X).
Proof.
  split; [by intros s; split_and!|].
  intros a b c ((?&?&?&?&?)&?&?&Hab) ((?&?&?&?&?)&?&?&Hbc). split_and!; try congruence.
  - unfold reports. split_and!; congruence.
  - intros t Ht. rewrite Hbc, Hab; done.
Qed.

Lemma leaves_mono X Y s s' : X ⊆ Y → leaves X s s' → leaves Y s s'.
Proof. intros HX (?&?&?&Hp). split_and!; try done. intros t Ht. apply Hp. set_solver. Qed.

Lemma Leaves_mono {A} X Y (m : M A) : X ⊆ Y → Leaves X m → Leaves Y m.
Proof. intros HX Hm s r s' Hr. eapply leaves_mono; eauto. Qed.

Lemma leaves_calm s w : calm (st_ch s) w → leaves [] s (set_ch w s).
Proof. intros Hw. split_and!; try done. intros t _. apply Hw. by left. Qed.

Lemma Leaves_ret {A} X (a : A) : Leaves X (mret a).
Proof. by intros s r s' [= <- <-]. Qed.
Lemma Leaves_fail {A} X e : Leaves X (fail (A:=A) e).
Proof. by intros s r s' [= <- <-]. Qed.
Lemma Leaves_lift {A} X (x : result ierr A) : Leaves X (lift x).
Proof. by intros s r s' [= <- <-]. Qed.
Lemma Leaves_gets {A} X (f : St → A) : Leaves X (gets f).
Proof. by intros s r s' [= <- <-]. Qed.
Lemma Leaves_ask {A} X (f : nat → A) : Leaves X (ask f).
Proof. intros s r s' [= <- <-]. by split_and!. Qed.
Lemma Leaves_book X f : Leaves X (book f).
Proof. intros s r s' [= <- <-]. by split_and!. Qed.
Lemma Leaves_step X f : (∀ s, leaves X s (f s)) → Leaves X (step f).
Proof. by intros Hf s r s' [= <- <-]. Qed.

Lemma Leaves_bind {A B} X (m : M A) (f : A → M B) : Leaves X m → (∀ a, Leaves X (f a)) → Leaves X (m ≫= f).
Proof.
  intros Hm Hf s r s' Hb. unfold mbind, M_bind in Hb. destruct (m s) as [[a|e] s1] eqn:Hm1.
  - etrans; [by eapply Hm|by eapply Hf].
  - simplify_eq. by eapply Hm.
Qed.
Lemma Leaves_attempt {A} X (m : M A) : Leaves X m → Leaves X (attempt m).
Proof. intros Hm s r s' Hb. unfold attempt in Hb. destruct (m s) as [x s1] eqn:Hm1. simplify_eq. by eapply Hm. Qed.
Lemma Leaves_finally {A} X (m : M A) h : Leaves X m → Leaves X h → Leaves X (finally m h).
Proof.
  intros Hm Hh s r s' Hb. unfold finally in Hb. destruct (m s) as [x s1] eqn:Hm1, (h s1) as [y s2] eqn:Hh1.
  simplify_eq/=. etrans; [by eapply Hm|by eapply Hh].
Qed.
Lemma Leaves_if {A} X (b : bool) (m1 m2 : M A) : Leaves X m1 → Leaves X m2 → Leaves X (if b then m1 else m2).
Proof. by destruct b. Qed.
Lemma Leaves_query {A} X e (f : chs → option A * chs) :
  (∀ w r w', f w = (r, w') → calm w w') → Leaves X (query e f).
Proof.
  intros Hf s r s' Hq. unfold query in Hq. destruct (f (st_ch s)) as [x w] eqn:Hx. simplify_eq.
  eapply leaves_mono; [|by eapply leaves_calm, Hf]. set_solver.
Qed.
Lemma Leaves_repeat X n m : Leaves X m → Leaves X (repeat_M n m).
Proof. intros Hm. induction n; [apply Leaves_ret|]. by apply Leaves_bind. Qed.
Lemma Leaves_each {A} X (f : A → M unit) l : (∀ x, x ∈ l → Leaves X (f x)) → Leaves X (each orc f l).
Proof.
  induction l as [|x l IH]; intros Hf; [apply Leaves_ret|]. cbn [each].
  apply Leaves_bind; [|intros _].
  { apply Leaves_bind; [apply Leaves_ask|]. intros []; [apply Leaves_fail|apply Leaves_ret]. }
  apply Leaves_bind; [apply Leaves_attempt, Hf; set_solver|intros ?].
  apply Leaves_bind; [apply IH; set_solver|intros ?]. apply Leaves_ret.
Qed.

Lemma Leaves_stage X q :
  match q with CreateScratch _ | DropTable StageDB _ | DropPart StageDB _ _ => True | _ => False end →
  Leaves X (exec q).
Proof.
  intros Hq s r s' Hx. unfold exec in Hx. destruct (ch_exec q (st_ch s)) as [e w] eqn:He. simplify_eq.
  split_and!; try done. intros t _. by apply (m_stage _ _ _ _ He).
Qed.

(** A statement on a copy leaves the other copies and every scratch alone. *)
Lemma Leaves_alter c q :
  match q with AttachFrom t' _ _ | DropPart ReplicaDB t' _ | DropPartition ReplicaDB t' _ => t' = c_Table c | _ => False end →
  Leaves [c_Table c] (alterCopy c q).
Proof.
  intros Hq. apply Leaves_bind; [apply Leaves_step; intros s; by split_and!|intros _].
  intros s r s' Hx. unfold exec in Hx. destruct (ch_exec q (st_ch s)) as [e w] eqn:He. simplify_eq.
  split_and!; try done. intros t Ht. apply (m_copy _ _ _ _ _ He Hq); [by left|].
  intros [= ->]. destruct Ht. constructor.
Qed.

End frames.

(** Walks through a computation; [leaf] closes the calls it knows. *)
Ltac frame_with leaf :=
  repeat first
    [ leaf | apply Leaves_ret | apply Leaves_fail | apply Leaves_lift | apply Leaves_gets | apply Leaves_ask
    | apply Leaves_book | apply Leaves_attempt | apply Leaves_repeat
    | apply Leaves_bind; [|intros ?] | apply Leaves_finally
    | match goal with
      | |- Leaves _ (if ?b then _ else _) => destruct b
      | |- Leaves _ (match ?x with _ => _ end) => destruct x
      | |- Leaves _ (let '(_, _) := ?x in _) => destruct x
      | |- Leaves _ (opt _ _) => apply Leaves_lift
      end ].
Ltac frame := frame_with fail.

Section calls.
Context `{CH : ClickHouse, RS : RowSum, MS : !MemberServer, ML : !MemberLaws}.
Context (cfg : Config) (orc : Oracle).
#[local] Abbreviation M := (Installer.M).

Lemma Leaves_active X e d t : member_db d → Leaves X (query e (ch_active d t)).
Proof. intros Hd. apply Leaves_query. intros w r w' Hr. by destruct (m_active _ _ _ _ _ Hr Hd). Qed.
Lemma Leaves_nonEmpty X d t : member_db d → Leaves X (nonEmptyParts d t).
Proof. intros Hd. unfold nonEmptyParts. frame_with ltac:(by apply Leaves_active). Qed.
Lemma Leaves_listCopy X c : Leaves X (listCopy c).
Proof. apply Leaves_nonEmpty. by left. Qed.
Lemma Leaves_scan_all X e t sch : Leaves X (query e (ch_scan_all StageDB t sch)).
Proof. apply Leaves_query. intros w r w' Hr. by destruct (m_scan_all _ _ _ _ _ Hr). Qed.
Lemma Leaves_scan X e t sch l : Leaves X (query e (ch_scan ReplicaDB t sch l)).
Proof. apply Leaves_query. intros w r w' Hr. by destruct (m_scan _ _ _ _ _ _ Hr). Qed.

Lemma Leaves_dropScratch X s : Leaves X (dropScratch s).
Proof. unfold dropScratch. frame_with ltac:(by apply Leaves_stage). Qed.
Lemma Leaves_dropScratches X keep l : Leaves X (dropScratches keep l).
Proof. induction l as [|s l IH]; [apply Leaves_ret|]. cbn [dropScratches]. frame_with ltac:(apply Leaves_dropScratch || exact IH). Qed.
Lemma Leaves_newScratch X : Leaves X (newScratch cfg).
Proof. unfold newScratch, the_book, set_scratchN. frame_with ltac:(by apply Leaves_stage). Qed.
Lemma Leaves_drop_parts X s l : Leaves X (drop_parts s l).
Proof. induction l as [|n l IH]; [apply Leaves_ret|]. cbn [drop_parts]. frame_with ltac:((by apply Leaves_stage) || exact IH). Qed.
Lemma Leaves_classify X src c s sn rem : Leaves X (classify src c s sn rem).
Proof.
  unfold classify.
  frame_with ltac:(apply Leaves_scan_all || apply Leaves_drop_parts || (apply Leaves_nonEmpty; by right)).
Qed.
Lemma Leaves_openGates X : Leaves X openGates.
Proof. apply Leaves_step. intros s. by split_and!. Qed.
Lemma Leaves_check X o db : Leaves X (check cfg orc o db).
Proof. unfold check, before. frame_with ltac:(apply Leaves_step; intros s; by split_and!). Qed.
Lemma Leaves_done X o : Leaves X (gates_done cfg o).
Proof.
  apply Leaves_step. intros s. destruct (cfg_hooks cfg); [|by split_and!].
  generalize (st_held s). intros l. assert (leaves X s (set_held [] s)) as H0 by (by split_and!).
  revert H0. generalize (set_held [] s). induction l as [|db l IH]; intros s0 H0; [done|]. simpl. apply IH.
  etrans; [exact H0|]. by split_and!.
Qed.

Lemma Leaves_fetch X owner src sn sch s :
  src ∈ SourcesOf owner → Leaves X (fetchWithDeadline orc src sn sch s).
Proof.
  intros Hsrc. unfold fetchWithDeadline. apply Leaves_bind; [|intros res; frame].
  intros st r st' Hx. destruct (src_Fetch src sn sch s (st_ch st)) as [res w] eqn:Hf. simplify_eq.
  split_and!; try done. intros t _. by apply (m_fetch _ _ _ _ _ _ _ _ Hsrc Hf).
Qed.

Lemma Leaves_try X owner c dkey sn rem src n :
  src ∈ SourcesOf owner → Leaves X (try_source cfg orc owner c dkey sn rem src n).
Proof.
  intros Hsrc. unfold try_source, clearDeferral, the_book, set_deferred, count.
  apply Leaves_bind; [apply Leaves_newScratch|intros ?].
  apply Leaves_bind; [by eapply Leaves_fetch|intros ?].
  frame_with ltac:(apply Leaves_dropScratch || apply Leaves_classify).
Qed.

Lemma Leaves_tries X owner c dkey sn rem srcs res :
  (∀ src, src ∈ srcs → src ∈ SourcesOf owner) → Leaves X (try_sources cfg orc owner c dkey sn rem srcs res).
Proof.
  revert res. induction srcs as [|src srcs IH]; intros res Hs; [apply Leaves_ret|]. cbn [try_sources].
  apply Leaves_bind; [apply Leaves_try; set_solver|intros t].
  frame_with ltac:((apply Leaves_try; set_solver) || (apply IH; set_solver)).
Qed.

Lemma restoreBeforeOwnerPull_elem l src : src ∈ restoreBeforeOwnerPull l → src ∈ l.
Proof.
  unfold restoreBeforeOwnerPull.
  destruct (list_find _ l) as [[n x]|] eqn:Hf1; [|done].
  destruct (list_find (λ s, src_Name s = SourceRestore) l) as [[m y]|] eqn:Hf2; [|done].
  case_bool_decide; [done|]. apply list_find_Some in Hf2 as (Hl & _ & _).
  rewrite !elem_of_app, elem_of_cons, elem_of_app. intros [Hi|[->|[Hi|Hi]]].
  - by eapply subseteq_take.
  - by eapply list_elem_of_lookup_2.
  - eapply subseteq_drop, subseteq_take; exact Hi.
  - by eapply subseteq_drop.
Qed.


Lemma sourcesFor_elem owner c s l s' src : sourcesFor owner c s = (Ok l, s') → src ∈ l → src ∈ SourcesOf owner.
Proof.
  unfold sourcesFor. intros Hs Hin. apply run_inv in Hs as [(i & s1 & [= <- <-] & Hs)|(e & [=] & _)].
  destruct (_ && _); [|by injection Hs as <- <-].
  apply run_inv in Hs as [(? & s2 & _ & [= <- <-])|(e & [=] & _)]. by apply restoreBeforeOwnerPull_elem.
Qed.

(** Like [Leaves_bind], knowing what the first computation returned. *)
Lemma Leaves_bind_ok {A B} X (m : M A) (f : A → M B) :
  Leaves X m → (∀ a s s', m s = (Ok a, s') → Leaves X (f a)) → Leaves X (m ≫= f).
Proof.
  intros Hm Hf s r s' [(a & s1 & Hm1 & Hf1)|(e & Hm1 & ->)]%run_inv; [|by eapply Hm].
  etrans; [by eapply Hm|by eapply Hf].
Qed.

Lemma Leaves_fetchPart X owner c need rem : Leaves X (fetchPart cfg orc owner c need rem).
Proof.
  unfold fetchPart, the_book, deferAgain, the_book, set_deferred.
  apply Leaves_bind; [frame|intros b]. apply Leaves_bind; [frame|intros now]. apply Leaves_if; [frame|].
  apply Leaves_bind_ok; [unfold sourcesFor, set_probed; frame|intros srcs s s' Hs].
  frame_with ltac:(apply Leaves_tries; intros src; by apply (sourcesFor_elem _ _ _ _ _ _ Hs)).
Qed.
End calls.
