(* ===== verification/InstallReconcile.v ===== *)
(** * Reconciling, adopting and planning

    What a copy's comparison with its journal, the adoption of unjournaled parts
    and the plan over the gate establish: in every partition that is not marked
    Diverged, the working journal lists exactly the parts the copy holds. *)
From S2P Require Import Prelude LtHash Types Gate Registry ClickHouse InstallJournal Installer InstallLaws.
Import InstallJournal Installer Gate.Gate.

Section reconcile.
Context `{CH : ClickHouse, RS : RowSum, MS : !MemberServer, ML : !MemberLaws}.
Context `{LL : !LtHashLaws, RL : !RowSumLaws}.
Context (cfg : Config) (orc : Oracle).

(** ** True journals: what a journal lists is what the named parts hold *)
Definition true_part (sch : TableSchema) (jp : JournalPart) : Prop :=
  row_hash (jp_PartRowLtHash jp) = Some (khash (jkey jp)) ∧ jp_PartitionID jp = kpart sch (jkey jp) ∧
  jp_Rows jp ≠ 0%N.

Definition tj_true (sch : TableSchema) (tj : TableJournal) : Prop :=
  Forall (true_part sch) (tj_Parts tj) ∧ NoDup (jp_Name <$> tj_Parts tj).

Definition tkeys (tj : TableJournal) : list (string * string * N) := jkey <$> tj_Parts tj.

Lemma in_part_app sch pid l k : in_part sch pid (l ++ k) = in_part sch pid l ++ in_part sch pid k.
Proof. apply filter_app. Qed.

#[global] Instance in_part_proper sch pid : Proper ((≡ₚ) ==> (≡ₚ)) (in_part sch pid).
Proof. intros l k Hp. unfold in_part. by rewrite Hp. Qed.

Lemma true_in_part sch pid l : Forall (true_part sch) l →
  in_part sch pid (jkey <$> l) = jkey <$> filter (λ p, jp_PartitionID p = pid) l.
Proof.
  induction 1 as [|jp l (Hh & Hp & Hr) _ IH]; [done|]. unfold in_part in *.
  rewrite fmap_cons, !filter_cons, <- Hp, IH. by case_decide.
Qed.

Lemma true_hashes sch l : Forall (true_part sch) l →
  mapM row_hash (jp_PartRowLtHash <$> l) = Some (khash <$> (jkey <$> l)).
Proof.
  induction 1 as [|jp l (Hh & _ & _) _ IH]; [done|]. rewrite !fmap_cons. cbn [mapM]. by rewrite Hh, IH.
Qed.

Lemma tj_hashes sch tj pid : tj_true sch tj →
  mapM row_hash (partitionHashes tj pid) = Some (khash <$> in_part sch pid (tkeys tj)).
Proof.
  intros [Ht _]. unfold partitionHashes, tkeys. rewrite (true_in_part sch) by done.
  apply (true_hashes sch). rewrite Forall_forall in Ht |- *. intros p [_ Hp]%list_elem_of_filter. by apply Ht.
Qed.

Lemma elem_of_in_part sch pid l k : k ∈ in_part sch pid l ↔ kpart sch k = pid ∧ k ∈ l.
Proof. unfold in_part. by rewrite list_elem_of_filter. Qed.

Lemma NoDup_fst {A B} (f : A → B) (l : list A) : NoDup (f <$> l) → NoDup l.
Proof. apply NoDup_fmap_1. Qed.

(** Distinct names tell elements apart. *)
Lemma NoDup_fmap_fst_unique {A B} (f : A → B) (l : list A) x y :
  NoDup (f <$> l) → x ∈ l → y ∈ l → f x = f y → x = y.
Proof.
  induction l as [|z l IH]; [by intros _ ?%elem_of_nil|]. rewrite fmap_cons, NoDup_cons.
  intros [Hz Hl] [->|Hx]%elem_of_cons [->|Hy]%elem_of_cons Hf; [done| | |by apply IH].
  - destruct Hz. rewrite Hf. by apply list_elem_of_fmap_2.
  - destruct Hz. rewrite <- Hf. by apply list_elem_of_fmap_2.
Qed.

(** Lists of keys with distinct names are permutations when they have the
    same elements. *)
Lemma keys_perm sch pid (l k : list (string * string * N)) :
  NoDup ((λ x, x.1.1) <$> l) → NoDup ((λ x, x.1.1) <$> k) →
  (∀ x, kpart sch x = pid → x ∈ l ↔ x ∈ k) → in_part sch pid l ≡ₚ in_part sch pid k.
Proof.
  intros Hl Hk Hx. apply NoDup_Permutation.
  - apply NoDup_filter. by eapply NoDup_fst.
  - apply NoDup_filter. by eapply NoDup_fst.
  - intros x. rewrite !elem_of_in_part. split; intros [Hp Hi]; (split; [done|]); by apply (Hx x Hp).
Qed.

(** ** The journaled parts against the listing *)
Lemma check_journaled_spec local parts tj present ds tj' :
  check_journaled local parts tj = (present, ds, tj') →
  tj_Parts tj' = tj_Parts tj ∧ tj_IncarnationSeq tj' = tj_IncarnationSeq tj ∧ tj_Copy tj' = tj_Copy tj ∧
  tj_Foreign tj' = tj_Foreign tj ∧
  (∀ p, p ∈ tj_Diverged tj' ↔ p ∈ tj_Diverged tj ∨ p ∈ ds) ∧
  (∀ jp, jp ∈ parts → jp_PartitionID jp ∉ tj_Diverged tj' → ∃ p, p ∈ local ∧ pkey p = jkey jp).
Proof.
  revert tj present ds tj'. induction parts as [|jp parts IH]; intros tj present ds tj'; cbn [check_journaled].
  { intros [= <- <- <-]. split_and!; try done; intros p; rewrite elem_of_nil; tauto. }
  assert (∀ present0 ds0,
    (let '(b, tj0) := markDiverged (jp_PartitionID jp) tj in
     let '(present, ds, tj1) := check_journaled local parts tj0 in
     (present, if (b : bool) then jp_PartitionID jp :: ds else ds, tj1)) = (present0, ds0, tj') →
    tj_Parts tj' = tj_Parts tj ∧ tj_IncarnationSeq tj' = tj_IncarnationSeq tj ∧ tj_Copy tj' = tj_Copy tj ∧
    tj_Foreign tj' = tj_Foreign tj ∧
    (∀ p, p ∈ tj_Diverged tj' ↔ p ∈ tj_Diverged tj ∨ p ∈ ds0) ∧
    (∀ jp', jp' ∈ jp :: parts → jp_PartitionID jp' ∉ tj_Diverged tj' → ∃ p, p ∈ local ∧ pkey p = jkey jp')) as Hmark.
  { intros present0 ds0. destruct (markDiverged _ tj) as [b tj0] eqn:Hm.
    apply markDiverged_spec in Hm as (Hp & Hi & Hc & Hf & Hd & Hb).
    destruct (check_journaled local parts tj0) as [[present1 ds1] tj1] eqn:Hck. intros [= <- <- <-].
    destruct (IH _ _ _ _ Hck) as (Hp1 & Hi1 & Hc1 & Hf1 & Hd1 & Hj1). split_and!; try congruence.
    - intros p. rewrite Hd1, Hd. destruct b; [rewrite elem_of_cons; tauto|].
      assert (jp_PartitionID jp ∈ tj_Diverged tj); [|naive_solver].
      destruct (decide (jp_PartitionID jp ∈ tj_Diverged tj)) as [|Hn]; [done|]. by apply Hb in Hn.
    - intros jp' [->|Hin]%elem_of_cons Hnd; [|by apply Hj1]. destruct Hnd. apply Hd1. left. apply Hd. by left. }
  destruct (list_find _ local) as [[n lp]|] eqn:Hf; [|apply Hmark].
  destruct (_ && _) eqn:Hsame; [|apply Hmark].
  destruct (check_journaled local parts tj) as [[present1 ds1] tj1] eqn:Hck. intros [= <- <- <-].
  destruct (IH _ _ _ _ Hck) as (Hp1 & Hi1 & Hc1 & Hf1 & Hd1 & Hj1). split_and!; try done.
  intros jp' [->|Hin]%elem_of_cons Hnd; [|by apply Hj1]. unbool.
  apply list_find_Some in Hf as (Hl & Hn & _). exists lp. split; [by eapply list_elem_of_lookup_2|].
  unfold pkey, jkey. congruence.
Qed.

(** ** Twins and candidates *)
Definition cand_of (sch : TableSchema) (scans : list Scan) (p : Part) : JournalPart :=
  mkJP (p_Name p) (LogicalPartitionID sch p) (scan_hash scans (p_Name p)) (p_PhysHash p) (p_Rows p).

Lemma split_twins_spec sch scans present l drop cands :
  split_twins sch scans present l = (drop, cands) →
  ∃ keep, cands = cand_of sch scans <$> keep ∧ drop ++ keep ≡ₚ l.
Proof.
  revert present drop cands. induction l as [|p l IH]; intros present drop cands; cbn [split_twins].
  { intros [= <- <-]. by exists []. }
  case_bool_decide.
  - destruct (split_twins sch scans present l) as [d cs] eqn:Hs. intros [= <- <-].
    destruct (IH _ _ _ Hs) as (keep & -> & Hp). exists keep. split; [done|]. simpl. by rewrite Hp.
  - destruct (split_twins sch scans _ l) as [d cs] eqn:Hs. intros [= <- <-].
    destruct (IH _ _ _ Hs) as (keep & -> & Hp). exists (p :: keep). split; [done|].
    by rewrite <- Permutation_middle, Hp.
Qed.

Lemma scan_hash_spec scans n (h : lthash) :
  n ∈ sc_PartName <$> scans → (∀ s, s ∈ scans → sc_PartName s = n → row_hash (sc_RowLtHash s) = Some h) →
  row_hash (scan_hash scans n) = Some h.
Proof.
  unfold scan_hash. intros Hn Hs.
  assert (∀ l (m : gmap string string), (∀ s, s ∈ l → s ∈ scans) →
    (∀ x, m !! n = Some x → row_hash x = Some h) → (n ∈ sc_PartName <$> l ∨ is_Some (m !! n)) →
    ∃ x, foldl (λ m s, <[sc_PartName s := sc_RowLtHash s]> m) m l !! n = Some x ∧ row_hash x = Some h) as Hgen.
  { induction l as [|s l IH]; intros m Hl Hm Hi; simpl.
    - destruct Hi as [Hi|[x Hx]]; [by apply elem_of_nil in Hi|]. eauto.
    - apply IH; [set_solver| |].
      + intros x. rewrite lookup_insert. case_decide as Hd; [|apply Hm]. intros [= <-]. apply Hs; [set_solver|done].
      + rewrite lookup_insert. case_decide as Hd; [by right; eauto|]. destruct Hi as [Hi|Hi]; [|by right].
        rewrite fmap_cons in Hi. apply elem_of_cons in Hi as [Hi|Hi]; [by subst|by left]. }
  destruct (Hgen scans ∅) as (x & -> & Hx); [done| |by left|done]. intros x. by rewrite lookup_empty.
Qed.

Lemma drop_twins_spec owner c l s s' :
  drop_twins cfg orc owner c l s = (Ok (), s') →
  live (st_ch s') ReplicaDB (c_Table c) =
    filter (λ p, p_Name p ∉ p_Name <$> l) (live (st_ch s) ReplicaDB (c_Table c)).
Proof.
  revert s. induction l as [|p l IH]; intros s Hs.
  { injection Hs as <-. rewrite filter_all; [done|].
    intros q _. rewrite fmap_nil. apply not_elem_of_nil. }
  cbn [drop_twins] in Hs. apply run_inv in Hs as [([] & s1 & H1 & Hs)|(e & _ & [=])].
  apply run_inv in Hs as [([] & s2 & H2 & Hs)|(e & _ & [=])].
  apply run_inv in Hs as [([] & s3 & H3 & Hs)|(e & _ & [=])]. rewrite (IH _ Hs).
  assert (live (st_ch s3) ReplicaDB (c_Table c) = live (st_ch s2) ReplicaDB (c_Table c)) as ->.
  { by injection H3 as <-. }
  apply run_inv in H2 as [([] & s4 & [= <-] & H2)|(e & _ & [=])]. unfold exec in H2.
  destruct (ch_exec _ _) as [[x|] w] eqn:Hx; simplify_eq. simpl in Hx |- *.
  apply m_drop_part in Hx. rewrite Hx.
  assert (live (st_ch s1) ReplicaDB (c_Table c) = live (st_ch s) ReplicaDB (c_Table c)) as ->.
  { unfold live. destruct (Leaves_check cfg orc [] _ _ _ _ _ H1) as (_ & _ & _ & Hp). rewrite Hp; [done|].
    apply not_elem_of_nil. }
  rewrite list_filter_filter. apply list_filter_iff. intros q. rewrite ?fmap_cons, not_elem_of_cons. tauto.
Qed.

Lemma Leaves_drop_twins owner c l : Leaves [c_Table c] (drop_twins cfg orc owner c l).
Proof.
  induction l as [|p l IH]; [apply Leaves_ret|]. cbn [drop_twins]. unfold countTwin.
  frame_with ltac:(apply Leaves_check || (by apply Leaves_alter) || exact IH).
Qed.

Lemma Leaves_reconcile owner c tj local : Leaves [c_Table c] (reconcileCopy cfg orc owner c tj local).
Proof.
  unfold reconcileCopy. destruct (check_journaled _ _ _) as [[present ds] tj']. apply Leaves_if; [frame|].
  apply Leaves_bind; [apply Leaves_scan|intros scans]. destruct (split_twins _ _ _ _) as [drop cands].
  frame_with ltac:(apply Leaves_drop_twins).
Qed.

(** A copy whose parts are all journaled is only read. *)
Lemma reconcile_reads owner c tj local s r s' :
  (∀ p, p ∈ local → p_Name p ∈ jp_Name <$> tj_Parts tj) →
  reconcileCopy cfg orc owner c tj local s = (r, s') → leaves [] s s'.
Proof.
  intros Hall. unfold reconcileCopy. destruct (check_journaled _ _ _) as [[present ds] tj'] eqn:Hck.
  apply check_journaled_spec in Hck as (Hp & _). rewrite Hp.
  rewrite bool_decide_eq_true_2; [by intros [= <- <-]|]. rewrite filter_none; [done|].
  intros p Hin Hn. by apply Hn, Hall.
Qed.
(** The copy's parts, by name, are the journaled parts, the dropped twins and
    the candidates; outside the Diverged partitions the copy then holds exactly
    the journaled parts and the candidates. *)
Lemma reconcile_elems sch (local after : list Part) (tj tj' : TableJournal) keep :
  NoDup (p_Name <$> local) → NoDup (p_Name <$> after) → tj_true sch tj →
  (∀ jp, jp ∈ tj_Parts tj → jp_PartitionID jp ∉ tj_Diverged tj' → ∃ p, p ∈ local ∧ pkey p = jkey jp) →
  (∀ p, p ∈ after ↔ p ∈ local ∧ (p_Name p ∈ jp_Name <$> tj_Parts tj ∨ p ∈ keep)) →
  NoDup ((λ x, x.1.1) <$> (tkeys tj ++ (pkey <$> keep))) →
  (∀ p, p ∈ keep → p ∈ local) →
  ∀ pid, pid ∉ tj_Diverged tj' →
    in_part sch pid (pkey <$> after) ≡ₚ in_part sch pid (tkeys tj ++ (pkey <$> keep)).
Proof.
  intros Hnl Hna [Htrue _] Hpres Haft Hnk Hk pid Hpid. apply keys_perm; [by rewrite <- list_fmap_compose|done|].
  assert (∀ p jp, p ∈ local → jp ∈ tj_Parts tj → jp_Name jp = p_Name p → kpart sch (pkey p) = pid → pkey p = jkey jp) as Hsame.
  { intros p jp Hp Hjp Hn Hpart. rewrite Forall_forall in Htrue. destruct (Htrue _ Hjp) as (_ & Hjpart & _).
    destruct (Hpres jp Hjp) as (q & Hq & Hqk).
    { rewrite Hjpart. unfold kpart in *. simpl in *. by rewrite Hn, Hpart. }
    assert (q = p) as <-; [|done]. injection Hqk as Hqn _ _.
    apply (NoDup_fmap_fst_unique _ _ _ _ Hnl Hq Hp). congruence. }
  intros x Hx. unfold tkeys. rewrite elem_of_app, !list_elem_of_fmap. split.
  - intros (p & -> & [Hp [(jp & Hn & Hjp)%list_elem_of_fmap|Hkp]]%Haft).
    + left. exists jp. split; [by apply Hsame|done].
    + right. eauto.
  - intros [(jp & -> & Hjp)|(p & -> & Hp)].
    + rewrite Forall_forall in Htrue. destruct (Htrue _ Hjp) as (_ & Hjpart & _).
      destruct (Hpres jp Hjp) as (q & Hq & Hqk); [by rewrite Hjpart, Hx|]. exists q. split; [done|].
      apply Haft. split; [done|]. left. apply list_elem_of_fmap. exists jp. split; [|done].
      injection Hqk as Hqn _ _. done.
    + exists p. split; [done|]. apply Haft. split; [by apply Hk|]. by right.
Qed.

Lemma reconcile_spec owner c tj s rec tj' s' :
  tj_true (c_Schema c) tj →
  reconcileCopy cfg orc owner c tj (live (st_ch s) ReplicaDB (c_Table c)) s = (Ok (rec, tj'), s') →
  tj_Parts tj' = tj_Parts tj ∧ tj_IncarnationSeq tj' = tj_IncarnationSeq tj ∧ tj_Copy tj' = tj_Copy tj ∧
  tj_Foreign tj' = tj_Foreign tj ∧
  (∀ p, p ∈ tj_Diverged tj' ↔ p ∈ tj_Diverged tj ∨ p ∈ rec_diverged rec) ∧
  rec_local rec = live (st_ch s') ReplicaDB (c_Table c) ∧
  Forall (true_part (c_Schema c)) (rec_candidates rec) ∧
  NoDup (jp_Name <$> (tj_Parts tj ++ rec_candidates rec)) ∧
  (∀ pid, pid ∉ tj_Diverged tj' → in_part (c_Schema c) pid (pkey <$> rec_local rec) ≡ₚ
     in_part (c_Schema c) pid (tkeys tj ++ (jkey <$> rec_candidates rec))).
Proof.
  intros Htrue. unfold reconcileCopy.
  set (local := live (st_ch s) ReplicaDB (c_Table c)).
  destruct (check_journaled _ _ _) as [[present ds] tj1] eqn:Hck.
  apply check_journaled_spec in Hck as (Hp & Hi & Hc & Hf & Hd & Hpres). rewrite Hp.
  assert (NoDup (p_Name <$> local)) as Hnl by (apply live_names; by left).
  set (un := filter (λ p, p_Name p ∉ jp_Name <$> tj_Parts tj) local).
  case_bool_decide as Hun.
  { intros [= <- <- <-]. simpl. split_and!; try done; [rewrite app_nil_r; apply Htrue|].
    apply (reconcile_elems (c_Schema c) local local tj tj1 []); try done.
    - intros p. split; [|tauto]. intros Hin. split; [done|]. left.
      destruct (decide (p_Name p ∈ jp_Name <$> tj_Parts tj)) as [|Hn]; [done|].
      assert (p ∈ un) as Hpu by (by apply list_elem_of_filter). destruct un; [by apply elem_of_nil in Hpu|done].
    - rewrite app_nil_r. unfold tkeys. rewrite <- list_fmap_compose. apply Htrue.
    - by intros p ?%elem_of_nil. }
  intros Hs. apply run_inv in Hs as [(scans & s1 & Hq & Hs)|(e & _ & [=])].
  unfold query in Hq. destruct (ch_scan _ _ _ _ _) as [[scans'|] w] eqn:Hsc; simplify_eq/=.
  apply m_scan in Hsc as [Hcalm Hscans]. destruct (Hscans _ eq_refl) as [Hnames Hhash]. clear Hscans.
  destruct (split_twins _ _ _ _) as [drop cands] eqn:Hsplit.
  apply split_twins_spec in Hsplit as (keep & -> & Hperm).
  apply run_inv in Hs as [([] & s2 & Hdrop & [= <- <- <-])|(e & _ & [=])]. simpl.
  apply drop_twins_spec in Hdrop. simpl in Hdrop.
  assert (live w ReplicaDB (c_Table c) = local) as Hlw.
  { unfold local, live. rewrite (Hcalm ReplicaDB); [done|by left]. }
  rewrite Hlw in Hdrop.
  assert (drop ++ keep ≡ₚ un) as Hdk by (rewrite Hperm; apply merge_sort_Permutation).
  assert (∀ p, p ∈ drop ++ keep ↔ p ∈ local ∧ p_Name p ∉ jp_Name <$> tj_Parts tj) as Hun'.
  { intros p. rewrite Hdk. unfold un. rewrite list_elem_of_filter. tauto. }
  assert (NoDup (p_Name <$> (drop ++ keep))) as Hndk.
  { rewrite Hdk. by apply NoDup_fmap_filter. }
  assert (jkey <$> (cand_of (c_Schema c) scans <$> keep) = pkey <$> keep) as Hck.
  { by rewrite <- list_fmap_compose. }
  assert (jp_Name <$> (cand_of (c_Schema c) scans <$> keep) = p_Name <$> keep) as Hcn.
  { by rewrite <- list_fmap_compose. }
  assert (NoDup (jp_Name <$> (tj_Parts tj ++ (cand_of (c_Schema c) scans <$> keep)))) as Hnall.
  { rewrite fmap_app, Hcn. apply NoDup_app. rewrite fmap_app, NoDup_app in Hndk. split_and!; [apply Htrue| |apply Hndk].
    intros n Hn (p & -> & Hpk)%list_elem_of_fmap. destruct (Hun' p) as [Hu _].
    destruct Hu as [_ Hu]; [apply elem_of_app; by right|done]. }
  split_and!; try done.
  - apply Forall_fmap, Forall_forall. intros p Hpk. destruct (Hun' p) as [Hu _].
    destruct Hu as [Hloc Hnj]; [apply elem_of_app; by right|].
    unfold true_part. simpl. split_and!.
    + unfold khash, jkey. simpl. apply scan_hash_spec.
      * rewrite Hnames. unfold partNames. rewrite elem_of_sort_strings. apply list_elem_of_fmap_2.
        unfold un. by apply list_elem_of_filter.
      * intros sc Hsc Hn. apply (Hhash sc p Hsc); [|done]. by apply live_elem in Hloc as [_ ?].
    + unfold jkey. simpl. symmetry. apply (kpart_live (st_ch s) ReplicaDB (c_Table c)); [by left|done].
    + by apply live_elem in Hloc as [? _].
  - rewrite Hck. apply (reconcile_elems _ local _ tj); try done.
    + rewrite <- Hdrop. apply live_names. by left.
    + intros p. rewrite list_elem_of_filter. split.
      * intros [Hnd Hloc]. split; [done|].
        destruct (decide (p_Name p ∈ jp_Name <$> tj_Parts tj)) as [|Hnj]; [by left|right].
        pose proof (proj2 (Hun' p) (conj Hloc Hnj)) as [Hin|Hin]%elem_of_app; [|done].
        destruct Hnd. by apply list_elem_of_fmap_2.
      * intros [Hloc Hor]. split; [|done]. intros (q & Hq & Hqd)%list_elem_of_fmap.
        destruct Hor as [Hj|Hk].
        -- destruct (Hun' q) as [Hu _]. destruct Hu as [_ Hu]; [apply elem_of_app; by left|]. congruence.
        -- rewrite fmap_app, NoDup_app in Hndk. destruct Hndk as (_ & Hdis & _).
           apply (Hdis (p_Name p)); [rewrite Hq|]; by apply list_elem_of_fmap_2.
    + rewrite <- Hck. unfold tkeys. rewrite <- fmap_app, <- list_fmap_compose. done.
    + intros p Hpk. apply Hun', elem_of_app. by right.
Qed.

(** ** Adoption *)
Lemma adopt_spec mparts cands tj marks tj' :
  adopt mparts cands tj = (marks, tj') →
  ∃ adopted, tj_Parts tj' ≡ₚ tj_Parts tj ++ adopted ∧ sublist adopted cands ∧
    tj_IncarnationSeq tj' = tj_IncarnationSeq tj ∧ tj_Copy tj' = tj_Copy tj ∧ tj_Foreign tj' = tj_Foreign tj ∧
    (∀ p, p ∈ tj_Diverged tj' ↔ p ∈ tj_Diverged tj ∨ p ∈ marks) ∧
    (∀ jp, jp ∈ cands → jp_PartitionID jp ∉ tj_Diverged tj' → jp ∈ adopted).
Proof.
  revert tj marks tj'. induction cands as [|cand cands IH]; intros tj marks tj'; cbn [adopt].
  { intros [= <- <-]. exists []. rewrite app_nil_r.
    split_and!; try done; intros p; rewrite elem_of_nil; tauto. }
  unfold isDiverged. case_bool_decide as Hdiv.
  { intros Ha. destruct (IH _ _ _ Ha) as (ad & Hp & Hsub & Hi & Hc & Hf & Hd & Hall). exists ad.
    split_and!; try done; [by apply sublist_cons|].
    intros jp [->|Hin]%elem_of_cons Hn; [|by apply Hall]. destruct Hn. apply Hd. by left. }
  case_bool_decide as Hneed.
  { intros Ha. destruct (IH _ _ _ Ha) as (ad & Hp & Hsub & Hi & Hc & Hf & Hd & Hall). exists (cand :: ad).
    split_and!; try done; [|by apply sublist_skip|].
    - rewrite Hp. simpl. rewrite sortJournalParts_perm. by rewrite <- app_assoc.
    - intros jp [->|Hin]%elem_of_cons Hn; [constructor|]. constructor. by apply Hall. }
  destruct (markDiverged _ tj) as [b tj1] eqn:Hm. apply markDiverged_spec in Hm as (Hp1 & Hi1 & Hc1 & Hf1 & Hd1 & Hb).
  destruct (adopt mparts cands tj1) as [ms tj2] eqn:Ha. intros [= <- <-].
  destruct (IH _ _ _ Ha) as (ad & Hp & Hsub & Hi & Hc & Hf & Hd & Hall). exists ad.
  rewrite Hp1 in Hp. split_and!; try done; try congruence; [by apply sublist_cons| |].
  - rewrite (proj2 Hb Hdiv). intros p. rewrite Hd, Hd1, elem_of_cons. tauto.
  - intros jp [->|Hin]%elem_of_cons Hn; [|by apply Hall]. destruct Hn. apply Hd. left. apply Hd1. by left.
Qed.

(** After adoption the working journal is true and lists, outside the Diverged
    partitions, exactly what the copy holds. *)
Lemma adopted_agrees sch mparts cands tj marks tj' keys :
  adopt mparts cands tj = (marks, tj') → Forall (true_part sch) (tj_Parts tj ++ cands) →
  NoDup (jp_Name <$> (tj_Parts tj ++ cands)) →
  (∀ pid, pid ∉ tj_Diverged tj → in_part sch pid keys ≡ₚ in_part sch pid (tkeys tj ++ (jkey <$> cands))) →
  tj_true sch tj' ∧ ∀ pid, pid ∉ tj_Diverged tj' → in_part sch pid keys ≡ₚ in_part sch pid (tkeys tj').
Proof.
  intros Ha Ht Hn Hk. destruct (adopt_spec _ _ _ _ _ Ha) as (ad & Hp & Hsub & _ & _ & _ & Hd & Hall).
  assert (sublist (tj_Parts tj ++ ad) (tj_Parts tj ++ cands)) as Hs by (by apply sublist_app).
  assert (NoDup (jp_Name <$> (tj_Parts tj ++ ad))) as Hn'.
  { rewrite fmap_app in Hn |- *. apply NoDup_app in Hn as (Hn1 & Hdis & Hn2). apply NoDup_app. split_and!; [done| |].
    - intros n Hin (jp & -> & Hjp)%list_elem_of_fmap. apply (Hdis _ Hin), list_elem_of_fmap_2. by eapply sublist_subseteq.
    - eapply sublist_NoDup; [exact Hn2|]. clear -Hsub. induction Hsub; simpl; [done|by apply sublist_skip|by apply sublist_cons]. }
  split.
  - split; [|by rewrite Hp]. rewrite Hp. rewrite Forall_forall in Ht |- *. intros jp Hjp. apply Ht.
    by eapply sublist_subseteq.
  - intros pid Hpid. rewrite Hk by (intros Hin; apply Hpid, Hd; by left). unfold tkeys. rewrite Hp, fmap_app.
    apply keys_perm; [by rewrite <- fmap_app, <- list_fmap_compose..|].
    intros x Hx. rewrite !elem_of_app, !list_elem_of_fmap. split; [|intros [?|(jp & -> & Hjp)]; [by left|]].
    + intros [?|(jp & -> & Hjp)]; [by left|]. right. exists jp. split; [done|]. apply Hall; [done|].
      rewrite Forall_forall in Ht. destruct (Ht jp) as (_ & -> & _); [apply elem_of_app; by right|]. by rewrite Hx.
    + right. exists jp. split; [done|]. by eapply sublist_subseteq.
Qed.

(** ** The plan *)

(** The partition's rows in the journal sum to its root. *)
Definition sums_to (hashes : list string) (root : string) : Prop :=
  ∃ hs, mapM row_hash hashes = Some hs ∧ row_hash root = Some (lt_sum hs).

Definition root_of (roots : gmap string string) (id : string) : string := default zeroRoot (roots !! id).

(** A planned job, before its fetches. *)
Definition planned (roots : gmap string string) (tj tj' : TableJournal) (job : partitionJob) : Prop :=
  job_root job = root_of roots (job_id job) ∧ job_kept job = [] ∧ job_scratches job = [] ∧
  (job_repair job = true ↔ job_id job ∈ tj_Diverged tj') ∧
  job_local job = if job_repair job then [] else partitionHashes tj (job_id job).

Lemma plan_one_spec mparts roots id tj jobs marks tj' :
  plan_one mparts roots id tj = Ok (jobs, marks, tj') →
  tj_Parts tj' = tj_Parts tj ∧ tj_IncarnationSeq tj' = tj_IncarnationSeq tj ∧ tj_Copy tj' = tj_Copy tj ∧
  tj_Foreign tj' = tj_Foreign tj ∧
  (∀ p, p ∈ tj_Diverged tj' ↔ p ∈ tj_Diverged tj ∨ p ∈ marks) ∧ (∀ p, (p ∈ marks → p = id)) ∧
  ((∃ job, jobs = [job] ∧ job_id job = id ∧ planned roots tj tj' job) ∨
   (jobs = [] ∧ (id ∉ tj_Diverged tj') ∧ sums_to (partitionHashes tj id) (root_of roots id))).
Proof.
  unfold plan_one. intros (plan & Hplan%rwrap_ok & Hp)%rbind_ok.
  destruct (isDiverged tj id) eqn:Hdiv; unfold isDiverged in Hdiv; unbool.
  { injection Hp as <- <- <-. split_and!; try done; try (intros p; rewrite elem_of_nil; tauto).
    left. eexists. split; [done|]. split; [done|]. by split_and!. }
  destruct (Diverged plan) eqn:Hpd.
  { destruct (markDiverged id tj) as [b tj1] eqn:Hm. apply markDiverged_spec in Hm as (Hp1 & Hi1 & Hc1 & Hf1 & Hd1 & _).
    injection Hp as <- <- <-. simpl. split_and!; try done.
    - intros p. rewrite Hd1, list_elem_of_singleton. tauto.
    - intros p. by rewrite list_elem_of_singleton.
    - left. eexists. split; [done|]. split; [done|]. split_and!; try done. simpl. split; [|done].
      intros _. apply Hd1. by left. }
  case_bool_decide as Hneed; injection Hp as <- <- <-.
  - split_and!; try done; try (intros p; rewrite elem_of_nil; tauto). right. split_and!; try done.
    destruct (PlanPartition_inv _ _ _ _ Hplan) as (Ms & L & r & HM & Hr & HL & Hsum & _ & Hd).
    rewrite Hpd in Hd. destruct Hd as [Hperm _]. exists L. split; [done|]. unfold root_of. rewrite Hr, <- Hsum. f_equal.
    destruct (Need plan); [|done]. rewrite app_nil_r in Hperm.
    destruct (canon_perm_read _ _ Hperm) as (ys & Hys & _ & Hmy). rewrite mapM_canon in Hys. injection Hys as <-.
    by rewrite Hmy.
  - split_and!; try done; try (intros p; rewrite elem_of_nil; tauto). left. eexists. split; [done|]. split; [done|].
    by split_and!.
Qed.

Lemma plan_loop_spec mparts roots ids tj jobs marks tj' :
  NoDup ids → plan_loop mparts roots ids tj = (jobs, marks, tj', None) →
  tj_Parts tj' = tj_Parts tj ∧ tj_IncarnationSeq tj' = tj_IncarnationSeq tj ∧ tj_Copy tj' = tj_Copy tj ∧
  tj_Foreign tj' = tj_Foreign tj ∧
  (∀ p, p ∈ tj_Diverged tj' ↔ p ∈ tj_Diverged tj ∨ p ∈ marks) ∧ (∀ p, p ∈ marks → p ∈ ids) ∧
  NoDup (job_id <$> jobs) ∧ (∀ job, job ∈ jobs → job_id job ∈ ids ∧ planned roots tj tj' job) ∧
  (∀ id, id ∈ ids → id ∉ job_id <$> jobs →
     (id ∉ tj_Diverged tj') ∧ sums_to (partitionHashes tj id) (root_of roots id)).
Proof.
  revert tj jobs marks tj'. induction ids as [|id ids IH]; intros tj jobs marks tj' Hnd; cbn [plan_loop].
  { intros [= <- <- <-]. split_and!; try done; try (intros p; rewrite elem_of_nil; tauto); try constructor;
      by intros ? ?%elem_of_nil. }
  apply NoDup_cons in Hnd as [Hid Hnd].
  destruct (plan_one mparts roots id tj) as [[[jobs1 marks1] tj1]|e] eqn:H1; [|done].
  destruct (plan_loop mparts roots ids tj1) as [[[jobs2 marks2] tj2] err] eqn:H2. intros [= <- <- <- ->].
  apply plan_one_spec in H1 as (Hp1 & Hi1 & Hc1 & Hf1 & Hd1 & Hm1 & Hj1).
  destruct (IH _ _ _ _ Hnd H2) as (Hp2 & Hi2 & Hc2 & Hf2 & Hd2 & Hm2 & Hnd2 & Hj2 & Hno2).
  assert (∀ x, partitionHashes tj1 x = partitionHashes tj x) as Hph by (intros x; unfold partitionHashes; by rewrite Hp1).
  assert (id ∈ tj_Diverged tj2 ↔ id ∈ tj_Diverged tj1) as Hdid.
  { rewrite Hd2. split; [|tauto]. intros [?|Hin]; [done|]. by apply Hm2 in Hin. }
  assert (∀ job, job ∈ jobs2 → job_id job ≠ id) as Hne by (intros job Hin Heq; destruct (Hj2 job Hin) as [Hin' _]; by rewrite Heq in Hin').
  split_and!; try congruence.
  - intros p. rewrite Hd2, Hd1, elem_of_app. tauto.
  - intros p [Hin|Hin]%elem_of_app; [apply Hm1 in Hin as ->; constructor|]. constructor. by apply Hm2.
  - rewrite fmap_app. apply NoDup_app. destruct Hj1 as [(job & -> & <- & _)|(-> & _)].
    + split_and!; [apply NoDup_singleton| |done]. intros x ->%list_elem_of_singleton (j & Hj & Hin)%list_elem_of_fmap.
      by apply (Hne j).
    + split_and!; [constructor| |done]. by intros x ?%elem_of_nil.
  - intros job [Hin|Hin]%elem_of_app.
    + destruct Hj1 as [(job1 & -> & Hji & Hpl)|(-> & _)]; [|by apply elem_of_nil in Hin].
      apply list_elem_of_singleton in Hin as ->. split; [rewrite Hji; constructor|].
      destruct Hpl as (? & ? & ? & Hr & ?). split_and!; try done. by rewrite Hr, Hji, Hdid.
    + destruct (Hj2 _ Hin) as [Hi' (? & ? & ? & ? & Hl)]. split; [by constructor|]. rewrite Hph in Hl. by split_and!.
  - intros x [->|Hx]%elem_of_cons Hnj; rewrite fmap_app, not_elem_of_app in Hnj; destruct Hnj as [Hnj1 Hnj2].
    + destruct Hj1 as [(job1 & -> & Hji & _)|(-> & Hnd1 & Hs)]; [|by rewrite Hdid].
      destruct Hnj1. rewrite <- Hji. constructor.
    + destruct (Hno2 x Hx Hnj2) as [? Hs]. by rewrite Hph in Hs.
Qed.
End reconcile.
