(* ===== verification/InstallPass.v ===== *)
(** * One install pass over a copy

    What planning, fetching, verifying, committing and journaling establish, in
    the order of applyOwner: after a pass that succeeded, every partition of the
    copy holds rows that sum to the manifest's root, the copy's partitions are
    the manifest's, and the new journal lists exactly the copy's parts. *)
From S2P Require Import Prelude LtHash Types Gate Registry ClickHouse InstallJournal Installer InstallLaws InstallReconcile.
Import InstallJournal Installer Gate.Gate.

Section pass.
Context `{CH : ClickHouse, RS : RowSum, MS : !MemberServer, ML : !MemberLaws}.
Context `{LL : !LtHashLaws, RL : !RowSumLaws}.
Context (cfg : Config) (orc : Oracle).

(** ** Listings read the live parts *)
Lemma nonEmpty_spec d t s r s' : member_db d → nonEmptyParts d t s = (r, s') →
  calm (st_ch s) (st_ch s') ∧ ∀ ps, r = Ok ps → ps = live (st_ch s) d t.
Proof.
  intros Hd Hs. unfold nonEmptyParts in Hs. unfold mbind, M_bind, query in Hs.
  destruct (ch_active d t (st_ch s)) as [o w] eqn:Ha. destruct (m_active _ _ _ _ _ Ha Hd) as [Hc Hps].
  destruct o as [ps|]; simpl in Hs; injection Hs as <- <-; (split; [done|]); intros ps' [= <-].
  unfold live. by rewrite (Hps ps).
Qed.

Lemma calm_live w w' d t : member_db d → calm w w' → live w' d t = live w d t.
Proof. intros Hd Hc. unfold live. by rewrite Hc. Qed.

Lemma leaves_live X s s' t : leaves X s s' → t ∉ X → live (st_ch s') ReplicaDB t = live (st_ch s) ReplicaDB t.
Proof. intros (_ & _ & _ & Hp) Ht. unfold live. by rewrite Hp. Qed.

(** ** The parts a fetch kept *)
Definition kept_true (k : keptPart) : Prop := row_hash (k_rowHash k) = Some (rows_of (k_physHash k) (k_rows k)).

Lemma drop_parts_live scratch l s r s' p :
  drop_parts scratch l s = (r, s') → p ∈ live (st_ch s') StageDB scratch → p ∈ live (st_ch s) StageDB scratch.
Proof.
  revert s. induction l as [|n l IH]; intros s Hs; [by injection Hs as <- <-|]. cbn [drop_parts] in Hs.
  assert (∀ x s1, exec (DropPart StageDB scratch n) s = (x, s1) →
    p ∈ live (st_ch s1) StageDB scratch → p ∈ live (st_ch s) StageDB scratch) as Hone.
  { intros x s1 Hx. unfold exec in Hx. destruct (ch_exec _ _) as [e w] eqn:He. simplify_eq. simpl.
    by apply (m_stage_drop _ _ _ _ _ _ He). }
  apply run_inv in Hs as [(? & s1 & H1 & Hs)|(e & H1 & _)]; [|by apply (Hone _ _ H1)].
  intros Hp. by eapply Hone, IH.
Qed.

Lemma kept_of_true scratch src sch scans w p :
  sc_PartName <$> scans ≡ₚ p_Name <$> live w StageDB scratch →
  (∀ s q, s ∈ scans → q ∈ parts_of w StageDB scratch → p_Name q = sc_PartName s →
     row_hash (sc_RowLtHash s) = Some (rows_of (p_PhysHash q) (p_Rows q)) ∧ sc_RowCount s = p_Rows q) →
  p ∈ live w StageDB scratch → kept_true (kept_of scratch src sch scans p).
Proof.
  intros Hn Hh Hp. unfold kept_of, kept_true. cbn zeta.
  assert (p_Name p ∈ sc_PartName <$> scans) as Hin by (rewrite Hn; by apply list_elem_of_fmap_2).
  assert (∀ l (m : gmap string Scan), (∀ s, s ∈ l → s ∈ scans) →
    (∀ x, m !! p_Name p = Some x → x ∈ scans ∧ sc_PartName x = p_Name p) →
    (p_Name p ∈ sc_PartName <$> l ∨ is_Some (m !! p_Name p)) →
    ∃ x, foldl (λ m s, <[sc_PartName s := s]> m) m l !! p_Name p = Some x ∧ x ∈ scans ∧ sc_PartName x = p_Name p) as Hgen.
  { clear Hin Hp. induction l as [|s l IH]; intros m Hl Hm Hi; simpl.
    - destruct Hi as [Hi|[x Hx]]; [by apply elem_of_nil in Hi|]. eauto.
    - apply IH; [set_solver| |].
      + intros x. rewrite lookup_insert. case_decide as Hd; [|apply Hm]. intros [= <-]. split; [set_solver|done].
      + rewrite lookup_insert. case_decide as Hd; [by right; eauto|]. destruct Hi as [Hi|Hi]; [|by right].
        rewrite fmap_cons in Hi. apply elem_of_cons in Hi as [Hi|Hi]; [by subst|by left]. }
  destruct (Hgen scans ∅) as (x & -> & Hx & Hxn); [done| |by left|]. { intros x. by rewrite lookup_empty. }
  simpl. destruct (Hh x p Hx) as [-> ->]; [by apply live_elem in Hp as [_ ?]|done|done].
Qed.

Lemma classify_kept src c scratch sn rem s o kept s' :
  classify src c scratch sn rem s = (Ok (o, kept), s') → Forall kept_true kept.
Proof.
  unfold classify. intros Hs. apply run_inv in Hs as [(scans & s1 & Hq & Hs)|(e & _ & [=])].
  unfold query in Hq. destruct (ch_scan_all _ _ _ _) as [[scans'|] w] eqn:Hsc; simplify_eq/=.
  apply m_scan_all in Hsc as [Hcalm Hscans]. destruct (Hscans _ eq_refl) as [Hn Hh]. clear Hscans.
  apply run_inv in Hs as [(cls & s2 & [= Hcl <-] & Hs)|(e & _ & [=])].
  case_bool_decide; [by injection Hs as _ <- _|].
  apply run_inv in Hs as [([] & s3 & Hd & Hs)|(e & _ & [=])].
  apply run_inv in Hs as [(listed & s4 & Hl & Hs)|(e & _ & [=])].
  destruct (nonEmpty_spec _ _ _ _ _ (or_intror eq_refl) Hl) as [_ Hls]. specialize (Hls _ eq_refl). subst listed.
  case_bool_decide; [by injection Hs|]. injection Hs as _ <- _.
  apply Forall_fmap, Forall_forall. intros p Hp. simpl. apply (kept_of_true _ _ _ _ (st_ch s)); [done..|].
  apply (drop_parts_live _ _ _ _ _ _ Hd) in Hp. simpl in Hp. by rewrite (calm_live (st_ch s)) in Hp by (done || by right).
Qed.

Definition tried_true (t : tried) : Prop := match t with TKept _ kept => Forall kept_true kept | _ => True end.

Lemma try_source_kept owner c dkey sn rem src n s t s' :
  try_source cfg orc owner c dkey sn rem src n s = (Ok t, s') → tried_true t.
Proof.
  unfold try_source. intros Hs.
  apply run_inv in Hs as [(scratch & s1 & _ & Hs)|(e & _ & [=])].
  apply run_inv in Hs as [(res & s2 & _ & Hs)|(e & _ & [=])].
  apply run_inv in Hs as [(ended & s3 & _ & Hs)|(e & _ & [=])].
  destruct ended. { apply run_inv in Hs as [(? & ? & _ & [=])|(e & _ & [=])]. }
  destruct (_ || _).
  { apply run_inv in Hs as [(? & ? & _ & Hs)|(e & _ & [=])].
    apply run_inv in Hs as [(? & ? & _ & [= <- _])|(e & _ & [=])]. done. }
  apply run_inv in Hs as [(r & s4 & Hc & Hs)|(e & _ & [=])].
  unfold attempt in Hc. destruct (classify _ _ _ _ _ _) as [x s5] eqn:Hcl. injection Hc as <- <-.
  destruct x as [[[] kept]|e].
  1: destruct kept as [|k kept].
  2: { apply classify_kept in Hcl. apply run_inv in Hs as [(? & ? & _ & Hs)|(e & _ & [=])].
       apply run_inv in Hs as [(? & ? & _ & [= <- _])|(e & _ & [=])]. done. }
  all: repeat (apply run_inv in Hs as [(? & ? & _ & Hs)|(? & _ & [=])]); try discriminate Hs.
  all: injection Hs as Ht _; rewrite <- Ht; clear Hcl; by repeat case_match.
Qed.

Lemma try_sources_kept owner c dkey sn rem srcs res s t s' :
  try_sources cfg orc owner c dkey sn rem srcs res s = (Ok (inr t), s') → tried_true t.
Proof.
  revert res s. induction srcs as [|src srcs IH]; intros res s Hs; [by injection Hs|]. cbn [try_sources] in Hs.
  apply run_inv in Hs as [(t1 & s1 & H1 & Hs)|(e & _ & [=])]. apply try_source_kept in H1.
  destruct t1; try (by injection Hs as <- _); [by eapply IH|].
  apply run_inv in Hs as [(t2 & s2 & H2 & Hs)|(e & _ & [=])]. apply try_source_kept in H2.
  destruct t2; try (by injection Hs as <- _); by eapply IH.
Qed.

Lemma fetchPart_kept owner c need rem s scratch kept s' :
  fetchPart cfg orc owner c need rem s = (Ok (inl (scratch, kept)), s') → Forall kept_true kept.
Proof.
  unfold fetchPart. intros Hs. apply run_inv in Hs as [(b & s1 & _ & Hs)|(e & _ & [=])].
  apply run_inv in Hs as [(now & s2 & _ & Hs)|(e & _ & [=])].
  match type of Hs with (if ?x then _ else _) _ = _ => destruct x; [done|] end.
  apply run_inv in Hs as [(srcs & s3 & _ & Hs)|(e & _ & [=])].
  apply run_inv in Hs as [(r & s4 & Ht & Hs)|(e & _ & [=])].
  destruct r as [res|[]]; try done. injection Hs as <- <- _. by apply try_sources_kept in Ht.
Qed.

(** A job with its fetches: the plan's fields are as planned. *)
Definition fetched (job job' : partitionJob) : Prop :=
  job_id job' = job_id job ∧ job_root job' = job_root job ∧ job_local job' = job_local job ∧
  job_repair job' = job_repair job ∧ (Forall kept_true (job_kept job) → Forall kept_true (job_kept job')).

Lemma fetchNeeds_spec owner c needs rem job s job' foreign s' :
  fetchNeeds cfg orc owner c needs rem job s = (Ok (job', foreign, None), s') →
  fetched job job' ∧ ∀ X, leaves X s s'.
Proof.
  revert rem job s. induction needs as [|need needs IH]; intros rem job s; cbn [fetchNeeds].
  { intros [= <- _ <-]. by split. }
  case_bool_decide; [apply IH|]. intros Hs.
  apply run_inv in Hs as [(r & s1 & Hr & Hs)|(e & _ & [=])]. unfold attempt in Hr.
  destruct (fetchPart _ _ _ _ _ _ _) as [x s2] eqn:Hf. injection Hr as <- <-.
  destruct x as [[[scratch kept]|scratch]|e]; [| |by injection Hs].
  - destruct (IH _ _ _ Hs) as [(Hi & Hr & Hl & Hrep & Hk) Hlv]. split.
    + split_and!; try done. intros Hall. apply Hk. simpl. apply Forall_app_2; [done|]. by apply fetchPart_kept in Hf.
    + intros X. etrans; [by eapply Leaves_fetchPart|apply Hlv].
  - apply run_inv in Hs as [(? & ? & _ & [=])|(e & _ & [=])].
Qed.

Lemma fetchJobs_spec owner c jobs s jobs' foreign s' :
  fetchJobs cfg orc owner c jobs s = (Ok (jobs', foreign, None), s') →
  Forall2 fetched jobs jobs' ∧ ∀ X, leaves X s s'.
Proof.
  revert s jobs' foreign. induction jobs as [|job jobs IH]; intros s jobs' foreign; cbn [fetchJobs].
  { intros [= <- _ <-]. by split; [constructor|]. }
  intros Hs. apply run_inv in Hs as [([[job1 f1] e1] & s1 & H1 & Hs)|(e & _ & [=])].
  destruct e1; [by injection Hs|].
  apply run_inv in Hs as [([[jobs2 f2] e2] & s2 & H2 & [= <- _ -> <-])|(e & _ & [=])].
  apply fetchNeeds_spec in H1 as [Hj Hl]. destruct (IH _ _ _ H2) as [Hjs Hl2]. split; [by constructor|].
  intros X. etrans; [apply Hl|apply Hl2].
Qed.

(** ** A prepared pass *)
Record pass_ok (tm : option TableManifest) (w : chs) (p : tablePass) : Prop := mkPassOk {
  po_local : tp_local p = live w ReplicaDB (c_Table (tp_copy p));
  po_true : tj_true (c_Schema (tp_copy p)) (tp_journal p);
  po_copy : same_copy (tp_copy p) (tp_journal p) = true;
  po_foreign : tj_Foreign (tp_journal p) = false;
  po_agree pid : pid ∉ tj_Diverged (tp_journal p) →
    in_part (c_Schema (tp_copy p)) pid (pkey <$> tp_local p) ≡ₚ
    in_part (c_Schema (tp_copy p)) pid (tkeys (tp_journal p));
  po_nodup : NoDup (job_id <$> tp_jobs p);
  po_job job : job ∈ tp_jobs p →
    job_root job = root_of (manifest_roots tm) (job_id job) ∧ Forall kept_true (job_kept job) ∧
    (job_repair job = true ↔ job_id job ∈ tj_Diverged (tp_journal p)) ∧
    job_local job = if job_repair job then [] else partitionHashes (tp_journal p) (job_id job);
  po_repair pid : pid ∈ tj_Diverged (tp_journal p) → pid ∈ job_id <$> tp_jobs p;
  po_closed pid : pid ∈ dom (manifest_parts tm) → pid ∉ job_id <$> tp_jobs p →
    sums_to (partitionHashes (tp_journal p) pid) (root_of (manifest_roots tm) pid);
  po_set pid : pid ∈ tp_manifestPartitions p ↔ pid ∈ dom (manifest_parts tm) }.



Lemma update_ch fn s r s' : update orc fn s = (r, s') → st_ch s' = st_ch s.
Proof. unfold update. destruct (fn _); [|by intros [= _ <-]]. destruct (writeJournal _ _ _). by intros [= _ <-]. Qed.

Lemma repeat_book_ch n f s r s' : repeat_M n (book f) s = (r, s') → st_ch s' = st_ch s.
Proof.
  revert s. induction n as [|n IH]; intros s; [by intros [= _ <-]|]. cbn [repeat_M].
  intros [(? & s1 & [= _ <-] & Hs)|(e & [=] & _)]%run_inv. by rewrite (IH _ Hs).
Qed.

Lemma persistDiverged_ch owner c l s r s' : persistDiverged orc owner c l s = (r, s') → st_ch s' = st_ch s.
Proof.
  unfold persistDiverged. case_bool_decide; [by intros [= _ <-]|].
  intros [(i & s1 & [= <- <-] & Hs)|(e & [=] & _)]%run_inv.
  apply run_inv in Hs as [(x & s2 & (y & Hu & _)%try_inv & Hs)|(e & (? & _ & [=])%try_inv & _)].
  apply update_ch in Hu. rewrite <- Hu.
  apply run_inv in Hs as [(? & s3 & Hr & [= _ <-])|(e & Hr & _)]; by apply repeat_book_ch in Hr.
Qed.

Lemma prepare_plan_ok owner c tm s p s' :
  tj_true (c_Schema c) (tableJournal (st_i s) owner c) → tj_Foreign (tableJournal (st_i s) owner c) = false →
  prepare_plan cfg orc owner c tm s = (Ok p, s') →
  tp_copy p = c ∧ pass_ok tm (st_ch s') p.
Proof.
  unfold prepare_plan. intros Htrue Hfor Hs.
  match type of Hs with (if ?x then _ else _) _ = _ => destruct x; [done|] end.
  apply run_ok in Hs as (i & s0 & [= <- <-] & Hs). apply run_ok in Hs as (local & s1 & Hl & Hs).
  destruct (nonEmpty_spec _ _ _ _ _ (or_introl eq_refl) Hl) as [Hcalm Hloc]. specialize (Hloc _ eq_refl). subst local.
  apply run_ok in Hs as ([rec tj1] & s2 & Hrec & Hs).
  rewrite <- (calm_live _ _ ReplicaDB (c_Table c) (or_introl eq_refl) Hcalm) in Hrec.
  destruct (reconcile_spec _ _ _ _ _ _ _ _ _ Htrue Hrec) as (Hp1 & Hi1 & Hc1 & Hf1 & Hd1 & Hl1 & Hct & Hcn & Hag).
  destruct (adopt _ _ _) as [marks tj2] eqn:Had.
  destruct (adopt_spec _ _ _ _ _ Had) as (ad & Hp2 & _ & Hi2 & Hc2 & Hf2 & _ & _).
  destruct (adopted_agrees (c_Schema c) _ _ _ _ _ (pkey <$> rec_local rec) Had) as [Ht2 Hag2].
  { rewrite Hp1. apply Forall_app_2; [apply Htrue|done]. } { by rewrite Hp1. }
  { intros pid Hpid. rewrite (Hag pid Hpid). unfold tkeys. by rewrite Hp1. }
  unfold plan in Hs. destruct (plan_loop _ _ _ _) as [[[jobs pmarks] tj3] err] eqn:Hpl.
  apply run_ok in Hs as (r & s3 & (x & Hpd & [= ->])%try_inv & Hs).
  destruct x as [[]|e], err as [e'|]; try (by injection Hs). injection Hs as <- <-. split; [done|].
  apply persistDiverged_ch in Hpd. rewrite Hpd.
  destruct (plan_loop_spec _ _ _ _ _ _ _ (sorted_set_nodup _) Hpl) as (Hp3 & Hi3 & Hc3 & Hf3 & Hd3 & Hm3 & Hnd3 & Hj3 & Hno3).
  assert (tkeys tj3 = tkeys tj2) as Hk3 by (unfold tkeys; by rewrite Hp3).
  assert (∀ x, partitionHashes tj3 x = partitionHashes tj2 x) as Hph by (intros x; unfold partitionHashes; by rewrite Hp3).
  assert (∀ x, x ∈ tj_Diverged tj2 ∨ x ∈ dom (manifest_parts tm) → x ∈ plan_ids c (manifest_parts tm) tj2 (rec_local rec)) as Hids.
  { intros x Hx. unfold plan_ids. rewrite elem_of_sorted_set, !elem_of_app, elem_of_elements. tauto. }
  constructor; simpl.
  - done.
  - destruct Ht2 as [Ht2a Ht2b]. split; by rewrite Hp3.
  - unfold same_copy. rewrite Hi3, Hc3, Hi2, Hc2, Hi1, Hc1. unfold tableJournal.
    destruct (stored _ _ _) as [tj0|]; [destruct (same_copy c tj0) eqn:Hsc; [done|]|]; simpl; by rewrite !bool_decide_eq_true_2.
  - congruence.
  - intros pid Hpid. rewrite Hk3. apply Hag2. intros Hin. apply Hpid, Hd3. by left.
  - done.
  - intros job Hjob. destruct (Hj3 job Hjob) as [_ (? & Hk & _ & ? & Hloc')]. rewrite Hk, Hph. by split_and!.
  - intros pid Hpid. destruct (decide (pid ∈ job_id <$> jobs)) as [|Hn]; [done|].
    destruct (Hno3 pid) as [Hn' _]; [|done|done]. apply Hd3 in Hpid as [?|?]; [apply Hids; by left|by apply Hm3].
  - intros pid Hpid Hn. rewrite Hph. apply Hno3; [|done]. apply Hids. by right.
  - intros pid. by rewrite elem_of_sort_strings, elem_of_elements.
Qed.

(** Fetching keeps a prepared pass. *)
Lemma pass_ok_fetched tm w p jobs :
  pass_ok tm w p → Forall2 fetched (tp_jobs p) jobs →
  pass_ok tm w (mkPass (tp_copy p) (tp_journal p) (tp_local p) jobs (tp_manifestPartitions p)).
Proof.
  intros [] Hf. assert (job_id <$> jobs = job_id <$> tp_jobs p) as Hids.
  { clear -Hf. induction Hf as [|j j' l l' (Hi & _) _ IH]; [done|]. by rewrite !fmap_cons, Hi, IH. }
  constructor; simpl; try done; rewrite ?Hids; try done.
  intros job' Hjob'. apply list_elem_of_lookup in Hjob' as [n Hn].
  destruct (Forall2_lookup_r _ _ _ _ _ Hf Hn) as (job & Hjn & Hi & Hr & Hl & Hrep & Hk).
  destruct (po_job0 job) as (H1 & H2 & H3 & H4); [by eapply list_elem_of_lookup_2|].
  rewrite Hi, Hr, Hl, Hrep. split_and!; try done. by apply Hk.
Qed.

(** A pass over one copy does not see changes of other copies. *)
Lemma pass_ok_leaves tm p X s s' :
  leaves X s s' → c_Table (tp_copy p) ∉ X → pass_ok tm (st_ch s) p → pass_ok tm (st_ch s') p.
Proof. intros Hl HX []. constructor; try done. by rewrite (leaves_live _ _ _ _ Hl HX). Qed.


(** ** Verification *)
Definition kkey (k : keptPart) : string * string * N := (k_name k, k_physHash k, k_rows k).

Lemma sameParts_perm listed kept :
  NoDup (p_Name <$> listed) → sameParts listed kept = true → pkey <$> listed ≡ₚ kkey <$> kept.
Proof.
  unfold sameParts. intros Hnd Hs. unbool. apply submseteq_length_Permutation; [|by rewrite !length_fmap; lia].
  apply NoDup_submseteq.
  - apply (NoDup_fmap_1 (λ x, x.1.1)). by rewrite <- list_fmap_compose.
  - intros x (p & -> & Hp)%list_elem_of_fmap. rewrite forallb_forall in Hs.
    specialize (Hs p (proj1 (list_elem_of_In _ _) Hp)). apply existsb_exists in Hs as (k & Hk & Hpk). unbool.
    apply list_elem_of_fmap. exists k. split; [|by apply list_elem_of_In]. unfold pkey, kkey. congruence.
Qed.

Lemma kept_hashes l : Forall kept_true l → mapM row_hash (k_rowHash <$> l) = Some (khash <$> (kkey <$> l)).
Proof. induction 1 as [|k l Hk _ IH]; [done|]. rewrite !fmap_cons. cbn [mapM]. unfold kept_true in Hk. by rewrite Hk, IH. Qed.

Lemma scan_hashes scans (l : list Part) :
  sc_PartName <$> scans ≡ₚ p_Name <$> l → NoDup (p_Name <$> l) →
  (∀ s q, s ∈ scans → q ∈ l → p_Name q = sc_PartName s →
     row_hash (sc_RowLtHash s) = Some (rows_of (p_PhysHash q) (p_Rows q))) →
  ∃ hs, mapM row_hash (sc_RowLtHash <$> scans) = Some hs ∧ hs ≡ₚ khash <$> (pkey <$> l).
Proof.
  revert l. induction scans as [|sc scans IH]; intros l Hn Hnd Hh.
  { exists []. split; [done|]. rewrite fmap_nil in Hn. symmetry in Hn. apply Permutation_nil_r in Hn.
    by apply fmap_nil_inv in Hn as ->. }
  rewrite fmap_cons in Hn. assert (sc_PartName sc ∈ p_Name <$> l) as (q & Hq & Hql)%list_elem_of_fmap.
  { rewrite <- Hn. constructor. }
  apply elem_of_Permutation in Hql as [l' Hl]. rewrite Hl, fmap_cons in Hn, Hnd. rewrite Hq in Hn.
  apply Permutation_cons_inv in Hn. apply NoDup_cons in Hnd as [_ Hnd].
  destruct (IH l' Hn Hnd) as (hs & Hm & Hp).
  { intros s q' Hs Hq'. apply Hh; [by constructor|]. rewrite Hl. by constructor. }
  rewrite fmap_cons. cbn [mapM]. rewrite (Hh sc q) by (done || (constructor) || (rewrite Hl; constructor)). rewrite Hm.
  eexists. split; [done|]. rewrite Hl, !fmap_cons, <- Hp. done.
Qed.

Lemma scratchContent_spec c scratch kept s hashes placed s' :
  Forall kept_true kept → scratchContent c scratch kept s = (Ok (hashes, placed), s') →
  calm (st_ch s) (st_ch s') ∧ placed = LogicalPartitionID (c_Schema c) <$> live (st_ch s) StageDB scratch ∧
  ∃ hs, mapM row_hash hashes = Some hs ∧ hs ≡ₚ khash <$> (pkey <$> live (st_ch s) StageDB scratch).
Proof.
  intros Hk. unfold scratchContent. intros (listed & s1 & Hl & Hs)%run_ok.
  destruct (nonEmpty_spec _ _ _ _ _ (or_intror eq_refl) Hl) as [Hc Hlist]. specialize (Hlist _ eq_refl). subst listed.
  assert (NoDup (p_Name <$> live (st_ch s) StageDB scratch)) as Hnd by (apply live_names; by right).
  destruct (sameParts _ _) eqn:Hsp.
  - injection Hs as <- <- <-. split_and!; [done..|]. eexists. split.
    + apply kept_hashes. rewrite Forall_forall in Hk |- *. intros k [_ Hin]%list_elem_of_filter. by apply Hk.
    + by rewrite (sameParts_perm _ _ Hnd Hsp).
  - apply run_ok in Hs as (scans & s2 & Hq & [= <- <- <-]). unfold query in Hq.
    destruct (ch_scan_all _ _ _ _) as [[sc|] w] eqn:Hsc; simplify_eq/=.
    apply m_scan_all in Hsc as [Hc2 Hscans]. destruct (Hscans _ eq_refl) as [Hn Hh].
    rewrite (calm_live _ _ StageDB scratch (or_intror eq_refl) Hc) in Hn.
    split_and!; [|done|].
    + intros d t Hd. by rewrite Hc2, Hc.
    + apply scan_hashes; [done|done|]. intros sc q Hsc Hq Hqn. apply (Hh sc q); [done| |done].
      rewrite Hc by (by right). by apply live_elem in Hq as [_ ?].
Qed.

(** What the scratches of a job hold. *)
Definition stage (w : chs) (job : partitionJob) : list Part := concat (live w StageDB <$> job_scratches job).

Lemma verify_scratches_spec c job l s held placed s' :
  Forall kept_true (job_kept job) → verify_scratches c job l s = (Ok (held, placed), s') →
  calm (st_ch s) (st_ch s') ∧ placed = LogicalPartitionID (c_Schema c) <$> concat (live (st_ch s) StageDB <$> l) ∧
  Forall (λ p, LogicalPartitionID (c_Schema c) p = job_id job) (concat (live (st_ch s) StageDB <$> l)) ∧
  ∃ hs, mapM row_hash held = Some hs ∧ hs ≡ₚ khash <$> (pkey <$> concat (live (st_ch s) StageDB <$> l)).
Proof.
  intros Hk. revert s held placed. induction l as [|sc l IH]; intros s held placed; cbn [verify_scratches].
  { intros [= <- <- <-]. split_and!; try done. by exists []. }
  intros ([hashes placed1] & s1 & H1 & Hs)%run_ok.
  apply scratchContent_spec in H1 as (Hc & -> & hs1 & Hm1 & Hp1); [|done].
  case_bool_decide as Hex; [done|]. apply run_ok in Hs as ([held2 placed2] & s2 & H2 & [= <- <- <-]).
  destruct (IH _ _ _ H2) as (Hc2 & -> & Hall & hs2 & Hm2 & Hp2).
  assert (live (st_ch s1) StageDB <$> l = live (st_ch s) StageDB <$> l) as Hl.
  { apply list_fmap_ext. intros n t _. apply calm_live; [by right|done]. }
  rewrite Hl in *. rewrite fmap_cons. cbn [concat]. split_and!.
  - intros d t Hd. by rewrite Hc2, Hc.
  - by rewrite fmap_app.
  - apply Forall_app_2; [|done]. apply Forall_forall. intros p Hp. destruct (decide (LogicalPartitionID (c_Schema c) p = job_id job)) as [|Hn]; [done|].
    destruct Hex. apply Exists_exists. exists (LogicalPartitionID (c_Schema c) p). split; [by apply list_elem_of_fmap_2|done].
  - exists (hs1 ++ hs2). split; [|by rewrite !fmap_app, Hp1, Hp2].
    clear -Hm1 Hm2. revert hs1 Hm1. induction hashes as [|h hashes IH]; intros hs1 Hm1; simpl in *.
    + by injection Hm1 as <-.
    + destruct (row_hash h) as [x|]; [|done]. simpl in *. destruct (mapM row_hash hashes) as [xs|]; [|done].
      injection Hm1 as <-. by rewrite (IH xs eq_refl).
Qed.

(** A verified job: its scratches are all of its partition and close it. *)
Definition job_closes (w : chs) (sch : TableSchema) (job : partitionJob) : Prop :=
  Forall (λ p, LogicalPartitionID sch p = job_id job) (stage w job) ∧
  ∃ L, mapM row_hash (job_local job) = Some L ∧
    row_hash (job_root job) = Some (lt_add (lt_sum L) (lt_sum (khash <$> (pkey <$> stage w job)))).

Lemma verify_jobs_spec c jobs s placed s' :
  (∀ job, job ∈ jobs → Forall kept_true (job_kept job)) → verify_jobs c jobs s = (Ok placed, s') →
  calm (st_ch s) (st_ch s') ∧ Forall (job_closes (st_ch s) (c_Schema c)) jobs ∧
  ∀ pid, pid ∈ placed ↔ ∃ job, job ∈ jobs ∧ job_id job = pid ∧ stage (st_ch s) job ≠ [].
Proof.
  revert s placed. induction jobs as [|job jobs IH]; intros s placed Hk; cbn [verify_jobs].
  { intros [= <- <-]. split_and!; [done|constructor|]. intros pid. split; [by intros ?%elem_of_nil|].
    by intros (? & ?%elem_of_nil & _). }
  intros ([held placed1] & s1 & H1 & Hs)%run_ok.
  apply verify_scratches_spec in H1 as (Hc & -> & Hall & hs & Hm & Hp); [|apply Hk; constructor].
  destruct (Closure _ _ _) as [[]|] eqn:Hcl; [|done]. apply Closure_ok in Hcl as (L & K & r & HL & HK & Hr & Hsum).
  apply run_ok in Hs as (placed2 & s2 & H2 & [= <- <-]).
  destruct (IH _ _ (λ j Hj, Hk j (list_elem_of_further _ _ _ Hj)) H2) as (Hc2 & Hj2 & Hpl2).
  assert (∀ j, stage (st_ch s1) j = stage (st_ch s) j) as Hst.
  { intros j. unfold stage. f_equal. apply list_fmap_ext. intros n t _. apply calm_live; [by right|done]. }
  split_and!.
  - intros d t Hd. by rewrite Hc2, Hc.
  - constructor.
    + split; [done|]. exists L. split; [done|]. rewrite Hr, <- Hsum. unfold stage. rewrite HK in Hm.
      injection Hm as ->. by rewrite Hp.
    + eapply Forall_impl; [exact Hj2|]. intros j. unfold job_closes. by rewrite Hst.
  - intros pid. rewrite elem_of_app, Hpl2. setoid_rewrite elem_of_cons. setoid_rewrite Hst. split.
    + intros [(p & -> & Hin)%list_elem_of_fmap|(j & ? & ? & ?)]; [|eauto].
      exists job. rewrite Forall_forall in Hall. split_and!; [by left|symmetry; by apply Hall|].
      unfold stage. intros Hnil. rewrite Hnil in Hin. by apply elem_of_nil in Hin.
    + intros (j & [->|Hj] & <- & Hne); [left|right; eauto].
      unfold stage in Hne. destruct (concat _) as [|p l]; [done|]. apply list_elem_of_fmap. exists p.
      split; [|constructor]. inversion Hall; subst. done.
Qed.

(** The copy's partitions after the pass are the manifest's. *)
Definition set_after (w : chs) (tm : option TableManifest) (p : tablePass) : Prop :=
  ∀ pid, pid ∈ dom (manifest_parts tm) ↔
    (∃ lp, lp ∈ tp_local p ∧ LogicalPartitionID (c_Schema (tp_copy p)) lp = pid ∧ pid ∉ repaired p) ∨
    (∃ job, job ∈ tp_jobs p ∧ job_id job = pid ∧ stage w job ≠ []).

Definition verified (w : chs) (tm : option TableManifest) (p : tablePass) : Prop :=
  Forall (job_closes w (c_Schema (tp_copy p))) (tp_jobs p) ∧ set_after w tm p.

Lemma verify_spec tm p s s' : pass_ok tm (st_ch s) p → verify p s = (Ok (), s') →
  calm (st_ch s) (st_ch s') ∧ verified (st_ch s) tm p.
Proof.
  intros Hok. unfold verify. intros (placed & s1 & H1 & Hs)%run_ok.
  apply verify_jobs_spec in H1 as (Hc & Hj & Hpl); [|intros job Hjob; by apply (po_job _ _ _ Hok)].
  unfold PartitionSet in Hs. case_bool_decide as Heq; [|done]. injection Hs as <-. split; [done|]. split; [done|].
  intros pid. rewrite <- (po_set _ _ _ Hok), <- Hpl.
  apply (proj1 (sorted_set_eq _ _)) with (x := pid) in Heq. rewrite Heq, elem_of_sorted_set, elem_of_app, list_elem_of_filter, list_elem_of_fmap.
  split; [intros [[? (lp & ? & ?)]|?]; [left; naive_solver|by right]|].
  intros [(lp & ? & ? & ?)|?]; [left; naive_solver|by right].
Qed.


(** ** Committing *)
Definition files (p : Part) : string * N := (p_PhysHash p, p_Rows p).

(** The statements of a commit leave the scratches alone. *)
Definition stage_same (w w' : chs) : Prop := ∀ t, parts_of w' StageDB t = parts_of w StageDB t.

#[global] Instance stage_same_preorder : PreOrder stage_same.
Proof. split; [done|]. intros a b c Hab Hbc t. by rewrite Hbc, Hab. Qed.

Lemma stage_same_stage w w' job : stage_same w w' → stage w' job = stage w job.
Proof. intros Hs. unfold stage. f_equal. apply list_fmap_ext. intros n t _. unfold live. by rewrite Hs. Qed.

#[local] Instance PartsIn_proper : Proper ((≡ₚ) ==> (=) ==> (=) ==> (≡ₚ)) PartsInLogicalPartition.
Proof. intros l k Hp sch ? <- pid ? <-. unfold PartsInLogicalPartition. by rewrite Hp. Qed.

Lemma PartsIn_app l k sch pid :
  PartsInLogicalPartition (l ++ k) sch pid = PartsInLogicalPartition l sch pid ++ PartsInLogicalPartition k sch pid.
Proof. apply filter_app. Qed.

Lemma PartsIn_all l sch pid : Forall (λ p, LogicalPartitionID sch p = pid) l → PartsInLogicalPartition l sch pid = l.
Proof. intros Hl. rewrite Forall_forall in Hl. by apply filter_all. Qed.

Lemma PartsIn_none l sch pid pid' :
  Forall (λ p, LogicalPartitionID sch p = pid) l → pid ≠ pid' → PartsInLogicalPartition l sch pid' = [].
Proof. intros Hl Hne. rewrite Forall_forall in Hl. apply filter_none. intros p Hp. by rewrite (Hl p Hp). Qed.

Lemma alter_ok c q s s' : alterCopy c q s = (Ok (), s') → ch_exec q (st_ch s) = (None, st_ch s').
Proof.
  intros ([] & s1 & [= <-] & Hx)%run_ok. unfold exec in Hx. simpl in Hx.
  destruct (ch_exec q (st_ch s)) as [[e|] w] eqn:He; simplify_eq. done.
Qed.

Lemma alter_stage c q s s' :
  match q with AttachFrom t' _ _ | DropPart ReplicaDB t' _ | DropPartition ReplicaDB t' _ => t' = c_Table c | _ => False end →
  alterCopy c q s = (Ok (), s') → stage_same (st_ch s) (st_ch s').
Proof. intros Hq Hs%alter_ok t. apply (m_copy _ _ _ _ _ Hs Hq); [by right|done]. Qed.

Lemma attach_all_spec c id quoted l s s' :
  QuotePartition (c_Schema c) id = Some quoted → attach_all orc c quoted l s = (Ok (), s') →
  stage_same (st_ch s) (st_ch s') ∧
  ∃ fresh, live (st_ch s') ReplicaDB (c_Table c) ≡ₚ live (st_ch s) ReplicaDB (c_Table c) ++ fresh ∧
    Forall (λ p, LogicalPartitionID (c_Schema c) p = id) fresh ∧
    files <$> fresh ≡ₚ files <$> PartsInLogicalPartition (concat (live (st_ch s) StageDB <$> l)) (c_Schema c) id.
Proof.
  intros Hq. revert s. induction l as [|sc l IH]; intros s; cbn [attach_all].
  { intros [= <-]. split; [done|]. exists []. by rewrite app_nil_r. }
  intros ([] & s1 & H1 & Hs)%run_ok. apply run_ok in Hs as (ok & s2 & [= <- <-] & Hs).
  match type of Hs with (if ?x then _ else _) _ = _ => destruct x; [|done] end.
  destruct (IH _ Hs) as (Hst2 & fr2 & Hp2 & Hf2 & Hk2). simpl in Hst2, Hp2, Hk2.
  assert (stage_same (st_ch s) (st_ch s1)) as Hst1 by (by refine (alter_stage _ _ _ _ _ H1)).
  apply alter_ok in H1. destruct (m_attach _ _ _ _ _ _ _ H1 Hq) as (fr1 & Hp1 & Hf1 & Hk1).
  assert (live (st_ch s1) StageDB <$> l = live (st_ch s) StageDB <$> l) as Hl.
  { apply list_fmap_ext. intros n t _. unfold live. by rewrite Hst1. }
  split; [by etrans|]. exists (fr1 ++ fr2). split_and!.
  - rewrite Hp2, Hp1. by rewrite app_assoc.
  - by apply Forall_app_2.
  - rewrite fmap_cons. cbn [concat]. rewrite PartsIn_app, !fmap_app. unfold files in *. rewrite Hk1, Hk2, Hl. done.
Qed.

(** The parts of the copy in one partition. *)
Definition parts_in (w : chs) (c : Copy) (pid : string) : list Part :=
  PartsInLogicalPartition (live w ReplicaDB (c_Table c)) (c_Schema c) pid.

Lemma commit_job_spec p job s s' :
  let c := tp_copy p in
  parts_in (st_ch s) c (job_id job) ≡ₚ PartsInLogicalPartition (tp_local p) (c_Schema c) (job_id job) →
  Forall (λ q, LogicalPartitionID (c_Schema c) q = job_id job) (stage (st_ch s) job) →
  commit_job orc p job s = (Ok (), s') →
  stage_same (st_ch s) (st_ch s') ∧
  (∀ pid, pid ≠ job_id job → parts_in (st_ch s') c pid ≡ₚ parts_in (st_ch s) c pid) ∧
  ∃ fresh, parts_in (st_ch s') c (job_id job) ≡ₚ
      (if job_repair job then [] else parts_in (st_ch s) c (job_id job)) ++ fresh ∧
    files <$> fresh ≡ₚ files <$> stage (st_ch s) job.
Proof.
  intros c Hloc Hst Hs. unfold commit_job in Hs. apply run_ok in Hs as (quoted & s0 & Hq & Hs).
  unfold opt, lift in Hq. injection Hq as Hq <-. apply of_option_ok in Hq. fold c in Hq, Hs.
  apply run_ok in Hs as ([] & s1 & Hdrop & Hs). destruct (attach_all_spec _ _ _ _ _ _ Hq Hs) as (Hst2 & fr & Hp2 & Hf2 & Hk2).
  assert (stage_same (st_ch s) (st_ch s1) ∧ (∀ pid, pid ≠ job_id job → parts_in (st_ch s1) c pid ≡ₚ parts_in (st_ch s) c pid) ∧
    parts_in (st_ch s1) c (job_id job) ≡ₚ (if job_repair job then [] else parts_in (st_ch s) c (job_id job))) as (Hst1 & Hoth1 & Hid1).
  { destruct (job_repair job) eqn:Hrep; simpl in Hdrop.
    2: { injection Hdrop as <-. done. }
    case_bool_decide as Hlen; simpl in Hdrop.
    { injection Hdrop as <-. split_and!; [done..|]. rewrite Hloc. by destruct (PartsInLogicalPartition _ _ _). }
    split; [by refine (alter_stage _ _ _ _ _ Hdrop)|]. apply alter_ok in Hdrop. pose proof (m_drop_partition _ _ _ _ _ _ Hdrop Hq) as Hl.
    unfold parts_in. rewrite Hl. unfold PartsInLogicalPartition. split.
    - intros pid Hpid. rewrite list_filter_filter_l; [done|]. by intros x ->.
    - rewrite filter_none; [done|]. intros x [? _]%list_elem_of_filter. done. }
  split; [by etrans|]. unfold parts_in in *. split.
  - intros pid Hpid. rewrite Hp2, PartsIn_app, (PartsIn_none fr _ _ pid Hf2) by done. rewrite app_nil_r. by apply Hoth1.
  - exists fr. split; [by rewrite Hp2, PartsIn_app, (PartsIn_all fr), Hid1 by done|].
    rewrite Hk2. fold (stage (st_ch s1) job). rewrite (stage_same_stage _ _ _ Hst1), PartsIn_all by done. done.
Qed.

Lemma commit_jobs_spec p jobs s s' :
  let c := tp_copy p in
  NoDup (job_id <$> jobs) →
  (∀ job, job ∈ jobs → parts_in (st_ch s) c (job_id job) ≡ₚ PartsInLogicalPartition (tp_local p) (c_Schema c) (job_id job)) →
  Forall (λ job, Forall (λ q, LogicalPartitionID (c_Schema c) q = job_id job) (stage (st_ch s) job)) jobs →
  commit_jobs orc p jobs s = (Ok (), s') →
  stage_same (st_ch s) (st_ch s') ∧
  (∀ pid, pid ∉ job_id <$> jobs → parts_in (st_ch s') c pid ≡ₚ parts_in (st_ch s) c pid) ∧
  ∀ job, job ∈ jobs → ∃ fresh, parts_in (st_ch s') c (job_id job) ≡ₚ
      (if job_repair job then [] else parts_in (st_ch s) c (job_id job)) ++ fresh ∧
    files <$> fresh ≡ₚ files <$> stage (st_ch s) job.
Proof.
  intros c. revert s. induction jobs as [|job jobs IH]; intros s Hnd Hloc Hst; cbn [commit_jobs].
  { intros [= <-]. split_and!; [done..|]. by intros ? ?%elem_of_nil. }
  apply NoDup_cons in Hnd as [Hjid Hnd]. inversion Hst as [|? ? Hst1 Hst2]; subst.
  intros ([] & s1 & H1 & Hs)%run_ok.
  destruct (commit_job_spec p job s s1) as (Hss1 & Hoth1 & fr1 & Hfr1 & Hk1); [by apply Hloc; constructor|done|done|]. fold c in Hoth1, Hfr1.
  assert (∀ j, j ∈ jobs → job_id j ≠ job_id job) as Hne.
  { intros j Hj Heq. apply Hjid. rewrite <- Heq. by apply list_elem_of_fmap_2. }
  destruct (IH s1) as (Hss2 & Hoth2 & Hfr2); [done| | |done|].
  { intros j Hj. fold c. rewrite Hoth1 by (by apply Hne). apply Hloc. by constructor. }
  { eapply Forall_impl; [exact Hst2|]. intros j. by rewrite (stage_same_stage _ _ _ Hss1). }
  split; [by etrans|]. split.
  - intros pid [Hp1 Hp2]%not_elem_of_cons. rewrite (Hoth2 pid Hp2). by apply Hoth1.
  - intros j [->|Hj]%elem_of_cons.
    + exists fr1. split; [|done]. by rewrite (Hoth2 _ Hjid).
    + destruct (Hfr2 j Hj) as (fr & Hfr & Hk). exists fr. rewrite (stage_same_stage _ _ _ Hss1) in Hk. split; [|done].
      rewrite Hfr. destruct (job_repair j); [done|]. by rewrite Hoth1 by (by apply Hne).
Qed.

Lemma Leaves_commit owner p : Leaves [c_Table (tp_copy p)] (commit cfg orc owner p).
Proof.
  unfold commit. apply Leaves_if; [frame|]. apply Leaves_bind; [apply Leaves_check|intros _].
  generalize (tp_jobs p). intros jobs. induction jobs as [|job jobs IH]; [apply Leaves_ret|]. cbn [commit_jobs].
  apply Leaves_bind; [|intros _; exact IH]. unfold commit_job.
  apply Leaves_bind; [frame|intros quoted]. apply Leaves_bind; [apply Leaves_if; [by apply Leaves_alter|frame]|intros _].
  generalize (job_scratches job). intros l. induction l as [|sc l IHl]; [apply Leaves_ret|]. cbn [attach_all].
  frame_with ltac:((by apply Leaves_alter) || exact IHl).
Qed.


(** ** Journaling what was attached *)
Lemma match_parts_spec id unmatched fresh parts :
  Forall kept_true unmatched → match_parts id unmatched fresh = Some parts →
  jkey <$> parts = pkey <$> fresh ∧
  Forall (λ jp, jp_PartitionID jp = id ∧ row_hash (jp_PartRowLtHash jp) = Some (khash (jkey jp))) parts.
Proof.
  revert unmatched parts. induction fresh as [|p fresh IH]; intros unmatched parts Hk; cbn [match_parts].
  { intros [= <-]. by split. }
  destruct (list_find _ unmatched) as [[n k]|] eqn:Hf; [|done].
  apply list_find_Some in Hf as (Hn & [Hph Hr] & _).
  destruct (match_parts id (delete n unmatched) fresh) as [parts'|] eqn:Hm; [|done]. intros [= <-].
  destruct (IH _ _ (Forall_delete _ _ _ Hk) Hm) as [Hkeys Hall]. rewrite !fmap_cons, Hkeys. split; [done|].
  constructor; [|done]. split; [done|]. simpl. rewrite Forall_forall in Hk.
  rewrite (Hk k) by (by eapply list_elem_of_lookup_2). unfold khash. simpl. congruence.
Qed.

Definition fresh_of (c : Copy) (before : list string) (after : list Part) (job : partitionJob) : list Part :=
  filter (λ lp, job_repair job = true ∨ p_Name lp ∉ before) (PartsInLogicalPartition after (c_Schema c) (job_id job)).

Lemma setPartition_spec sch pid parts tj :
  Forall (true_part sch) (tj_Parts tj) → Forall (true_part sch) parts → Forall (λ jp, jp_PartitionID jp = pid) parts →
  Forall (true_part sch) (tj_Parts (setPartition pid parts tj)) ∧
  in_part sch pid (tkeys (setPartition pid parts tj)) ≡ₚ jkey <$> parts ∧
  ∀ q, q ≠ pid → in_part sch q (tkeys (setPartition pid parts tj)) ≡ₚ in_part sch q (tkeys tj).
Proof.
  intros Ht Hp Hpid. assert (tj_Parts (setPartition pid parts tj) ≡ₚ filter (λ p, jp_PartitionID p ≠ pid) (tj_Parts tj) ++ parts) as Hpm.
  { apply sortJournalParts_perm. }
  assert (Forall (true_part sch) (filter (λ p, jp_PartitionID p ≠ pid) (tj_Parts tj))) as Htf.
  { rewrite Forall_forall in Ht |- *. intros jp [_ Hjp]%list_elem_of_filter. by apply Ht. }
  unfold tkeys. split_and!.
  - rewrite Hpm. by apply Forall_app_2.
  - rewrite Hpm, fmap_app, in_part_app, !(true_in_part sch) by done.
    rewrite (filter_none _ (filter _ _)), (filter_all _ parts); [done|by rewrite Forall_forall in Hpid|].
    by intros jp [? _]%list_elem_of_filter.
  - intros q Hq. rewrite Hpm, fmap_app, in_part_app, !(true_in_part sch) by done.
    rewrite (filter_none _ parts), fmap_nil, app_nil_r.
    + rewrite list_filter_filter_l; [done|]. by intros jp ->.
    + intros jp Hjp. rewrite Forall_forall in Hpid. by rewrite (Hpid jp Hjp).
Qed.

Lemma addParts_spec sch pid parts tj :
  Forall (true_part sch) (tj_Parts tj) → Forall (true_part sch) parts → Forall (λ jp, jp_PartitionID jp = pid) parts →
  Forall (true_part sch) (tj_Parts (addParts parts tj)) ∧
  in_part sch pid (tkeys (addParts parts tj)) ≡ₚ in_part sch pid (tkeys tj) ++ (jkey <$> parts) ∧
  ∀ q, q ≠ pid → in_part sch q (tkeys (addParts parts tj)) ≡ₚ in_part sch q (tkeys tj).
Proof.
  intros Ht Hp Hpid. assert (tj_Parts (addParts parts tj) ≡ₚ tj_Parts tj ++ parts) as Hpm by apply sortJournalParts_perm.
  unfold tkeys. rewrite Forall_forall in Hpid. split_and!.
  - rewrite Hpm. by apply Forall_app_2.
  - rewrite Hpm, fmap_app, in_part_app. f_equiv. rewrite (true_in_part sch) by done. by rewrite filter_all.
  - intros q Hq. rewrite Hpm, fmap_app, in_part_app, (true_in_part sch _ parts) by done.
    rewrite filter_none, fmap_nil, app_nil_r; [done|]. intros jp Hjp. by rewrite (Hpid jp Hjp).
Qed.

Lemma journal_jobs_spec c w before jobs tj tj' :
  let sch := c_Schema c in let after := live w ReplicaDB (c_Table c) in
  journal_jobs c before after jobs tj = (tj', []) → NoDup (job_id <$> jobs) →
  (∀ job, job ∈ jobs → Forall kept_true (job_kept job)) → Forall (true_part sch) (tj_Parts tj) →
  Forall (true_part sch) (tj_Parts tj') ∧ tj_IncarnationSeq tj' = tj_IncarnationSeq tj ∧ tj_Copy tj' = tj_Copy tj ∧
  tj_Foreign tj' = tj_Foreign tj ∧
  (∀ pid, pid ∈ tj_Diverged tj' ↔ pid ∈ tj_Diverged tj ∧ ¬ ∃ job, job ∈ jobs ∧ job_id job = pid ∧ job_repair job = true) ∧
  (∀ pid, pid ∉ job_id <$> jobs → in_part sch pid (tkeys tj') ≡ₚ in_part sch pid (tkeys tj)) ∧
  (∀ job, job ∈ jobs → in_part sch (job_id job) (tkeys tj') ≡ₚ
     (if job_repair job then [] else in_part sch (job_id job) (tkeys tj)) ++ (pkey <$> fresh_of c before after job)).
Proof.
  intros sch after. revert tj. induction jobs as [|job jobs IH]; intros tj; cbn [journal_jobs].
  { intros [= <-] _ _ Ht. split_and!; try done.
    - intros pid. split; [|tauto]. intros Hp. split; [done|]. by intros (? & ?%elem_of_nil & _).
    - by intros ? ?%elem_of_nil. }
  intros Hj Hnd Hk Ht. apply NoDup_cons in Hnd as [Hjid Hnd].
  fold (fresh_of c before after job) in Hj.
  destruct (matchAttached job _) as [parts|] eqn:Hm.
  2: { destruct (journal_jobs c before after jobs tj) as [? ?]. by injection Hj. }
  unfold matchAttached in Hm. case_bool_decide; [done|].
  destruct (match_parts_spec _ _ _ _ (Hk job (list_elem_of_here _ _)) Hm) as [Hkeys Hparts].
  assert (∀ jp, jp ∈ parts → jp_PartitionID jp = job_id job) as Hpid.
  { rewrite Forall_forall in Hparts. intros jp Hjp. by apply Hparts. }
  assert (Forall (true_part sch) parts) as Hpt.
  { rewrite Forall_forall in Hparts |- *. intros jp Hjp. destruct (Hparts jp Hjp) as [Hid Hh].
    assert (jkey jp ∈ pkey <$> fresh_of c before after job) as (p & Hjk & Hp)%list_elem_of_fmap.
    { rewrite <- Hkeys. by apply list_elem_of_fmap_2. }
    apply list_elem_of_filter in Hp as [_ [Hlog Hlive]%list_elem_of_filter].
    split_and!; [done| |].
    - rewrite Hid, Hjk, <- Hlog. symmetry. by apply (kpart_live w ReplicaDB (c_Table c)); [left|].
    - apply live_elem in Hlive as [Hr _]. injection Hjk as _ _ Hjr. by rewrite Hjr. }
  set (tj1 := if job_repair job then setPartition (job_id job) parts tj else addParts parts tj) in *.
  assert (Forall (true_part sch) (tj_Parts tj1) ∧
    in_part sch (job_id job) (tkeys tj1) ≡ₚ (if job_repair job then [] else in_part sch (job_id job) (tkeys tj)) ++ (jkey <$> parts) ∧
    ∀ q, q ≠ job_id job → in_part sch q (tkeys tj1) ≡ₚ in_part sch q (tkeys tj)) as (Ht1 & Hin1 & Hoth1).
  { unfold tj1. rewrite <- Forall_forall in Hpid. destruct (job_repair job); [by apply setPartition_spec|by apply addParts_spec]. }
  assert (tj_IncarnationSeq tj1 = tj_IncarnationSeq tj ∧ tj_Copy tj1 = tj_Copy tj ∧ tj_Foreign tj1 = tj_Foreign tj) as (Hi1 & Hc1 & Hf1).
  { unfold tj1. by destruct (job_repair job). }
  assert (∀ pid, pid ∈ tj_Diverged tj1 ↔ pid ∈ tj_Diverged tj ∧ ¬ (job_id job = pid ∧ job_repair job = true)) as Hd1.
  { intros pid. unfold tj1. destruct (job_repair job); simpl; [|naive_solver]. rewrite list_elem_of_filter. naive_solver. }
  destruct (IH _ Hj Hnd (λ j Hj', Hk j (list_elem_of_further _ _ _ Hj')) Ht1) as (Ht2 & Hi2 & Hc2 & Hf2 & Hd2 & Hoth2 & Hj2).
  split_and!; try congruence; try done.
  - intros pid. rewrite Hd2, Hd1. setoid_rewrite elem_of_cons. naive_solver.
  - intros pid [Hp1 Hp2]%not_elem_of_cons. rewrite (Hoth2 _ Hp2). by apply Hoth1.
  - intros j [->|Hj']%elem_of_cons.
    + rewrite (Hoth2 _ Hjid), Hin1. by rewrite Hkeys.
    + rewrite (Hj2 j Hj'). destruct (job_repair j); [done|]. rewrite Hoth1; [done|].
      intros Heq. apply Hjid. rewrite <- Heq. by apply list_elem_of_fmap_2.
Qed.

(** ** An installed copy *)
Definition closes (tm : option TableManifest) (tj : TableJournal) : Prop :=
  (∀ pid, pid ∈ dom (manifest_parts tm) → sums_to (partitionHashes tj pid) (root_of (manifest_roots tm) pid)) ∧
  (∀ pid, pid ∈ dom (manifest_parts tm) ↔ pid ∈ jp_PartitionID <$> tj_Parts tj).

Definition agrees (w : chs) (c : Copy) (tj : TableJournal) : Prop := copy_keys w c ≡ₚ tkeys tj.

Record installed (tm : option TableManifest) (w : chs) (c : Copy) (tj : TableJournal) : Prop := mkInstalled {
  in_true : tj_true (c_Schema c) tj; in_copy : same_copy c tj = true; in_foreign : tj_Foreign tj = false;
  in_diverged : tj_Diverged tj = []; in_agrees : agrees w c tj; in_closes : closes tm tj }.


Lemma files_hash (l k : list Part) :
  files <$> l ≡ₚ files <$> k → khash <$> (pkey <$> l) ≡ₚ khash <$> (pkey <$> k).
Proof.
  assert (∀ l : list Part, khash <$> (pkey <$> l) = (λ x, rows_of x.1 x.2) <$> (files <$> l)) as Hf
    by (intros l'; by rewrite <- !list_fmap_compose).
  intros Hp. by rewrite !Hf, Hp.
Qed.

Lemma copy_in_part w c pid : in_part (c_Schema c) pid (copy_keys w c) = pkey <$> parts_in w c pid.
Proof. apply (in_part_live w ReplicaDB (c_Table c)); [by left|done]. Qed.

(** What an attach added to a partition, by name. *)
Lemma fresh_of_attached c w w' job fr :
  job_repair job = false →
  parts_in w' c (job_id job) ≡ₚ parts_in w c (job_id job) ++ fr →
  fresh_of c (p_Name <$> live w ReplicaDB (c_Table c)) (live w' ReplicaDB (c_Table c)) job ≡ₚ fr.
Proof.
  intros Hrep Hp. unfold fresh_of. fold (parts_in w' c (job_id job)).
  assert (NoDup (p_Name <$> (parts_in w c (job_id job) ++ fr))) as Hnd.
  { rewrite <- Hp. apply NoDup_fmap_filter, live_names. by left. }
  assert (∀ q, q ∈ fr → q ∈ live w' ReplicaDB (c_Table c) ∧ LogicalPartitionID (c_Schema c) q = job_id job) as Hfr.
  { intros q Hq. assert (q ∈ parts_in w' c (job_id job)) as [? ?]%list_elem_of_filter by (rewrite Hp; apply elem_of_app; by right).
    done. }
  rewrite Hp, filter_app, filter_none, filter_all; [done| |].
  - intros q Hq. right. intros (q0 & Hn & Hq0)%list_elem_of_fmap. destruct (Hfr q Hq) as [Hql Hqid].
    rewrite fmap_app, NoDup_app in Hnd. destruct Hnd as (_ & Hdis & _). apply (Hdis (p_Name q)); [|by apply list_elem_of_fmap_2].
    rewrite Hn. apply list_elem_of_fmap_2. apply list_elem_of_filter. split; [|done].
    rewrite <- (kpart_live w ReplicaDB (c_Table c)) by (done || by left).
    rewrite <- (kpart_live w' ReplicaDB (c_Table c)) in Hqid by (done || by left).
    unfold kpart in *. simpl in *. by rewrite <- Hn.
  - intros q [_ Hq]%list_elem_of_filter [|Hn]; [congruence|]. apply Hn. by apply list_elem_of_fmap_2.
Qed.

Section installs.
Context (tm : option TableManifest) (w w' : chs) (p : tablePass) (tj' : TableJournal).
#[local] Abbreviation c := (tp_copy p).
#[local] Abbreviation sch := (c_Schema (tp_copy p)).
#[local] Abbreviation ids := (job_id <$> tp_jobs p).
Hypothesis Hok : pass_ok tm w p.
Hypothesis Hver : verified w tm p.
Hypothesis Hrest : ∀ pid, pid ∉ ids → parts_in w' c pid ≡ₚ parts_in w c pid.
Hypothesis Hjobs : ∀ job, job ∈ tp_jobs p → ∃ fresh, parts_in w' c (job_id job) ≡ₚ
    (if job_repair job then [] else parts_in w c (job_id job)) ++ fresh ∧ files <$> fresh ≡ₚ files <$> stage w job.
Hypothesis Hjournal : journal_jobs c (p_Name <$> tp_local p) (live w' ReplicaDB (c_Table c)) (tp_jobs p) (tp_journal p) = (tj', []).

Lemma local_in_part pid : in_part sch pid (pkey <$> tp_local p) = pkey <$> parts_in w c pid.
Proof. rewrite (po_local _ _ _ Hok). apply copy_in_part. Qed.

Lemma job_fresh job : job ∈ tp_jobs p → ∃ fresh,
  parts_in w' c (job_id job) ≡ₚ (if job_repair job then [] else parts_in w c (job_id job)) ++ fresh ∧
  files <$> fresh ≡ₚ files <$> stage w job ∧
  fresh_of c (p_Name <$> tp_local p) (live w' ReplicaDB (c_Table c)) job ≡ₚ fresh.
Proof.
  intros Hj. destruct (Hjobs job Hj) as (fr & Hp & Hf). exists fr. split_and!; [done..|].
  destruct (job_repair job) eqn:Hrep.
  - unfold fresh_of. rewrite filter_all; [done|]. intros q _. by left.
  - rewrite (po_local _ _ _ Hok). by apply fresh_of_attached.
Qed.

Lemma new_journal_agrees pid : in_part sch pid (copy_keys w' c) ≡ₚ in_part sch pid (tkeys tj').
Proof.
  destruct (journal_jobs_spec _ _ _ _ _ _ Hjournal (po_nodup _ _ _ Hok)
    (λ j Hj, proj1 (proj2 (po_job _ _ _ Hok j Hj))) (proj1 (po_true _ _ _ Hok)))
    as (_ & _ & _ & _ & _ & Hoth & Hin).
  rewrite copy_in_part. destruct (decide (pid ∈ ids)) as [(job & -> & Hj)%list_elem_of_fmap|Hn].
  - rewrite (Hin job Hj). destruct (job_fresh job Hj) as (fr & Hp & _ & Hfr). rewrite Hp, fmap_app, Hfr. f_equiv.
    destruct (po_job _ _ _ Hok job Hj) as (_ & _ & Hrep & _). destruct (job_repair job); [done|].
    rewrite <- local_in_part. apply (po_agree _ _ _ Hok). intros Hd. by apply Hrep in Hd.
  - rewrite (Hoth pid Hn), (Hrest pid Hn), <- local_in_part. apply (po_agree _ _ _ Hok).
    intros Hd. by apply (po_repair _ _ _ Hok) in Hd.
Qed.

Lemma new_journal_true : tj_true sch tj' ∧ agrees w' c tj'.
Proof.
  destruct (journal_jobs_spec _ _ _ _ _ _ Hjournal (po_nodup _ _ _ Hok)
    (λ j Hj, proj1 (proj2 (po_job _ _ _ Hok j Hj))) (proj1 (po_true _ _ _ Hok))) as (Ht & _).
  assert (agrees w' c tj') as Ha by (apply (perm_by_class (kpart sch)); intros pid; apply new_journal_agrees).
  split; [|done]. split; [done|].
  assert (jp_Name <$> tj_Parts tj' = (λ x, x.1.1) <$> tkeys tj') as -> by (unfold tkeys; by rewrite <- list_fmap_compose).
  unfold agrees, copy_keys in Ha. rewrite <- Ha, <- list_fmap_compose. apply live_names. by left.
Qed.

Lemma new_journal_sums pid : pid ∈ dom (manifest_parts tm) →
  sums_to (partitionHashes tj' pid) (root_of (manifest_roots tm) pid).
Proof.
  intros Hpid. destruct new_journal_true as [Ht' _]. exists (khash <$> in_part sch pid (tkeys tj')).
  split; [by apply tj_hashes|]. rewrite <- new_journal_agrees, copy_in_part.
  destruct (decide (pid ∈ ids)) as [(job & -> & Hj)%list_elem_of_fmap|Hn].
  - destruct Hver as [Hcl _]. rewrite Forall_forall in Hcl. destruct (Hcl job Hj) as (_ & L & HL & Hr).
    destruct (po_job _ _ _ Hok job Hj) as (Hroot & _ & Hrep & Hloc). rewrite <- Hroot, Hr.
    destruct (job_fresh job Hj) as (fr & Hp & Hf & _). rewrite <- lt_sum_app. f_equal.
    rewrite <- (files_hash _ _ Hf), Hp, !fmap_app. rewrite Hloc in HL. destruct (job_repair job); [by injection HL as <-|].
    rewrite (tj_hashes sch) in HL by apply (po_true _ _ _ Hok). injection HL as <-.
    rewrite <- local_in_part, (po_agree _ _ _ Hok); [done|]. intros Hd. by apply Hrep in Hd.
  - destruct (po_closed _ _ _ Hok pid Hpid Hn) as (hs & Hhs & Hr).
    rewrite (tj_hashes sch) in Hhs by apply (po_true _ _ _ Hok). injection Hhs as <-. rewrite Hr.
    rewrite (Hrest pid Hn), <- local_in_part, (po_agree _ _ _ Hok); [done|].
    intros Hd. by apply (po_repair _ _ _ Hok) in Hd.
Qed.

Lemma set_after_parts pid : pid ∈ dom (manifest_parts tm) ↔ parts_in w' c pid ≠ [].
Proof.
  destruct Hver as [_ Hset]. rewrite (Hset pid).
  assert (∀ lp, lp ∈ tp_local p ∧ LogicalPartitionID sch lp = pid ↔ lp ∈ parts_in w c pid) as Hlp.
  { intros lp. unfold parts_in, PartsInLogicalPartition. rewrite list_elem_of_filter, (po_local _ _ _ Hok). tauto. }
  assert (∀ l : list Part, l ≠ [] ↔ ∃ x, x ∈ l) as Hne.
  { intros [|x l]; split; [done|by intros [? ?%elem_of_nil]|exists x; constructor|done]. }
  assert (∀ job, job ∈ tp_jobs p → job_id job = pid → job_repair job = false → pid ∉ repaired p) as Hrp.
  { intros job Hj Hid Hr (j2 & Hid2 & [Hr2 Hj2]%list_elem_of_filter)%list_elem_of_fmap.
    assert (j2 = job) as ->; [|congruence].
    apply (NoDup_fmap_fst_unique job_id (tp_jobs p)); try done; [apply (po_nodup _ _ _ Hok)|congruence]. }
  destruct (decide (pid ∈ ids)) as [(job & Hid & Hj)%list_elem_of_fmap|Hn].
  - destruct (Hjobs job Hj) as (fr & Hp & Hf). rewrite <- Hid in Hp.
    assert (stage w job ≠ [] ↔ fr ≠ []) as Hst.
    { apply Permutation_length in Hf. rewrite !length_fmap in Hf. by destruct fr, (stage w job). }
    assert (∀ j2, j2 ∈ tp_jobs p → job_id j2 = pid → j2 = job) as Huniq.
    { intros j2 Hj2 Hid2. apply (NoDup_fmap_fst_unique job_id (tp_jobs p)); try done; [apply (po_nodup _ _ _ Hok)|congruence]. }
    rewrite Hne. setoid_rewrite Hp. setoid_rewrite elem_of_app. split.
    + intros [(lp & Hl1 & Hl2 & Hnr)|(j2 & Hj2 & Hid2 & Hs)].
      * destruct (job_repair job) eqn:Hr; [|exists lp; left; by apply Hlp].
        destruct Hnr. apply list_elem_of_fmap. exists job. split; [done|]. by apply list_elem_of_filter.
      * rewrite (Huniq j2 Hj2 Hid2) in Hs. apply Hst, Hne in Hs as [x Hx]. eauto.
    + intros (x & [Hx|Hx]).
      * destruct (job_repair job) eqn:Hr; [by apply elem_of_nil in Hx|]. left. exists x. apply Hlp in Hx as [? ?].
        split_and!; try done. by apply (Hrp job).
      * right. exists job. split_and!; try done. apply Hst, Hne. eauto.
  - rewrite Hne. setoid_rewrite (Hrest pid Hn). split.
    + intros [(lp & ? & ? & _)|(j & Hj & Hid & _)]; [exists lp; by apply Hlp|].
      destruct Hn. rewrite <- Hid. by apply list_elem_of_fmap_2.
    + intros (lp & Hx). left. exists lp. apply Hlp in Hx as [? ?]. split_and!; try done.
      intros (j & -> & [_ Hj]%list_elem_of_filter)%list_elem_of_fmap. apply Hn. by apply list_elem_of_fmap_2.
Qed.

(** The copy is installed: every partition sums to its root, the partitions
    are the manifest's, and the journal lists exactly the copy's parts. *)
Lemma pass_installs : installed tm w' c tj'.
Proof.
  destruct (journal_jobs_spec _ _ _ _ _ _ Hjournal (po_nodup _ _ _ Hok)
    (λ j Hj, proj1 (proj2 (po_job _ _ _ Hok j Hj))) (proj1 (po_true _ _ _ Hok)))
    as (Ht & Hi & Hcp & Hf & Hd & _ & _).
  destruct new_journal_true as [Htrue Hag]. constructor; try done.
  - unfold same_copy. rewrite Hi, Hcp. apply (po_copy _ _ _ Hok).
  - rewrite Hf. apply (po_foreign _ _ _ Hok).
  - destruct (tj_Diverged tj') as [|pid l] eqn:Hdiv; [done|]. destruct (Hd pid) as [Hd1 _].
    destruct Hd1 as [Hin Hno]; [constructor|]. destruct Hno.
    pose proof (po_repair _ _ _ Hok pid Hin) as (job & -> & Hj)%list_elem_of_fmap. exists job. split_and!; [done..|].
    by apply (po_job _ _ _ Hok job Hj).
  - split; [apply new_journal_sums|]. intros pid. rewrite set_after_parts.
    assert (pid ∈ jp_PartitionID <$> tj_Parts tj' ↔ in_part sch pid (tkeys tj') ≠ []) as ->.
    { unfold tkeys. rewrite (true_in_part sch) by apply Htrue. rewrite list_elem_of_fmap. split.
      - intros (jp & -> & Hjp) Hnil%fmap_nil_inv.
        assert (jp ∈ filter (λ q, jp_PartitionID q = jp_PartitionID jp) (tj_Parts tj')) as Hin by (by apply list_elem_of_filter).
        rewrite Hnil in Hin. by apply elem_of_nil in Hin.
      - intros Hne. destruct (filter _ (tj_Parts tj')) as [|jp l] eqn:Hfl; [done|].
        assert (jp ∈ jp :: l) as Hin by constructor. rewrite <- Hfl in Hin. apply list_elem_of_filter in Hin as [? ?]. eauto. }
    pose proof (new_journal_agrees pid) as Hp. rewrite copy_in_part in Hp. apply Permutation_length in Hp.
    rewrite length_fmap in Hp. by destruct (parts_in w' c pid), (in_part sch pid (tkeys tj')).
Qed.
End installs.

End pass.
