(* ===== verification/InstallInv.v ===== *)
(** * The installer's invariant

    The journal, in memory and in every content a restart can read, is true and
    closes at the manifest its owner is journaled at; a copy the installer
    reports clean holds exactly the parts its journal lists. Every operation
    keeps it, whatever fails on the way: [drifts X] says that a computation only
    weakens what the installer reports and changes at most the copies in [X]. *)
From S2P Require Import Prelude LtHash Types Gate Registry ClickHouse InstallJournal Installer InstallLaws InstallReconcile InstallPass.
Import InstallJournal Installer Gate.Gate.

(** The manifests the arbiter published by snapshot id (the id commits to the
    content), the schema of each copy, and the copies that will never be ready
    again. *)
Class Published `{ClickHouse} := {
  manifest_of : string → SafeSnapshotManifest;
  schema_of : string → TableSchema;
}.

Definition copy_id : Type := N * string * N * string.

Section inv.
Context `{CH : ClickHouse, RS : RowSum, MS : !MemberServer, ML : !MemberLaws}.
Context `{LL : !LtHashLaws, RL : !RowSumLaws, PB : !Published}.
Context (cfg : Config) (orc : Oracle) (retired : list copy_id).

Definition table_of (snapshot key : string) : option TableManifest := manifest_tables (manifest_of snapshot) !! key.
Definition id_of (c : Copy) : copy_id := (c_Owner c, c_TableKey c, c_IncarnationSeq c, c_Table c).

Record copies_ok (copies : list Copy) : Prop := {
  co_keys c c' : c ∈ copies → c' ∈ copies → c_TableKey c = c_TableKey c' → c = c';
  co_tables c c' : c ∈ copies → c' ∈ copies → c_Table c = c_Table c' → c = c';
  co_schema c : c ∈ copies → c_Schema c = schema_of (c_Table c);
  co_live c : c ∈ copies → id_of c ∉ retired;
  co_nodup : NoDup copies }.

Definition tj_ok (o : N) (snapshot k : string) (tj : TableJournal) : Prop :=
  tj_true (schema_of (tj_Copy tj)) tj ∧
  (tj_Diverged tj = [] → tj_Foreign tj = false → (o, k, tj_IncarnationSeq tj, tj_Copy tj) ∉ retired →
   snapshot ≠ EmptyString → closes (table_of snapshot k) tj).

(** Every journaled table is of a ready copy or of one that is gone for good. *)
Definition covered (copies : list Copy) (o : N) (k : string) (tj : TableJournal) : Prop :=
  (o, k, tj_IncarnationSeq tj, tj_Copy tj) ∈ retired ∨
  ∃ c, c ∈ copies ∧ c_Ready c = true ∧ c_Owner c = o ∧ c_TableKey c = k ∧ same_copy c tj = true.

Definition journal_ok (copies : list Copy) (j : Journal) : Prop :=
  ∀ o oj k tj, j_Owners j !! o = Some oj → oj_Tables oj !! k = Some tj →
    tj_ok o (oj_SnapshotID oj) k tj ∧ covered copies o k tj.

Definition jinv (s : St) : Prop :=
  journal_ok (st_copies s) (i_journal (st_i s)) ∧
  from_option (journal_ok (st_copies s)) True (f_cur (st_file s)) ∧
  from_option (journal_ok (st_copies s)) True (f_durable (st_file s)).

(** The installer reports the copy clean, with this journal. *)
Definition clean (i : Installer) (c : Copy) (tj : TableJournal) : Prop :=
  auditKey c ∈ i_audited i ∧ pending_of i (c_Owner c) (c_TableKey c) = 0 ∧
  stored i (c_Owner c) (c_TableKey c) = Some tj ∧ same_copy c tj = true ∧ tj_Diverged tj = [] ∧ tj_Foreign tj = false.

Definition honest_but (X : list string) (s : St) : Prop :=
  ∀ c tj, c ∈ st_copies s → c_Ready c = true → c_Table c ∉ X → clean (st_i s) c tj → agrees (st_ch s) c tj.

Definition inv (s : St) : Prop := copies_ok (st_copies s) ∧ jinv s ∧ honest_but [] s.

(** ** Drifting *)
Definition drifts (X : list string) (s s' : St) : Prop :=
  st_copies s' = st_copies s ∧
  (∀ o k tj, stored (st_i s') o k = Some tj → tj_Diverged tj = [] → tj_Foreign tj = false → stored (st_i s) o k = Some tj) ∧
  (∀ o k, pending_of (st_i s') o k = 0 → pending_of (st_i s) o k = 0) ∧
  i_audited (st_i s') ⊆ i_audited (st_i s) ∧
  (∀ t, t ∉ X → parts_of (st_ch s') ReplicaDB t = parts_of (st_ch s) ReplicaDB t) ∧
  (jinv s → jinv s').


#[global] Instance drifts_preorder X : PreOrder (drifts X).
Proof.
  split.
  - intros s. by split_and!.
  - intros a b c (Hc1 & Hs1 & Hp1 & Ha1 & Ht1 & Hj1) (Hc2 & Hs2 & Hp2 & Ha2 & Ht2 & Hj2). split_and!.
    + congruence.
    + intros o k tj Hst Hd Hf. apply Hs1; [|done..]. by apply Hs2.
    + intros o k Hz. by apply Hp1, Hp2.
    + etrans; done.
    + intros t Ht. by rewrite Ht2, Ht1.
    + intros Hj. by apply Hj2, Hj1.
Qed.

Lemma drifts_mono X Y s s' : X ⊆ Y → drifts X s s' → drifts Y s s'.
Proof. intros HX (?&?&?&?&Ht&?). split_and!; try done. intros t Hn. apply Ht. set_solver. Qed.
(** From now on the ready copies are [C]. *)
Context (C : list Copy) (HC : copies_ok C).

Definition Drifts {A} (X : list string) (m : Installer.M A) : Prop :=
  ∀ s r s', st_copies s = C → m s = (r, s') → drifts X s s'.

Lemma Drifts_mono {A} X Y (m : Installer.M A) : X ⊆ Y → Drifts X m → Drifts Y m.
Proof. intros HX Hm s r s' Hs Hr. eapply drifts_mono; eauto. Qed.

Lemma leaves_drifts X s s' : leaves X s s' → drifts X s s'.
Proof.
  intros ((Hj & Hp & Ha & _) & Hf & Hc & Ht). split_and!; try done.
  - intros o k tj. unfold stored. by rewrite Hj.
  - intros o k. unfold pending_of. by rewrite Hp.
  - by rewrite Ha.
  - unfold jinv. by rewrite Hj, Hf, Hc.
Qed.
Lemma Drifts_leaves {A} X (m : Installer.M A) : Leaves X m → Drifts X m.
Proof. intros Hm s r s' _ Hr. eapply leaves_drifts, Hm, Hr. Qed.

Lemma Drifts_bind {A B} X (m : Installer.M A) (f : A → Installer.M B) : Drifts X m → (∀ a, Drifts X (f a)) → Drifts X (m ≫= f).
Proof.
  intros Hm Hf s r s' Hs [(a & s1 & Hm1 & Hf1)|(e & Hm1 & _)]%run_inv; [|by eapply Hm].
  pose proof (Hm _ _ _ Hs Hm1) as Hd. etrans; [exact Hd|]. eapply Hf; [|exact Hf1]. by destruct Hd as [-> _].
Qed.
Lemma Drifts_attempt {A} X (m : Installer.M A) : Drifts X m → Drifts X (attempt m).
Proof. intros Hm s r s' Hs (x & Hx & _)%try_inv. by eapply Hm. Qed.
Lemma Drifts_ret {A} X (a : A) : Drifts X (mret a).
Proof. apply Drifts_leaves, Leaves_ret. Qed.
Lemma Drifts_fail {A} X e : Drifts X (fail (A:=A) e).
Proof. apply Drifts_leaves, Leaves_fail. Qed.
Lemma Drifts_finally {A} X (m : Installer.M A) h : Drifts X m → Drifts X h → Drifts X (finally m h).
Proof. 
  intros Hm Hh s r s' Hs (s1 & x & H1 & H2)%defer_inv. pose proof (Hm _ _ _ Hs H1) as Hd. etrans; [exact Hd|].
  eapply Hh; [|exact H2]. by destruct Hd as [-> _].
Qed.

Lemma clean_drifts X s s' c tj : drifts X s s' → clean (st_i s') c tj → clean (st_i s) c tj.
Proof.
  intros (_ & Hs & Hp & Ha & _) (Hau & Hpe & Hst & Hsc & Hd & Hf). split_and!; try done.
  - by apply Ha.
  - by apply Hp.
  - by apply Hs.
Qed.

Lemma agrees_parts s s' c tj :
  parts_of (st_ch s') ReplicaDB (c_Table c) = parts_of (st_ch s) ReplicaDB (c_Table c) →
  agrees (st_ch s) c tj → agrees (st_ch s') c tj.
Proof. intros Hp. unfold agrees, copy_keys, live. by rewrite Hp. Qed.

Lemma honest_drifts X Y s s' : drifts X s s' → X ⊆ Y → honest_but Y s → honest_but Y s'.
Proof.
  intros Hd HXY Hh c tj Hc Hr Ht Hcl. pose proof (clean_drifts _ _ _ _ _ Hd Hcl) as Hcl'.
  destruct Hd as (Hcs & _ & _ & _ & Hp & _). rewrite Hcs in Hc.
  apply (agrees_parts s); [apply Hp; set_solver|by apply Hh].
Qed.

Lemma inv_drifts s s' : drifts [] s s' → inv s → inv s'.
Proof.
  intros Hd (Hc & Hj & Hh). pose proof Hd as (Hcs & _ & _ & _ & _ & Hji).
  split_and!; [by rewrite Hcs|by apply Hji|by eapply honest_drifts].
Qed.

(** ** Journal writes *)

(** What a change of the journal must keep. *)
Definition keeps (fn : Journal → option Journal) : Prop :=
  ∀ j j', fn j = Some j' →
    (journal_ok C j → journal_ok C j') ∧
    ∀ o k tj, (oj ← j_Owners j' !! o; oj_Tables oj !! k) = Some tj → tj_Diverged tj = [] → tj_Foreign tj = false →
      (oj ← j_Owners j !! o; oj_Tables oj !! k) = Some tj.

Lemma update_cases fn s r s' : update orc fn s = (r, s') →
  (fn (i_journal (st_i s)) = None ∧ s' = s ∧ r = Ok ()) ∨
  ∃ next f, fn (i_journal (st_i s)) = Some next ∧ st_ch s' = st_ch s ∧ st_copies s' = st_copies s ∧ st_file s' = f ∧
    ((r = Ok () ∧ f = File (Some next) (Some next) ∧ st_i s' = set_journal next (st_i s)) ∨
     (r = Err EWrite ∧ st_i s' = st_i s ∧ (f = st_file s ∨ f = File (Some next) (f_durable (st_file s))))).
Proof.
  unfold update. destruct (fn _) as [next|] eqn:Hfn; [|intros [= <- <-]; by left].
  destruct (writeJournal _ _ _) as [ok f] eqn:Hw. intros [= <- <-]. right. exists next, f. split_and!; try done.
  unfold writeJournal, atomic_replace in Hw. destruct (st_file s) as [cur dur]. simpl in *.
  repeat case_match; simplify_eq; simpl; tauto.
Qed.

Lemma Drifts_update fn : keeps fn → Drifts [] (update orc fn).
Proof.
  intros Hk s r s' HsC [(_ & -> & _)|(next & f & Hfn & Hch & Hcp & Hfile & Hcase)]%update_cases; [done|].
  destruct (Hk _ _ Hfn) as [Hok Hcl].
  destruct Hcase as [(_ & -> & Hi)|(_ & Hi & Hf)]; (split_and!; [done|rewrite ?Hi; try done..|]).
  - rewrite Hch. done.
  - intros (Hj & Hc & Hd). unfold jinv. rewrite HsC in Hj, Hc, Hd. rewrite Hi, Hfile, Hcp, HsC. simpl. split_and!; by apply Hok.
  - rewrite Hch. done.
  - intros (Hj & Hc & Hd). unfold jinv. rewrite HsC in Hj, Hc, Hd. rewrite Hi, Hfile, Hcp, HsC.
    destruct Hf as [->| ->]; simpl; split_and!; try done. by apply Hok.
Qed.

(** A table's journal that no longer claims anything. *)
Lemma with_table_keeps owner c f :
  c ∈ C → c_Ready c = true → c_Owner c = owner →
  (∀ tj, tj_Parts (f tj) = tj_Parts tj ∧ tj_IncarnationSeq (f tj) = tj_IncarnationSeq tj ∧ tj_Copy (f tj) = tj_Copy tj) →
  (∀ tj, tj_Diverged (f tj) ≠ [] ∨ tj_Foreign (f tj) = true) →
  keeps (λ j, Some (with_table owner c f j)).
Proof.
  intros HcC Hr Ho Hf Hcl j j' [= <-].
  set (oj0 := default (mkOJ "" zero_frontier ∅) (j_Owners j !! owner)).
  set (base := match oj_Tables oj0 !! c_TableKey c with
               | Some tj => if same_copy c tj then tj else newTableJournal (c_IncarnationSeq c) (c_Table c)
               | None => newTableJournal (c_IncarnationSeq c) (c_Table c) end).
  assert (∀ o k tj, (oj ← j_Owners (with_table owner c f j) !! o; oj_Tables oj !! k) = Some tj →
    (o = owner ∧ k = c_TableKey c ∧ tj = f base) ∨
    ((o ≠ owner ∨ k ≠ c_TableKey c) ∧ (oj ← j_Owners j !! o; oj_Tables oj !! k) = Some tj)) as Hlook.
  { intros o k tj. unfold with_table, with_owner. simpl. rewrite lookup_insert. case_decide as Ho'; [subst o|eauto]. simpl.
    fold oj0. rewrite lookup_insert. case_decide as Hk; [intros [= <-]; left; subst; done|].
    intros Htj. right. split; [by right|]. unfold oj0 in Htj. destruct (j_Owners j !! owner); [done|].
    simpl in Htj. by rewrite lookup_empty in Htj. }
  split.
  - intros Hj o oj k tj Hoj Htj. destruct (Hlook o k tj) as [(-> & -> & ->)|(Hne & Hold)]; [by rewrite Hoj| |].
    + destruct (Hf base) as (Hp & Hi & Hc). assert (same_copy c (f base) = true) as Hsc.
      { unfold same_copy. rewrite Hi, Hc. unfold base. destruct (oj_Tables oj0 !! c_TableKey c) as [tj0|].
        - destruct (same_copy c tj0) eqn:Hs0; [done|]. simpl. by rewrite !bool_decide_eq_true_2.
        - simpl. by rewrite !bool_decide_eq_true_2. }
      split; [|right; by exists c].
      split; [|intros Hd Hfo; by destruct (Hcl base) as [?|?]; [|congruence]].
      unfold tj_true. rewrite Hp, Hc. unfold base, oj0. destruct (j_Owners j !! owner) as [oj1|] eqn:Hoj1; simpl.
      * destruct (oj_Tables oj1 !! c_TableKey c) as [tj0|] eqn:Htj0; [|by split; constructor].
        destruct (same_copy c tj0); [|by split; constructor]. apply (Hj _ _ _ _ Hoj1 Htj0).
      * rewrite lookup_empty. by split; constructor.
    + assert (∃ oj', j_Owners j !! o = Some oj' ∧ oj_Tables oj' !! k = Some tj ∧ oj_SnapshotID oj' = oj_SnapshotID oj) as (oj' & Hoj' & Htj' & Hsn).
      { destruct (j_Owners j !! o) as [oj'|] eqn:Hoj'; [|done]. exists oj'. split_and!; [done|done|].
        unfold with_table, with_owner in Hoj. simpl in Hoj. rewrite lookup_insert in Hoj. case_decide; [|congruence].
        subst o. rewrite Hoj' in Hoj. by injection Hoj as <-. }
      rewrite <- Hsn. by apply (Hj _ _ _ _ Hoj' Htj').
  - intros o k tj Htj Hd Hfo. destruct (Hlook _ _ _ Htj) as [(-> & -> & ->)|(_ & ?)]; [|done].
    by destruct (Hcl base) as [?|?]; [|congruence].
Qed.

(** ** Marks *)
Lemma mark_all_spec l tj n tj' : mark_all l tj = (n, tj') →
  tj_Parts tj' = tj_Parts tj ∧ tj_IncarnationSeq tj' = tj_IncarnationSeq tj ∧ tj_Copy tj' = tj_Copy tj ∧
  tj_Foreign tj' = tj_Foreign tj ∧ (∀ p, p ∈ tj_Diverged tj' ↔ p ∈ l ∨ p ∈ tj_Diverged tj) ∧
  (n = 0 → tj' = tj).
Proof.
  revert tj n tj'. induction l as [|p l IH]; intros tj n tj'; cbn [mark_all].
  { intros [= <- <-]. split_and!; try done. intros p. rewrite elem_of_nil. tauto. }
  destruct (markDiverged p tj) as [b tj1] eqn:Hm. destruct (mark_all l tj1) as [n1 tj2] eqn:Hl. intros [= <- <-].
  destruct (IH _ _ _ Hl) as (Hp2 & Hi2 & Hc2 & Hf2 & Hd2 & Hn2). pose proof Hm as Hm'.
  apply markDiverged_spec in Hm as (Hp1 & Hi1 & Hc1 & Hf1 & Hd1 & Hb). split_and!; try congruence.
  - intros q. rewrite Hd2, Hd1, elem_of_cons. tauto.
  - destruct b; [done|]. intros Hz. rewrite (Hn2 Hz). unfold markDiverged in Hm'.
    destruct (isDiverged tj p); [by injection Hm' as <-|done].
Qed.

Lemma mark_all_marks l tj : l ≠ [] → tj_Diverged (mark_all l tj).2 ≠ [].
Proof.
  intros Hl Hnil. destruct (mark_all l tj) as [n tj'] eqn:Hm. apply mark_all_spec in Hm as (_ & _ & _ & _ & Hd & _).
  simpl in Hnil. destruct l as [|p l]; [done|]. assert (p ∈ tj_Diverged tj') as Hp by (apply Hd; left; constructor).
  rewrite Hnil in Hp. by apply elem_of_nil in Hp.
Qed.

Lemma keeps_if (b : bool) fn : keeps fn → keeps (λ j, if b then None else fn j).
Proof. destruct b; [by intros _ j j'|done]. Qed.

Lemma Drifts_gets {A B} X (f : St → A) (g : A → Installer.M B) : (∀ a, Drifts X (g a)) → Drifts X (gets f ≫= g).
Proof. intros Hg. apply Drifts_bind; [apply Drifts_leaves, Leaves_gets|done]. Qed.

Lemma Drifts_persist owner c l : c ∈ C → c_Ready c = true → c_Owner c = owner → Drifts [] (persistDiverged orc owner c l).
Proof.
  intros HcC Hr Ho. unfold persistDiverged. case_bool_decide as Hl; [apply Drifts_ret|]. apply Drifts_gets. intros i.
  apply Drifts_bind; [|intros x; apply Drifts_leaves; unfold countDiverged; frame].
  apply Drifts_attempt, Drifts_update. apply keeps_if, with_table_keeps; try done.
  - intros tj. destruct (mark_all l tj) as [n tj'] eqn:Hm. by apply mark_all_spec in Hm as (? & ? & ? & _).
  - intros tj. left. apply mark_all_marks. by intros ->.
Qed.

Lemma persist_ok owner c l s s' tj :
  persistDiverged orc owner c l s = (Ok (), s') → stored (st_i s') owner (c_TableKey c) = Some tj →
  same_copy c tj = true → ∀ p, p ∈ l → p ∈ tj_Diverged tj.
Proof.
  unfold persistDiverged. case_bool_decide as Hl.
  { intros _ _ _ p Hp. destruct l; [by apply elem_of_nil in Hp|done]. }
  intros (i & s0 & [= <- <-] & Hs)%run_ok Hst Hsc p Hp.
  apply run_ok in Hs as (r & s1 & (x & Hu & [= ->])%try_inv & Hs).
  apply run_ok in Hs as ([] & s2 & Hrep & [= Hx <-]). subst x.
  assert (reports (st_i s1) (st_i s2)) as (Hj & _).
  { unfold countDiverged in Hrep. eapply (Leaves_repeat [] _ _ (Leaves_book [] _)), Hrep. }
  assert (stored (st_i s1) owner (c_TableKey c) = Some tj) as Hst1 by (unfold stored in *; by rewrite <- Hj).
  destruct (mark_all l (tableJournal (st_i s) owner c)) as [n tj'] eqn:Hm. simpl in Hu.
  apply mark_all_spec in Hm as (_ & _ & _ & _ & Hd & Hz).
  apply update_cases in Hu as [(Hfn & -> & _)|(next & f & Hfn & _ & _ & _ & [(_ & _ & Hi)|([=] & _)])].
  - case_bool_decide as Hn; [|done]. rewrite (Hz Hn) in Hd. unfold tableJournal in Hd. rewrite Hst1, Hsc in Hd.
    apply Hd. by left.
  - case_bool_decide; [done|]. injection Hfn as <-. rewrite Hi in Hst1. unfold stored in Hst1. simpl in Hst1.
    unfold with_owner in Hst1. simpl in Hst1. rewrite lookup_insert in Hst1. case_decide; [|done]. simpl in Hst1.
    rewrite lookup_insert in Hst1. case_decide; [|done]. injection Hst1 as <-.
    match goal with |- context [mark_all l ?t] => destruct (mark_all l t) as [n2 tj2] eqn:Hm2 end.
    apply mark_all_spec in Hm2 as (_ & _ & _ & _ & Hd2 & _). simpl. apply Hd2. by left.
Qed.

Lemma Drifts_quarantine owner c scratch : c ∈ C → c_Ready c = true → c_Owner c = owner → Drifts [] (quarantine orc owner c scratch).
Proof.
  intros HcC Hr Ho. unfold quarantine. apply Drifts_bind; [|intros r; apply Drifts_ret].
  apply Drifts_attempt, Drifts_update, with_table_keeps; try done. intros tj. by right.
Qed.

Lemma Drifts_fetchNeeds owner c needs rem job : c ∈ C → c_Ready c = true → c_Owner c = owner →
  Drifts [] (fetchNeeds cfg orc owner c needs rem job).
Proof.
  intros HcC Hr Ho. revert rem job. induction needs as [|need needs IH]; intros rem job; [apply Drifts_ret|].
  cbn [fetchNeeds]. case_bool_decide; [apply IH|].
  apply Drifts_bind; [apply Drifts_attempt, Drifts_leaves, Leaves_fetchPart|intros [[[scratch kept]|scratch]|e]].
  - apply IH.
  - apply Drifts_bind; [by apply Drifts_quarantine|intros e; apply Drifts_ret].
  - apply Drifts_ret.
Qed.

Lemma Drifts_fetchJobs owner c jobs : c ∈ C → c_Ready c = true → c_Owner c = owner →
  Drifts [] (fetchJobs cfg orc owner c jobs).
Proof.
  intros HcC Hr Ho. induction jobs as [|job jobs IH]; [apply Drifts_ret|]. cbn [fetchJobs].
  apply Drifts_bind; [by apply Drifts_fetchNeeds|intros [[job1 f1] [e|]]]; [apply Drifts_ret|].
  apply Drifts_bind; [apply IH|intros [[jobs2 f2] e2]]. apply Drifts_ret.
Qed.

(** ** Reconciling in place

    The only statements before the commit drop twins of the copy at hand, and
    a copy that agrees with its journal has none. *)
Lemma agrees_names w c tj p : agrees w c tj → p ∈ live w ReplicaDB (c_Table c) → p_Name p ∈ jp_Name <$> tj_Parts tj.
Proof.
  intros Ha Hp. assert (pkey p ∈ tkeys tj) as (jp & Hk & Hjp)%list_elem_of_fmap.
  { rewrite <- Ha. by apply list_elem_of_fmap_2. }
  injection Hk as -> _ _. by apply list_elem_of_fmap_2.
Qed.

Lemma tableJournal_clean i c tj : clean i c tj → tableJournal i (c_Owner c) c = tj.
Proof. intros (_ & _ & Hst & Hsc & _). unfold tableJournal. by rewrite Hst, Hsc. Qed.

(** Listing and reconciling copy [c] from [s], with its journal. *)
Lemma reconcile_drifts c s s1 r s' local :
  listCopy c s = (Ok local, s1) →
  reconcileCopy cfg orc (c_Owner c) c (tableJournal (st_i s) (c_Owner c) c) local s1 = (r, s') →
  leaves [c_Table c] s s' ∧
  ∀ tj, clean (st_i s) c tj → agrees (st_ch s) c tj → leaves [] s s'.
Proof.
  intros Hl Hr. pose proof (Leaves_listCopy [] c _ _ _ Hl) as Hlv.
  destruct (nonEmpty_spec _ _ _ _ _ (or_introl eq_refl) Hl) as [_ Hloc]. specialize (Hloc _ eq_refl). subst local. split.
  - etrans; [eapply leaves_mono; [|exact Hlv]; set_solver|by eapply Leaves_reconcile].
  - intros tj Hcl Ha. etrans; [exact Hlv|]. eapply reconcile_reads; [|exact Hr].
    rewrite (tableJournal_clean _ _ _ Hcl). intros p Hp. by eapply agrees_names.
Qed.

(** From such a state on, drifting keeps the invariant. *)
Lemma inv_reconciled c s s1 s' :
  c ∈ C → c_Ready c = true → st_copies s = C → inv s → leaves [c_Table c] s s1 →
  (∀ tj, clean (st_i s) c tj → agrees (st_ch s) c tj → leaves [] s s1) → drifts [] s1 s' → inv s'.
Proof.
  intros HcC Hr HsC (Hco & Hj & Hh) Hl Hlc Hd.
  assert (drifts [c_Table c] s s') as Hd'.
  { etrans; [by apply leaves_drifts|]. eapply drifts_mono; [|exact Hd]. set_solver. }
  pose proof Hd' as (Hcs & _ & _ & _ & Hp & Hji). split_and!; [by rewrite Hcs|by apply Hji|].
  intros c' tj Hc' Hr' _ Hcl. pose proof (clean_drifts _ _ _ _ _ Hd' Hcl) as Hcl0. rewrite Hcs in Hc'.
  assert (agrees (st_ch s) c' tj) as Ha by (apply Hh; [done|done|apply not_elem_of_nil|done]).
  destruct (decide (c_Table c' = c_Table c)) as [Heq|Hne].
  - apply (co_tables _ Hco) in Heq as ->; [|done|by rewrite HsC].
    specialize (Hlc _ Hcl0 Ha). apply (agrees_parts s); [|done]. destruct Hlc as (_ & _ & _ & Hp1), Hd as (_ & _ & _ & _ & Hp2 & _).
    rewrite Hp2, Hp1; [done|apply not_elem_of_nil..].
  - apply (agrees_parts s); [|done]. apply Hp. by rewrite list_elem_of_singleton.
Qed.


(** ** Preparing an owner's copies *)
Lemma with_table_others owner c f j o k :
  (o, k) ≠ (owner, c_TableKey c) →
  (oj ← j_Owners (with_table owner c f j) !! o; oj_Tables oj !! k) = (oj ← j_Owners j !! o; oj_Tables oj !! k).
Proof.
  intros Hne. unfold with_table, with_owner. simpl. rewrite lookup_insert. case_decide as Ho; [|done]. subst o. simpl.
  rewrite lookup_insert_ne by congruence. destruct (j_Owners j !! owner); simpl; [done|]. by rewrite lookup_empty.
Qed.

Lemma persist_others owner c l s r s' o k :
  (o, k) ≠ (owner, c_TableKey c) → persistDiverged orc owner c l s = (r, s') →
  stored (st_i s') o k = stored (st_i s) o k.
Proof.
  intros Hne. unfold persistDiverged. case_bool_decide; [by intros [= _ <-]|].
  intros [(i & s0 & [= <- <-] & Hs)|(e & [=] & _)]%run_inv.
  apply run_inv in Hs as [(x & s1 & (y & Hu & _)%try_inv & Hs)|(e & (? & _ & [=])%try_inv & _)].
  assert (stored (st_i s1) o k = stored (st_i s) o k) as <-.
  { apply update_cases in Hu as [(_ & -> & _)|(next & f & Hfn & _ & _ & _ & [(_ & _ & Hi)|(_ & Hi & _)])]; [done| |by rewrite Hi].
    case_bool_decide; [done|]. injection Hfn as <-. rewrite Hi. exact (with_table_others owner c _ _ o k Hne). }
  assert (∀ x s2, repeat_M (mark_all l (tableJournal (st_i s) owner c)).1 (countDiverged owner) s1 = (x, s2) →
    i_journal (st_i s2) = i_journal (st_i s1)) as Hrep.
  { intros z s2 Hz. eapply (Leaves_repeat [] _ _ (Leaves_book [] _)), Hz. }
  assert (i_journal (st_i s') = i_journal (st_i s1)) as Hj.
  { apply run_inv in Hs as [(? & s2 & Hr2 & [= _ <-])|(e & Hr2 & _)]; by apply Hrep in Hr2. }
  unfold stored. by rewrite Hj.
Qed.

Lemma tableJournal_true s c : inv s → st_copies s = C → c ∈ C → tj_true (c_Schema c) (tableJournal (st_i s) (c_Owner c) c).
Proof.
  intros (Hco & (Hj & _) & _) HsC HcC. unfold tableJournal.
  destruct (stored (st_i s) (c_Owner c) (c_TableKey c)) as [tj|] eqn:Hst; [|by split; constructor].
  destruct (same_copy c tj) eqn:Hsc; [|by split; constructor].
  unfold stored in Hst. destruct (j_Owners _ !! c_Owner c) as [oj|] eqn:Hoj; [|done].
  destruct (Hj _ _ _ _ Hoj Hst) as [[Ht _] _]. unfold same_copy in Hsc. unbool.
  rewrite (co_schema _ Hco) by (by rewrite HsC). congruence.
Qed.

Definition not_foreign (i : Installer) (owner : N) (k : string) : Prop :=
  ∀ tj, stored i owner k = Some tj → tj_Foreign tj = false.

Lemma prepareTable_inv c tm s r s' :
  c ∈ C → c_Ready c = true → st_copies s = C → inv s →
  prepareTable cfg orc (c_Owner c) c tm s = (r, s') →
  inv s' ∧ drifts [c_Table c] s s' ∧
  ∀ pass f, r = Ok (pass, f, None) → not_foreign (st_i s) (c_Owner c) (c_TableKey c) →
    (∃ p, pass = Some p ∧ tp_copy p = c ∧ pass_ok tm (st_ch s') p) ∧
    ∀ o k, (o, k) ≠ (c_Owner c, c_TableKey c) → stored (st_i s') o k = stored (st_i s) o k.
Proof.
  intros HcC Hrd HsC Hinv Hs. unfold prepareTable in Hs.
  assert (∀ x s1, prepare_plan cfg orc (c_Owner c) c tm s = (x, s1) →
    ∃ s0, leaves [c_Table c] s s0 ∧ (∀ tj, clean (st_i s) c tj → agrees (st_ch s) c tj → leaves [] s s0) ∧ drifts [] s0 s1 ∧
    (∀ o k, (o, k) ≠ (c_Owner c, c_TableKey c) → stored (st_i s1) o k = stored (st_i s) o k)) as Hplan.
  { intros x s1 Hp. unfold prepare_plan in Hp.
    match type of Hp with (if ?b then _ else _) _ = _ => destruct b; [injection Hp as _ <-; by exists s|] end.
    apply run_inv in Hp as [(i & s0 & [= <- <-] & Hp)|(e & [=] & _)].
    apply run_inv in Hp as [(local & s2 & Hl & Hp)|(e & Hl & _)].
    2: { exists s1. pose proof (Leaves_listCopy [] c _ _ _ Hl) as Hlv. split_and!; try done.
         - eapply leaves_mono; [|exact Hlv]. set_solver.
         - intros o k _. destruct Hlv as ((Hj & _) & _). unfold stored. by rewrite Hj. }
    apply run_inv in Hp as [([rec tj] & s3 & Hr & Hp)|(e & Hr & _)]; pose proof (reconcile_drifts _ _ _ _ _ _ Hl Hr) as [Hlv Hlc].
    - exists s3. split_and!; [done|done| |].
      + destruct (adopt _ _ _) as [marks tj2], (plan _ _ _ _ _) as [[pass pm] err].
        apply run_inv in Hp as [(y & s4 & (z & Hpd & [= ->])%try_inv & Hp)|(e & (? & _ & [=])%try_inv & _)].
        assert (s1 = s4) as -> by (destruct z, err; by injection Hp as _ <-).
        eapply Drifts_persist; [done..| |exact Hpd]. by destruct Hlv as (_ & _ & -> & _).
      + intros o k Hne. assert (stored (st_i s3) o k = stored (st_i s) o k) as <-.
        { destruct Hlv as ((Hj & _) & _). unfold stored. by rewrite Hj. }
        destruct (adopt _ _ _) as [marks tj2], (plan _ _ _ _ _) as [[pass pm] err].
        apply run_inv in Hp as [(y & s4 & (z & Hpd & [= ->])%try_inv & Hp)|(e & (? & _ & [=])%try_inv & _)].
        assert (s1 = s4) as -> by (destruct z, err; by injection Hp as _ <-).
        by eapply persist_others.
    - exists s1. split_and!; [done..|]. intros o k _. destruct Hlv as ((Hj & _) & _). unfold stored. by rewrite Hj. }
  apply run_inv in Hs as [(x & s1 & (y & Hp & [= ->])%try_inv & Hs)|(e & (? & _ & [=])%try_inv & _)].
  destruct (Hplan _ _ Hp) as (s0 & Hlv & Hlc & Hd & Hoth).
  assert (st_copies s1 = C) as Hs1C by (destruct Hd as [-> _], Hlv as (_ & _ & -> & _); done).
  assert (drifts [] s1 s') as Hd'.
  { destruct y as [pass|e]; [|by injection Hs as _ <-].
    apply run_inv in Hs as [([[jobs f] err] & s2 & Hf & Hs)|(e & Hf & _)].
    - injection Hs as _ <-. by eapply Drifts_fetchJobs in Hf.
    - by eapply Drifts_fetchJobs in Hf. }
  assert (drifts [] s0 s') as Hd0 by (by etrans).
  split_and!.
  - exact (inv_reconciled c s s0 s' HcC Hrd HsC Hinv Hlv Hlc Hd0).
  - etrans; [by apply leaves_drifts|]. eapply drifts_mono; [|exact Hd0]. set_solver.
  - intros pass f -> Hnf. destruct y as [p|e]; [|by injection Hs].
    apply run_ok in Hs as ([[jobs f'] err] & s2 & Hf & [= <- <- -> <-]).
    destruct (fetchJobs_spec _ _ _ _ _ _ _ _ _ Hf) as [Hjobs Hl].
    destruct (prepare_plan_ok cfg orc (c_Owner c) c tm s p s1) as [Hpc Hok]; [by apply tableJournal_true| |done|].
    { unfold tableJournal. destruct (stored _ _ _) as [tj|] eqn:Hst; [|done]. destruct (same_copy c tj); [by apply Hnf|done]. }
    split.
    + eexists. split; [done|]. split; [done|]. apply pass_ok_fetched; [|done].
      eapply pass_ok_leaves; [apply (Hl [])|apply not_elem_of_nil|done].
    + intros o k Hne. rewrite <- (Hoth o k Hne). destruct (Hl []) as ((Hj & _) & _). unfold stored. by rewrite Hj.
Qed.

End inv.
