(* ===== verification/InstallOwner.v ===== *)
(** * A pass over one owner keeps the invariant

    applyOwner prepares, verifies, commits and journals the owner's copies.
    Whatever fails on the way, a copy that may have changed is reported
    Diverged until the next pass; when nothing fails, every copy of the owner
    is installed at the update's manifest and the journal says so. *)
From S2P Require Import Prelude LtHash Types Gate Registry ClickHouse InstallJournal Installer InstallLaws InstallReconcile InstallPass InstallInv.
Import InstallJournal Installer Gate.Gate.

Section owner.
Context `{CH : ClickHouse, RS : RowSum, MS : !MemberServer, ML : !MemberLaws}.
Context `{LL : !LtHashLaws, RL : !RowSumLaws, PB : !Published}.
Context (cfg : Config) (orc : Oracle) (retired : list copy_id).
Context (C : list Copy) (HC : copies_ok retired C).
#[local] Abbreviation inv := (inv retired).
#[local] Abbreviation drifts := (drifts retired).

(** ** Preparing every copy *)
Lemma pass_ok_same tm p w w' :
  parts_of w' ReplicaDB (c_Table (tp_copy p)) = parts_of w ReplicaDB (c_Table (tp_copy p)) →
  pass_ok tm w p → pass_ok tm w' p.
Proof. intros Hp []. constructor; try done. unfold live in *. by rewrite Hp. Qed.

(** The copies of one owner that a pass is given. *)
Record owner_copies (owner : N) (l : list Copy) : Prop := {
  oc_in c : c ∈ l → c ∈ C ∧ c_Ready c = true ∧ c_Owner c = owner;
  oc_nodup : NoDup l }.

Lemma owner_copies_cons owner c l : owner_copies owner (c :: l) →
  c ∈ C ∧ c_Ready c = true ∧ c_Owner c = owner ∧ (c ∉ l) ∧ owner_copies owner l.
Proof.
  intros [Hin [Hn Hnd]%NoDup_cons]. destruct (Hin c) as (? & ? & ?); [constructor|].
  split_and!; try done. split; [|done]. intros c' Hc'. apply Hin. by constructor.
Qed.

Lemma drifts_copies X s s' : drifts X s s' → st_copies s' = st_copies s.
Proof. by intros [? _]. Qed.

Lemma other_table c c' : c ∈ C → c' ∈ C → c ≠ c' → c_Table c ≠ c_Table c'.
Proof. intros Hc Hc' Hne Heq. by apply Hne, (co_tables _ _ HC). Qed.
Lemma other_key c c' : c ∈ C → c' ∈ C → c ≠ c' → c_TableKey c ≠ c_TableKey c'.
Proof. intros Hc Hc' Hne Heq. by apply Hne, (co_keys _ _ HC). Qed.

Lemma other_tables c l owner : owner_copies owner l → c ∈ C → c ∉ l → c_Table c ∉ c_Table <$> l.
Proof.
  intros [Hin _] Hc Hn (c' & Heq & Hc')%list_elem_of_fmap.
  apply (co_tables _ _ HC) in Heq; [by subst|done|by apply Hin].
Qed.

Definition prepared (tables : gmap string TableManifest) (w : chs) (p : tablePass) : Prop :=
  pass_ok (tables !! c_TableKey (tp_copy p)) w p.

Lemma drifts_nil X s s' : drifts [] s s' → drifts X s s'.
Proof. apply drifts_mono. by intros x ?%elem_of_nil. Qed.
Lemma drifts_one c l s s' : drifts [c_Table c] s s' → drifts (c_Table <$> c :: l) s s'.
Proof. apply drifts_mono. intros x ->%list_elem_of_singleton. constructor. Qed.
Lemma drifts_tail c l s s' : drifts (c_Table <$> l) s s' → drifts (c_Table <$> c :: l) s s'.
Proof. apply drifts_mono. intros x Hx. by constructor. Qed.

Lemma prepareAll_inv owner tables l s r s' :
  owner_copies owner l → st_copies s = C → inv s →
  prepareAll cfg orc owner tables l s = (r, s') →
  inv s' ∧ drifts (c_Table <$> l) s s' ∧
  ∀ passes f, r = Ok (passes, f, None) → (∀ c, c ∈ l → not_foreign (st_i s) owner (c_TableKey c)) →
    tp_copy <$> passes = l ∧ Forall (prepared tables (st_ch s')) passes.
Proof.
  revert s r s'. induction l as [|c l IH]; intros s r s' Hoc HsC Hi Hs; cbn [prepareAll] in Hs.
  { injection Hs as <- <-. split_and!; [done|done|]. by intros passes f [= <- _] _. }
  apply owner_copies_cons in Hoc as (HcC & Hr & <- & Hn & Hoc).
  apply run_inv in Hs as [(ended & s0 & Ha & Hs)|(e & [=] & _)].
  assert (drifts [] s s0) as Hd0 by (by apply leaves_drifts, (Leaves_ask _ _ _ _ _ Ha)).
  pose proof (inv_drifts _ _ HC _ _ Hd0 Hi) as Hi0.
  destruct ended; [injection Hs as <- <-; split_and!; [done|by apply drifts_nil|done]|].
  assert (st_copies s0 = C) as Hs0C by (by rewrite (drifts_copies _ _ _ Hd0)).
  assert (st_i s0 = st_i s) as Hsi by (by injection Ha as _ <-).
  apply run_inv in Hs as [([[pass f] err] & s1 & Hp & Hs)|(e & Hp & ->)];
    destruct (prepareTable_inv cfg orc retired C HC c _ _ _ _ HcC Hr Hs0C Hi0 Hp) as (Hi1 & Hd1 & Hok1).
  2: { split_and!; [done| |done]. etrans; [by apply drifts_nil|by apply drifts_one]. }
  assert (drifts (c_Table <$> c :: l) s s1) as Hd1'.
  { etrans; [by apply drifts_nil|by apply drifts_one]. }
  assert (st_copies s1 = C) as Hs1C by (by rewrite (drifts_copies _ _ _ Hd1)).
  destruct err as [e|]; [by injection Hs as <- <-|].
  apply run_inv in Hs as [([[passes f'] err] & s2 & Hrec & Hs)|(e & Hrec & ->)];
    destruct (IH _ _ _ Hoc Hs1C Hi1 Hrec) as (Hi2 & Hd2 & Hok2).
  2: { split_and!; [done| |done]. etrans; [exact Hd1'|by apply drifts_tail]. }
  injection Hs as <- <-. split_and!; [done|etrans; [exact Hd1'|by apply drifts_tail]|].
  intros passes' f2 [= <- <- ->] Hnf.
  destruct (Hok1 _ _ eq_refl) as [(p & -> & Hpc & Hpo) Hoth]; [rewrite Hsi; apply Hnf; constructor|].
  destruct (Hok2 _ _ eq_refl) as [Hcs Hall].
  { intros c' Hc' tj. rewrite Hoth, Hsi; [apply Hnf; by constructor|]. intros [= Hk]. 
    apply (co_keys _ _ HC) in Hk; [by subst|by apply (oc_in _ _ Hoc)|done]. }
  split; [by rewrite <- Hcs, <- Hpc|]. constructor; [|done]. unfold prepared. rewrite Hpc.
  eapply pass_ok_same; [|exact Hpo]. rewrite Hpc. destruct Hd2 as (_ & _ & _ & _ & Hp2 & _). apply Hp2.
  by eapply other_tables.
Qed.

(** ** Verifying every pass *)
Lemma Leaves_scratchContent X c s kept : Leaves X (scratchContent c s kept).
Proof. unfold scratchContent. frame_with ltac:((apply Leaves_nonEmpty; by right) || apply Leaves_scan_all). Qed.
Lemma Leaves_verify_scratches X c job l : Leaves X (verify_scratches c job l).
Proof. induction l as [|s l IH]; [apply Leaves_ret|]. cbn [verify_scratches]. frame_with ltac:(apply Leaves_scratchContent || exact IH). Qed.
Lemma Leaves_verify_jobs X c jobs : Leaves X (verify_jobs c jobs).
Proof. induction jobs as [|j l IH]; [apply Leaves_ret|]. cbn [verify_jobs]. frame_with ltac:(apply Leaves_verify_scratches || exact IH). Qed.
Lemma Leaves_verifyAll X passes : Leaves X (verifyAll passes).
Proof. induction passes as [|p l IH]; [apply Leaves_ret|]. cbn [verifyAll]. unfold verify. frame_with ltac:(apply Leaves_verify_jobs || exact IH). Qed.

Definition checked (tables : gmap string TableManifest) (w : chs) (p : tablePass) : Prop :=
  prepared tables w p ∧ verified w (tables !! c_TableKey (tp_copy p)) p.

Lemma calm_sym w w' : calm w w' → calm w' w.
Proof. intros Hc d t Hd. by rewrite Hc. Qed.

Lemma verified_stage w w' tm p : stage_same w w' → verified w tm p → verified w' tm p.
Proof.
  intros Hc. assert (∀ job, stage w' job = stage w job) as Hst by (intros job; by apply stage_same_stage).
  unfold verified, set_after, job_closes. by setoid_rewrite Hst.
Qed.

Lemma verified_calm w w' tm p : calm w w' → verified w tm p → verified w' tm p.
Proof. intros Hc. apply verified_stage. intros t. apply Hc. by right. Qed.

Lemma prepared_calm tables w w' p : calm w w' → prepared tables w p → prepared tables w' p.
Proof. intros Hc. apply pass_ok_same, Hc. by left. Qed.

Lemma verifyAll_spec tables passes s s' :
  Forall (prepared tables (st_ch s)) passes → verifyAll passes s = (Ok (), s') →
  calm (st_ch s) (st_ch s') ∧ Forall (checked tables (st_ch s)) passes.
Proof.
  revert s. induction passes as [|p l IH]; intros s Hp Hs; cbn [verifyAll] in Hs.
  { injection Hs as <-. by split. }
  apply Forall_cons in Hp as [Hp Hall]. apply run_ok in Hs as ([] & s1 & Hv & Hs).
  destruct (verify_spec _ _ _ _ Hp Hv) as [Hc Hver].
  destruct (IH s1) as [Hc2 Hall2]; [|done|].
  { eapply Forall_impl; [exact Hall|]. intros q. by apply prepared_calm. }
  split; [intros d t Hd; by rewrite Hc2, Hc|]. constructor; [done|].
  eapply Forall_impl; [exact Hall2|]. intros q [Hq1 Hq2].
  split; [eapply prepared_calm|eapply verified_calm]; [by apply calm_sym|done|by apply calm_sym|done].
Qed.

(** ** Committing *)

(** The copies a list of passes changes. *)
Definition touched (l : list tablePass) : list string := (λ p, c_Table (tp_copy p)) <$> filter (λ p, length (tp_jobs p) ≠ 0) l.

Definition committed (w w' : chs) (p : tablePass) : Prop :=
  (∀ pid, pid ∉ job_id <$> tp_jobs p → parts_in w' (tp_copy p) pid ≡ₚ parts_in w (tp_copy p) pid) ∧
  ∀ job, job ∈ tp_jobs p → ∃ fresh, parts_in w' (tp_copy p) (job_id job) ≡ₚ
      (if job_repair job then [] else parts_in w (tp_copy p) (job_id job)) ++ fresh ∧
    files <$> fresh ≡ₚ files <$> stage w job.

Lemma touched_app l k : touched (l ++ k) = touched l ++ touched k.
Proof. unfold touched. by rewrite filter_app, fmap_app. Qed.

Lemma commit_leaves owner p : Leaves (touched [p]) (commit cfg orc owner p).
Proof.
  destruct (decide (length (tp_jobs p) = 0)) as [Hz|Hz].
  - unfold commit. rewrite bool_decide_eq_true_2 by done. apply Leaves_ret.
  - unfold touched. rewrite filter_cons_True by done. apply Leaves_commit.
Qed.

Lemma check_ch o db s r s' : check cfg orc o db s = (r, s') → st_ch s' = st_ch s.
Proof.
  unfold check, before, mbind, M_bind, gets, ask, step, mret, M_ret, fail. intros Hs.
  repeat (case_match; simplify_eq/=); done.
Qed.

Lemma commit_spec owner tm p s s' :
  pass_ok tm (st_ch s) p → verified (st_ch s) tm p → commit cfg orc owner p s = (Ok (), s') →
  stage_same (st_ch s) (st_ch s') ∧ committed (st_ch s) (st_ch s') p.
Proof.
  intros Hok [Hver _]. unfold commit. case_bool_decide as Hz.
  { intros [= <-]. split; [done|]. split; [done|]. apply nil_length_inv in Hz. rewrite Hz. by intros ? ?%elem_of_nil. }
  intros ([] & s1 & Hch & Hs)%run_ok.
  apply check_ch in Hch.
  assert (∀ t, live (st_ch s1) ReplicaDB t = live (st_ch s) ReplicaDB t) as Hl by (by rewrite Hch).
  assert (stage_same (st_ch s) (st_ch s1)) as Hss by (by rewrite Hch).
  destruct (commit_jobs_spec orc p (tp_jobs p) s1 s') as (Hss2 & Hrest & Hjobs).
  - apply (po_nodup _ _ _ Hok).
  - intros job Hj. unfold parts_in. by rewrite Hl, (po_local _ _ _ Hok).
  - eapply Forall_impl; [exact Hver|]. intros job [Hj _]. by rewrite (stage_same_stage _ _ _ Hss).
  - done.
  - split; [by etrans|]. unfold parts_in in *. split.
    + intros pid Hpid. by rewrite (Hrest pid Hpid), Hl.
    + intros job Hj. destruct (Hjobs job Hj) as (fr & Hp & Hf). exists fr. by rewrite Hl, (stage_same_stage _ _ _ Hss) in *.
Qed.

Lemma touched_elem l t : t ∈ touched l ↔ ∃ p, p ∈ l ∧ tp_jobs p ≠ [] ∧ c_Table (tp_copy p) = t.
Proof.
  unfold touched. rewrite list_elem_of_fmap. split.
  - intros (p & -> & [Hp ?]%list_elem_of_filter). exists p. split_and!; [done| |done]. intros Hn. by rewrite Hn in Hp.
  - intros (p & Hp & Hj & <-). exists p. split; [done|]. apply list_elem_of_filter. split; [|done]. by intros ?%nil_length_inv.
Qed.

Lemma parts_in_same w w' c pid :
  parts_of w' ReplicaDB (c_Table c) = parts_of w ReplicaDB (c_Table c) → parts_in w' c pid = parts_in w c pid.
Proof. intros Hp. unfold parts_in, live. by rewrite Hp. Qed.

Lemma commit_all_ok owner tables passes dn s s' :
  NoDup ((λ p, c_Table (tp_copy p)) <$> passes) → Forall (checked tables (st_ch s)) passes →
  commit_all cfg orc owner dn passes s = (Ok (), s') →
  leaves (touched passes) s s' ∧ stage_same (st_ch s) (st_ch s') ∧ Forall (committed (st_ch s) (st_ch s')) passes.
Proof.
  revert dn s. induction passes as [|p l IH]; intros dn s Hnd Hall Hs; cbn [commit_all] in Hs.
  { injection Hs as <-. by split_and!. }
  rewrite fmap_cons in Hnd. apply NoDup_cons in Hnd as [Hp Hnd]. apply Forall_cons in Hall as [[Hpr Hver] Hall].
  apply run_ok in Hs as (x & s1 & (r & Hc & [= ->])%try_inv & Hs).
  destruct r as [[]|e]; [|by apply run_ok in Hs as (? & ? & _ & [=])].
  pose proof (commit_leaves _ _ _ _ _ Hc) as Hl1. destruct (commit_spec _ _ _ _ _ Hpr Hver Hc) as [Hss1 Hcm1].
  assert (∀ q, q ∈ l → parts_of (st_ch s1) ReplicaDB (c_Table (tp_copy q)) = parts_of (st_ch s) ReplicaDB (c_Table (tp_copy q))) as Hq.
  { intros q Hq. apply Hl1. intros (p' & ->%list_elem_of_singleton & _ & Heq)%touched_elem. apply Hp. rewrite Heq.
    by apply list_elem_of_fmap_2 with (f := λ p, c_Table (tp_copy p)). }
  assert (∀ j, stage (st_ch s1) j = stage (st_ch s) j) as Hst by (intros j; by apply stage_same_stage).
  rewrite Forall_forall in Hall. destruct (IH (dn ++ [p]) s1 Hnd) as (Hl2 & Hss2 & Hcm2); [|exact Hs|].
  { apply Forall_forall. intros q Hin. destruct (Hall q Hin) as [Hq1 Hq2]. split; [eapply pass_ok_same; [by apply Hq|exact Hq1]|by eapply verified_stage]. }
  assert (parts_of (st_ch s') ReplicaDB (c_Table (tp_copy p)) = parts_of (st_ch s1) ReplicaDB (c_Table (tp_copy p))) as Hp2.
  { apply Hl2. intros (q & Hq1 & _ & Heq)%touched_elem. apply Hp. rewrite <- Heq.
    by apply list_elem_of_fmap_2 with (f := λ p, c_Table (tp_copy p)). }
  split_and!.
  - change (p :: l) with ([p] ++ l). rewrite touched_app. etrans; (eapply leaves_mono; [|eassumption]).
    + intros x Hx. apply elem_of_app. by left.
    + intros x Hx. apply elem_of_app. by right.
  - by etrans.
  - constructor.
    + assert (∀ pid, parts_in (st_ch s') (tp_copy p) pid = parts_in (st_ch s1) (tp_copy p) pid) as Hpi
        by (intros pid; by apply parts_in_same).
      unfold committed. by setoid_rewrite Hpi.
    + rewrite Forall_forall in Hcm2 |- *. intros q Hin. destruct (Hcm2 q Hin) as [Hr Hj]. unfold committed.
      assert (∀ pid, parts_in (st_ch s1) (tp_copy q) pid = parts_in (st_ch s) (tp_copy q) pid) as Hpi
        by (intros pid; by apply parts_in_same, Hq).
      split; [intros pid Hpid; rewrite <- Hpi; by apply Hr|]. intros job Hjob.
      destruct (Hj job Hjob) as (fr & Hfr & Hfi). exists fr. by rewrite <- Hpi, <- Hst.
Qed.

Definition marked (owner : N) (l : list tablePass) (s : St) : St := (markUnjournaled owner l s).2.

Lemma commit_all_err owner passes dn s e s' :
  commit_all cfg orc owner dn passes s = (Err e, s') →
  ∃ s1 l, dn ⊆ l ∧ l ⊆ dn ++ passes ∧ leaves (touched l) s s1 ∧ s' = marked owner l s1.
Proof.
  revert dn s. induction passes as [|p l IH]; intros dn s Hs; cbn [commit_all] in Hs; [done|].
  apply run_inv in Hs as [(x & s1 & (r & Hc & [= ->])%try_inv & Hs)|(? & (? & _ & [=])%try_inv & _)].
  assert (leaves (touched (dn ++ [p])) s s1) as Hl.
  { eapply leaves_mono; [|by eapply commit_leaves]. rewrite touched_app. intros x Hx. apply elem_of_app. by right. }
  destruct r as [[]|e'].
  - destruct (IH _ _ Hs) as (s2 & k & Hk1 & Hk2 & Hl2 & ->). exists s2, k. split_and!; [|by rewrite <- app_assoc in Hk2| |done].
    + intros x Hx. apply Hk1, elem_of_app. by left.
    + etrans; [|exact Hl2]. eapply leaves_mono; [|exact Hl]. intros x (q & Hq & ?)%touched_elem. apply touched_elem. exists q. by split; [apply Hk1|].
  - exists s1, (dn ++ [p]). split_and!; [| |done|by injection Hs as _ <-].
    + intros x Hx. apply elem_of_app. by left.
    + intros x. rewrite !elem_of_app, list_elem_of_singleton, elem_of_cons. tauto.
Qed.

(** ** Copies that may have changed await a pass *)
Lemma unjournaled_pos p : tp_jobs p ≠ [] → unjournaled_parts p ≠ 0.
Proof. intros Hp. unfold unjournaled_parts. case_bool_decide as Hz; [by apply nil_length_inv in Hz|lia]. Qed.

Lemma marked_pending owner l s o k :
  pending_of (st_i (marked owner l s)) o k = 0 →
  pending_of (st_i s) o k = 0 ∧ ∀ p, p ∈ l → tp_jobs p ≠ [] → (owner, c_TableKey (tp_copy p)) ≠ (o, k).
Proof.
  unfold marked, pending_of. simpl. generalize (i_pending (st_i s)). induction l as [|p l IH]; intros m; simpl.
  { intros Hz. split; [done|]. by intros p ?%elem_of_nil. }
  intros [Hm Hl]%IH. case_bool_decide as Hz.
  - split; [done|]. intros q [->|Hq]%elem_of_cons; [by intros ?%unjournaled_pos|by apply Hl].
  - unfold get_or in Hm at 1. rewrite lookup_insert in Hm. case_decide as Hk; [simpl in Hm; lia|].
    split; [exact Hm|]. intros q [->|Hq]%elem_of_cons; [done|by apply Hl].
Qed.

(** The passes over copies of the owner. *)
Definition passes_of (owner : N) (l : list tablePass) : Prop := ∀ p, p ∈ l → tp_copy p ∈ C ∧ c_Owner (tp_copy p) = owner.

Lemma honest_marked owner l s s1 :
  passes_of owner l → inv s → st_copies s = C → leaves (touched l) s s1 → honest_but [] (marked owner l s1).
Proof.
  intros Hps (Hco & _ & Hh) HsC Hl c tj Hc Hr _ (Hau & [Hpe Hne]%marked_pending & Hst & Hrest).
  destruct Hl as ((Hj & Hp & Ha & _) & _ & Hcp & Hparts). change (c ∈ st_copies s1) in Hc. rewrite Hcp in Hc.
  apply (agrees_parts s).
  - apply Hparts. intros (p & Hp1 & Hp2 & Hp3)%touched_elem. destruct (Hps p Hp1) as [HpC HpO].
    apply (co_tables _ _ HC) in Hp3 as <-; [|done|by rewrite <- HsC]. by apply (Hne p Hp1 Hp2); rewrite HpO.
  - apply Hh; [done|done|apply not_elem_of_nil|]. split_and!.
    + by rewrite <- Ha.
    + unfold pending_of in *. by rewrite <- Hp.
    + unfold stored in *. rewrite <- Hj. exact Hst.
    + apply Hrest. 
    + apply Hrest.
    + apply Hrest.
Qed.

Lemma jinv_same s s' :
  i_journal (st_i s') = i_journal (st_i s) → st_file s' = st_file s → st_copies s' = st_copies s →
  jinv retired s → jinv retired s'.
Proof. intros Hj Hf Hc. unfold jinv. by rewrite Hj, Hf, Hc. Qed.

Lemma inv_marked owner l s s1 :
  passes_of owner l → inv s → st_copies s = C → leaves (touched l) s s1 → inv (marked owner l s1).
Proof.
  intros Hps Hi HsC Hl. pose proof (honest_marked _ _ _ _ Hps Hi HsC Hl) as Hh.
  destruct Hi as (Hco & Hj & _), Hl as ((Hjo & _) & Hf & Hcp & _). split_and!; [|by apply (jinv_same s)|done].
  change (copies_ok retired (st_copies s1)). by rewrite Hcp.
Qed.

(** ** Journaling *)
Lemma repeat_count_ch n owner s r s' : repeat_M n (countDiverged owner) s = (r, s') → st_ch s' = st_ch s.
Proof. apply repeat_book_ch. Qed.

Lemma Leaves_journal_passes X owner l : Leaves X (journal_passes owner l).
Proof.
  induction l as [|p l IH]; [apply Leaves_ret|]. cbn [journal_passes].
  unfold countDiverged. frame_with ltac:(apply Leaves_listCopy || exact IH).
Qed.

Lemma journal_passes_same owner l s ps es ms s' :
  journal_passes owner l s = (Ok (ps, es, ms), s') →
  Forall2 (λ p p', tp_copy p' = tp_copy p ∧ tp_jobs p' = tp_jobs p) l ps ∧ (∀ m, m ∈ ms → ∃ p, p ∈ l ∧ m.1 = tp_copy p).
Proof.
  revert s ps es ms. induction l as [|p l IH]; intros s ps es ms Hs; cbn [journal_passes] in Hs.
  { injection Hs as <- <- <- <-. split; [constructor|]. by intros m ?%elem_of_nil. }
  case_bool_decide.
  { apply run_ok in Hs as ([[ps' es'] ms'] & s1 & H1 & [= <- <- <- <-]). destruct (IH _ _ _ _ H1) as [Hf Hm].
    split; [by constructor|]. intros m Hin. destruct (Hm m Hin) as (q & ? & ?). exists q. by split; [constructor|]. }
  apply run_ok in Hs as (x & s1 & (r & Hl & [= ->])%try_inv & Hs). destruct r as [after|e].
  - destruct (journal_jobs _ _ _ _ _) as [tj bad]. apply run_ok in Hs as ([] & s2 & _ & Hs).
    apply run_ok in Hs as ([[ps' es'] ms'] & s3 & H1 & [= <- <- <- <-]). destruct (IH _ _ _ _ H1) as [Hf Hm].
    split; [by constructor|]. intros m [(b & -> & _)%list_elem_of_fmap|Hin]%elem_of_app; [exists p; by split; [constructor|]|].
    destruct (Hm m Hin) as (q & ? & ?). exists q. by split; [constructor|].
  - apply run_ok in Hs as ([[ps' es'] ms'] & s3 & H1 & [= <- <- <- <-]). destruct (IH _ _ _ _ H1) as [Hf Hm].
    split; [by constructor|]. intros m Hin. destruct (Hm m Hin) as (q & ? & ?). exists q. by split; [constructor|].
Qed.

Lemma journal_passes_ok owner l s ps ms s' :
  journal_passes owner l s = (Ok (ps, [], ms), s') →
  Forall2 (λ p p', tp_copy p' = tp_copy p ∧
    journal_jobs (tp_copy p) (p_Name <$> tp_local p) (live (st_ch s) ReplicaDB (c_Table (tp_copy p)))
      (tp_jobs p) (tp_journal p) = (tp_journal p', [])) l ps.
Proof.
  revert s ps ms. induction l as [|p l IH]; intros s ps ms Hs; cbn [journal_passes] in Hs.
  { injection Hs as <- <- <-. constructor. }
  case_bool_decide as Hz.
  { apply run_ok in Hs as ([[ps' es'] ms'] & s1 & H1 & [= <- -> <- <-]). constructor; [|by eapply IH].
    apply nil_length_inv in Hz. by rewrite Hz. }
  apply run_ok in Hs as (x & s1 & (r & Hl & [= ->])%try_inv & Hs). destruct r as [after|e].
  - destruct (nonEmpty_spec _ _ _ _ _ (or_introl eq_refl) Hl) as [Hc1 Haft]. specialize (Haft _ eq_refl). subst after.
    destruct (journal_jobs _ _ _ _ _) as [tj bad] eqn:Hjj. apply run_ok in Hs as ([] & s2 & Hrep & Hs).
    apply run_ok in Hs as ([[ps' es'] ms'] & s3 & H1 & [= <- Hes <- <-]).
    apply app_eq_nil in Hes as [->%fmap_nil_inv ->]. constructor; [done|].
    specialize (IH _ _ _ H1). eapply Forall2_impl; [exact IH|]. intros q q' [? Hq]. split; [done|].
    apply repeat_count_ch in Hrep. rewrite Hrep in Hq. rewrite (calm_live _ _ _ _ (or_introl eq_refl) Hc1) in Hq. done.
  - by apply run_ok in Hs as ([[ps' es'] ms'] & s3 & H1 & [= <- ? <- <-]).
Qed.

Lemma keeps_tables owner g :
  (∀ ts k tj, g ts !! k = Some tj → ts !! k = Some tj ∨ ∃ tj0, ts !! k = Some tj0 ∧ tj_Parts tj = tj_Parts tj0 ∧
     tj_IncarnationSeq tj = tj_IncarnationSeq tj0 ∧ tj_Copy tj = tj_Copy tj0 ∧ tj_Diverged tj ≠ []) →
  keeps retired C (λ j, Some (with_owner owner (with_tables g) j)).
Proof.
  intros Hg j j' [= <-].
  assert (∀ o oj' k tj, j_Owners (with_owner owner (with_tables g) j) !! o = Some oj' → oj_Tables oj' !! k = Some tj →
    ∃ oj, j_Owners j !! o = Some oj ∧ oj_SnapshotID oj' = oj_SnapshotID oj ∧
      (oj_Tables oj !! k = Some tj ∨ ∃ tj0, oj_Tables oj !! k = Some tj0 ∧ tj_Parts tj = tj_Parts tj0 ∧
        tj_IncarnationSeq tj = tj_IncarnationSeq tj0 ∧ tj_Copy tj = tj_Copy tj0 ∧ tj_Diverged tj ≠ [])) as Hlook.
  { intros o oj' k tj. unfold with_owner. simpl. rewrite lookup_insert. case_decide as Ho; [|eauto]. subst o.
    intros [= <-] Htj. simpl in Htj. destruct (j_Owners j !! owner) as [oj|]; simpl in Htj; [by eauto|].
    apply Hg in Htj as [Htj|(? & Htj & _)]; by rewrite lookup_empty in Htj. }
  split.
  - intros Hj o oj' k tj Hoj' Htj. destruct (Hlook _ _ _ _ Hoj' Htj) as (oj & Hoj & -> & [Hold|(tj0 & Hold & Hp & Hi & Hc & Hd)]).
    + by apply (Hj o oj).
    + destruct (Hj _ _ _ _ Hoj Hold) as [[Ht _] Hcov]. split; [|unfold covered, same_copy in *; by rewrite Hi, Hc].
      split; [unfold tj_true; by rewrite Hp, Hc|done].
  - intros o k tj. destruct (j_Owners (with_owner _ _ j) !! o) as [oj'|] eqn:Hoj'; [|done]. simpl. intros Htj Hd Hf.
    destruct (Hlook _ _ _ _ Hoj' Htj) as (oj & -> & _ & [Hold|(? & _ & _ & _ & _ & ?)]); done.
Qed.

Lemma keeps_trans f g : keeps retired C (λ j, Some (f j)) → keeps retired C (λ j, Some (g j)) → keeps retired C (λ j, Some (g (f j))).
Proof.
  intros Hf Hg j j' [= <-]. destruct (Hf j _ eq_refl) as [Hf1 Hf2], (Hg (f j) _ eq_refl) as [Hg1 Hg2].
  split; [by intros ?%Hf1%Hg1|]. intros o k tj Htj Hd Hfo. apply Hf2; [|done..]. by apply Hg2.
Qed.

Lemma keeps_mismatches owner ms : keeps retired C (λ j, Some (mark_mismatches owner ms j)).
Proof.
  unfold mark_mismatches. induction ms as [|m ms IH]; [by intros j j' [= <-]|]. simpl.
  refine (keeps_trans (with_owner owner _) _ (keeps_tables owner _ _) IH).
  intros ts k tj. destruct (ts !! c_TableKey m.1) as [tj0|] eqn:Ht; [|by left].
  case_bool_decide; [|by left]. rewrite lookup_insert. case_decide as Hk; [|by left]. subst k. intros [= <-]. right.
  exists tj0. destruct (markDiverged m.2 tj0) as [b tj1] eqn:Hm. apply markDiverged_spec in Hm as (Hp & Hi & Hc & _ & Hd & _).
  simpl. split_and!; try done. intros Hnil. assert (m.2 ∈ tj_Diverged tj1) as Hin by (apply Hd; by left).
  rewrite Hnil in Hin. by apply elem_of_nil in Hin.
Qed.

(** The owner's journal after a pass. *)
Definition journaled (snapshot : string) (entry : TrackFrontier) (ps : list tablePass) (oj : OwnerJournal) : OwnerJournal :=
  mkOJ snapshot entry (foldl (λ ts p, <[c_TableKey (tp_copy p) := tp_journal p]> ts) (oj_Tables oj) ps).

Lemma journaled_lookup ps (ts : gmap string TableJournal) k tj :
  foldl (λ ts p, <[c_TableKey (tp_copy p) := tp_journal p]> ts) ts ps !! k = Some tj →
  (∃ p, p ∈ ps ∧ c_TableKey (tp_copy p) = k ∧ tp_journal p = tj) ∨
  (k ∉ (λ p, c_TableKey (tp_copy p)) <$> ps) ∧ ts !! k = Some tj.
Proof.
  revert ts. induction ps as [|p ps IH]; intros ts; simpl; [right; by split; [apply not_elem_of_nil|]|].
  intros [(q & ? & ? & ?)|[Hn Hl]]%IH; [left; exists q; by split; [constructor|]|].
  rewrite lookup_insert in Hl. case_decide as Hk; [left; exists p; injection Hl; by split; [constructor|]|].
  right. split; [|done]. by apply not_elem_of_cons.
Qed.

Lemma journaled_is_Some ps (ts : gmap string TableJournal) k :
  k ∈ (λ p, c_TableKey (tp_copy p)) <$> ps ∨ is_Some (ts !! k) →
  is_Some (foldl (λ ts p, <[c_TableKey (tp_copy p) := tp_journal p]> ts) ts ps !! k).
Proof.
  revert ts. induction ps as [|p ps IH]; intros ts; simpl; [by intros [?%elem_of_nil|?]|].
  intros Hk. apply IH. rewrite lookup_insert. case_decide; [by right|].
  destruct Hk as [[?|?]%elem_of_cons|?]; [congruence|by left|by right].
Qed.

Section journaling.
Context (owner : N) (u : Update) (entry : TrackFrontier) (l : list Copy) (w : chs) (ps : list tablePass).
#[local] Abbreviation tables := (manifest_tables (u_Manifest u)).
Hypothesis Hoc : owner_copies owner l.
Hypothesis Hall : ∀ c, c ∈ C → c_Ready c = true → c_Owner c = owner → c ∈ l.
Hypothesis Hpub : ∀ k, tables !! k = table_of (u_SnapshotID u) k.
Hypothesis Hps : tp_copy <$> ps = l.
Hypothesis Hin : ∀ p, p ∈ ps → installed (tables !! c_TableKey (tp_copy p)) w (tp_copy p) (tp_journal p).

Lemma passes_copies p : p ∈ ps → tp_copy p ∈ C ∧ c_Ready (tp_copy p) = true ∧ c_Owner (tp_copy p) = owner.
Proof. intros Hp. apply (oc_in _ _ Hoc). rewrite <- Hps. by apply list_elem_of_fmap_2. Qed.

Lemma copy_pass c : c ∈ l → ∃ p, p ∈ ps ∧ tp_copy p = c.
Proof. rewrite <- Hps. intros (p & -> & Hp)%list_elem_of_fmap. eauto. Qed.

Lemma journaled_ok j : journal_ok retired C j →
  journal_ok retired C (with_owner owner (journaled (u_SnapshotID u) entry ps) j).
Proof.
  intros Hj o oj k tj. unfold with_owner. simpl. rewrite lookup_insert. case_decide as Ho; [subst o|by apply Hj].
  intros [= <-]. simpl. intros [(p & Hp & <- & <-)|[Hn Hold]]%journaled_lookup.
  - destruct (passes_copies p Hp) as (HpC & Hpr & Hpo), (Hin p Hp) as [Ht Hsc Hf Hd _ Hcl].
    split; [|right; by exists (tp_copy p)]. split; [|by rewrite <- Hpub].
    unfold same_copy in Hsc. unbool. replace (schema_of (tj_Copy (tp_journal p))) with (c_Schema (tp_copy p)); [done|].
    rewrite (co_schema _ _ HC) by done. congruence.
  - destruct (j_Owners j !! owner) as [oj|] eqn:Hoj; simpl in Hold; [|by rewrite lookup_empty in Hold].
    destruct (Hj _ _ _ _ Hoj Hold) as [[Ht _] [Hret|(c & HcC & Hcr & Hco & <- & _)]].
    + split; [|by left]. split; [done|]. intros _ _ Hnr. done.
    + destruct Hn. destruct (copy_pass c) as (p & Hp & <-); [by apply Hall|].
      by apply list_elem_of_fmap_2 with (f := λ p, c_TableKey (tp_copy p)).
Qed.

Lemma journaled_stored i j c :
  c ∈ l → ∃ p, p ∈ ps ∧ tp_copy p = c ∧
    stored (set_journal (with_owner owner (journaled (u_SnapshotID u) entry ps) j) i) owner (c_TableKey c) = Some (tp_journal p).
Proof.
  intros Hc. destruct (copy_pass c Hc) as (p & Hp & <-).
  unfold stored, with_owner. simpl. rewrite lookup_insert, decide_True by done. simpl.
  edestruct (journaled_is_Some ps) as [tj Htj]; [left; by apply (list_elem_of_fmap_2 (λ p, c_TableKey (tp_copy p)))|].
  rewrite Htj. apply journaled_lookup in Htj as [(q & Hq & Hk & <-)|[[] _]].
  - exists q. apply (co_keys _ _ HC) in Hk; [done|by apply passes_copies..].
  - by apply (list_elem_of_fmap_2 (λ p, c_TableKey (tp_copy p))).
Qed.
End journaling.

Lemma leaves_drifts_nil s s' : leaves [] s s' → drifts [] s s'.
Proof. apply leaves_drifts. Qed.

Lemma touched_same l ps :
  Forall2 (λ p p', tp_copy p' = tp_copy p ∧ tp_jobs p' = tp_jobs p) l ps → touched ps = touched l.
Proof.
  unfold touched. induction 1 as [|p p' l ps [Hc Hj] _ IH]; [done|]. rewrite !filter_cons, Hj.
  case_decide; [|done]. by rewrite !fmap_cons, IH, Hc.
Qed.

(** What a pass over [l] that succeeded leaves behind. *)
Definition owner_installed (u : Update) (owner : N) (entry : TrackFrontier) (l : list Copy) (s : St) : Prop :=
  (∃ oj, j_Owners (i_journal (st_i s)) !! owner = Some oj ∧ oj_SnapshotID oj = u_SnapshotID u ∧ oj_Entry oj = entry) ∧
  ∀ c, c ∈ l → pending_of (st_i s) owner (c_TableKey c) = 0 ∧ ∃ tj, stored (st_i s) owner (c_TableKey c) = Some tj ∧
    installed (manifest_tables (u_Manifest u) !! c_TableKey c) (st_ch s) c tj.

Lemma pending_cleared owner ps m o k :
  get_or 0 (foldl (λ m p, delete (pendingKey owner (c_TableKey (tp_copy p))) m) m ps) (o, k) =
  if bool_decide ((o, k) ∈ (λ p, (owner, c_TableKey (tp_copy p))) <$> ps) then 0 else get_or 0 m (o, k).
Proof using CH.
  clear dependent C. clear dependent retired. clear LL RL.
  revert m. induction ps as [|p ps IH]; intros m; simpl; [done|]. rewrite IH. unfold get_or, pendingKey.
  rewrite lookup_delete. repeat case_bool_decide; try case_decide; try done.
  all: set_solver.
Qed.

Lemma repeat_count_total n owner s : ∃ s', repeat_M n (countDiverged owner) s = (Ok (), s').
Proof. revert s. induction n as [|n IH]; intros s; [by eexists|]. apply IH. Qed.

Lemma journal_passes_total owner l s : ∃ x s', journal_passes owner l s = (Ok x, s').
Proof.
  revert s. induction l as [|p l IH]; intros s; [by do 2 eexists|]. cbn [journal_passes]. case_bool_decide.
  { destruct (IH s) as ([[? ?] ?] & s1 & Hs). unfold mbind, M_bind. rewrite Hs. by do 2 eexists. }
  unfold attempt, mbind at 1, M_bind at 1. destruct (listCopy (tp_copy p) s) as [[after|e] s1].
  - destruct (journal_jobs _ _ _ _ _) as [tj bad]. destruct (repeat_count_total (length bad) owner s1) as [s2 H2].
    destruct (IH s2) as ([[? ?] ?] & s3 & Hs). unfold mbind, M_bind. rewrite H2, Hs. by do 2 eexists.
  - destruct (IH s1) as ([[? ?] ?] & s3 & Hs). unfold mbind, M_bind. rewrite Hs. by do 2 eexists.
Qed.

Section journal_pass.
Context (owner : N) (u : Update) (entry : TrackFrontier) (l : list Copy) (passes : list tablePass) (s0 s : St).
#[local] Abbreviation tables := (manifest_tables (u_Manifest u)).
Hypothesis Hoc : owner_copies owner l.
Hypothesis Hall : ∀ c, c ∈ C → c_Ready c = true → c_Owner c = owner → c ∈ l.
Hypothesis Hpub : ∀ k, tables !! k = table_of (u_SnapshotID u) k.
Hypothesis Hps : tp_copy <$> passes = l.
Hypothesis Hinv : inv s0.
Hypothesis HsC : st_copies s0 = C.
Hypothesis Hchk : Forall (checked tables (st_ch s0)) passes.
Hypothesis Hlv : leaves (touched passes) s0 s.
Hypothesis Hcm : Forall (committed (st_ch s0) (st_ch s)) passes.

Lemma journaled_installed ps ms s1 : journal_passes owner passes s = (Ok (ps, [], ms), s1) →
  ∀ p, p ∈ ps → installed (tables !! c_TableKey (tp_copy p)) (st_ch s) (tp_copy p) (tp_journal p).
Proof.
  intros Hj%journal_passes_ok. rewrite Forall_forall in Hchk, Hcm. intros p' Hp'.
  apply list_elem_of_lookup_1 in Hp' as [n Hn]. destruct (Forall2_lookup_r _ _ _ _ _ Hj Hn) as (p & Hp & Hc & Hjj).
  apply list_elem_of_lookup_2 in Hp. destruct (Hchk p Hp) as [Hpr Hver], (Hcm p Hp) as [Hrest Hjobs].
  rewrite Hc. by eapply pass_installs.
Qed.

Lemma passes_owner ps : tp_copy <$> ps = l → passes_of owner ps.
Proof. intros Hl p Hp. destruct (oc_in _ _ Hoc (tp_copy p)) as (? & ? & ?); [rewrite <- Hl; by apply list_elem_of_fmap_2|done]. Qed.

Lemma rejournaled_copies ps es ms s1 : journal_passes owner passes s = (Ok (ps, es, ms), s1) →
  tp_copy <$> ps = l ∧ touched ps = touched passes.
Proof.
  intros [Hf _]%journal_passes_same. split; [|by apply touched_same]. rewrite <- Hps.
  clear -Hf. induction Hf as [|p p' k ps [Hc _] _ IH]; [done|]. by rewrite !fmap_cons, Hc, IH.
Qed.

(** The journal was written: the owner's copies are clean and hold what it says. *)
Lemma honest_journaled ps ms s1 s2 i' :
  journal_passes owner passes s = (Ok (ps, [], ms), s1) →
  st_ch s2 = st_ch s1 → st_copies s2 = C → st_i s2 = i' →
  i_journal i' = with_owner owner (journaled (u_SnapshotID u) entry ps) (i_journal (st_i s1)) →
  i_audited i' = i_audited (st_i s1) →
  i_pending i' = foldl (λ m p, delete (pendingKey owner (c_TableKey (tp_copy p))) m) (i_pending (st_i s1)) ps →
  honest_but [] s2 ∧ owner_installed u owner entry l s2.
Proof.
  intros Hjp Hch Hcp Hi Hj Ha Hpe. pose proof (journaled_installed _ _ _ Hjp) as Hins.
  destruct (rejournaled_copies _ _ _ _ Hjp) as [Hps' Htou].
  assert (leaves (touched passes) s0 s1) as Hlv1 by (etrans; [exact Hlv|by eapply Leaves_journal_passes]).
  pose proof (Leaves_journal_passes [] _ _ _ _ _ Hjp) as (_ & _ & _ & Hp1).
  assert (∀ c, c ∈ l → ∃ p, p ∈ ps ∧ tp_copy p = c ∧ stored i' owner (c_TableKey c) = Some (tp_journal p)) as Hst.
  { intros c Hc. destruct (journaled_stored owner u entry l ps Hoc Hps' i' (i_journal (st_i s1)) c Hc) as (p & Hp & Hpc & Hsto).
    exists p. split_and!; [done..|]. unfold stored in *. rewrite Hj. exact Hsto. }
  assert (∀ p, p ∈ ps → agrees (st_ch s2) (tp_copy p) (tp_journal p)) as Hag.
  { intros p Hp. rewrite Hch. apply (agrees_parts s); [apply Hp1, not_elem_of_nil|by apply Hins]. }
  split.
  - intros c tj Hc Hr _ (Hau & Hz & Hs & Hrest). rewrite Hi in Hau, Hz, Hs. rewrite Hcp in Hc.
    destruct (decide (c_Owner c = owner)) as [Ho|Ho].
    + destruct (Hst c) as (p & Hp & <- & Hsp); [by apply Hall|]. rewrite Ho, Hsp in Hs. injection Hs as <-. by apply Hag.
    + apply (agrees_parts s0).
      * rewrite Hch. apply Hlv1. intros (p & Hp & _ & Heq)%touched_elem.
        destruct (passes_owner _ Hps p Hp) as [HpC HpO]. apply (co_tables _ _ HC) in Heq; [congruence|done|done].
      * destruct Hlv1 as ((Hj1 & Hpe1 & Ha1 & _) & _). destruct Hinv as (_ & _ & Hh).
        apply Hh; [by rewrite HsC|done|apply not_elem_of_nil|]. split_and!; try apply Hrest.
        -- by rewrite <- Ha1, <- Ha.
        -- unfold pending_of, pendingKey in *. rewrite Hpe, pending_cleared, Hpe1 in Hz. case_bool_decide as Hk; [|done].
           apply list_elem_of_fmap in Hk as (p & [= Hk _] & _). done.
        -- unfold stored in *. rewrite Hj in Hs. simpl in Hs. rewrite lookup_insert_ne, Hj1 in Hs by done. done.
  - split.
    + rewrite Hi, Hj. simpl. rewrite lookup_insert, decide_True by done. by eexists.
    + intros c Hc. destruct (Hst c Hc) as (p & Hp & <- & Hsp). rewrite Hi. split.
      * unfold pending_of, pendingKey. rewrite Hpe, pending_cleared. rewrite bool_decide_eq_true_2; [done|].
        by apply (list_elem_of_fmap_2 (λ p, (owner, c_TableKey (tp_copy p)))).
      * exists (tp_journal p). split; [done|]. destruct (Hins p Hp). constructor; try done. by apply Hag.
Qed.

(** The journal could not be written, or a copy does not match: every copy the
    pass touched awaits the next one. *)
Lemma inv_unjournaled ps es ms s1 :
  journal_passes owner passes s = (Ok (ps, es, ms), s1) → inv (marked owner ps s1).
Proof.
  intros Hjp. destruct (rejournaled_copies _ _ _ _ Hjp) as [Hps' Htou].
  apply (inv_marked owner ps s0); [by apply passes_owner|done|done|].
  rewrite Htou. etrans; [exact Hlv|by eapply Leaves_journal_passes].
Qed.

Lemma journalOwner_inv r s' :
  journalOwner orc u owner entry passes s = (r, s') →
  inv s' ∧ st_copies s' = C ∧ (r = Ok () → owner_installed u owner entry l s').
Proof.
  intros Hs. unfold journalOwner in Hs. destruct (journal_passes_total owner passes s) as ([[ps es] ms] & s1 & Hjp).
  apply run_inv in Hs as [(x & s1' & Hjp' & Hs)|(e & Hjp' & _)]; rewrite Hjp in Hjp'; [injection Hjp' as <- <-|done].
  pose proof (inv_unjournaled _ _ _ _ Hjp) as Hmk.
  assert (st_copies s1 = C) as Hs1C.
  { destruct (Leaves_journal_passes [] _ _ _ _ _ Hjp) as (_ & _ & -> & _), Hlv as (_ & _ & -> & _). done. }
  case_bool_decide as Hes; simpl in Hs.
  - apply nil_length_inv in Hes as ->.
    apply run_inv in Hs as [(x & s2 & (y & Hu & [= ->])%try_inv & Hs)|(e & (? & _ & [=])%try_inv & _)].
    apply update_cases in Hu as [([=] & _)|(next & f & [= <-] & Hch & Hcp & Hfile & Hcase)].
    fold (journaled (u_SnapshotID u) entry ps) in Hcase.
    assert (∀ j, journal_ok retired C j → journal_ok retired C (with_owner owner (journaled (u_SnapshotID u) entry ps) j)) as Hok.
    { destruct (rejournaled_copies _ _ _ _ Hjp) as [Hps' _]. intros j. eapply journaled_ok; eauto.
      by eapply journaled_installed. }
    destruct Hmk as (Hco & (Hj & Hc & Hd) & Hh). change (st_copies (marked owner ps s1)) with (st_copies s1) in *.
    change (i_journal (st_i (marked owner ps s1))) with (i_journal (st_i s1)) in *.
    change (st_file (marked owner ps s1)) with (st_file s1) in *.
    destruct Hcase as [(-> & -> & Hi)|(-> & Hi & Hf)].
    + injection Hs as <- <-. match goal with |- InstallInv.inv _ ?t ∧ _ => set (s3 := t) end.
      assert (st_copies s3 = C) as Hs3C by (simpl; congruence).
      destruct (honest_journaled ps ms s1 s3 (st_i s3) Hjp) as [Hh' Hoi]; try done; try (simpl; by rewrite Hi).
      split; [|done]. split_and!; [by rewrite Hs3C| |done].
      unfold jinv. rewrite Hs3C. simpl. rewrite Hi, Hfile. simpl. rewrite Hs1C in *. split_and!; by apply Hok.
    + injection Hs as <- <-. fold (marked owner ps s2).
      split; [|split; [by rewrite <- Hs1C|done]]. split_and!.
      * change (copies_ok retired (st_copies s2)). by rewrite Hcp.
      * unfold jinv. simpl.
        rewrite Hi, Hfile, Hcp, Hs1C. rewrite Hs1C in Hj, Hc, Hd. destruct Hf as [->| ->]; simpl; split_and!; try done. by apply Hok.
      * intros c tj Hc' Hr' Hn Hcl. apply (agrees_parts (marked owner ps s1)); [simpl; by rewrite Hch|].
        apply Hh; try done. { change (c ∈ st_copies s1). by rewrite <- Hcp. } revert Hcl. unfold marked. simpl. by rewrite Hi.
  - apply run_inv in Hs as [([] & s2 & Hm & Hs)|(e & [=] & _)].
    assert (s2 = marked owner ps s1) as -> by (unfold marked; by rewrite Hm). clear Hm.
    apply run_inv in Hs as [(x & s2 & (y & Hu & [= ->])%try_inv & Hs)|(e & (? & _ & [=])%try_inv & _)].
    injection Hs as <- <-.
    assert (drifts [] (marked owner ps s1) s2) as Hd.
    { eapply (Drifts_update orc retired C); [|exact Hs1C|exact Hu]. apply keeps_if, keeps_mismatches. }
    split_and!; [by eapply inv_drifts|by rewrite (drifts_copies _ _ _ Hd)|done].
Qed.

End journal_pass.

(** ** applyOwner *)
Lemma Leaves_setCommitting X owner passes on : Leaves X (setCommitting owner passes on).
Proof. apply Leaves_step. intros s. by split_and!. Qed.

Lemma owner_installed_leaves u owner entry l s s' :
  leaves [] s s' → owner_installed u owner entry l s → owner_installed u owner entry l s'.
Proof.
  intros ((Hj & Hp & _) & _ & _ & Hparts) [Ho Hl]. split; [by rewrite Hj|].
  intros c Hc. destruct (Hl c Hc) as (Hz & tj & Hst & [? ? ? ? Hag ?]). split; [unfold pending_of in *; by rewrite Hp|].
  exists tj. split; [unfold stored in *; by rewrite Hj|]. constructor; try done.
  apply (agrees_parts s); [apply Hparts, not_elem_of_nil|done].
Qed.

Lemma inv_leaves s s' : leaves [] s s' → inv s → inv s'.
Proof. intros Hl. by eapply inv_drifts, leaves_drifts. Qed.
Lemma leaves_copies X s s' : leaves X s s' → st_copies s' = st_copies s.
Proof. by intros (_ & _ & ? & _). Qed.

Definition done_or (P : Prop) {A} (r : result ierr A) : Prop := match r with Ok _ => P | Err _ => True end.

Section apply_owner.
Context (owner : N) (u : Update) (entry : TrackFrontier) (l : list Copy).
#[local] Abbreviation tables := (manifest_tables (u_Manifest u)).
Hypothesis Hoc : owner_copies owner l.
Hypothesis Hall : ∀ c, c ∈ C → c_Ready c = true → c_Owner c = owner → c ∈ l.
Hypothesis Hpub : ∀ k, tables !! k = table_of (u_SnapshotID u) k.
#[local] Abbreviation good := (λ r s', inv s' ∧ st_copies s' = C ∧ done_or (owner_installed u owner entry l s') r).

Lemma good_leaves (r : result ierr unit) s s' : leaves [] s s' → good r s → good r s'.
Proof.
  intros Hl (Hi & Hc & Hd). split_and!; [by eapply inv_leaves|by rewrite (leaves_copies _ _ _ Hl)|].
  destruct r; [|done]. by eapply owner_installed_leaves.
Qed.

Lemma committing_good passes s r s' :
  tp_copy <$> passes = l → Forall (checked tables (st_ch s)) passes → st_copies s = C → inv s →
  (commit_all cfg orc owner [] passes;; journalOwner orc u owner entry passes) s = (r, s') → good r s'.
Proof.
  intros Hps Hchk HsC Hi Hs. apply run_inv in Hs as [([] & s1 & Hc & Hs)|(e & Hc & ->)].
  - assert (NoDup ((λ p, c_Table (tp_copy p)) <$> passes)) as Hnd.
    { assert (((λ p, c_Table (tp_copy p)) <$> passes) = c_Table <$> l) as -> by (by rewrite <- Hps, <- list_fmap_compose).
      apply NoDup_fmap_2_strong; [|by apply (oc_nodup _ _ Hoc)].
      intros a b Ha Hb Heq. by apply (co_tables _ _ HC); [apply (oc_in _ _ Hoc)..|]. }
    destruct (commit_all_ok _ _ _ _ _ _ Hnd Hchk Hc) as (Hlv & _ & Hcm).
    destruct (journalOwner_inv owner u entry l passes s s1 Hoc Hall Hpub Hps Hi HsC Hchk Hlv Hcm _ _ Hs) as (Hi' & HC' & Hd).
    split_and!; [done..|]. destruct r as [[]|]; [by apply Hd|done].
  - destruct (commit_all_err _ _ _ _ _ _ Hc) as (s1 & k & _ & Hk & Hlv & ->). split_and!; [|by rewrite <- HsC; apply (leaves_copies _ _ _ Hlv)|done].
    apply (inv_marked owner k s); [|done..]. intros p Hp. apply (passes_owner owner l Hoc passes Hps). by apply Hk.
Qed.

Lemma prepared_good s r s' :
  (∀ c, c ∈ l → not_foreign (st_i s) owner (c_TableKey c)) → st_copies s = C → inv s →
  ('(passes, keep, err) ← prepareAll cfg orc owner tables l;
   finally (match err with
            | Some e => fail e
            | None => verifyAll passes;; setCommitting owner passes true;;
                finally (commit_all cfg orc owner [] passes;; journalOwner orc u owner entry passes)
                  (setCommitting owner passes false)
            end) (dropScratches keep (concat (scratches <$> passes)))) s = (r, s') → good r s'.
Proof.
  intros Hnf HsC Hi Hs. apply run_inv in Hs as [([[passes keep] err] & s1 & Hp & Hs)|(e & Hp & ->)];
    destruct (prepareAll_inv _ _ _ _ _ _ Hoc HsC Hi Hp) as (Hi1 & Hd1 & Hok);
    pose proof (drifts_copies _ _ _ Hd1) as HC1; rewrite HsC in HC1; [|done].
  apply defer_inv in Hs as (s2 & x & Hs & Hdrop).
  eapply good_leaves; [eapply Leaves_dropScratches, Hdrop|].
  destruct err as [e|]; [injection Hs as <- <-; by split_and!|].
  destruct (Hok _ _ eq_refl Hnf) as [Hps Hpr].
  apply run_inv in Hs as [([] & s3 & Hv & Hs)|(e & Hv & ->)];
    pose proof (Leaves_verifyAll [] _ _ _ _ Hv) as Hlv; [|eapply good_leaves; [exact Hlv|by split_and!]].
  destruct (verifyAll_spec _ _ _ _ Hpr Hv) as [Hcalm Hchk].
  apply run_inv in Hs as [([] & s4 & Hsc & Hs)|(e & [=] & _)].
  pose proof (Leaves_setCommitting [] _ _ _ _ _ _ Hsc) as Hlv2.
  assert (st_ch s4 = st_ch s3) as Hch by (by injection Hsc as <-).
  apply defer_inv in Hs as (s5 & y & Hs & Hsc2).
  eapply good_leaves; [eapply Leaves_setCommitting, Hsc2|].
  assert (leaves [] s1 s4) as Hlv4 by (by etrans). eapply committing_good; [exact Hps| | | |exact Hs].
  - rewrite Hch. eapply Forall_impl; [exact Hchk|]. intros p [Hp1 Hp2].
    split; [by eapply prepared_calm|by eapply verified_calm].
  - by rewrite (leaves_copies _ _ _ Hlv4).
  - by eapply inv_leaves.
Qed.
End apply_owner.

Lemma foreignTables_elem i owner k tj : stored i owner k = Some tj → tj_Foreign tj = true → k ∈ foreignTables i owner.
Proof.
  unfold stored, foreignTables. destruct (j_Owners _ !! owner) as [oj|]; [|done]. simpl. intros Htj Hf.
  apply elem_of_sort_strings, list_elem_of_fmap. exists (k, tj). split; [done|].
  apply list_elem_of_filter. split; [done|]. by apply elem_of_map_to_list.
Qed.

(** A pass over one owner: it keeps the invariant; when it succeeds, the owner
    was ahead, was current, or is now installed. *)
Lemma applyOwner_inv u owner l s r s' :
  owner_copies owner l → (∀ c, c ∈ C → c_Ready c = true → c_Owner c = owner → c ∈ l) →
  (∀ k, manifest_tables (u_Manifest u) !! k = table_of (u_SnapshotID u) k) → st_copies s = C → inv s →
  applyOwner cfg orc u owner l (manifest_tables (u_Manifest u)) s = (r, s') →
  inv s' ∧ st_copies s' = C ∧
  (r = Ok () → ∃ entry, u_Entries u !! owner = Some entry ∧
     ((ownerAhead (st_i s) owner (u_SnapshotID u) entry = true ∧ s' = s) ∨
      (ownerCurrent (st_i s) owner (u_SnapshotID u) l = true ∧ s' = s) ∨ owner_installed u owner entry l s')).
Proof.
  intros Hoc Hall Hpub HsC Hi Hs. unfold applyOwner in Hs.
  destruct (u_Entries u !! owner) as [entry|]; [|by injection Hs as <- <-].
  apply run_inv in Hs as [(i & s1 & [= <- <-] & Hs)|(e & [=] & _)].
  destruct (ownerAhead _ _ _ _) eqn:Hah; [injection Hs as <- <-; split_and!; eauto 6|].
  destruct (ownerCurrent _ _ _ _) eqn:Hcu; [injection Hs as <- <-; split_and!; eauto 7|].
  case_bool_decide as Hfo; [by injection Hs as <- <-|].
  apply run_inv in Hs as [([] & s1 & Hop & Hs)|(e & [=] & _)]. pose proof (Leaves_openGates [] _ _ _ Hop) as Hlv.
  apply defer_inv in Hs as (s2 & x & Hs & Hdn).
  destruct (good_leaves owner u entry l r s2 s') as (Hi' & HC' & Hd); [by eapply Leaves_done| |].
  { eapply prepared_good; [exact Hoc|exact Hall|exact Hpub| |by rewrite (leaves_copies _ _ _ Hlv)|by eapply inv_leaves|exact Hs].
    intros c Hc tj Hst. destruct (tj_Foreign tj) eqn:Hf; [|done]. destruct Hfo. apply Exists_exists.
    exists (c_TableKey c). split; [|by apply list_elem_of_fmap_2]. eapply foreignTables_elem; [|exact Hf].
    destruct Hlv as ((Hj & _) & _). unfold stored in *. by rewrite <- Hj. }
  split_and!; [done..|]. intros ->. exists entry. by split; [|right; right].
Qed.

End owner.
