(* ===== verification/InstallApply.v ===== *)
(** * Audits and Apply keep the invariant

    An audit of a copy makes what the installer reports about it true again; an
    update passes over every owner. *)
From S2P Require Import Prelude LtHash Types Gate Registry ClickHouse InstallJournal Installer InstallLaws InstallReconcile InstallPass InstallInv InstallOwner.
Import InstallJournal Installer Gate.Gate.

Section audits.
Context `{CH : ClickHouse, RS : RowSum, MS : !MemberServer, ML : !MemberLaws}.
Context `{LL : !LtHashLaws, RL : !RowSumLaws, PB : !Published}.
Context (cfg : Config) (orc : Oracle) (retired : list copy_id).
Context (C : list Copy) (HC : copies_ok retired C).
#[local] Abbreviation inv := (inv retired).
#[local] Abbreviation drifts := (drifts retired).

(** ** Computations that keep the invariant *)
Definition Keeps {A} (m : Installer.M A) : Prop :=
  ∀ s r s', st_copies s = C → inv s → m s = (r, s') → inv s' ∧ st_copies s' = C.

Lemma Keeps_leaves {A} (m : Installer.M A) : Leaves [] m → Keeps m.
Proof.
  intros Hm s r s' HsC Hi Hs%Hm. split; [by eapply inv_leaves|]. by rewrite (leaves_copies _ _ _ Hs).
Qed.
Lemma Keeps_bind {A B} (m : Installer.M A) (f : A → Installer.M B) : Keeps m → (∀ a, Keeps (f a)) → Keeps (m ≫= f).
Proof.
  intros Hm Hf s r s' HsC Hi [(a & s1 & H1 & H2)|(e & H1 & _)]%run_inv; [|by eapply Hm].
  destruct (Hm _ _ _ HsC Hi H1). by eapply Hf.
Qed.
Lemma Keeps_attempt {A} (m : Installer.M A) : Keeps m → Keeps (attempt m).
Proof. intros Hm s r s' HsC Hi (x & Hx & _)%try_inv. by eapply Hm. Qed.
Lemma Keeps_each {A} (f : A → Installer.M unit) l : (∀ x, x ∈ l → Keeps (f x)) → Keeps (each orc f l).
Proof.
  induction l as [|x l IH]; intros Hf; [apply Keeps_leaves, Leaves_ret|]. cbn [each].
  apply Keeps_bind; [apply Keeps_leaves; unfold ctxErr; frame|intros _].
  apply Keeps_bind; [apply Keeps_attempt, Hf; constructor|intros ?].
  apply Keeps_bind; [apply IH; intros y Hy; apply Hf; by constructor|intros ?]. apply Keeps_leaves, Leaves_ret.
Qed.
Lemma Keeps_joined es : Keeps (joined es).
Proof. apply Keeps_leaves. unfold joined. frame. Qed.

(** ** One copy's audit *)
Lemma Leaves_content_scan X e t sch id : Leaves X (query e (PartitionContentScan ReplicaDB t sch id)).
Proof.
  apply Leaves_query. intros w r w'. unfold PartitionContentScan.
  destruct (ch_active ReplicaDB t w) as [[ps|] w1] eqn:Ha; pose proof (proj1 (m_active _ _ _ _ _ Ha (or_introl eq_refl))) as Hc1;
    [|by intros [= _ <-]].
  case_bool_decide; [by intros [= _ <-]|].
  destruct (ch_scan _ _ _ _ w1) as [[scans|] w2] eqn:Hs; pose proof (proj1 (m_scan _ _ _ _ _ _ Hs)) as Hc2;
    intros [= _ <-] d tb Hd; by rewrite Hc2, Hc1.
Qed.

Lemma Leaves_scanCopy X c tj : Leaves X (scanCopy c tj).
Proof.
  unfold scanCopy. generalize (partitions tj). intros ids. revert tj.
  generalize (foldl (λ m jp, <[jp_Name jp := jp_PartRowLtHash jp]> m) (∅ : gmap string string)). intros g.
  intros tj. generalize (g (tj_Parts tj)). intros want. revert tj. induction ids as [|id ids IH]; intros tj; [apply Leaves_ret|].
  cbn [scan_partitions]. frame_with ltac:(apply Leaves_content_scan || apply IH).
Qed.

(** What remains of [clean] once the copy is audited. *)
Definition reported (i : Installer) (c : Copy) (tj : TableJournal) : Prop :=
  pending_of i (c_Owner c) (c_TableKey c) = 0 ∧ stored i (c_Owner c) (c_TableKey c) = Some tj ∧
  same_copy c tj = true ∧ tj_Diverged tj = [] ∧ tj_Foreign tj = false.

(** The run of an audit after the listing: reconcile, scan, record. *)
Definition audit_body (trigger : string) (c : Copy) (tj : TableJournal) (local : list Part) : Installer.M unit :=
  '(rec, tj) ← reconcileCopy cfg orc (c_Owner c) c tj local;
  full ← (if bool_decide (trigger = TriggerSelfAudit) then scanCopy c tj else mret []);
  persistDiverged orc (c_Owner c) c (rec_diverged rec ++ full)%list;;
  modify (λ i, set_pending (if bool_decide (length (rec_candidates rec) = 0)
                            then delete (pendingKey (c_Owner c) (c_TableKey c)) (i_pending i)
                            else <[pendingKey (c_Owner c) (c_TableKey c) := length (rec_candidates rec)]> (i_pending i)) i).

(** A copy the reconciliation found to agree with its journal. *)
Lemma reconciled_agrees c s rec tj' s1 tj :
  tj_true (c_Schema c) tj → reconcileCopy cfg orc (c_Owner c) c tj (live (st_ch s) ReplicaDB (c_Table c)) s = (Ok (rec, tj'), s1) →
  tj_Diverged tj = [] → rec_diverged rec = [] → rec_candidates rec = [] → agrees (st_ch s1) c tj.
Proof.
  intros Ht Hr Hd Hrd Hrc. destruct (reconcile_spec _ _ _ _ _ _ _ _ _ Ht Hr) as (_ & _ & _ & _ & Hdiv & Hloc & _ & _ & Hin).
  apply (perm_by_class (kpart (c_Schema c))). intros pid. unfold copy_keys. rewrite <- Hloc.
  change (in_part (c_Schema c) pid (pkey <$> rec_local rec) ≡ₚ in_part (c_Schema c) pid (tkeys tj)).
  rewrite Hin, Hrc, fmap_nil, app_nil_r; [done|]. rewrite Hdiv, Hd, Hrd. by intros [?%elem_of_nil|?%elem_of_nil].
Qed.

Lemma pending_audit (c : Copy) n i o k :
  pending_of (set_pending (if bool_decide (n = 0) then delete (pendingKey (c_Owner c) (c_TableKey c)) (i_pending i)
                           else <[pendingKey (c_Owner c) (c_TableKey c) := n]> (i_pending i)) i) o k =
  if bool_decide ((o, k) = (c_Owner c, c_TableKey c)) then n else pending_of i o k.
Proof.
  unfold pending_of, pendingKey, get_or. simpl. destruct (bool_decide (n = 0)) eqn:Hn; unbool; subst.
  - rewrite lookup_delete. by case_bool_decide; case_decide; simplify_eq.
  - rewrite lookup_insert. by case_bool_decide; case_decide; simplify_eq.
Qed.

Lemma Leaves_full X trigger c tj : Leaves X (if bool_decide (trigger = TriggerSelfAudit) then scanCopy c tj else mret []).
Proof. frame_with ltac:(apply Leaves_scanCopy). Qed.

Lemma leaves_stored X s s' o k : leaves X s s' → stored (st_i s') o k = stored (st_i s) o k.
Proof. intros ((Hj & _) & _). unfold stored. by rewrite Hj. Qed.

Lemma audit_body_inv trigger c s r s' :
  c ∈ C → c_Ready c = true → st_copies s = C → inv s →
  audit_body trigger c (tableJournal (st_i s) (c_Owner c) c) (live (st_ch s) ReplicaDB (c_Table c)) s = (r, s') →
  inv s' ∧ st_copies s' = C ∧ (r = Ok () → ∀ tj, reported (st_i s') c tj → agrees (st_ch s') c tj).
Proof.
  intros HcC Hrd HsC Hi Hs. unfold audit_body in Hs.
  assert (∀ x s1, reconcileCopy cfg orc (c_Owner c) c (tableJournal (st_i s) (c_Owner c) c) (live (st_ch s) ReplicaDB (c_Table c)) s = (x, s1) →
    leaves [c_Table c] s s1 ∧ ∀ t, drifts [] s1 t → inv t ∧ st_copies t = C) as Hrec.
  { intros x s1 Hr. pose proof (Leaves_reconcile _ _ _ _ _ _ _ _ _ Hr) as Hl. split; [done|]. intros t Hd.
    split; [|by rewrite (drifts_copies _ _ _ _ Hd), (leaves_copies _ _ _ Hl)].
    eapply (inv_reconciled retired C HC c s s1); try done. intros tj Hcl Ha. eapply reconcile_reads; [|exact Hr].
    rewrite (tableJournal_clean _ _ _ Hcl). intros p Hp. by eapply agrees_names. }
  apply run_inv in Hs as [([rec tj'] & s1 & Hr & Hs)|(e & Hr & ->)]; destruct (Hrec _ _ Hr) as [Hl1 Hd1]; [|by destruct (Hd1 s')].
  apply run_inv in Hs as [(full & s2 & Hf & Hs)|(e & Hf & ->)]; pose proof (Leaves_full [] _ _ _ _ _ _ Hf) as Hl2;
    [|by destruct (Hd1 s'); [apply leaves_drifts|]].
  assert (st_copies s2 = C) as Hs2C by (by rewrite (leaves_copies _ _ _ Hl2), (leaves_copies _ _ _ Hl1)).
  apply run_inv in Hs as [([] & s3 & Hp & Hs)|(e & Hp & ->)];
    pose proof (Drifts_persist orc retired C (c_Owner c) c _ HcC Hrd eq_refl _ _ _ Hs2C Hp) as Hdp.
  2: { destruct (Hd1 s'); [etrans; [by apply leaves_drifts|done]|done]. }
  destruct (Hd1 s3) as [(Hco & Hji & Hh) Hs3C]; [etrans; [by apply leaves_drifts|done]|]. injection Hs as <- <-.
  set (s3' := set_inst _ s3).
  assert (∀ tj, reported (st_i s3') c tj → agrees (st_ch s3') c tj) as Hag.
  { intros tj (Hz & Hst & Hsc & Hd & Hfo). simpl in Hz. rewrite pending_audit, bool_decide_eq_true_2 in Hz by done.
    change (stored (st_i s3) (c_Owner c) (c_TableKey c) = Some tj) in Hst.
    pose proof (persist_ok _ _ _ _ _ _ _ Hp Hst Hsc) as Hmk. rewrite Hd in Hmk.
    assert (rec_diverged rec = []) as Hrd0.
    { destruct (rec_diverged rec) as [|x ?]; [done|]. specialize (Hmk x). simpl in Hmk. exfalso.
      eapply elem_of_nil, Hmk. constructor. }
    destruct Hdp as (_ & Hso & _ & _ & Hpp & _). apply Hso in Hst; [|done..].
    rewrite (leaves_stored _ _ _ _ _ Hl2), (leaves_stored _ _ _ _ _ Hl1) in Hst.
    assert (tableJournal (st_i s) (c_Owner c) c = tj) as Htj by (unfold tableJournal; by rewrite Hst, Hsc).
    pose proof (tableJournal_true retired C _ _ Hi HsC HcC) as Htrue. rewrite Htj in *.
    apply (agrees_parts s1); [|by eapply reconciled_agrees; [..|apply nil_length_inv]].
    simpl. rewrite Hpp by apply not_elem_of_nil. apply Hl2, not_elem_of_nil. }
  split; [split; [exact Hco|split; [exact Hji|]]|split; [exact Hs3C|by intros _]].
  intros c' tj Hc' Hr' Hn (Hau & Hz & Hrest). destruct (decide (c_TableKey c' = c_TableKey c)) as [Hk|Hne].
  { apply (co_keys _ _ HC) in Hk as ->; [by apply Hag|by rewrite <- Hs3C|done]. }
  apply (Hh c' tj); [done..|]. split_and!; [done| |apply Hrest..].
  simpl in Hz. rewrite pending_audit, bool_decide_eq_false_2 in Hz by congruence. done.
Qed.

Lemma leaves_reported s s' c :
  leaves [] s s' → (∀ tj, reported (st_i s) c tj → agrees (st_ch s) c tj) →
  ∀ tj, reported (st_i s') c tj → agrees (st_ch s') c tj.
Proof.
  intros ((Hj & Hp & _) & _ & _ & Hparts) Hag tj (Hz & Hst & Hrest). apply (agrees_parts s); [apply Hparts, not_elem_of_nil|].
  apply Hag. split_and!; try apply Hrest; [unfold pending_of in *; by rewrite <- Hp|unfold stored in *; by rewrite <- Hj].
Qed.

Lemma auditCopy_inv trigger c s r s' :
  c ∈ C → c_Ready c = true → st_copies s = C → inv s → auditCopy cfg orc trigger c s = (r, s') →
  inv s' ∧ st_copies s' = C ∧ (r = Ok () → ∀ tj, reported (st_i s') c tj → agrees (st_ch s') c tj).
Proof.
  intros HcC Hrd HsC Hi Hs. unfold auditCopy in Hs. apply run_inv in Hs as [(i & s1 & [= <- <-] & Hs)|(e & [=] & _)].
  case_bool_decide as Hfo.
  { injection Hs as <- <-. split_and!; [done..|]. intros _ tj (_ & Hst & _ & _ & Hf). exfalso.
    unfold foreignTables, stored in *. destruct (j_Owners _ !! c_Owner c) as [oj|]; [|by apply elem_of_nil in Hfo].
    apply elem_of_sort_strings, list_elem_of_fmap in Hfo as ([k tj0] & Hk & [Hf0 Hin]%list_elem_of_filter).
    apply elem_of_map_to_list in Hin. simpl in *. rewrite Hk, Hin in Hst. congruence. }
  apply run_inv in Hs as [(local & s1 & Hl & Hs)|(e & Hl & ->)]; pose proof (Leaves_listCopy [] _ _ _ _ Hl) as Hl1.
  2: { split_and!; [by eapply inv_leaves|by rewrite (leaves_copies _ _ _ Hl1)|done]. }
  destruct (nonEmpty_spec _ _ _ _ _ (or_introl eq_refl) Hl) as [Hcalm Hloc]. specialize (Hloc _ eq_refl).
  apply run_inv in Hs as [([] & s2 & Ho & Hs)|(e & [=] & _)]. pose proof (Leaves_openGates [] _ _ _ Ho) as Hl2.
  assert (leaves [] s s2) as Hl02 by (by etrans).
  apply defer_inv in Hs as (s3 & x & Hs & Hdn). pose proof (Leaves_done _ [] _ _ _ _ Hdn) as Hl3.
  destruct (audit_body_inv trigger c s2 r s3) as (Hi3 & HC3 & Hag); [done|done| |by eapply inv_leaves| |].
  - by rewrite (leaves_copies _ _ _ Hl02).
  - assert (tableJournal (st_i s2) (c_Owner c) c = tableJournal (st_i s) (c_Owner c) c) as ->.
    { unfold tableJournal. by rewrite (leaves_stored _ _ _ _ _ Hl02). }
    assert (live (st_ch s2) ReplicaDB (c_Table c) = local) as ->; [|exact Hs].
    subst local. unfold live. destruct Hl02 as (_ & _ & _ & Hp). by rewrite Hp by apply not_elem_of_nil.
  - split_and!; [by eapply inv_leaves|by rewrite (leaves_copies _ _ _ Hl3)|]. intros Hr. eapply leaves_reported; [exact Hl3|by apply Hag].
Qed.

Lemma Keeps_audit_one trigger c : c ∈ C → c_Ready c = true → Keeps (audit_one cfg orc trigger c).
Proof.
  intros HcC Hrd s r s' HsC Hi Hs. unfold audit_one in Hs.
  apply run_inv in Hs as [([] & s1 & Ha & Hs)|(e & Ha & ->)];
    destruct (auditCopy_inv _ _ _ _ _ HcC Hrd HsC Hi Ha) as (Hi1 & HC1 & Hag); [|done].
  injection Hs as <- <-. destruct Hi1 as (Hco & Hj & Hh). split; [|exact HC1]. split; [exact Hco|split; [exact Hj|]].
  intros c' tj Hc' Hr' Hn (Hau & Hrest). destruct (decide (c_TableKey c' = c_TableKey c)) as [Hk|Hne].
  { apply (co_keys _ _ HC) in Hk as ->; [by apply Hag|by rewrite <- HC1|done]. }
  apply Hh; [done..|]. split; [|done]. simpl in Hau. rewrite elem_of_union, elem_of_singleton in Hau.
  destruct Hau as [Hau|]; [|done]. unfold auditKey in Hau. congruence.
Qed.

Lemma Keeps_set_audit done_ : Keeps (modify (λ i, set_audit (i_audited i) done_ (i_auditTrigger i) i)).
Proof.
  intros s r s' HsC Hi [= <- <-]. split; [|done]. eapply inv_drifts; [done..| |exact Hi]. by split_and!.
Qed.

Lemma Keeps_clear_audit t : Keeps (modify (set_audit ∅ false t)).
Proof.
  intros s r s' HsC Hi [= <- <-]. split; [|done]. eapply inv_drifts; [done..| |exact Hi]. by split_and!.
Qed.

Lemma readyCopies_elem s c : c ∈ readyCopies s ↔ c ∈ st_copies s ∧ c_Ready c = true.
Proof. unfold readyCopies. rewrite merge_sort_Permutation, list_elem_of_filter. tauto. Qed.

(** A computation over the ready copies. *)
Lemma Keeps_ready {B} (f : list Copy → Installer.M B) :
  (∀ l, (∀ c, c ∈ l ↔ c ∈ C ∧ c_Ready c = true) → NoDup l → Keeps (f l)) → Keeps (gets readyCopies ≫= f).
Proof.
  intros Hf s r s' HsC Hi Hs. eapply Hf; [| |exact HsC|exact Hi|exact Hs].
  - intros c. rewrite readyCopies_elem. by rewrite HsC.
  - unfold readyCopies. rewrite merge_sort_Permutation. apply NoDup_filter. rewrite HsC. by apply (co_nodup _ _ HC).
Qed.

Lemma Keeps_audit trigger : Keeps (audit cfg orc trigger).
Proof.
  unfold audit. apply Keeps_bind; [apply Keeps_leaves, Leaves_ask|intros now].
  apply Keeps_bind; [apply Keeps_leaves, Leaves_gets|intros b]. match goal with |- Keeps (if ?x then _ else _) => destruct x end.
  { apply Keeps_leaves, Leaves_ret. }
  apply Keeps_bind; [case_bool_decide; [apply Keeps_clear_audit|apply Keeps_leaves, Leaves_ret]|intros _].
  apply Keeps_bind; [apply Keeps_leaves, Leaves_book|intros _]. apply Keeps_ready. intros l Hl _.
  apply Keeps_bind; [|intros errs]. { apply Keeps_each. intros c Hc. by apply Keeps_audit_one; apply Hl. }
  apply Keeps_bind; [apply Keeps_joined|intros _]. apply Keeps_bind; [apply Keeps_set_audit|intros _].
  apply Keeps_leaves. case_bool_decide; [apply Leaves_book|apply Leaves_ret].
Qed.

Lemma Keeps_Audit trigger : Keeps (Audit cfg orc trigger).
Proof. unfold Audit. case_bool_decide; [apply Keeps_leaves, Leaves_fail|apply Keeps_audit]. Qed.

Lemma Keeps_auditUncovered l : (∀ c, c ∈ l ↔ c ∈ C ∧ c_Ready c = true) → Keeps (auditUncovered cfg orc l).
Proof.
  intros Hl. unfold auditUncovered. apply Keeps_bind; [apply Keeps_leaves, Leaves_gets|intros i].
  apply Keeps_bind; [|intros; apply Keeps_joined]. apply Keeps_each. intros c [_ Hc]%list_elem_of_filter.
  by apply Keeps_audit_one; apply Hl.
Qed.

(** ** Apply *)
Definition published (u : Update) : Prop := ∀ k, manifest_tables (u_Manifest u) !! k = table_of (u_SnapshotID u) k.

Lemma Keeps_applyOwner u owner l : published u → (∀ c, c ∈ l ↔ c ∈ C ∧ c_Ready c = true) → NoDup l →
  Keeps (applyOwner cfg orc u owner (filter (λ c, c_Owner c = owner) l) (manifest_tables (u_Manifest u))).
Proof.
  intros Hpub Hl Hnd s r s' HsC Hi Hs. eapply applyOwner_inv in Hs as (? & ? & _); try done.
  - split; [|by apply NoDup_filter]. intros c [? ?%Hl]%list_elem_of_filter. tauto.
  - intros c Hc Hr Ho. apply list_elem_of_filter. by rewrite Hl.
Qed.

Lemma Leaves_checkDiskBudget X : Leaves X (checkDiskBudget cfg).
Proof.
  unfold checkDiskBudget, set_disk. frame_with ltac:(apply Leaves_query; intros ???; apply m_disk).
Qed.

Lemma Keeps_Apply u : published u → Keeps (Apply cfg orc u).
Proof.
  intros Hpub. unfold Apply. case_bool_decide; [apply Keeps_leaves, Leaves_fail|].
  apply Keeps_bind; [apply Keeps_leaves, Leaves_gets|intros i].
  apply Keeps_bind; [|intros _].
  { destruct (i_auditDone i); [apply Keeps_leaves, Leaves_ret|].
    apply Keeps_bind; [apply Keeps_attempt, Keeps_audit|intros [|]; apply Keeps_leaves; frame]. }
  apply Keeps_ready. intros l Hl Hnd.
  apply Keeps_bind; [by apply Keeps_attempt, Keeps_auditUncovered|intros [|e]; [|apply Keeps_leaves, Leaves_fail]].
  apply Keeps_bind; [apply Keeps_leaves, Leaves_checkDiskBudget|intros _].
  apply Keeps_bind; [apply Keeps_leaves, Leaves_gets|intros i'].
  apply Keeps_bind; [|intros; apply Keeps_joined]. apply Keeps_each. intros owner _. by apply Keeps_applyOwner.
Qed.

Lemma Leaves_DropStale X : Leaves X (DropStaleScratch cfg).
Proof.
  unfold DropStaleScratch.
  apply Leaves_bind; [apply Leaves_query; intros ???; apply m_stage_tables|intros names].
  apply Leaves_bind; [apply Leaves_gets|intros kept]. induction names as [|n names IH]; [apply Leaves_ret|].
  cbn [drop_stale]. frame_with ltac:((by apply Leaves_stage) || exact IH).
Qed.
Lemma Keeps_DropStale : Keeps (DropStaleScratch cfg).
Proof. apply Keeps_leaves, Leaves_DropStale. Qed.

End audits.
