(* ===== verification/InstallFrame.v ===== *)
(** * What a pass over one owner does not touch

    applyOwner writes the journal and the pending counts of its own owner only
    and never audits, so the result of each owner's pass survives the passes of
    the others: an update that returns no error leaves every owner's copies
    audited and at the update, or its journal ahead of it. *)
From S2P Require Import Prelude LtHash Types Gate Registry ClickHouse InstallJournal Installer InstallLaws InstallReconcile InstallPass InstallInv InstallOwner InstallApply.
Import InstallJournal Installer Gate.Gate.

Section frame.
Context `{CH : ClickHouse, RS : RowSum, MS : !MemberServer, ML : !MemberLaws}.
Context (cfg : Config) (orc : Oracle) (owner : N).

Definition others (s s' : St) : Prop :=
  (∀ o, o ≠ owner → j_Owners (i_journal (st_i s')) !! o = j_Owners (i_journal (st_i s)) !! o ∧
     ∀ k, pending_of (st_i s') o k = pending_of (st_i s) o k) ∧
  i_audited (st_i s') = i_audited (st_i s) ∧ i_auditDone (st_i s') = i_auditDone (st_i s) ∧
  i_auditTrigger (st_i s') = i_auditTrigger (st_i s) ∧ st_copies s' = st_copies s.

Definition Others {A} (m : Installer.M A) : Prop := ∀ s r s', m s = (r, s') → others s s'.

#[global] Instance others_preorder : PreOrder others.
Proof.
  split; [by intros s; split_and!|]. intros a b c (Hab & ? & ? & ? & ?) (Hbc & ? & ? & ? & ?). split_and!; try congruence.
  intros o Ho. destruct (Hab o Ho) as [Hj1 Hp1], (Hbc o Ho) as [Hj2 Hp2]. split; [congruence|]. intros k. by rewrite Hp2, Hp1.
Qed.

Lemma Others_leaves {A} X (m : Installer.M A) : Leaves X m → Others m.
Proof.
  intros Hm s r s' ((Hj & Hp & Ha & Hd & Ht) & _ & Hc & _)%Hm. split_and!; try done. intros o _.
  rewrite Hj. split; [done|]. intros k. unfold pending_of. by rewrite Hp.
Qed.
Lemma Others_bind {A B} (m : Installer.M A) (f : A → Installer.M B) : Others m → (∀ a, Others (f a)) → Others (m ≫= f).
Proof. intros Hm Hf s r s' [(a & s1 & H1 & H2)|(e & H1 & _)]%run_inv; [etrans; [by eapply Hm|by eapply Hf]|by eapply Hm]. Qed.
Lemma Others_attempt {A} (m : Installer.M A) : Others m → Others (attempt m).
Proof. intros Hm s r s' (x & Hx & _)%try_inv. by eapply Hm. Qed.
Lemma Others_finally {A} (m : Installer.M A) h : Others m → Others h → Others (finally m h).
Proof. intros Hm Hh s r s' (s1 & x & H1 & H2)%defer_inv. etrans; [by eapply Hm|by eapply Hh]. Qed.
Lemma Others_ret {A} (a : A) : Others (mret a).
Proof. apply (Others_leaves []), Leaves_ret. Qed.
Lemma Others_fail {A} e : Others (fail (A:=A) e).
Proof. apply (Others_leaves []), Leaves_fail. Qed.
Lemma Others_gets {A} (f : St → A) : Others (gets f).
Proof. apply (Others_leaves []), Leaves_gets. Qed.
Lemma Others_ask {A} (f : nat → A) : Others (ask f).
Proof. apply (Others_leaves []), Leaves_ask. Qed.
Lemma Others_repeat n f : Others (repeat_M n (book f)).
Proof. apply (Others_leaves []), Leaves_repeat, Leaves_book. Qed.

Lemma Others_update fn : (∀ j j', fn j = Some j' → ∀ o, o ≠ owner → j_Owners j' !! o = j_Owners j !! o) → Others (update orc fn).
Proof.
  intros Hfn s r s' [(_ & -> & _)|(next & f & Hn & Hch & Hcp & Hfile & [(_ & _ & Hi)|(_ & Hi & _)])]%update_cases; [done| |].
  - split; [|by rewrite Hi]. intros o Ho. rewrite Hi. simpl. by split; [by apply (Hfn _ _ Hn)|].
  - split; [|by rewrite Hi]. intros o _. by rewrite Hi.
Qed.

Lemma with_owner_others f j o : o ≠ owner → j_Owners (with_owner owner f j) !! o = j_Owners j !! o.
Proof. intros Ho. unfold with_owner. simpl. by rewrite lookup_insert_ne. Qed.

Lemma Others_persist c l : Others (persistDiverged orc owner c l).
Proof.
  unfold persistDiverged. case_bool_decide; [apply Others_ret|]. apply Others_bind; [apply Others_gets|intros i].
  apply Others_bind; [apply Others_attempt, Others_update|intros r].
  { intros j j'. case_bool_decide; [done|]. intros [= <-] o Ho. by apply with_owner_others. }
  apply Others_bind; [apply Others_repeat|intros _]. apply (Others_leaves []), Leaves_lift.
Qed.

Lemma Others_prepare_plan c tm : Others (prepare_plan cfg orc owner c tm).
Proof.
  unfold prepare_plan. match goal with |- Others (if ?b then _ else _) => destruct b end; [apply Others_fail|].
  apply Others_bind; [apply Others_gets|intros i]. apply Others_bind; [apply (Others_leaves []), Leaves_listCopy|intros local].
  apply Others_bind; [eapply Others_leaves, Leaves_reconcile|intros [rec tj]].
  destruct (adopt _ _ _) as [marks tj'], (plan _ _ _ _ _) as [[pass pm] err].
  apply Others_bind; [apply Others_attempt, Others_persist|intros r].
  destruct r, err; (apply Others_fail || apply Others_ret).
Qed.

Lemma Others_fetchNeeds c needs rem job : Others (fetchNeeds cfg orc owner c needs rem job).
Proof.
  revert rem job. induction needs as [|need needs IH]; intros rem job; [apply Others_ret|]. cbn [fetchNeeds].
  case_bool_decide; [apply IH|].
  apply Others_bind; [apply Others_attempt, (Others_leaves []), Leaves_fetchPart|intros [[[sc kept]|sc]|e]]; [apply IH| |apply Others_ret].
  apply Others_bind; [|intros; apply Others_ret]. unfold quarantine.
  apply Others_bind; [apply Others_attempt, Others_update|intros; apply Others_ret].
  intros j j' [= <-] o Ho. by apply with_owner_others.
Qed.

Lemma Others_fetchJobs c jobs : Others (fetchJobs cfg orc owner c jobs).
Proof.
  induction jobs as [|job jobs IH]; [apply Others_ret|]. cbn [fetchJobs].
  apply Others_bind; [apply Others_fetchNeeds|intros [[j f] [e|]]]; [apply Others_ret|].
  apply Others_bind; [apply IH|intros [[? ?] ?]; apply Others_ret].
Qed.

Lemma Others_prepareAll tables l : Others (prepareAll cfg orc owner tables l).
Proof.
  induction l as [|c l IH]; [apply Others_ret|]. cbn [prepareAll].
  apply Others_bind; [apply Others_ask|intros []]; [apply Others_ret|].
  apply Others_bind; [|intros [[pass f] [e|]]]; [|apply Others_ret|].
  - unfold prepareTable. apply Others_bind; [apply Others_attempt, Others_prepare_plan|intros [p|e]]; [|apply Others_ret].
    apply Others_bind; [apply Others_fetchJobs|intros [[? ?] ?]; apply Others_ret].
  - apply Others_bind; [apply IH|intros [[? ?] ?]; apply Others_ret].
Qed.

Lemma pending_set_others (p : gmap (N * string) nat) s :
  (∀ o k, o ≠ owner → get_or 0 p (o, k) = get_or 0 (i_pending (st_i s)) (o, k)) →
  others s (set_inst (set_pending p (st_i s)) s).
Proof. intros Hp. split_and!; try done. intros o Ho. split; [done|]. intros k. by apply Hp. Qed.

Lemma Others_markUnjournaled l : Others (markUnjournaled owner l).
Proof.
  intros s r s' [= _ <-]. apply pending_set_others. intros o k Ho. generalize (i_pending (st_i s)).
  induction l as [|p l IH]; intros m; [done|]. simpl. rewrite IH. case_bool_decide; [done|].
  unfold get_or, pendingKey. rewrite lookup_insert_ne; [done|congruence].
Qed.

Lemma Others_commit_all dn l : Others (commit_all cfg orc owner dn l).
Proof.
  revert dn. induction l as [|p l IH]; intros dn; [apply Others_ret|]. cbn [commit_all].
  apply Others_bind; [eapply Others_attempt, Others_leaves, Leaves_commit|intros [|e]]; [apply IH|].
  apply Others_bind; [apply Others_markUnjournaled|intros; apply Others_fail].
Qed.

Lemma mismatches_others ms j o : o ≠ owner → j_Owners (mark_mismatches owner ms j) !! o = j_Owners j !! o.
Proof.
  intros Ho. unfold mark_mismatches. revert j. induction ms as [|m ms IH]; intros j; [done|]. simpl.
  rewrite IH. by apply with_owner_others.
Qed.

Lemma Others_journalOwner u entry l : Others (journalOwner orc u owner entry l).
Proof.
  unfold journalOwner. apply Others_bind; [apply (Others_leaves []), Leaves_journal_passes|intros [[ps es] ms]].
  destruct (negb _).
  - apply Others_bind; [apply Others_markUnjournaled|intros _].
    apply Others_bind; [|intros; apply Others_fail]. apply Others_attempt, Others_update.
    intros j j'. case_bool_decide; [done|]. intros [= <-] o Ho. by apply mismatches_others.
  - apply Others_bind; [apply Others_attempt, Others_update|intros [|e]].
    + intros j j' [= <-] o Ho. by apply with_owner_others.
    + apply Others_bind; [|intros _; apply (Others_leaves []), Leaves_book]. intros s r s' [= _ <-].
      apply pending_set_others. intros o k Ho. rewrite pending_cleared, bool_decide_eq_false_2; [done|].
      intros (p & [= Hp _] & _)%list_elem_of_fmap. congruence.
    + apply Others_bind; [apply Others_markUnjournaled|intros; apply Others_fail].
Qed.

Lemma Others_applyOwner u l tables : Others (applyOwner cfg orc u owner l tables).
Proof.
  unfold applyOwner. destruct (u_Entries u !! owner) as [entry|]; [|apply Others_fail].
  apply Others_bind; [apply Others_gets|intros i]. repeat match goal with |- Others (if ?b then _ else _) => destruct b end;
    try apply Others_ret; try apply Others_fail.
  apply Others_bind; [apply (Others_leaves []), Leaves_openGates|intros _].
  apply Others_finally; [|apply (Others_leaves []), Leaves_done].
  apply Others_bind; [apply Others_prepareAll|intros [[passes keep] err]].
  apply Others_finally; [|apply (Others_leaves []), Leaves_dropScratches]. destruct err; [apply Others_fail|].
  apply Others_bind; [apply (Others_leaves []), Leaves_verifyAll|intros _].
  apply Others_bind; [apply (Others_leaves []), Leaves_setCommitting|intros _].
  apply Others_finally; [|apply (Others_leaves []), Leaves_setCommitting].
  apply Others_bind; [apply Others_commit_all|intros _; apply Others_journalOwner].
Qed.
End frame.

Section audits.
Context `{CH : ClickHouse, RS : RowSum, MS : !MemberServer, ML : !MemberLaws}.
Context (cfg : Config) (orc : Oracle).

Lemma Others_auditCopy trigger c : Others (c_Owner c) (auditCopy cfg orc trigger c).
Proof.
  unfold auditCopy. apply Others_bind; [apply Others_gets|intros i]. case_bool_decide; [apply Others_ret|].
  apply Others_bind; [apply (Others_leaves _ []), Leaves_listCopy|intros local].
  apply Others_bind; [apply (Others_leaves _ []), Leaves_openGates|intros _].
  apply Others_finally; [|apply (Others_leaves _ []), Leaves_done].
  apply Others_bind; [eapply Others_leaves, Leaves_reconcile|intros [rec tj]].
  apply Others_bind; [apply (Others_leaves _ []), Leaves_full|intros full].
  apply Others_bind; [apply Others_persist|intros _]. intros s r s' [= _ <-]. apply pending_set_others.
  intros o k Ho. case_bool_decide; unfold get_or, pendingKey; [rewrite lookup_delete_ne|rewrite lookup_insert_ne]; congruence.
Qed.

Lemma others_audited owner s s' : others owner s s' →
  i_audited (st_i s') = i_audited (st_i s) ∧ i_auditDone (st_i s') = i_auditDone (st_i s) ∧
  i_auditTrigger (st_i s') = i_auditTrigger (st_i s) ∧ st_copies s' = st_copies s.
Proof. by intros (_ & ? & ? & ? & ?). Qed.

Lemma others_current owner o s s' snapshot l :
  others owner s s' → o ≠ owner → ownerCurrent (st_i s') o snapshot l = ownerCurrent (st_i s) o snapshot l.
Proof.
  intros [Ho _] Hne. destruct (Ho o Hne) as [Hj Hp]. unfold ownerCurrent. rewrite Hj.
  clear Hj. destruct (j_Owners _ !! o) as [oj|]; [|done]. apply (f_equal2 andb eq_refl). induction l as [|c l IH]; [done|]. simpl. rewrite IH.
  destruct (oj_Tables oj !! c_TableKey c); [|done]. by rewrite Hp.
Qed.

Lemma others_ahead owner o s s' snapshot entry :
  others owner s s' → o ≠ owner → ownerAhead (st_i s') o snapshot entry = ownerAhead (st_i s) o snapshot entry.
Proof. intros [Ho _] Hne. destruct (Ho o Hne) as [Hj _]. unfold ownerAhead. by rewrite Hj. Qed.

(** ** Every element of a joined loop succeeded *)
Lemma each_ok {A} (I : St → Prop) (P : A → St → Prop) (f : A → Installer.M unit) L l s s' :
  (∀ s s', leaves [] s s' → I s → I s') → (∀ x s s', leaves [] s s' → P x s → P x s') →
  (∀ x s s', x ∈ L → I s → f x s = (Ok (), s') → I s' ∧ P x s' ∧ ∀ y, y ∈ L → P y s → P y s') →
  l ⊆ L → I s → each orc f l s = (Ok [], s') → I s' ∧ (∀ y, y ∈ L → P y s → P y s') ∧ ∀ x, x ∈ l → P x s'.
Proof.
  intros HI HP Hf. revert s. induction l as [|x l IH]; intros s Hl Hi Hs; cbn [each] in Hs.
  { injection Hs as <-. split_and!; [done..|]. by intros x ?%elem_of_nil. }
  apply run_ok in Hs as ([] & s1 & Hc & Hs).
  assert (leaves [] s s1) as Hl1.
  { assert (Leaves [] (ctxErr orc)) as HL by (unfold ctxErr; frame). by eapply HL. }
  apply run_ok in Hs as (r & s2 & (y & Hx & [= ->])%try_inv & Hs).
  apply run_ok in Hs as (es & s3 & Hrest & [= Hes <-]). destruct y as [[]|e]; [subst es|done].
  destruct (Hf x s1 s2) as (Hi2 & Hp2 & Hpres); [apply Hl; constructor|by eapply HI|done|].
  destruct (IH s2) as (Hi3 & Hpres3 & Hall); [intros z Hz; apply Hl; by constructor|done|done|]. split_and!; [done| |].
  - intros z Hz Hpz. apply Hpres3, Hpres; [done..|]. by eapply HP.
  - intros z [->|Hz]%elem_of_cons; [|by apply Hall]. apply Hpres3; [apply Hl; constructor|done].
Qed.

Lemma joined_ok es s s' : joined es s = (Ok (), s') → es = [] ∧ s' = s.
Proof. destruct es; [by intros [= <-]|done]. Qed.

(** ** The trigger of the next audit is never the ticker's *)
Definition trig (s : St) : Prop := i_auditTrigger (st_i s) ≠ TriggerSelfAudit.
Definition Trig {A} (m : Installer.M A) : Prop := ∀ s r s', m s = (r, s') → trig s → trig s'.

Lemma Trig_leaves {A} X (m : Installer.M A) : Leaves X m → Trig m.
Proof. intros Hm s r s' ((_ & _ & _ & _ & Ht) & _)%Hm. unfold trig. by rewrite Ht. Qed.
Lemma Trig_others {A} owner (m : Installer.M A) : Others owner m → Trig m.
Proof. intros Hm s r s' (_ & _ & _ & Ht & _)%Hm. unfold trig. by rewrite Ht. Qed.
Lemma Trig_bind {A B} (m : Installer.M A) (f : A → Installer.M B) : Trig m → (∀ a, Trig (f a)) → Trig (m ≫= f).
Proof. intros Hm Hf s r s' [(a & s1 & H1 & H2)|(e & H1 & _)]%run_inv Ht; [eapply Hf, Hm, Ht; eauto|by eapply Hm]. Qed.
Lemma Trig_attempt {A} (m : Installer.M A) : Trig m → Trig (attempt m).
Proof. intros Hm s r s' (x & Hx & _)%try_inv. by eapply Hm. Qed.
Lemma Trig_each {A} (f : A → Installer.M unit) l : (∀ x, Trig (f x)) → Trig (each orc f l).
Proof.
  intros Hf. induction l as [|x l IH]; [apply (Trig_leaves []), Leaves_ret|]. cbn [each].
  apply Trig_bind; [apply (Trig_leaves []); unfold ctxErr; frame|intros _].
  apply Trig_bind; [by apply Trig_attempt|intros ?]. apply Trig_bind; [done|intros ?]. apply (Trig_leaves []), Leaves_ret.
Qed.
Lemma Trig_joined es : Trig (joined es).
Proof. apply (Trig_leaves []). unfold joined. frame. Qed.
Lemma Trig_audit_one trigger c : Trig (audit_one cfg orc trigger c).
Proof. apply Trig_bind; [by eapply Trig_others, Others_auditCopy|intros _]. by intros s r s' [= _ <-]. Qed.
Lemma Trig_audit trigger : Trig (audit cfg orc trigger).
Proof.
  unfold audit. apply Trig_bind; [apply (Trig_leaves []), Leaves_ask|intros now].
  apply Trig_bind; [apply (Trig_leaves []), Leaves_gets|intros b]. match goal with |- Trig (if ?x then _ else _) => destruct x end.
  { apply (Trig_leaves []), Leaves_ret. }
  apply Trig_bind; [case_bool_decide; [by intros s r s' [= _ <-]|apply (Trig_leaves []), Leaves_ret]|intros _].
  apply Trig_bind; [apply (Trig_leaves []), Leaves_book|intros _]. apply Trig_bind; [apply (Trig_leaves []), Leaves_gets|intros l].
  apply Trig_bind; [apply Trig_each; intros; apply Trig_audit_one|intros errs].
  apply Trig_bind; [apply Trig_joined|intros _]. apply Trig_bind; [by intros s r s' [= _ <-]|intros _].
  apply (Trig_leaves []). case_bool_decide; [apply Leaves_book|apply Leaves_ret].
Qed.
Lemma Trig_Audit trigger : Trig (Audit cfg orc trigger).
Proof. unfold Audit. case_bool_decide; [apply (Trig_leaves []), Leaves_fail|apply Trig_audit]. Qed.
Lemma Trig_Apply u : Trig (Apply cfg orc u).
Proof.
  unfold Apply. case_bool_decide; [apply (Trig_leaves []), Leaves_fail|].
  apply Trig_bind; [apply (Trig_leaves []), Leaves_gets|intros i]. apply Trig_bind; [|intros _].
  { destruct (i_auditDone i); [apply (Trig_leaves []), Leaves_ret|].
    apply Trig_bind; [apply Trig_attempt, Trig_audit|intros [|]; apply (Trig_leaves []); frame]. }
  apply Trig_bind; [apply (Trig_leaves []), Leaves_gets|intros l]. apply Trig_bind; [apply Trig_attempt|intros [|e]].
  - unfold auditUncovered. apply Trig_bind; [apply (Trig_leaves []), Leaves_gets|intros i'].
    apply Trig_bind; [apply Trig_each; intros; apply Trig_audit_one|intros; apply Trig_joined].
  - apply Trig_bind; [apply (Trig_leaves []), Leaves_checkDiskBudget|intros _].
    apply Trig_bind; [apply (Trig_leaves []), Leaves_gets|intros i'].
    apply Trig_bind; [apply Trig_each; intros o; eapply Trig_others, Others_applyOwner|intros; apply Trig_joined].
  - apply (Trig_leaves []), Leaves_fail.
Qed.
End audits.
