(* ===== verification/InstallHistory.v ===== *)
(** * Histories of a member's installer

    An installer's life: updates and audits in any order and number, passes of
    the copyset between them, ClickHouse restarts, process restarts and power
    losses, and the operator's clearing of quarantined tables while the process
    is stopped, with every statement, query, fetch, hook and journal write free
    to fail. What the installer reports stays true. *)
From S2P Require Import Prelude LtHash Types Gate Registry ClickHouse InstallJournal Installer InstallLaws InstallReconcile InstallPass InstallInv InstallOwner InstallApply InstallFrame.
Import InstallJournal Installer Gate.Gate.

Section history.
Context `{CH : ClickHouse, RS : RowSum, MS : !MemberServer, ML : !MemberLaws}.
Context `{LL : !LtHashLaws, RL : !RowSumLaws, PB : !Published}.

(** ** The world *)
Inductive life := Running (s : St) | Stopped (f : file (option Journal)).

Definition set_copies (C : list Copy) (w : chs) (s : St) : St :=
  mkSt w (st_file s) (st_i s) C (st_held s) (st_tick s) (st_trace s).

(** Every table of the journal is of a ready copy or of one gone for good. *)
Definition covers (retired : list copy_id) (C : list Copy) (j : Journal) : Prop :=
  ∀ o oj k tj, j_Owners j !! o = Some oj → oj_Tables oj !! k = Some tj → covered retired C o k tj.
Definition file_covers (retired : list copy_id) (C : list Copy) (f : file (option Journal)) : Prop :=
  from_option (covers retired C) True (f_cur f) ∧ from_option (covers retired C) True (f_durable f).

(** What a clearing may be asked to clear: a table whose journal lists parts. *)
Definition clearable (key : string) (j : Journal) : Prop :=
  ∀ o oj tj, j_Owners j !! o = Some oj → oj_Tables oj !! key = Some tj → tj_Foreign tj = true → tj_Parts tj ≠ [].

Inductive life_step : list copy_id * life → list copy_id * life → Prop :=
| ls_apply ret s cfg orc u r s' : published u → Apply cfg orc u s = (r, s') → life_step (ret, Running s) (ret, Running s')
| ls_audit ret s cfg orc t r s' : Audit cfg orc t s = (r, s') → life_step (ret, Running s) (ret, Running s')
| ls_scratch ret s cfg r s' : DropStaleScratch cfg s = (r, s') → life_step (ret, Running s) (ret, Running s')
| ls_copies ret ret' s C w : (* the copyset created, dropped or readied copies *)
    ret ⊆ ret' → copies_ok ret' C → covers ret' C (i_journal (st_i s)) → file_covers ret' C (st_file s) →
    (∀ c, c ∈ C → c_Ready c = true → auditKey c ∈ i_audited (st_i s) →
       c ∈ st_copies s ∧ parts_of w ReplicaDB (c_Table c) = parts_of (st_ch s) ReplicaDB (c_Table c)) →
    life_step (ret, Running s) (ret', Running (set_copies C w s))
| ls_clickhouse ret s cfg orc w r s' : (* ClickHouse restarted, and is audited *)
    Audit cfg orc TriggerClickHouseRestart (set_copies (st_copies s) w s) = (r, s') →
    life_step (ret, Running s) (ret, Running s')
| ls_stop ret s power_loss :
    life_step (ret, Running s)
      (ret, Stopped (if (power_loss : bool) then File (f_durable (st_file s)) (f_durable (st_file s)) else st_file s))
| ls_clear ret f env key ok f' :
    from_option (clearable key) True (f_cur f) → ClearForeign false env key f = (ok, f') →
    life_step (ret, Stopped f) (ret, Stopped f')
| ls_start ret ret' cfg w f C tick trace s :
    ret ⊆ ret' → copies_ok ret' C → file_covers ret' C f → New cfg w f C tick trace = Some s →
    life_step (ret, Stopped f) (ret', Running s).

(** ** The invariant *)
Definition journal_true (retired : list copy_id) (j : Journal) : Prop :=
  ∀ o oj k tj, j_Owners j !! o = Some oj → oj_Tables oj !! k = Some tj → tj_ok retired o (oj_SnapshotID oj) k tj.

Definition life_inv (x : list copy_id * life) : Prop :=
  match x.2 with
  | Running s => inv x.1 s
  | Stopped f => from_option (journal_true x.1) True (f_cur f) ∧ from_option (journal_true x.1) True (f_durable f)
  end.

Lemma tj_ok_mono ret ret' o snap k tj : ret ⊆ ret' → tj_ok ret o snap k tj → tj_ok ret' o snap k tj.
Proof. intros Hsub [Ht Hcl]. split; [done|]. intros Hd Hf Hn. apply Hcl; [done..|]. intros Hin. by apply Hn, Hsub. Qed.

Lemma journal_ok_split ret C j : journal_ok ret C j ↔ journal_true ret j ∧ covers ret C j.
Proof.
  split.
  - intros Hj. split; intros o oj k tj Ho Hk; by destruct (Hj _ _ _ _ Ho Hk).
  - intros [Ht Hc] o oj k tj Ho Hk. split; eauto.
Qed.

Lemma journal_true_mono ret ret' j : ret ⊆ ret' → journal_true ret j → journal_true ret' j.
Proof. intros Hsub Hj o oj k tj Ho Hk. eapply tj_ok_mono; eauto. Qed.

Lemma opt_ok ret ret' C C' (o : option Journal) : ret ⊆ ret' →
  from_option (journal_ok ret C) True o → from_option (covers ret' C') True o → from_option (journal_ok ret' C') True o.
Proof.
  destruct o as [j|]; [|done]. simpl. intros Hsub [Hj _]%journal_ok_split Hc. apply journal_ok_split.
  split; [by eapply journal_true_mono|done].
Qed.

Lemma copies_step ret ret' s C w :
  ret ⊆ ret' → copies_ok ret' C → covers ret' C (i_journal (st_i s)) → file_covers ret' C (st_file s) →
  (∀ c, c ∈ C → c_Ready c = true → auditKey c ∈ i_audited (st_i s) →
     c ∈ st_copies s ∧ parts_of w ReplicaDB (c_Table c) = parts_of (st_ch s) ReplicaDB (c_Table c)) →
  inv ret s → inv ret' (set_copies C w s).
Proof.
  intros Hsub HC Hj [Hf1 Hf2] Haud (_ & (Hij & Hif1 & Hif2) & Hh). split; [done|]. split; [split_and!|].
  - apply (opt_ok ret ret' (st_copies s) C (Some (i_journal (st_i s)))); done.
  - by apply (opt_ok ret ret' (st_copies s)).
  - by apply (opt_ok ret ret' (st_copies s)).
  - intros c tj Hc Hr Hn Hcl. pose proof Hcl as (Hau & _). destruct (Haud c Hc Hr Hau) as [Hc0 Hp].
    apply (agrees_parts s); [done|]. by apply (Hh c tj).
Qed.

(** An audit that starts by forgetting every earlier one needs no trust in the server. *)
Definition forget (t : string) (s : St) : St := set_inst (set_audit ∅ false t (st_i s)) s.

Lemma Audit_forgets cfg orc s r s' :
  Audit cfg orc TriggerClickHouseRestart s = (r, s') →
  Audit cfg orc TriggerClickHouseRestart (forget TriggerClickHouseRestart s) = (r, s').
Proof. intros <-. reflexivity. Qed.

Lemma forget_inv ret w t s : inv ret s → inv ret (forget t (set_copies (st_copies s) w s)).
Proof.
  intros (Hco & Hj & _). split; [done|]. split; [exact Hj|]. intros c tj _ _ _ (Hau & _). by apply elem_of_empty in Hau.
Qed.

(** Clearing marks every partition the journal lists. *)
Lemma clear_table_ok ret o snap k tj : (tj_Foreign tj = true → tj_Parts tj ≠ []) → tj_ok ret o snap k tj → tj_ok ret o snap k (clear_table tj).
Proof.
  intros Hp Hok. unfold clear_table. destruct (tj_Foreign tj) eqn:Hf; [|done].
  destruct (mark_all (partitions tj) tj) as [n tj'] eqn:Hm. pose proof (mark_all_marks (partitions tj) tj) as Hne.
  rewrite Hm in Hne. apply mark_all_spec in Hm as (Hpa & Hi & Hc & _). destruct Hok as [Ht _]. split.
  - unfold tj_true. simpl. by rewrite Hpa, Hc.
  - simpl. intros Hd. destruct Hne; [|done]. intros Hnil. specialize (Hp eq_refl). destruct (tj_Parts tj) as [|jp l] eqn:Hl; [done|].
    assert (jp_PartitionID jp ∈ partitions tj) as Hin.
    { unfold partitions. rewrite Hl. apply elem_of_sorted_set. constructor. }
    rewrite Hnil in Hin. by apply elem_of_nil in Hin.
Qed.

Lemma clear_journal_ok ret key j : clearable key j → journal_true ret j → journal_true ret (clear_journal key j).
Proof.
  intros Hc Hj o oj' k tj'. unfold clear_journal. simpl. rewrite lookup_fmap.
  destruct (j_Owners j !! o) as [oj|] eqn:Ho; [|done]. intros [= <-]. simpl.
  destruct (decide (k = key)) as [->|Hne].
  - rewrite lookup_alter, decide_True by done. destruct (oj_Tables oj !! key) as [tj|] eqn:Hk; [|done]. intros [= <-].
    apply clear_table_ok; [intros Hf; by eapply Hc|by eapply (Hj o oj)].
  - rewrite lookup_alter_ne by done. by apply (Hj o oj).
Qed.

Lemma clear_cases env key f ok f' : ClearForeign false env key f = (ok, f') →
  f' = f ∨ ∃ j, f_cur f = Some j ∧
    (f' = File (Some (clear_journal key j)) (f_durable f) ∨ f' = File (Some (clear_journal key j)) (Some (clear_journal key j))).
Proof.
  unfold ClearForeign, readJournal. destruct f as [[j|] dur]; simpl; [|intros [= _ <-]; by left].
  destruct (bool_decide _); [|intros [= _ <-]; by left]. destruct (cleared key j); [|intros [= _ <-]; by left].
  unfold writeJournal, atomic_replace. intros Hw. repeat case_match; simplify_eq; simpl; eauto.
Qed.

Lemma life_step_inv x y : life_step x y → life_inv x → life_inv y.
Proof.
  intros [ret s cfg orc u r s' Hpub Hs|ret s cfg orc t r s' Hs|ret s cfg r s' Hs|ret ret' s C w Hsub HC Hj Hf Haud
    |ret s cfg orc w r s' Hs|ret s b|ret f env key ok f' Hc Hs|ret ret' cfg w f C tick trace s Hsub HC Hf Hs]; unfold life_inv; simpl; intros Hi.
  - pose proof Hi as [HC _]. by eapply (Keeps_Apply cfg orc ret (st_copies s) HC u).
  - pose proof Hi as [HC _]. by eapply (Keeps_Audit cfg orc ret (st_copies s) HC t).
  - pose proof Hi as [HC _]. by eapply (Keeps_DropStale cfg ret (st_copies s) HC).
  - by eapply copies_step.
  - apply Audit_forgets in Hs. pose proof Hi as [HC _]. apply (forget_inv ret w TriggerClickHouseRestart) in Hi.
    by destruct (Keeps_Audit cfg orc ret (st_copies s) HC TriggerClickHouseRestart
      (forget TriggerClickHouseRestart (set_copies (st_copies s) w s)) r s' eq_refl Hi Hs).
  - destruct Hi as (_ & (_ & H1 & H2) & _).
    assert (∀ o, from_option (journal_ok ret (st_copies s)) True o → from_option (journal_true ret) True o) as Hw.
    { intros [j|]; [|done]. by intros [? _]%journal_ok_split. }
    destruct b; simpl; eauto.
  - apply clear_cases in Hs as [->|(j & Hcur & Hf)]; [done|]. destruct f as [cur dur]. simpl in *. subst cur. simpl in *.
    destruct Hi as [H1 H2]. apply (clear_journal_ok ret key j Hc) in H1. by destruct Hf as [->| ->].
  - unfold New in Hs. destruct (SumPartRowLtHashes []); [|done]. simpl in Hs. destruct f as [cur dur]. destruct Hf as [Hf1 Hf2], Hi as [Hi1 Hi2]. simpl in *.
    unfold readJournal in Hs.
    assert (∀ o, from_option (journal_true ret) True o → from_option (covers ret' C) True o → from_option (journal_ok ret' C) True o) as Hw.
    { intros [j|]; [|done]. simpl. intros Ht Hcv. apply journal_ok_split. split; [by eapply journal_true_mono|done]. }
    assert (∃ j, from_option (journal_ok ret' C) True (Some j) ∧
      s = mkSt w (File cur dur) (mkInstaller j ∅ ∅ ∅ false TriggerStartup newBook) C [] tick trace) as (j & Hj & ->).
    { destruct cur as [j|]; simpl in Hs.
      - destruct (bool_decide (j_Version j = _)); [|done]. simpl in Hs. case_bool_decide; [done|]. injection Hs as <-.
        exists j. split; [by apply (Hw (Some j))|done].
      - case_bool_decide; [done|]. injection Hs as <-. eexists. split; [|done]. by intros o oj k tj. }
    split; [exact HC|split; [split_and!; [exact Hj|by apply Hw..]|]].
    by intros c tj _ _ _ (?%elem_of_empty & _).
Qed.

Definition origin : list copy_id * life := ([], Stopped (File None None)).

Lemma life_history_inv x : rtc life_step origin x → life_inv x.
Proof.
  intros Hs. assert (life_inv origin) as Hi by done. revert Hi. induction Hs as [|x y z Hst _ IH]; [done|].
  intros Hi. by eapply IH, life_step_inv.
Qed.

(** ** What a clean copy holds *)

(** Every partition of the manifest is in the copy, with rows that sum to its
    root, and the copy has no other partition. *)
Definition holds (w : chs) (c : Copy) (tm : option TableManifest) : Prop :=
  (∀ pid, pid ∈ dom (manifest_parts tm) →
     row_hash (root_of (manifest_roots tm) pid) = Some (lt_sum (khash <$> (pkey <$> parts_in w c pid)))) ∧
  ∀ pid, pid ∈ dom (manifest_parts tm) ↔ parts_in w c pid ≠ [].

Lemma journaled_partition sch tj pid : tj_true sch tj →
  pid ∈ jp_PartitionID <$> tj_Parts tj ↔ in_part sch pid (tkeys tj) ≠ [].
Proof.
  intros [Ht _]. unfold tkeys. rewrite (true_in_part sch) by done. rewrite list_elem_of_fmap. split.
  - intros (jp & -> & Hjp) Hnil%fmap_nil_inv.
    assert (jp ∈ filter (λ q, jp_PartitionID q = jp_PartitionID jp) (tj_Parts tj)) as Hin by (by apply list_elem_of_filter).
    rewrite Hnil in Hin. by apply elem_of_nil in Hin.
  - intros Hne. destruct (filter _ (tj_Parts tj)) as [|jp l] eqn:Hfl; [done|].
    assert (jp ∈ jp :: l) as Hin by constructor. rewrite <- Hfl in Hin. apply list_elem_of_filter in Hin as [? ?]. eauto.
Qed.

Lemma agrees_holds w c tj tm : tj_true (c_Schema c) tj → agrees w c tj → closes tm tj → holds w c tm.
Proof.
  intros Ht Ha [Hsum Hset].
  assert (∀ pid, pkey <$> parts_in w c pid ≡ₚ in_part (c_Schema c) pid (tkeys tj)) as Hp.
  { intros pid. rewrite <- copy_in_part. unfold agrees in Ha. by rewrite Ha. }
  split; intros pid.
  - intros (hs & Hm & Hr)%Hsum. rewrite (tj_hashes _ _ _ Ht) in Hm. injection Hm as <-. by rewrite Hr, Hp.
  - rewrite Hset, (journaled_partition (c_Schema c)) by done. specialize (Hp pid). apply Permutation_length in Hp.
    rewrite length_fmap in Hp. by destruct (parts_in w c pid), (in_part (c_Schema c) pid (tkeys tj)).
Qed.

Lemma same_copy_eq c tj : same_copy c tj = true ↔ tj_IncarnationSeq tj = c_IncarnationSeq c ∧ tj_Copy tj = c_Table c.
Proof. unfold same_copy. rewrite andb_true_iff, !bool_decide_eq_true. done. Qed.

Lemma clean_holds ret s c tj oj :
  inv ret s → c ∈ st_copies s → c_Ready c = true → clean (st_i s) c tj →
  j_Owners (i_journal (st_i s)) !! c_Owner c = Some oj → oj_SnapshotID oj ≠ EmptyString →
  holds (st_ch s) c (table_of (oj_SnapshotID oj) (c_TableKey c)).
Proof.
  intros (Hco & (Hj & _) & Hh) Hc Hr Hcl Hoj Hsn. pose proof Hcl as (_ & _ & Hst & Hsc & Hd & Hf).
  unfold stored in Hst. rewrite Hoj in Hst. destruct (Hj _ _ _ _ Hoj Hst) as [[Ht Hclo] _].
  pose proof Hsc as [Hi Hcp]%same_copy_eq. eapply agrees_holds.
  - rewrite (co_schema _ _ Hco) by done. rewrite <- Hcp. exact Ht.
  - apply Hh; [done|done|apply not_elem_of_nil|done].
  - apply Hclo; [done..| |done]. rewrite Hi, Hcp. by apply (co_live _ _ Hco).
Qed.

Lemma table_state_clean cfg i owner c :
  c_Owner c = owner →
  let ts := table_state cfg i owner c in
  ts_SnapshotID ts ≠ EmptyString → ts_Diverged ts = false → ts_Foreign ts = false →
  ∃ oj tj, j_Owners (i_journal i) !! owner = Some oj ∧ oj_SnapshotID oj = ts_SnapshotID ts ∧ clean i c tj.
Proof.
  intros <-. simpl. destruct (stored i (c_Owner c) (c_TableKey c)) as [tj|] eqn:Hst; [|done]. destruct (same_copy c tj) eqn:Hsc; [|done].
  pose proof Hst as Hst'. unfold stored in Hst'. destruct (j_Owners _ !! c_Owner c) as [oj|] eqn:Hoj; [|done]. simpl.
  intros Hne Hd Hf. rewrite !orb_false_iff, !negb_false_iff, !bool_decide_eq_true in Hd. destruct Hd as [[Hd Hp] Ha].
  apply nil_length_inv in Hd. by exists oj, tj.
Qed.


(** ** An update that returns no error *)
Lemma step_trig x y : life_step x y →
  (match x.2 with Running s => trig s | _ => True end) → match y.2 with Running s => trig s | _ => True end.
Proof.
  intros [ret s cfg orc u r s' Hpub Hs|ret s cfg orc t r s' Hs|ret s cfg r s' Hs|ret ret' s C w Hsub HC Hj Hf Haud
    |ret s cfg orc w r s' Hs|ret s b|ret f env key ok f' Hc Hs|ret ret' cfg w f C tick trace s Hsub HC Hf Hs]; simpl; intros Ht; try done.
  - by eapply Trig_Apply.
  - by eapply Trig_Audit.
  - eapply (Trig_leaves []); [|exact Hs|exact Ht]. apply Leaves_DropStale.
  - by eapply Trig_Audit.
  - unfold New in Hs. destruct (SumPartRowLtHashes []); [|done]. simpl in Hs. destruct (readJournal _); [|done].
    simpl in Hs. case_bool_decide; [done|]. by injection Hs as <-.
Qed.

Lemma history_trig ret s : rtc life_step origin (ret, Running s) → trig s.
Proof.
  intros Hs. change (match (ret, Running s).2 with Running s => trig s | _ => True end). revert Hs.
  generalize (ret, Running s). intros x Hs. assert (match origin.2 with Running s => trig s | _ => True end) as Hi by done.
  revert Hi. induction Hs as [|x y z Hst _ IH]; [done|]. intros Hi. by eapply IH, step_trig.
Qed.

(** The owner's copies are at the update, or its journal is ahead of it. *)
Definition settled (u : Update) (ready : list Copy) (o : N) (s : St) : Prop :=
  ∃ entry, u_Entries u !! o = Some entry ∧
    (ownerAhead (st_i s) o (u_SnapshotID u) entry = true ∨
     ownerCurrent (st_i s) o (u_SnapshotID u) (filter (λ c, c_Owner c = o) ready) = true).

Lemma settled_others u ready owner o s s' : others owner s s' → o ≠ owner → settled u ready o s → settled u ready o s'.
Proof.
  intros Ho Hne (entry & He & Hs). exists entry. split; [done|].
  by rewrite (others_ahead _ _ _ _ _ _ Ho Hne), (others_current _ _ _ _ _ _ Ho Hne).
Qed.

Lemma settled_leaves u ready o X s s' : leaves X s s' → settled u ready o s → settled u ready o s'.
Proof.
  intros ((Hj & Hp & _) & _) (entry & He & Hs). exists entry. split; [done|].
  unfold ownerAhead, ownerCurrent, pending_of in *. rewrite Hj, Hp. done.
Qed.

Lemma installed_current u owner entry l s :
  owner_installed u owner entry l s → ownerCurrent (st_i s) owner (u_SnapshotID u) l = true.
Proof.
  intros [(oj & Hoj & Hsn & _) Hl]. unfold ownerCurrent. rewrite Hoj, Hsn, bool_decide_eq_true_2 by done. simpl.
  apply forallb_forall. intros c Hc%list_elem_of_In. destruct (Hl c Hc) as (Hz & tj & Hst & [_ Hsc Hf Hd _ _]).
  unfold stored in Hst. rewrite Hoj in Hst. simpl in Hst. rewrite Hst, Hsc, Hf, Hd. by rewrite !bool_decide_eq_true_2.
Qed.

Section apply_ok.
Context (cfg : Config) (orc : Oracle) (ret : list copy_id).

Definition good_state (C : list Copy) (s : St) : Prop := st_copies s = C ∧ inv ret s.

Lemma state_leaves C s s' : leaves [] s s' → good_state C s → good_state C s'.
Proof.
  intros Hl [HC Hi]. split; [by rewrite (leaves_copies _ _ _ Hl)|]. eapply inv_leaves; [..|exact Hl|exact Hi]. by destruct Hi.
Qed.

(** Audits only add to the audited copies. *)
Lemma audit_one_marks trigger c s s' : audit_one cfg orc trigger c s = (Ok (), s') →
  i_audited (st_i s') = {[auditKey c]} ∪ i_audited (st_i s) ∧ i_auditDone (st_i s') = i_auditDone (st_i s).
Proof.
  intros ([] & s1 & Ha & [= <-])%run_ok. apply Others_auditCopy, others_audited in Ha as (Ha & Hd & _). simpl. by rewrite Ha, Hd.
Qed.

Lemma audits_cover C trigger l L s s' :
  (∀ c, c ∈ L → c ∈ C ∧ c_Ready c = true) → l ⊆ L → good_state C s →
  each orc (audit_one cfg orc trigger) l s = (Ok [], s') →
  good_state C s' ∧ (∀ c, c ∈ L → auditKey c ∈ i_audited (st_i s) → auditKey c ∈ i_audited (st_i s')) ∧
  (∀ c, c ∈ l → auditKey c ∈ i_audited (st_i s')).
Proof.
  intros HL Hl Hg Hs. eapply (each_ok orc (good_state C) (λ c s, auditKey c ∈ i_audited (st_i s))) with (L := L); try done.
  - by apply state_leaves.
  - intros x a b ((_ & _ & Ha & _) & _). by rewrite Ha.
  - intros c a b Hc [HaC Hi] Ha. pose proof (audit_one_marks _ _ _ _ Ha) as [Hm _]. destruct (HL c Hc) as [HcC Hr].
    pose proof Hi as [Hok _]. rewrite HaC in Hok. destruct (Keeps_audit_one cfg orc ret C Hok trigger c HcC Hr _ _ _ HaC Hi Ha).
    split_and!; [done..| |]; rewrite Hm; [|intros y _ Hy]; apply elem_of_union; [left; by apply elem_of_singleton|by right].
Qed.

Lemma audits_done trigger l s s' : each orc (audit_one cfg orc trigger) l s = (Ok [], s') → i_auditDone (st_i s') = i_auditDone (st_i s).
Proof.
  intros Hs. eapply (each_ok orc (λ x, i_auditDone (st_i x) = i_auditDone (st_i s)) (λ _ _, True)) with (L := l) in Hs as [? _]; try done.
  - intros a b ((_ & _ & _ & Hd & _) & _). by rewrite Hd.
  - intros x a b _ Ha Hx. apply audit_one_marks in Hx as [_ ->]. done.
Qed.

(** After a pass over every owner, each is settled. *)
Lemma owners_settle C u ready owners_ s s' :
  published u → (∀ c, c ∈ ready ↔ c ∈ C ∧ c_Ready c = true) → NoDup ready → good_state C s →
  each orc (λ owner, applyOwner cfg orc u owner (filter (λ c, c_Owner c = owner) ready) (manifest_tables (u_Manifest u))) owners_ s = (Ok [], s') →
  good_state C s' ∧ (∀ o, o ∈ owners_ → settled u ready o s') ∧
  i_audited (st_i s') = i_audited (st_i s) ∧ i_auditDone (st_i s') = i_auditDone (st_i s).
Proof.
  intros Hpub Hrd Hnd Hg Hs.
  assert (∀ o a b, good_state C a →
    applyOwner cfg orc u o (filter (λ c, c_Owner c = o) ready) (manifest_tables (u_Manifest u)) a = (Ok (), b) →
    good_state C b ∧ settled u ready o b) as Hone.
  { intros o a b [HaC Hi] Ha. pose proof Hi as [Hok _]. rewrite HaC in Hok.
    destruct (applyOwner_inv cfg orc ret C Hok u o (filter (λ c, c_Owner c = o) ready) a (Ok ()) b) as (Hi' & HC' & Hr); try done.
    { split; [|by apply NoDup_filter]. intros c [? ?%Hrd]%list_elem_of_filter. tauto. }
    { intros c Hc Hr Ho. apply list_elem_of_filter. by rewrite Hrd. }
    split; [done|]. destruct (Hr eq_refl) as (entry & He & Hcase). exists entry. split; [done|].
    destruct Hcase as [[? ->]|[[? ->]|?%installed_current]]; tauto. }
  assert (i_audited (st_i s') = i_audited (st_i s) ∧ i_auditDone (st_i s') = i_auditDone (st_i s)) as Hau.
  { refine (proj1 (each_ok orc (λ x, i_audited (st_i x) = i_audited (st_i s) ∧ i_auditDone (st_i x) = i_auditDone (st_i s))
      (λ _ _, True) _ owners_ owners_ s s' _ _ _ _ _ Hs)); try done.
    - intros a b ((_ & _ & Ha & Hd & _) & _). by rewrite Ha, Hd.
    - intros o a b _ [Ha Hd] Hx. apply Others_applyOwner, others_audited in Hx as (Ha' & Hd' & _). by rewrite Ha', Hd'. }
  assert (good_state C s' ∧ (∀ y, y ∈ owners_ → settled u ready y s → settled u ready y s') ∧
    ∀ x, x ∈ owners_ → settled u ready x s') as (Hg' & _ & Hall); [|done].
  refine (each_ok orc (good_state C) (settled u ready) _ owners_ owners_ s s' _ _ _ _ _ Hs); try done.
  - by apply state_leaves.
  - intros o a b. apply settled_leaves.
  - intros o a b Ho Hga Ha. destruct (Hone o a b Hga Ha) as [Hgb Hst]. split; [done|split; [done|]].
    intros y _ Hy. destruct (decide (y = o)) as [->|Hne]; [done|]. eapply settled_others; [|exact Hne|exact Hy].
    by eapply Others_applyOwner.
Qed.

(** What an Apply that returned no error went through. *)
Lemma apply_ok C u s s' :
  published u → trig s → good_state C s → Apply cfg orc u s = (Ok (), s') →
  good_state C s' ∧ i_auditDone (st_i s') = true ∧ ∃ ready, (∀ c, c ∈ ready ↔ c ∈ C ∧ c_Ready c = true) ∧
    (∀ c, c ∈ ready → auditKey c ∈ i_audited (st_i s')) ∧ (∀ c, c ∈ ready → settled u ready (c_Owner c) s').
Proof.
  intros Hpub Htr Hg Hs. pose proof Hg as [HsC Hi]. pose proof Hi as [Hok _]. rewrite HsC in Hok.
  unfold Apply in Hs. case_bool_decide; [done|]. apply run_ok in Hs as (i & s1 & [= <- <-] & Hs).
  apply run_ok in Hs as ([] & s1 & Ha & Hs).
  assert (good_state C s1 ∧ i_auditDone (st_i s1) = true) as [Hg1 Hd1].
  { destruct (i_auditDone (st_i s)) eqn:Hd; [by injection Ha as <-|].
    apply run_ok in Ha as (r & s2 & (x & Hx & [= ->])%try_inv & Ha). destruct x as [[]|e]; [injection Ha as <-|done].
    destruct (Keeps_audit cfg orc ret C Hok _ _ _ _ HsC Hi Hx) as [Hi2 HC2]. split; [done|].
    unfold audit in Hx. apply run_ok in Hx as (now & t1 & _ & Hx). apply run_ok in Hx as (b & t2 & _ & Hx).
    unfold trig in Htr. rewrite (bool_decide_eq_false_2 (i_auditTrigger (st_i s) = TriggerSelfAudit)) in Hx by done. simpl in Hx.
    apply run_ok in Hx as ([] & t3 & _ & Hx). apply run_ok in Hx as ([] & t4 & _ & Hx).
    apply run_ok in Hx as (l & t5 & _ & Hx). apply run_ok in Hx as (es & t6 & _ & Hx).
    apply run_ok in Hx as ([] & t7 & _ & Hx). apply run_ok in Hx as ([] & t8 & [= <-] & Hx). by injection Hx as <-. }
  pose proof Hg1 as [Hs1C Hi1]. apply run_ok in Hs as (ready & s2 & [= <- <-] & Hs).
  set (ready := readyCopies s1) in *.
  assert (∀ c, c ∈ ready ↔ c ∈ C ∧ c_Ready c = true) as Hrd by (intros c; unfold ready; by rewrite readyCopies_elem, Hs1C).
  assert (NoDup ready) as Hnd.
  { unfold ready, readyCopies. rewrite merge_sort_Permutation, Hs1C. apply NoDup_filter, (co_nodup _ _ Hok). }
  apply run_ok in Hs as (r & s2 & (x & Hu & [= ->])%try_inv & Hs). destruct x as [[]|e]; [|done].
  unfold auditUncovered in Hu. apply run_ok in Hu as (i & t & [= <- <-] & Hu).
  apply run_ok in Hu as (es & t & He & [-> ->]%joined_ok).
  pose proof (audits_done _ _ _ _ He) as Hd2.
  assert (filter (λ c, auditKey c ∉ i_audited (st_i s1)) ready ⊆ ready) as Hsub by (by intros c [_ ?]%list_elem_of_filter).
  destruct (audits_cover C _ _ ready _ _ (λ c, proj1 (Hrd c)) Hsub Hg1 He) as (Hg2 & Hkeep & Hnew).
  assert (∀ c, c ∈ ready → auditKey c ∈ i_audited (st_i t)) as Haud.
  { intros c Hc. destruct (decide (auditKey c ∈ i_audited (st_i s1))) as [Hin|Hn]; [by apply Hkeep|].
    apply Hnew, list_elem_of_filter. done. }
  apply run_ok in Hs as ([] & s3 & Hdisk & Hs). pose proof (Leaves_checkDiskBudget cfg [] _ _ _ Hdisk) as Hl3.
  apply run_ok in Hs as (i & s4 & [= <- <-] & Hs). apply run_ok in Hs as (es & s5 & He2 & [-> ->]%joined_ok).
  destruct (owners_settle C u ready _ _ _ Hpub Hrd Hnd (state_leaves C _ _ Hl3 Hg2) He2) as (Hg5 & Hset & Ha5 & Hd5).
  destruct Hl3 as ((_ & _ & Ha3 & Hd3 & _) & _). split; [done|]. split; [congruence|]. exists ready. split_and!; [done| |].
  - intros c Hc. rewrite Ha5, Ha3. by apply Haud.
  - intros c Hc. apply Hset. unfold owners. rewrite merge_sort_Permutation, elem_of_elements, elem_of_union.
    left. apply elem_of_list_to_set. by apply list_elem_of_fmap_2.
Qed.

End apply_ok.

Lemma current_clean i o snapshot l c :
  ownerCurrent i o snapshot l = true → c ∈ l → c_Owner c = o → auditKey c ∈ i_audited i →
  ∃ oj tj, j_Owners (i_journal i) !! o = Some oj ∧ oj_SnapshotID oj = snapshot ∧ clean i c tj.
Proof.
  intros Hcu Hc Ho Ha. unfold ownerCurrent in Hcu. destruct (j_Owners _ !! o) as [oj|] eqn:Hoj; [|done].
  apply andb_true_iff in Hcu as [Hsn Hall]. rewrite forallb_forall in Hall.
  specialize (Hall c (proj1 (list_elem_of_In _ _) Hc)). destruct (oj_Tables oj !! c_TableKey c) as [tj|] eqn:Htj; [|done].
  rewrite !andb_true_iff, negb_true_iff, !bool_decide_eq_true in Hall. destruct Hall as [[[Hsc Hf] Hd] Hp].
  apply bool_decide_eq_true in Hsn. apply nil_length_inv in Hd. exists oj, tj. split_and!; [done..|].
  subst o. split_and!; try done. unfold stored. by rewrite Hoj.
Qed.

Lemma clean_state cfg i c tj oj :
  clean i c tj → j_Owners (i_journal i) !! c_Owner c = Some oj →
  let ts := table_state cfg i (c_Owner c) c in
  ts_SnapshotID ts = oj_SnapshotID oj ∧ ts_Entry ts = oj_Entry oj ∧ ts_Diverged ts = false ∧ ts_Foreign ts = false.
Proof.
  intros (Ha & Hp & Hst & Hsc & Hd & Hf) Hoj. unfold table_state. simpl. rewrite Hst, Hsc, Hoj, Hd, Hp. simpl.
  rewrite !bool_decide_eq_true_2 by done. done.
Qed.



End history.
