(* ===== verification/InstallToy.v ===== *)
(** * A member's server that satisfies the interface, and executions on it

    Tables of hg_replica and hg_rstage with one partition, parts of one row
    named by their slot, and two byte sources: one delivers the part asked for,
    the other something else. The witnesses of the installer's properties run on
    it, and so do the two executions in which a copy is reported at a snapshot
    it does not hold, which show why the histories exclude them. *)
From S2P Require Import Prelude LtHash Types Gate Registry ClickHouse InstallJournal Installer InstallLaws InstallReconcile InstallPass InstallInv InstallOwner InstallApply InstallFrame InstallHistory InstallBracket InstallBounds.
Import InstallJournal Installer.

Module InstallToy.
Import Lane16 Gate.Gate.


(** ** The server *)
Definition slots : Type := list (option lthash).
Abbreviation server := (gmap (bool * string) slots).

Definition addr (d : database) (t : string) : bool * string := (bool_decide (d = ReplicaDB), t).
Definition table (w : server) (d : database) (t : string) : slots := default [] (w !! addr d t).
Definition put (d : database) (t : string) (l : slots) (w : server) : server := <[addr d t := l]> w.

(** The part in slot [i]; its hash_of_all_files is its row hash. *)
Definition part_at (i : nat) (h : lthash) : Part := mkPart (pretty (N.of_nat i)) "all" "" (accumulatorHex h) "" 1 1.

Fixpoint parts_from (i : nat) (l : slots) : list Part :=
  match l with
  | [] => []
  | Some h :: l => part_at i h :: parts_from (S i) l
  | None :: l => parts_from (S i) l
  end.

Fixpoint blank (name : string) (i : nat) (l : slots) : slots :=
  match l with
  | [] => []
  | x :: l => (if bool_decide (pretty (N.of_nat i) = name) then None else x) :: blank name (S i) l
  end.

Definition parts (w : server) (d : database) (t : string) : list Part := parts_from 0 (table w d t).
Definition phys_of (l : list Part) (name : string) : string :=
  default "" (p_PhysHash <$> head (filter (λ p, p_Name p = name) l)).

Definition toy_exec (q : stmt) (w : server) : server :=
  match q with
  | AttachFrom t _ scratch => put ReplicaDB t (table w ReplicaDB t ++ table w StageDB scratch)%list w
  | DropPart d t name => put d t (blank name 0 (table w d t)) w
  | DropPartition d t _ => put d t [] w
  | CreateScratch t => put StageDB t [] w
  | DropTable d t => delete (addr d t) w
  | _ => w
  end.

#[export] Instance toy_ch : ClickHouse := {
  chs := server; TableSchema := unit; PartitionBy _ := "";
  ch_active d t w := (Some (parts w d t), w);
  ch_exists _ _ w := (Some true, w);
  ch_scan d t _ names w := (Some ((λ n, mkScan n (phys_of (parts w d t) n) 1) <$> names), w);
  ch_exec q w := (None, toy_exec q w);
}.

Definition good_source : Source := mkSource _ SourceOwnerPull
  (λ need _ scratch w, (mkResult SrcFetched false, put StageDB scratch [row_hash (nd_PartRowLtHash need)] w)).
Definition bad_source : Source := mkSource _ SourceOwnerPull
  (λ _ _ scratch w, (mkResult SrcFetched false, put StageDB scratch [Some (mk 99)] w)).

#[export] Instance toy_member : MemberServer := {
  ch_scan_all d t _ w := (Some ((λ p, mkScan (p_Name p) (p_PhysHash p) (p_Rows p)) <$> parts w d t), w);
  ch_disk w := (Some 0%N, w);
  ch_stage_tables _ w := (Some [], w);
  TableSchemaHash _ _ := "schema";
  CHTableName := id;
  SourcesOf owner := [if bool_decide (owner = 1%N) then good_source else bad_source];
}.

(** ** Its laws *)
Lemma parts_from_elem i l p : p ∈ parts_from i l → ∃ j h, (i ≤ j)%nat ∧ p = part_at j h.
Proof.
  revert i. induction l as [|[h|] l IH]; intros i; simpl; [by intros ?%elem_of_nil| |].
  - intros [->|(j & h' & ? & ->)%IH]%elem_of_cons; [by exists i, h|]. exists j, h'. split; [lia|done].
  - intros (j & h' & ? & ->)%IH. exists j, h'. split; [lia|done].
Qed.

Lemma part_name_inj i j : pretty (N.of_nat i) = pretty (N.of_nat j) → i = j.
Proof. intros Heq. apply (inj pretty) in Heq. lia. Qed.

Lemma parts_from_names i l : NoDup (p_Name <$> parts_from i l).
Proof.
  revert i. induction l as [|[h|] l IH]; intros i; simpl; [constructor| |apply IH].
  constructor; [|apply IH]. intros (p & Hn & (j & h' & Hj & ->)%parts_from_elem)%list_elem_of_fmap.
  apply part_name_inj in Hn. lia.
Qed.

Lemma parts_from_app i l k : parts_from i (l ++ k) = (parts_from i l ++ parts_from (i + length l) k)%list.
Proof.
  revert i. induction l as [|[h|] l IH]; intros i; simpl; [by rewrite Nat.add_0_r|..]; by rewrite IH, Nat.add_succ_r.
Qed.

Lemma parts_from_blank name i l : parts_from i (blank name i l) = filter (λ p, p_Name p ≠ name) (parts_from i l).
Proof.
  revert i. induction l as [|[h|] l IH]; intros i; simpl; [done| |by case_bool_decide; rewrite IH].
  rewrite filter_cons. simpl. case_bool_decide; case_decide; try done; by rewrite IH.
Qed.

Lemma parts_rows w d t p : p ∈ parts w d t → p_Rows p = 1%N ∧ ∃ h, p_PhysHash p = accumulatorHex h.
Proof. intros (j & h & _ & ->)%parts_from_elem. split; [done|]. by exists h. Qed.

Lemma parts_live w d t : filter (λ p, p_Rows p ≠ 0%N) (parts w d t) = parts w d t.
Proof. apply filter_all. intros p [-> _]%parts_rows. done. Qed.

Definition rows_of_hash (phys : string) : lthash := default lt_new (row_hash phys).

Lemma row_hash_part w d t p : p ∈ parts w d t → row_hash (p_PhysHash p) = Some (rows_of_hash (p_PhysHash p)).
Proof. intros [_ [h Hh]]%parts_rows. unfold rows_of_hash. rewrite Hh. by rewrite row_hash_canonical. Qed.

Lemma phys_of_part w d t p : p ∈ parts w d t → phys_of (parts w d t) (p_Name p) = p_PhysHash p.
Proof.
  intros Hp. unfold phys_of. destruct (filter _ _) as [|q l] eqn:Hf.
  - assert (p ∈ filter (λ q, p_Name q = p_Name p) (parts w d t)) as Hin by (by apply list_elem_of_filter).
    rewrite Hf in Hin. by apply elem_of_nil in Hin.
  - assert (q ∈ filter (λ q, p_Name q = p_Name p) (parts w d t)) as [Hn Hq]%list_elem_of_filter by (rewrite Hf; constructor).
    simpl. f_equal. apply (NoDup_fmap_fst_unique p_Name (parts w d t)); [apply parts_from_names|done..].
Qed.

Lemma table_put d t l w d' t' : table (put d t l w) d' t' = if decide (addr d t = addr d' t') then l else table w d' t'.
Proof. unfold table, put. rewrite lookup_insert. by case_decide. Qed.

Lemma parts_put d t l w d' t' :
  parts (put d t l w) d' t' = if decide (addr d t = addr d' t') then parts_from 0 l else parts w d' t'.
Proof. unfold parts. rewrite table_put. by case_decide. Qed.

Lemma parts_delete d t w d' t' : addr d t ≠ addr d' t' → parts (delete (addr d t) w) d' t' = parts w d' t'.
Proof. intros Hne. unfold parts, table. by rewrite lookup_delete_ne. Qed.

Lemma addr_stage t t' : addr StageDB t ≠ addr ReplicaDB t'.
Proof. by intros [=]. Qed.
Definition toy_db (d : database) : Prop := d = ReplicaDB ∨ d = StageDB.
Lemma addr_member d d' t t' : toy_db d → toy_db d' → addr d t = addr d' t' → (d, t) = (d', t').
Proof. intros [->| ->] [->| ->]; by intros [= ->]. Qed.

(** Statements on copies leave every other table alone. *)
Lemma toy_copy q t w :
  match q with AttachFrom t' _ _ | DropPart ReplicaDB t' _ | DropPartition ReplicaDB t' _ => t' = t | _ => False end →
  ∀ d t', toy_db d → (d, t') ≠ (ReplicaDB, t) → parts (toy_exec q w) d t' = parts w d t'.
Proof.
  intros Hq d t' Hd Hne. assert (addr ReplicaDB t ≠ addr d t') as Ha.
  { intros Ha. apply Hne. symmetry. by apply addr_member; [left| |]. }
  destruct q as [| |[]|[]| | | |]; try done; simpl in *; subst; rewrite parts_put; by case_decide.
Qed.

Lemma LogicalPartition_all p : LogicalPartitionID () p = "all".
Proof. done. Qed.

Lemma quote_all id q : QuotePartition () id = Some q → id = "all".
Proof. unfold QuotePartition. simpl. by case_bool_decide as Hd; [|destruct (decide (id = "all"))]. Qed.

#[export] Instance toy_laws : MemberLaws.
Proof.
  unshelve eapply Build_MemberLaws.
  1: exact parts. 1: exact (λ phys _, rows_of_hash phys). 1: exact (λ _, "").
  - intros w d t _. apply parts_from_names.
  - intros w d t p _ (j & h & _ & ->)%parts_from_elem. done.
  - intros d t w r w' [= <- <-] _. split; [done|]. by intros ps [= <-].
  - intros t sch names w r w' [= <- <-]. split; [done|]. intros scans [= <-].
    rewrite <- list_fmap_compose. split; [by rewrite list_fmap_id|].
    intros s p (n & -> & _)%list_elem_of_fmap Hp Hn. simpl in *. subst n.
    rewrite phys_of_part by done. by eapply row_hash_part.
  - intros t sch w r w' [= <- <-]. split; [done|]. intros scans [= <-]. rewrite parts_live.
    rewrite <- list_fmap_compose. split; [done|].
    intros s p (q & -> & Hq)%list_elem_of_fmap Hp Hn. simpl in *.
    assert (p = q) as -> by (eapply (NoDup_fmap_fst_unique p_Name (parts w StageDB t)); [apply parts_from_names|done..]).
    split; [by eapply row_hash_part|done].
  - by intros w r w' [= _ <-].
  - by intros prefix w r w' [= _ <-].
  - intros owner src need sch scratch w r w' Hsrc%list_elem_of_singleton Hf t. subst src.
    assert (∃ l, w' = put StageDB scratch l w) as [l ->].
    { revert Hf. case_bool_decide; intros [= _ <-]; eauto. }
    clear Hf. rewrite parts_put. by case_decide as Ha; [apply addr_stage in Ha|].
  - intros q w r w' [= _ <-] Hq t. destruct q as [| |[]| | | | |[]]; try done; simpl.
    1,2: rewrite parts_put; by case_decide as Ha; [apply addr_stage in Ha|].
    apply parts_delete. intros Ha. by apply addr_stage in Ha.
  - intros scratch n w r w' p [= _ <-]. rewrite !parts_live. simpl. rewrite parts_put, decide_True by done.
    rewrite parts_from_blank. by intros [_ ?]%list_elem_of_filter.
  - intros q t w r w' [= _ <-] Hq. by apply toy_copy.
  - intros t n w w' [= <-]. rewrite !parts_live. simpl. rewrite parts_put, decide_True by done. apply parts_from_blank.
  - intros t [] id quoted w w' [= <-] ->%quote_all. rewrite !parts_live. simpl. rewrite parts_put, decide_True by done.
    symmetry. apply filter_none. intros p _ Hne. by apply Hne.
  - intros t scratch [] id quoted w w' [= <-] ->%quote_all. rewrite !parts_live. simpl. rewrite parts_put, decide_True by done.
    rewrite parts_from_app. eexists. split; [reflexivity|]. split; [apply Forall_forall; by intros|].
    unfold PartsInLogicalPartition. rewrite filter_all by (by intros). simpl.
    unfold parts. generalize (table w StageDB scratch). intros l.
    assert (∀ i j, (λ p, (p_PhysHash p, p_Rows p)) <$> parts_from i l = (λ p, (p_PhysHash p, p_Rows p)) <$> parts_from j l) as Heq.
    { induction l as [|[h|] l IH]; intros i j; cbn [parts_from]; [done| |apply IH]. rewrite !fmap_cons. f_equal. apply IH. }
    by rewrite (Heq _ 0).
Defined.

(** ** Manifests, copies and an installer *)
Definition toy_entry (n : N) : PartManifestEntry := mkEntry "all" "a" "" (hex n) 1.
Definition toy_manifest (snapshot : string) (key : string) (n : N) : SafeSnapshotManifest :=
  mkManifest snapshot "" 1 "" [] [mkTableManifest key "schema" [toy_entry n] [mkRoot "all" (hex n)]].

(** Snapshot S1 holds row hash 5, every later one 7. *)
#[local] Instance toy_published : Published := {|
  manifest_of snapshot := toy_manifest snapshot "db.t" (if bool_decide (snapshot = "S1") then 5 else 7)%N;
  schema_of _ := () |}.

Definition toy_update (snapshot : string) (owner seq : N) : Update :=
  mkUpdate snapshot "" seq (manifest_of snapshot) {[owner := mkFrontier owner seq seq]} [owner] false 0.

Definition toy_copy_of (owner seq : N) (ready : bool) : Copy := mkCopy _ owner "db.t" seq "copy" () 1 ready.

Definition toy_cfg : Config := mkConfig "n1" "net" "boot" 100 (Floats.SpecFloat.S754_finite false 4503599627370496 (-52)) 0 true.
Definition toy_orc : Oracle := mkOracle (λ n, Z.of_nat n) (λ _, false) (λ _, false) (λ _, write_ok) (λ _, true) (λ _, true).

Definition toy_new (f : file (option Journal)) (copies : list Copy) : option St := New toy_cfg ∅ f copies 0 [].
Definition toy_start (copies : list Copy) : St :=
  default (mkSt ∅ (File None None) (mkInstaller (newJournal "") ∅ ∅ ∅ false "" newBook) [] [] 0 []) (toy_new (File None None) copies).

Definition toy_apply (snapshot : string) (owner seq : N) (s : St) : result ierr () * St :=
  Apply toy_cfg toy_orc (toy_update snapshot owner seq) s.
Definition toy_installed : St := (toy_apply "S1" 1 1 (toy_start [toy_copy_of 1 1 true])).2.

Example toy_installs : (toy_apply "S1" 1 1 (toy_start [toy_copy_of 1 1 true])).1 = Ok () ∧
  parts (st_ch toy_installed) ReplicaDB "copy" = [part_at 0 (mk 5)].
Proof. split; vm_compute; reflexivity. Qed.

(** ** Its history *)
Lemma toy_copies_ok c : c_Schema c = () → copies_ok [] [c].
Proof.
  intros Hs. split; try (intros a b ->%list_elem_of_singleton ->%list_elem_of_singleton; done).
  - by intros a ->%list_elem_of_singleton.
  - intros a _. apply not_elem_of_nil.
  - apply NoDup_singleton.
Qed.

Lemma toy_published_update snapshot owner seq : published (toy_update snapshot owner seq).
Proof. done. Qed.

Lemma toy_started : rtc life_step origin ([], Running (toy_start [toy_copy_of 1 1 true])).
Proof.
  apply rtc_once. eapply (ls_start [] [] toy_cfg ∅ (File None None) [toy_copy_of 1 1 true] 0 []);
    [done|by apply toy_copies_ok|done|reflexivity].
Qed.

Lemma toy_apply_eq s snapshot owner seq :
  Apply toy_cfg toy_orc (toy_update snapshot owner seq) s = ((toy_apply snapshot owner seq s).1, (toy_apply snapshot owner seq s).2).
Proof. apply surjective_pairing. Qed.

Lemma toy_installed_reached : rtc life_step origin ([], Running toy_installed).
Proof.
  eapply rtc_r; [exact toy_started|]. eapply ls_apply; [apply toy_published_update|apply (toy_apply_eq _ "S1" 1 1)].
Qed.

Definition toy_state (s : St) (owner : N) : TableState :=
  default (mkTableState 0 "" 0 "" "" zero_frontier "" true true true) (head (Tables toy_cfg s owner)).


Definition toy_updated : St := (toy_apply "S2" 1 2 toy_installed).2.

Lemma toy_updated_eq : Apply toy_cfg toy_orc (toy_update "S2" 1 2) toy_installed = (Ok (), toy_updated).
Proof. rewrite toy_apply_eq. by f_equal. Qed.

Lemma toy_updated_ready : readyCopies toy_updated = [toy_copy_of 1 1 true].
Proof. vm_cast_no_check (eq_refl [toy_copy_of 1 1 true]). Qed.

Lemma toy_updated_elem c : c ∈ readyCopies toy_updated → c = toy_copy_of 1 1 true.
Proof. rewrite toy_updated_ready. apply list_elem_of_singleton. Qed.



Lemma changes_are_bracketed_witness :
  length (st_trace (run_ops toy_cfg toy_orc [OpApply (toy_update "S1" 1 1); OpAudit TriggerSelfAudit; OpApply (toy_update "S2" 1 2)]
    (toy_start [toy_copy_of 1 1 true]))) = 7 ∧
  opened (st_trace (run_ops toy_cfg toy_orc [OpApply (toy_update "S1" 1 1); OpAudit TriggerSelfAudit; OpApply (toy_update "S2" 1 2)]
    (toy_start [toy_copy_of 1 1 true]))) = [].
Proof.
  split; [vm_compute; reflexivity|].
  refine (proj2 (changes_are_bracketed toy_cfg toy_orc _ [OpApply (toy_update "S1" 1 1); OpAudit TriggerSelfAudit;
    OpApply (toy_update "S2" 1 2)] (toy_start [toy_copy_of 1 1 true]) _)); reflexivity.
Defined.

Definition toy_fetch : result ierr (string * list keptPart + string) * St :=
  fetchPart toy_cfg toy_orc 1 (toy_copy_of 1 1 true) (toy_entry 5) [hex 5] (toy_start [toy_copy_of 1 1 true]).


(** ** Copies reported at a snapshot they do not hold *)

(** The copy of the installer's only table fails one copyset pass, an update
    comes, the copy is ready again, the update is offered again. *)
Definition unready : St := set_copies [mkCopy _ 1 "db.t" 1 "copy" () 0 false] (st_ch toy_installed) toy_installed.
Definition passed_over : result ierr () * St := toy_apply "S2" 1 2 unready.
Definition ready_again : St :=
  set_copies [mkCopy _ 1 "db.t" 1 "copy" () 2 true] (st_ch passed_over.2) passed_over.2.
Definition offered_again : result ierr () * St := toy_apply "S2" 1 2 ready_again.


(** Owner 2's installer is at S1 without the table; the table's copy becomes
    ready, its only source delivers a foreign part, the operator clears it. *)
Definition without_table : St := (toy_apply "S1" 2 1 (toy_start [mkCopy _ 2 "db.u" 1 "other" () 1 true])).2.
Definition both : list Copy := [mkCopy _ 2 "db.t" 1 "copy" () 2 true; mkCopy _ 2 "db.u" 1 "other" () 1 true].
Definition quarantined : result ierr () * St := toy_apply "S1" 2 1 (set_copies both (st_ch without_table) without_table).
Definition cleared_file : bool * file (option Journal) := ClearForeign false write_ok "db.t" (st_file quarantined.2).
Definition restarted_member : option St := New toy_cfg (st_ch quarantined.2) cleared_file.2 both 0 [].
Definition cleared_state : St := default toy_installed restarted_member.
Definition after_clear : result ierr () * St := toy_apply "S1" 2 1 cleared_state.


End InstallToy.
