(* ===== verification/OwnerAudit.v ===== *)
(** * The owner audit's decisions (snode/owner_audit_plan.go)

    [ownerAuditReferenceFor] picks the inventory a partition of hg_safe is
    compared with, [planOwnerAudit] says which active parts are acknowledged,
    resurrected twins or unexplained, and [ownerAuditState] is the in-memory
    state that holds tables back until a pass audited them. The effectful half
    of the audit (owner_audit.go) is in [Promote]. Times are left out. *)
From S2P Require Import Prelude LtHash Types StateStore ClickHouse.
Import StateStore.

Module OwnerAudit.

Record ownerAuditPart := mkAuditPart { ap_Name : string; ap_PhysHash : string }.
Record ownerAuditReference := mkReference {
  ar_Source : string; ar_Seq : N; ar_Parts : list ownerAuditPart }.

(** replay.PartManifestEntry and wire.PartitionState, as far as they are read. *)
Record PartManifestEntry := mkEntry { pm_PartName : string; pm_PartRowLtHash : string; pm_PartPhysHash : string }.
Record PartitionState := mkPartitionState { st_PublishSeq : N; st_SafeParts : list PartManifestEntry }.

Record ownerAuditInputs := mkInputs {
  in_Watermark : N; in_Local : option ackedSafeInventory; in_FSMAvailable : bool; in_FSM : option PartitionState }.

Inductive OwnerAuditReason :=
| UnacknowledgedPart | AcknowledgedPartMissing | FSMAhead | FSMDisagrees
| NoAcknowledgedInventory | UnresolvedIntent.

#[export] Instance ownerAuditPart_eq_dec : EqDecision ownerAuditPart.
Proof. solve_decision. Defined.
#[export] Instance ownerAuditPart_countable : Countable ownerAuditPart.
Proof.
  refine (inj_countable' (λ p, (ap_Name p, ap_PhysHash p)) (λ t, mkAuditPart t.1 t.2) _). by intros [].
Defined.
#[export] Instance OwnerAuditReason_eq_dec : EqDecision OwnerAuditReason.
Proof. solve_decision. Defined.

(** ** The reference *)
Definition sameContent (local : list SafePartMapping) (fsm : list PartManifestEntry) : bool :=
  if bool_decide (length local ≠ length fsm) then false
  else bool_decide (is_Some (consume
         (counts ((fun m => (sm_PartRowLtHash m, sm_PartPhysHash m)) <$> local))
         ((fun e => (pm_PartRowLtHash e, pm_PartPhysHash e)) <$> fsm))).

(** Order by name, then by hash. *)
Definition audit_le (x y : ownerAuditPart) : Prop :=
  ap_Name x ≠ ap_Name y ∧ String.le (ap_Name x) (ap_Name y) ∨
  ap_Name x = ap_Name y ∧ String.le (ap_PhysHash x) (ap_PhysHash y).

#[export] Instance audit_le_dec : RelDecision audit_le.
Proof. intros x y. unfold audit_le. apply _. Defined.

Definition samePartSet (a b : list ownerAuditPart) : bool :=
  if bool_decide (length a ≠ length b) then false
  else bool_decide (merge_sort audit_le a = merge_sort audit_le b).

(** The result: no reference, a reference, or a refusal. *)
Inductive reference_choice :=
| NoReference
| Reference (r : ownerAuditReference)
| Refused (why : OwnerAuditReason).

Definition local_reference (inv : ackedSafeInventory) : ownerAuditReference :=
  mkReference "local" (ai_PromotionSeq inv)
    ((fun m => mkAuditPart (sm_SafePartName m) (sm_PartPhysHash m)) <$> ai_Parts inv).

Definition fsm_reference (fsm : option PartitionState) : ownerAuditReference :=
  match fsm with
  | None => mkReference "fsm" 0 []
  | Some st => mkReference "fsm" (st_PublishSeq st)
                 ((fun e => mkAuditPart (pm_PartName e) (pm_PartPhysHash e)) <$> st_SafeParts st)
  end.

(** The closing switch: the newer of the two by publish seq. *)
Definition newer_reference (local fsm : option ownerAuditReference) : reference_choice :=
  match local, fsm with
  | None, None => NoReference
  | Some l, None => Reference l
  | None, Some f => Reference f
  | Some l, Some f =>
      if bool_decide (ar_Seq l < ar_Seq f)%N then Reference f else
      if bool_decide (ar_Seq f < ar_Seq l)%N then Reference l else
      if samePartSet (ar_Parts l) (ar_Parts f) then Reference l else Refused FSMDisagrees
  end.

Definition ownerAuditReferenceFor (input : ownerAuditInputs) : reference_choice :=
  let local := local_reference <$> in_Local input in
  if in_FSMAvailable input &&
     match in_FSM input with
     | Some st => bool_decide (in_Watermark input < st_PublishSeq st)%N
     | None => false
     end
  then Refused FSMAhead else
  let fsm := if in_FSMAvailable input then Some (fsm_reference (in_FSM input)) else None in
  match in_Local input, in_FSM input with
  | Some inv, Some st =>
      if in_FSMAvailable input && ai_Rebuilt inv && bool_decide (st_PublishSeq st = ai_PromotionSeq inv)
      then if sameContent (ai_Parts inv) (st_SafeParts st)
           then Reference (mkReference "rebuilt" (ai_PromotionSeq inv) (ar_Parts (local_reference inv)))
           else Refused FSMDisagrees
      else newer_reference local fsm
  | _, _ => newer_reference local fsm
  end.

(** ** The plan *)
Record ownerAuditPlan := mkAuditPlan {
  pl_Reason : option OwnerAuditReason; pl_Parts : list string; pl_Drop : list string }.

Definition plan_clean (p : ownerAuditPlan) : bool := bool_decide (pl_Reason p = None).
Definition clean_plan : ownerAuditPlan := mkAuditPlan None [] [].

Definition activePartNames (parts : list Part) : list string := sort_strings (p_Name <$> parts).

Definition part_id (p : Part) : ownerAuditPart := mkAuditPart (p_Name p) (p_PhysHash p).

(** [groups[p.PhysHash] = append(groups[p.PhysHash], p)] *)
Definition phys_groups (active : list Part) : gmap string (list Part) :=
  foldl (fun g p => <[p_PhysHash p := get_or [] g (p_PhysHash p) ++ [p]]> g) ∅ active.

(** One group: the twins to drop and the unexplained parts. *)
Definition split_group (acked : gset ownerAuditPart) (group : list Part) : list string * list string :=
  let kept := bool_decide (Exists (fun p => part_id p ∈ acked) group) in
  let strangers := p_Name <$> filter (fun p => part_id p ∉ acked) group in
  if kept then (strangers, []) else ([], strangers).

Definition planOwnerAudit (ref : option ownerAuditReference) (active : list Part) : ownerAuditPlan :=
  match ref with
  | None =>
      if bool_decide (length active = 0) then clean_plan
      else mkAuditPlan (Some NoAcknowledgedInventory) (activePartNames active) []
  | Some ref =>
      let acked : gset ownerAuditPart := list_to_set (ar_Parts ref) in
      let present : gset ownerAuditPart := list_to_set (part_id <$> active) in
      let groups := (split_group acked ∘ snd) <$> map_to_list (phys_groups active) in
      let drop := sort_strings (mjoin (fst <$> groups)) in
      let unacknowledged := sort_strings (mjoin (snd <$> groups)) in
      let missing := sort_strings (ap_Name <$> filter (fun p => p ∉ present) (ar_Parts ref)) in
      if bool_decide (0 < length unacknowledged)
      then mkAuditPlan (Some UnacknowledgedPart) unacknowledged [] else
      if bool_decide (0 < length missing)
      then mkAuditPlan (Some AcknowledgedPartMissing) missing [] else
      if bool_decide (0 < length drop)
      then mkAuditPlan (Some UnacknowledgedPart) drop drop
      else clean_plan
  end.

(** ** The audit's in-memory state *)
Record OwnerAuditFinding := mkFinding {
  fi_Reason : OwnerAuditReason; fi_Parts : list string; fi_Trigger : string }.

#[export] Instance partitionKey_countable : Countable partitionKey.
Proof.
  refine (inj_countable' (λ k, (pk_Table k, pk_Partition k)) (λ t, mkPartitionKey t.1 t.2) _). by intros [].
Defined.

Record ownerAuditState := mkAuditState {
  as_pendingAll : bool; as_trigger : string; as_pending : gset string;
  as_findings : gmap partitionKey OwnerAuditFinding; as_runs : gmap string N;
  as_dropped : N; as_restarts : N; as_fsmUnavailable : N; as_wake : bool }.

Definition TriggerStartup : string := "startup".
Definition TriggerPromotion : string := "promotion".
Definition TriggerClickHouseRestart : string := "clickhouse_restart".

Definition newOwnerAuditState (due : bool) : ownerAuditState :=
  mkAuditState due TriggerStartup ∅ ∅
    (<[TriggerStartup := 0%N]> (<[TriggerPromotion := 0%N]> (<[TriggerClickHouseRestart := 0%N]> ∅)))
    0 0 0 false.

Definition set_findings (f : gmap partitionKey OwnerAuditFinding) (a : ownerAuditState) : ownerAuditState :=
  mkAuditState (as_pendingAll a) (as_trigger a) (as_pending a) f (as_runs a) (as_dropped a)
    (as_restarts a) (as_fsmUnavailable a) (as_wake a).

Definition blocks (a : ownerAuditState) (table : string) : bool :=
  as_pendingAll a || bool_decide (table ∈ as_pending a) ||
  bool_decide (Exists (fun k => pk_Table k = table) (elements (dom (as_findings a)))).

Definition require (trigger : string) (a : ownerAuditState) : ownerAuditState :=
  mkAuditState true trigger (as_pending a) (as_findings a) (as_runs a) (as_dropped a)
    (as_restarts a) (as_fsmUnavailable a) true.

Definition restarted (a : ownerAuditState) : ownerAuditState :=
  require TriggerClickHouseRestart
    (mkAuditState (as_pendingAll a) (as_trigger a) (as_pending a) (as_findings a) (as_runs a)
       (as_dropped a) (u64 (as_restarts a + 1)) (as_fsmUnavailable a) (as_wake a)).

Definition begin (tables : list string) (a : ownerAuditState) : string * ownerAuditState :=
  (as_trigger a,
   mkAuditState false (as_trigger a) (list_to_set tables) (as_findings a) (as_runs a) (as_dropped a)
     (as_restarts a) (as_fsmUnavailable a) (as_wake a)).

Definition tableDone (table : string) (a : ownerAuditState) : ownerAuditState :=
  mkAuditState (as_pendingAll a) (as_trigger a) (as_pending a ∖ {[table]}) (as_findings a) (as_runs a)
    (as_dropped a) (as_restarts a) (as_fsmUnavailable a) (as_wake a).

Definition due (a : ownerAuditState) : bool :=
  as_pendingAll a || bool_decide (0 < size (as_pending a)).

Definition ran (trigger : string) (a : ownerAuditState) : ownerAuditState :=
  mkAuditState (as_pendingAll a) (as_trigger a) (as_pending a) (as_findings a)
    (<[trigger := u64 (get_or 0%N (as_runs a) trigger + 1)]> (as_runs a)) (as_dropped a)
    (as_restarts a) (as_fsmUnavailable a) (as_wake a).

(** [set]: whether the finding differs from the one it replaces. *)
Definition set_finding (k : partitionKey) (f : OwnerAuditFinding) (a : ownerAuditState)
    : bool * ownerAuditState :=
  (match as_findings a !! k with
   | None => true
   | Some old => bool_decide (fi_Reason old ≠ fi_Reason f) || bool_decide (fi_Trigger old ≠ fi_Trigger f) ||
                 bool_decide (fi_Parts old ≠ fi_Parts f)
   end, set_findings (<[k := f]> (as_findings a)) a).

Definition finding (a : ownerAuditState) (k : partitionKey) : option OwnerAuditFinding := as_findings a !! k.

Definition clear (k : partitionKey) (a : ownerAuditState) : ownerAuditState :=
  set_findings (delete k (as_findings a)) a.

Definition audit_forgetTable (table : string) (a : ownerAuditState) : ownerAuditState :=
  mkAuditState (as_pendingAll a) (as_trigger a) (as_pending a ∖ {[table]})
    (filter (fun kv => pk_Table kv.1 ≠ table) (as_findings a)) (as_runs a) (as_dropped a)
    (as_restarts a) (as_fsmUnavailable a) (as_wake a).

Definition findingTables (a : ownerAuditState) : list string :=
  sorted_set (pk_Table <$> elements (dom (as_findings a))).

Definition findingPartitions (a : ownerAuditState) (table : string) : list string :=
  sort_strings (pk_Partition <$> filter (fun k => pk_Table k = table) (elements (dom (as_findings a)))).

Definition countDropped (a : ownerAuditState) : ownerAuditState :=
  mkAuditState (as_pendingAll a) (as_trigger a) (as_pending a) (as_findings a) (as_runs a)
    (u64 (as_dropped a + 1)) (as_restarts a) (as_fsmUnavailable a) (as_wake a).

Definition countFSMUnavailable (a : ownerAuditState) : ownerAuditState :=
  mkAuditState (as_pendingAll a) (as_trigger a) (as_pending a) (as_findings a) (as_runs a)
    (as_dropped a) (as_restarts a) (u64 (as_fsmUnavailable a + 1)) (as_wake a).

(** ** Lemmas on the plan *)
Lemma phys_groups_get active h :
  get_or [] (phys_groups active) h = filter (λ p, p_PhysHash p = h) active.
Proof.
  unfold phys_groups.
  assert (∀ g : gmap string (list Part),
    get_or [] (foldl (λ g p, <[p_PhysHash p := get_or [] g (p_PhysHash p) ++ [p]]> g) g active) h
    = get_or [] g h ++ filter (λ p, p_PhysHash p = h) active) as Hgen.
  { induction active as [|p active IH]; intros g; cbn [foldl].
    - by rewrite filter_nil, app_nil_r.
    - rewrite IH, get_or_insert, filter_cons. repeat case_decide; subst; try done.
      by rewrite <- app_assoc. }
  by rewrite Hgen.
Qed.

Lemma phys_groups_in active h group :
  phys_groups active !! h = Some group → group = filter (λ p, p_PhysHash p = h) active.
Proof. intros Hg. rewrite <- phys_groups_get. unfold get_or. by rewrite Hg. Qed.

Lemma phys_groups_some active p :
  p ∈ active → phys_groups active !! p_PhysHash p = Some (filter (λ q, p_PhysHash q = p_PhysHash p) active).
Proof.
  intros Hp. rewrite <- phys_groups_get. unfold get_or.
  destruct (phys_groups active !! p_PhysHash p) eqn:Hg; [done|]. exfalso.
  assert (p ∈ @nil Part) as Hin; [|by apply elem_of_nil in Hin].
  replace (@nil Part) with (get_or [] (phys_groups active) (p_PhysHash p)) by (unfold get_or; by rewrite Hg).
  rewrite phys_groups_get. by apply list_elem_of_filter.
Qed.

(** [p] is not acknowledged; [kept] says whether an acknowledged part shares its hash. *)
Definition stranger (acked : gset ownerAuditPart) (active : list Part) (kept : bool) (p : Part) : Prop :=
  p ∈ active ∧ (part_id p ∉ acked) ∧
  (kept = true ↔ ∃ q, q ∈ active ∧ p_PhysHash q = p_PhysHash p ∧ part_id q ∈ acked).

Lemma split_groups_names acked active n (kept : bool) :
  n ∈ mjoin ((if kept then fst else snd) <$> ((split_group acked ∘ snd) <$> map_to_list (phys_groups active))) ↔
  ∃ p, p_Name p = n ∧ stranger acked active kept p.
Proof.
  rewrite list_elem_of_join. setoid_rewrite list_elem_of_fmap. setoid_rewrite list_elem_of_fmap. split.
  - intros (l & Hn & g & -> & [h group] & -> & Hin). rewrite elem_of_map_to_list in Hin.
    apply phys_groups_in in Hin. unfold split_group in Hn. simpl in Hn.
    case_bool_decide as Hk; destruct kept; simpl in Hn; try by apply elem_of_nil in Hn.
    all: apply list_elem_of_fmap in Hn as (p & -> & Hp); apply list_elem_of_filter in Hp as [Hna Hp].
    all: exists p; split; [done|]; subst group; apply list_elem_of_filter in Hp as [<- Hp].
    all: split; [done|]; split; [done|]; rewrite Exists_exists in Hk; setoid_rewrite list_elem_of_filter in Hk.
    all: split; [|try done; intros (q & Hq & Hh & Ha)]; try done.
    + intros _. destruct Hk as (q & [Hh Hq] & Ha). eauto.
    + exfalso. apply Hk. exists q. done.
  - intros (p & <- & Hp & Hna & Hk). exists ((if kept then fst else snd)
      (split_group acked (filter (λ q, p_PhysHash q = p_PhysHash p) active))). split.
    + unfold split_group. case_bool_decide as He; rewrite Exists_exists in He;
        setoid_rewrite list_elem_of_filter in He; destruct kept; simpl.
      * apply list_elem_of_fmap. exists p. split; [done|]. by rewrite !list_elem_of_filter.
      * exfalso. destruct He as (q & [Hh Hq] & Ha). destruct Hk as [_ Hk]. discriminate Hk. eauto.
      * exfalso. apply He. destruct (proj1 Hk eq_refl) as (q & Hq & Hh & Ha). eauto.
      * apply list_elem_of_fmap. exists p. split; [done|]. by rewrite !list_elem_of_filter.
    + eexists. split; [done|]. exists (p_PhysHash p, filter (λ q, p_PhysHash q = p_PhysHash p) active).
      split; [done|]. apply elem_of_map_to_list. by apply phys_groups_some.
Qed.

Lemma length_pos_elem {A} (l : list A) : 0 < length l ↔ ∃ x, x ∈ l.
Proof.
  destruct l as [|x l]; simpl.
  - split; [lia|]. intros [x Hx]. by apply elem_of_nil in Hx.
  - split; [|lia]. intros _. exists x. by left.
Qed.

(** Which branch the plan took, by what the two inventories hold. *)
Lemma plan_cases ref active :
  let acked : gset ownerAuditPart := list_to_set (ar_Parts ref) in
  let pl := planOwnerAudit (Some ref) active in
  (∃ p, stranger acked active false p ∧ pl_Reason pl = Some UnacknowledgedPart ∧ pl_Drop pl = [] ∧
     (∀ n, n ∈ pl_Parts pl ↔ ∃ q, p_Name q = n ∧ stranger acked active false q)) ∨
  ((∀ p, ¬ stranger acked active false p) ∧
   ((∃ x, x ∈ ar_Parts ref ∧ (x ∉ (part_id <$> active)) ∧
       pl_Reason pl = Some AcknowledgedPartMissing ∧ pl_Drop pl = [] ∧ ap_Name x ∈ pl_Parts pl) ∨
    ((∀ x, x ∈ ar_Parts ref → x ∈ (part_id <$> active)) ∧
     (∀ n, n ∈ pl_Drop pl ↔ ∃ q, p_Name q = n ∧ stranger acked active true q) ∧
     (pl_Reason pl = None ↔ pl_Drop pl = []) ∧ pl_Parts pl = pl_Drop pl))).
Proof.
  cbv zeta. unfold planOwnerAudit. set (acked := list_to_set (ar_Parts ref) : gset ownerAuditPart).
  set (groups := (split_group acked ∘ snd) <$> map_to_list (phys_groups active)).
  assert (∀ n, n ∈ sort_strings (mjoin (snd <$> groups)) ↔ ∃ p, p_Name p = n ∧ stranger acked active false p) as Hu.
  { intros n. rewrite elem_of_sort_strings. apply (split_groups_names acked active n false). }
  assert (∀ n, n ∈ sort_strings (mjoin (fst <$> groups)) ↔ ∃ p, p_Name p = n ∧ stranger acked active true p) as Hd.
  { intros n. rewrite elem_of_sort_strings. apply (split_groups_names acked active n true). }
  case_bool_decide as Hc1; rewrite length_pos_elem in Hc1.
  { left. destruct Hc1 as [n Hn]. pose proof (proj1 (Hu n) Hn) as (p & _ & Hp). exists p. done. }
  right. split. { intros p Hp. apply Hc1. exists (p_Name p). apply Hu. eauto. }
  case_bool_decide as Hc2; rewrite length_pos_elem in Hc2.
  { left. destruct Hc2 as [n Hn]. pose proof Hn as Hn'.
    rewrite elem_of_sort_strings, list_elem_of_fmap in Hn. destruct Hn as (x & -> & Hx).
    apply list_elem_of_filter in Hx as [Hnp Hx]. exists x. rewrite elem_of_list_to_set in Hnp. done. }
  right. split.
  { intros x Hx. destruct (decide (x ∈ (part_id <$> active))) as [?|Hnx]; [done|]. exfalso. apply Hc2.
    exists (ap_Name x). rewrite elem_of_sort_strings. apply list_elem_of_fmap_2, list_elem_of_filter.
    rewrite elem_of_list_to_set. done. }
  case_bool_decide as Hc3; simpl.
  - split; [done|]. split; [|done]. split; [done|]. intros He. rewrite He in Hc3. simpl in Hc3. lia.
  - rewrite length_pos_elem in Hc3. split; [|done]. intros n. split; [by intros ?%elem_of_nil|].
    intros Hq. exfalso. apply Hc3. exists n. by apply Hd.
Qed.

Lemma part_id_inj_name active p q :
  NoDup (p_Name <$> active) → p ∈ active → q ∈ active → p_Name p = p_Name q → p = q.
Proof.
  intros Hnd Hp Hq Heq. apply list_elem_of_lookup in Hp as [i Hi], Hq as [j Hj].
  assert (i = j) as ->; [|congruence].
  eapply NoDup_lookup; [done| |]; rewrite list_lookup_fmap; [rewrite Hi|rewrite Hj]; simpl; [done|by rewrite Heq].
Qed.

(** ** Properties *)

(** C32: The owner audit repairs to exactly the reference. For the active parts
    of a partition (names are unique) and a reference, the plan is clean exactly
    when the active parts are the reference's as a set of (name,
    hash_of_all_files); when it names twins to drop, every one is unacknowledged
    and has an acknowledged active part with the same hash, no acknowledged part
    shares a dropped name, and the parts left after the drops are exactly the
    reference; in every other case it drops nothing. *)
Theorem plan_repairs_to_reference ref active :
  NoDup (p_Name <$> active) →
  let pl := planOwnerAudit (Some ref) active in
  (pl_Reason pl = None ↔ ∀ x, x ∈ (part_id <$> active) ↔ x ∈ ar_Parts ref) ∧
  (pl_Drop pl ≠ [] →
     (∀ p, p ∈ active → p_Name p ∈ pl_Drop pl →
        (part_id p ∉ ar_Parts ref) ∧
        ∃ q, q ∈ active ∧ p_PhysHash q = p_PhysHash p ∧ part_id q ∈ ar_Parts ref) ∧
     (∀ x, x ∈ (part_id <$> filter (λ p, p_Name p ∉ pl_Drop pl) active) ↔ x ∈ ar_Parts ref)) ∧
  (pl_Reason pl ≠ Some UnacknowledgedPart → pl_Drop pl = []).
Proof.
  intros Hnd. cbv zeta. pose proof (plan_cases ref active) as Hc. cbv zeta in Hc.
  set (pl := planOwnerAudit (Some ref) active) in *.
  destruct Hc as [(p & Hp & Hr & Hd & _)|(Hno & [(x & Hx & Hnx & Hr & Hd & _)|(Hall & Hdrop & Hclean & Hpd)])].
  - rewrite Hr, Hd. split; [|done]. split; [done|]. intros Hset. exfalso.
    destruct Hp as (Hp & Hna & _). apply Hna, elem_of_list_to_set, Hset. by apply list_elem_of_fmap_2.
  - rewrite Hr, Hd. split; [|done]. split; [done|]. intros Hset. exfalso. by apply Hnx, Hset.
  - assert (∀ p, p ∈ active → p_Name p ∈ pl_Drop pl ↔ part_id p ∉ ar_Parts ref) as Hiff.
    { intros p Hp. rewrite Hdrop. split.
      - intros (q & Hn & Hq & Hna & _). rewrite elem_of_list_to_set in Hna.
        by rewrite (part_id_inj_name _ _ _ Hnd Hp Hq (eq_sym Hn)).
      - intros Hna. exists p. split; [done|]. split; [done|]. rewrite elem_of_list_to_set. split; [done|].
        split; [|done]. intros _.
        destruct (decide (Exists (λ q, p_PhysHash q = p_PhysHash p ∧
          part_id q ∈@{gset ownerAuditPart} list_to_set (ar_Parts ref)) active)) as [He|He];
          rewrite Exists_exists in He; [done|]. exfalso. apply (Hno p).
        split; [done|]. rewrite elem_of_list_to_set. split; [done|]. split; [done|]. by intros ?%He. }
    split; [|split].
    + rewrite Hclean. split.
      * intros Hnil x. split; [|apply Hall]. intros (p & -> & Hp)%list_elem_of_fmap.
        apply dec_stable. intros Hna. apply (Hiff p Hp) in Hna. rewrite Hnil in Hna.
        by apply elem_of_nil in Hna.
      * intros Hset. destruct (pl_Drop pl) as [|n l] eqn:Hl; [done|]. exfalso.
        destruct (proj1 (Hdrop n) (list_elem_of_here _ _)) as (q & _ & Hq & Hna & _).
        apply Hna, elem_of_list_to_set, Hset. by apply list_elem_of_fmap_2.
    + intros _. split.
      * intros p Hp Hin. split; [by apply Hiff|]. apply Hdrop in Hin as (q & Hn & Hq & _ & Hk).
        rewrite (part_id_inj_name _ _ _ Hnd Hp Hq (eq_sym Hn)).
        destruct (proj1 Hk eq_refl) as (t & Ht & Hh & Ha). rewrite elem_of_list_to_set in Ha. eauto.
      * intros x. split.
        -- intros (p & -> & Hp)%list_elem_of_fmap. apply list_elem_of_filter in Hp as [Hn Hp].
           apply dec_stable. intros Hna. by apply Hn, Hiff.
        -- intros Hx. apply Hall in Hx as Hx'. apply list_elem_of_fmap in Hx' as (p & -> & Hp).
           apply list_elem_of_fmap_2, list_elem_of_filter. split; [|done]. rewrite Hiff by done. tauto.
    + intros Hr. unfold pl, planOwnerAudit in Hr |- *.
      repeat (case_bool_decide; simpl in *; try done).
Qed.

(** Equal sorted lists are permutations; the converse needs a total order. *)
Lemma samePartSet_perm a b : samePartSet a b = true → a ≡ₚ b.
Proof.
  unfold samePartSet. case_bool_decide; [done|]. rewrite bool_decide_eq_true. intros Heq.
  by rewrite <- (merge_sort_Permutation audit_le a), Heq, merge_sort_Permutation.
Qed.

Lemma sameContent_perm local fsm :
  sameContent local fsm = true ↔
  (λ m, (sm_PartRowLtHash m, sm_PartPhysHash m)) <$> local ≡ₚ
  (λ e, (pm_PartRowLtHash e, pm_PartPhysHash e)) <$> fsm.
Proof.
  unfold sameContent. set (l := (λ m, _) <$> local). set (f := (λ e, _) <$> fsm). split.
  - case_bool_decide as Hlen; [done|]. rewrite bool_decide_eq_true. intros [rest Hc].
    apply (consume_some _ _ _ _ (counts_reps l)) in Hc as [Hsub _]. symmetry.
    apply ms_sub_length; [done|]. unfold l, f. rewrite !length_fmap. by symmetry.
  - intros Hp. rewrite bool_decide_eq_false_2.
    + apply bool_decide_eq_true. destruct (consume (counts l) f) eqn:Hc; [by eexists|]. exfalso.
      apply (consume_none _ _ _ (counts_reps l)) in Hc. apply Hc. by rewrite Hp.
    + intros Hne. apply Hne. apply Permutation_length in Hp. unfold l, f in Hp. by rewrite !length_fmap in Hp.
Qed.

Definition fsm_seq (input : ownerAuditInputs) : N :=
  match in_FSM input with Some st => st_PublishSeq st | None => 0%N end.

(** The audit's reference is the newest inventory anyone acknowledged, and
    none when the two sides contradict each other. The choice is refused as
    fsm_ahead exactly when a readable arbiter is past the SNode's watermark; a
    chosen reference is at least as new as the local inventory and as a readable
    arbiter's; when both acknowledged the same promotion the chosen parts are the
    local ones and agree with the arbiter's, by name and hash, or, for a rebuilt
    inventory, by row hash and file hash as multisets; and there is no reference
    at all only without a local inventory and without a readable arbiter. *)
Theorem audit_reference_newest input :
  (ownerAuditReferenceFor input = Refused FSMAhead ↔
     in_FSMAvailable input = true ∧ (in_Watermark input < fsm_seq input)%N) ∧
  (ownerAuditReferenceFor input = NoReference ↔ in_Local input = None ∧ in_FSMAvailable input = false) ∧
  (∀ r, ownerAuditReferenceFor input = Reference r →
     (∀ inv, in_Local input = Some inv → (ai_PromotionSeq inv ≤ ar_Seq r)%N) ∧
     (in_FSMAvailable input = true → (fsm_seq input ≤ ar_Seq r)%N) ∧
     (∀ inv, in_Local input = Some inv → in_FSMAvailable input = true →
        ai_PromotionSeq inv = fsm_seq input →
        ar_Parts r = ar_Parts (local_reference inv) ∧
        (ar_Parts r ≡ₚ ar_Parts (fsm_reference (in_FSM input)) ∨
         ai_Rebuilt inv = true ∧ ∃ st, in_FSM input = Some st ∧
           (λ m, (sm_PartRowLtHash m, sm_PartPhysHash m)) <$> ai_Parts inv ≡ₚ
           (λ e, (pm_PartRowLtHash e, pm_PartPhysHash e)) <$> st_SafeParts st))).
Proof.
  destruct input as [wm loc avail fsm]. unfold ownerAuditReferenceFor, fsm_seq. simpl.
  split; [|split].
  - destruct avail, fsm as [st|], loc as [inv|]; simpl; repeat case_match; unbool;
      (split; [intros; simplify_eq; try done|intros [? ?]; try done; try lia]).
  - destruct avail, fsm as [st|], loc as [inv|]; simpl; repeat case_match; unbool; by (split; [|intros [? ?]]).
  - intros r Hr. split_and!.
    + intros inv ->. destruct avail, fsm as [st|]; simpl in Hr; repeat case_match; unbool; simplify_eq/=; lia.
    + intros ->. destruct fsm as [st|], loc as [inv|]; simpl in Hr; repeat case_match; unbool; simplify_eq/=; lia.
    + intros inv -> -> Hseq. destruct fsm as [st|]; simpl in Hr; repeat case_match; unbool; simplify_eq/=;
        try lia; (split; [done|]).
      all: first [left; by apply samePartSet_perm | right; split; [done|]; eexists; split; [done|];
        by apply sameContent_perm].
Qed.

(** Two parts with the same files, of which the reference knows one. *)
Definition ex_ref : ownerAuditReference := mkReference "local" 4 [mkAuditPart "all_1_1_0" "h1"].
Definition ex_active : list Part :=
  [mkPart "all_1_1_0" "all" "" "h1" "" 1 1; mkPart "all_2_2_0" "all" "" "h1" "" 1 1].

Lemma plan_repairs_to_reference_witness :
  pl_Drop (planOwnerAudit (Some ex_ref) ex_active) = ["all_2_2_0"%string] ∧
  ∀ x, x ∈ (part_id <$> filter (λ p, p_Name p ∉ pl_Drop (planOwnerAudit (Some ex_ref) ex_active)) ex_active) ↔
       x ∈ ar_Parts ex_ref.
Proof.
  split; [vm_compute; reflexivity|].
  refine (proj2 (proj1 (proj2 (plan_repairs_to_reference ex_ref ex_active _)) _)).
  - by apply (bool_decide_unpack (NoDup (p_Name <$> ex_active))).
  - vm_compute. discriminate.
Defined.

End OwnerAudit.
