(* ===== verification/Promote.v ===== *)
(** * Promotion, settle and cleanup on the SNode (snode/promote*.go, settle.go,
    cleanup.go, owner_audit.go)

    The handlers as computations over a [node]: the ClickHouse server, the
    ledger, the audit state, and what the outside decides (which ledger writes
    fail, which acknowledgements the arbiter accepts, what it answers to a
    partition-state read). A computation keeps its effects when it fails. The
    handlers of one partition run under its promotion lock, so a handler is one
    step. Logging, the acknowledgements' signatures and times are left out;
    authorization, ownership and the schema of a table are arguments. *)
From S2P Require Import Prelude LtHash Types Gate StateStore ClickHouse OwnerAudit.
Import StateStore OwnerAudit.

Module Promote.

Inductive perr :=
| EAuthority | EConn | ESchema | EPartition | ECandidateHash | EDuplicateCandidate
| EAuditUnclean | EClickHouse | EPromoteTableMissing | EEmptyPartName | EVanished | EShadowScan
| EMissingCandidate | EShadowInventory | EShadowClosure | EDuplicateShadow | EStore (e : serr)
| EIntentMismatch | EUnexpectedRoot | EHexRoot | ESafeScan | ELegacyAck | ESend.

Inductive SettleOutcome := SettleJournaled | SettleReconciled | SettleNotApplied | SettleUnanswerable.

#[export] Instance SettleOutcome_eq_dec : EqDecision SettleOutcome.
Proof. solve_decision. Defined.

Record shadowPart := mkShadow { sh_Name : string; sh_RowLtHash : string }.
Record safePartMappings := mkMappings {
  mp_Candidates : list SafePartMapping; mp_Partition : list SafePartMapping }.

Section promote.
Context `{ClickHouse, RowSum}.

(** ** The node and its computations *)
Record node := mkNode {
  n_ch : chs; n_store : cell localState; n_audit : ownerAuditState;
  n_writes : list write_env; n_sends : list bool; n_fsm : list (option (gmap string PartitionState));
  n_sent : list PromotionAck; n_csent : list CleanupAck; n_settled : list SettleOutcome }.

Definition set_ch (w : chs) (n : node) : node :=
  mkNode w (n_store n) (n_audit n) (n_writes n) (n_sends n) (n_fsm n) (n_sent n) (n_csent n) (n_settled n).
Definition set_audit (a : ownerAuditState) (n : node) : node :=
  mkNode (n_ch n) (n_store n) a (n_writes n) (n_sends n) (n_fsm n) (n_sent n) (n_csent n) (n_settled n).

Definition M (A : Type) : Type := node → result perr A * node.

#[export] Instance M_ret : MRet M := fun A a n => (Ok a, n).
#[export] Instance M_bind : MBind M := fun A B f m n =>
  match m n with (Ok a, n') => f a n' | (Err e, n') => (Err e, n') end.

Definition fail {A} (e : perr) : M A := fun n => (Err e, n).
Definition guard_ (b : bool) (e : perr) : M unit := fun n => (if b then Ok () else Err e, n).
Definition lift {A} (r : result perr A) : M A := fun n => (r, n).
Definition opt {A} (e : perr) (o : option A) : M A := lift (of_option e o).

(** A ClickHouse query or statement. *)
Definition ch {A} (e : perr) (f : chs → option A * chs) : M A := fun n =>
  let '(r, w) := f (n_ch n) in (of_option e r, set_ch w n).
Definition exec_stmt (q : stmt) : M (option ch_error) := fun n =>
  let '(r, w) := ch_exec q (n_ch n) in (Ok r, set_ch w n).
Definition alter (q : stmt) : M unit :=
  r ← exec_stmt q;
  match r with None => mret () | Some _ => fail EClickHouse end.

(** A read and a write of the ledger; [n_writes] decides how writes go. *)
Definition ledger : M localState := fun n => (Ok (c_mem (n_store n)), n).
Definition journal {A} (t : txn A) : M A := fun n =>
  let w := default write_ok (head (n_writes n)) in
  let '(r, c) := StateStore.run t w (n_store n) in
  (rwrap EStore r,
   mkNode (n_ch n) c (n_audit n) (tail (n_writes n)) (n_sends n) (n_fsm n) (n_sent n) (n_csent n) (n_settled n)).

Definition audit : M ownerAuditState := fun n => (Ok (n_audit n), n).
Definition audit_do (f : ownerAuditState → ownerAuditState) : M unit := fun n =>
  (Ok (), set_audit (f (n_audit n)) n).

(** Runs [m], and [h] best-effort when it failed. *)
Definition or_cleanup {A} (m : M A) (h : M unit) : M A := fun n =>
  match m n with
  | (Ok a, n') => (Ok a, n')
  | (Err e, n') => (Err e, (h n').2)
  end.
(** Goes on with what [m] returned, an error included. *)
Definition catch {A B} (m : M A) (f : result perr A → M B) : M B := fun n =>
  let '(r, n') := m n in f r n'.
Definition best_effort (m : M unit) : M unit := fun n => (Ok (), (m n).2).

(** AckPromotion and AckCleanup, retried to the leader: the acknowledgement
    goes out and the arbiter's acceptance may or may not come back. *)
Definition sendAck (ack : PromotionAck) : M unit := fun n =>
  (if default true (head (n_sends n)) then Ok () else Err ESend,
   mkNode (n_ch n) (n_store n) (n_audit n) (n_writes n) (tail (n_sends n)) (n_fsm n)
     (ack :: n_sent n) (n_csent n) (n_settled n)).
Definition sendCleanupAck (ack : CleanupAck) : M unit := fun n =>
  (if default true (head (n_sends n)) then Ok () else Err ESend,
   mkNode (n_ch n) (n_store n) (n_audit n) (n_writes n) (tail (n_sends n)) (n_fsm n)
     (n_sent n) (ack :: n_csent n) (n_settled n)).
Definition countSettle (o : SettleOutcome) : M unit := fun n =>
  (Ok (), mkNode (n_ch n) (n_store n) (n_audit n) (n_writes n) (n_sends n) (n_fsm n)
            (n_sent n) (n_csent n) (o :: n_settled n)).

(** GetPartitionStates within its timeout. *)
Definition ownerAuditFSM : M (option (gmap string PartitionState)) := fun n =>
  let r := default None (head (n_fsm n)) in
  (Ok r, mkNode (n_ch n) (n_store n)
           (match r with None => countFSMUnavailable (n_audit n) | Some _ => n_audit n end)
           (n_writes n) (n_sends n) (tail (n_fsm n)) (n_sent n) (n_csent n) (n_settled n)).

(** ** The node's configuration *)
Context (NodeID : string) (conn repair : bool) (CHTableName : string → string).
Context (schemaFor : string → option TableSchema) (owned : string → bool).
Context (authorized : PromoteSafePartition → string → bool) (cleanup_authorized : UnsafeCleanup → string → bool).

Definition dropPartitionIfPresent (d : database) (table : string) (sch : TableSchema) (pid : string) : M unit :=
  _ ← ch EClickHouse (DropPartitionIfPresent d table sch pid); mret ().

Definition activeParts (d : database) (table : string) : M (list Part) :=
  ch EClickHouse (ch_active d table).

Definition candidateHashes (cmd : PromoteSafePartition) : list string :=
  sort_strings (pr_PartRowLtHash <$> ps_CandidateParts cmd).

(** ** Candidates *)
Definition canon_hash (hash : string) : option string :=
  if bool_decide (hash = EmptyString) then None else accumulatorHex <$> parseAccumulatorHex hash.

Definition candidate_keys (cmd : PromoteSafePartition) : result perr (list string) :=
  result_map (fun cp => of_option ECandidateHash (canon_hash (pr_PartRowLtHash cp))) (ps_CandidateParts cmd).

Definition candidateMultiset (cmd : PromoteSafePartition) : result perr (gmap string nat) :=
  let* ks := candidate_keys cmd in Ok (counts ks).

(** The key a candidate that passed [candidateMultiset] is counted under. *)
Definition key_of (hash : string) : string := default "" (accumulatorHex <$> parseAccumulatorHex hash).

Definition refuseDuplicateCandidates (cmd : PromoteSafePartition) : result perr unit :=
  let* want := candidateMultiset cmd in
  if bool_decide (Exists (fun cp => 1 < get_or 0 want (key_of (pr_PartRowLtHash cp))) (ps_CandidateParts cmd))
  then Err EDuplicateCandidate else Ok ().

Definition name_le (x y : shadowPart) : Prop := String.le (sh_Name x) (sh_Name y).

#[export] Instance name_le_dec : RelDecision name_le.
Proof. intros x y. unfold name_le. apply _. Defined.

(** The scanned parts, in name order: those a candidate consumes, the rest. *)
Fixpoint match_loop (want : gmap string nat) (shadow : list shadowPart)
    : result perr (list string * list string * gmap string nat) :=
  match shadow with
  | [] => Ok ([], [], want)
  | p :: shadow =>
      if bool_decide (sh_RowLtHash p = EmptyString)
      then let* r := match_loop want shadow in
           let '(keep, drop, want) := r in Ok (keep, sh_Name p :: drop, want)
      else
        let* h := of_option EShadowScan (parseAccumulatorHex (sh_RowLtHash p)) in
        let k := accumulatorHex h in
        if bool_decide (0 < get_or 0 want k)
        then let* r := match_loop (dec want k) shadow in
             let '(keep, drop, want) := r in Ok (sh_Name p :: keep, drop, want)
        else let* r := match_loop want shadow in
             let '(keep, drop, want) := r in Ok (keep, sh_Name p :: drop, want)
  end.

Definition matchShadowCandidates (cmd : PromoteSafePartition) (shadow : list shadowPart)
    : result perr (list string * list string) :=
  let* want := candidateMultiset cmd in
  let* r := match_loop want (merge_sort name_le shadow) in
  let '(keep, drop, want) := r in
  let '(missing, _, _) := pick (fun cp => key_of (pr_PartRowLtHash cp)) want (ps_CandidateParts cmd) in
  if bool_decide (length missing ≠ 0) then Err EMissingCandidate else Ok (keep, drop).

(** ** The shadow *)
Definition shadowPartitionParts (table : string) (sch : TableSchema) (pid : string) : M (list string) :=
  parts ← activeParts PromoteDB table;
  mret (sort_strings (p_Name <$> PartsInLogicalPartition parts sch pid)).

(** Splits the shadow into the base names still missing and the other parts. *)
Fixpoint origin_loop (isBase : gset string) (parts : list Part) : list Part * gset string :=
  match parts with
  | [] => ([], isBase)
  | p :: parts =>
      if bool_decide (p_Name p ∈ isBase) then origin_loop (isBase ∖ {[p_Name p]}) parts
      else let '(out, isBase) := origin_loop isBase parts in (p :: out, isBase)
  end.

Fixpoint scan_hashes (hashes : gmap string string) (scans : list Scan) : result perr (gmap string string) :=
  match scans with
  | [] => Ok hashes
  | s :: scans =>
      if bool_decide (sc_RowLtHash s = EmptyString) then Err EShadowScan
      else scan_hashes (<[sc_PartName s := sc_RowLtHash s]> hashes) scans
  end.

Fixpoint fill_hashes (hashes : gmap string string) (scan : list string) (out : list Part)
    : result perr (list shadowPart * gmap string string) :=
  match out with
  | [] => Ok ([], hashes)
  | p :: out =>
      match hashes !! p_Name p with
      | Some h =>
          let* r := fill_hashes (delete (p_Name p) hashes) scan out in
          Ok (mkShadow (p_Name p) h :: r.1, r.2)
      | None =>
          if bool_decide (p_Name p ∈ scan) then Err EShadowScan else
          let* r := fill_hashes hashes scan out in
          Ok (mkShadow (p_Name p) EmptyString :: r.1, r.2)
      end
  end.

Definition unsafeOriginShadowParts (table : string) (sch : TableSchema) (pid : string) (base : list string)
    : M (list shadowPart) :=
  parts ← activeParts PromoteDB table;
  let '(out, isBase) := origin_loop (list_to_set base) (PartsInLogicalPartition parts sch pid) in
  _ ← guard_ (bool_decide (size isBase = 0)) EVanished;
  let scan := p_Name <$> filter (fun p => (0 < p_Rows p)%N) out in
  if bool_decide (length scan = 0) then mret ((fun p => mkShadow (p_Name p) EmptyString) <$> out) else
  scans ← ch EShadowScan (ch_scan PromoteDB table sch scan);
  hashes ← lift (scan_hashes ∅ scans);
  r ← lift (fill_hashes hashes scan out);
  _ ← guard_ (bool_decide (size r.2 = 0)) EShadowScan;
  mret r.1.

Fixpoint drop_parts (d : database) (table : string) (names : list string) : M unit :=
  match names with
  | [] => mret ()
  | name :: names => _ ← alter (DropPart d table name); drop_parts d table names
  end.

Definition attachCandidateSubset (cmd : PromoteSafePartition) (sch : TableSchema) (table partitionSQL : string)
    : M unit :=
  or_cleanup
    (base ← shadowPartitionParts table sch (ps_PartitionID cmd);
     _ ← alter (AttachPartition PromoteDB table partitionSQL UnsafeDB);
     attached ← unsafeOriginShadowParts table sch (ps_PartitionID cmd) base;
     r ← lift (matchShadowCandidates cmd attached);
     let '(keep, drop) := r in
     _ ← drop_parts PromoteDB table drop;
     final ← shadowPartitionParts table sch (ps_PartitionID cmd);
     guard_ (bool_decide (final = sort_strings (base ++ keep))) EShadowInventory)
    (dropPartitionIfPresent PromoteDB table sch (ps_PartitionID cmd)).

Fixpoint all_candidates (candidates : gset string) (parts : list Part) (sch : TableSchema) (pid : string)
    : option nat :=
  match parts with
  | [] => Some 0
  | p :: parts =>
      if bool_decide (LogicalPartitionID sch p ≠ pid) then all_candidates candidates parts sch pid else
      if bool_decide (p_Name p ∈ candidates) then S <$> all_candidates candidates parts sch pid else None
  end.

Definition candidatesCoverUnsafePartition (cmd : PromoteSafePartition) (sch : TableSchema) (table : string)
    : M bool :=
  parts ← activeParts UnsafeDB table;
  _ ← guard_ (bool_decide (Forall (fun cp => pr_PartName cp ≠ EmptyString) (ps_CandidateParts cmd))) EEmptyPartName;
  let candidates : gset string := list_to_set (pr_PartName <$> ps_CandidateParts cmd) in
  mret match all_candidates candidates parts sch (ps_PartitionID cmd) with
       | Some partitionParts => bool_decide (partitionParts = size candidates)
       | None => false
       end.

Definition attachCandidateParts (cmd : PromoteSafePartition) (sch : TableSchema) (table partitionSQL : string)
    : M unit :=
  ok ← candidatesCoverUnsafePartition cmd sch table;
  if (ok : bool) then alter (AttachPartition PromoteDB table partitionSQL UnsafeDB)
  else attachCandidateSubset cmd sch table partitionSQL.

Definition prepareShadow (cmd : PromoteSafePartition) (sch : TableSchema) (table partitionSQL : string) : M unit :=
  there ← ch EClickHouse (ch_exists PromoteDB table);
  _ ← guard_ there EPromoteTableMissing;
  _ ← dropPartitionIfPresent PromoteDB table sch (ps_PartitionID cmd);
  if bool_decide (ps_BasePartitionRoot cmd = EmptyString) then mret ()
  else alter (AttachPartition PromoteDB table partitionSQL SafeDB).

Definition partitionContentScan (d : database) (table : string) (sch : TableSchema) (pid : string)
    : M (string * list shadowPart) :=
  r ← ch EClickHouse (PartitionContentScan d table sch pid);
  mret (r.1, (fun s => mkShadow (sn_Name s) (sn_RowLtHash s)) <$> r.2).

Definition partitionContentRoot (d : database) (table : string) (sch : TableSchema) (pid : string) : M string :=
  r ← partitionContentScan d table sch pid; mret r.1.

Fixpoint duplicate_hash (seen : gset string) (parts : list shadowPart) : bool :=
  match parts with
  | [] => false
  | p :: parts =>
      if bool_decide (sh_RowLtHash p ∈ seen) then true
      else duplicate_hash ({[sh_RowLtHash p]} ∪ seen) parts
  end.

Definition duplicateShadowPartHash (parts : list shadowPart) : bool := duplicate_hash ∅ parts.

(** ** The owner audit's effects (owner_audit.go) *)
Definition loadSafeTable (table : string) : M unit :=
  r ← exec_stmt (LoadTable SafeDB table);
  match r with
  | None | Some UnknownTable | Some UnknownDatabase => mret ()
  | Some _ => fail EClickHouse
  end.

Definition safePartitionParts (sch : TableSchema) (table pid : string) : M (list Part) :=
  parts ← activeParts SafeDB table; mret (PartsInLogicalPartition parts sch pid).

Definition recordOwnerAudit (trigger : string) (k : partitionKey) (plan : ownerAuditPlan)
    : M (option OwnerAuditFinding) :=
  match pl_Reason plan with
  | None => _ ← audit_do (clear k); mret None
  | Some reason =>
      let f := mkFinding reason (pl_Parts plan) trigger in
      _ ← audit_do (fun a => (set_finding k f a).2); mret (Some f)
  end.

Fixpoint drop_twins (table : string) (names : list string) : M unit :=
  match names with
  | [] => mret ()
  | name :: names =>
      _ ← alter (DropPart SafeDB table name);
      _ ← audit_do countDropped;
      drop_twins table names
  end.

Definition dropResurrectedTwins (sch : TableSchema) (table : string) (k : partitionKey)
    (ref : ownerAuditReference) (plan : ownerAuditPlan) : M ownerAuditPlan :=
  _ ← drop_twins table (pl_Drop plan);
  active ← safePartitionParts sch table (pk_Partition k);
  let after := planOwnerAudit (Some ref) active in
  mret (if bool_decide (0 < length (pl_Drop after))
        then mkAuditPlan (pl_Reason after) (pl_Parts after) [] else after).

(** The audit's decision, before any repair: the reference and the plan. *)
Definition decide_audit (s : localState) (k : partitionKey) (fsm : option (gmap string PartitionState))
    (active : list Part) : option ownerAuditReference * ownerAuditPlan :=
  let states : gmap string PartitionState := default ∅ fsm in
  match ownerAuditReferenceFor
          (mkInputs (Watermark s k) (AckedSafeInventory s k) (bool_decide (fsm ≠ None)) (states !! pk_Partition k))
  with
  | Refused why => (None, mkAuditPlan (Some why) (activePartNames active) [])
  | NoReference => (None, planOwnerAudit None active)
  | Reference r => (Some r, planOwnerAudit (Some r) active)
  end.

Definition auditPartitionLocked (trigger : string) (sch : TableSchema) (table : string) (k : partitionKey)
    (fsm : option (gmap string PartitionState)) : M (option OwnerAuditFinding) :=
  s ← ledger;
  _ ← loadSafeTable table;
  active ← safePartitionParts sch table (pk_Partition k);
  let '(ref, plan) := decide_audit s k fsm active in
  match ref with
  | Some r =>
      if bool_decide (0 < length (pl_Drop plan)) && repair then
        catch (dropResurrectedTwins sch table k r plan) (fun repaired =>
          match repaired with
          | Ok repaired => recordOwnerAudit trigger k repaired
          | Err e => _ ← recordOwnerAudit trigger k (mkAuditPlan (pl_Reason plan) (pl_Parts plan) []); fail e
          end)
      else recordOwnerAudit trigger k plan
  | None => recordOwnerAudit trigger k plan
  end.

Definition auditBeforeShadow (cmd : PromoteSafePartition) (sch : TableSchema) (table : string) : M unit :=
  let k := mkPartitionKey (ps_TableID cmd) (ps_PartitionID cmd) in
  fsm ← ownerAuditFSM;
  catch (auditPartitionLocked TriggerPromotion sch table k fsm) (fun r =>
    _ ← audit_do (ran TriggerPromotion);
    match r with
    | Err e => if repair then fail e else mret ()
    | Ok (Some _) => if repair then fail EAuditUnclean else mret ()
    | Ok None => mret ()
    end).

Definition auditPassPartition (trigger : string) (sch : TableSchema) (table : string) (k : partitionKey)
    (fsm : option (gmap string PartitionState)) : M unit :=
  s ← ledger;
  match PendingPromotion s k with
  | Some _ => _ ← recordOwnerAudit trigger k (mkAuditPlan (Some UnresolvedIntent) [] []); mret ()
  | None => _ ← auditPartitionLocked trigger sch table k fsm; mret ()
  end.

(** One arbiter read per table; after a failed one the pass asks no more. *)
Definition pass_fsm (fsmDown : bool) : M (option (gmap string PartitionState)) :=
  if fsmDown then _ ← audit_do countFSMUnavailable; mret None else ownerAuditFSM.

Fixpoint audit_partitions (trigger : string) (sch : TableSchema) (tableID table : string)
    (fsm : option (gmap string PartitionState)) (pids : list string) : M unit :=
  match pids with
  | [] => mret ()
  | pid :: pids =>
      _ ← auditPassPartition trigger sch table (mkPartitionKey tableID pid) fsm;
      audit_partitions trigger sch tableID table fsm pids
  end.

(** The partitions a table's audit visits. *)
Definition audited_partitions (s : localState) (a : ownerAuditState) (sch : TableSchema) (tableID : string)
    (fsm : option (gmap string PartitionState)) (parts : list Part) : list string :=
  sorted_set ((LogicalPartitionID sch <$> parts) ++ ackedInventoryPartitions s tableID ++
    (fst <$> filter (fun kv => (0 < st_PublishSeq kv.2)%N ∨ 0 < length (st_SafeParts kv.2))
               (map_to_list (default ∅ fsm))) ++
    findingPartitions a tableID).

(** The verdict on one table, with the pass's memory of a failed arbiter read. *)
Definition auditTable (trigger tableID : string) (fsmDown : bool) (n : node)
    : result perr unit * bool * node :=
  match schemaFor tableID with
  | None => (Err ESchema, fsmDown, n)
  | Some sch =>
      match loadSafeTable (CHTableName tableID) n with
      | (Err e, n) => (Err e, fsmDown, n)
      | (Ok _, n) =>
          match pass_fsm fsmDown n with
          | (Err e, n) => (Err e, true, n)
          | (Ok fsm, n) =>
              let '(r, n) :=
                (parts ← activeParts SafeDB (CHTableName tableID);
                 s ← ledger;
                 a ← audit;
                 audit_partitions trigger sch tableID (CHTableName tableID) fsm
                   (audited_partitions s a sch tableID fsm parts)) n in
              (r, bool_decide (fsm = None), n)
          end
      end
  end.

(** The tables of one pass, in order; [budget] is where the context ends. *)
Fixpoint audit_tables (trigger : string) (tables : list string) (fsmDown : bool) (budget : nat) (n : node)
    : bool * node :=
  match tables, budget with
  | [], _ => (true, n)
  | _ :: _, O => (false, n)
  | t :: tables, S budget =>
      let '(r, down, n) := auditTable trigger t fsmDown n in
      audit_tables trigger tables down budget
        match r with Ok _ => set_audit (tableDone t (n_audit n)) n | Err _ => n end
  end.

Definition runOwnerAuditPass (tables : list string) (budget : nat) (n : node) : node :=
  if negb conn then n else
  let '(trigger, a) := begin tables (n_audit n) in
  let '(complete, n) := audit_tables trigger tables false budget (set_audit a n) in
  if complete then set_audit (ran trigger (n_audit n)) n else n.

(** The partitions of one table that have a finding, each under its trigger. *)
Fixpoint reaudit_partitions (sch : TableSchema) (tableID table : string)
    (fsm : option (gmap string PartitionState)) (pids : list string) : M unit :=
  match pids with
  | [] => mret ()
  | pid :: pids =>
      let k := mkPartitionKey tableID pid in
      a ← audit;
      _ ← match finding a k with
          | None => mret ()
          | Some f => auditPassPartition (fi_Trigger f) sch table k fsm
          end;
      reaudit_partitions sch tableID table fsm pids
  end.

Definition reauditTable (tableID : string) (fsmDown : bool) (n : node) : result perr unit * bool * node :=
  match schemaFor tableID with
  | None => (Err ESchema, fsmDown, n)
  | Some sch =>
      match loadSafeTable (CHTableName tableID) n with
      | (Err e, n) => (Err e, fsmDown, n)
      | (Ok _, n) =>
          match pass_fsm fsmDown n with
          | (Err e, n) => (Err e, true, n)
          | (Ok fsm, n) =>
              let '(r, n) := reaudit_partitions sch tableID (CHTableName tableID) fsm
                               (findingPartitions (n_audit n) tableID) n in
              (r, bool_decide (fsm = None), n)
          end
      end
  end.

Fixpoint reaudit_tables (tables served : list string) (fsmDown : bool) (budget : nat) (n : node) : node :=
  match tables, budget with
  | [], _ | _, O => n
  | t :: tables, S budget =>
      if bool_decide (t ∈ served)
      then let '(_, down, n) := reauditTable t fsmDown n in reaudit_tables tables served down budget n
      else reaudit_tables tables served fsmDown budget (set_audit (audit_forgetTable t (n_audit n)) n)
  end.

Definition reauditFindings (served : list string) (budget : nat) (n : node) : node :=
  reaudit_tables (findingTables (n_audit n)) served false budget n.

Definition OwnerAuditClean (n : node) (tableID : string) : bool :=
  if repair then negb (blocks (n_audit n) tableID) else true.

(** ** Publishing *)
Definition promotionIntentFor (cmd : PromoteSafePartition) (post : string) (safeBefore : list Part)
    : promotionIntent :=
  mkIntent (ps_PromotionSeq cmd) (ps_BasePartitionRoot cmd) post (ps_BaseSafeSnapshotID cmd)
    (candidateHashes cmd) (pr_PartName <$> ps_CandidateParts cmd)
    ((fun p => mkSafePart (p_Name p) (p_PartitionID p) (p_PartitionValue p) (p_PhysHash p)) <$> safeBefore).

Definition promotionIntentMatchesCommand (intent : promotionIntent) (cmd : PromoteSafePartition) (post : string)
    : bool :=
  bool_decide (pi_PromotionSeq intent = ps_PromotionSeq cmd) &&
  bool_decide (pi_BasePartitionRoot intent = ps_BasePartitionRoot cmd) &&
  bool_decide (pi_PostPartitionRoot intent = post) &&
  bool_decide (pi_BaseSafeSnapshotID intent = ps_BaseSafeSnapshotID cmd) &&
  bool_decide (pi_CandidatePartHashes intent = candidateHashes cmd) &&
  bool_decide (pi_UnsafePartNames intent = pr_PartName <$> ps_CandidateParts cmd).

(** safeMappings' scan loop: the inventory, its sum, and what was not scanned. *)
Fixpoint mapping_loop (info : gmap string Part) (byHash : gmap string SafePartMapping) (sum : lthash)
    (scans : list Scan)
    : result perr (list SafePartMapping * gmap string SafePartMapping * lthash * gmap string Part) :=
  match scans with
  | [] => Ok ([], byHash, sum, info)
  | s :: scans =>
      match info !! sc_PartName s with
      | None => Err ESafeScan
      | Some p =>
          if bool_decide (p_PhysHash p = EmptyString) then Err ESafeScan else
          match parseAccumulatorHex (sc_RowLtHash s) with
          | None => Err ESafeScan
          | Some h =>
              if bool_decide (sc_RowLtHash s = EmptyString) then Err ESafeScan else
              let key := accumulatorHex h in
              if bool_decide (is_Some (byHash !! key)) then Err ESafeScan else
              let mapping := mkMapping key (sc_PartName s) (p_PhysHash p) in
              let* r := mapping_loop (delete (sc_PartName s) info) (<[key := mapping]> byHash)
                          (lt_add sum h) scans in
              let '(out, byHash, sum, info) := r in Ok (mapping :: out, byHash, sum, info)
          end
      end
  end.

Fixpoint candidate_mappings (byHash : gmap string SafePartMapping) (seen : gset string) (cps : list PartRef)
    : result perr (list SafePartMapping) :=
  match cps with
  | [] => Ok []
  | cp :: cps =>
      let* key := of_option ECandidateHash (canon_hash (pr_PartRowLtHash cp)) in
      if bool_decide (key ∈ seen) then Err EDuplicateCandidate else
      let* mapping := of_option EMissingCandidate (byHash !! key) in
      let* out := candidate_mappings byHash ({[key]} ∪ seen) cps in
      Ok (mkMapping (pr_PartRowLtHash cp) (sm_SafePartName mapping) (sm_PartPhysHash mapping) :: out)
  end.

Definition safeMappings (table : string) (sch : TableSchema) (cmd : PromoteSafePartition) (post : string)
    : M safePartMappings :=
  parts ← activeParts SafeDB table;
  let after := PartsInLogicalPartition parts sch (ps_PartitionID cmd) in
  let info : gmap string Part := list_to_map (reverse ((fun p => (p_Name p, p)) <$> after)) in
  scans ← ch ESafeScan (ch_scan SafeDB table sch (p_Name <$> after));
  r ← lift (mapping_loop info ∅ lt_new scans);
  let '(out, byHash, sum, rest) := r in
  _ ← guard_ (bool_decide (size rest = 0)) ESafeScan;
  _ ← guard_ (bool_decide (parseAccumulatorHex post = Some sum)) ESafeScan;
  cands ← lift (candidate_mappings byHash ∅ (ps_CandidateParts cmd));
  mret (mkMappings cands out).

Definition buildAndReplace (cmd : PromoteSafePartition) : M (string * safePartMappings) :=
  let pid := ps_PartitionID cmd in
  let table := CHTableName (ps_TableID cmd) in
  let k := mkPartitionKey (ps_TableID cmd) pid in
  _ ← guard_ conn EConn;
  sch ← opt ESchema (schemaFor (ps_TableID cmd));
  partition ← opt EPartition (QuotePartition sch pid);
  _ ← lift (refuseDuplicateCandidates cmd);
  _ ← auditBeforeShadow cmd sch table;
  _ ← prepareShadow cmd sch table partition;
  safeBefore ← activeParts SafeDB table;
  _ ← attachCandidateParts cmd sch table partition;
  post ← opt EHexRoot (lthashCombineHexAll (ps_BasePartitionRoot cmd) (candidateHashes cmd));
  shadow ← partitionContentScan PromoteDB table sch pid;
  if bool_decide (shadow.1 ≠ post)
  then _ ← best_effort (dropPartitionIfPresent PromoteDB table sch pid); fail EShadowClosure else
  if duplicateShadowPartHash shadow.2
  then _ ← best_effort (dropPartitionIfPresent PromoteDB table sch pid); fail EDuplicateShadow else
  let intent := promotionIntentFor cmd post (PartsInLogicalPartition safeBefore sch pid) in
  _ ← journal (BeginPromotion k intent);
  _ ← alter (ReplacePartition table partition);
  _ ← dropPartitionIfPresent PromoteDB table sch pid;
  mappings ← safeMappings table sch cmd post;
  mret (post, mappings).

(** [Some (post, mappings)]: the REPLACE is visible; [None]: it never ran. *)
Definition reconcilePromotionIntent (cmd : PromoteSafePartition) (intent : promotionIntent)
    : M (option (string * safePartMappings)) :=
  let pid := ps_PartitionID cmd in
  let table := CHTableName (ps_TableID cmd) in
  post ← opt EHexRoot (lthashCombineHexAll (ps_BasePartitionRoot cmd) (candidateHashes cmd));
  _ ← guard_ (promotionIntentMatchesCommand intent cmd post) EIntentMismatch;
  sch ← opt ESchema (schemaFor (ps_TableID cmd));
  _ ← opt EPartition (QuotePartition sch pid);
  currentRoot ← partitionContentRoot SafeDB table sch pid;
  baseRoot ← opt EHexRoot (lthashCombineHexAll (ps_BasePartitionRoot cmd) []);
  if bool_decide (currentRoot = baseRoot) then mret None else
  _ ← guard_ (bool_decide (currentRoot = post)) EUnexpectedRoot;
  _ ← dropPartitionIfPresent PromoteDB table sch pid;
  mappings ← safeMappings table sch cmd post;
  mret (Some (post, mappings)).

(** ** Acknowledging *)
Definition applied_ack (cmd : PromoteSafePartition) (post : string) (mappings : safePartMappings) : PromotionAck :=
  mkPromotionAck NodeID (ps_PromotionSeq cmd) (ps_TableID cmd) (ps_PartitionID cmd) post
    (mp_Candidates mappings) (mp_Partition mappings) true "".

Definition refused_ack (cmd : PromoteSafePartition) (detail : string) : PromotionAck :=
  mkPromotionAck NodeID (ps_PromotionSeq cmd) (ps_TableID cmd) (ps_PartitionID cmd) "" [] [] false detail.

Definition finishAppliedPromotion (k : partitionKey) (cmd : PromoteSafePartition) (post : string)
    (mappings : safePartMappings) : M unit :=
  let ack := applied_ack cmd post mappings in
  _ ← journal (RecordAppliedPromotion k (ps_PromotionSeq cmd) ack post (ps_BaseSafeSnapshotID cmd)
                 (candidateHashes cmd) (pr_PartName <$> ps_CandidateParts cmd));
  _ ← audit_do (clear k);
  sendAck ack.

(** The acknowledged hashes, canonical and distinct. *)
Fixpoint ack_hashes (seen : gset string) (parts : list SafePartMapping) : option (gset string) :=
  match parts with
  | [] => Some seen
  | p :: parts =>
      key ← canon_hash (sm_PartRowLtHash p);
      if bool_decide (key ∈ seen) then None else ack_hashes ({[key]} ∪ seen) parts
  end.

Fixpoint consume_hashes (seen : gset string) (cps : list PartRef) : bool :=
  match cps with
  | [] => true
  | cp :: cps =>
      match canon_hash (pr_PartRowLtHash cp) with
      | None => false
      | Some key => if bool_decide (key ∈ seen) then consume_hashes (seen ∖ {[key]}) cps else false
      end
  end.

Definition legacyAckMatchesCommand (ack : PromotionAck) (cmd : PromoteSafePartition) : bool :=
  bool_decide (pa_TableID ack = ps_TableID cmd) && bool_decide (pa_PartitionID ack = ps_PartitionID cmd) &&
  bool_decide (pa_PromotionSeq ack = ps_PromotionSeq cmd) &&
  bool_decide (length (pa_Parts ack) = length (ps_CandidateParts cmd)) &&
  match ack_hashes ∅ (pa_Parts ack) with
  | None => false
  | Some hashes => consume_hashes hashes (ps_CandidateParts cmd)
  end &&
  bool_decide (lthashCombineHexAll (ps_BasePartitionRoot cmd) (candidateHashes cmd)
               = Some (pa_PostPartitionCommitment ack)).

Definition with_inventory (ack : PromotionAck) (mappings : safePartMappings) : PromotionAck :=
  mkPromotionAck (pa_NodeID ack) (pa_PromotionSeq ack) (pa_TableID ack) (pa_PartitionID ack)
    (pa_PostPartitionCommitment ack) (mp_Candidates mappings) (mp_Partition mappings)
    (pa_Applied ack) (pa_Detail ack).

Definition resendStoredAck (k : partitionKey) (cmd : PromoteSafePartition) (ack : PromotionAck) : M unit :=
  if pa_Applied ack && bool_decide (length (pa_SafePartitionParts ack) = 0) then
    _ ← guard_ (legacyAckMatchesCommand ack cmd) ELegacyAck;
    sch ← opt ESchema (schemaFor (ps_TableID cmd));
    mappings ← safeMappings (CHTableName (ps_TableID cmd)) sch cmd (pa_PostPartitionCommitment ack);
    let ack := with_inventory ack mappings in
    _ ← journal (RecordRefreshedAck k ack);
    sendAck ack
  else sendAck ack.

(** ** Settle *)
Definition dropSettledShadow (cmd : PromoteSafePartition) : M unit :=
  if negb conn then mret () else
  sch ← opt ESchema (schemaFor (ps_TableID cmd));
  _ ← opt EPartition (QuotePartition sch (ps_PartitionID cmd));
  dropPartitionIfPresent PromoteDB (CHTableName (ps_TableID cmd)) sch (ps_PartitionID cmd).

Definition settle_detail (seq : N) : string :=
  "settle: promotion " +:+ pretty seq +:+ " was not applied on this SNode".

Definition settleNotApplied (k : partitionKey) (cmd : PromoteSafePartition) : M unit :=
  s ← ledger;
  let '(baseRoot, baseSnapshotID) := BaseRoot s k in
  let ack := refused_ack cmd (settle_detail (ps_PromotionSeq cmd)) in
  _ ← journal (RecordSettledNotApplied k (ps_PromotionSeq cmd) ack baseRoot baseSnapshotID);
  _ ← best_effort (dropSettledShadow cmd);
  _ ← sendAck ack;
  countSettle SettleNotApplied.

Definition answerSettle (k : partitionKey) (cmd : PromoteSafePartition) : M unit :=
  s ← ledger;
  if bool_decide (ps_PromotionSeq cmd ≤ Watermark s k)%N then
    match LastAck s k with
    | Some ack =>
        if bool_decide (pa_PromotionSeq ack = ps_PromotionSeq cmd)
        then _ ← resendStoredAck k cmd ack; countSettle SettleJournaled
        else countSettle SettleUnanswerable
    | None => countSettle SettleUnanswerable
    end
  else
    match PendingPromotion s k with
    | Some intent =>
        r ← reconcilePromotionIntent cmd intent;
        match r with
        | Some (post, mappings) => _ ← finishAppliedPromotion k cmd post mappings; countSettle SettleReconciled
        | None => settleNotApplied k cmd
        end
    | None => settleNotApplied k cmd
    end.

(** ** The command handlers *)

(** Everything past the reconciliation of a pending intent. *)
Definition apply_promotion (k : partitionKey) (cmd : PromoteSafePartition) : M unit :=
  s ← ledger;
  let '(baseRoot, baseSnapshotID) := BaseRoot s k in
  if bool_decide (ps_BasePartitionRoot cmd ≠ baseRoot) then
    let ack := refused_ack cmd ("base CAS mismatch: local " +:+ baseRoot +:+ ", command " +:+ ps_BasePartitionRoot cmd) in
    _ ← journal (RecordAck k (ps_PromotionSeq cmd) ack baseRoot baseSnapshotID);
    sendAck ack
  else
    r ← buildAndReplace cmd;
    let '(post, mappings) := r in
    finishAppliedPromotion k cmd post mappings.

Definition handlePromote (cmd : PromoteSafePartition) (jws : string) (settle : bool) : M unit :=
  if negb (authorized cmd jws) then fail EAuthority else
  if negb (owned (ps_TableID cmd)) then mret () else
  let k := mkPartitionKey (ps_TableID cmd) (ps_PartitionID cmd) in
  if settle then answerSettle k cmd else
  s ← ledger;
  if bool_decide (ps_PromotionSeq cmd ≤ Watermark s k)%N then
    match LastAck s k with
    | Some ack =>
        if bool_decide (pa_PromotionSeq ack = ps_PromotionSeq cmd) then resendStoredAck k cmd ack else mret ()
    | None => mret ()
    end
  else
    match PendingPromotion s k with
    | Some intent =>
        r ← reconcilePromotionIntent cmd intent;
        match r with
        | Some (post, mappings) => finishAppliedPromotion k cmd post mappings
        | None => apply_promotion k cmd
        end
    | None => apply_promotion k cmd
    end.

(** ** Cleanup *)
Definition isMissingPartErr (e : ch_error) : bool := bool_decide (e = NoSuchDataPart).
Definition isCleanupGoneErr (e : ch_error) : bool := isMissingPartErr e || bool_decide (e = UnknownTable).

Fixpoint drop_unsafe (table : string) (parts : list PartRef) : M unit :=
  match parts with
  | [] => mret ()
  | p :: parts =>
      _ ← guard_ (bool_decide (pr_PartName p ≠ EmptyString)) EEmptyPartName;
      r ← exec_stmt (DropPart UnsafeDB table (pr_PartName p));
      _ ← guard_ (match r with None => true | Some e => isCleanupGoneErr e end) EClickHouse;
      drop_unsafe table parts
  end.

Definition cleanup_ack (cmd : UnsafeCleanup) : CleanupAck :=
  mkCleanupAck NodeID (uc_PromotionSeq cmd) (uc_TableID cmd) (uc_PartitionID cmd) (uc_RejectedBlockSeq cmd).

Definition confirmCleanupAck (ack : CleanupAck) : M unit :=
  _ ← sendCleanupAck ack; journal (ClearOwedCleanupAck ack).

Definition handleCleanup (cmd : UnsafeCleanup) (jws : string) : M unit :=
  if negb (cleanup_authorized cmd jws) then fail EAuthority else
  if negb (owned (uc_TableID cmd)) then mret () else
  s ← ledger;
  _ ← lift (if bool_decide (uc_RejectedBlockSeq cmd ≠ 0%N)
            then rwrap EStore (checkRejectedParts s (mkPartitionKey (uc_TableID cmd) (uc_PartitionID cmd))
                                 (uc_PromotionSeq cmd) (uc_Parts cmd))
            else Ok ());
  _ ← drop_unsafe (CHTableName (uc_TableID cmd)) (uc_Parts cmd);
  let ack := cleanup_ack cmd in
  _ ← journal (RecordExecutedCleanup cmd ack);
  confirmCleanupAck ack.

(** One pass of the background re-send; [budget] is how many of the owed
    acknowledgements it reaches before its time is up. *)
Fixpoint resend_loop (owed : list CleanupAck) (budget : nat) (n : node) : node :=
  match owed, budget with
  | ack :: owed, S budget => resend_loop owed budget (confirmCleanupAck ack n).2
  | _, _ => n
  end.

Definition resendOwedCleanupAcks (budget : nat) (n : node) : node :=
  resend_loop (OwedCleanupAcks_of (c_mem (n_store n))) budget n.

End promote.
End Promote.
