(* ===== verification/ShadowMatch.v ===== *)
(** * Which attached parts a promotion keeps (snode/promote_candidates.go)

    After ATTACH PARTITION the shadow holds every part of the unsafe partition;
    [matchShadowCandidates] decides which of them are the command's candidates,
    by row hash. *)
From S2P Require Import Prelude LtHash Types Gate StateStore ClickHouse OwnerAudit Promote.
Import Promote.

Section matching.
Context `{LtHash}.

(** The key a part of the shadow is matched by. *)
Definition shadow_key (p : shadowPart) : string := key_of (sh_RowLtHash p).
Definition candidate_key (cp : PartRef) : string := key_of (pr_PartRowLtHash cp).

Definition hashed (p : shadowPart) : Prop := sh_RowLtHash p ≠ EmptyString.
#[local] Instance hashed_dec p : Decision (hashed p).
Proof. unfold hashed. apply _. Defined.

Lemma candidate_keys_ok cmd ks :
  candidate_keys cmd = Ok ks →
  ks = candidate_key <$> ps_CandidateParts cmd ∧
  Forall (λ cp, is_Some (parseAccumulatorHex (pr_PartRowLtHash cp)) ∧ pr_PartRowLtHash cp ≠ EmptyString)
    (ps_CandidateParts cmd).
Proof.
  unfold candidate_keys. revert ks. induction (ps_CandidateParts cmd) as [|cp cps IH]; intros ks Hk; simpl in Hk.
  { by simplify_eq. }
  apply rbind_ok in Hk as (k & Hk1 & Hk). apply rbind_ok in Hk as (ks' & Hk2 & Hk). simplify_eq.
  apply of_option_ok in Hk1. unfold canon_hash in Hk1. case_bool_decide; [done|].
  destruct (IH _ Hk2) as [-> Hall].
  destruct (parseAccumulatorHex (pr_PartRowLtHash cp)) as [h|] eqn:Hp; simplify_eq/=.
  split; [|constructor; [split; [by eexists|done]|done]].
  f_equal. unfold candidate_key, key_of. by rewrite Hp.
Qed.

Lemma match_loop_pick want l keep drop want' :
  match_loop want l = Ok (keep, drop, want') →
  Forall (λ p, hashed p → is_Some (parseAccumulatorHex (sh_RowLtHash p))) l ∧
  ∃ k d rest, pick shadow_key want (filter hashed l) = (k, d, want') ∧
    keep = sh_Name <$> k ∧ drop = sh_Name <$> rest ∧ k ++ rest ≡ₚ l.
Proof.
  revert want keep. revert drop want'. induction l as [|p l IH]; intros drop want' want keep Hm; cbn [match_loop] in Hm.
  { simplify_eq. split; [done|]. by exists [], [], []. }
  case_bool_decide as He; [|apply rbind_ok in Hm as (h & Hh & Hm); apply of_option_ok in Hh; cbv zeta in Hm].
  - apply rbind_ok in Hm as ([[keep0 drop0] w0] & Hm & Heq). simplify_eq.
    destruct (IH _ _ _ _ Hm) as (Hall & k & d & rest & Hp & -> & -> & Hperm).
    split; [constructor; [by intros ?|done]|]. rewrite filter_cons, decide_False by (intros Hh; by apply Hh).
    exists k, d, (p :: rest). split_and!; [done..|]. by rewrite <- Permutation_middle, Hperm.
  - assert (shadow_key p = accumulatorHex h) as Hkey by (unfold shadow_key, key_of; by rewrite Hh).
    rewrite filter_cons, decide_True by done. cbn [pick]. rewrite Hkey.
    case_bool_decide as Hpos; apply rbind_ok in Hm as ([[keep0 drop0] w0] & Hm & Heq); simplify_eq;
      destruct (IH _ _ _ _ Hm) as (Hall & k & d & rest & -> & -> & -> & Hperm);
      (split; [constructor; [by eexists|done]|]).
    + exists (p :: k), d, rest. split_and!; [done..|]. simpl. by rewrite Hperm.
    + exists k, (p :: d), (p :: rest). split_and!; [done..|]. by rewrite <- Permutation_middle, Hperm.
Qed.

Abbreviation keys l := (list_to_set_disj l : gmultiset string).

Lemma match_loop_spec ks shadow keep drop want' :
  match_loop (counts ks) (merge_sort name_le shadow) = Ok (keep, drop, want') →
  ∃ kept dropped, keep = sh_Name <$> kept ∧ drop = sh_Name <$> dropped ∧ kept ++ dropped ≡ₚ shadow ∧
    Forall hashed kept ∧
    keys (shadow_key <$> kept) = keys ks ∩ keys (shadow_key <$> filter hashed shadow) ∧
    reps want' (keys ks ∖ keys (shadow_key <$> filter hashed shadow)).
Proof.
  intros Hm. apply match_loop_pick in Hm as (_ & k & d & rest & Hp & -> & -> & Hperm).
  destruct (pick_spec _ _ _ _ _ _ _ (counts_reps ks) Hp) as (Hk & Hkd & Hr).
  rewrite merge_sort_Permutation in Hperm, Hkd, Hk, Hr. exists k, rest. split_and!; try done.
  apply Forall_forall. intros x Hx.
  assert (x ∈ filter hashed shadow) as Hin by (rewrite <- Hkd, elem_of_app; by left).
  by apply list_elem_of_filter in Hin as [? _].
Qed.

(** Nothing is reported missing exactly when the shadow covers the candidates. *)
Lemma missing_iff cps (X Y : gmultiset string) w missing d m :
  X = keys (candidate_key <$> cps) → reps w (X ∖ Y) → pick candidate_key w cps = (missing, d, m) →
  length missing = 0 ↔ X ⊆ Y.
Proof.
  intros HX HY Hp. destruct (pick_spec _ _ _ _ _ _ _ HY Hp) as (Hk & _ & _). rewrite <- HX in Hk. split.
  - intros Hl. apply nil_length_inv in Hl as ->. rewrite fmap_nil, list_to_set_disj_nil in Hk. multiset_solver.
  - intros Hsub. destruct missing as [|x l]; [done|]. exfalso. rewrite fmap_cons, list_to_set_disj_cons in Hk.
    multiset_solver.
Qed.

Lemma match_loop_not_missing want l : match_loop want l ≠ Err EMissingCandidate.
Proof.
  revert want. induction l as [|p l IH]; intros w Hl; cbn [match_loop] in Hl; [done|]. case_bool_decide.
  - destruct (match_loop w l) as [[[? ?] ?]|] eqn:He; simplify_eq/=. by apply (IH w).
  - destruct (parseAccumulatorHex _); simpl in Hl; [|done]. case_bool_decide;
      (destruct (match_loop _ l) as [[[? ?] ?]|] eqn:He; simplify_eq/=; by eapply IH).
Qed.

(** C31: The candidates are matched exactly. When [matchShadowCandidates]
    succeeds, every part of the shadow is either kept or dropped, and the row
    hashes of the kept parts are, as a multiset of canonical spellings, exactly
    those of the command's candidates; and a refusal for a missing candidate
    means that the shadow's scanned hashes do not contain the candidates'. *)
Theorem match_candidates_exact cmd shadow :
  (∀ keep drop, matchShadowCandidates cmd shadow = Ok (keep, drop) →
     ∃ kept dropped, keep = sh_Name <$> kept ∧ drop = sh_Name <$> dropped ∧ kept ++ dropped ≡ₚ shadow ∧
       Forall hashed kept ∧ shadow_key <$> kept ≡ₚ candidate_key <$> ps_CandidateParts cmd) ∧
  (∀ ks, candidate_keys cmd = Ok ks → matchShadowCandidates cmd shadow = Err EMissingCandidate →
     ¬ ∃ rest, shadow_key <$> filter hashed shadow ≡ₚ ks ++ rest).
Proof.
  unfold matchShadowCandidates, candidateMultiset. split.
  - intros keep drop Hm. apply rbind_ok in Hm as (want & Hw & Hm). apply rbind_ok in Hw as (ks & Hks & Hw).
    simplify_eq. apply rbind_ok in Hm as ([[keep0 drop0] w0] & Hl & Hm).
    destruct (match_loop_spec _ _ _ _ _ Hl) as (kept & dropped & -> & -> & Hperm & Hall & Hk & Hr).
    destruct (candidate_keys_ok _ _ Hks) as [-> _].
    destruct (pick _ w0 _) as [[missing d] m] eqn:Hp. case_bool_decide as Hlen; [done|]. simplify_eq.
    rewrite (missing_iff _ _ _ _ _ _ _ eq_refl Hr Hp) in Hlen.
    exists kept, dropped. split_and!; try done. apply ms_perm. rewrite Hk. multiset_solver.
  - intros ks Hks Herr [rest Hrest]. rewrite Hks in Herr. simpl in Herr.
    destruct (match_loop _ _) as [[[keep drop] w0]|e] eqn:Hl; simpl in Herr;
      [|simplify_eq; by eapply match_loop_not_missing].
    destruct (match_loop_spec _ _ _ _ _ Hl) as (kept & dropped & -> & -> & Hperm & Hall & Hk & Hr).
    destruct (candidate_keys_ok _ _ Hks) as [-> _].
    destruct (pick _ w0 _) as [[missing d] m] eqn:Hp. case_bool_decide as Hlen; [|done].
    apply Hlen, (missing_iff _ _ _ _ _ _ _ eq_refl Hr Hp). rewrite Hrest, list_to_set_disj_app. multiset_solver.
Qed.
End matching.
