(* ===== verification/PromoteProofs.v ===== *)
(** * hg_safe never holds anything but a journaled root

    The safety of promotion over arbitrary sequences of promotion, settle and
    cleanup commands, redeliveries, failures at every statement and ledger
    write, crashes and restarts: the rows of a partition of hg_safe always sum
    to the base root the ledger records, or, while an intent is unresolved, to
    that intent's base or post root. Against the [ClickHouseLaws] interface. *)
From S2P Require Import Prelude LtHash Types Gate StateStore StateStoreProofs ClickHouse OwnerAudit Promote.
Import StateStore OwnerAudit Promote.

(** The partition under consideration: its table, partition id and schema, and
    the naming of physical tables. *)
Class Target `{ClickHouse} := {
  CHTableName : string → string; T : string; pid : string; sch : TableSchema }.

(** The roots a history may bring into the partition; the proofs thread it, so
    that one argument shows both that the ledger always explains the root and
    which roots a single command can publish. *)
Class Allowed `{LtHash} := allowed : lthash → Prop.

Section proofs.
Context `{CH : ClickHouse, RS : RowSum}.
Context `{!LtHashLaws, !RowSumLaws, CL : !ClickHouseLaws, TG : !Target, AL : !Allowed}.

Definition kp : partitionKey := mkPartitionKey T pid.

(** The row content of the partition in hg_safe. *)
Definition root (w : chs) : lthash := lt_sum (content w SafeDB (CHTableName T) sch pid).

(** What the ledger says the partition may hold. *)
Definition consistent (r : lthash) (s : localState) : Prop :=
  match PendingPromotion s kp with
  | None => parseAccumulatorHex (BaseRoot s kp).1 = Some r
  | Some i => pi_BasePartitionRoot i = (BaseRoot s kp).1 ∧
      ∃ b p, parseAccumulatorHex (pi_BasePartitionRoot i) = Some b ∧
             parseAccumulatorHex (pi_PostPartitionRoot i) = Some p ∧ (r = b ∨ r = p)
  end.

(** Ledger writes fail before the rename, or not at all. *)
Definition write_safe (w : write_env) : Prop := w_opendir w = true ∧ w_dirsync w = true.

(** What an acknowledgement commits the SNode to. *)
Definition verdict (ack : PromotionAck) : bool * string := (pa_Applied ack, pa_PostPartitionCommitment ack).

Definition about (ack : PromotionAck) : Prop := pa_TableID ack = T ∧ pa_PartitionID ack = pid.

(** The acknowledgements sent for the partition never contradict each other,
    are covered by the watermark, and the newest is the one the ledger keeps;
    an applied one has the ledger's base root as its commitment. *)
Definition spoken (sent : list PromotionAck) (s : localState) : Prop :=
  (∀ l, LastAck s kp = Some l → pa_PromotionSeq l = Watermark s kp ∧ about l ∧
     (pa_Applied l = true → (BaseRoot s kp).1 = pa_PostPartitionCommitment l)) ∧
  (∀ a, a ∈ sent → about a → (pa_PromotionSeq a ≤ Watermark s kp)%N ∧
     (pa_PromotionSeq a = Watermark s kp → ∃ l, LastAck s kp = Some l ∧ verdict l = verdict a)) ∧
  (∀ a b, a ∈ sent → b ∈ sent → about a → about b → pa_PromotionSeq a = pa_PromotionSeq b →
     verdict a = verdict b).

Definition inv (n : node) : Prop :=
  Forall write_safe (n_writes n) ∧ synced (n_store n) ∧ spoken (n_sent n) (c_mem (n_store n)) ∧
  allowed (root (n_ch n)) ∧ consistent (root (n_ch n)) (c_mem (n_store n)).

(** ** Computations that leave hg_safe and the ledger alone *)
Definition quiet (n n' : node) : Prop :=
  root (n_ch n') = root (n_ch n) ∧ n_store n' = n_store n ∧ n_writes n' = n_writes n ∧ n_sent n' = n_sent n.

Definition Quiet {A} (m : M A) : Prop := ∀ n r n', m n = (r, n') → quiet n n'.

#[global] Instance quiet_preorder : PreOrder quiet.
Proof. split; [by intros n|]. intros a b c (?&?&?&?) (?&?&?&?). unfold quiet. split_and!; congruence. Qed.

Lemma quiet_inv n n' : quiet n n' → inv n → inv n'.
Proof. intros (Hr & Hs & Hw & Hsn) (? & ? & ? & ? & ?). unfold inv. by rewrite Hr, Hs, Hw, Hsn. Qed.

Lemma Quiet_ret {A} (a : A) : Quiet (mret a).
Proof. by intros n r n' [= <- <-]. Qed.
Lemma Quiet_fail {A} e : Quiet (fail (A:=A) e).
Proof. by intros n r n' [= <- <-]. Qed.
Lemma Quiet_lift {A} (x : result perr A) : Quiet (lift x).
Proof. by intros n r n' [= <- <-]. Qed.
Lemma Quiet_opt {A} e (o : option A) : Quiet (opt e o).
Proof. apply Quiet_lift. Qed.
Lemma Quiet_guard b e : Quiet (guard_ b e).
Proof. by intros n r n' [= <- <-]. Qed.
Lemma Quiet_ledger : Quiet ledger.
Proof. by intros n r n' [= <- <-]. Qed.
Lemma Quiet_audit : Quiet audit.
Proof. by intros n r n' [= <- <-]. Qed.
Lemma Quiet_audit_do f : Quiet (audit_do f).
Proof. by intros n r n' [= <- <-]. Qed.
Lemma Quiet_fsm : Quiet ownerAuditFSM.
Proof. by intros n r n' [= <- <-]. Qed.
Lemma Quiet_csend a : Quiet (sendCleanupAck a).
Proof. by intros n r n' [= <- <-]. Qed.
Lemma Quiet_settle o : Quiet (countSettle o).
Proof. by intros n r n' [= <- <-]. Qed.

Lemma Quiet_bind {A B} (m : M A) (f : A → M B) : Quiet m → (∀ a, Quiet (f a)) → Quiet (m ≫= f).
Proof.
  intros Hm Hf n r n' Hb. unfold mbind, M_bind in Hb. destruct (m n) as [[a|e] n1] eqn:Hm1.
  - etrans; [by eapply Hm|by eapply Hf].
  - simplify_eq. by eapply Hm.
Qed.
Lemma Quiet_catch {A B} (m : M A) (f : result perr A → M B) : Quiet m → (∀ a, Quiet (f a)) → Quiet (catch m f).
Proof.
  intros Hm Hf n r n' Hb. unfold catch in Hb. destruct (m n) as [x n1] eqn:Hm1.
  etrans; [by eapply Hm|by eapply Hf].
Qed.
Lemma Quiet_or_cleanup {A} (m : M A) h : Quiet m → Quiet h → Quiet (or_cleanup m h).
Proof.
  intros Hm Hh n r n' Hb. unfold or_cleanup in Hb. destruct (m n) as [[a|e] n1] eqn:Hm1; simplify_eq.
  - by eapply Hm.
  - destruct (h n1) as [x n2] eqn:Hm2. etrans; [by eapply Hm|by eapply Hh].
Qed.
Lemma Quiet_best_effort m : Quiet m → Quiet (best_effort m).
Proof.
  intros Hm n r n' Hb. unfold best_effort in Hb. destruct (m n) as [x n1] eqn:Hm1. simplify_eq/=. by eapply Hm.
Qed.
Lemma Quiet_if {A} (b : bool) (m1 m2 : M A) : Quiet m1 → Quiet m2 → Quiet (if b then m1 else m2).
Proof. by destruct b. Qed.

(** ** Running computations *)
Lemma bind_inv {A B} (m : M A) (f : A → M B) n r n' :
  (m ≫= f) n = (r, n') →
  (∃ a n1, m n = (Ok a, n1) ∧ f a n1 = (r, n')) ∨ (∃ e, m n = (Err e, n') ∧ r = Err e).
Proof.
  unfold mbind, M_bind. destruct (m n) as [[a|e] n1]; intros Hb; [left|right]; simplify_eq; eauto.
Qed.

(** A computation from a node with [P] keeps the invariant, whatever fails,
    and gives [Q] when it succeeds. *)
Definition triple {A} (P : node → Prop) (m : M A) (Q : A → node → Prop) : Prop :=
  ∀ n r n', P n → m n = (r, n') → inv n' ∧ ∀ a, r = Ok a → Q a n'.

Lemma triple_bind {A B} P (m : M A) Q (f : A → M B) R :
  triple P m Q → (∀ a, triple (Q a) (f a) R) → triple P (m ≫= f) R.
Proof.
  intros Hm Hf n r n' HP Hb. destruct (bind_inv _ _ _ _ _ Hb) as [(a & n1 & Hm1 & Hf1)|(e & Hm1 & ->)].
  - destruct (Hm _ _ _ HP Hm1) as [_ HQ]. eapply Hf; [by apply HQ|done].
  - split; [|done]. by eapply Hm.
Qed.

Lemma triple_ret {A} (P : node → Prop) (a : A) (Q : A → node → Prop) :
  (∀ n, P n → inv n ∧ Q a n) → triple P (mret a) Q.
Proof. intros HQ n r n' HP [= <- <-]. destruct (HQ n HP). split; [done|]. by intros ? [= <-]. Qed.

Lemma triple_fail {A} (P : node → Prop) e (Q : A → node → Prop) :
  (∀ n, P n → inv n) → triple P (fail e) Q.
Proof. intros HQ n r n' HP [= <- <-]. by split; [apply HQ|]. Qed.

(** Pure steps: their success is a fact for the rest. *)
Lemma triple_lift {A B} (P : node → Prop) (x : result perr A) (f : A → M B) R :
  (∀ n, P n → inv n) → (∀ a, x = Ok a → triple P (f a) R) → triple P (lift x ≫= f) R.
Proof.
  intros HP Hf n r n' Hn Hb. destruct (bind_inv _ _ _ _ _ Hb) as [(a & n1 & Hm1 & Hf1)|(e & Hm1 & ->)];
    injection Hm1 as Hm1 <-; [|by split; [apply HP|]]. by eapply Hf.
Qed.

Lemma triple_opt {A B} (P : node → Prop) e (x : option A) (f : A → M B) R :
  (∀ n, P n → inv n) → (∀ a, x = Some a → triple P (f a) R) → triple P (opt e x ≫= f) R.
Proof. intros HP Hf. apply triple_lift; [done|]. intros a Ha. apply Hf. by apply of_option_ok in Ha. Qed.

Lemma triple_guard {B} (P : node → Prop) b e (f : unit → M B) R :
  (∀ n, P n → inv n) → (b = true → triple P (f ()) R) → triple P (guard_ b e ≫= f) R.
Proof. intros HP Hf. apply triple_lift; [done|]. intros [] Ha. apply Hf. by destruct b. Qed.

Lemma triple_weaken {A} (P P' : node → Prop) (m : M A) (Q Q' : A → node → Prop) :
  (∀ n, P n → P' n) → (∀ a n, Q' a n → Q a n) → triple P' m Q' → triple P m Q.
Proof.
  intros HP HQ Hm n r n' Hn Hr. destruct (Hm n r n' (HP _ Hn) Hr) as [? Hq]. split; [done|].
  intros a Ha. by apply HQ, Hq.
Qed.

(** Facts about the root and the ledger, which quiet computations keep. *)
Definition at_root (F : lthash → cell localState → Prop) (n : node) : Prop :=
  inv n ∧ F (root (n_ch n)) (n_store n).

Lemma triple_quiet {A} F (m : M A) : Quiet m → triple (at_root F) m (λ _, at_root F).
Proof.
  intros Hm n r n' [Hi HF] Hr. pose proof (Hm _ _ _ Hr) as Hq. pose proof (quiet_inv _ _ Hq Hi) as Hi'.
  split; [done|]. intros a _. split; [done|]. destruct Hq as (Hr' & Hs & _). by rewrite Hr', Hs.
Qed.

(** ** Ledger writes *)
Lemma persist_safe w (c : cell localState) next ok c' :
  write_safe w → persist w c next = (ok, c') →
  (ok = true ∧ c' = Cell next (File next next)) ∨ (ok = false ∧ c' = c).
Proof.
  intros [Ho Hd]. destruct c as [m f]. unfold persist, atomic_replace. rewrite Ho, Hd. intros Hp.
  repeat case_match; simplify_eq/=; auto.
Qed.

Lemma journal_safe {A} (t : txn A) n r n' :
  Forall write_safe (n_writes n) → synced (n_store n) → journal t n = (r, n') →
  (n_ch n' = n_ch n ∧ n_sent n' = n_sent n) ∧ Forall write_safe (n_writes n') ∧ synced (n_store n') ∧
  ((∃ a next, r = Ok a ∧ t (c_mem (n_store n)) = Ok (a, Some next) ∧ c_mem (n_store n') = next) ∨
   (n_store n' = n_store n ∧ ∀ a, r = Ok a → t (c_mem (n_store n)) = Ok (a, None))).
Proof.
  intros Hw Hs. unfold journal, StateStore.run.
  assert (write_safe (default write_ok (head (n_writes n)))) as Hsafe.
  { destruct (n_writes n); simpl; [done|]. by inversion Hw. }
  assert (Forall write_safe (tail (n_writes n))) as Ht.
  { destruct (n_writes n); simpl; [done|]. by inversion Hw. }
  set (w := default write_ok (head (n_writes n))) in *.
  destruct (t (c_mem (n_store n))) as [[a [next|]]|e] eqn:Htx.
  - destruct (persist w (n_store n) next) as [ok c'] eqn:Hp. intros [= <- <-]. simpl.
    split; [done|]. split; [done|].
    destruct (persist_safe _ _ _ _ _ Hsafe Hp) as [[-> ->]|[-> ->]]; simpl.
    + split; [done|]. left. eauto.
    + split; [done|]. right. split; [done|]. done.
  - intros [= <- <-]. simpl. do 3 (split; [done|]). right. split; [done|]. by intros ? [= <-].
  - intros [= <- <-]. simpl. do 3 (split; [done|]). right. done.
Qed.

(** ** Acknowledgements *)
Lemma spoken_frame sent s s' :
  LastAck s' kp = LastAck s kp → Watermark s' kp = Watermark s kp → (BaseRoot s' kp).1 = (BaseRoot s kp).1 →
  spoken sent s → spoken sent s'.
Proof. unfold spoken. by intros -> -> ->. Qed.

(** Recording the acknowledgement of a newer promotion. *)
Lemma spoken_new sent s s' ack :
  (Watermark s kp < pa_PromotionSeq ack)%N → about ack → LastAck s' kp = Some ack →
  Watermark s' kp = pa_PromotionSeq ack →
  (pa_Applied ack = true → (BaseRoot s' kp).1 = pa_PostPartitionCommitment ack) →
  spoken sent s → spoken sent s'.
Proof.
  intros Hlt Hab Hl Hw Hp (_ & Hle & Hag). unfold spoken. rewrite Hl, Hw. split; [|split; [|done]].
  - by intros l [= <-].
  - intros a Ha Haa. destruct (Hle a Ha Haa) as [? _]. split; [lia|]. intros. lia.
Qed.

(** Replacing the kept acknowledgement by one of the same promotion and verdict. *)
Lemma spoken_refresh sent s s' l ack :
  LastAck s kp = Some l → LastAck s' kp = Some ack → pa_PromotionSeq ack = pa_PromotionSeq l →
  about ack → verdict ack = verdict l → Watermark s' kp = Watermark s kp →
  (BaseRoot s' kp).1 = (BaseRoot s kp).1 → spoken sent s → spoken sent s'.
Proof.
  intros Hl Hl' Hseq Hab Hv Hw Hb (Hlast & Hle & Hag). unfold spoken. rewrite Hl', Hw, Hb.
  destruct (Hlast l Hl) as (Hls & _ & Hlb). split; [|split; [|done]].
  - intros l' [= <-]. split; [congruence|]. split; [done|]. unfold verdict in Hv. injection Hv as -> ->. done.
  - intros a Ha Haa. destruct (Hle a Ha Haa) as [Hles He]. split; [done|]. intros Heq.
    destruct (He Heq) as (l' & Hl2 & Hv2). exists ack. split; [done|]. congruence.
Qed.

(** Sending the acknowledgement the ledger keeps. *)
Lemma spoken_send sent s ack : LastAck s kp = Some ack → spoken sent s → spoken (ack :: sent) s.
Proof.
  intros Hl (Hlast & Hle & Hag). destruct (Hlast ack Hl) as (Hseq & Hab & _).
  assert (∀ b, b ∈ sent → about b → pa_PromotionSeq b = pa_PromotionSeq ack → verdict ack = verdict b) as Hnew.
  { intros b Hb Hbb Heq. destruct (Hle b Hb Hbb) as [_ He]. destruct He as (l & Hl' & Hv); [congruence|]. congruence. }
  split; [done|]. split.
  - intros a [->|Ha]%elem_of_cons Haa; [|by apply Hle]. split; [lia|]. eauto.
  - intros a b [->|Ha]%elem_of_cons [->|Hb]%elem_of_cons Haa Hbb Heq; auto. symmetry. auto.
Qed.

(** The command [seq] is answered: the kept acknowledgement is its, and was sent. *)
Definition answered (seq : N) (F : lthash → cell localState → Prop) (n : node) : Prop :=
  at_root F n ∧
  ∃ ack, LastAck (c_mem (n_store n)) kp = Some ack ∧ pa_PromotionSeq ack = seq ∧ ack ∈ n_sent n.

Lemma triple_send F ack seq :
  pa_PromotionSeq ack = seq →
  triple (at_root (λ r c, LastAck (c_mem c) kp = Some ack ∧ F r c)) (sendAck ack) (λ _, answered seq F).
Proof.
  intros Hseq n r n' [(Hw & Hs & Hsp & Hal & Hc) [Hl HF]] [= Hr <-].
  assert (∀ n1, n_writes n1 = n_writes n → n_store n1 = n_store n → n_ch n1 = n_ch n →
    n_sent n1 = ack :: n_sent n → inv n1) as Hi.
  { intros n1 E1 E2 E3 E4. unfold inv. rewrite E1, E2, E3, E4. split; [done|]. split; [done|].
    split; [by apply spoken_send|]. done. }
  split; [by apply Hi|]. intros _ _. split; [split; [|done]; by apply Hi|].
  exists ack. split; [done|]. split; [done|]. by left.
Qed.

Lemma triple_answered {A} seq F (m : M A) : Quiet m → triple (answered seq F) m (λ _, answered seq F).
Proof.
  intros Hm n r n' [HF (ack & Hl & Hseq & Hin)] Hr.
  destruct (triple_quiet F m Hm n r n' HF Hr) as [Hi HQ]. split; [done|]. intros a Ha. split; [by eapply HQ|].
  destruct (Hm _ _ _ Hr) as (_ & -> & _ & ->). eauto.
Qed.

(** ** ClickHouse *)
Lemma still_content w w' d t s p : still w w' → d ≠ UnsafeDB → content w' d t s p = content w d t s p.
Proof.
  intros Hs Hd. destruct (Hs d t Hd) as [Hi Hh]. unfold content. rewrite Hi. apply list_fmap_ext.
  intros _ q _. apply Hh.
Qed.
Lemma still_root w w' : still w w' → root w' = root w.
Proof. intros Hs. unfold root. by rewrite (still_content w w'). Qed.
Lemma still_trans w1 w2 w3 : still w1 w2 → still w2 w3 → still w1 w3.
Proof.
  intros Hst1 Hst2 d t Hd. destruct (Hst1 d t Hd) as [Hi1 Hh1], (Hst2 d t Hd) as [Hi2 Hh2].
  split; [congruence|]. intros x. by rewrite Hh2, Hh1.
Qed.

Lemma Quiet_ch {A} e (f : chs → option A * chs) :
  (∀ w r w', f w = (r, w') → root w' = root w) → Quiet (ch e f).
Proof.
  intros Hf n r n' Hc. unfold ch in Hc. destruct (f (n_ch n)) as [x w'] eqn:Hw. simplify_eq.
  split_and!; [by eapply Hf|done..].
Qed.

(** The statements other than REPLACE on hg_safe and drops in it. *)
Definition spares_safe (q : stmt) : Prop :=
  match q with ReplacePartition _ _ | AttachPartition SafeDB _ _ _ | DropPart SafeDB _ _ | DropPartition SafeDB _ _ | DropTable SafeDB _ => False | _ => True end.

Lemma exec_spares q w r w' : spares_safe q → ch_exec q w = (r, w') → root w' = root w.
Proof. intros Hq He. unfold root. by rewrite (exec_safe_frame _ _ _ _ _ _ _ He). Qed.

Lemma Quiet_exec_stmt q : spares_safe q → Quiet (exec_stmt q).
Proof.
  intros Hq n r n' He. unfold exec_stmt in He. destruct (ch_exec q (n_ch n)) as [x w] eqn:Hx. simplify_eq.
  split_and!; [by eapply exec_spares|done..].
Qed.

Lemma root_active d t w r w' : ch_active d t w = (r, w') → root w' = root w.
Proof. intros Ha. apply still_root. by eapply active_reads. Qed.
Lemma root_exists d t w r w' : ch_exists d t w = (r, w') → root w' = root w.
Proof. intros Ha. apply still_root. by eapply exists_reads. Qed.
Lemma root_scan d t s names w r w' : ch_scan d t s names w = (r, w') → root w' = root w.
Proof. intros Ha. apply still_root. by eapply scan_reads. Qed.

Lemma root_drop_partition d t s p w r w' :
  d ≠ SafeDB → DropPartitionIfPresent d t s p w = (r, w') → root w' = root w.
Proof.
  intros Hd. unfold DropPartitionIfPresent. destruct (ch_active d t w) as [parts w1] eqn:Ha.
  apply root_active in Ha. destruct parts as [parts|]; [|intros; simplify_eq; done].
  case_bool_decide; [intros; simplify_eq; done|].
  destruct (QuotePartition s p) as [q|]; [|intros; simplify_eq; done].
  destruct (ch_exec _ w1) as [err w2] eqn:He. intros; simplify_eq. rewrite <- Ha.
  eapply exec_spares; [|exact He]. by destruct d.
Qed.

Lemma root_content_scan d t s p w r w' : PartitionContentScan d t s p w = (r, w') → root w' = root w.
Proof.
  unfold PartitionContentScan. destruct (ch_active d t w) as [parts w1] eqn:Ha.
  apply root_active in Ha. destruct parts as [parts|]; [|intros; simplify_eq; done].
  case_bool_decide; [intros; simplify_eq; done|].
  destruct (ch_scan _ _ _ _ w1) as [scans w2] eqn:Hs. apply root_scan in Hs.
  destruct scans; intros; simplify_eq; congruence.
Qed.
End proofs.

(** Decides that a computation leaves hg_safe and the ledger alone. *)
Ltac quiet_step :=
  first
  [ apply Quiet_ret | apply Quiet_fail | apply Quiet_lift | apply Quiet_opt | apply Quiet_guard
  | apply Quiet_ledger | apply Quiet_audit_do | apply Quiet_audit | apply Quiet_fsm
  | apply Quiet_csend | apply Quiet_settle
  | apply Quiet_bind; [|intros ?] | apply Quiet_catch; [|intros ?] | apply Quiet_or_cleanup
  | apply Quiet_best_effort
  | apply Quiet_exec_stmt; exact I
  | apply Quiet_ch; first [intros ???; apply root_active | intros ???; apply root_exists
      | intros ???; apply root_scan | intros ???; apply root_content_scan
      | intros ???; apply root_drop_partition; discriminate]
  | progress cbv zeta
  | case_match ].
Ltac quiet := repeat quiet_step; auto.

Section promotion.
Context `{CH : ClickHouse, RS : RowSum}.
Context `{!LtHashLaws, !RowSumLaws, CL : !ClickHouseLaws, TG : !Target, AL : !Allowed}.
Context (NodeID : string) (conn : bool).
Context (schemaFor : string → option TableSchema) (owned : string → bool).
Context (authorized : PromoteSafePartition → string → bool) (cleanup_authorized : UnsafeCleanup → string → bool).
Context (Hsch : schemaFor T = Some sch).

Lemma Quiet_alter q : spares_safe q → Quiet (alter q).
Proof. intros Hq. unfold alter. apply Quiet_bind; [by apply Quiet_exec_stmt|]. intros [?|]; quiet. Qed.

Lemma Quiet_activeParts d t : Quiet (activeParts d t).
Proof. unfold activeParts. quiet. Qed.
Lemma Quiet_dropPartition t s p : Quiet (dropPartitionIfPresent PromoteDB t s p).
Proof. unfold dropPartitionIfPresent. quiet. Qed.
Lemma Quiet_contentScan d t s p : Quiet (partitionContentScan d t s p).
Proof. unfold partitionContentScan. quiet. Qed.
Lemma Quiet_shadowParts t s p : Quiet (shadowPartitionParts t s p).
Proof. unfold shadowPartitionParts. apply Quiet_bind; [apply Quiet_activeParts|]. intros; quiet. Qed.
Lemma Quiet_drop_parts t names : Quiet (drop_parts PromoteDB t names).
Proof.
  induction names as [|x names IH]; [apply Quiet_ret|]. apply Quiet_bind; [by apply Quiet_alter|done].
Qed.
Lemma Quiet_unsafeOrigin t s p base : Quiet (unsafeOriginShadowParts t s p base).
Proof. unfold unsafeOriginShadowParts. apply Quiet_bind; [apply Quiet_activeParts|]. intros parts. quiet. Qed.
Lemma Quiet_attachSubset cmd s t part : Quiet (attachCandidateSubset cmd s t part).
Proof.
  unfold attachCandidateSubset. apply Quiet_or_cleanup; [|apply Quiet_dropPartition].
  apply Quiet_bind; [apply Quiet_shadowParts|intros base].
  apply Quiet_bind; [by apply Quiet_alter|intros _].
  apply Quiet_bind; [apply Quiet_unsafeOrigin|intros attached].
  apply Quiet_bind; [apply Quiet_lift|intros [keep drop]].
  apply Quiet_bind; [apply Quiet_drop_parts|intros _].
  apply Quiet_bind; [apply Quiet_shadowParts|intros final]. quiet.
Qed.
Lemma Quiet_attach cmd s t part : Quiet (attachCandidateParts cmd s t part).
Proof.
  unfold attachCandidateParts, candidatesCoverUnsafePartition.
  apply Quiet_bind; [apply Quiet_bind; [apply Quiet_activeParts|intros; quiet]|].
  intros []; [by apply Quiet_alter|apply Quiet_attachSubset].
Qed.
Lemma Quiet_prepareShadow cmd s t part : Quiet (prepareShadow cmd s t part).
Proof.
  unfold prepareShadow. apply Quiet_bind; [quiet|intros there]. apply Quiet_bind; [quiet|intros _].
  apply Quiet_bind; [apply Quiet_dropPartition|intros _]. case_bool_decide; [quiet|by apply Quiet_alter].
Qed.
Lemma Quiet_safeMappings t s cmd post : Quiet (safeMappings t s cmd post).
Proof. unfold safeMappings. apply Quiet_bind; [apply Quiet_activeParts|intros parts]. quiet. Qed.

(** In report mode the audit reads and records; it never drops a part. *)
Lemma Quiet_recordOwnerAudit trigger k plan : Quiet (recordOwnerAudit trigger k plan).
Proof. unfold recordOwnerAudit. quiet. Qed.
Lemma Quiet_loadSafeTable t : Quiet (loadSafeTable t).
Proof. unfold loadSafeTable. quiet. Qed.
Lemma Quiet_auditPartition trigger s t k fsm : Quiet (auditPartitionLocked false trigger s t k fsm).
Proof.
  unfold auditPartitionLocked. apply Quiet_bind; [quiet|intros st].
  apply Quiet_bind; [apply Quiet_loadSafeTable|intros _].
  apply Quiet_bind; [unfold safePartitionParts; apply Quiet_bind; [apply Quiet_activeParts|intros; quiet]|intros active].
  destruct (decide_audit _ _ _ _) as [[r|] plan]; [|apply Quiet_recordOwnerAudit].
  rewrite andb_false_r. apply Quiet_recordOwnerAudit.
Qed.
Lemma Quiet_auditBeforeShadow cmd s t : Quiet (auditBeforeShadow false cmd s t).
Proof.
  unfold auditBeforeShadow. apply Quiet_bind; [quiet|intros fsm].
  apply Quiet_catch; [apply Quiet_auditPartition|intros r]. quiet.
Qed.

(** ** The content scan reads the true root *)
Lemma content_scan_root d t w rt out w' :
  PartitionContentScan d t sch pid w = (Some (rt, out), w') → d ≠ UnsafeDB →
  rt = accumulatorHex (lt_sum (content w' d t sch pid)).
Proof.
  intros Hp Hd. unfold PartitionContentScan in Hp. destruct (ch_active d t w) as [parts w1] eqn:Ha.
  apply active_reads in Ha as [Hst Hps]. destruct parts as [parts|]; [|done].
  specialize (Hps _ eq_refl Hd). subst parts.
  assert (inventory w1 d t = inventory w d t) as Hinv by (by apply Hst).
  case_bool_decide as Hlen.
  - rewrite row_sum in Hp. simplify_eq/=. f_equal. unfold content. rewrite Hinv.
    destruct (PartsInLogicalPartition _ _ _); [done|]. simpl in Hlen. lia.
  - destruct (ch_scan _ _ _ _ w1) as [scans w2] eqn:Hs. apply scan_reads in Hs as [Hst2 Hsc].
    destruct scans as [scans|]; [|done]. destruct (Hsc _ eq_refl Hd) as [_ Hm].
    rewrite row_sum, Hm in Hp. simplify_eq/=. f_equal. rewrite (still_content w1) by done.
    unfold content. rewrite Hinv. f_equal. by rewrite <- list_fmap_compose.
Qed.

Lemma contentScan_spec d t n rt out n' :
  partitionContentScan d t sch pid n = (Ok (rt, out), n') → d ≠ UnsafeDB →
  rt = accumulatorHex (lt_sum (content (n_ch n') d t sch pid)).
Proof.
  intros Hs Hd. apply bind_inv in Hs as [([rt' out'] & n1 & Hc & Hret)|(e & _ & ?)]; [|done].
  injection Hret as <- <- <-. unfold ch in Hc.
  destruct (PartitionContentScan d t sch pid (n_ch n)) as [[[rt2 out2]|] w] eqn:Hp; simplify_eq/=.
  by eapply content_scan_root.
Qed.

(** ** Publication *)

Lemma at_root_inv F n : at_root F n → inv n.
Proof. by intros [? _]. Qed.
Hint Resolve at_root_inv : core.

(** The ledger is about to publish [cmd]: its base is the command's. *)
Definition based (seq : N) (base : string) (r : lthash) (c : cell localState) : Prop :=
  (Watermark (c_mem c) kp < seq)%N ∧ (BaseRoot (c_mem c) kp).1 = base ∧ parseAccumulatorHex base = Some r.

(** [cmd] is journaled and published. *)
Definition published (seq : N) (base post : string) (r : lthash) (c : cell localState) : Prop :=
  (Watermark (c_mem c) kp < seq)%N ∧ parseAccumulatorHex post = Some r ∧
  ∃ i, PendingPromotion (c_mem c) kp = Some i ∧ pi_BasePartitionRoot i = base ∧ pi_PostPartitionRoot i = post.

Lemma begin_consistent intent b p r s o :
  consistent r s → (BaseRoot s kp).1 = pi_BasePartitionRoot intent →
  parseAccumulatorHex (pi_BasePartitionRoot intent) = Some b →
  parseAccumulatorHex (pi_PostPartitionRoot intent) = Some p →
  BeginPromotion kp intent s = Ok ((), o) →
  consistent r (default s o) ∧
  ∃ i, PendingPromotion (default s o) kp = Some i ∧
    pi_BasePartitionRoot i = pi_BasePartitionRoot intent ∧ pi_PostPartitionRoot i = pi_PostPartitionRoot intent ∧
    (BaseRoot (default s o) kp).1 = (BaseRoot s kp).1.
Proof.
  intros Hc Hbase Hb Hp Hbegin. unfold BeginPromotion in Hbegin. unfold consistent, PendingPromotion in *.
  destruct (PromotionIntents s !! pkey kp) as [e|] eqn:He.
  - destruct Hc as (Hbe & b' & p' & Hb' & Hp' & Hr).
    assert (promotionIntentCommandEqual e intent = true) as Hcmd.
    { destruct (promotionIntentsEqual e intent) eqn:Heq.
      - unfold promotionIntentsEqual in Heq. by apply andb_true_iff in Heq as [? _].
      - by destruct (promotionIntentCommandEqual e intent). }
    apply CommandEqual_spec in Hcmd as (_ & Hb2 & Hp2 & _).
    destruct (promotionIntentsEqual e intent); [|destruct (promotionIntentCommandEqual e intent); [|done]];
      simplify_eq/=.
    + rewrite He. split; [split; [done|]; eauto 10|]. eauto 10.
    + rewrite lookup_insert_eq. rewrite Hb2 in Hb'. rewrite Hp2 in Hp'. split; [split; [done|]; eauto 10|]. eauto 10.
  - simplify_eq/=. rewrite lookup_insert_eq. split; [split; [done|]|eauto 10].
    exists b, p. split; [done|]. split; [done|]. left. congruence.
Qed.

Lemma begin_intents intent s a o :
  BeginPromotion kp intent s = Ok (a, o) → ∃ m, default s o = set_PromotionIntents m s.
Proof.
  unfold BeginPromotion. repeat case_match; intros; simplify_eq/=; eauto.
  exists (PromotionIntents s). by destruct s.
Qed.

(** The intent is journaled and the shadow is what it publishes. *)
Definition ready (seq : N) (base post : string) (p : lthash) (n : node) : Prop :=
  inv n ∧ lt_sum (content (n_ch n) PromoteDB (CHTableName T) sch pid) = p ∧
  allowed p ∧ (Watermark (c_mem (n_store n)) kp < seq)%N ∧
  ∃ i, PendingPromotion (c_mem (n_store n)) kp = Some i ∧ pi_BasePartitionRoot i = base ∧
    pi_PostPartitionRoot i = post ∧ (BaseRoot (c_mem (n_store n)) kp).1 = base.

Lemma triple_begin seq base post intent p :
  pi_BasePartitionRoot intent = base → pi_PostPartitionRoot intent = post →
  (∀ r, allowed r → parseAccumulatorHex base = Some r → allowed p) → parseAccumulatorHex post = Some p →
  triple (λ n, at_root (based seq base) n ∧ lt_sum (content (n_ch n) PromoteDB (CHTableName T) sch pid) = p)
    (journal (BeginPromotion kp intent)) (λ _, ready seq base post p).
Proof.
  intros Hb Hp Hap Hpp n r n' [[(Hw & Hs & Hsp & Hal & Hc) (Hwm & Hbased & Hpb)] Hcont] Hj.
  destruct (journal_safe _ _ _ _ Hw Hs Hj) as ([Hch Hsn] & Hw' & Hs' & Hcase).
  assert (∀ o, BeginPromotion kp intent (c_mem (n_store n)) = Ok ((), o) →
    c_mem (n_store n') = default (c_mem (n_store n)) o → ready seq base post p n') as Hready.
  { intros o Ht Hm. destruct (begin_intents _ _ _ _ Ht) as [m Hnext].
    destruct (begin_consistent intent (root (n_ch n)) p _ _ _ Hc (eq_trans Hbased (eq_sym Hb))
      ltac:(by rewrite Hb) ltac:(by rewrite Hp) Ht)
      as (Hc' & i & Hi & Hib & Hip & Hbr).
    unfold ready, inv. rewrite Hch, Hsn, Hm. split; [|split; [done|]].
    - split_and!; try done. rewrite Hnext. by eapply spoken_frame; [..|exact Hsp].
    - split; [by eapply Hap|]. split; [by rewrite Hnext|]. exists i. split_and!; congruence. }
  destruct Hcase as [([] & next & -> & Ht & Hm)|(Hm & Ht)].
  - pose proof (Hready _ Ht Hm) as Hr. split; [apply Hr|]. by intros _ _.
  - split; [unfold inv; rewrite Hch, Hsn, Hm; done|]. intros [] Hr. apply (Hready None); [by apply Ht|by rewrite Hm].
Qed.

Lemma triple_replace seq base post partition p :
  QuotePartition sch pid = Some partition →
  parseAccumulatorHex post = Some p →
  triple (ready seq base post p) (alter (ReplacePartition (CHTableName T) partition))
    (λ _, at_root (published seq base post)).
Proof.
  intros Hq Hp n r n' ((Hw & Hs & Hsp & Hal & Hc) & Hcont & Hap & Hwm & i & Hi & Hib & Hip & Hbr) Ha.
  assert (∃ x w', ch_exec (ReplacePartition (CHTableName T) partition) (n_ch n) = (x, w') ∧ n' = set_ch w' n ∧
    (r = Ok () → x = None)) as (x & w' & Hx & -> & Hok).
  { unfold alter, exec_stmt, mbind, M_bind in Ha.
    destruct (ch_exec _ (n_ch n)) as [[e|] w'] eqn:Hx; injection Ha as <- <-;
      eexists _, _; (split; [done|]); by split. }
  destruct (replace_atomic _ _ _ _ _ _ _ Hx Hq) as [Hor Hnone].
  assert (inv (set_ch w' n)) as Hinv.
  { split; [done|]. split; [done|]. split; [done|]. simpl. unfold root in *.
    split; [destruct Hor as [-> | ->]; [done|by rewrite Hcont]|]. unfold consistent in Hc |- *.
    rewrite Hi in Hc |- *. destruct Hc as (Hc1 & b' & p' & Hb' & Hp' & Hr). split; [done|].
    exists b', p'. split; [done|]. split; [done|].
    destruct Hor as [-> | ->]; [done|]. right. congruence. }
  split; [done|]. intros [] ->. split; [done|]. simpl. split; [done|]. split; [|eauto].
  unfold root. rewrite (Hnone (Hok eq_refl)). congruence.
Qed.

Lemma combine_parses base hashes post :
  lthashCombineHexAll base hashes = Some post →
  (∃ b, parseAccumulatorHex base = Some b) ∧ ∃ p, parseAccumulatorHex post = Some p ∧ post = accumulatorHex p.
Proof.
  intros (b & hs & Hb & _ & ->)%lthashCombineHexAll_some. split; [eauto|].
  eexists. split; [apply parse_accumulatorHex|done].
Qed.

(** A scan of the shadow, with the root it reported. *)
Lemma triple_shadow_scan F :
  triple (at_root F) (partitionContentScan PromoteDB (CHTableName T) sch pid)
    (λ r n, at_root F n ∧ r.1 = accumulatorHex (lt_sum (content (n_ch n) PromoteDB (CHTableName T) sch pid))).
Proof.
  intros n r n' HF Hs. destruct (triple_quiet F _ (Quiet_contentScan _ _ _ _) n r n' HF Hs) as [Hi HQ].
  split; [done|]. intros [rt out] ->. split; [by eapply HQ|]. by eapply contentScan_spec.
Qed.

(** Peels one quiet step off a computation. *)
Ltac peel lem := eapply triple_bind; [apply triple_quiet; lem|intros ?].

Abbreviation buildAndReplace := (buildAndReplace conn false CHTableName schemaFor).
Abbreviation reconcile := (reconcilePromotionIntent CHTableName schemaFor).

(** What the command publishes on an allowed base is allowed. *)
Definition may_publish (cmd : PromoteSafePartition) : Prop :=
  ∀ r post p, allowed r → parseAccumulatorHex (ps_BasePartitionRoot cmd) = Some r →
    lthashCombineHexAll (ps_BasePartitionRoot cmd) (candidateHashes cmd) = Some post →
    parseAccumulatorHex post = Some p → allowed p.

Lemma triple_build cmd :
  ps_TableID cmd = T → ps_PartitionID cmd = pid → may_publish cmd →
  triple (at_root (based (ps_PromotionSeq cmd) (ps_BasePartitionRoot cmd))) (buildAndReplace cmd)
    (λ r n, lthashCombineHexAll (ps_BasePartitionRoot cmd) (candidateHashes cmd) = Some r.1 ∧
            at_root (published (ps_PromotionSeq cmd) (ps_BasePartitionRoot cmd) r.1) n).
Proof.
  intros HT Hpid Hmay. unfold Promote.buildAndReplace. rewrite HT, Hpid. cbv zeta.
  apply triple_guard; [eauto|intros _].
  apply triple_opt; [eauto|intros sch' Hsch']. assert (sch' = sch) as -> by congruence.
  apply triple_opt; [eauto|intros partition Hq].
  apply triple_lift; [eauto|intros _ _].
  peel ltac:(apply Quiet_auditBeforeShadow).
  peel ltac:(apply Quiet_prepareShadow).
  peel ltac:(apply Quiet_activeParts). rename a1 into safeBefore.
  peel ltac:(apply Quiet_attach).
  apply triple_opt; [eauto|intros post Hpost].
  destruct (combine_parses _ _ _ Hpost) as (Hb & p & Hp & ->).
  eapply triple_bind; [apply triple_shadow_scan|intros [rt out]]. simpl.
  case_bool_decide as Hrt.
  { apply (triple_weaken _ (at_root (based (ps_PromotionSeq cmd) (ps_BasePartitionRoot cmd))) _ _ (λ _ _, False));
      [by intros n [? _]|done|]. peel ltac:(apply Quiet_best_effort, Quiet_dropPartition). apply triple_fail. eauto. }
  subst rt.
  destruct (duplicateShadowPartHash out).
  { apply (triple_weaken _ (at_root (based (ps_PromotionSeq cmd) (ps_BasePartitionRoot cmd))) _ _ (λ _ _, False));
      [by intros n [? _]|done|]. peel ltac:(apply Quiet_best_effort, Quiet_dropPartition). apply triple_fail. eauto. }
  eapply triple_bind.
  { eapply triple_weaken; [|intros ?? Hq'; exact Hq'|].
    2: { apply (triple_begin (ps_PromotionSeq cmd) (ps_BasePartitionRoot cmd) (accumulatorHex p)); [done|done| |done].
         intros r Hr Hbr. by eapply Hmay. }
    intros n [Hn Hc]. split; [done|]. symmetry. by apply accumulatorHex_inj. }
  intros ?. eapply triple_bind.
  - by apply triple_replace.
  - intros ?. peel ltac:(apply Quiet_dropPartition). peel ltac:(apply Quiet_safeMappings).
    apply triple_ret. intros n Hn. split; [eauto|]. done.
Qed.

(** ** Resolution *)
Lemma triple_ledger {B} F (f : localState → M B) R :
  (∀ s, triple (at_root (λ r c, F r c ∧ c_mem c = s)) (f s) R) → triple (at_root F) (ledger ≫= f) R.
Proof.
  intros Hf n r n' [Hi HF] Hb. destruct (bind_inv _ _ _ _ _ Hb) as [(a & n1 & Hm1 & Hf1)|(e & Hm1 & _)];
    [injection Hm1 as <- <-|discriminate Hm1]. eapply Hf; [|exact Hf1]. done.
Qed.

Lemma triple_reconcile cmd intent :
  ps_TableID cmd = T → ps_PartitionID cmd = pid →
  triple (at_root (λ _ c, PendingPromotion (c_mem c) kp = Some intent ∧
            (Watermark (c_mem c) kp < ps_PromotionSeq cmd)%N)) (reconcile cmd intent)
    (λ o n, match o with
       | None => at_root (λ r c, PendingPromotion (c_mem c) kp = Some intent ∧
                   (Watermark (c_mem c) kp < ps_PromotionSeq cmd)%N ∧
                   pi_PromotionSeq intent = ps_PromotionSeq cmd ∧
                   (BaseRoot (c_mem c) kp).1 = ps_BasePartitionRoot cmd ∧
                   parseAccumulatorHex (ps_BasePartitionRoot cmd) = Some r) n
       | Some (post, _) => lthashCombineHexAll (ps_BasePartitionRoot cmd) (candidateHashes cmd) = Some post ∧
                           at_root (published (ps_PromotionSeq cmd) (ps_BasePartitionRoot cmd) post) n
       end).
Proof.
  intros HT Hpid. unfold Promote.reconcilePromotionIntent. rewrite HT, Hpid. cbv zeta.
  apply triple_opt; [eauto|intros post Hpost].
  destruct (combine_parses _ _ _ Hpost) as ((b & Hb) & p & Hp & Hpp).
  apply triple_guard; [eauto|intros Hmatch].
  unfold promotionIntentMatchesCommand in Hmatch. rewrite !andb_true_iff, !bool_decide_eq_true in Hmatch.
  destruct Hmatch as [[[[[Hseq Hbase] Hip] _] _] _].
  apply triple_opt; [eauto|intros sch' Hsch']. assert (sch' = sch) as -> by congruence.
  apply triple_opt; [eauto|intros partition _].
  eapply triple_bind.
  { instantiate (1 := λ rt n, at_root (λ _ c, PendingPromotion (c_mem c) kp = Some intent ∧
        (Watermark (c_mem c) kp < ps_PromotionSeq cmd)%N) n ∧
      rt = accumulatorHex (root (n_ch n))).
    unfold partitionContentRoot. intros n r n' HF Hs.
    destruct (bind_inv _ _ _ _ _ Hs) as [([rt out] & n1 & Hm1 & Hf1)|(e & Hm1 & ->)].
    - destruct (triple_quiet _ _ (Quiet_contentScan _ _ _ _) _ _ _ HF Hm1) as [Hi HQ].
      injection Hf1 as <- <-. split; [done|]. intros ? [= <-]. split; [by eapply HQ|].
      by eapply contentScan_spec.
    - split; [|done]. exact (proj1 (triple_quiet _ _ (Quiet_contentScan _ _ _ _) _ _ _ HF Hm1)). }
  intros rt. apply triple_opt; [by intros n [[? _] _]|intros baseRoot Hbr].
  apply lthashCombineHexAll_some in Hbr as (b' & hs & Hb' & Hm & ->).
  assert (b' = b) as -> by congruence. injection Hm as <-. change (lt_sum []) with lt_new. rewrite lt_add_new.
  case_bool_decide as Hcur.
  - apply triple_ret. intros n [[Hi [Hpend Hwm]] Hrt]. split; [done|]. split; [done|].
    split; [done|]. split; [done|]. split; [done|]. destruct Hi as (_ & _ & _ & _ & Hcons).
    unfold consistent in Hcons. rewrite Hpend in Hcons.
    destruct Hcons as (Hcb & _). split; [congruence|]. rewrite Hb. f_equal. apply accumulatorHex_inj. congruence.
  - apply triple_guard; [by intros n [[? _] _]|intros Hcp%bool_decide_eq_true].
    apply (triple_weaken _ (at_root (published (ps_PromotionSeq cmd) (ps_BasePartitionRoot cmd) post)) _ _
      (λ o n, match o with None => False | Some (post', _) => post' = post ∧
         at_root (published (ps_PromotionSeq cmd) (ps_BasePartitionRoot cmd) post) n end)).
    + intros n [[Hi [Hpend Hwm]] Hrt]. split; [done|]. split; [done|]. split.
      * rewrite Hp. f_equal. apply accumulatorHex_inj. congruence.
      * exists intent. done.
    + intros [[post' mp]|] n; [|done]. by intros [-> ?].
    + peel ltac:(apply Quiet_dropPartition). peel ltac:(apply Quiet_safeMappings).
      apply triple_ret. intros n Hn. split; [eauto|]. done.
Qed.

(** A ledger write that keeps the root and the acknowledgements explained. *)
Lemma triple_journal {A} F (t : txn A) Q :
  (∀ r c a next sent, F r c → t (c_mem c) = Ok (a, Some next) → consistent r (c_mem c) →
     spoken sent (c_mem c) → consistent r next ∧ spoken sent next) →
  (∀ r c a o, F r c → t (c_mem c) = Ok (a, o) → Q r (default (c_mem c) o)) →
  triple (at_root F) (journal t) (λ _, at_root (λ r c, Q r (c_mem c))).
Proof.
  intros Ht HQ n r n' [(Hw & Hs & Hsp & Hal & Hc) HF] Hj.
  destruct (journal_safe _ _ _ _ Hw Hs Hj) as ([Hch Hsn] & Hw' & Hs' & [(a & next & -> & Htx & Hm)|(Hm & Htx)]).
  - destruct (Ht _ _ _ _ _ HF Htx Hc Hsp) as [Hc' Hsp'].
    assert (inv n') as Hi. { unfold inv. by rewrite Hch, Hsn, Hm. }
    split; [done|]. intros _ _. split; [done|]. rewrite Hch, Hm. exact (HQ _ (n_store n) a (Some next) HF Htx).
  - assert (inv n') as Hi. { unfold inv. by rewrite Hch, Hsn, Hm. }
    split; [done|]. intros a Ha. split; [done|]. rewrite Hch, Hm. specialize (Htx a Ha).
    exact (HQ _ (n_store n) a None HF Htx).
Qed.

(** Writes that keep the partition's entries. *)
Lemma frame_both r sent s s' :
  PendingPromotion s' kp = PendingPromotion s kp → BaseRoot s' kp = BaseRoot s kp →
  LastAck s' kp = LastAck s kp → Watermark s' kp = Watermark s kp →
  consistent r s → spoken sent s → consistent r s' ∧ spoken sent s'.
Proof. unfold consistent, spoken. by intros -> -> -> ->. Qed.

(** What [set_ack] leaves for the partition. *)
Lemma set_ack_reads seq ack rt snap s :
  let s' := set_ack (pkey kp) seq ack rt snap s in
  (BaseRoot s' kp).1 = rt ∧ LastAck s' kp = Some ack ∧ Watermark s' kp = seq ∧
  PendingPromotion s' kp = PendingPromotion s kp.
Proof. unfold BaseRoot, LastAck, Watermark, PendingPromotion, get_or. simpl. by rewrite !lookup_insert_eq. Qed.

Abbreviation finish := (finishAppliedPromotion NodeID).

Lemma inventory_frame ks ack s : ∃ m, recordAckedSafeInventory ks ack s = set_AckedSafeInventories m s.
Proof.
  unfold recordAckedSafeInventory. repeat case_match; eauto. exists (AckedSafeInventories s). by destruct s.
Qed.

Lemma applied_next seq ack post snapshot hashes names s o :
  RecordAppliedPromotion kp seq ack post snapshot hashes names s = Ok ((), o) →
  ∃ next, o = Some next ∧ PendingPromotion next kp = None ∧ (BaseRoot next kp).1 = post ∧
    LastAck next kp = Some ack ∧ Watermark next kp = seq.
Proof.
  unfold RecordAppliedPromotion. cbv zeta. intros Hr. go_inv. simplify_eq. eexists. split; [done|].
  match goal with |- context[recordAckedSafeInventory ?k ?a ?x] => destruct (inventory_frame k a x) as [m Hf] end.
  unfold PendingPromotion, BaseRoot, LastAck, Watermark, get_or. simpl.
  split; [by rewrite lookup_delete_eq|].
  case_bool_decide; simpl; rewrite Hf; simpl; by rewrite !lookup_insert_eq.
Qed.

(** No promotion of the partition is unresolved. *)
Definition resolved (_ : lthash) (c : cell localState) : Prop := PendingPromotion (c_mem c) kp = None.

Lemma triple_finish cmd base post mappings :
  ps_TableID cmd = T → ps_PartitionID cmd = pid →
  triple (at_root (published (ps_PromotionSeq cmd) base post)) (finish kp cmd post mappings)
    (λ _, answered (ps_PromotionSeq cmd) resolved).
Proof.
  intros HT Hpid. unfold finishAppliedPromotion. eapply triple_bind.
  - apply (triple_journal _ _ (λ _ s, LastAck s kp = Some (applied_ack NodeID cmd post mappings) ∧
      PendingPromotion s kp = None)).
    + intros r c [] next sent (Hwm & Hp & _) Ht _ Hsp.
      apply applied_next in Ht as (next' & [= <-] & Hpend & Hbase & Hl & Hw).
      unfold consistent. rewrite Hpend, Hbase. split; [done|].
      eapply (spoken_new _ _ _ (applied_ack NodeID cmd post mappings)); done.
    + intros r c [] o _ Ht. by apply applied_next in Ht as (next & -> & Hp & _ & Hl & _).
  - intros ?. peel ltac:(apply Quiet_audit_do). by apply triple_send.
Qed.

Lemma keep_inventory_frame ks s : ∃ m, keep_inventory ks s s = set_AckedSafeInventories m s.
Proof.
  unfold keep_inventory. destruct (ackedSafeInventory_of s ks); [by eexists|].
  exists (AckedSafeInventories s). by destruct s.
Qed.

Lemma triple_recordAck ack snap s :
  (Watermark s kp < pa_PromotionSeq ack)%N → about ack → pa_Applied ack = false →
  PendingPromotion s kp = None →
  triple (at_root (λ _ c, c_mem c = s))
    (journal (RecordAck kp (pa_PromotionSeq ack) ack (BaseRoot s kp).1 snap))
    (λ _, at_root (λ r c, LastAck (c_mem c) kp = Some ack ∧ resolved r c)).
Proof.
  intros Hwm Hab Hna Hpend. destruct (keep_inventory_frame (pkey kp) s) as [m Hk].
  apply (triple_journal _ _ (λ _ s', LastAck s' kp = Some ack ∧ PendingPromotion s' kp = None));
    unfold RecordAck; cbv zeta.
  - intros r c [] next sent <- Ht Hc Hsp. rewrite Hk in Ht.
    destruct (set_ack_reads (pa_PromotionSeq ack) ack (BaseRoot (c_mem c) kp).1 snap
      (set_AckedSafeInventories m (c_mem c))) as (Hb & Hl & Hw & Hp).
    assert (set_ack (pkey kp) (pa_PromotionSeq ack) ack (BaseRoot (c_mem c) kp).1 snap
      (set_AckedSafeInventories m (c_mem c)) = next) as Hn by congruence. rewrite Hn in Hb, Hl, Hw, Hp. split.
    + unfold consistent in Hc |- *. rewrite Hp, Hb. done.
    + eapply (spoken_new _ _ _ ack); try done. congruence.
  - intros r c [] o <- Ht. rewrite Hk in Ht.
    destruct (set_ack_reads (pa_PromotionSeq ack) ack (BaseRoot (c_mem c) kp).1 snap
      (set_AckedSafeInventories m (c_mem c))) as (_ & Hl & _ & Hp).
    injection Ht as <-. split; [exact Hl|]. transitivity (PendingPromotion (c_mem c) kp); [exact Hp|done].
Qed.

Lemma settled_next seq ack snap s next :
  RecordSettledNotApplied kp seq ack (BaseRoot s kp).1 snap s = Ok ((), Some next) →
  (BaseRoot next kp).1 = (BaseRoot s kp).1 ∧ LastAck next kp = Some ack ∧ Watermark next kp = seq ∧
  PendingPromotion next kp =
    match PendingPromotion s kp with
    | Some i => if bool_decide (pi_PromotionSeq i = seq) then None else Some i
    | None => None
    end.
Proof.
  unfold RecordSettledNotApplied. destruct (keep_inventory_frame (pkey kp) s) as [m Hk]. rewrite Hk. cbv zeta.
  set (next0 := set_ack _ _ _ _ _ _). intros [= <-].
  destruct (set_ack_reads seq ack (BaseRoot s kp).1 snap (set_AckedSafeInventories m s)) as (Hb & Hl & Hw & _).
  fold next0 in Hb, Hl, Hw. change (PromotionIntents next0) with (PromotionIntents s).
  unfold PendingPromotion. destruct (PromotionIntents s !! pkey kp) as [i|] eqn:Hi; [case_bool_decide|].
  - split_and!; [exact Hb|exact Hl|exact Hw|]. simpl. by rewrite lookup_delete_eq.
  - split_and!; [exact Hb|exact Hl|exact Hw|]. exact Hi.
  - split_and!; [exact Hb|exact Hl|exact Hw|]. exact Hi.
Qed.

(** A settle answer may be recorded: the partition is at the ledger's base. *)
Definition unapplied (seq : N) (r : lthash) (c : cell localState) : Prop :=
  (Watermark (c_mem c) kp < seq)%N ∧ parseAccumulatorHex (BaseRoot (c_mem c) kp).1 = Some r ∧
  ∀ i, PendingPromotion (c_mem c) kp = Some i → pi_PromotionSeq i = seq.

Lemma triple_settled ack snap s :
  about ack → pa_Applied ack = false →
  triple (at_root (λ r c, unapplied (pa_PromotionSeq ack) r c ∧ c_mem c = s))
    (journal (RecordSettledNotApplied kp (pa_PromotionSeq ack) ack (BaseRoot s kp).1 snap))
    (λ _, at_root (λ r c, LastAck (c_mem c) kp = Some ack ∧ resolved r c)).
Proof.
  intros Hab Hna. apply (triple_journal _ _ (λ _ s', LastAck s' kp = Some ack ∧ PendingPromotion s' kp = None)).
  - intros r c [] next sent [(Hwm & Hp & Hseq) <-] Ht Hc Hsp.
    apply settled_next in Ht as (Hb & Hl & Hw & Hpend). split.
    + unfold consistent. rewrite Hpend, Hb. destruct (PendingPromotion (c_mem c) kp) as [i|]; [|done].
      by rewrite (bool_decide_eq_true_2 _ (Hseq i eq_refl)).
    + eapply (spoken_new _ _ _ ack); try done. congruence.
  - intros r c [] [next|] [(_ & _ & Hseq) <-] Ht; [|done]. apply settled_next in Ht as (_ & Hl & _ & Hp).
    split; [done|]. simpl. rewrite Hp. destruct (PendingPromotion (c_mem c) kp) as [i|]; [|done].
    by rewrite (bool_decide_eq_true_2 _ (Hseq i eq_refl)).
Qed.

Lemma triple_refreshed l ack :
  triple (at_root (λ _ c, LastAck (c_mem c) kp = Some l)) (journal (RecordRefreshedAck kp ack))
    (λ _, at_root (λ _ c, LastAck (c_mem c) kp = Some ack ∧ True)).
Proof.
  assert (∀ s a o, RecordRefreshedAck kp ack s = Ok (a, o) → LastAck s kp = Some l →
    about l → ∃ m, o = Some (set_AckedSafeInventories m (set_LastAcks (<[pkey kp := ack]> (LastAcks s)) s)) ∧
      pa_PromotionSeq ack = pa_PromotionSeq l ∧ about ack ∧ verdict ack = verdict l) as Hnext.
  { intros s a o Ht Hl [Hab1 Hab2]. unfold RecordRefreshedAck in Ht. cbv zeta in Ht. unfold LastAck in Hl.
    rewrite Hl in Ht. destruct (_ || _) eqn:Hg; [done|]. rewrite !orb_false_iff, !bool_decide_eq_false in Hg.
    destruct Hg as [[[[[[G1 _] _] G2] G3] G4] G5]. apply negb_false_iff, eqb_prop in G5. apply dec_stable in G1, G2, G3, G4.
    set (nxt := set_LastAcks _ s) in *. destruct (inventory_frame (pkey kp) ack nxt) as [m Hm].
    assert (nxt = set_AckedSafeInventories (AckedSafeInventories nxt) nxt) as Hid by (by destruct nxt).
    unfold about, verdict. rewrite <- G1, <- G2, <- G3, <- G4, <- G5.
    repeat case_match; simplify_eq; rewrite ?Hm; eauto 10. }
  apply (triple_journal _ _ (λ _ s', LastAck s' kp = Some ack ∧ True)).
  - intros r c [] next sent Hl Ht Hc Hsp. destruct (proj1 Hsp l Hl) as (_ & Hab & _).
    destruct (Hnext _ _ _ Ht Hl Hab) as (m & [= ->] & Hseq & Haba & Hv). split; [exact Hc|].
    eapply spoken_refresh; [exact Hl| |exact Hseq|exact Haba|exact Hv| | |exact Hsp]; try done.
    unfold LastAck. simpl. apply lookup_insert_eq.
  - intros r c [] o Hl Ht. unfold RecordRefreshedAck in Ht. cbv zeta in Ht. unfold LastAck in *. rewrite Hl in Ht.
    destruct (_ || _); [done|]. set (nxt := set_LastAcks _ _) in *.
    destruct (inventory_frame (pkey kp) ack nxt) as [m Hm].
    split; [|done]. repeat case_match; simplify_eq/=; rewrite ?Hm; simpl; apply lookup_insert_eq.
Qed.

Lemma Quiet_dropSettledShadow cmd : Quiet (dropSettledShadow conn CHTableName schemaFor cmd).
Proof.
  unfold dropSettledShadow. case_match; [quiet|]. apply Quiet_bind; [quiet|intros s].
  apply Quiet_bind; [quiet|intros _]. apply Quiet_dropPartition.
Qed.

Lemma triple_settleNotApplied cmd :
  ps_TableID cmd = T → ps_PartitionID cmd = pid →
  triple (at_root (unapplied (ps_PromotionSeq cmd)))
    (settleNotApplied NodeID conn CHTableName schemaFor kp cmd) (λ _, answered (ps_PromotionSeq cmd) resolved).
Proof.
  intros HT Hpid. unfold settleNotApplied. apply triple_ledger. intros s.
  destruct (BaseRoot s kp) as [base snap] eqn:Hb.
  eapply triple_bind.
  - pose proof (triple_settled (refused_ack NodeID cmd (settle_detail (ps_PromotionSeq cmd))) snap s) as Ht.
    rewrite Hb in Ht. by apply Ht.
  - intros ?. peel ltac:(apply Quiet_best_effort, Quiet_dropSettledShadow).
    eapply triple_bind; [by apply triple_send|intros ?]. apply triple_answered, Quiet_settle.
Qed.

Lemma triple_resend cmd ack :
  triple (at_root (λ _ c, LastAck (c_mem c) kp = Some ack)) (resendStoredAck CHTableName schemaFor kp cmd ack)
    (λ _, answered (pa_PromotionSeq ack) (λ _ _, True)).
Proof.
  unfold resendStoredAck. case_match.
  2: { eapply triple_weaken; [|intros ?? Hq; exact Hq|by apply triple_send]. by intros n [? ?]. }
  apply triple_guard; [eauto|intros _]. apply triple_opt; [eauto|intros s' _].
  peel ltac:(apply Quiet_safeMappings). eapply triple_bind; [apply triple_refreshed|intros ?].
  by apply triple_send.
Qed.

Lemma triple_apply cmd :
  ps_TableID cmd = T → ps_PartitionID cmd = pid → may_publish cmd →
  triple (at_root (λ r c, (Watermark (c_mem c) kp < ps_PromotionSeq cmd)%N ∧
            parseAccumulatorHex (BaseRoot (c_mem c) kp).1 = Some r ∧
            (resolved r c ∨ (BaseRoot (c_mem c) kp).1 = ps_BasePartitionRoot cmd)))
    (apply_promotion NodeID conn false CHTableName schemaFor kp cmd) (λ _, answered (ps_PromotionSeq cmd) resolved).
Proof.
  intros HT Hpid Hmay. unfold apply_promotion. apply triple_ledger. intros s.
  destruct (BaseRoot s kp) as [base snap] eqn:Hb. case_bool_decide as Hcas.
  - set (ack := refused_ack NodeID cmd _). intros n r n' [Hi [(Hwm & _ & Hres) Hs]]. rewrite Hs, Hb in Hres.
    destruct Hres as [Hpend|?]; [|by destruct Hcas]. unfold resolved in Hpend. rewrite Hs in Hwm, Hpend.
    assert (triple (at_root (λ _ c, c_mem c = s))
      (_ ← journal (RecordAck kp (ps_PromotionSeq cmd) ack base snap); sendAck ack)
      (λ _, answered (ps_PromotionSeq cmd) resolved)) as Ht.
    { eapply triple_bind; [|intros ?; by apply triple_send].
      pose proof (triple_recordAck ack snap s) as Ht. rewrite Hb in Ht. by apply Ht. }
    by apply Ht.
  - eapply triple_bind.
    + eapply triple_weaken; [|intros ?? Hq; exact Hq|by apply triple_build].
      intros n [Hi [(Hwm & Hr & _) Hs]]. split; [done|]. split; [done|]. rewrite Hs, Hb in *. simpl in *.
      by rewrite Hcas.
    + intros [post mappings]. simpl. eapply triple_weaken; [|intros ?? Hq; exact Hq|by apply triple_finish].
      intros n [_ Hn]. exact Hn.
Qed.

(** What a handler guarantees from the ledger [s0]: the invariant, and an answer
    when the command is above the watermark. *)
Definition answers (seq : N) (s0 : localState) (n : node) : Prop :=
  inv n ∧ ((Watermark s0 kp < seq)%N → answered seq resolved n).

Lemma answers_answered seq s0 n : answered seq resolved n → answers seq s0 n.
Proof. intros Ha. split; [by destruct Ha as [[? _] _]|done]. Qed.

(** A handler's branch below the watermark owes nothing more. *)
Lemma triple_answers_below {A} seq s0 P (m : M A) Q :
  (seq ≤ Watermark s0 kp)%N → triple P m Q → triple P m (λ _, answers seq s0).
Proof.
  intros Hle Hm n r n' HP Hr. destruct (Hm n r n' HP Hr) as [Hi _]. split; [done|]. intros _ _.
  split; [done|]. lia.
Qed.

Lemma triple_ledger_at {B} s0 (f : localState → M B) R :
  triple (at_root (λ _ c, c_mem c = s0)) (f s0) R → triple (at_root (λ _ c, c_mem c = s0)) (ledger ≫= f) R.
Proof.
  intros Hf. apply triple_ledger. intros s n r n' [Hi [Hs0 Hs]]. assert (s = s0) as -> by congruence.
  by apply Hf.
Qed.

(** Moves the precondition of [lem] to the known ledger [s0] and its
    postcondition to [answers]. *)
Ltac from_ledger lem :=
  eapply triple_weaken; [|intros ??; apply answers_answered|lem].

Lemma triple_answerSettle cmd s0 :
  ps_TableID cmd = T → ps_PartitionID cmd = pid →
  triple (at_root (λ _ c, c_mem c = s0)) (answerSettle NodeID conn CHTableName schemaFor kp cmd)
    (λ _, answers (ps_PromotionSeq cmd) s0).
Proof.
  intros HT Hpid. unfold answerSettle. apply triple_ledger_at. case_bool_decide as Hwm.
  - destruct (LastAck s0 kp) as [ack|] eqn:Hl; [case_bool_decide|];
      (eapply triple_answers_below; [done|]); [|apply triple_quiet, Quiet_settle..].
    eapply triple_bind; [|intros ?; apply triple_answered, Quiet_settle].
    eapply triple_weaken; [|intros ?? Hq; exact Hq|apply triple_resend].
    intros n [Hi Hs]. split; [done|]. by rewrite Hs.
  - destruct (PendingPromotion s0 kp) as [intent|] eqn:Hpend.
    + eapply triple_bind.
      * eapply triple_weaken; [|intros ?? Hq; exact Hq|by apply (triple_reconcile cmd intent)].
        intros n [Hi Hs]. split; [done|]. rewrite Hs. split; [done|]. lia.
      * intros [[post mappings]|].
        -- from_ledger ltac:(eapply triple_bind; [by apply triple_finish|intros ?; apply triple_answered, Quiet_settle]).
           intros n [_ Hn]. exact Hn.
        -- from_ledger ltac:(by apply triple_settleNotApplied).
           intros n [Hi (Hp & Hw & Hseq & Hb & Hroot)]. split; [done|]. split; [done|]. split; [congruence|].
           intros i Hi'. congruence.
    + from_ledger ltac:(by apply triple_settleNotApplied).
      intros n [Hi Hs]. split; [done|]. unfold unapplied. rewrite Hs. split; [lia|]. split; [|congruence].
      destruct Hi as (_ & _ & _ & _ & Hc). unfold consistent in Hc. by rewrite Hs, Hpend in Hc.
Qed.

Lemma triple_handlePromote cmd jws settle s0 :
  ps_TableID cmd = T → ps_PartitionID cmd = pid → (settle = false → may_publish cmd) →
  triple (at_root (λ _ c, c_mem c = s0))
    (handlePromote NodeID conn false CHTableName schemaFor owned authorized cmd jws settle)
    (λ _ n, inv n ∧ (owned T = true → answers (ps_PromotionSeq cmd) s0 n)).
Proof.
  intros HT Hpid Hmay. unfold handlePromote. rewrite HT, Hpid. fold kp.
  case_match; [apply triple_fail; eauto|].
  destruct (owned T) eqn:Ho; simpl; [|apply triple_ret; intros n [? _]; by split].
  apply (triple_weaken _ (at_root (λ _ c, c_mem c = s0)) _ _ (λ _, answers (ps_PromotionSeq cmd) s0)); [done| |].
  { intros _ n Ha. split; [by destruct Ha|done]. }
  destruct settle; [by apply triple_answerSettle|]. specialize (Hmay eq_refl). apply triple_ledger_at.
  case_bool_decide as Hwm.
  - destruct (LastAck s0 kp) as [ack|] eqn:Hl; [case_bool_decide|];
      (eapply triple_answers_below; [done|]); [|apply triple_quiet, Quiet_ret..].
    eapply triple_weaken; [|intros ?? Hq; exact Hq|apply triple_resend].
    intros n [Hi Hs]. split; [done|]. by rewrite Hs.
  - destruct (PendingPromotion s0 kp) as [intent|] eqn:Hpend.
    + eapply triple_bind.
      * eapply triple_weaken; [|intros ?? Hq; exact Hq|by apply (triple_reconcile cmd intent)].
        intros n [Hi Hs]. split; [done|]. rewrite Hs. split; [done|]. lia.
      * intros [[post mappings]|].
        -- from_ledger ltac:(by apply triple_finish). intros n [_ Hn]. exact Hn.
        -- from_ledger ltac:(by apply triple_apply).
           intros n [Hi (_ & Hw & _ & Hb & Hr)]. split; [done|]. split; [done|]. rewrite Hb. auto.
    + from_ledger ltac:(by apply triple_apply).
      intros n [Hi Hs]. split; [done|]. unfold resolved. rewrite Hs. split; [lia|]. split; [|auto].
      destruct Hi as (_ & _ & _ & _ & Hc). unfold consistent in Hc. by rewrite Hs, Hpend in Hc.
Qed.

Lemma Quiet_drop_unsafe t parts : Quiet (drop_unsafe t parts).
Proof.
  induction parts as [|x parts IH]; [apply Quiet_ret|]. cbn [drop_unsafe].
  apply Quiet_bind; [quiet|intros _]. apply Quiet_bind; [quiet|intros r].
  apply Quiet_bind; [quiet|intros _]. exact IH.
Qed.

Lemma triple_confirm ack :
  triple (at_root (λ _ _, True)) (confirmCleanupAck ack) (λ _, at_root (λ _ _, True)).
Proof.
  unfold confirmCleanupAck. peel ltac:(apply Quiet_csend).
  apply (triple_journal _ _ (λ _ _, True)); [|done]. intros r c [] next sent _ Ht.
  unfold ClearOwedCleanupAck in Ht. case_bool_decide; simplify_eq. by apply frame_both.
Qed.

Lemma triple_handleCleanup cmd jws :
  triple (at_root (λ _ _, True))
    (handleCleanup NodeID CHTableName owned cleanup_authorized cmd jws) (λ _, at_root (λ _ _, True)).
Proof.
  unfold handleCleanup. case_match; [apply triple_fail; eauto|]. case_match; [apply triple_quiet, Quiet_ret|].
  eapply triple_bind; [apply triple_quiet, Quiet_ledger|intros s]. apply triple_lift; [eauto|intros ? _].
  peel ltac:(apply Quiet_drop_unsafe). eapply triple_bind.
  - apply (triple_journal _ _ (λ _ _, True)); [|done]. intros r c [] next sent _ Ht.
    apply cleanup_txn in Ht as [_ Ht]. rewrite Ht. by apply frame_both.
  - intros ?. apply triple_confirm.
Qed.
End promotion.
