(* ===== verification/PromoteSafety.v ===== *)
(** * Histories of an SNode partition

    A partition's life: promotion and settle commands in any order and number,
    cleanups, re-sends, audit passes, restarts, and whatever the rest of the
    node does, with every ledger write, statement and send free to fail. A crash
    inside a handler is a failure of its next effect followed by a restart. The
    audit runs in report mode, where it never drops a part. *)
From S2P Require Import Prelude LtHash Types Gate StateStore StateStoreProofs ClickHouse OwnerAudit Promote PromoteProofs.
Import StateStore OwnerAudit Promote.

(** Every command may publish what it names. *)
#[local] Instance any_root `{LtHash} : Allowed := λ _, True.

Section history.
Context `{CH : ClickHouse, RS : RowSum}.
Context `{!LtHashLaws, !RowSumLaws, CL : !ClickHouseLaws, TG : !Target}.
Context (NodeID : string) (conn : bool).
Context (schemaFor : string → option TableSchema) (owned : string → bool).
Context (authorized : PromoteSafePartition → string → bool) (cleanup_authorized : UnsafeCleanup → string → bool).

Abbreviation promote := (handlePromote NodeID conn false CHTableName schemaFor owned authorized).
Abbreviation cleanup := (handleCleanup NodeID CHTableName owned cleanup_authorized).
Abbreviation audit_pass := (runOwnerAuditPass conn false CHTableName schemaFor).

(** What the outside will decide. *)
Definition set_oracles (ws : list write_env) (sends : list bool) (fsm : list (option (gmap string PartitionState)))
    (n : node) : node :=
  mkNode (n_ch n) (n_store n) (n_audit n) ws sends fsm (n_sent n) (n_csent n) (n_settled n).

(** The process comes back: the ledger is read from its file. *)
Definition reboot (power_loss : bool) (n : node) : node :=
  mkNode (n_ch n) (restart power_loss (n_store n)) (newOwnerAuditState conn) (n_writes n) (n_sends n) (n_fsm n)
    (n_sent n) (n_csent n) (n_settled n).

(** What other partitions, intake and other processes may do meanwhile: nothing
    to this partition's rows in hg_safe, its ledger entries and its acknowledgements. *)
Definition elsewhere (n n' : node) : Prop :=
  root (n_ch n') = root (n_ch n) ∧ synced (n_store n') ∧ Forall write_safe (n_writes n') ∧
  (∀ a, about a → a ∈ n_sent n' ↔ a ∈ n_sent n) ∧
  PendingPromotion (c_mem (n_store n')) kp = PendingPromotion (c_mem (n_store n)) kp ∧
  BaseRoot (c_mem (n_store n')) kp = BaseRoot (c_mem (n_store n)) kp ∧
  LastAck (c_mem (n_store n')) kp = LastAck (c_mem (n_store n)) kp ∧
  Watermark (c_mem (n_store n')) kp = Watermark (c_mem (n_store n)) kp.

Inductive node_step : relation node :=
| ns_oracles n ws sends fsm : Forall write_safe ws → node_step n (set_oracles ws sends fsm n)
| ns_promote n cmd jws settle :
    ps_TableID cmd = T → ps_PartitionID cmd = pid → node_step n (promote cmd jws settle n).2
| ns_cleanup n cmd jws : node_step n (cleanup cmd jws n).2
| ns_resend n budget : node_step n (resendOwedCleanupAcks budget n)
| ns_audit n tables budget : node_step n (audit_pass tables budget n)
| ns_reboot n power_loss : node_step n (reboot power_loss n)
| ns_elsewhere n n' : elsewhere n n' → node_step n n'.

(** A new partition: nothing in hg_safe, an empty ledger, nothing said. *)
Definition initial (n : node) : Prop :=
  root (n_ch n) = lt_new ∧ n_store n = fresh ∧ n_sent n = [] ∧ Forall write_safe (n_writes n).

Lemma initial_inv n : initial n → inv n.
Proof.
  intros (Hr & Hs & Hn & Hw). unfold inv. rewrite Hr, Hs, Hn. split; [done|]. split; [done|].
  split; [|split; [done|]].
  - split; [by intros l ?|]. split; [by intros a ?%elem_of_nil|]. by intros a b ?%elem_of_nil.
  - unfold consistent. simpl. apply parse_empty.
Qed.

(** ** Each step keeps the invariant *)
Context (Hsch : schemaFor T = Some sch).

Lemma triple_inv {A} (m : M A) Q n r n' :
  triple (at_root (λ _ _, True)) m Q → inv n → m n = (r, n') → inv n'.
Proof. intros Ht Hi Hm. by destruct (Ht n r n' (conj Hi I) Hm). Qed.

Lemma resend_inv owed budget n : inv n → inv (resend_loop owed budget n).
Proof.
  revert budget n. induction owed as [|ack owed IH]; intros [|budget] n Hi; [done..|].
  cbn [resend_loop]. apply IH. destruct (confirmCleanupAck ack n) as [r n'] eqn:Hc.
  eapply triple_inv; [apply triple_confirm|exact Hi|exact Hc].
Qed.

Lemma Quiet_audit_partitions trigger s tid t fsm pids :
  Quiet (audit_partitions false trigger s tid t fsm pids).
Proof.
  induction pids as [|p pids IH]; [apply Quiet_ret|]. cbn [audit_partitions]. apply Quiet_bind; [|done].
  unfold auditPassPartition. apply Quiet_bind; [quiet|intros st]. destruct (PendingPromotion _ _).
  - apply Quiet_bind; [apply Quiet_recordOwnerAudit|intros; quiet].
  - apply Quiet_bind; [apply Quiet_auditPartition|intros; quiet].
Qed.

Lemma quiet_auditTable trigger tid down n r down' n' :
  auditTable false CHTableName schemaFor trigger tid down n = (r, down', n') → quiet n n'.
Proof.
  unfold auditTable. destruct (schemaFor tid); [|by intros [= _ _ <-]].
  destruct (loadSafeTable _ n) as [[u|e] n1] eqn:Ha1; apply Quiet_loadSafeTable in Ha1; [|by intros [= _ _ <-]].
  destruct (pass_fsm down n1) as [[fsm|e] n2] eqn:Ha2.
  all: assert (quiet n1 n2) by (revert Ha2; unfold pass_fsm; case_match; intros ?;
    [eapply Quiet_bind; [..|done]; [|intros ?]; quiet|by eapply Quiet_fsm]).
  2: { intros [= _ _ <-]. by etrans. }
  match goal with |- context[?m n2] => destruct (m n2) as [r3 n3] eqn:Ha3 end.
  intros [= _ _ <-]. etrans; [done|]. etrans; [done|]. eapply Quiet_bind; [..|exact Ha3].
  - apply Quiet_activeParts.
  - intros parts. do 2 (apply Quiet_bind; [quiet|intros ?]). apply Quiet_audit_partitions.
Qed.

Lemma quiet_audit_tables trigger tables down budget n r n' :
  audit_tables false CHTableName schemaFor trigger tables down budget n = (r, n') → quiet n n'.
Proof.
  revert down budget n. induction tables as [|t tables IH]; intros down [|budget] n; cbn [audit_tables];
    try by intros [= _ <-].
  destruct (auditTable _ _ _ _ _ _ _) as [[r1 down1] n1] eqn:Ha1. apply quiet_auditTable in Ha1.
  intros Ha2%IH. etrans; [done|]. etrans; [|exact Ha2]. by destruct r1.
Qed.

Lemma quiet_audit_pass tables budget n : quiet n (audit_pass tables budget n).
Proof.
  unfold runOwnerAuditPass. destruct (negb conn); [done|]. destruct (begin _ _) as [trigger a].
  destruct (audit_tables _ _ _ _ _ _ _ _) as [complete n1] eqn:Ha1. apply quiet_audit_tables in Ha1.
  assert (quiet n n1) by (etrans; [|exact Ha1]; done). by destruct complete.
Qed.

Lemma elsewhere_inv n n' : elsewhere n n' → inv n → inv n'.
Proof.
  intros (Hr & Hs & Hw & Hsent & Hp & Hb & Hl & Hwm) (_ & _ & Hsp & _ & Hc).
  unfold inv. rewrite Hr. split; [done|]. split; [done|]. split; [|split; [done|]].
  - unfold spoken in *. rewrite Hl, Hwm, Hb. destruct Hsp as (Ha1 & Ha2 & Ha3). split; [done|]. split.
    + intros a Ha Haa. apply Hsent in Ha; auto.
    + intros a b Ha Hb' Haa Hbb. apply Hsent in Ha, Hb'; auto.
  - unfold consistent in *. by rewrite Hp, Hb.
Qed.

Lemma node_step_inv n n' : node_step n n' → inv n → inv n'.
Proof.
  intros [n0 ws sends fsm Hws|n0 cmd jws settle HT Hpid|n0 cmd jws|n0 budget|n0 tables budget|n0 b|n0 n1 He] Hi.
  - destruct Hi as (_ & Hi). by split.
  - destruct (promote cmd jws settle n0) as [r n1] eqn:Hr.
    destruct (triple_handlePromote NodeID conn schemaFor owned authorized Hsch cmd jws settle
      (c_mem (n_store n0)) HT Hpid (λ _ _ _ _ _ _ _ _, I) n0 r n1) as [? _]; done.
  - destruct (cleanup cmd jws n0) as [r n1] eqn:Hr. eapply triple_inv; [|exact Hi|exact Hr]. apply triple_handleCleanup.
  - by apply resend_inv.
  - eapply quiet_inv; [apply quiet_audit_pass|done].
  - unfold inv in *. simpl. rewrite synced_restart; [done|]. by destruct Hi as (_ & Hs & _).
  - by eapply elsewhere_inv.
Qed.

Lemma history_inv n0 n : initial n0 → rtc node_step n0 n → inv n.
Proof.
  intros Hi%initial_inv Hs. induction Hs as [|n0 n1 n2 Hst _ IH]; [done|]. apply IH. by eapply node_step_inv.
Qed.

(** ** Properties *)



(** The command's rows are added to the partition, once. *)
Definition adds_candidates (cmd : PromoteSafePartition) (r r' : lthash) : Prop :=
  parseAccumulatorHex (ps_BasePartitionRoot cmd) = Some r ∧
  ∃ hs, mapM parseAccumulatorHex (pr_PartRowLtHash <$> ps_CandidateParts cmd) = Some hs ∧
    r' = lt_add r (lt_sum hs).

Lemma combine_adds cmd r post p :
  parseAccumulatorHex (ps_BasePartitionRoot cmd) = Some r →
  lthashCombineHexAll (ps_BasePartitionRoot cmd) (candidateHashes cmd) = Some post →
  parseAccumulatorHex post = Some p → adds_candidates cmd r p.
Proof.
  intros Hb Hpost Hp. split; [done|].
  apply lthashCombineHexAll_some in Hpost as (b & hs & Hb' & Hm & ->). assert (b = r) as -> by congruence.
  assert (candidateHashes cmd ≡ₚ pr_PartRowLtHash <$> ps_CandidateParts cmd) as Hperm
    by apply merge_sort_Permutation.
  destruct (mapM_perm _ _ _ _ Hperm Hm) as (hs' & Hm' & Hhs).
  exists hs'. split; [done|]. rewrite parse_accumulatorHex in Hp. injection Hp as <-. by rewrite Hhs.
Qed.


End history.

(** ** A server that satisfies the interface

    Three databases with one unpartitioned table each, and statements that never
    fail. *)
Module Toy.
Import Lane16 Gate.Gate.
#[local] Open Scope string_scope.

Definition server : Type := database → list (Part * lthash).

Definition put (d : database) (l : list (Part * lthash)) (w : server) : server :=
  λ d', if decide (d' = d) then l else w d'.

Definition hash_of (l : list (Part * lthash)) (name : string) : lthash :=
  default lt_new (snd <$> head (filter (λ x, p_Name x.1 = name) l)).

Definition toy_exec (q : stmt) (w : server) : server :=
  match q with
  | AttachPartition dst _ _ src => put dst (w dst ++ w src) w
  | ReplacePartition _ _ => put SafeDB (w PromoteDB) w
  | DropPart d _ name => put d (filter (λ x, p_Name x.1 ≠ name) (w d)) w
  | DropPartition d _ _ => put d [] w
  | _ => w
  end.

#[export] Instance toy_ch : ClickHouse := {
  chs := server; TableSchema := unit; PartitionBy _ := "";
  ch_active d _ w := (Some (w d).*1, w);
  ch_exists _ _ w := (Some true, w);
  ch_scan d _ _ names w := (Some ((λ n, mkScan n (accumulatorHex (hash_of (w d) n)) 1) <$> names), w);
  ch_exec q w := (None, toy_exec q w);
}.

#[export] Instance toy_laws : ClickHouseLaws.
Proof.
  unshelve eapply Build_ClickHouseLaws.
  1: exact (λ w d _, (w d).*1). 1: exact (λ w d _ n, hash_of (w d) n).
  - intros d t w r w' [= <- <-]. split; [done|]. by intros ps [= <-].
  - by intros d t w r w' [= _ <-].
  - intros d t s names w r w' [= <- <-]. split; [done|]. intros scans [= <-] _.
    rewrite <- !list_fmap_compose. split; [by rewrite list_fmap_id|].
    transitivity (mapM row_hash (accumulatorHex <$> (hash_of (w d) <$> names))); [|apply Gate.mapM_canon].
    by rewrite <- list_fmap_compose.
  - intros q w r w' t s p [= _ <-] Hq. simpl.
    assert (toy_exec q w SafeDB = w SafeDB) as ->; [|done].
    by destruct q as [[] | |[]|[]| | | |[]].
  - intros t p w r w' s pid [= <- <-] _. split; [by right|]. done.
Defined.

(** Table t of the arbiter, its only partition, and the node under test. *)
#[local] Instance toy_target : Target := {| CHTableName := id; T := "t"; pid := "all"; sch := () |}.

Definition toy_part (name : string) : Part := mkPart name "all" "" ("f" +:+ name) "" 1 1.

(** Intake left part a, with row hash 5, in hg_unsafe. *)
Definition toy_server : server := λ d, match d with UnsafeDB => [(toy_part "a", mk 5)] | _ => [] end.

Definition toy_node : node :=
  mkNode toy_server fresh (newOwnerAuditState true) [] [] [] [] [] [].

(** Promotion 1 publishes it. *)
Definition toy_cmd : PromoteSafePartition := mkPromote "t" "all" 1 "" "" [mkPartRef "t" "all" (hex 5) "a"].

Definition toy_promote (n : node) : result perr () * node :=
  handlePromote "n1" true false id (λ _, Some ()) (λ _, true) (λ _ _, true) toy_cmd "jws" false n.

Lemma toy_initial : initial toy_node.
Proof. by split_and!. Qed.

(** One step of the toy node's history. *)
Definition toy_step : relation node :=
  node_step "n1" true (λ _, Some ()) (λ _, true) (λ _ _, true) (λ _ _, true).

Lemma toy_promote_step n : toy_step n (toy_promote n).2.
Proof.
  exact (ns_promote "n1" true (λ _, Some ()) (λ _, true) (λ _ _, true) (λ _ _, true) n toy_cmd "jws" false
    eq_refl eq_refl).
Qed.

(** Published, then a power loss, then the command redelivered. *)
Definition toy_redelivered : node := (toy_promote (reboot true true (toy_promote toy_node).2)).2.

Lemma toy_redelivered_reached : rtc toy_step toy_node toy_redelivered.
Proof.
  refine (rtc_l _ _ _ _ (toy_promote_step toy_node) (rtc_l _ _ _ _ _ (rtc_once _ _ (toy_promote_step _)))).
  exact (ns_reboot "n1" true (λ _, Some ()) (λ _, true) (λ _ _, true) (λ _ _, true) (toy_promote toy_node).2 true).
Qed.




End Toy.
