(* ===== verification/Base64.v ===== *)
(** * base64.RawURLEncoding

    Go's unpadded URL-safe base64, on bytes as characters. A byte is eight bits
    and a symbol six, so a group of three bytes and its four symbols are the same
    24 bits. Decoding skips line breaks and, like Go's non-strict decoder, drops
    the unused low bits of a final partial group. *)
From S2P Require Import Prelude.

Abbreviation bytes := (list ascii).

Record sextet := Sextet { x5 : bool; x4 : bool; x3 : bool; x2 : bool; x1 : bool; x0 : bool }.

#[export] Instance sextet_eq_dec : EqDecision sextet.
Proof. solve_decision. Defined.

Definition sextet_val (s : sextet) : nat :=
  let b (x : bool) (n : nat) := if x then n else 0 in
  b (x5 s) 32 + b (x4 s) 16 + b (x3 s) 8 + b (x2 s) 4 + b (x1 s) 2 + b (x0 s) 1.

Definition alphabet : list ascii :=
  String.list_ascii_of_string "ABCDEFGHIJKLMNOPQRSTUVWXYZabcdefghijklmnopqrstuvwxyz0123456789-_".

Definition symbol (s : sextet) : ascii := nth (sextet_val s) alphabet zero.

Definition bit (n k : nat) : bool := bool_decide ((n / 2 ^ k) mod 2 = 1).
Definition sextet_of (n : nat) : sextet := Sextet (bit n 5) (bit n 4) (bit n 3) (bit n 2) (bit n 1) (bit n 0).

Definition sextets : list sextet := sextet_of <$> seq 0 64.

Definition unsymbol (c : ascii) : option sextet := head (filter (fun s => symbol s = c) sextets).

(** Three bytes are four sextets; [Ascii] lists a byte's bits from the lowest. *)
Definition group3 (a b c : ascii) : sextet * sextet * sextet * sextet :=
  let '(Ascii a0 a1 a2 a3 a4 a5 a6 a7) := a in
  let '(Ascii b0 b1 b2 b3 b4 b5 b6 b7) := b in
  let '(Ascii c0 c1 c2 c3 c4 c5 c6 c7) := c in
  (Sextet a7 a6 a5 a4 a3 a2, Sextet a1 a0 b7 b6 b5 b4, Sextet b3 b2 b1 b0 c7 c6, Sextet c5 c4 c3 c2 c1 c0).

Definition byte1 (s t : sextet) : ascii := Ascii (x4 t) (x5 t) (x0 s) (x1 s) (x2 s) (x3 s) (x4 s) (x5 s).
Definition byte2 (t u : sextet) : ascii := Ascii (x2 u) (x3 u) (x4 u) (x5 u) (x0 t) (x1 t) (x2 t) (x3 t).
Definition byte3 (u v : sextet) : ascii := Ascii (x0 v) (x1 v) (x2 v) (x3 v) (x4 v) (x5 v) (x0 u) (x1 u).

Fixpoint EncodeToString (bs : bytes) : bytes :=
  match bs with
  | a :: b :: c :: rest =>
      let '(s, t, u, v) := group3 a b c in symbol s :: symbol t :: symbol u :: symbol v :: EncodeToString rest
  | [a; b] => let '(s, t, u, _) := group3 a b zero in [symbol s; symbol t; symbol u]
  | [a] => let '(s, t, _, _) := group3 a zero zero in [symbol s; symbol t]
  | [] => []
  end.

Fixpoint decode_groups (cs : list sextet) : option bytes :=
  match cs with
  | s :: t :: u :: v :: rest =>
      bs ← decode_groups rest; Some (byte1 s t :: byte2 t u :: byte3 u v :: bs)
  | [s; t; u] => Some [byte1 s t; byte2 t u]
  | [s; t] => Some [byte1 s t]
  | [_] => None
  | [] => Some []
  end.

Definition line_break (c : ascii) : Prop := c = ascii_of_nat 10 ∨ c = ascii_of_nat 13.
#[export] Instance line_break_dec c : Decision (line_break c).
Proof. unfold line_break. apply _. Defined.

Definition DecodeString (cs : bytes) : option bytes :=
  ss ← mapM unsymbol (filter (fun c => ¬ line_break c) cs); decode_groups ss.

(** ** Lemmas *)
Lemma unsymbol_symbol s : unsymbol (symbol s) = Some s.
Proof. destruct s as [[] [] [] [] [] []]; vm_compute; reflexivity. Qed.

Lemma symbol_plain s : symbol s ≠ "."%char ∧ ¬ line_break (symbol s).
Proof. destruct s as [[] [] [] [] [] []]; split; vm_compute; naive_solver. Qed.

(** The sextets [EncodeToString] writes. *)
Fixpoint to_sextets (bs : bytes) : list sextet :=
  match bs with
  | a :: b :: c :: rest => let '(s, t, u, v) := group3 a b c in s :: t :: u :: v :: to_sextets rest
  | [a; b] => let '(s, t, u, _) := group3 a b zero in [s; t; u]
  | [a] => let '(s, t, _, _) := group3 a zero zero in [s; t]
  | [] => []
  end.

(** Induction by groups of three bytes. *)
Lemma bytes_ind3 (P : bytes → Prop) :
  P [] → (∀ a, P [a]) → (∀ a b, P [a; b]) → (∀ a b c bs, P bs → P (a :: b :: c :: bs)) → ∀ bs, P bs.
Proof.
  intros H0 H1 H2 H3 bs. enough (P bs ∧ (∀ a, P (a :: bs)) ∧ ∀ a b, P (a :: b :: bs)) by tauto.
  induction bs as [|c bs (IH & IH1 & IH2)]; split_and!; auto.
Qed.

Lemma encode_symbols bs : EncodeToString bs = symbol <$> to_sextets bs.
Proof.
  induction bs as [|a|a b|a b c bs IH] using bytes_ind3; [done|by destruct a|by destruct a, b|].
  destruct a, b, c. cbn [EncodeToString to_sextets group3 fmap list_fmap]. by rewrite IH.
Qed.

Lemma decode_to_sextets bs : decode_groups (to_sextets bs) = Some bs.
Proof.
  induction bs as [|a|a b|a b c bs IH] using bytes_ind3; [done|by destruct a|by destruct a, b|].
  destruct a, b, c. cbn [to_sextets group3 decode_groups]. by rewrite IH.
Qed.

Lemma symbols_plain (ss : list sextet) : filter (fun c => ¬ line_break c) (symbol <$> ss) = symbol <$> ss.
Proof. apply filter_all. intros c (s & -> & _)%list_elem_of_fmap. apply symbol_plain. Qed.

(** The round trip. *)
Lemma decode_encode bs : DecodeString (EncodeToString bs) = Some bs.
Proof.
  unfold DecodeString. rewrite encode_symbols, symbols_plain.
  assert (mapM unsymbol (symbol <$> to_sextets bs) = Some (to_sextets bs)) as ->; [|apply decode_to_sextets].
  apply mapM_Some. apply Forall2_fmap_l. apply Forall_Forall2_diag, Forall_forall. intros s _. apply unsymbol_symbol.
Qed.

Lemma encode_no_dot bs : "."%char ∉ EncodeToString bs.
Proof. rewrite encode_symbols. intros (s & Hs & _)%list_elem_of_fmap. by apply (proj1 (symbol_plain s)). Qed.
