(* ===== verification/Authority.v ===== *)
(** * Signed commands and messages (authority)

    Every command the arbiter's authority signs, and every message a node signs
    with its indexer's key, travels as an ES256K compact JWS whose payload names
    a purpose and the canonical digest of the command. [verify] and
    [verifySignedBy] are the two ways a token is checked; the Sign*, Verify* and
    Authorize* functions of each family are modelled on top of them.

    The curve, the hash and housegate's canonical digest are interfaces
    ([Crypto], [Digest]); JSON encoding of the two payload types is [Json]. Go's
    nil and empty slices are one value. Commands whose token has its own payload
    type (artifact disposition, query profile activation) and the normalization
    of consensus parameter updates are not modelled. Errors keep their cause,
    not their text. *)
From Stdlib Require Import Floats.SpecFloat.
From S2P Require Import Prelude Types Base64 InstallJournal.

(** ** The signed commands (consensus.go, stage3.go, types.go) *)
Record EvictNodeCommand := mkEvict { ev_NodeID : string; ev_ExpectedRegistrationSeq : N; ev_Reason : string }.
Record QuarantineIndexerCommand := mkQuarantine { qi_IndexerID : N; qi_ExpectedGeneration : N; qi_Reason : string }.
Record ReleaseIndexerCommand := mkRelease {
  ri_IndexerID : N; ri_ExpectedGeneration : N; ri_AcknowledgedRejectedBlocks : list N }.
Record SettleTrackCommand := mkSettle { se_IndexerID : N; se_ExpectedGeneration : N; se_PromotionSeqs : list N }.
Record RebalanceGroupCommand := mkRebalance {
  rg_OwnerIndexerID : N; rg_DatabaseID : string; rg_ExpectedGeneration : N; rg_Add : list string;
  rg_Remove : list string; rg_NetworkFill : bool }.
Record ReselectVerifiersCommand := mkReselect { rv_L3BlockSeq : N; rv_ExpectedSet : list string }.
Record MarkMemberLaggingCommand := mkLagging {
  ml_NodeID : string; ml_OwnerIndexerID : N; ml_DatabaseID : string; ml_ObservedEntry : TrackFrontier }.
Record MemberReadyBody := mkMemberReady {
  mr_NodeID : string; mr_OwnerIndexerID : N; mr_DatabaseID : string; mr_Generation : N }.
Record ExcludedTable := mkExcluded { ex_TableID : string; ex_Reason : string }.
Record CheckpointGroup := mkCheckpointGroup {
  cg_DatabaseID : string; cg_GroupGeneration : N; cg_Excluded : list ExcludedTable }.
Record MemberCheckpoint := mkCheckpoint {
  mk_NodeID : string; mk_OwnerIndexerID : N; mk_CheckpointSeq : N; mk_Groups : list CheckpointGroup;
  mk_SnapshotID : string; mk_Entry : TrackFrontier }.
Record RCRecord := mkRC {
  rc_StatementID : StatementID; rc_SourceNode : string; rc_CandidateParts : list CandidatePart;
  rc_SourceClaimRoot : string; rc_PartitionNewPartSums : list PartitionLtHashSum }.
Record NodeRegistration := mkRegistration {
  nr_NodeID : string; nr_Roles : list Z; nr_Ed25519Pubkey : bytes; nr_DialAddr : string; nr_RegistrationSeq : N }.
(** replay.SnapshotQueryAbortRecord *)
Record SnapshotQueryAbortRecord := mkAbort {
  ab_BlockSeq : N; ab_StatementID : string; ab_InputRoot : string; ab_ReservationID : string;
  ab_FencingGeneration : N; ab_ReasonCode : string; ab_CleanupAuthorizationRoot : string;
  ab_PrevSnapshotID : string; ab_NextSnapshotID : string }.

Module Authority.

Record ConsensusContext := mkContext { cx_NetworkID : string; cx_GenesisSnapshotID : string; cx_AuthorityEpoch : N }.
Record MessageContext := mkMsgContext { mx_NetworkID : string; mx_GenesisSnapshotID : string }.
Record MarkActiveBody := mkMarkActive { ma_NodeID : string; ma_RegistrationSeq : N }.
Record TablePurgedBody := mkPurged { tp_NodeID : string; tp_IncarnationSeq : N }.
Record SNodeEnrollmentStatement := mkEnrollment {
  en_NetworkID : string; en_GenesisSnapshotID : string; en_IndexerID : N; en_SNodeNodeID : string }.
Record GroupMemberConsentStatement := mkConsent {
  gc_NetworkID : string; gc_GenesisSnapshotID : string; gc_HostIndexerID : N; gc_NodeID : string;
  gc_Ed25519Pubkey : bytes; gc_ReplicaSigner : string }.

#[export] Instance ConsensusContext_eq_dec : EqDecision ConsensusContext.
Proof. solve_decision. Defined.

Inductive SNodeMessageKind := KRegistration | KMarkActive | KResultClaim | KPromotionAck | KCleanupAck | KTablePurged.

(** A message body of any type a caller may pass. *)
Inductive MessageBody :=
| MRegistration (r : NodeRegistration) | MMarkActive (b : MarkActiveBody) | MResultClaim (rc : RCRecord)
| MPromotionAck (a : PromotionAck) | MCleanupAck (a : CleanupAck) | MTablePurged (b : TablePurgedBody).

(** What CanonicalDigest is applied to. *)
Inductive Body :=
| BPromote (c : PromoteSafePartition) | BCleanup (c : UnsafeCleanup) | BEvict (c : EvictNodeCommand)
| BQuarantine (c : QuarantineIndexerCommand) | BRelease (c : ReleaseIndexerCommand) | BSettle (c : SettleTrackCommand)
| BRebalance (c : RebalanceGroupCommand) | BReselect (c : ReselectVerifiersCommand)
| BLagging (c : MarkMemberLaggingCommand) | BAbort (r : SnapshotQueryAbortRecord)
| BConsent (s : GroupMemberConsentStatement) | BEnrollment (s : SNodeEnrollmentStatement)
| BCheckpoint (ctx : MessageContext) (cp : MemberCheckpoint) | BReady (ctx : MessageContext) (b : MemberReadyBody)
| BMessage (kind : SNodeMessageKind) (ctx : MessageContext) (b : MessageBody).

Record JWSCommandPayload := mkPayload {
  jp_Iat : Z; jp_Purpose : string; jp_CmdHash : string;
  jp_NetworkID : string; jp_GenesisSnapshotID : string; jp_AuthorityEpoch : option N }.

End Authority.

(** ** What the package is given *)
Class Crypto := {
  PrivateKey : Type; PublicKey : Type;
  PublicOf : PrivateKey → PublicKey;
  Keccak256 : bytes → bytes;
  Sign : bytes → PrivateKey → option bytes;
  SigToPub : bytes → bytes → option PublicKey;
  AddressHex : PublicKey → string;
}.
Class Digest := { CanonicalDigest : string → Authority.Body → option string }.
Class Json := {
  MarshalPayload : Authority.JWSCommandPayload → bytes;
  UnmarshalPayload : bytes → option Authority.JWSCommandPayload;
  UnmarshalAlg : bytes → option string; (* the header's alg *)
}.

Module Tokens.
Export Authority.

Inductive aerr :=
| EEmptyAllowlist | EMaxAge | EForm | EHeader | EAlg | EPayload | EPurpose | EHash | EFuture | EExpired
| ESignature | ERecover | ENotAllowed | EContext | EContextMismatch | EInvalid | EDigest | ESign | ESigner.

(** ** Text *)

(** The runes strings.TrimSpace trims, as UTF-8 bytes. *)
Definition space_runes : list (list N) :=
  [[9]; [10]; [11]; [12]; [13]; [32]; [194; 133]; [194; 160]; [225; 154; 128]; [226; 128; 168]; [226; 128; 169];
   [226; 128; 175]; [226; 129; 159]; [227; 128; 128]]%N ++ ((fun n => [226; 128; 128 + n]) <$> [0; 1; 2; 3; 4; 5; 6; 7; 8; 9; 10])%N.

Definition rune_string (r : list N) : string := String.string_of_list_ascii (ascii_of_N <$> r).

Fixpoint blank_loop (fuel : nat) (s : string) : bool :=
  match s, fuel with
  | EmptyString, _ => true
  | _, 0 => false
  | _, S fuel =>
      match head (filter (fun w => has_prefix w s = true) (rune_string <$> space_runes)) with
      | Some w => blank_loop fuel (trim_prefix w s)
      | None => false
      end
  end.

(** strings.TrimSpace(s) == "" *)
Definition blank (s : string) : bool := blank_loop (String.length s) s.

(** strings.EqualFold; a digest has no letter with a non-ASCII fold. *)
Definition EqualFold (a b : string) : bool := bool_decide (ToLower a = ToLower b).

(** strings.Split(token, ".") *)
Fixpoint split_dot (cs : bytes) : list bytes :=
  match cs with
  | [] => [[]]
  | c :: cs =>
      if bool_decide (c = "."%char) then [] :: split_dot cs else
      match split_dot cs with p :: ps => (c :: p) :: ps | [] => [[c]] end
  end.

(** ** Machine arithmetic *)

(** int64 *)
Definition i64 (z : Z) : Z := ((z + 2 ^ 63) mod 2 ^ 64 - 2 ^ 63)%Z.

Definition f64 (z : Z) : spec_float := binary_normalize 53 1024 z 0 false.

Definition trunc (f : spec_float) : Z :=
  match f with
  | S754_finite s m e =>
      let v := if (0 <=? e)%Z then Z.shiftl (Zpos m) e else Z.shiftr (Zpos m) (- e) in if s then (- v)%Z else v
  | _ => 0%Z
  end.

(** int64(d.Seconds()) of a positive duration of [d] nanoseconds. *)
Definition age_seconds (d : Z) : Z :=
  i64 (trunc (SFadd 53 1024 (f64 (d / 10 ^ 9)) (SFdiv 53 1024 (f64 (d mod 10 ^ 9)) (f64 (10 ^ 9))))).

Definition clockSkewToleranceSeconds : Z := 5.

Record Validator := mkValidator { va_AllowedAddresses : gset string; va_MaxTokenAge : Z }.

Definition issued_in_future (now iat : Z) : bool := (clockSkewToleranceSeconds <? i64 (iat - now))%Z.
Definition expired (v : Validator) (now iat : Z) : bool :=
  (i64 (age_seconds (va_MaxTokenAge v) + clockSkewToleranceSeconds) <? i64 (now - iat))%Z.

(** ** Purposes and digest domains *)
Definition PromotionPurpose : string := "arbiter-promotion".
Definition EvictNodePurpose : string := "arbiter-evict-node-v1".
Definition QuarantineIndexerPurpose : string := "arbiter-quarantine-indexer-v1".
Definition ReleaseIndexerPurpose : string := "arbiter-release-indexer-v1".
Definition SettleTrackPurpose : string := "arbiter-settle-track-v1".
Definition RebalanceGroupPurpose : string := "arbiter-rebalance-group-v1".
Definition ReselectVerifiersPurpose : string := "arbiter-reselect-verifiers-v1".
Definition MarkMemberLaggingPurpose : string := "arbiter-mark-member-lagging-v1".
Definition GroupMemberConsentPurpose : string := "arbiter-group-member-v1".
Definition MemberReadyPurpose : string := "arbiter-member-ready-v1".
Definition MemberCheckpointPurpose : string := "arbiter-member-checkpoint-v1".
Definition SNodeEnrollmentPurpose : string := "arbiter-snode-enrollment-v1".
Definition SNodeMessagePurpose : string := "arbiter-snode-message-v1".
Definition SnapshotQueryAbortPurpose : string := "housegate-snapshot-query-abort-v1".

Definition promoteCommandDomain : string := "arbiter-promote-command-v1".
Definition cleanupCommandDomain : string := "arbiter-cleanup-command-v1".
Definition evictNodeCommandDomain : string := "arbiter-evict-node-command-v1".
Definition quarantineIndexerCommandDomain : string := "arbiter-quarantine-indexer-command-v1".
Definition releaseIndexerCommandDomain : string := "arbiter-release-indexer-command-v1".
Definition settleTrackCommandDomain : string := "arbiter-settle-track-command-v1".
Definition rebalanceGroupCommandDomain : string := "arbiter-rebalance-group-command-v1".
Definition reselectVerifiersCommandDomain : string := "arbiter-reselect-verifiers-command-v1".
Definition markMemberLaggingCommandDomain : string := "arbiter-mark-member-lagging-command-v1".
Definition groupMemberConsentDomain : string := "arbiter-group-member-statement-v1".
Definition memberReadyDomain : string := MemberReadyPurpose.
Definition memberCheckpointDomain : string := "arbiter-member-checkpoint-body-v1".
Definition snodeEnrollmentDomain : string := "arbiter-snode-enrollment-statement-v1".
Definition snodeMessageDomain : string := "arbiter-snode-message-body-v1".
Definition snapshotQueryAbortCommandDomain : string := "arbiter-snapshot-query-abort-command-v1".

(** ** Command hashes *)
Section hashes.
Context `{Digest}.

Definition digest (domain : string) (b : Body) : result aerr string := of_option EDigest (CanonicalDigest domain b).

Definition PromoteCommandHash (c : PromoteSafePartition) : result aerr string := digest promoteCommandDomain (BPromote c).
Definition CleanupCommandHash (c : UnsafeCleanup) : result aerr string := digest cleanupCommandDomain (BCleanup c).

Definition EvictNodeHash (c : EvictNodeCommand) : result aerr string :=
  if blank (ev_NodeID c) || blank (ev_Reason c) then Err EInvalid else digest evictNodeCommandDomain (BEvict c).

Definition QuarantineIndexerHash (c : QuarantineIndexerCommand) : result aerr string :=
  if blank (qi_Reason c) then Err EInvalid else digest quarantineIndexerCommandDomain (BQuarantine c).

(** [l] strictly ascending. *)
Fixpoint ascending {A} (lt : A → A → bool) (l : list A) : bool :=
  match l with
  | x :: ((y :: _) as l) => lt x y && ascending lt l
  | _ => true
  end.

(** ReleaseIndexerCommand.Validate *)
Definition release_valid (c : ReleaseIndexerCommand) : bool := ascending N.ltb (ri_AcknowledgedRejectedBlocks c).

Definition ReleaseIndexerHash (c : ReleaseIndexerCommand) : result aerr string :=
  if negb (release_valid c) then Err EInvalid else digest releaseIndexerCommandDomain (BRelease c).

(** SettleTrackCommand.Validate *)
Definition settle_valid (c : SettleTrackCommand) : bool :=
  negb (bool_decide (length (se_PromotionSeqs c) = 0)) && ascending N.ltb (se_PromotionSeqs c).

Definition SettleTrackHash (c : SettleTrackCommand) : result aerr string :=
  if negb (settle_valid c) then Err EInvalid else digest settleTrackCommandDomain (BSettle c).

Definition str_ltb : string → string → bool := String.ltb.
Definition sortedUniqueBy {A} (key : A → string) (l : list A) : bool := ascending str_ltb (key <$> l).
Definition sortedUnique : list string → bool := sortedUniqueBy id.

Definition RebalanceGroupHash (c : RebalanceGroupCommand) : result aerr string :=
  if blank (rg_DatabaseID c) then Err EInvalid else
  if negb (sortedUnique (rg_Add c)) || negb (sortedUnique (rg_Remove c)) ||
     bool_decide (Exists (fun n => n ∈ rg_Remove c) (rg_Add c))
  then Err EInvalid else digest rebalanceGroupCommandDomain (BRebalance c).

Definition ReselectVerifiersHash (c : ReselectVerifiersCommand) : result aerr string :=
  if negb (bool_decide (length (rv_ExpectedSet c) = 3)) || negb (sortedUnique (rv_ExpectedSet c)) ||
     existsb blank (rv_ExpectedSet c)
  then Err EInvalid else digest reselectVerifiersCommandDomain (BReselect c).

Definition MarkMemberLaggingHash (c : MarkMemberLaggingCommand) : result aerr string :=
  if blank (ml_NodeID c) || blank (ml_DatabaseID c) then Err EInvalid else
  if bool_decide (tf_IndexerID (ml_ObservedEntry c) ≠ ml_OwnerIndexerID c) then Err EInvalid
  else digest markMemberLaggingCommandDomain (BLagging c).

(** MessageContext.validate *)
Definition context_valid (ctx : MessageContext) : bool :=
  negb (blank (mx_NetworkID ctx)) && negb (blank (mx_GenesisSnapshotID ctx)).

Definition GroupMemberConsentHash (s : GroupMemberConsentStatement) : result aerr string :=
  if negb (context_valid (mkMsgContext (gc_NetworkID s) (gc_GenesisSnapshotID s))) then Err EContext else
  if blank (gc_NodeID s) || blank (gc_ReplicaSigner s) || negb (bool_decide (length (gc_Ed25519Pubkey s) = 32))
  then Err EInvalid
  else digest groupMemberConsentDomain
         (BConsent (mkConsent (gc_NetworkID s) (gc_GenesisSnapshotID s) (gc_HostIndexerID s) (gc_NodeID s)
                      (gc_Ed25519Pubkey s) (ToLower (gc_ReplicaSigner s)))).

Definition MemberReadyHash (ctx : MessageContext) (b : MemberReadyBody) : result aerr string :=
  if blank (mr_NodeID b) || blank (mr_DatabaseID b) || (mr_Generation b <? 1)%N then Err EInvalid else
  if negb (context_valid ctx) then Err EContext else digest memberReadyDomain (BReady ctx b).

Definition knownExclusionReason (r : string) : bool :=
  bool_decide (r ∈ ["not_installed"; "diverged"; "foreign"; "disk_threshold"; "audit_pending"; "retiring"]%string).

Definition MemberCheckpointHash (ctx : MessageContext) (cp : MemberCheckpoint) : result aerr string :=
  if (mk_CheckpointSeq cp <? 1)%N || blank (mk_SnapshotID cp) then Err EInvalid else
  if bool_decide (tf_IndexerID (mk_Entry cp) ≠ mk_OwnerIndexerID cp) then Err EInvalid else
  if bool_decide (length (mk_Groups cp) = 0) || negb (sortedUniqueBy cg_DatabaseID (mk_Groups cp)) then Err EInvalid else
  if existsb (fun g => negb (sortedUniqueBy ex_TableID (cg_Excluded g)) ||
                       existsb (fun e => negb (knownExclusionReason (ex_Reason e))) (cg_Excluded g)) (mk_Groups cp)
  then Err EInvalid else
  if negb (context_valid ctx) then Err EContext else digest memberCheckpointDomain (BCheckpoint ctx cp).

Definition SNodeEnrollmentHash (s : SNodeEnrollmentStatement) : result aerr string :=
  if negb (context_valid (mkMsgContext (en_NetworkID s) (en_GenesisSnapshotID s))) then Err EContext else
  if blank (en_SNodeNodeID s) then Err EInvalid else digest snodeEnrollmentDomain (BEnrollment s).

(** canonicalSNodeBody: each kind takes one body type. *)
Definition canonicalSNodeBody (kind : SNodeMessageKind) (b : MessageBody) : result aerr MessageBody :=
  match kind, b with
  | KRegistration, MRegistration _ | KMarkActive, MMarkActive _ | KResultClaim, MResultClaim _
  | KPromotionAck, MPromotionAck _ | KCleanupAck, MCleanupAck _ | KTablePurged, MTablePurged _ => Ok b
  | _, _ => Err EInvalid
  end.

Definition messageHash (domain : string) (kind : SNodeMessageKind) (ctx : MessageContext) (b : MessageBody)
    : result aerr string :=
  if negb (context_valid ctx) then Err EContext else digest domain (BMessage kind ctx b).

Definition SNodeMessageHash (kind : SNodeMessageKind) (ctx : MessageContext) (b : MessageBody) : result aerr string :=
  let* canonical := canonicalSNodeBody kind b in messageHash snodeMessageDomain kind ctx canonical.

Fixpoint has_nul (s : string) : bool :=
  match s with EmptyString => false | String c s => bool_decide (c = zero) || has_nul s end.

Definition ValidateSnapshotQueryAbortRecord (r : SnapshotQueryAbortRecord) : bool :=
  negb (bool_decide (ab_BlockSeq r = 0%N)) && negb (bool_decide (ab_FencingGeneration r = 0%N)) &&
  forallb (fun v => negb (blank v || has_nul v))
    [ab_StatementID r; ab_InputRoot r; ab_ReservationID r; ab_ReasonCode r; ab_PrevSnapshotID r; ab_NextSnapshotID r] &&
  negb (has_nul (ab_CleanupAuthorizationRoot r)) && negb (bool_decide (ab_PrevSnapshotID r = ab_NextSnapshotID r)).

Definition SnapshotQueryAbortHash (r : SnapshotQueryAbortRecord) : result aerr string :=
  if negb (ValidateSnapshotQueryAbortRecord r) then Err EInvalid else digest snapshotQueryAbortCommandDomain (BAbort r).
End hashes.

(** ** Tokens *)
Section tokens.
Context `{Crypto, Digest, Json}.

Record Signer := mkSigner { sg_privateKey : PrivateKey; sg_address : string }.

(** NewSignerFromHex, after the key is parsed. *)
Definition NewSigner (k : PrivateKey) : Signer := mkSigner k (ToLower (AddressHex (PublicOf k))).

(** json.Marshal of jwsHeader with alg ES256K and typ JWT. *)
Definition headerJSON : bytes :=
  let q := ascii_of_N 34 in
  let str s := q :: String.list_ascii_of_string s ++ [q] in
  String.list_ascii_of_string "{" ++ str "alg"%string ++ [":"%char] ++ str "ES256K"%string ++ [","%char] ++
  str "typ"%string ++ [":"%char] ++ str "JWT"%string ++ String.list_ascii_of_string "}".

(** [sig[64] += 27] on bytes *)
Definition add_v (sig : bytes) : bytes :=
  match drop 64 sig with
  | v :: _ => take 64 sig ++ [ascii_of_N ((N_of_ascii v + 27) mod 256)]
  | [] => sig
  end.

(** [if recSig[64] >= 27 { recSig[64] -= 27 }] *)
Definition recovery (sig : bytes) : bytes :=
  match drop 64 sig with
  | v :: _ => if (27 <=? N_of_ascii v)%N then take 64 sig ++ [ascii_of_N (N_of_ascii v - 27)] else sig
  | [] => sig
  end.

Definition signPayload (s : Signer) (p : JWSCommandPayload) : result aerr bytes :=
  let signingInput := EncodeToString headerJSON ++ "."%char :: EncodeToString (MarshalPayload p) in
  let* sig := of_option ESign (Sign (Keccak256 signingInput) (sg_privateKey s)) in
  Ok (signingInput ++ "."%char :: EncodeToString (add_v sig)).

Definition signWithContextPurpose (s : Signer) (hash purpose : string) (ctx : ConsensusContext) (iat : Z)
    : result aerr bytes :=
  if blank (cx_NetworkID ctx) || blank (cx_GenesisSnapshotID ctx) then Err EContext else
  signPayload s (mkPayload iat purpose hash (cx_NetworkID ctx) (cx_GenesisSnapshotID ctx) (Some (cx_AuthorityEpoch ctx))).

Definition signWithContext (s : Signer) (hash : string) (ctx : ConsensusContext) (iat : Z) : result aerr bytes :=
  signWithContextPurpose s hash PromotionPurpose ctx iat.

(** A token without a context. *)
Definition signPlain (s : Signer) (purpose hash : string) (iat : Z) : result aerr bytes :=
  signPayload s (mkPayload iat purpose hash EmptyString EmptyString None).

(** The signature's recovered address over the token's first two parts. *)
Definition recover (head payload : bytes) (sigPart : bytes) : result aerr string :=
  let* sig := of_option ESignature (DecodeString sigPart) in
  guard* bool_decide (length sig = 65) else ESignature in
  let* pub := of_option ERecover (SigToPub (Keccak256 (head ++ "."%char :: payload)) (recovery sig)) in
  Ok (ToLower (AddressHex pub)).

Definition verify (v : Validator) (now : Z) (wantCmdHash wantPurpose : string) (token : bytes) (enforceAge : bool)
    : result aerr string :=
  if bool_decide (size (va_AllowedAddresses v) = 0) then Err EEmptyAllowlist else
  if enforceAge && (va_MaxTokenAge v <=? 0)%Z then Err EMaxAge else
  match split_dot token with
  | [p0; p1; p2] =>
      let* headerJSON := of_option EHeader (DecodeString p0) in
      let* alg := of_option EHeader (UnmarshalAlg headerJSON) in
      guard* bool_decide (alg = "ES256K"%string) || bool_decide (alg = "secp256k1"%string) else EAlg in
      let* payloadJSON := of_option EPayload (DecodeString p1) in
      let* payload := of_option EPayload (UnmarshalPayload payloadJSON) in
      guard* bool_decide (jp_Purpose payload = wantPurpose) else EPurpose in
      guard* EqualFold (jp_CmdHash payload) wantCmdHash else EHash in
      guard* negb (enforceAge && issued_in_future now (jp_Iat payload)) else EFuture in
      guard* negb (enforceAge && expired v now (jp_Iat payload)) else EExpired in
      let* addr := recover p0 p1 p2 in
      guard* bool_decide (addr ∈ va_AllowedAddresses v) else ENotAllowed in
      Ok addr
  | _ => Err EForm
  end.

Definition authorize (v : Validator) (now : Z) (wantCmdHash : string) (token : bytes) : result aerr string :=
  verify v now wantCmdHash PromotionPurpose token true.

(** The context the payload carries, read again from the token. *)
Definition payload_of (token : bytes) : result aerr JWSCommandPayload :=
  match split_dot token with
  | _ :: p1 :: _ => let* data := of_option EPayload (DecodeString p1) in of_option EPayload (UnmarshalPayload data)
  | _ => Err EForm
  end.

Definition verifyExactContext (v : Validator) (now : Z) (hash purpose : string) (token : bytes)
    (ctx : ConsensusContext) (enforceAge : bool) : result aerr string :=
  if blank (cx_NetworkID ctx) || blank (cx_GenesisSnapshotID ctx) then Err EContext else
  let* addr := verify v now hash purpose token enforceAge in
  let* payload := payload_of token in
  guard* bool_decide (jp_NetworkID payload = cx_NetworkID ctx) &&
         bool_decide (jp_GenesisSnapshotID payload = cx_GenesisSnapshotID ctx) &&
         bool_decide (jp_AuthorityEpoch payload = Some (cx_AuthorityEpoch ctx)) else EContextMismatch in
  Ok addr.

Fixpoint hex_digits (s : string) : bool :=
  match s with
  | EmptyString => true
  | String c s =>
      let n := N_of_ascii c in
      (((48 <=? n) && (n <=? 57)) || ((97 <=? n) && (n <=? 102)) || ((65 <=? n) && (n <=? 70)))%N && hex_digits s
  end.

Fixpoint all_zero (s : string) : bool :=
  match s with EmptyString => true | String c s => bool_decide (c = "0"%char) && all_zero s end.

Definition normalizeSignerAddress (signer : string) : result aerr string :=
  let s := ToLower signer in
  guard* bool_decide (String.length s = 42) && has_prefix "0x" s else ESigner in
  let digits := trim_prefix "0x" s in
  guard* hex_digits digits && negb (all_zero digits) else ESigner in
  Ok s.

(** No clock is read: the age is not enforced. *)
Definition verifySignedBy (wantHash purpose : string) (token : bytes) (signer : string) : result aerr unit :=
  let* want := normalizeSignerAddress signer in
  let* _ := verify (mkValidator {[want]} 0) 0 wantHash purpose token false in
  Ok ().

(** ** The families *)
Definition SignPromotion (s : Signer) (c : PromoteSafePartition) (iat : Z) : result aerr bytes :=
  let* h := PromoteCommandHash c in signPlain s PromotionPurpose h iat.
Definition SignPromotionWithContextAt (s : Signer) (c : PromoteSafePartition) (ctx : ConsensusContext) (iat : Z)
    : result aerr bytes := let* h := PromoteCommandHash c in signWithContext s h ctx iat.
Definition AuthorizePromotion (v : Validator) (now : Z) (c : PromoteSafePartition) (token : bytes) : result aerr string :=
  let* h := PromoteCommandHash c in authorize v now h token.

Definition SignCleanup (s : Signer) (c : UnsafeCleanup) (iat : Z) : result aerr bytes :=
  let* h := CleanupCommandHash c in signPlain s PromotionPurpose h iat.
Definition SignCleanupWithContextAt (s : Signer) (c : UnsafeCleanup) (ctx : ConsensusContext) (iat : Z)
    : result aerr bytes := let* h := CleanupCommandHash c in signWithContext s h ctx iat.
Definition AuthorizeCleanup (v : Validator) (now : Z) (c : UnsafeCleanup) (token : bytes) : result aerr string :=
  let* h := CleanupCommandHash c in authorize v now h token.

Definition SignEvictNodeWithContextAt (s : Signer) (c : EvictNodeCommand) (ctx : ConsensusContext) (iat : Z)
    : result aerr bytes := let* h := EvictNodeHash c in signWithContextPurpose s h EvictNodePurpose ctx iat.
Definition verifyEvictNode (v : Validator) (now : Z) (c : EvictNodeCommand) (token : bytes) (ctx : ConsensusContext)
    (enforceAge : bool) : result aerr string :=
  let* h := EvictNodeHash c in verifyExactContext v now h EvictNodePurpose token ctx enforceAge.

Definition SignQuarantineIndexerWithContextAt (s : Signer) (c : QuarantineIndexerCommand) (ctx : ConsensusContext) (iat : Z)
    : result aerr bytes := let* h := QuarantineIndexerHash c in signWithContextPurpose s h QuarantineIndexerPurpose ctx iat.
Definition verifyQuarantineIndexer (v : Validator) (now : Z) (c : QuarantineIndexerCommand) (token : bytes) (ctx : ConsensusContext)
    (enforceAge : bool) : result aerr string :=
  let* h := QuarantineIndexerHash c in verifyExactContext v now h QuarantineIndexerPurpose token ctx enforceAge.

Definition SignReleaseIndexerWithContextAt (s : Signer) (c : ReleaseIndexerCommand) (ctx : ConsensusContext) (iat : Z)
    : result aerr bytes := let* h := ReleaseIndexerHash c in signWithContextPurpose s h ReleaseIndexerPurpose ctx iat.
Definition verifyReleaseIndexer (v : Validator) (now : Z) (c : ReleaseIndexerCommand) (token : bytes) (ctx : ConsensusContext)
    (enforceAge : bool) : result aerr string :=
  let* h := ReleaseIndexerHash c in verifyExactContext v now h ReleaseIndexerPurpose token ctx enforceAge.

Definition SignRebalanceGroupWithContextAt (s : Signer) (c : RebalanceGroupCommand) (ctx : ConsensusContext) (iat : Z)
    : result aerr bytes := let* h := RebalanceGroupHash c in signWithContextPurpose s h RebalanceGroupPurpose ctx iat.
Definition verifyRebalanceGroup (v : Validator) (now : Z) (c : RebalanceGroupCommand) (token : bytes) (ctx : ConsensusContext)
    (enforceAge : bool) : result aerr string :=
  let* h := RebalanceGroupHash c in verifyExactContext v now h RebalanceGroupPurpose token ctx enforceAge.

Definition SignReselectVerifiersWithContextAt (s : Signer) (c : ReselectVerifiersCommand) (ctx : ConsensusContext) (iat : Z)
    : result aerr bytes := let* h := ReselectVerifiersHash c in signWithContextPurpose s h ReselectVerifiersPurpose ctx iat.
Definition verifyReselectVerifiers (v : Validator) (now : Z) (c : ReselectVerifiersCommand) (token : bytes) (ctx : ConsensusContext)
    (enforceAge : bool) : result aerr string :=
  let* h := ReselectVerifiersHash c in verifyExactContext v now h ReselectVerifiersPurpose token ctx enforceAge.

Definition SignMarkMemberLaggingWithContextAt (s : Signer) (c : MarkMemberLaggingCommand) (ctx : ConsensusContext) (iat : Z)
    : result aerr bytes := let* h := MarkMemberLaggingHash c in signWithContextPurpose s h MarkMemberLaggingPurpose ctx iat.
Definition verifyMarkMemberLagging (v : Validator) (now : Z) (c : MarkMemberLaggingCommand) (token : bytes) (ctx : ConsensusContext)
    (enforceAge : bool) : result aerr string :=
  let* h := MarkMemberLaggingHash c in verifyExactContext v now h MarkMemberLaggingPurpose token ctx enforceAge.

Definition SignSettleTrackWithContextAt (s : Signer) (c : SettleTrackCommand) (ctx : ConsensusContext) (iat : Z)
    : result aerr bytes := let* h := SettleTrackHash c in signWithContextPurpose s h SettleTrackPurpose ctx iat.
Definition AuthorizeSettleTrack (v : Validator) (now : Z) (c : SettleTrackCommand) (token : bytes)
    (ctx : ConsensusContext) : result aerr string :=
  let* h := SettleTrackHash c in verifyExactContext v now h SettleTrackPurpose token ctx true.

Definition SignSnapshotQueryAbortAt (s : Signer) (r : SnapshotQueryAbortRecord) (iat : Z) : result aerr bytes :=
  let* h := SnapshotQueryAbortHash r in signPlain s SnapshotQueryAbortPurpose h iat.
Definition VerifySnapshotQueryAbort (v : Validator) (now : Z) (r : SnapshotQueryAbortRecord) (token : bytes)
    : result aerr string :=
  let* h := SnapshotQueryAbortHash r in verify v now h SnapshotQueryAbortPurpose token false.
Definition AuthorizeSnapshotQueryAbort (v : Validator) (now : Z) (r : SnapshotQueryAbortRecord) (token : bytes)
    : result aerr string :=
  let* h := SnapshotQueryAbortHash r in verify v now h SnapshotQueryAbortPurpose token true.

Definition SignGroupMemberConsentAt (s : Signer) (c : GroupMemberConsentStatement) (iat : Z) : result aerr bytes :=
  let* h := GroupMemberConsentHash c in signPlain s GroupMemberConsentPurpose h iat.
Definition VerifyGroupMemberConsent (c : GroupMemberConsentStatement) (jws : bytes) (signer : string) : result aerr unit :=
  let* h := GroupMemberConsentHash c in verifySignedBy h GroupMemberConsentPurpose jws signer.

Definition SignMemberCheckpointAt (s : Signer) (ctx : MessageContext) (cp : MemberCheckpoint) (iat : Z)
    : result aerr bytes := let* h := MemberCheckpointHash ctx cp in signPlain s MemberCheckpointPurpose h iat.
Definition VerifyMemberCheckpoint (ctx : MessageContext) (cp : MemberCheckpoint) (jws : bytes) (replicaSigner : string)
    : result aerr unit := let* h := MemberCheckpointHash ctx cp in verifySignedBy h MemberCheckpointPurpose jws replicaSigner.

Definition SignSNodeEnrollmentAt (s : Signer) (c : SNodeEnrollmentStatement) (iat : Z) : result aerr bytes :=
  let* h := SNodeEnrollmentHash c in signPlain s SNodeEnrollmentPurpose h iat.
Definition VerifySNodeEnrollment (c : SNodeEnrollmentStatement) (jws : bytes) (signer : string) : result aerr unit :=
  let* h := SNodeEnrollmentHash c in verifySignedBy h SNodeEnrollmentPurpose jws signer.

Definition SignSNodeMessageAt (s : Signer) (kind : SNodeMessageKind) (ctx : MessageContext) (b : MessageBody) (iat : Z)
    : result aerr bytes := let* h := SNodeMessageHash kind ctx b in signPlain s SNodeMessagePurpose h iat.
Definition VerifySNodeMessage (kind : SNodeMessageKind) (ctx : MessageContext) (b : MessageBody) (jws : bytes)
    (signer : string) : result aerr unit :=
  let* h := SNodeMessageHash kind ctx b in verifySignedBy h SNodeMessagePurpose jws signer.
End tokens.
End Tokens.
